(* ===== verification/_CoqProject ===== *)
-Q . S2P
Prelude.v
HeapLogic.v
LinuxList.v
LinuxListRefine.v
LinuxHlist.v
SpinLock.v
TicketLock.v
Mpool.v
MessageQueue.v
Scheduler.v
FdSched.v
Application.v
Buddy.v
PageAlloc.v
EarlyAlloc.v
PkvmEarlyAlloc.v
Pgtable.v
Talloc.v
TutorialList.v
SearchTree.v
MutableMap.v
Arrays.v
Sorting.v
ListSort.v
BTree.v
BTreeRefine.v
BTreeInsert.v
PgWalk.v
PgWalkRefine.v
PgWalkReports.v
NextPerm.v
ListToTree.v
Queue.v
CallerList.v
SmallAlloc.v
LockTest.v
Words.v
Basics.v
PaperExamples.v
ListExercises.v
TreeSet.v
FeatureTests.v
Provenance.v
Sockets.v
Stubs.v
