(* ===== verification/Prelude.v ===== *)
(** * Verified C code of the RefinedC repository

    RefinedC verifies C programs annotated with refinement and ownership types.
    This development verifies C programs of its repository from their code
    alone: it translates them into Rocq functions and proves what they do,
    independently of the annotations and with total correctness, where the
    annotations state partial correctness.

    ** How C is modelled

    A C function is a function of the monad [M] below: it returns a value and a
    new memory, or stops with an [error].  The memory (HeapLogic.v) is a finite
    map from addresses to cells, one per scalar, at the offsets the ABI of a
    64-bit machine gives to struct members; a cell without a value is
    uninitialised, and an access to a missing or uninitialised cell or to the
    null pointer is undefined behaviour.  Integers are in Z with their width
    written out: [u64] and its like wrap around, [signed] fails on overflow.
    [malloc] is a parameter constrained by what the C standard says of it: it
    fails, or returns storage apart from all live objects.  Theorems on programs
    that allocate assume moreover, with the class [AllocatorTotal], that it
    does not fail; where it does, [xmalloc] of the repository never returns.
    The same class gives storage to local variables whose address is taken.
    It can hold because addresses are not bounded in the model.
    HeapLogic.v builds a separation logic over this memory as an instance of the
    proof mode of Iris: the triple [{{ P }} c {{ x, Q }}] says that [c] returns, on
    every memory with a part that satisfies [P], touching no other part; and
    [stops P c e] that [c] ends with the error [e].

    Loops and recursions without a bound in the source take fuel.  Where the
    bound is a number in the code or a length that is known, the fuel is that
    number.  Else [with_fuel] gives one turn per cell of the memory: every turn
    of such a loop visits another object, so the fuel is always enough, and the
    triples prove it, since running out of it is an [error].  Loops that can
    never end (spinning on a lock the only thread holds, [while(1);]) are the
    error [NonTermination].

    ** Parts and files

    Prelude.v has the outcomes, the monad and the machine integers; HeapLogic.v
    the memory and its logic; Arrays.v arrays of scalars.

    - Linux lists (src/linux/no_proofs/list.c): LinuxList.v ([ListHead]),
      LinuxHlist.v ([Hlist]), LinuxListRefine.v ([ListMachine]).  Every function
      and macro; any script of calls on the heap refines a machine on
      collections of sequences; the iteration macros visit every entry once.
    - Locks: SpinLock.v (src/examples/spinlock.c) and TicketLock.v
      (src/linux/pkvm/spinlock.c), as step relations over any number of threads.
      Mutual exclusion, also of scripts of calls with single locks and pairs,
      first-come-first-served order, no deadlock.  LockTest.v
      (src/examples/lock.c): the calls of any number of threads on data behind
      the lock, interleaved at every access, take effect one at a time.
    - pKVM memory: PageAlloc.v with the arithmetic in Buddy.v (the buddy allocator
      of src/linux/casestudies/page_alloc.c, on top of the lists and the lock),
      EarlyAlloc.v and PkvmEarlyAlloc.v (src/linux/casestudies/early_alloc.c and
      src/linux/pkvm/early_alloc.c, two of three allocators behind one interface),
      Pgtable.v (page-table entries, src/linux/casestudies/pgtable.c), PgWalk.v,
      PgWalkRefine.v and PgWalkReports.v (the page-table walker of
      src/linux/no_proofs/pgtable.c, with the helpers of headers that are not in
      the repository as parameters of the class [KvmHeaders] and what the code
      relies on in [KvmHeadersSpec]), and [FindBuddy] of Words.v
      (src/linux/casestudies/page_alloc_find_buddy.c).  Blocks
      handed out are aligned, were free, and are coalesced when their last
      reference goes; requests fail only when nothing fits; entries encode
      exactly the requested fields; the walk over tables in memory is the
      recursive walk of the tree they form, visitor calls included, and reports
      the leaves of its range when it starts at the start of a block; when it
      does not, it is shown exactly when the last one is missed.
    - Hafnium pools: Mpool.v (src/examples/mpool.c, with the spinlock).  Every word
      handed out or taken back is accounted for, fallback chains included.
    - The scheduler of src/examples/scheduler: MessageQueue.v (message.h and
      priority.h), Scheduler.v (scheduler.h), FdSched.v (fdsched.c), Application.v
      (main.c), Sockets.v (io.c and the channels main opens).  The non-preemptive
      scheduler is a stable priority queue; its main loop handles messages by
      priority and returns at the first failure, and the application ends at the
      first exit message, with every message read handled or pending.  The
      classification of messages and the callbacks are type classes that the
      application instantiates; the calls of the operating system are parameters.
      The channels are different open descriptors; a socket that cannot be bound
      is left open.
    - The tutorial programs: Talloc.v (src/tutorial/t04_alloc.c, first fit behind
      the class [TallocInterface]), TutorialList.v (t03_list.c, t05_main.c,
      src/examples/latch.c), SearchTree.v (t08_tree.c), TreeSet.v
      (t11_tree_set.c), ListSort.v (quicksort_solution.c), Basics.v (the
      first steps: t00_intro.c, t01_basic.c, t06_struct.c, t07_arrays.c,
      t09_switch.c, t10_loops.c, lithium.c, VerifyThis/t01_refinements.c),
      ListExercises.v (the other files of tutorial/VerifyThis).  Lists
      refine sequences and trees finite sets; the list sort never returns.
    - Data structures of src/examples: MutableMap.v (mutable_map.c: the hash map
      refines finite maps and amortises its doubling), Sorting.v (quick_sort.c,
      binary_search.c), BTree.v, BTreeRefine.v and BTreeInsert.v (btree.c: look-ups
      and insertions refine finite maps and keep the balance, except for one
      kind of split that is undefined behaviour), Queue.v (queue.c: scripts of
      calls refine a list used first in first out), CallerList.v (reverse.c),
      SmallAlloc.v (malloc1.c, mpool_simpl.c, talk_demo_alloc.c and
      talk_demo_alloc_full.c: the slab accounts for every entry), Words.v
      (tagged_ptr.c, ocaml_runtime.c, wrapping_add.c, shift.c, flags.c: encodings
      in words and their round trips), PaperExamples.v (paper_example_2_1.c,
      paper_example_2_2.c, the talk demos, simple_union.c, container_of.c),
      FeatureTests.v (pointers.c, tests.c and src/tutorial/t02_evars.c).
    - Pointers and integers: Provenance.v (src/examples/intptr.c), over a memory
      of its own in which pointers and integers remember their allocation.  The
      functions are type safe, and the round trips that keep the allocation give
      the pointer back.
    - The stub of the frontend (src/frontend/stubs.c): Stubs.v.  It returns or
      raises what [realpath] says and frees what it gets; the C library and the
      OCaml runtime are parameters.
    - The VerifyThis challenges (src/examples/VerifyThis2021): NextPerm.v
      (challenge1.c: the next permutation in lexicographic order, and all of them
      in turn) and ListToTree.v (challenge2.c: a list relinked into a balanced
      search tree).

    Theorems whose comment carries a number (C1, C2, ...) are the main results;
    each with hypotheses is followed by a [_witness] that applies it to a
    concrete input.

    ** What is not modelled

    - The type system of RefinedC and the semantics of Caesium (theories/) and
      the translation of annotated C (frontend/): they are Rocq and OCaml, not C
      programs of the repository.
    - Weak memory and preemption inside of the heap programs: concurrency is
      modelled for the locks and lock.c only, at sequentially consistent accesses.
    - Bytes and padding of scalars; unions are words.  Pointer provenance is
      modelled in Provenance.v only: the other files do not turn integers into
      pointers except to tag, mask and convert addresses, where the number is
      what matters.
    - Output and sleeping of the scheduler's application.
    - Code that occurs more than once is modelled once where the copies differ in
      annotations only (talk_demo1.c and talk_demo2.c, quicksort_exercise.c). *)
From stdpp Require Import base numbers list gmap.
From iris.proofmode Require Import proofmode.

#[global] Open Scope Z_scope.

(** ** Outcomes of C code

    A run of a C function either returns a value in a new state or stops for
    one of the reasons below.  [NonTermination] is a loop the source can never
    leave (spinning on a lock its own thread holds, [while(1);]); [OutOfFuel]
    only says that the bound given to a loop of the model was too small, so
    that no theorem can confuse the two. *)
Inductive error : Set :=
  | UndefinedBehaviour
  | AssertionFailure
  | NonTermination
  | OutOfFuel.

#[export] Instance error_eq_dec : EqDecision error.
Proof. solve_decision. Defined.

Inductive result (S A : Type) : Type :=
  | Ok (a : A) (s : S)
  | Err (e : error).
Arguments Ok {S A} a s.
Arguments Err {S A} e.

(** The monad of C code over a state [S]. *)
Definition M (S A : Type) : Type := S → result S A.

#[export] Instance M_ret {S} : MRet (M S) := λ A a s, Ok a s.
#[export] Instance M_bind {S} : MBind (M S) := λ A B k c s,
  match c s with
  | Ok a s' => k a s'
  | Err e => Err e
  end.

Definition fail {S A} (e : error) : M S A := λ _, Err e.
Definition get {S} : M S S := λ s, Ok s s.
Definition put {S} (s : S) : M S unit := λ _, Ok tt s.
Definition modify {S} (f : S → S) : M S unit := λ s, Ok tt (f s).
Definition gets {S A} (f : S → A) : M S A := λ s, Ok (f s) s.

(** [assert(b)] of [<assert.h>]. *)
Definition c_assert {S} (b : bool) : M S unit :=
  if b then mret tt else fail AssertionFailure.

(** A value that the C standard leaves undefined when it is absent. *)
Definition some_or_ub {S A} (o : option A) : M S A :=
  match o with
  | Some a => mret a
  | None => fail UndefinedBehaviour
  end.

(** ** Machine integers *)

Definition wrap (w z : Z) : Z := z mod 2 ^ w.
Abbreviation u8 := (wrap 8).
Abbreviation u16 := (wrap 16).
Abbreviation u32 := (wrap 32).
Abbreviation u64 := (wrap 64).

(** Bitwise complement at width [w]. *)
Definition cnot (w z : Z) : Z := wrap w (Z.lnot z).

Definition in_unsigned (w z : Z) : Prop := 0 ≤ z < 2 ^ w.
Definition in_signed (w z : Z) : Prop := - 2 ^ (w - 1) ≤ z < 2 ^ (w - 1).

#[export] Instance in_unsigned_dec w z : Decision (in_unsigned w z).
Proof. unfold in_unsigned. apply _. Defined.
#[export] Instance in_signed_dec w z : Decision (in_signed w z).
Proof. unfold in_signed. apply _. Defined.

(** Signed arithmetic at width [w] is undefined when its result overflows. *)
Definition signed {S} (w z : Z) : M S Z :=
  if decide (in_signed w z) then mret z else fail UndefinedBehaviour.

(** [v << i] and [v >> i] at type [unsigned long]; the count must be below the
    width. *)
Definition shl64 {S} (v i : Z) : M S Z :=
  if decide (0 ≤ i < 64) then mret (u64 (Z.shiftl v i)) else fail UndefinedBehaviour.
Definition shr64 {S} (v i : Z) : M S Z :=
  if decide (0 ≤ i < 64) then mret (Z.shiftr v i) else fail UndefinedBehaviour.

(** [__builtin_ffsll]: one plus the index of the least significant 1-bit of
    its 64-bit argument, or zero. *)
Fixpoint ffs_from (n : nat) (i x : Z) : Z :=
  match n with
  | O => 0
  | S n => if Z.testbit x i then i + 1 else ffs_from n (i + 1) x
  end.
Definition ffsll (x : Z) : Z := ffs_from 64 0 x.

Lemma wrap_small w z : in_unsigned w z → wrap w z = z.
Proof. apply Z.mod_small. Qed.

Lemma wrap_range w z : 0 ≤ w → in_unsigned w (wrap w z).
Proof. intros. apply Z.mod_pos_bound. lia. Qed.

Lemma wrap_wrap w z : 0 ≤ w → wrap w (wrap w z) = wrap w z.
Proof. intros. apply wrap_small, wrap_range; lia. Qed.

Lemma wrap_land w z : 0 ≤ w → wrap w z = Z.land z (Z.ones w).
Proof. intros. unfold wrap. by rewrite Z.land_ones. Qed.

Lemma wrap_testbit w z i :
  0 ≤ w → Z.testbit (wrap w z) i = bool_decide (i < w) && Z.testbit z i.
Proof.
  intros. unfold wrap. destruct (decide (i < 0)).
  { rewrite !Z.testbit_neg_r; [|lia..]. by rewrite andb_false_r. }
  case_bool_decide.
  - rewrite Z.mod_pow2_bits_low; [done|lia].
  - by rewrite Z.mod_pow2_bits_high; [|lia].
Qed.

(** ** Lists *)

(** Updating one element of a list changes one segment of its image. *)
Lemma list_bind_insert {A B} (f : A → list B) (l : list A) i x y :
  l !! i = Some x →
  ∃ us vs, l ≫= f = us ++ f x ++ vs ∧ <[i := y]> l ≫= f = us ++ f y ++ vs.
Proof.
  intros Hi. exists (take i l ≫= f), (drop (S i) l ≫= f). split.
  - rewrite -{1}(take_drop_middle l i x Hi). by rewrite bind_app.
  - rewrite insert_take_drop; [|by eapply lookup_lt_Some]. by rewrite bind_app.
Qed.

(** Two positions of a list whose image has no duplicates. *)
Lemma list_bind_disjoint {A B} (f : A → list B) (l : list A) i j x y :
  NoDup (l ≫= f) → i ≠ j → l !! i = Some x → l !! j = Some y → f x ## f y.
Proof.
  intros Hn Hne Hi Hj b Hx Hy.
  destruct (decide (i < j)%nat) as [Hlt|Hge].
  - rewrite -(take_drop j l) bind_app in Hn. apply NoDup_app in Hn as (_ & Hn & _).
    apply (Hn b); apply list_elem_of_bind.
    + exists x. split; [done|]. apply list_elem_of_lookup. exists i. by rewrite lookup_take_lt.
    + exists y. split; [done|]. apply list_elem_of_lookup. exists 0%nat.
      by rewrite lookup_drop Nat.add_0_r.
  - rewrite -(take_drop i l) bind_app in Hn. apply NoDup_app in Hn as (_ & Hn & _).
    apply (Hn b); apply list_elem_of_bind.
    + exists y. split; [done|]. apply list_elem_of_lookup. exists j. rewrite lookup_take_lt //. lia.
    + exists x. split; [done|]. apply list_elem_of_lookup. exists 0%nat.
      by rewrite lookup_drop Nat.add_0_r.
Qed.
