(* ===== verification/HeapLogic.v ===== *)
(** * A separation logic for the C heap

    The memory of the pointer programs is a finite map from addresses to
    cells; a scalar lives in the cell of its first byte and a cell without a
    value is uninitialised.  [hProp] are the assertions on such memories, made
    an instance of the [bi] interface of Iris so that its proof mode is
    available, and [wp c Φ] says that [c] runs without undefined behaviour,
    without a failing assertion and within its fuel, from every memory that
    extends the one described, touches nothing of the extension, and ends with
    [Φ].  It is a total-correctness assertion: an [Err] of any kind refutes
    it. *)
From S2P Require Import Prelude.
From stdpp Require Import gmap.
From iris.bi Require Import interface derived_laws extensions.
From iris.proofmode Require Import proofmode environments coq_tactics reduction.

#[local] Open Scope Z_scope.

Abbreviation heap := (gmap Z (option Z)).

(** ** Assertions *)

Record hProp := HProp {
  hprop_holds :> heap → Prop;
  hprop_mono h1 h2 : h1 ⊆ h2 → hprop_holds h1 → hprop_holds h2;
}.
Add Printing Constructor hProp.

(** Equivalence and entailment are structures, so that unification never
    unfolds them. *)
Record hequiv (P Q : hProp) : Prop := HEquiv { hequiv_at h : P h ↔ Q h }.
Arguments HEquiv {P Q} _.
Arguments hequiv_at {P Q} _ h.

Section hprop_ofe.
#[local] Instance hprop_equiv : Equiv hProp := hequiv.
#[local] Instance hprop_equivalence : Equivalence (≡@{hProp}).
Proof.
  split; [by intros P; apply HEquiv|by intros P Q [H]; apply HEquiv; intros h; symmetry|].
  intros P Q R [HPQ] [HQR]. apply HEquiv. intros h. by trans (Q h).
Qed.
Canonical Structure hpropO := discreteO hProp.
End hprop_ofe.

Record hentails (P Q : hProp) : Prop := HEntails { hentails_at h : P h → Q h }.
Arguments HEntails {P Q} _.
Arguments hentails_at {P Q} _ h _.

#[local] Ltac hunfold := intros; apply HEntails; intros h; simpl.

Program Definition hpure (φ : Prop) : hProp := HProp (λ _, φ) _.
Next Obligation. done. Qed.

Definition hemp : hProp := hpure True.

Program Definition hand (P Q : hProp) : hProp := HProp (λ h, P h ∧ Q h) _.
Next Obligation. intros P Q h1 h2 ? [??]; eauto using hprop_mono. Qed.

Program Definition hor (P Q : hProp) : hProp := HProp (λ h, P h ∨ Q h) _.
Next Obligation. intros P Q h1 h2 ? [?|?]; eauto using hprop_mono. Qed.

Program Definition himpl (P Q : hProp) : hProp :=
  HProp (λ h, ∀ h', h ⊆ h' → P h' → Q h') _.
Next Obligation. intros P Q h1 h2 ? Hi h' ??. apply Hi; [by etrans|done]. Qed.

Program Definition hforall {A} (Φ : A → hProp) : hProp := HProp (λ h, ∀ a, Φ a h) _.
Next Obligation. intros A Φ h1 h2 ? H a. eauto using hprop_mono. Qed.

Program Definition hexist {A} (Φ : A → hProp) : hProp := HProp (λ h, ∃ a, Φ a h) _.
Next Obligation. intros A Φ h1 h2 ? [a ?]. eauto using hprop_mono. Qed.

Program Definition hsep (P Q : hProp) : hProp :=
  HProp (λ h, ∃ h1 h2, h = h1 ∪ h2 ∧ h1 ##ₘ h2 ∧ P h1 ∧ Q h2) _.
Next Obligation.
  intros P Q h h' Hsub (h1 & h2 & -> & Hd & HP & HQ).
  exists h1, (h' ∖ h1). split_and!.
  - symmetry. apply map_difference_union. etrans; [|done]. by apply map_union_subseteq_l.
  - by apply map_disjoint_difference_r1.
  - done.
  - eapply hprop_mono; [|done]. apply map_subseteq_spec. intros i x Hi.
    apply lookup_difference_Some. split.
    + eapply lookup_weaken; [|done]. by apply lookup_union_Some_r.
    + eapply map_disjoint_Some_r; [|done]. done.
Qed.

Program Definition hwand (P Q : hProp) : hProp :=
  HProp (λ h, ∀ h', h ##ₘ h' → P h' → Q (h ∪ h')) _.
Next Obligation.
  intros P Q h1 h2 Hsub Hw h' Hd HP.
  eapply hprop_mono; [|apply Hw; [|done]].
  - apply map_union_mono_r; done.
  - by eapply map_disjoint_weaken_l.
Qed.

Definition hpersistently (P : hProp) : hProp := hpure (hentails hemp P).

Lemma hprop_bi_mixin :
  BiMixin (PROP:=hProp) hentails hemp hpure hand hor himpl (@hforall) (@hexist) hsep hwand.
Proof.
  split.
  - split; [by intros P; apply HEntails|].
    intros P Q R [HPQ] [HQR]. apply HEntails. eauto.
  - intros P Q; split; [intros [H]; split; apply HEntails; apply H|].
    intros [[H1] [H2]]. apply HEquiv. intros h; split; [apply H1|apply H2].
  - intros n φ φ' Hφ. apply HEquiv. intros h; apply Hφ.
  - intros n P P' [HP] Q Q' [HQ]. apply HEquiv. intros h; split; intros [??]; split;
      by [apply HP|apply HQ].
  - intros n P P' [HP] Q Q' [HQ]. apply HEquiv.
    intros h; split; (intros [?|?]; [left; by apply HP|right; by apply HQ]).
  - intros n P P' [HP] Q Q' [HQ]. apply HEquiv.
    intros h; split; intros Hi h' ??; apply HQ, Hi; try done; by apply HP.
  - intros A n Φ Ψ H. apply HEquiv. intros h; split; intros H' a; apply H, H'.
  - intros A n Φ Ψ H. apply HEquiv. intros h; split; intros [a ?]; exists a; by apply H.
  - intros n P P' [HP] Q Q' [HQ]. apply HEquiv.
    intros h; split; intros (h1&h2&->&?&?&?); exists h1, h2;
      (split_and!; [done..|by apply HP|by apply HQ]).
  - intros n P P' [HP] Q Q' [HQ]. apply HEquiv.
    intros h; split; intros Hw h' ??; apply HQ, Hw; try done; by apply HP.
  - by hunfold.
  - intros φ P Hφ. apply HEntails. intros h ?. by apply Hφ.
  - hunfold. by intros [??].
  - hunfold. by intros [??].
  - intros P Q R [HQ] [HR]. hunfold. by split; [apply HQ|apply HR].
  - hunfold. by left.
  - hunfold. by right.
  - intros P Q R [HP] [HQ]. hunfold. intros [?|?]; by [apply HP|apply HQ].
  - intros P Q R [HR]. hunfold. intros HP h' Hsub HQ. apply HR.
    split; [|done]. by eapply hprop_mono.
  - intros P Q R [HR]. hunfold. intros [HP HQ]. by apply (HR h HP h).
  - intros A P Ψ HΨ. hunfold. intros HP a. by apply (HΨ a).
  - hunfold. intros H. apply H.
  - hunfold. eauto.
  - intros A Φ Q H. hunfold. intros [a ?]. by apply (H a).
  - intros P P' Q Q' [HP] [HQ]. hunfold. intros (h1&h2&->&?&?&?). exists h1, h2.
    split_and!; [done..|by apply HP|by apply HQ].
  - hunfold. intros HP. exists ∅, h. split_and!;
      [by rewrite map_empty_union|apply map_disjoint_empty_l|done|done].
  - hunfold. intros (h1&h2&->&?&_&?). eapply hprop_mono; [|done]. by apply map_union_subseteq_r.
  - hunfold. intros (h1&h2&->&?&?&?). exists h2, h1.
    split_and!; [by apply map_union_comm|done|done|done].
  - hunfold. intros (h12&h3&->&Hd&(h1&h2&->&?&?&?)&?).
    apply map_disjoint_union_l in Hd as [??].
    exists h1, (h2 ∪ h3). split_and!; [by rewrite assoc_L| |done|].
    + by apply map_disjoint_union_r.
    + by exists h2, h3.
  - intros P Q R [HR]. hunfold. intros HP h' Hd HQ. apply HR. by exists h, h'.
  - intros P Q R [HR]. hunfold. intros (h1&h2&->&?&?&?). by apply HR.
Qed.

Lemma hprop_bi_persistently_mixin :
  BiPersistentlyMixin (PROP:=hProp) hentails hemp hand (@hexist) hsep hpersistently.
Proof.
  eapply bi_persistently_mixin_discrete, hprop_bi_mixin; try done.
  intros A Φ [HΦ]. destruct (HΦ ∅ I) as [a Ha]. exists a. apply HEntails. intros h _.
  eapply hprop_mono; [apply map_empty_subseteq|done].
Qed.

Lemma hprop_bi_later_mixin :
  BiLaterMixin (PROP:=hProp) hentails hpure hor himpl
    (@hforall) (@hexist) hsep hpersistently (λ P, P).
Proof. eapply bi_later_mixin_id, hprop_bi_mixin. done. Qed.

Canonical Structure hPropI : bi :=
  {| bi_ofe_mixin := ofe_mixin_of hProp;
     bi_bi_mixin := hprop_bi_mixin;
     bi_bi_persistently_mixin := hprop_bi_persistently_mixin;
     bi_bi_later_mixin := hprop_bi_later_mixin |}.

#[export] Instance hprop_affine : BiAffine hPropI.
Proof. intros P. by apply HEntails. Qed.
#[export] Instance hprop_pure_forall : BiPureForall hPropI.
Proof. intros A φ. by apply HEntails. Qed.

Lemma hprop_entails_unfold (P Q : hProp) : (P ⊢ Q) ↔ ∀ h, P h → Q h.
Proof. split; [by intros [H]|intros H; by apply HEntails]. Qed.

#[local] Ltac hentail := apply bi.entails_wand, bi.wand_intro_r, HEntails.

(** ** Memory accesses *)

Definition NULL : Z := 0.

Definition load (a : Z) : M heap Z := λ h,
  if decide (a = NULL) then Err UndefinedBehaviour else
  match h !! a with
  | Some (Some v) => Ok v h
  | _ => Err UndefinedBehaviour
  end.

Definition store (a v : Z) : M heap unit := λ h,
  if decide (a = NULL) then Err UndefinedBehaviour else
  match h !! a with
  | Some _ => Ok tt (<[a := Some v]> h)
  | None => Err UndefinedBehaviour
  end.

(** [a ↦o w]: the cell [a] is owned and holds [w], where [None] is an
    uninitialised cell. *)
Program Definition pointsto (a : Z) (w : option Z) : hProp :=
  HProp (λ h, a ≠ NULL ∧ h !! a = Some w) _.
Next Obligation. intros a w h1 h2 ? [??]. split; [done|]. by eapply lookup_weaken. Qed.

Notation "a ↦o w" := (pointsto a w) (at level 20) : bi_scope.
Notation "a ↦ v" := (pointsto a (Some v)) (at level 20) : bi_scope.
Notation "a ↦?" := (∃ w, pointsto a w)%I (at level 20) : bi_scope.

(** ** Weakest preconditions *)

Program Definition wp {A} (c : M heap A) (Φ : A → hProp) : hProp :=
  HProp (λ h, ∀ hf, h ##ₘ hf →
    ∃ a h', c (h ∪ hf) = Ok a (h' ∪ hf) ∧ h' ##ₘ hf ∧ Φ a h') _.
Next Obligation.
  intros A c Φ h1 h2 Hsub Hwp hf Hd.
  destruct (Hwp (h2 ∖ h1 ∪ hf)) as (a & h' & Hc & Hd' & HΦ).
  { apply map_disjoint_union_r. split; [by apply map_disjoint_difference_r1|].
    by eapply map_disjoint_weaken_l. }
  apply map_disjoint_union_r in Hd' as [Hd1 Hd2].
  exists a, (h' ∪ h2 ∖ h1). split_and!.
  - rewrite -assoc_L -Hc assoc_L map_difference_union //.
  - apply map_disjoint_union_l. split; [done|]. by apply map_disjoint_difference_l2.
  - eapply hprop_mono; [|done]. apply map_union_subseteq_l.
Qed.
Arguments wp {A} c%_stdpp_scope Φ%_I : simpl never.

(** The total-correctness triple of the development. *)
Definition triple {A} (P : hProp) (c : M heap A) (Φ : A → hProp) : Prop := P ⊢ wp c Φ.

Notation "'{{' P '}}' c '{{' x , Q '}}'" := (triple P%I c (λ x, Q%I))
  (at level 20, c at level 200, x binder,
   format "'[hv' '{{'  P  '}}'  '/  ' c  '/' '{{'  x ,  Q  '}}' ']'") : stdpp_scope.

(** What a triple says of a run: from a memory that satisfies the
    precondition, with any disjoint rest, the code returns, the rest is
    unchanged, and the postcondition holds of what is left of its own part. *)
Lemma triple_run {A} (P : hProp) (c : M heap A) (Φ : A → hProp) (h hf : heap) :
  triple P c Φ → P h → h ##ₘ hf →
  ∃ a h', c (h ∪ hf) = Ok a (h' ∪ hf) ∧ h' ##ₘ hf ∧ Φ a h'.
Proof. intros Ht HP Hd. exact (hentails_at Ht h HP hf Hd). Qed.

Lemma triple_run_whole {A} (P : hProp) (c : M heap A) (Φ : A → hProp) (h : heap) :
  triple P c Φ → P h → ∃ a h', c h = Ok a h' ∧ Φ a h'.
Proof.
  intros Ht HP. destruct (triple_run P c Φ h ∅ Ht HP) as (a & h' & Hc & _ & HΦ).
  { apply map_disjoint_empty_r. }
  rewrite !map_union_empty in Hc. eauto.
Qed.

(** A memory given cell by cell satisfies the points-to of each cell. *)
Definition cells (l : list (Z * option Z)) : hPropI := ([∗ list] c ∈ l, c.1 ↦o c.2)%I.

Lemma cells_holds (l : list (Z * option Z)) :
  NoDup l.*1 → Forall (λ c, c.1 ≠ NULL) l → cells l (list_to_map l).
Proof.
  unfold cells. induction l as [|[a w] l IH]; intros Hn Hf; [exact I|].
  apply NoDup_cons in Hn as [Ha Hn]. apply Forall_cons in Hf as [H0 Hf].
  assert ((list_to_map l : heap) !! a = None) by by apply not_elem_of_list_to_map_1.
  exists {[a := w]}, (list_to_map l). split_and!.
  - simpl. by rewrite insert_union_singleton_l.
  - by apply map_disjoint_singleton_l.
  - split; [done|]. apply lookup_singleton_eq.
  - by apply IH.
Qed.

(** Running code from a memory given cell by cell. *)
Lemma triple_run_cells {A} (P : hProp) (c : M heap A) (Φ : A → hProp) l :
  triple P c Φ → NoDup l.*1 → Forall (λ c, c.1 ≠ NULL) l → (cells l ⊢ P) →
  ∃ a h', c (list_to_map l) = Ok a h' ∧ Φ a h'.
Proof.
  intros Ht Hn Hf HP. apply (triple_run_whole P); [done|]. apply HP. by apply cells_holds.
Qed.

(** ** Code that stops *)

(** From every memory that satisfies [P], with any disjoint rest, [c] ends
    with the error [e]. *)
Definition stops {A} (P : hProp) (c : M heap A) (e : error) : Prop :=
  ∀ h hf, P h → h ##ₘ hf → c (h ∪ hf) = Err e.

Lemma stops_bind {A B} (P : hProp) (c : M heap A) (Φ : A → hProp) (k : A → M heap B) e :
  triple P c Φ → (∀ a, stops (Φ a) (k a) e) → stops P (c ≫= k) e.
Proof.
  intros Ht Hk h hf HP Hd. destruct (triple_run P c Φ h hf Ht HP Hd) as (a & h' & Hc & Hd' & Ha).
  unfold mbind, M_bind. rewrite Hc. by apply Hk.
Qed.

Lemma stops_pure {A} (φ : Prop) (P : hProp) (c : M heap A) e :
  (φ → stops P c e) → stops (⌜φ⌝ ∗ P)%I c e.
Proof.
  intros Hφ h hf (h1 & h2 & -> & Hd & Hp & HP) Hdf. apply (Hφ Hp); [|done].
  eapply hprop_mono; [|done]. by apply map_union_subseteq_r.
Qed.

Lemma stops_exist {A B} (Φ : B → hProp) (c : M heap A) e :
  (∀ b, stops (Φ b) c e) → stops (∃ b, Φ b)%I c e.
Proof. intros HΦ h hf [b HP] Hd. by apply (HΦ b). Qed.

(** Code that returns a value and leaves the memory alone. *)
Lemma stops_value {A B} (P : hProp) (c : M heap A) (a : A) (k : A → M heap B) e :
  (∀ h, c h = Ok a h) → stops P (k a) e → stops P (c ≫= k) e.
Proof. intros Hc Hk h hf HP Hd. unfold mbind, M_bind. rewrite Hc. by apply Hk. Qed.

(** Code that does not return at all. *)
Lemma stops_first {A B} (P : hProp) (c : M heap A) (k : A → M heap B) e :
  stops P c e → stops P (c ≫= k) e.
Proof. intros Hc h hf HP Hd. unfold mbind, M_bind. by rewrite Hc. Qed.

Lemma stops_mono {A} (P Q : hProp) (c : M heap A) e : (P ⊢ Q) → stops Q c e → stops P c e.
Proof. intros HPQ Hc h hf HP Hd. apply Hc; [|done]. by apply (hentails_at HPQ). Qed.

Lemma stops_load {B} (P R : hProp) (a v : Z) (k : Z → M heap B) e :
  (P ⊢ a ↦ v ∗ R) → stops P (k v) e → stops P (load a ≫= k) e.
Proof.
  intros HPR Hk h hf HP Hd. unfold mbind, M_bind.
  destruct (hentails_at HPR h HP) as (h1 & h2 & -> & Hd12 & [Hn Ha] & _).
  assert (load a ((h1 ∪ h2) ∪ hf) = Ok v ((h1 ∪ h2) ∪ hf)) as ->; [|by apply Hk].
  unfold load. rewrite decide_False //.
  by rewrite (lookup_union_Some_l _ _ _ _ (lookup_union_Some_l _ _ _ _ Ha)).
Qed.

Section wp_rules.
Context {A : Type}.
Implicit Types (P R : hProp) (c : M heap A) (Φ Ψ : A → hProp).

Lemma wp_ret Φ (a : A) : Φ a ⊢ wp (mret a) Φ.
Proof. apply HEntails. intros h HΦ hf Hd. by exists a, h. Qed.

Lemma wp_bind {B} (k : B → M heap A) (c : M heap B) Φ :
  wp c (λ b, wp (k b) Φ) ⊢ wp (c ≫= k) Φ.
Proof.
  apply HEntails. intros h Hwp hf Hd. destruct (Hwp hf Hd) as (b & h' & Hc & Hd' & Hk).
  destruct (Hk hf Hd') as (a & h'' & Hk' & Hd'' & HΦ).
  exists a, h''. split_and!; [|done..].
  unfold mbind, M_bind. by rewrite Hc.
Qed.

Lemma wp_wand c Φ Ψ : wp c Φ -∗ (∀ a, Φ a -∗ Ψ a) -∗ wp c Ψ.
Proof.
  hentail.
  intros h (h1 & h2 & -> & Hd & Hwp & Hw) hf Hdf.
  apply map_disjoint_union_l in Hdf as [Hd1 Hd2].
  destruct (Hwp (h2 ∪ hf)) as (a & h' & Hc & Hd' & HΦ).
  { by apply map_disjoint_union_r. }
  apply map_disjoint_union_r in Hd' as [Hd'2 Hd'f].
  exists a, (h' ∪ h2). split_and!.
  - by rewrite -!assoc_L.
  - by apply map_disjoint_union_l.
  - rewrite map_union_comm //. apply (Hw a); [done|done].
Qed.

Lemma wp_mono c Φ Ψ : (∀ a, Φ a ⊢ Ψ a) → wp c Φ ⊢ wp c Ψ.
Proof.
  intros H. iIntros "Hwp". iApply (wp_wand with "Hwp"). iIntros (a) "HΦ". by iApply H.
Qed.

Lemma wp_frame_l R c Φ : R ∗ wp c Φ ⊢ wp c (λ a, R ∗ Φ a).
Proof.
  iIntros "[HR Hwp]". iApply (wp_wand with "Hwp"). iIntros (a) "HΦ". iFrame.
Qed.

#[global] Instance frame_wp p R c Φ Ψ :
  (∀ a, Frame p R (Φ a) (Ψ a)) → Frame p R (wp c Φ) (wp c Ψ) | 2.
Proof. rewrite /Frame. intros HR. rewrite wp_frame_l. apply wp_mono, HR. Qed.

(** Using a triple inside a proof. *)
Lemma wp_triple P c Φ Ψ : triple P c Φ → P -∗ (∀ a, Φ a -∗ Ψ a) -∗ wp c Ψ.
Proof. iIntros (Ht) "HP HΦ". iApply (wp_wand with "[HP]"); [by iApply Ht|done]. Qed.

Lemma wp_assert (b : bool) (k : unit → M heap A) Φ :
  b = true → wp (k tt) Φ ⊢ wp (c_assert b ≫= k) Φ.
Proof. intros ->. done. Qed.
End wp_rules.

Lemma wp_value {A} (c : M heap A) a Φ : (∀ h, c h = Ok a h) → Φ a ⊢ wp c Φ.
Proof. intros Hc. apply HEntails. intros h HΦ hf Hd. exists a, h. by rewrite Hc. Qed.

Lemma wp_signed w z Φ : in_signed w z → Φ z ⊢ wp (signed (S := heap) w z) Φ.
Proof. intros Hz. apply wp_value. intros h. unfold signed. by rewrite decide_True. Qed.

Lemma wp_load a v Φ : a ↦ v -∗ (a ↦ v -∗ Φ v) -∗ wp (load a) Φ.
Proof.
  hentail.
  intros h (h1 & h2 & -> & Hd & [Hn Ha] & Hw) hf Hdf. exists v, (h1 ∪ h2).
  split_and!; [|done|rewrite map_union_comm //; by apply Hw].
  unfold load. rewrite decide_False //.
  by rewrite (lookup_union_Some_l _ _ _ _ (lookup_union_Some_l _ _ _ _ Ha)).
Qed.

Lemma wp_store a w v Φ : a ↦o w -∗ (a ↦ v -∗ Φ tt) -∗ wp (store a v) Φ.
Proof.
  hentail.
  intros h (h1 & h2 & -> & Hd & [Hn Ha] & Hw) hf Hdf.
  exists tt, (<[a := Some v]> (h1 ∪ h2)). split_and!.
  - unfold store. rewrite decide_False //.
    rewrite (lookup_union_Some_l _ _ _ _ (lookup_union_Some_l _ _ _ _ Ha)).
    by rewrite insert_union_l.
  - apply map_disjoint_insert_l_2; [|done].
    eapply map_disjoint_Some_l; [done|]. by apply lookup_union_Some_l.
  - rewrite insert_union_l map_union_comm; last first.
    { apply map_disjoint_insert_l_2; [|done]. by eapply map_disjoint_Some_l. }
    apply Hw.
    + apply map_disjoint_insert_r_2; [|done]. by eapply map_disjoint_Some_l.
    + split; [done|]. by rewrite lookup_insert_eq.
Qed.

Lemma pointsto_not_null a w : a ↦o w ⊢ ⌜a ≠ NULL⌝.
Proof. apply HEntails. by intros h [??]. Qed.

Lemma pointsto_ne a b w w' : a ↦o w -∗ b ↦o w' -∗ ⌜a ≠ b⌝.
Proof.
  hentail.
  intros h (h1 & h2 & -> & Hd & [_ Ha] & [_ Hb]) ->.
  by eapply (map_disjoint_Some_l h1 h2) in Ha; [rewrite Ha in Hb|].
Qed.

(** *** Code that stops

    [wps c e] holds of the memories from which [c] stops with the error [e]. *)
Program Definition wps {A} (c : M heap A) (e : error) : hProp :=
  HProp (λ h, ∀ hf, h ##ₘ hf → c (h ∪ hf) = Err e) _.
Next Obligation.
  intros A c e h1 h2 Hsub Hc hf Hd.
  rewrite -(map_difference_union h1 h2) // -assoc_L. apply Hc. apply map_disjoint_union_r.
  split; [by apply map_disjoint_difference_r1|by eapply map_disjoint_weaken_l].
Qed.
Arguments wps {A} c%_stdpp_scope e : simpl never.

Lemma stops_wps {A} (P : hProp) (c : M heap A) e : (P ⊢ wps c e) → stops P c e.
Proof. intros HP h hf Hh Hd. by apply (hentails_at HP). Qed.

Lemma wps_fail {A} e : ⊢ wps (fail e : M heap A) e.
Proof. by apply HEntails. Qed.

Lemma wps_first {A B} (c : M heap A) (k : A → M heap B) e : wps c e ⊢ wps (c ≫= k) e.
Proof. apply HEntails. intros h Hc hf Hd. unfold mbind, M_bind. by rewrite Hc. Qed.

Lemma wps_bind {A B} (c : M heap A) (k : A → M heap B) e : wp c (λ a, wps (k a) e) ⊢ wps (c ≫= k) e.
Proof.
  apply HEntails. intros h Hc hf Hd. destruct (Hc hf Hd) as (a & h' & E & Hd' & Hk).
  unfold mbind, M_bind. rewrite E. by apply Hk.
Qed.

(** ** Allocation

    [malloc] and [free] belong to the C library: the address [malloc] picks is
    a parameter, constrained by what the standard says of it (a non-null
    address of a block that overlaps no live object).  Scalars are at most
    eight bytes wide. *)
Class Allocator := {
  malloc_addr : heap → Z → option Z;
  malloc_addr_pos h n a : malloc_addr h n = Some a → 0 < a;
  malloc_addr_fresh h n a b :
    malloc_addr h n = Some a → b ∈ dom h → b + 8 ≤ a ∨ a + n ≤ b;
}.

(** The hypothesis that memory does not run out.  It can hold, since addresses
    are not bounded here; without it, [xmalloc] may not return. *)
Class AllocatorTotal `{!Allocator} :=
  malloc_succeeds h n : is_Some (malloc_addr h n).

(** The scalars of a type: its size and the offsets of its fields. *)
Record layout := Layout { ly_size : Z; ly_fields : list Z }.
Definition layout_wf (ly : layout) : Prop :=
  NoDup (ly_fields ly) ∧ Forall (λ o, 0 ≤ o < ly_size ly) (ly_fields ly).

Definition block (p : Z) (ly : layout) : hPropI :=
  ([∗ list] o ∈ ly_fields ly, (p + o) ↦?)%I.

Definition init_fields (p : Z) (fs : list Z) : heap :=
  list_to_map ((λ o, (p + o, None)) <$> fs).

Definition malloc `{!Allocator} (ly : layout) : M heap Z := λ h,
  match malloc_addr h (ly_size ly) with
  | Some p => Ok p (init_fields p (ly_fields ly) ∪ h)
  | None => Ok NULL h
  end.

(** [xmalloc] of include/refinedc_malloc.h; [safe_exit] is [while(1){}]. *)
Definition xmalloc `{!Allocator} (ly : layout) : M heap Z :=
  p ← malloc ly;
  if decide (p = NULL) then fail NonTermination else mret p.

Fixpoint free_fields (p : Z) (fs : list Z) (h : heap) : result heap unit :=
  match fs with
  | [] => Ok tt h
  | o :: fs =>
      match h !! (p + o) with
      | Some _ => free_fields p fs (delete (p + o) h)
      | None => Err UndefinedBehaviour
      end
  end.

(** [free(p)]; freeing [NULL] does nothing. *)
Definition free (ly : layout) (p : Z) : M heap unit := λ h,
  if decide (p = NULL) then Ok tt h else free_fields p (ly_fields ly) h.

Lemma init_fields_block p fs :
  NoDup fs → Forall (λ o, p + o ≠ NULL) fs →
  ([∗ list] o ∈ fs, (p + o) ↦? : hPropI)%I (init_fields p fs).
Proof.
  induction fs as [|o fs IH]; intros Hnd Hall; [exact I|].
  apply NoDup_cons in Hnd as [Hno Hnd]. apply Forall_cons in Hall as [Ho Hall].
  assert (init_fields p fs !! (p + o) = None) as Hfresh.
  { apply not_elem_of_list_to_map_1. rewrite -list_fmap_compose.
    intros (o' & Heq & ?)%list_elem_of_fmap. simpl in Heq.
    by assert (o = o') as -> by lia. }
  exists {[p + o := None]}, (init_fields p fs). split_and!.
  - unfold init_fields. simpl. by rewrite insert_union_singleton_l.
  - by apply map_disjoint_singleton_l.
  - exists None. split; [done|]. by rewrite lookup_singleton_eq.
  - by apply IH.
Qed.

Lemma wp_xmalloc `{!Allocator, !AllocatorTotal} ly Φ :
  layout_wf ly → (∀ p, ⌜p ≠ NULL⌝ -∗ block p ly -∗ Φ p) ⊢ wp (xmalloc ly) Φ.
Proof.
  intros [Hnd Hall]. apply HEntails. intros h HΦ hf Hd.
  unfold xmalloc, malloc, mbind, M_bind.
  destruct (malloc_succeeds (h ∪ hf) (ly_size ly)) as [p Hp]. rewrite Hp.
  pose proof (malloc_addr_pos _ _ _ Hp) as Hpos.
  assert (init_fields p (ly_fields ly) ##ₘ h ∪ hf) as Hdp.
  { apply map_disjoint_spec. intros b x y Hb Hh.
    apply elem_of_list_to_map_2, list_elem_of_fmap in Hb as (o & ? & Ho); simplify_eq.
    destruct (malloc_addr_fresh _ _ _ (p + o) Hp) as [?|?]; [by eapply elem_of_dom_2| |];
      eapply (proj1 (Forall_forall _ _) Hall) in Ho; lia. }
  apply map_disjoint_union_r in Hdp as [Hdh Hdf].
  rewrite decide_False; [|unfold NULL; lia].
  exists p, (h ∪ init_fields p (ly_fields ly)). split_and!.
  - by rewrite (map_union_comm h (init_fields _ _)) ?assoc_L.
  - by apply map_disjoint_union_l.
  - assert (p ≠ NULL) as Hn by (unfold NULL; lia).
    assert ((block p ly) (init_fields p (ly_fields ly))) as Hb.
    { apply init_fields_block; [done|]. eapply Forall_impl; [done|].
      simpl. unfold NULL. lia. }
    pose proof (HΦ p ∅ (map_disjoint_empty_r _) Hn) as HΦ'.
    rewrite map_union_empty in HΦ'. by apply HΦ'.
Qed.

(** When [malloc] fails, [xmalloc] leaves the program. *)
Lemma xmalloc_fails `{!Allocator} ly h :
  malloc_addr h (ly_size ly) = None → xmalloc ly h = Err NonTermination.
Proof. intros Hn. unfold xmalloc, malloc, mbind, M_bind. by rewrite Hn. Qed.

Lemma free_fields_frame p fs h hf :
  h ##ₘ hf → ([∗ list] o ∈ fs, (p + o) ↦? : hPropI)%I h →
  ∃ h', free_fields p fs (h ∪ hf) = Ok tt (h' ∪ hf) ∧ h' ##ₘ hf.
Proof.
  revert h. induction fs as [|o fs IH]; intros h Hd Hb; [by exists h|].
  destruct Hb as (h1 & h2 & -> & Hd12 & [w [_ Ho]] & Hfs). simpl.
  rewrite (lookup_union_Some_l _ _ _ _ (lookup_union_Some_l _ _ _ _ Ho)).
  assert (hf !! (p + o) = None) as Hf.
  { eapply map_disjoint_Some_l; [done|]. by apply lookup_union_Some_l. }
  rewrite delete_union (delete_id hf) //.
  apply (IH (delete (p + o) (h1 ∪ h2))).
  - by apply map_disjoint_delete_l.
  - eapply hprop_mono; [|exact Hfs]. rewrite delete_union.
    rewrite (delete_id h2); [|by eapply map_disjoint_Some_l].
    apply map_union_subseteq_r. by apply map_disjoint_delete_l.
Qed.

Lemma wp_free ly p Φ : block p ly -∗ Φ tt -∗ wp (free ly p) Φ.
Proof.
  hentail. intros h (h1 & h2 & -> & Hd & Hb & HΦ) hf Hdf.
  apply map_disjoint_union_l in Hdf as [Hd1 Hd2]. unfold free.
  case_decide.
  - exists tt, (h1 ∪ h2). split_and!; [done|by apply map_disjoint_union_l|].
    eapply hprop_mono; [|done]. by apply map_union_subseteq_r.
  - destruct (free_fields_frame p (ly_fields ly) h1 (h2 ∪ hf)) as (h' & Hfree & Hd');
      [by apply map_disjoint_union_r|done|].
    apply map_disjoint_union_r in Hd' as [Hd2' Hdf'].
    exists tt, (h' ∪ h2). split_and!; [by rewrite -!assoc_L|by apply map_disjoint_union_l|].
    eapply hprop_mono; [|done]. by apply map_union_subseteq_r.
Qed.

(** A local variable whose address is taken: storage that no live object
    overlaps, for the time of the call. *)
Definition with_local `{!Allocator} {A} (ly : layout) (body : Z → M heap A) : M heap A :=
  a ← xmalloc ly;
  r ← body a;
  free ly a ;;
  mret r.

Lemma wp_with_local `{!Allocator, !AllocatorTotal} {A} ly (body : Z → M heap A) Φ :
  layout_wf ly →
  (∀ a, block a ly -∗ wp (body a) (λ r, block a ly ∗ Φ r)) ⊢ wp (with_local ly body) Φ.
Proof.
  iIntros (Hly) "H". iApply wp_bind. iApply (wp_xmalloc _ _ Hly). iIntros (a Ha) "Ha".
  iApply wp_bind. iApply (wp_wand with "(H Ha)"). iIntros (r) "[Ha HΦ]".
  iApply wp_bind. iApply (wp_free with "Ha"). by iApply wp_ret.
Qed.

Lemma wps_with_local `{!Allocator, !AllocatorTotal} {A} ly (body : Z → M heap A) e :
  layout_wf ly → (∀ a, ⌜a ≠ NULL⌝ -∗ block a ly -∗ wps (body a) e) ⊢ wps (with_local ly body) e.
Proof.
  iIntros (Hly) "H". iApply wps_bind. iApply (wp_xmalloc _ _ Hly). iIntros (a Ha) "Ha".
  iApply wps_first. by iApply ("H" with "[//] Ha").
Qed.

(** A local pointer. *)
Definition ptr_layout : layout := Layout 8 [0].

Lemma ptr_layout_wf : layout_wf ptr_layout.
Proof. split; simpl; repeat constructor; set_solver by lia. Qed.

Lemma ptr_block l : block l ptr_layout ⊣⊢ l ↦?.
Proof. by rewrite /block /= right_id Z.add_0_r. Qed.

Lemma wp_with_pointer `{!Allocator, !AllocatorTotal} {A} (body : Z → M heap A) Φ :
  (∀ a, a ↦? -∗ wp (body a) (λ r, a ↦? ∗ Φ r)) ⊢ wp (with_local ptr_layout body) Φ.
Proof.
  iIntros "H". iApply wp_with_local; [apply ptr_layout_wf|]. iIntros (a) "Ha".
  iDestruct (ptr_block with "Ha") as "Ha". iApply (wp_wand with "(H Ha)"). iIntros (r) "[Ha $]".
  by iApply ptr_block.
Qed.

(** A bump allocator: the block starts past every live cell. *)
Definition bump_addr (h : heap) : Z := map_fold (λ a _ m, Z.max m (a + 16)) 16 h.

Lemma bump_addr_above h : 16 ≤ bump_addr h ∧ ∀ b, b ∈ dom h → b + 16 ≤ bump_addr h.
Proof.
  unfold bump_addr. apply (map_fold_weak_ind
    (λ m (h : heap), 16 ≤ m ∧ ∀ b, b ∈ dom h → b + 16 ≤ m)); [set_solver|].
  intros a w h' m Ha [IH1 IH2]. split; [lia|]. intros b. rewrite dom_insert_L.
  intros [->%elem_of_singleton|Hb]%elem_of_union; [lia|]. specialize (IH2 b Hb). lia.
Qed.

Definition bump_allocator : Allocator.
Proof.
  refine {| malloc_addr h n := Some (bump_addr h) |}.
  - intros h n a [= <-]. pose proof (bump_addr_above h). lia.
  - intros h n a b [= <-] Hb. left. destruct (bump_addr_above h) as [_ H].
    specialize (H b Hb). lia.
Defined.

Lemma bump_allocator_total : @AllocatorTotal bump_allocator.
Proof. intros h n. eauto. Qed.

(** ** Raw memory *)

(** [n] bytes of memory at [a], word by word. *)
Definition raw (a n : Z) : hPropI := ([∗ list] i ∈ seqZ 0 (n / 8), (a + 8 * i) ↦?)%I.

Lemma raw_split a n m : 0 ≤ n → 0 ≤ m → (8 | n) → raw a (n + m) ⊣⊢ raw a n ∗ raw (a + n) m.
Proof.
  intros Hn Hm [k ->]. unfold raw. rewrite Z.add_comm Z.div_add // Z.add_comm Z.div_mul //.
  assert (0 ≤ m / 8) by (apply Z.div_pos; lia).
  rewrite seqZ_app; [|lia..]. rewrite big_sepL_app. f_equiv.
  replace (0 + k) with (k + 0) by lia. rewrite -(fmap_add_seqZ k 0) big_sepL_fmap.
  f_equiv. intros i x. by replace (a + 8 * (k + x)) with (a + k * 8 + 8 * x) by lia.
Qed.

Lemma raw_word a n : 8 ≤ n → raw a n ⊣⊢ a ↦? ∗ raw (a + 8) (n - 8).
Proof.
  intros Hn. rewrite -{1}(Zplus_minus 8 n). rewrite raw_split; [|lia|lia|by exists 1].
  f_equiv. unfold raw. change (seqZ 0 (8 / 8)) with [0]. by rewrite big_sepL_singleton Z.add_0_r.
Qed.

Lemma raw_words a n :
  16 ≤ n → raw a n ⊣⊢ a ↦? ∗ (a + 8) ↦? ∗ raw (a + 16) (n - 16).
Proof.
  intros Hn. rewrite raw_word; [|lia]. rewrite (raw_word (a + 8)); [|lia].
  by replace (a + 8 + 8) with (a + 16) by lia; replace (n - 8 - 8) with (n - 16) by lia.
Qed.

Lemma raw_not_null a n : 8 ≤ n → raw a n ⊢ ⌜a ≠ NULL⌝.
Proof. intros ?. rewrite raw_word //. iIntros "[[% H] _]". by iApply pointsto_not_null. Qed.

(** ** Fuel from the memory

    A recursion that visits a distinct cell in every turn needs no more turns
    than there are cells: [with_fuel c] runs [c] with that much fuel. *)
Definition with_fuel {A} (c : nat → M heap A) : M heap A := λ h, c (S (size h)) h.

Lemma cells_size (l : list Z) (h : heap) :
  ([∗ list] a ∈ l, a ↦? : hPropI)%I h → (length l ≤ size h)%nat.
Proof.
  revert h. induction l as [|a l IH]; intros h Hl; simpl; [lia|].
  destruct Hl as (h1 & h2 & -> & Hd & [w [_ Ha]] & Hl). apply IH in Hl.
  rewrite map_size_disj_union //. destruct (size h1) eqn:E; [|lia].
  apply map_size_empty_inv in E. subst. by rewrite lookup_empty in Ha.
Qed.

(** The memory has at least [k] cells. *)
Definition at_least (k : nat) : hPropI :=
  (∃ l : list Z, ⌜length l = k⌝ ∗ [∗ list] a ∈ l, a ↦?)%I.

Lemma at_least_0 : ⊢ at_least 0.
Proof. iExists []. by iSplit. Qed.

Lemma at_least_cell a w : a ↦o w ⊢ at_least 1.
Proof. iIntros "H". iExists [a]. iSplit; [done|]. simpl. iFrame. Qed.

Lemma at_least_add j k : at_least j ∗ at_least k ⊢ at_least (j + k).
Proof.
  iIntros "[(%l & <- & Hl) (%m & <- & Hm)]". iExists (l ++ m). rewrite length_app big_sepL_app.
  by iFrame.
Qed.

Lemma at_least_le j k : (j ≤ k)%nat → at_least k ⊢ at_least j.
Proof.
  iIntros (?) "(%l & %Hl & H)". iExists (take j l). rewrite length_take. iSplit; [iPureIntro; lia|].
  rewrite -{1}(take_drop j l) big_sepL_app. by iDestruct "H" as "[$ _]".
Qed.

Lemma big_sepL_at_least {A} (Φ : nat → A → hPropI) (l : list A) :
  (∀ i x, Φ i x ⊢ at_least 1) → ([∗ list] i ↦ x ∈ l, Φ i x) ⊢ at_least (length l).
Proof.
  revert Φ. induction l as [|x l IH]; intros Φ HΦ; simpl; [iIntros "_"; iApply at_least_0|].
  rewrite HΦ (IH (λ i, Φ (S i))) //. apply (at_least_add 1).
Qed.

Lemma wp_with_fuel {A} (k : nat) (P : hProp) (c : nat → M heap A) Φ :
  (P ⊢ at_least k) → (∀ n, (k < n)%nat → P ⊢ wp (c n) Φ) → P ⊢ wp (with_fuel c) Φ.
Proof.
  intros Hl Hc. apply HEntails. intros h HP hf Hd.
  destruct (hentails_at Hl h HP) as (l & h1 & h2 & -> & Hd12 & Hk & Hcells).
  change (length l = k) in Hk.
  apply cells_size in Hcells. apply map_disjoint_union_l in Hd as [Hd1 Hd2].
  assert (k < S (size ((h1 ∪ h2) ∪ hf)))%nat as Hf.
  { rewrite !map_size_disj_union //; [lia|by apply map_disjoint_union_l]. }
  apply (hentails_at (Hc _ Hf) _ HP hf). by apply map_disjoint_union_l.
Qed.

Lemma triple_with_fuel {A} (k : nat) (P : hProp) (c : nat → M heap A) Φ :
  (P ⊢ at_least k) → (∀ n, (k < n)%nat → triple P (c n) Φ) → triple P (with_fuel c) Φ.
Proof. apply wp_with_fuel. Qed.

(** ** Proof-mode steps

    [wp_load] and [wp_store] execute the next access with the points-to of
    its address found in the context; the hypothesis keeps its name. *)
Section proofmode.
Lemma tac_wp_bind {A B} Δ (k : B → M heap A) (c : M heap B) Φ :
  envs_entails Δ (wp c (λ b, wp (k b) Φ)) → envs_entails Δ (wp (c ≫= k) Φ).
Proof. rewrite envs_entails_unseal. intros ->. apply wp_bind. Qed.

Lemma tac_wp_ret {A} Δ (a : A) Φ :
  envs_entails Δ (Φ a) → envs_entails Δ (wp (mret a) Φ).
Proof. rewrite envs_entails_unseal. intros ->. apply wp_ret. Qed.

Lemma tac_wp_load Δ i a v Φ :
  envs_lookup i Δ = Some (false, a ↦ v)%I →
  envs_entails Δ (Φ v) → envs_entails Δ (wp (load a) Φ).
Proof.
  rewrite envs_entails_unseal. intros Hi HΦ.
  rewrite envs_lookup_split //; simpl. rewrite HΦ.
  iIntros "[Ha Hr]". iApply (wp_load with "Ha"). iIntros "Ha". by iApply "Hr".
Qed.

Lemma tac_wp_store Δ i a w v Φ :
  envs_lookup i Δ = Some (false, a ↦o w)%I →
  match envs_simple_replace i false (Esnoc Enil i (a ↦ v)) Δ with
  | Some Δ' => envs_entails Δ' (Φ tt)
  | None => False
  end →
  envs_entails Δ (wp (store a v) Φ).
Proof.
  rewrite envs_entails_unseal. intros Hi HΦ.
  destruct (envs_simple_replace _ _ _) as [Δ'|] eqn:HΔ'; [|done].
  rewrite envs_simple_replace_sound //; simpl. rewrite HΦ right_id.
  iIntros "[Ha Hr]". iApply (wp_store with "Ha"). done.
Qed.
End proofmode.

Ltac wp_focus :=
  iStartProof;
  repeat lazymatch goal with
  | |- envs_entails _ (wp (_ ≫= _) _) => notypeclasses refine (tac_wp_bind _ _ _ _ _)
  end.
Ltac wp_ret := wp_focus; notypeclasses refine (tac_wp_ret _ _ _ _).
Ltac wp_rets :=
  wp_focus; simpl;
  repeat (lazymatch goal with
    | |- envs_entails _ (wp (mret _) _) => notypeclasses refine (tac_wp_ret _ _ _ _)
    end; wp_focus; simpl).
Ltac wp_load :=
  wp_focus;
  lazymatch goal with
  | |- envs_entails _ (wp (load ?a) _) =>
      eapply tac_wp_load;
      [first [iAssumptionCore | fail 1 "wp_load: no points-to for" a]|]
  end; wp_rets.
Ltac wp_store :=
  wp_focus;
  lazymatch goal with
  | |- envs_entails _ (wp (store ?a _) _) =>
      eapply tac_wp_store;
      [first [iAssumptionCore | fail 1 "wp_store: no points-to for" a]|];
      reduction.pm_reduce
  end; wp_rets.
(** Run every access whose points-to is at hand. *)
Ltac wp_steps := repeat first [wp_load | wp_store].
(** Call a function by its triple. *)
Tactic Notation "wp_call" open_constr(t) "with" constr(pat) :=
  wp_focus; iApply (wp_triple _ _ _ _ t with pat).
Ltac triple_start := rewrite /triple.
