(* ===== verification/LinuxList.v ===== *)
(** * Linux doubly linked lists (src/linux/no_proofs/list.c, the [list_head] half)

    A [struct list_head] at address [p] has its [next] pointer in the cell [p]
    and its [prev] pointer in [p + 8].  Every function of the file is a
    program over the heap; the iteration macros take the loop body as an
    argument.  The specification is the abstract one the comments of the file
    describe: a list head stands for the sequence of the entries linked to
    it, and each operation is an operation on sequences. *)
From S2P Require Import Prelude HeapLogic.
From stdpp Require Import gmap list.
From iris.proofmode Require Import proofmode.
#[local] Open Scope Z_scope.

Module ListHead.

(** ** The code *)

Definition LIST_POISON1 : Z := 0x100.
Definition LIST_POISON2 : Z := 0x122.

(** Addresses of the members of [struct list_head]. *)
Definition next (p : Z) : Z := p.
Definition prev (p : Z) : Z := p + 8.

Definition INIT_LIST_HEAD (list : Z) : M heap unit :=
  store (next list) list ;;
  store (prev list) list.

(** [struct list_head name = { &(name), &(name) }] *)
Definition LIST_HEAD_INIT (name : Z) : Z * Z := (name, name).
Definition LIST_HEAD (name : Z) : M heap unit :=
  store (next name) (LIST_HEAD_INIT name).1 ;;
  store (prev name) (LIST_HEAD_INIT name).2.

Definition __list_add_valid (new prev next : Z) : bool := true.
Definition __list_del_entry_valid (entry : Z) : bool := true.

Definition __list_add (new prev_ next_ : Z) : M heap unit :=
  if negb (__list_add_valid new prev_ next_) then mret tt else
  store (prev next_) new ;;
  store (next new) next_ ;;
  store (prev new) prev_ ;;
  store (next prev_) new.

Definition list_add (new head : Z) : M heap unit :=
  n ← load (next head);
  __list_add new head n.

Definition list_add_tail (new head : Z) : M heap unit :=
  p ← load (prev head);
  __list_add new p head.

Definition __list_del (prev_ next_ : Z) : M heap unit :=
  store (prev next_) prev_ ;;
  store (next prev_) next_.

Definition __list_del_clearprev (entry : Z) : M heap unit :=
  p ← load (prev entry);
  n ← load (next entry);
  __list_del p n ;;
  store (prev entry) NULL.

Definition __list_del_entry (entry : Z) : M heap unit :=
  if negb (__list_del_entry_valid entry) then mret tt else
  p ← load (prev entry);
  n ← load (next entry);
  __list_del p n.

Definition list_del (entry : Z) : M heap unit :=
  __list_del_entry entry ;;
  store (next entry) LIST_POISON1 ;;
  store (prev entry) LIST_POISON2.

Definition list_replace (old new : Z) : M heap unit :=
  n ← load (next old);
  store (next new) n ;;
  n' ← load (next new);
  store (prev n') new ;;
  p ← load (prev old);
  store (prev new) p ;;
  p' ← load (prev new);
  store (next p') new.

Definition list_replace_init (old new : Z) : M heap unit :=
  list_replace old new ;;
  INIT_LIST_HEAD old.

Definition list_swap (entry1 entry2 : Z) : M heap unit :=
  pos ← load (prev entry2);
  list_del entry2 ;;
  list_replace entry1 entry2 ;;
  let pos := if pos =? entry1 then entry2 else pos in
  list_add entry1 pos.

Definition list_del_init (entry : Z) : M heap unit :=
  __list_del_entry entry ;;
  INIT_LIST_HEAD entry.

Definition list_move (list head : Z) : M heap unit :=
  __list_del_entry list ;;
  list_add list head.

Definition list_move_tail (list head : Z) : M heap unit :=
  __list_del_entry list ;;
  list_add_tail list head.

Definition list_bulk_move_tail (head first last : Z) : M heap unit :=
  ln ← load (next last);
  fp ← load (prev first);
  store (next fp) ln ;;
  fp ← load (prev first);
  ln ← load (next last);
  store (prev ln) fp ;;
  hp ← load (prev head);
  store (next hp) first ;;
  hp ← load (prev head);
  store (prev first) hp ;;
  store (next last) head ;;
  store (prev head) last.

Definition list_is_first (list head : Z) : M heap bool :=
  p ← load (prev list); mret (p =? head).

Definition list_is_last (list head : Z) : M heap bool :=
  n ← load (next list); mret (n =? head).

Definition list_empty (head : Z) : M heap bool :=
  n ← load (next head); mret (n =? head).

Definition list_rotate_left (head : Z) : M heap unit :=
  e ← list_empty head;
  if negb e then
    first ← load (next head);
    list_move_tail first head
  else mret tt.

Definition list_rotate_to_front (list head : Z) : M heap unit :=
  list_move_tail head list.

Definition list_is_singular (head : Z) : M heap bool :=
  e ← list_empty head;
  if negb e then
    n ← load (next head);
    p ← load (prev head);
    mret (n =? p)
  else mret false.

Definition __list_cut_position (list head entry : Z) : M heap unit :=
  new_first ← load (next entry);
  hn ← load (next head);
  store (next list) hn ;;
  ln ← load (next list);
  store (prev ln) list ;;
  store (prev list) entry ;;
  store (next entry) list ;;
  store (next head) new_first ;;
  store (prev new_first) head.

Definition list_cut_position (list head entry : Z) : M heap unit :=
  e ← list_empty head;
  if (e : bool) then mret tt else
  s ← list_is_singular head;
  stop ← (if (s : bool) then
            n ← load (next head);
            mret (negb (n =? entry) && negb (head =? entry))
          else mret false);
  if (stop : bool) then mret tt else
  if entry =? head then INIT_LIST_HEAD list
  else __list_cut_position list head entry.

Definition list_cut_before (list head entry : Z) : M heap unit :=
  n ← load (next head);
  if n =? entry then INIT_LIST_HEAD list else
  hn ← load (next head);
  store (next list) hn ;;
  ln ← load (next list);
  store (prev ln) list ;;
  ep ← load (prev entry);
  store (prev list) ep ;;
  lp ← load (prev list);
  store (next lp) list ;;
  store (next head) entry ;;
  store (prev entry) head.

Definition __list_splice (list prev_ next_ : Z) : M heap unit :=
  first ← load (next list);
  last ← load (prev list);
  store (prev first) prev_ ;;
  store (next prev_) first ;;
  store (next last) next_ ;;
  store (prev next_) last.

Definition list_splice (list head : Z) : M heap unit :=
  e ← list_empty list;
  if negb e then
    n ← load (next head);
    __list_splice list head n
  else mret tt.

Definition list_splice_tail (list head : Z) : M heap unit :=
  e ← list_empty list;
  if negb e then
    p ← load (prev head);
    __list_splice list p head
  else mret tt.

Definition list_splice_init (list head : Z) : M heap unit :=
  e ← list_empty list;
  if negb e then
    n ← load (next head);
    __list_splice list head n ;;
    INIT_LIST_HEAD list
  else mret tt.

Definition list_splice_tail_init (list head : Z) : M heap unit :=
  e ← list_empty list;
  if negb e then
    p ← load (prev head);
    __list_splice list p head ;;
    INIT_LIST_HEAD list
  else mret tt.

(** *** Entries and iteration

    [off] is the [offsetof] of the [list_head] member in the containing
    structure.  A [for] macro takes its body as an argument; [for_loop] and
    [for_loop_safe] are the two shapes of the macros' loop headers. *)

Definition list_entry (ptr off : Z) : Z := ptr - off.

Definition list_first_entry (ptr off : Z) : M heap Z :=
  n ← load (next ptr); mret (list_entry n off).

Definition list_last_entry (ptr off : Z) : M heap Z :=
  p ← load (prev ptr); mret (list_entry p off).

Definition list_first_entry_or_null (ptr off : Z) : M heap Z :=
  pos ← load (next ptr);
  mret (if negb (pos =? ptr) then list_entry pos off else NULL).

Definition list_next_entry (pos off : Z) : M heap Z :=
  n ← load (next (pos + off)); mret (list_entry n off).

Definition list_prev_entry (pos off : Z) : M heap Z :=
  p ← load (prev (pos + off)); mret (list_entry p off).

(** [for (; cond(pos); pos = step(pos)) body(pos)] *)
Fixpoint for_loop (fuel : nat) (cond : Z → bool) (step : Z → M heap Z)
    (body : Z → M heap unit) (pos : Z) : M heap Z :=
  match fuel with
  | O => fail OutOfFuel
  | S fuel =>
      if cond pos then
        body pos ;;
        pos' ← step pos;
        for_loop fuel cond step body pos'
      else mret pos
  end.

(** [for (; cond(pos); pos = n, n = step(n)) body(pos)] *)
Fixpoint for_loop_safe (fuel : nat) (cond : Z → bool) (step : Z → M heap Z)
    (body : Z → M heap unit) (pos n : Z) : M heap Z :=
  match fuel with
  | O => fail OutOfFuel
  | S fuel =>
      if cond pos then
        body pos ;;
        n' ← step n;
        for_loop_safe fuel cond step body n n'
      else mret pos
  end.

Definition list_for_each (fuel : nat) (body : Z → M heap unit) (head : Z) : M heap Z :=
  pos ← load (next head);
  for_loop fuel (λ pos, negb (pos =? head)) (λ pos, load (next pos)) body pos.

Definition list_for_each_continue (fuel : nat) (body : Z → M heap unit)
    (pos head : Z) : M heap Z :=
  pos ← load (next pos);
  for_loop fuel (λ pos, negb (pos =? head)) (λ pos, load (next pos)) body pos.

Definition list_for_each_prev (fuel : nat) (body : Z → M heap unit) (head : Z) : M heap Z :=
  pos ← load (prev head);
  for_loop fuel (λ pos, negb (pos =? head)) (λ pos, load (prev pos)) body pos.

Definition list_for_each_safe (fuel : nat) (body : Z → M heap unit) (head : Z) : M heap Z :=
  pos ← load (next head);
  n ← load (next pos);
  for_loop_safe fuel (λ pos, negb (pos =? head)) (λ n, load (next n)) body pos n.

Definition list_for_each_prev_safe (fuel : nat) (body : Z → M heap unit)
    (head : Z) : M heap Z :=
  pos ← load (prev head);
  n ← load (prev pos);
  for_loop_safe fuel (λ pos, negb (pos =? head)) (λ n, load (prev n)) body pos n.

Definition list_for_each_entry (fuel : nat) (body : Z → M heap unit)
    (head off : Z) : M heap Z :=
  pos ← list_first_entry head off;
  for_loop fuel (λ pos, negb (pos + off =? head)) (λ pos, list_next_entry pos off) body pos.

Definition list_for_each_entry_reverse (fuel : nat) (body : Z → M heap unit)
    (head off : Z) : M heap Z :=
  pos ← list_last_entry head off;
  for_loop fuel (λ pos, negb (pos + off =? head)) (λ pos, list_prev_entry pos off) body pos.

Definition list_prepare_entry (pos head off : Z) : Z :=
  if negb (pos =? NULL) then pos else list_entry head off.

Definition list_for_each_entry_continue (fuel : nat) (body : Z → M heap unit)
    (pos head off : Z) : M heap Z :=
  pos ← list_next_entry pos off;
  for_loop fuel (λ pos, negb (pos + off =? head)) (λ pos, list_next_entry pos off) body pos.

Definition list_for_each_entry_continue_reverse (fuel : nat) (body : Z → M heap unit)
    (pos head off : Z) : M heap Z :=
  pos ← list_prev_entry pos off;
  for_loop fuel (λ pos, negb (pos + off =? head)) (λ pos, list_prev_entry pos off) body pos.

Definition list_for_each_entry_from (fuel : nat) (body : Z → M heap unit)
    (pos head off : Z) : M heap Z :=
  for_loop fuel (λ pos, negb (pos + off =? head)) (λ pos, list_next_entry pos off) body pos.

Definition list_for_each_entry_from_reverse (fuel : nat) (body : Z → M heap unit)
    (pos head off : Z) : M heap Z :=
  for_loop fuel (λ pos, negb (pos + off =? head)) (λ pos, list_prev_entry pos off) body pos.

Definition list_for_each_entry_safe (fuel : nat) (body : Z → M heap unit)
    (head off : Z) : M heap Z :=
  pos ← list_first_entry head off;
  n ← list_next_entry pos off;
  for_loop_safe fuel (λ pos, negb (pos + off =? head)) (λ n, list_next_entry n off) body pos n.

Definition list_for_each_entry_safe_continue (fuel : nat) (body : Z → M heap unit)
    (pos head off : Z) : M heap Z :=
  pos ← list_next_entry pos off;
  n ← list_next_entry pos off;
  for_loop_safe fuel (λ pos, negb (pos + off =? head)) (λ n, list_next_entry n off) body pos n.

Definition list_for_each_entry_safe_from (fuel : nat) (body : Z → M heap unit)
    (pos head off : Z) : M heap Z :=
  n ← list_next_entry pos off;
  for_loop_safe fuel (λ pos, negb (pos + off =? head)) (λ n, list_next_entry n off) body pos n.

Definition list_for_each_entry_safe_reverse (fuel : nat) (body : Z → M heap unit)
    (head off : Z) : M heap Z :=
  pos ← list_last_entry head off;
  n ← list_prev_entry pos off;
  for_loop_safe fuel (λ pos, negb (pos + off =? head)) (λ n, list_prev_entry n off) body pos n.

Definition list_safe_reset_next (pos off : Z) : M heap Z := list_next_entry pos off.

(** ** The abstract view *)

(** [a] is followed by [b]. *)
Definition link (a b : Z) : hProp := (next a ↦ b ∗ prev b ↦ a)%I.

(** The entries [xs], in order, strictly between [a] and [b]. *)
Fixpoint chain (a : Z) (xs : list Z) (b : Z) : hProp :=
  match xs with
  | [] => link a b
  | x :: xs => (link a x ∗ chain x xs b)%I
  end.

(** The list whose head is [hd] holds the entries [xs]. *)
Definition clist (hd : Z) (xs : list Z) : hProp := chain hd xs hd.

(** A [list_head] that is on no list. *)
Definition node (p : Z) : hProp := (next p ↦? ∗ prev p ↦?)%I.

Arguments next : simpl never.
Arguments prev : simpl never.

Lemma chain_app a xs x ys b : chain a (xs ++ x :: ys) b ⊣⊢ chain a xs x ∗ chain x ys b.
Proof.
  revert a. induction xs as [|y xs IH]; intros a; simpl; [done|].
  by rewrite IH assoc.
Qed.

Lemma chain_snoc a xs x b : chain a (xs ++ [x]) b ⊣⊢ chain a xs x ∗ link x b.
Proof. by rewrite chain_app. Qed.

Lemma chain_last a xs b :
  chain a xs b ⊣⊢ ∃ p, ⌜p = default a (last xs)⌝ ∗
    next p ↦ b ∗ prev b ↦ p ∗ (∀ c, next p ↦ c -∗ prev c ↦ p -∗ chain a xs c).
Proof.
  iSplit.
  - iIntros "H". destruct xs as [|x xs _] using rev_ind; simpl.
    + iDestruct "H" as "[Hn Hp]". iExists a. iFrame. iSplit; [done|]. iIntros (c) "$ $".
    + rewrite last_snoc chain_snoc. iDestruct "H" as "[H [Hn Hp]]".
      iExists x. iFrame. iSplit; [done|]. iIntros (c) "Hn Hp". rewrite chain_snoc. iFrame.
  - iIntros "(%p & _ & Hn & Hp & H)". iApply ("H" with "Hn Hp").
Qed.

Lemma node_intro p v w : next p ↦ v -∗ prev p ↦ w -∗ node p.
Proof. iIntros "H1 H2". iSplitL "H1"; by iExists _. Qed.

(** ** Insertion and deletion *)

Lemma INIT_LIST_HEAD_spec l : {{ node l }} INIT_LIST_HEAD l {{ _, clist l [] }}.
Proof.
  triple_start. iIntros "[[%v Hn] [%w Hp]]". unfold INIT_LIST_HEAD. wp_steps. iFrame.
Qed.

Lemma LIST_HEAD_spec l : {{ node l }} LIST_HEAD l {{ _, clist l [] }}.
Proof. apply INIT_LIST_HEAD_spec. Qed.

Lemma __list_add_spec new p n :
  {{ node new ∗ link p n }} __list_add new p n {{ _, link p new ∗ link new n }}.
Proof.
  triple_start. iIntros "([[%v Hn] [%w Hp]] & [Hpn Hnp])". unfold __list_add. simpl.
  wp_steps. iFrame.
Qed.

(** [head] may be any element of a list: the new entry comes right after it. *)
Lemma list_add_chain new a xs b :
  {{ node new ∗ chain a xs b }} list_add new a {{ _, chain a (new :: xs) b }}.
Proof.
  triple_start. iIntros "[Hnew Hc]". unfold list_add. destruct xs as [|x xs]; simpl.
  - iDestruct "Hc" as "[Hn Hp]". wp_load.
    wp_call (__list_add_spec new a b) with "[$Hnew $Hn $Hp]". by iIntros (_) "[$ $]".
  - iDestruct "Hc" as "[[Hn Hp] Hc]". wp_load.
    wp_call (__list_add_spec new a x) with "[$Hnew $Hn $Hp]". iIntros (_) "[$ $]". iFrame.
Qed.

Lemma list_add_tail_chain new a xs b :
  {{ node new ∗ chain a xs b }} list_add_tail new b {{ _, chain a (xs ++ [new]) b }}.
Proof.
  triple_start. iIntros "[Hnew Hc]". unfold list_add_tail.
  rewrite chain_last. iDestruct "Hc" as (p) "(_ & Hn & Hp & Hc)". wp_load.
  wp_call (__list_add_spec new p b) with "[$Hnew $Hn $Hp]".
  iIntros (_) "[[H1 H2] ?]". rewrite chain_snoc. iFrame. iApply ("Hc" with "H1 H2").
Qed.

Lemma __list_del_entry_spec p e n :
  {{ link p e ∗ link e n }} __list_del_entry e
  {{ _, link p n ∗ next e ↦ n ∗ prev e ↦ p }}.
Proof.
  triple_start. iIntros "([Hpn Hep] & [Hen Hnp])".
  unfold __list_del_entry, __list_del. simpl. wp_steps. iFrame.
Qed.

(** Around an entry: its two links, and the ways to close the chain again. *)
Lemma chain_focus a xs e ys b :
  chain a (xs ++ e :: ys) b ⊢ ∃ p n, ⌜p = default a (last xs) ∧ n = default b (head ys)⌝ ∗
    next p ↦ e ∗ prev e ↦ p ∗ next e ↦ n ∗ prev n ↦ e ∗
    ((link p n -∗ chain a (xs ++ ys) b) ∧
     (∀ e', link p e' -∗ link e' n -∗ chain a (xs ++ e' :: ys) b)).
Proof.
  rewrite chain_app chain_last. iIntros "[(%p & -> & Hn & Hp & Hc) He]".
  iExists (default a (last xs)). destruct ys as [|y ys]; simpl.
  - iDestruct "He" as "[Hen Hbp]". iExists b. iFrame "Hn Hp Hen Hbp". iSplit; [done|].
    iSplit.
    + rewrite app_nil_r. iIntros "[H1 H2]". iApply ("Hc" with "H1 H2").
    + iIntros (e') "[H1 H2] ?". rewrite chain_snoc. iFrame. iApply ("Hc" with "H1 H2").
  - iDestruct "He" as "[[Hen Hbp] Hys]". iExists y. iFrame "Hn Hp Hen Hbp". iSplit; [done|].
    iSplit.
    + iIntros "[H1 H2]". rewrite chain_app. iFrame. iApply ("Hc" with "H1 H2").
    + iIntros (e') "[H1 H2] ?". rewrite chain_app /=. iFrame. iApply ("Hc" with "H1 H2").
Qed.

(** Removing an entry from wherever it is. *)
Lemma __list_del_entry_chain a xs e ys b :
  {{ chain a (xs ++ e :: ys) b }} __list_del_entry e {{ _, chain a (xs ++ ys) b ∗ node e }}.
Proof.
  triple_start. rewrite chain_focus. iIntros "(%p & %n & _ & Hpn & Hep & Hen & Hnp & Hc)".
  wp_call (__list_del_entry_spec p e n) with "[$Hpn $Hep $Hen $Hnp]".
  iIntros (_) "(H & Hen & Hep)".
  iSplitR "Hen Hep"; [by iApply "Hc"|iApply (node_intro with "Hen Hep")].
Qed.

Lemma list_del_chain a xs e ys b :
  {{ chain a (xs ++ e :: ys) b }} list_del e
  {{ _, chain a (xs ++ ys) b ∗ next e ↦ LIST_POISON1 ∗ prev e ↦ LIST_POISON2 }}.
Proof.
  triple_start. iIntros "H". unfold list_del.
  wp_call (__list_del_entry_chain a xs e ys b) with "H".
  iIntros (_) "(Hc & [%v Hn] & [%w Hp])". wp_steps. iFrame.
Qed.

Lemma __list_del_clearprev_chain a xs e ys b :
  {{ chain a (xs ++ e :: ys) b }} __list_del_clearprev e
  {{ _, chain a (xs ++ ys) b ∗ next e ↦? ∗ prev e ↦ NULL }}.
Proof.
  triple_start. rewrite chain_focus. iIntros "(%p & %n & _ & Hpn & Hep & Hen & Hnp & Hc)".
  unfold __list_del_clearprev, __list_del. wp_steps.
  iFrame "Hep". iSplitR "Hen"; [iApply "Hc"; iFrame|by iExists _].
Qed.

Lemma list_del_init_chain a xs e ys b :
  {{ chain a (xs ++ e :: ys) b }} list_del_init e
  {{ _, chain a (xs ++ ys) b ∗ clist e [] }}.
Proof.
  triple_start. iIntros "H". unfold list_del_init.
  wp_call (__list_del_entry_chain a xs e ys b) with "H".
  iIntros (_) "[Hc He]". wp_call (INIT_LIST_HEAD_spec e) with "He". iIntros (_) "$". iFrame.
Qed.

Lemma list_replace_chain a xs old ys b new :
  {{ chain a (xs ++ old :: ys) b ∗ node new }} list_replace old new
  {{ _, chain a (xs ++ new :: ys) b ∗ node old }}.
Proof.
  triple_start. rewrite chain_focus.
  iIntros "[(%p & %n & _ & Hpn & Hep & Hen & Hnp & Hc) [[%v Hnn] [%w Hnp']]]".
  unfold list_replace. wp_steps. iSplitR "Hen Hep"; [|iApply (node_intro with "Hen Hep")].
  iApply ("Hc" with "[$Hpn $Hnp'] [$Hnn $Hnp]").
Qed.

(** Replacing a list head; the old head may be that of an empty list. *)
Lemma list_replace_head old new xs :
  {{ clist old xs ∗ node new }} list_replace old new {{ _, clist new xs ∗ node old }}.
Proof.
  triple_start. iIntros "[Hc [[%v Hnn] [%w Hnp]]]". unfold clist, list_replace.
  destruct xs as [|x xs]; simpl.
  - iDestruct "Hc" as "[Hn Hp]". wp_steps. iFrame.
  - rewrite chain_last. iDestruct "Hc" as "[[Hn Hxp] (%p & _ & Hpn & Hp & Hc)]".
    wp_steps. iSplitR "Hn Hp"; [|iApply (node_intro with "Hn Hp")].
    iFrame. iApply ("Hc" with "Hpn Hnp").
Qed.

Lemma list_replace_init_chain a xs old ys b new :
  {{ chain a (xs ++ old :: ys) b ∗ node new }} list_replace_init old new
  {{ _, chain a (xs ++ new :: ys) b ∗ clist old [] }}.
Proof.
  triple_start. iIntros "H". unfold list_replace_init.
  wp_call (list_replace_chain a xs old ys b new) with "H".
  iIntros (_) "[Hc He]". wp_call (INIT_LIST_HEAD_spec old) with "He". iIntros (_) "$". iFrame.
Qed.

Lemma list_replace_init_head old new xs :
  {{ clist old xs ∗ node new }} list_replace_init old new {{ _, clist new xs ∗ clist old [] }}.
Proof.
  triple_start. iIntros "H". unfold list_replace_init.
  wp_call (list_replace_head old new xs) with "H".
  iIntros (_) "[Hc He]". wp_call (INIT_LIST_HEAD_spec old) with "He". iIntros (_) "$". iFrame.
Qed.

(** ** Moving entries *)

Lemma chain_next_ne a xs b c w : chain a xs b -∗ next c ↦o w -∗ ⌜c ∉ a :: xs⌝.
Proof.
  iInduction xs as [|x xs] "IH" forall (a); simpl.
  - iIntros "[Hn _] Hc". iDestruct (pointsto_ne with "Hn Hc") as %?.
    iPureIntro. set_solver.
  - iIntros "[[Hn _] Hxs] Hc". iDestruct (pointsto_ne with "Hn Hc") as %?.
    iDestruct ("IH" with "Hxs Hc") as %?. iPureIntro. set_solver.
Qed.

(** The elements of a chain are distinct. *)
Lemma chain_nodup a xs b : chain a xs b ⊢ ⌜NoDup (a :: xs)⌝.
Proof.
  iInduction xs as [|x xs] "IH" forall (a); simpl.
  - iIntros "_". iPureIntro. apply NoDup_singleton.
  - iIntros "[[Hn _] Hxs]". iDestruct (chain_next_ne with "Hxs Hn") as %?.
    iDestruct ("IH" with "Hxs") as %?. iPureIntro. by apply NoDup_cons.
Qed.

Lemma load_prev_chain a xs e ys b :
  {{ chain a (xs ++ e :: ys) b }} load (prev e)
  {{ v, ⌜v = default a (last xs)⌝ ∗ chain a (xs ++ e :: ys) b }}.
Proof.
  triple_start. rewrite {1}chain_focus.
  iIntros "(%p & %n & [% _] & Hpn & Hep & Hen & Hnp & Hc)". wp_load.
  iSplit; [done|]. iApply ("Hc" with "[$Hpn $Hep] [$Hen $Hnp]").
Qed.

Lemma load_next_chain a xs e ys b :
  {{ chain a (xs ++ e :: ys) b }} load (next e)
  {{ v, ⌜v = default b (head ys)⌝ ∗ chain a (xs ++ e :: ys) b }}.
Proof.
  triple_start. rewrite {1}chain_focus.
  iIntros "(%p & %n & [_ %] & Hpn & Hep & Hen & Hnp & Hc)". wp_load.
  iSplit; [done|]. iApply ("Hc" with "[$Hpn $Hep] [$Hen $Hnp]").
Qed.

(** The entry is inserted behind the last element of [xs] (behind [a] when
    there is none). *)
Lemma list_add_at new a xs ys b :
  {{ node new ∗ chain a (xs ++ ys) b }} list_add new (default a (last xs))
  {{ _, chain a (xs ++ new :: ys) b }}.
Proof.
  destruct xs as [|x xs _] using rev_ind; simpl; [apply list_add_chain|].
  triple_start. rewrite last_snoc -!app_assoc /= chain_app. iIntros "(Hn & H1 & Hc)".
  wp_call (list_add_chain new x ys b) with "[$Hn $Hc]". iIntros (_) "Hc".
  rewrite chain_app. iFrame.
Qed.

Lemma list_add_tail_at new a xs ys b :
  {{ node new ∗ chain a (xs ++ ys) b }} list_add_tail new (default b (head ys))
  {{ _, chain a (xs ++ new :: ys) b }}.
Proof.
  destruct ys as [|y ys]; simpl; [rewrite app_nil_r; apply list_add_tail_chain|].
  triple_start. rewrite chain_app. iIntros "(Hn & Hc & H1)".
  wp_call (list_add_tail_chain new a xs y) with "[$Hn $Hc]". iIntros (_) "Hc".
  rewrite chain_snoc chain_app /=. iDestruct "Hc" as "[$ $]". iFrame.
Qed.

Lemma list_swap_forward a xs e1 ys e2 zs b :
  {{ chain a (xs ++ e1 :: ys ++ e2 :: zs) b }} list_swap e1 e2
  {{ _, chain a (xs ++ e2 :: ys ++ e1 :: zs) b }}.
Proof.
  triple_start. iIntros "Hc". iDestruct (chain_nodup with "Hc") as %Hnd. unfold list_swap.
  rewrite !(app_assoc xs (_ :: _)).
  wp_call (load_prev_chain a (xs ++ e1 :: ys) e2 zs b) with "Hc". iIntros (pos) "[-> Hc]".
  wp_call (list_del_chain a (xs ++ e1 :: ys) e2 zs b) with "Hc".
  iIntros (_) "(Hc & Hn2 & Hp2)". rewrite -(app_assoc xs) /=.
  wp_call (list_replace_chain a xs e1 (ys ++ zs) b e2) with "[$Hc Hn2 Hp2]".
  { iApply (node_intro with "Hn2 Hp2"). }
  iIntros (_) "[Hc Hn1]".
  assert ((if default a (last (xs ++ e1 :: ys)) =? e1 then e2 else default a (last (xs ++ e1 :: ys)))
    = default a (last (xs ++ e2 :: ys))) as ->.
  { destruct ys as [|y ys _] using rev_ind.
    - rewrite !last_snoc /=. by rewrite Z.eqb_refl.
    - rewrite !(app_assoc xs (_ :: ys)) !last_snoc /=. destruct (Z.eqb_spec y e1) as [->|]; [|done].
      exfalso. rewrite -!app_assoc /= in Hnd. apply NoDup_cons in Hnd as [_ Hnd].
      apply NoDup_app in Hnd as (_ & _ & Hnd). apply NoDup_cons in Hnd as [Hnd _]. set_solver. }
  rewrite (app_assoc xs (e2 :: ys)).
  iApply (list_add_at e1 a (xs ++ e2 :: ys) zs b with "[$Hc $Hn1]").
Qed.

Lemma list_swap_backward a xs e1 ys e2 zs b :
  {{ chain a (xs ++ e2 :: ys ++ e1 :: zs) b }} list_swap e1 e2
  {{ _, chain a (xs ++ e1 :: ys ++ e2 :: zs) b }}.
Proof.
  triple_start. iIntros "Hc". iDestruct (chain_nodup with "Hc") as %Hnd. unfold list_swap.
  wp_call (load_prev_chain a xs e2 (ys ++ e1 :: zs) b) with "Hc". iIntros (pos) "[-> Hc]".
  wp_call (list_del_chain a xs e2 (ys ++ e1 :: zs) b) with "Hc".
  iIntros (_) "(Hc & Hn2 & Hp2)". rewrite app_assoc.
  wp_call (list_replace_chain a (xs ++ ys) e1 zs b e2) with "[$Hc Hn2 Hp2]".
  { iApply (node_intro with "Hn2 Hp2"). }
  iIntros (_) "[Hc Hn1]". rewrite -app_assoc.
  destruct (Z.eqb_spec (default a (last xs)) e1) as [Heq|_].
  { exfalso. apply NoDup_cons in Hnd as [Ha Hnd]. destruct xs as [|x xs _] using rev_ind.
    - simpl in Heq. set_solver.
    - rewrite last_snoc /= in Heq. subst. apply NoDup_app in Hnd as (_ & Hnd & _).
      eapply (Hnd e1); set_solver. }
  iApply (list_add_at e1 a xs (ys ++ e2 :: zs) b with "[$Hc $Hn1]").
Qed.

(** Entries of two lists trade places. *)
Lemma list_swap_across a xs e1 ys b c zs e2 ws d :
  {{ chain a (xs ++ e1 :: ys) b ∗ chain c (zs ++ e2 :: ws) d }} list_swap e1 e2
  {{ _, chain a (xs ++ e2 :: ys) b ∗ chain c (zs ++ e1 :: ws) d }}.
Proof.
  triple_start. iIntros "[H1 H2]". unfold list_swap.
  wp_call (load_prev_chain c zs e2 ws d) with "H2". iIntros (pos) "[-> H2]".
  wp_call (list_del_chain c zs e2 ws d) with "H2". iIntros (_) "(H2 & Hn2 & Hp2)".
  wp_call (list_replace_chain a xs e1 ys b e2) with "[$H1 Hn2 Hp2]".
  { iApply (node_intro with "Hn2 Hp2"). }
  iIntros (_) "[H1 [[%v Hn1] Hp1]]". iDestruct (chain_next_ne with "H2 Hn1") as %Hne.
  destruct (Z.eqb_spec (default c (last zs)) e1) as [Heq|_].
  { exfalso. apply Hne. rewrite -Heq. destruct zs as [|z zs _] using rev_ind; simpl; [set_solver|].
    rewrite last_snoc /=. set_solver. }
  iFrame "H1". iApply (list_add_at e1 c zs ws d with "[$H2 $Hp1 Hn1]"). by iExists _.
Qed.

Lemma list_move_chain a xs e ys b c zs d :
  {{ chain a (xs ++ e :: ys) b ∗ chain c zs d }} list_move e c
  {{ _, chain a (xs ++ ys) b ∗ chain c (e :: zs) d }}.
Proof.
  triple_start. iIntros "[H1 H2]". unfold list_move.
  wp_call (__list_del_entry_chain a xs e ys b) with "H1". iIntros (_) "[$ He]".
  iApply (list_add_chain with "[$He $H2]").
Qed.

Lemma list_move_same a xs e ys b :
  {{ chain a (xs ++ e :: ys) b }} list_move e a {{ _, chain a (e :: xs ++ ys) b }}.
Proof.
  triple_start. iIntros "H1". unfold list_move.
  wp_call (__list_del_entry_chain a xs e ys b) with "H1". iIntros (_) "[Hc He]".
  iApply (list_add_chain with "[$He $Hc]").
Qed.

Lemma list_move_tail_chain a xs e ys b c zs d :
  {{ chain a (xs ++ e :: ys) b ∗ chain c zs d }} list_move_tail e d
  {{ _, chain a (xs ++ ys) b ∗ chain c (zs ++ [e]) d }}.
Proof.
  triple_start. iIntros "[H1 H2]". unfold list_move_tail.
  wp_call (__list_del_entry_chain a xs e ys b) with "H1". iIntros (_) "[$ He]".
  iApply (list_add_tail_chain with "[$He $H2]").
Qed.

Lemma list_move_tail_same a xs e ys b :
  {{ chain a (xs ++ e :: ys) b }} list_move_tail e b {{ _, chain a ((xs ++ ys) ++ [e]) b }}.
Proof.
  triple_start. iIntros "H1". unfold list_move_tail.
  wp_call (__list_del_entry_chain a xs e ys b) with "H1". iIntros (_) "[Hc He]".
  iApply (list_add_tail_chain with "[$He $Hc]").
Qed.

Lemma list_bulk_move_tail_spec hd xs first ms ys :
  {{ clist hd (xs ++ (first :: ms) ++ ys) }}
    list_bulk_move_tail hd first (default first (last ms))
  {{ _, clist hd (xs ++ ys ++ first :: ms) }}.
Proof.
  triple_start. unfold clist, list_bulk_move_tail. simpl. rewrite chain_app (chain_last hd xs).
  iIntros "[(%fp & _ & Hfn & Hfp & Hxs) Hc]". destruct ys as [|y ys].
  - rewrite app_nil_r chain_last. iDestruct "Hc" as (l) "(-> & Hln & Hhp & Hms)".
    wp_steps. rewrite chain_app. iSplitL "Hxs Hfn Hfp"; [iApply ("Hxs" with "Hfn Hfp")|].
    iApply ("Hms" with "Hln Hhp").
  - rewrite chain_app !chain_last.
    iDestruct "Hc" as "[(%l & -> & Hln & Hyp & Hms) (%q & _ & Hqn & Hhp & Hys)]".
    wp_steps. rewrite /= !chain_app.
    iSplitL "Hxs Hfn Hyp"; [iApply ("Hxs" with "Hfn Hyp")|].
    iSplitL "Hys Hqn Hfp"; [iApply ("Hys" with "Hqn Hfp")|].
    iApply ("Hms" with "Hln Hhp").
Qed.

(** ** Tests *)

Lemma head_of_clist hd xs :
  {{ clist hd xs }} load (next hd) {{ v, ⌜v = default hd (head xs)⌝ ∗ clist hd xs }}.
Proof.
  triple_start. unfold clist. destruct xs as [|x xs]; simpl.
  - iIntros "[Hn Hp]". wp_load. by iFrame.
  - iIntros "[[Hn Hp] Hc]". wp_load. by iFrame.
Qed.

Lemma last_of_clist hd xs :
  {{ clist hd xs }} load (prev hd) {{ v, ⌜v = default hd (last xs)⌝ ∗ clist hd xs }}.
Proof.
  triple_start. unfold clist. rewrite {1}chain_last. iIntros "(%p & -> & Hn & Hp & Hc)".
  wp_load. iSplit; [done|]. iApply ("Hc" with "Hn Hp").
Qed.

Lemma clist_nodup hd xs : clist hd xs ⊢ ⌜NoDup (hd :: xs)⌝.
Proof. apply chain_nodup. Qed.

(** Walking round the circle: any element can serve as the head. *)
Lemma clist_rotate a xs b ys : clist a (xs ++ b :: ys) ⊣⊢ clist b (ys ++ a :: xs).
Proof. unfold clist. by rewrite !chain_app comm. Qed.

Lemma default_in (d : Z) (o : option Z) (xs : list Z) :
  d ∉ xs → (∀ x, o = Some x → x ∈ xs) → (default d o =? d) = bool_decide (o = None).
Proof.
  intros Hd Ho. destruct o as [x|]; [|apply Z.eqb_refl].
  apply Z.eqb_neq. simpl. intros ->. by eapply Hd, Ho.
Qed.

Lemma list_empty_spec hd xs :
  {{ clist hd xs }} list_empty hd {{ b, ⌜b = bool_decide (xs = [])⌝ ∗ clist hd xs }}.
Proof.
  triple_start. iIntros "H". iDestruct (clist_nodup with "H") as %[Hhd _]%NoDup_cons.
  unfold list_empty. wp_call (head_of_clist hd xs) with "H". iIntros (v) "[-> $]". wp_ret.
  iPureIntro. rewrite (default_in _ _ xs) //; [|by intros x Hx; apply head_Some_elem_of].
  by destruct xs.
Qed.

Lemma list_is_first_spec hd xs e ys :
  {{ clist hd (xs ++ e :: ys) }} list_is_first e hd
  {{ b, ⌜b = bool_decide (xs = [])⌝ ∗ clist hd (xs ++ e :: ys) }}.
Proof.
  triple_start. iIntros "H". iDestruct (clist_nodup with "H") as %[Hhd _]%NoDup_cons.
  unfold list_is_first. wp_call (load_prev_chain hd xs e ys hd) with "H".
  iIntros (v) "[-> $]". wp_ret. iPureIntro.
  rewrite (default_in _ _ xs); [|set_solver|by intros x Hx; eapply last_Some_elem_of].
  apply bool_decide_ext. by rewrite last_None.
Qed.

Lemma list_is_last_spec hd xs e ys :
  {{ clist hd (xs ++ e :: ys) }} list_is_last e hd
  {{ b, ⌜b = bool_decide (ys = [])⌝ ∗ clist hd (xs ++ e :: ys) }}.
Proof.
  triple_start. iIntros "H". iDestruct (clist_nodup with "H") as %[Hhd _]%NoDup_cons.
  unfold list_is_last. wp_call (load_next_chain hd xs e ys hd) with "H".
  iIntros (v) "[-> $]". wp_ret. iPureIntro.
  rewrite (default_in _ _ ys); [|set_solver|by intros x Hx; apply head_Some_elem_of].
  by destruct ys.
Qed.

Lemma list_is_singular_spec hd xs :
  {{ clist hd xs }} list_is_singular hd
  {{ b, ⌜b = bool_decide (length xs = 1%nat)⌝ ∗ clist hd xs }}.
Proof.
  triple_start. iIntros "H". iDestruct (clist_nodup with "H") as %[Hhd Hnd]%NoDup_cons.
  unfold list_is_singular. wp_call (list_empty_spec hd xs) with "H". iIntros (v) "[-> H]".
  destruct xs as [|x xs]; simpl; [wp_ret; by iFrame|].
  wp_call (head_of_clist hd (x :: xs)) with "H". iIntros (v) "[-> H]".
  wp_call (last_of_clist hd (x :: xs)) with "H". iIntros (v) "[-> $]". wp_ret. iPureIntro.
  destruct xs as [|y xs _] using rev_ind; [simpl; by rewrite Z.eqb_refl|].
  rewrite (app_comm_cons xs) last_snoc /=. rewrite bool_decide_false.
  - apply Z.eqb_neq. intros ->. apply NoDup_cons in Hnd as [Hnd _]. set_solver.
  - rewrite length_app /=. lia.
Qed.

(** ** Rotation, splitting and joining *)

Lemma list_rotate_left_spec hd xs :
  {{ clist hd xs }} list_rotate_left hd
  {{ _, clist hd (match xs with [] => [] | x :: xs => xs ++ [x] end) }}.
Proof.
  triple_start. iIntros "H". unfold list_rotate_left.
  wp_call (list_empty_spec hd xs) with "H". iIntros (v) "[-> H]".
  destruct xs as [|x xs]; simpl; [wp_ret; by iFrame|].
  wp_call (head_of_clist hd (x :: xs)) with "H". iIntros (v) "[-> H]".
  iApply (list_move_tail_same hd [] x xs hd with "H").
Qed.

Lemma list_rotate_to_front_spec hd xs l ys :
  {{ clist hd (xs ++ l :: ys) }} list_rotate_to_front l hd {{ _, clist hd (l :: ys ++ xs) }}.
Proof.
  triple_start. rewrite clist_rotate. iIntros "H". unfold list_rotate_to_front.
  wp_call (list_move_tail_same l ys hd xs l) with "H". iIntros (_) "H".
  by rewrite (clist_rotate hd [] l).
Qed.

Lemma __list_cut_position_spec l hd xs e ys :
  {{ node l ∗ clist hd (xs ++ e :: ys) }} __list_cut_position l hd e
  {{ _, clist l (xs ++ [e]) ∗ clist hd ys }}.
Proof.
  triple_start. unfold clist, __list_cut_position. rewrite chain_app.
  iIntros "([[%v Hln] [%w Hlp]] & Hxs & Hys)".
  destruct xs as [|x xs], ys as [|y ys]; simpl;
    [iDestruct "Hxs" as "[Hn Hp]"; iDestruct "Hys" as "[Hen Hep]"
    |iDestruct "Hxs" as "[Hn Hp]"; iDestruct "Hys" as "[[Hen Hep] Hys]"
    |iDestruct "Hxs" as "[[Hn Hp] Hxs]"; iDestruct "Hys" as "[Hen Hep]"
    |iDestruct "Hxs" as "[[Hn Hp] Hxs]"; iDestruct "Hys" as "[[Hen Hep] Hys]"];
    wp_steps; rewrite ?chain_snoc; iFrame.
Qed.

(** [entry] on the list: the entries up to it move to [l]. *)
Lemma list_cut_position_entry l hd xs e ys :
  {{ node l ∗ clist hd (xs ++ e :: ys) }} list_cut_position l hd e
  {{ _, clist l (xs ++ [e]) ∗ clist hd ys }}.
Proof.
  triple_start. iIntros "[Hl H]". iDestruct (clist_nodup with "H") as %[Hhd _]%NoDup_cons.
  unfold list_cut_position. wp_call (list_empty_spec hd (xs ++ e :: ys)) with "H".
  iIntros (v) "[-> H]". rewrite bool_decide_false; [|by destruct xs].
  wp_call (list_is_singular_spec hd (xs ++ e :: ys)) with "H". iIntros (v) "[-> H]".
  assert (entry_ne : (e =? hd) = false) by (apply Z.eqb_neq; set_solver).
  case_bool_decide as Hlen.
  - wp_call (head_of_clist hd (xs ++ e :: ys)) with "H". iIntros (v) "[-> H]". wp_ret.
    destruct xs as [|x xs]; [|simpl in Hlen; rewrite length_app /= in Hlen; lia].
    rewrite /= Z.eqb_refl /= entry_ne. iApply (__list_cut_position_spec l hd [] e ys with "[$Hl $H]").
  - wp_ret. rewrite entry_ne. iApply (__list_cut_position_spec l hd xs e ys with "[$Hl $H]").
Qed.

(** [entry] is the head itself: nothing is cut, and [l] is left alone when
    the list is empty. *)
Lemma list_cut_position_head l hd xs :
  {{ node l ∗ clist hd xs }} list_cut_position l hd hd
  {{ _, (if bool_decide (xs = []) then node l else clist l []) ∗ clist hd xs }}.
Proof.
  triple_start. iIntros "[Hl H]". unfold list_cut_position.
  wp_call (list_empty_spec hd xs) with "H". iIntros (v) "[-> H]".
  case_bool_decide; [wp_ret; by iFrame|].
  wp_call (list_is_singular_spec hd xs) with "H". iIntros (v) "[-> H]".
  wp_focus. iApply (wp_wand _ (λ b, ⌜b = false⌝ ∗ clist hd xs)%I with "[H]").
  { case_bool_decide; [|wp_ret; by iFrame].
    wp_call (head_of_clist hd xs) with "H". iIntros (v) "[-> H]". wp_ret.
    rewrite Z.eqb_refl andb_false_r. by iFrame. }
  iIntros (b) "[-> $]". rewrite Z.eqb_refl. iApply (INIT_LIST_HEAD_spec with "Hl").
Qed.

Lemma list_cut_before_entry l hd xs e ys :
  {{ node l ∗ clist hd (xs ++ e :: ys) }} list_cut_before l hd e
  {{ _, clist l xs ∗ clist hd (e :: ys) }}.
Proof.
  triple_start. iIntros "[Hl H]". iDestruct (clist_nodup with "H") as %[Hhd Hnd]%NoDup_cons.
  unfold list_cut_before. wp_call (head_of_clist hd (xs ++ e :: ys)) with "H".
  iIntros (v) "[-> H]". destruct xs as [|x xs]; simpl.
  { rewrite Z.eqb_refl. iFrame. iApply (INIT_LIST_HEAD_spec with "Hl"). }
  assert ((x =? e) = false) as ->.
  { apply Z.eqb_neq. intros ->. apply NoDup_cons in Hnd as [Hnd _]. set_solver. }
  unfold clist. simpl. rewrite chain_app (chain_last x xs).
  iDestruct "H" as "([Hn Hxp] & (%p & _ & Hpn & Hep & Hxs) & Hys)".
  iDestruct "Hl" as "[[%v Hln] [%w Hlp]]". wp_steps. iFrame. iApply ("Hxs" with "Hpn Hlp").
Qed.

Lemma list_cut_before_head l hd xs :
  {{ node l ∗ clist hd xs }} list_cut_before l hd hd {{ _, clist l xs ∗ clist hd [] }}.
Proof.
  triple_start. iIntros "[Hl H]". iDestruct (clist_nodup with "H") as %[Hhd Hnd]%NoDup_cons.
  unfold list_cut_before. wp_call (head_of_clist hd xs) with "H".
  iIntros (v) "[-> H]". destruct xs as [|x xs]; simpl.
  { rewrite Z.eqb_refl. iFrame. iApply (INIT_LIST_HEAD_spec with "Hl"). }
  assert ((x =? hd) = false) as -> by (apply Z.eqb_neq; set_solver).
  unfold clist. simpl. rewrite (chain_last x xs).
  iDestruct "H" as "([Hn Hxp] & (%p & _ & Hpn & Hep & Hxs))".
  iDestruct "Hl" as "[[%v Hln] [%w Hlp]]". wp_steps. iFrame. iApply ("Hxs" with "Hpn Hlp").
Qed.

Lemma __list_splice_spec l x ys p n :
  {{ clist l (x :: ys) ∗ link p n }} __list_splice l p n {{ _, chain p (x :: ys) n ∗ node l }}.
Proof.
  triple_start. unfold clist, __list_splice. simpl. rewrite (chain_last x ys).
  iIntros "([[Hln Hxp] (%q & _ & Hqn & Hlp & Hys)] & [Hpn Hnp])". wp_steps.
  iFrame "Hpn Hxp". iSplitR "Hln Hlp"; [iApply ("Hys" with "Hqn Hnp")|].
  iApply (node_intro with "Hln Hlp").
Qed.

Lemma clist_node l xs : xs = [] → clist l xs ⊢ node l.
Proof. intros ->. iIntros "[H1 H2]". iApply (node_intro with "H1 H2"). Qed.

Lemma list_splice_chain l ys a xs b :
  {{ clist l ys ∗ chain a xs b }} list_splice l a {{ _, chain a (ys ++ xs) b ∗ node l }}.
Proof.
  triple_start. iIntros "[Hl H]". unfold list_splice.
  wp_call (list_empty_spec l ys) with "Hl". iIntros (v) "[-> Hl]".
  destruct ys as [|y ys]; simpl; [wp_ret; iFrame; by iApply clist_node|].
  destruct xs as [|x xs]; simpl.
  - iDestruct "H" as "[Hn Hp]". wp_load. rewrite app_nil_r.
    iApply (__list_splice_spec with "[$Hl $Hn $Hp]").
  - iDestruct "H" as "[[Hn Hp] Hxs]". wp_load.
    wp_call (__list_splice_spec l y ys a x) with "[$Hl $Hn $Hp]".
    iIntros (_) "[[$ Hys] $]". rewrite chain_app. iFrame.
Qed.

Lemma list_splice_tail_chain l ys a xs b :
  {{ clist l ys ∗ chain a xs b }} list_splice_tail l b {{ _, chain a (xs ++ ys) b ∗ node l }}.
Proof.
  triple_start. iIntros "[Hl H]". unfold list_splice_tail.
  wp_call (list_empty_spec l ys) with "Hl". iIntros (v) "[-> Hl]".
  destruct ys as [|y ys]; simpl.
  { wp_ret. rewrite app_nil_r. iFrame. by iApply clist_node. }
  rewrite chain_last. iDestruct "H" as (p) "(_ & Hn & Hp & Hxs)". wp_load.
  wp_call (__list_splice_spec l y ys p b) with "[$Hl $Hn $Hp]".
  iIntros (_) "[[[H1 H2] Hys] $]". rewrite chain_app. iFrame. iApply ("Hxs" with "H1 H2").
Qed.

Lemma list_splice_init_chain l ys a xs b :
  {{ clist l ys ∗ chain a xs b }} list_splice_init l a {{ _, chain a (ys ++ xs) b ∗ clist l [] }}.
Proof.
  triple_start. iIntros "[Hl H]". unfold list_splice_init.
  wp_call (list_empty_spec l ys) with "Hl". iIntros (v) "[-> Hl]".
  destruct ys as [|y ys]; simpl; [wp_ret; iFrame|].
  destruct xs as [|x xs]; simpl.
  - iDestruct "H" as "[Hn Hp]". wp_load. rewrite app_nil_r.
    wp_call (__list_splice_spec l y ys a b) with "[$Hl $Hn $Hp]".
    iIntros (_) "[$ Hl]". iApply (INIT_LIST_HEAD_spec with "Hl").
  - iDestruct "H" as "[[Hn Hp] Hxs]". wp_load.
    wp_call (__list_splice_spec l y ys a x) with "[$Hl $Hn $Hp]".
    iIntros (_) "[[H Hys] Hl]". wp_call (INIT_LIST_HEAD_spec l) with "Hl".
    iIntros (_) "$". rewrite chain_app. iFrame.
Qed.

Lemma list_splice_tail_init_chain l ys a xs b :
  {{ clist l ys ∗ chain a xs b }} list_splice_tail_init l b
  {{ _, chain a (xs ++ ys) b ∗ clist l [] }}.
Proof.
  triple_start. iIntros "[Hl H]". unfold list_splice_tail_init.
  wp_call (list_empty_spec l ys) with "Hl". iIntros (v) "[-> Hl]".
  destruct ys as [|y ys]; simpl; [wp_ret; rewrite app_nil_r; iFrame|].
  rewrite chain_last. iDestruct "H" as (p) "(_ & Hn & Hp & Hxs)". wp_load.
  wp_call (__list_splice_spec l y ys p b) with "[$Hl $Hn $Hp]".
  iIntros (_) "[[[H1 H2] Hys] Hl]". wp_call (INIT_LIST_HEAD_spec l) with "Hl".
  iIntros (_) "$". rewrite chain_app. iFrame. iApply ("Hxs" with "H1 H2").
Qed.

(** ** Iteration

    What a loop header needs of the structure it walks: [V zs] owns it and
    says that the walk meets the entries [zs] in this order, [g] turns the
    address of a [list_head] into a cursor. *)
Class Walk (hd : Z) (g : Z → Z) (cond : Z → bool) (step : Z → M heap Z)
    (V : list Z → hProp) : Prop := {
  walk_cond x : cond (g x) = negb (x =? hd);
  walk_head zs : V zs ⊢ ⌜hd ∉ zs⌝;
  walk_step zs pre x post :
    zs = pre ++ x :: post →
    {{ V zs }} step (g x) {{ v, ⌜v = g (default hd (head post))⌝ ∗ V zs }};
  walk_step_head zs :
    {{ V zs }} step (g hd) {{ v, ⌜v = g (default hd (head zs))⌝ ∗ V zs }};
}.

Lemma load_prev_reverse hd pre x post zs :
  zs = pre ++ x :: post →
  {{ clist hd (reverse zs) }} load (prev x)
  {{ v, ⌜v = default hd (head post)⌝ ∗ clist hd (reverse zs) }}.
Proof.
  intros ->. rewrite reverse_app reverse_cons -app_assoc /=.
  rewrite -(reverse_involutive post) -{1}last_reverse reverse_involutive.
  apply load_prev_chain.
Qed.

Lemma load_prev_head_reverse hd zs :
  {{ clist hd (reverse zs) }} load (prev hd)
  {{ v, ⌜v = default hd (head zs)⌝ ∗ clist hd (reverse zs) }}.
Proof.
  rewrite -{1}(reverse_involutive zs). rewrite -last_reverse reverse_involutive. apply last_of_clist.
Qed.

#[export] Instance walk_forward hd :
  Walk hd id (λ pos, negb (pos =? hd)) (λ pos, load (next pos)) (clist hd).
Proof.
  split; [done| | |].
  - intros zs. rewrite clist_nodup. iIntros "%Hnd". by apply NoDup_cons in Hnd as [??].
  - intros zs pre x post ->. apply load_next_chain.
  - intros zs. apply head_of_clist.
Qed.

#[export] Instance walk_backward hd :
  Walk hd id (λ pos, negb (pos =? hd)) (λ pos, load (prev pos)) (λ zs, clist hd (reverse zs)).
Proof.
  split; [done| | |].
  - intros zs. rewrite clist_nodup. iIntros "%Hnd". apply NoDup_cons in Hnd as [??].
    by rewrite -elem_of_reverse.
  - intros zs pre x post. apply load_prev_reverse.
  - intros zs. apply load_prev_head_reverse.
Qed.

Lemma wp_fmap_ret {A B} (c : M heap A) (f : A → B) Φ :
  wp c (λ a, Φ (f a)) ⊢ wp (c ≫= λ a, mret (f a)) Φ.
Proof. rewrite -wp_bind. apply wp_mono. intros a. apply wp_ret. Qed.

Lemma walk_entry hd off (V : list Z → hProp) (step : Z → M heap Z) :
  Walk hd id (λ pos, negb (pos =? hd)) step V →
  Walk hd (λ x, x - off) (λ pos, negb (pos + off =? hd))
    (λ pos, n ← step (pos + off); mret (list_entry n off)) V.
Proof.
  intros W. split.
  - intros x. by rewrite Z.sub_add.
  - apply W.
  - intros zs pre x post Hzs. rewrite Z.sub_add /triple -wp_fmap_ret.
    etrans; [exact (walk_step (Walk:=W) zs pre x post Hzs)|]. apply wp_mono. intros v. by iIntros "[-> $]".
  - intros zs. rewrite Z.sub_add /triple -wp_fmap_ret.
    etrans; [exact (walk_step_head (Walk:=W) zs)|]. apply wp_mono. intros v. by iIntros "[-> $]".
Qed.

#[export] Instance walk_entry_forward hd off :
  Walk hd (λ x, x - off) (λ pos, negb (pos + off =? hd))
    (λ pos, list_next_entry pos off) (clist hd).
Proof. apply (walk_entry hd off _ (λ pos, load (next pos))), _. Qed.

#[export] Instance walk_entry_backward hd off :
  Walk hd (λ x, x - off) (λ pos, negb (pos + off =? hd))
    (λ pos, list_prev_entry pos off) (λ zs, clist hd (reverse zs)).
Proof. apply (walk_entry hd off _ (λ pos, load (prev pos))), _. Qed.

Section walks.
Context {hd : Z} {g : Z → Z} {cond : Z → bool} {step : Z → M heap Z} {V : list Z → hProp}.
Context `{W : !Walk hd g cond step V}.

(** A loop whose body leaves the list as it is visits the remaining
    entries once each, in order, and ends at the head. *)
Lemma for_loop_spec zs (I : list Z → hProp) (body : Z → M heap unit) :
  (∀ pre x post, zs = pre ++ x :: post →
     {{ V zs ∗ I pre }} body (g x) {{ _, V zs ∗ I (pre ++ [x]) }}) →
  ∀ todo seen fuel, zs = seen ++ todo → (length todo < fuel)%nat →
  {{ V zs ∗ I seen }} for_loop fuel cond step body (g (default hd (head todo)))
  {{ v, ⌜v = g hd⌝ ∗ V zs ∗ I zs }}.
Proof.
  intros Hbody. induction todo as [|x todo IH]; intros seen [|fuel] Hzs Hf; simpl in Hf; try lia.
  - triple_start. rewrite app_nil_r in Hzs. subst seen. simpl.
    rewrite walk_cond Z.eqb_refl /=. iIntros "[$ $]". by wp_ret.
  - triple_start. iIntros "[HV HI]". iDestruct (walk_head with "HV") as %Hhd. simpl.
    rewrite walk_cond. assert ((x =? hd) = false) as -> by (apply Z.eqb_neq; set_solver). simpl.
    wp_call (Hbody seen x todo Hzs) with "[$HV $HI]". iIntros (_) "[HV HI]".
    wp_call (walk_step zs seen x todo Hzs) with "HV". iIntros (v) "[-> HV]".
    iApply (IH (seen ++ [x]) with "[$HV $HI]"); [by rewrite -app_assoc|lia].
Qed.

(** A "safe" loop may take the current entry out of the list, or put others
    in its place: the entries still to come are visited all the same. *)
Lemma for_loop_safe_spec zs (I : list Z → list Z → hProp) (body : Z → M heap unit) :
  (∀ pre kept x post, zs = pre ++ x :: post →
     {{ V (kept ++ x :: post) ∗ I pre kept }} body (g x)
     {{ _, ∃ kept', V (kept' ++ post) ∗ I (pre ++ [x]) kept' }}) →
  ∀ todo seen kept n fuel, zs = seen ++ todo → (length todo < fuel)%nat →
  (todo = [] ∨ n = g (default hd (head (tail todo)))) →
  {{ V (kept ++ todo) ∗ I seen kept }}
    for_loop_safe fuel cond step body (g (default hd (head todo))) n
  {{ v, ∃ kept', ⌜v = g hd⌝ ∗ V kept' ∗ I zs kept' }}.
Proof.
  intros Hbody. induction todo as [|x todo IH];
    intros seen kept n [|fuel] Hzs Hf Hn; simpl in Hf; try lia.
  - triple_start. rewrite app_nil_r in Hzs. subst seen. simpl.
    rewrite walk_cond Z.eqb_refl /= app_nil_r. iIntros "[HV HI]". wp_ret. iExists kept. by iFrame.
  - destruct Hn as [|Hn]; [done|]. simpl in Hn. subst n.
    triple_start. iIntros "[HV HI]". iDestruct (walk_head with "HV") as %Hhd. simpl.
    rewrite walk_cond. assert ((x =? hd) = false) as -> by (apply Z.eqb_neq; set_solver). simpl.
    wp_call (Hbody seen kept x todo Hzs) with "[$HV $HI]". iIntros (_) "(%kept' & HV & HI)".
    destruct todo as [|y todo]; simpl.
    + wp_call (walk_step_head (kept' ++ [])) with "HV". iIntros (v) "[_ HV]".
      iApply (IH (seen ++ [x]) kept' with "[$HV $HI]"); [by rewrite -app_assoc|simpl;lia|by left].
    + wp_call (walk_step (kept' ++ y :: todo) kept' y todo eq_refl) with "HV".
      iIntros (v) "[-> HV]". iApply (IH (seen ++ [x]) kept' with "[$HV $HI]");
        [by rewrite -app_assoc|simpl in *;lia|by right].
Qed.
End walks.

Lemma list_for_each_spec fuel hd xs (I : list Z → hProp) body :
  (length xs < fuel)%nat →
  (∀ pre x post, xs = pre ++ x :: post →
     {{ clist hd xs ∗ I pre }} body x {{ _, clist hd xs ∗ I (pre ++ [x]) }}) →
  {{ clist hd xs ∗ I [] }} list_for_each fuel body hd
  {{ v, ⌜v = hd⌝ ∗ clist hd xs ∗ I xs }}.
Proof.
  intros Hf Hb. triple_start. iIntros "[Hc HI]". unfold list_for_each.
  wp_call (head_of_clist hd xs) with "Hc". iIntros (v) "[-> Hc]".
  iApply (for_loop_spec (W:=walk_forward hd) xs I body Hb xs [] fuel with "[$Hc $HI]"); done.
Qed.

Lemma list_for_each_prev_spec fuel hd xs (I : list Z → hProp) body :
  (length xs < fuel)%nat →
  (∀ pre x post, reverse xs = pre ++ x :: post →
     {{ clist hd xs ∗ I pre }} body x {{ _, clist hd xs ∗ I (pre ++ [x]) }}) →
  {{ clist hd xs ∗ I [] }} list_for_each_prev fuel body hd
  {{ v, ⌜v = hd⌝ ∗ clist hd xs ∗ I (reverse xs) }}.
Proof.
  intros Hf Hb. triple_start. iIntros "[Hc HI]". unfold list_for_each_prev.
  rewrite -{1}(reverse_involutive xs).
  wp_call (load_prev_head_reverse hd (reverse xs)) with "Hc". iIntros (v) "[-> Hc]".
  pose proof (for_loop_spec (W:=walk_backward hd) (reverse xs) I body) as Hl.
  rewrite !reverse_involutive in Hl.
  iApply (Hl Hb (reverse xs) [] fuel with "[Hc $HI]");
    [done|by rewrite length_reverse|by rewrite reverse_involutive].
Qed.

(** [list_for_each_entry] calls its body on the container of every entry
    of the list, once each and in order, and [list_for_each_entry_reverse]
    does so in the opposite order: any property [I] of the entries seen so
    far that the body advances by one entry holds at the end of all of them,
    the list is unchanged, and both loops end within one more iteration than
    there are entries. *)
Theorem list_for_each_entry_visits_all fuel hd off xs (I : list Z → hProp) body :
  (length xs < fuel)%nat →
  ((∀ pre x post, xs = pre ++ x :: post →
      {{ clist hd xs ∗ I pre }} body (x - off) {{ _, clist hd xs ∗ I (pre ++ [x]) }}) →
   {{ clist hd xs ∗ I [] }} list_for_each_entry fuel body hd off
   {{ v, ⌜v = hd - off⌝ ∗ clist hd xs ∗ I xs }}) ∧
  ((∀ pre x post, reverse xs = pre ++ x :: post →
      {{ clist hd xs ∗ I pre }} body (x - off) {{ _, clist hd xs ∗ I (pre ++ [x]) }}) →
   {{ clist hd xs ∗ I [] }} list_for_each_entry_reverse fuel body hd off
   {{ v, ⌜v = hd - off⌝ ∗ clist hd xs ∗ I (reverse xs) }}).
Proof.
  intros Hf. split; intros Hb; triple_start; iIntros "[Hc HI]".
  - unfold list_for_each_entry, list_first_entry.
    wp_call (head_of_clist hd xs) with "Hc". iIntros (v) "[-> Hc]". wp_ret.
    iApply (for_loop_spec (W:=walk_entry_forward hd off) xs I body Hb xs [] fuel with "[$Hc $HI]");
      done.
  - unfold list_for_each_entry_reverse, list_last_entry.
    rewrite -{1}(reverse_involutive xs).
    wp_call (load_prev_head_reverse hd (reverse xs)) with "Hc". iIntros (v) "[-> Hc]". wp_ret.
    pose proof (for_loop_spec (W:=walk_entry_backward hd off) (reverse xs) I body) as Hl.
    rewrite !reverse_involutive in Hl.
    iApply (Hl Hb (reverse xs) [] fuel with "[Hc $HI]");
      [done|by rewrite length_reverse|by rewrite reverse_involutive].
Qed.

(** Counting the entries of a three-element list in a cell [c]. *)
Definition count_body (c : Z) (_ : Z) : M heap unit := n ← load c; store c (n + 1).

Lemma count_body_spec c R (pre : list Z) (x y : Z) :
  {{ R ∗ c ↦ Z.of_nat (length pre) }} count_body c y
  {{ _, R ∗ c ↦ Z.of_nat (length (pre ++ [x])) }}.
Proof.
  triple_start. iIntros "[HR Hc]". unfold count_body. wp_steps. iFrame "HR".
  rewrite length_app Nat2Z.inj_add. iFrame.
Qed.

Lemma list_for_each_entry_visits_all_witness :
  ({{ clist 64 [96; 32; 160] ∗ 8 ↦ 0 }} list_for_each_entry 4 (count_body 8) 64 16
   {{ v, ⌜v = 48⌝ ∗ clist 64 [96; 32; 160] ∗ 8 ↦ 3 }}) ∧
  ({{ clist 64 [96; 32; 160] ∗ 8 ↦ 0 }} list_for_each_entry_reverse 4 (count_body 8) 64 16
   {{ v, ⌜v = 48⌝ ∗ clist 64 [96; 32; 160] ∗ 8 ↦ 3 }}).
Proof.
  destruct (list_for_each_entry_visits_all 4 64 16 [96; 32; 160]
    (λ seen, 8 ↦ Z.of_nat (length seen))%I (count_body 8)) as [H1 H2]; [simpl; lia|].
  split; [apply H1|apply H2]; intros; apply count_body_spec.
Defined.

(** The "safe" loop tolerates a body that unlinks the entry it is given
    (or links others in its place): every entry that was on the list is still
    visited exactly once, in order, and the loop ends. *)
Theorem list_for_each_entry_safe_visits_all fuel hd off xs (I : list Z → list Z → hProp) body :
  (length xs < fuel)%nat →
  (∀ pre kept x post, xs = pre ++ x :: post →
     {{ clist hd (kept ++ x :: post) ∗ I pre kept }} body (x - off)
     {{ _, ∃ kept', clist hd (kept' ++ post) ∗ I (pre ++ [x]) kept' }}) →
  {{ clist hd xs ∗ I [] [] }} list_for_each_entry_safe fuel body hd off
  {{ v, ∃ kept, ⌜v = hd - off⌝ ∗ clist hd kept ∗ I xs kept }}.
Proof.
  intros Hf Hb. triple_start. iIntros "[Hc HI]".
  unfold list_for_each_entry_safe, list_first_entry.
  wp_call (head_of_clist hd xs) with "Hc". iIntros (v) "[-> Hc]". wp_ret.
  pose proof (walk_entry_forward hd off) as W. destruct xs as [|x xs].
  - wp_call (walk_step_head (Walk:=W) []) with "Hc". iIntros (v) "[_ Hc]".
    iApply (for_loop_safe_spec (W:=W) [] I body Hb [] [] [] v fuel with "[$Hc $HI]"); auto.
  - wp_call (walk_step (Walk:=W) (x :: xs) [] x xs eq_refl) with "Hc". iIntros (v) "[-> Hc]".
    iApply (for_loop_safe_spec (W:=W) (x :: xs) I body Hb (x :: xs) [] []
      (default hd (head xs) - off) fuel with "[$Hc $HI]"); auto.
Qed.

(** Emptying a list from inside the loop. *)
Lemma list_for_each_entry_safe_visits_all_witness :
  {{ clist 64 [96; 32; 160] ∗ emp }}
    list_for_each_entry_safe 4 (λ pos, list_del (pos + 16)) 64 16
  {{ v, ∃ kept, ⌜v = 48⌝ ∗ clist 64 kept ∗ ⌜kept = []⌝ }}.
Proof.
  pose proof (list_for_each_entry_safe_visits_all 4 64 16 [96; 32; 160]
    (λ _ kept, ⌜kept = []⌝)%I (λ pos, list_del (pos + 16))) as H.
  assert (({{ clist 64 [96; 32; 160] ∗ ⌜([] : list Z) = []⌝ }}
    list_for_each_entry_safe 4 (λ pos, list_del (pos + 16)) 64 16
    {{ v, ∃ kept, ⌜v = 48⌝ ∗ clist 64 kept ∗ ⌜kept = []⌝ }})) as H'.
  { apply H; [simpl; lia|]. intros pre kept x post _. rewrite Z.sub_add. triple_start.
    iIntros "[Hc ->]". wp_call (list_del_chain 64 [] x post 64) with "Hc".
    iIntros (_) "[Hc _]". iExists []. by iFrame. }
  triple_start. iIntros "[Hc _]". iApply (H' with "[$Hc]"). done.
Defined.

(** [list_swap] exchanges two entries wherever they are: the first before
    the second (also when they are neighbours), the second before the first,
    or on two different lists. *)
Theorem list_swap_exchanges a xs e1 ys e2 zs b c us ws d :
  ({{ chain a (xs ++ e1 :: ys ++ e2 :: zs) b }} list_swap e1 e2
   {{ _, chain a (xs ++ e2 :: ys ++ e1 :: zs) b }}) ∧
  ({{ chain a (xs ++ e2 :: ys ++ e1 :: zs) b }} list_swap e1 e2
   {{ _, chain a (xs ++ e1 :: ys ++ e2 :: zs) b }}) ∧
  ({{ chain a (xs ++ e1 :: ys) b ∗ chain c (us ++ e2 :: ws) d }} list_swap e1 e2
   {{ _, chain a (xs ++ e2 :: ys) b ∗ chain c (us ++ e1 :: ws) d }}).
Proof.
  split_and!; [apply list_swap_forward|apply list_swap_backward|apply list_swap_across].
Qed.

(** [list_bulk_move_tail] moves the section from [first] to [last], in
    order, behind everything else on the list, for every position of the
    section including the whole list. *)
Theorem list_bulk_move_tail_moves hd xs first ms ys :
  {{ clist hd (xs ++ (first :: ms) ++ ys) }}
    list_bulk_move_tail hd first (default first (last ms))
  {{ _, clist hd (xs ++ ys ++ first :: ms) }}.
Proof. apply list_bulk_move_tail_spec. Qed.

End ListHead.
