(* ===== verification/LinuxListRefine.v ===== *)
(** * Linux lists refine sequences

    The contract of the list API, as an abstract machine whose state is a
    collection of sequences: [lists] gives the entries of every list head and
    [loose] the [list_head]s that are on no list.  A command names the function
    to call; where the C function only takes an entry, the command also names
    the head of the list the entry is on, which the code does not see.  The
    place at which an entry or a list is added is a head or an entry of a list.
    The refinement theorem runs any script of commands on the heap. *)
From S2P Require Import Prelude HeapLogic LinuxList.
From stdpp Require Import gmap list.
From iris.proofmode Require Import proofmode.
Import ListHead.
#[local] Open Scope Z_scope.

Module ListMachine.

Record lstate := LState { lists : gmap Z (list Z); loose : gset Z }.

Inductive lcmd :=
  | CInit (l : Z)
  | CAdd (new hd place : Z)
  | CAddTail (new hd place : Z)
  | CDel (hd e : Z)
  | CDelInit (hd e : Z)
  | CReplace (hd old new : Z)
  | CReplaceHead (old new : Z)
  | CReplaceInit (hd old new : Z)
  | CReplaceInitHead (old new : Z)
  | CSwap (hd1 e1 hd2 e2 : Z)
  | CMove (hd e hd' place : Z)
  | CMoveTail (hd e hd' place : Z)
  | CBulkMoveTail (hd first last : Z)
  | CRotateLeft (hd : Z)
  | CRotateToFront (hd e : Z)
  | CCutPosition (l hd e : Z)
  | CCutBefore (l hd e : Z)
  | CSplice (l hd place : Z)
  | CSpliceTail (l hd place : Z)
  | CSpliceInit (l hd place : Z)
  | CSpliceTailInit (l hd place : Z)
  | CEmpty (hd : Z)
  | CIsFirst (hd e : Z)
  | CIsLast (hd e : Z)
  | CIsSingular (hd : Z).

Definition call (c : M heap unit) : M heap (option bool) := c ;; mret None.
Definition ask (c : M heap bool) : M heap (option bool) := b ← c; mret (Some b).

(** The call each command stands for, and its result if it has one. *)
Definition exec (c : lcmd) : M heap (option bool) :=
  match c with
  | CInit l => call (INIT_LIST_HEAD l)
  | CAdd new _ place => call (list_add new place)
  | CAddTail new _ place => call (list_add_tail new place)
  | CDel _ e => call (list_del e)
  | CDelInit _ e => call (list_del_init e)
  | CReplace _ old new | CReplaceHead old new => call (list_replace old new)
  | CReplaceInit _ old new | CReplaceInitHead old new => call (list_replace_init old new)
  | CSwap _ e1 _ e2 => call (list_swap e1 e2)
  | CMove _ e _ place => call (list_move e place)
  | CMoveTail _ e _ place => call (list_move_tail e place)
  | CBulkMoveTail hd first last => call (list_bulk_move_tail hd first last)
  | CRotateLeft hd => call (list_rotate_left hd)
  | CRotateToFront hd e => call (list_rotate_to_front e hd)
  | CCutPosition l hd e => call (list_cut_position l hd e)
  | CCutBefore l hd e => call (list_cut_before l hd e)
  | CSplice l _ place => call (list_splice l place)
  | CSpliceTail l _ place => call (list_splice_tail l place)
  | CSpliceInit l _ place => call (list_splice_init l place)
  | CSpliceTailInit l _ place => call (list_splice_tail_init l place)
  | CEmpty hd => ask (list_empty hd)
  | CIsFirst hd e => ask (list_is_first e hd)
  | CIsLast hd e => ask (list_is_last e hd)
  | CIsSingular hd => ask (list_is_singular hd)
  end.

(** The entries before and after [e]. *)
Fixpoint split_at (e : Z) (xs : list Z) : option (list Z * list Z) :=
  match xs with
  | [] => None
  | x :: xs =>
      if decide (x = e) then Some ([], xs) else
      '(ys, zs) ← split_at e xs; Some (x :: ys, zs)
  end.

(** A list cut behind or before a place, which is its head or an entry. *)
Definition behind (hd place : Z) (xs : list Z) : option (list Z * list Z) :=
  if decide (place = hd) then Some ([], xs) else
  '(ys, zs) ← split_at place xs; Some (ys ++ [place], zs).
Definition before (hd place : Z) (xs : list Z) : option (list Z * list Z) :=
  if decide (place = hd) then Some (xs, []) else
  '(ys, zs) ← split_at place xs; Some (ys, place :: zs).

Definition swap_in (e1 e2 : Z) (xs : list Z) : option (list Z) :=
  '(ys, zs) ← split_at e1 xs;
  match split_at e2 zs with
  | Some (us, vs) => Some (ys ++ e2 :: us ++ e1 :: vs)
  | None =>
      '(us, vs) ← split_at e2 ys;
      Some (us ++ e1 :: vs ++ e2 :: zs)
  end.

Definition set_list (hd : Z) (xs : list Z) (σ : lstate) : lstate :=
  LState (<[hd := xs]> (lists σ)) (loose σ).
Definition add_loose (p : Z) (σ : lstate) : lstate :=
  LState (lists σ) ({[p]} ∪ loose σ).
Definition drop_list (hd : Z) (σ : lstate) : lstate :=
  LState (delete hd (lists σ)) (loose σ).

(** A [list_head] whose content does not matter: one that is on no list, or the
    head of a list whose entries are given up. *)
Definition vacate (p : Z) (σ : lstate) : option lstate :=
  if decide (p ∈ loose σ) then Some (LState (lists σ) (loose σ ∖ {[p]})) else
  ys ← lists σ !! p; Some (foldr add_loose (drop_list p σ) ys).
(** A [list_head] that can become an entry: one that is on no list, or that was
    initialized to an empty one. *)
Definition take_node (p : Z) (σ : lstate) : option lstate :=
  if decide (p ∈ loose σ) then Some (LState (lists σ) (loose σ ∖ {[p]})) else
  match lists σ !! p with Some [] => Some (drop_list p σ) | _ => None end.

(** [us] added at a cut of the list of [hd]. *)
Definition add_at (cut : list Z → option (list Z * list Z)) (hd : Z) (us : list Z) (σ : lstate) :
    option lstate :=
  xs ← lists σ !! hd; '(ys, zs) ← cut xs; Some (set_list hd (ys ++ us ++ zs) σ).
(** An entry taken off the list of [hd]. *)
Definition remove (hd e : Z) (σ : lstate) : option lstate :=
  xs ← lists σ !! hd; '(ys, zs) ← split_at e xs; Some (set_list hd (ys ++ zs) σ).
Definition replace_in (hd old new : Z) (σ : lstate) : option lstate :=
  xs ← lists σ !! hd; '(ys, zs) ← split_at old xs; Some (set_list hd (ys ++ new :: zs) σ).

(** What each command does to the sequences; [None] when the heads are not
    heads of lists, the entries not on them, or the new nodes not free. *)
Definition abs_step (c : lcmd) (σ : lstate) : option lstate :=
  match c with
  | CInit l => σ ← vacate l σ; Some (set_list l [] σ)
  | CAdd new hd place => σ ← take_node new σ; add_at (behind hd place) hd [new] σ
  | CAddTail new hd place => σ ← take_node new σ; add_at (before hd place) hd [new] σ
  | CDel hd e => σ ← remove hd e σ; Some (add_loose e σ)
  | CDelInit hd e => σ ← remove hd e σ; Some (set_list e [] σ)
  | CReplace hd old new =>
      σ ← take_node new σ; σ ← replace_in hd old new σ; Some (add_loose old σ)
  | CReplaceHead old new =>
      σ ← take_node new σ; xs ← lists σ !! old;
      Some (add_loose old (set_list new xs (drop_list old σ)))
  | CReplaceInit hd old new =>
      σ ← take_node new σ; σ ← replace_in hd old new σ; Some (set_list old [] σ)
  | CReplaceInitHead old new =>
      σ ← take_node new σ; xs ← lists σ !! old;
      Some (set_list old [] (set_list new xs (drop_list old σ)))
  | CSwap hd1 e1 hd2 e2 =>
      xs ← lists σ !! hd1;
      if decide (hd1 = hd2) then ys ← swap_in e1 e2 xs; Some (set_list hd1 ys σ) else
      '(ys, zs) ← split_at e1 xs; replace_in hd2 e2 e1 (set_list hd1 (ys ++ e2 :: zs) σ)
  | CMove hd e hd' place => σ ← remove hd e σ; add_at (behind hd' place) hd' [e] σ
  | CMoveTail hd e hd' place => σ ← remove hd e σ; add_at (before hd' place) hd' [e] σ
  | CBulkMoveTail hd first last =>
      xs ← lists σ !! hd; '(ys, zs) ← split_at first xs;
      '(us, vs) ← behind first last zs;
      Some (set_list hd (ys ++ vs ++ first :: us) σ)
  | CRotateLeft hd =>
      xs ← lists σ !! hd;
      Some (set_list hd (match xs with [] => [] | x :: xs => xs ++ [x] end) σ)
  | CRotateToFront hd e =>
      xs ← lists σ !! hd; '(ys, zs) ← split_at e xs;
      Some (set_list hd (e :: zs ++ ys) σ)
  | CCutPosition l hd e =>
      xs ← lists σ !! hd;
      if decide (e = hd) then
        if decide (xs = []) then Some σ else
        σ ← vacate l σ; _ ← lists σ !! hd; Some (set_list l [] σ)
      else
        σ ← vacate l σ; xs ← lists σ !! hd; '(ys, zs) ← split_at e xs;
        Some (set_list l (ys ++ [e]) (set_list hd zs σ))
  | CCutBefore l hd e =>
      σ ← vacate l σ; xs ← lists σ !! hd; '(ys, zs) ← before hd e xs;
      Some (set_list l ys (set_list hd zs σ))
  | CSplice l hd place =>
      us ← lists σ !! l; σ ← add_at (behind hd place) hd us (drop_list l σ); Some (add_loose l σ)
  | CSpliceTail l hd place =>
      us ← lists σ !! l; σ ← add_at (before hd place) hd us (drop_list l σ); Some (add_loose l σ)
  | CSpliceInit l hd place =>
      us ← lists σ !! l; σ ← add_at (behind hd place) hd us (drop_list l σ); Some (set_list l [] σ)
  | CSpliceTailInit l hd place =>
      us ← lists σ !! l; σ ← add_at (before hd place) hd us (drop_list l σ); Some (set_list l [] σ)
  | CEmpty hd | CIsSingular hd => _ ← lists σ !! hd; Some σ
  | CIsFirst hd e | CIsLast hd e => xs ← lists σ !! hd; _ ← split_at e xs; Some σ
  end.

(** What the questions are answered. *)
Definition abs_answer (c : lcmd) (σ : lstate) : option bool :=
  match c with
  | CEmpty hd => xs ← lists σ !! hd; Some (bool_decide (xs = []))
  | CIsSingular hd => xs ← lists σ !! hd; Some (bool_decide (length xs = 1%nat))
  | CIsFirst hd e => xs ← lists σ !! hd; '(ys, _) ← split_at e xs; Some (bool_decide (ys = []))
  | CIsLast hd e => xs ← lists σ !! hd; '(_, zs) ← split_at e xs; Some (bool_decide (zs = []))
  | _ => None
  end.

Fixpoint exec_script (cs : list lcmd) : M heap (list (option bool)) :=
  match cs with
  | [] => mret []
  | c :: cs => r ← exec c; rs ← exec_script cs; mret (r :: rs)
  end.

Fixpoint abs_script (cs : list lcmd) (σ : lstate) : option (list (option bool) * lstate) :=
  match cs with
  | [] => Some ([], σ)
  | c :: cs =>
      σ1 ← abs_step c σ;
      '(rs, σ2) ← abs_script cs σ1;
      Some (abs_answer c σ :: rs, σ2)
  end.

(** The heap that represents an abstract state. *)
Definition rep (σ : lstate) : hPropI :=
  (([∗ map] hd ↦ xs ∈ lists σ, clist hd xs) ∗ ([∗ set] p ∈ loose σ, node p))%I.

(** ** The simulation *)

Lemma split_at_spec e xs ys zs : split_at e xs = Some (ys, zs) → xs = ys ++ e :: zs.
Proof.
  revert ys zs. induction xs as [|x xs IH]; intros ys zs; simpl; [done|].
  case_decide; [naive_solver|]. intros ([us vs] & Hs & [= <- <-])%bind_Some.
  by rewrite (IH us vs).
Qed.

Lemma behind_spec hd place xs ys zs :
  behind hd place xs = Some (ys, zs) → xs = ys ++ zs ∧ place = default hd (last ys).
Proof.
  unfold behind. case_decide; [naive_solver|]. intros ([us vs] & ->%split_at_spec & [= <- <-])%bind_Some.
  by rewrite last_snoc -app_assoc.
Qed.

Lemma before_spec hd place xs ys zs :
  before hd place xs = Some (ys, zs) → xs = ys ++ zs ∧ place = default hd (head zs).
Proof.
  unfold before. case_decide; [intros [= <- <-]; by rewrite app_nil_r|].
  by intros ([us vs] & ->%split_at_spec & [= <- <-])%bind_Some.
Qed.

Lemma rep_take p σ :
  p ∈ loose σ → rep σ ⊢ node p ∗ rep (LState (lists σ) (loose σ ∖ {[p]})).
Proof.
  intros. unfold rep. simpl. rewrite (big_sepS_delete _ (loose σ) p) //. iIntros "($ & $ & $)".
Qed.

(** One list in focus: it can be put back with other entries, or left out. *)
Lemma rep_focus hd xs σ :
  lists σ !! hd = Some xs →
  rep σ ⊢ clist hd xs ∗ (∀ ys, clist hd ys -∗ rep (set_list hd ys σ)).
Proof.
  intros Hhd. unfold rep. rewrite big_sepM_insert_acc //.
  iIntros "[[$ H] $]". iIntros (ys) "Hys". by iApply "H".
Qed.

Lemma rep_focus_id hd xs σ :
  lists σ !! hd = Some xs → rep σ ⊢ clist hd xs ∗ (clist hd xs -∗ rep σ).
Proof.
  intros Hhd. rewrite {1}rep_focus //. iIntros "[$ H] Hc". iSpecialize ("H" with "Hc").
  unfold set_list, rep. simpl. by rewrite insert_id.
Qed.

Lemma rep_drop hd xs σ : lists σ !! hd = Some xs → rep σ ⊢ clist hd xs ∗ rep (drop_list hd σ).
Proof. intros Hhd. unfold rep. rewrite big_sepM_delete //. iIntros "[[$ $] $]". Qed.

Lemma rep_add_loose p σ : node p -∗ rep σ -∗ rep (add_loose p σ).
Proof.
  iIntros "Hp [$ H]". destruct (decide (p ∈ loose σ)) as [Hin|Hnin].
  - simpl. by replace ({[p]} ∪ loose σ) with (loose σ) by set_solver.
  - simpl. rewrite big_sepS_insert //. iFrame.
Qed.

Lemma rep_add_list hd xs σ : clist hd xs -∗ rep σ -∗ rep (set_list hd xs σ).
Proof.
  iIntros "Hxs [H $]". iApply (big_sepM_insert_2 with "Hxs H").
Qed.

Lemma chain_nodes a xs b : chain a xs b ⊢ next a ↦? ∗ prev b ↦? ∗ [∗ list] x ∈ xs, node x.
Proof.
  revert a. induction xs as [|x xs IH]; intros a; simpl.
  - iIntros "[H1 H2]". iSplitL "H1"; [by iExists _|]. iSplitL; [by iExists _|done].
  - rewrite IH. iIntros "[[H1 H2] (Hn & $ & $)]". iSplitL "H1"; [by iExists _|].
    iSplitL "Hn"; [done|by iExists _].
Qed.

Lemma rep_vacate p σ σ' : vacate p σ = Some σ' → rep σ ⊢ node p ∗ rep σ'.
Proof.
  unfold vacate. case_decide as Hp; [intros [= <-]; by apply rep_take|].
  intros (ys & Hys & [= <-])%bind_Some. rewrite (rep_drop p) // {1}/clist chain_nodes.
  iIntros "[(Hn & Hp & Hys) H]". iSplitL "Hn Hp"; [iFrame|]. clear Hys Hp.
  iInduction ys as [|y ys] "IH"; simpl; [done|]. iDestruct "Hys" as "[Hy Hys]".
  iApply (rep_add_loose with "Hy"). iApply ("IH" with "Hys H").
Qed.

Lemma rep_take_node p σ σ' : take_node p σ = Some σ' → rep σ ⊢ node p ∗ rep σ'.
Proof.
  unfold take_node. case_decide as Hp; [intros [= <-]; by apply rep_take|].
  destruct (lists σ !! p) as [[|]|] eqn:E; [|done..]. intros [= <-].
  rewrite (rep_drop p) //. by rewrite clist_node.
Qed.

Lemma swap_in_spec hd e1 e2 xs ys :
  swap_in e1 e2 xs = Some ys → {{ clist hd xs }} list_swap e1 e2 {{ _, clist hd ys }}.
Proof.
  unfold swap_in. intros ([us vs] & ->%split_at_spec & Hsw)%bind_Some.
  destruct (split_at e2 vs) as [[ws zs]|] eqn:Hs2.
  - apply split_at_spec in Hs2 as ->. injection Hsw as <-. apply list_swap_forward.
  - apply bind_Some in Hsw as ([ws zs] & ->%split_at_spec & [= <-]).
    rewrite -(app_assoc ws) /=. apply list_swap_backward.
Qed.

(** Adding at a place of a list, for the functions that add behind it and for
    those that add before it. *)
Section add_at.
Context (f : Z → M heap unit) (us : list Z) (R P : hPropI).

Lemma add_behind_spec hd place σ σ' :
  (∀ a xs b, {{ R ∗ chain a xs b }} f a {{ _, chain a (us ++ xs) b ∗ P }}) →
  add_at (behind hd place) hd us σ = Some σ' → {{ R ∗ rep σ }} f place {{ _, P ∗ rep σ' }}.
Proof.
  intros Hf (xs & Hxs & ([ys zs] & [-> ->]%behind_spec & [= <-])%bind_Some)%bind_Some.
  triple_start. rewrite rep_focus //. iIntros "(HR & Hc & H)".
  destruct ys as [|y ys _] using rev_ind; simpl.
  - wp_call (Hf hd zs hd) with "[$HR $Hc]". iIntros (_) "[Hc $]". by iApply "H".
  - rewrite last_snoc -!app_assoc /= {1}/clist chain_app. iDestruct "Hc" as "[Hc1 Hc2]".
    wp_call (Hf y zs hd) with "[$HR $Hc2]". iIntros (_) "[Hc2 $]". iApply "H".
    rewrite /clist chain_app. iFrame.
Qed.

Lemma add_before_spec hd place σ σ' :
  (∀ a xs b, {{ R ∗ chain a xs b }} f b {{ _, chain a (xs ++ us) b ∗ P }}) →
  add_at (before hd place) hd us σ = Some σ' → {{ R ∗ rep σ }} f place {{ _, P ∗ rep σ' }}.
Proof.
  intros Hf (xs & Hxs & ([ys zs] & [-> ->]%before_spec & [= <-])%bind_Some)%bind_Some.
  triple_start. rewrite rep_focus //. iIntros "(HR & Hc & H)". destruct zs as [|z zs]; simpl.
  - rewrite !app_nil_r. wp_call (Hf hd ys hd) with "[$HR $Hc]". iIntros (_) "[Hc $]". by iApply "H".
  - rewrite {1}/clist chain_app. iDestruct "Hc" as "[Hc1 Hc2]".
    wp_call (Hf hd ys z) with "[$HR $Hc1]". iIntros (_) "[Hc1 $]". iApply "H".
    rewrite /clist app_assoc chain_app. iFrame.
Qed.
End add_at.

Lemma list_add_place new hd place σ σ' :
  add_at (behind hd place) hd [new] σ = Some σ' →
  {{ node new ∗ rep σ }} list_add new place {{ _, emp ∗ rep σ' }}.
Proof.
  apply (add_behind_spec (list_add new)). intros a xs b. triple_start. iIntros "H".
  wp_call (list_add_chain new a xs b) with "H". by iIntros (_) "$".
Qed.

Lemma list_add_tail_place new hd place σ σ' :
  add_at (before hd place) hd [new] σ = Some σ' →
  {{ node new ∗ rep σ }} list_add_tail new place {{ _, emp ∗ rep σ' }}.
Proof.
  apply (add_before_spec (list_add_tail new)). intros a xs b. triple_start. iIntros "H".
  wp_call (list_add_tail_chain new a xs b) with "H". by iIntros (_) "$".
Qed.

Lemma remove_spec hd e σ σ' :
  remove hd e σ = Some σ' → {{ rep σ }} __list_del_entry e {{ _, node e ∗ rep σ' }}.
Proof.
  intros (xs & Hxs & ([ys zs] & ->%split_at_spec & [= <-])%bind_Some)%bind_Some.
  triple_start. rewrite rep_focus //. iIntros "[Hc H]".
  wp_call (__list_del_entry_chain hd ys e zs hd) with "Hc". iIntros (_) "[Hc $]". by iApply "H".
Qed.

(** A replaced entry: the new one is in its place. *)
Lemma rep_replace_in hd old new σ σ' :
  replace_in hd old new σ = Some σ' →
  rep σ ⊢ ∃ ys zs, clist hd (ys ++ old :: zs) ∗ (clist hd (ys ++ new :: zs) -∗ rep σ').
Proof.
  intros (xs & Hxs & ([ys zs] & ->%split_at_spec & [= <-])%bind_Some)%bind_Some.
  rewrite rep_focus //. iIntros "[Hc H]". iExists ys, zs. iFrame. iIntros "Hc". by iApply "H".
Qed.

Lemma swap_spec hd1 e1 hd2 e2 σ σ' :
  abs_step (CSwap hd1 e1 hd2 e2) σ = Some σ' → {{ rep σ }} list_swap e1 e2 {{ _, rep σ' }}.
Proof.
  simpl. intros (xs & Hxs & Hs)%bind_Some. triple_start. case_decide as Hd.
  - apply bind_Some in Hs as (ys & Hs & [= <-]). rewrite rep_focus //. iIntros "[Hc H]".
    wp_call (swap_in_spec hd1 e1 e2 xs ys Hs) with "Hc". iIntros (_) "Hc". by iApply "H".
  - apply bind_Some in Hs as ([ys zs] & ->%split_at_spec & (us & Hus & Hs)%bind_Some).
    apply bind_Some in Hs as ([vs ws] & ->%split_at_spec & [= <-]).
    simpl in Hus. rewrite lookup_insert_ne // in Hus.
    rewrite (rep_drop hd1) // (rep_focus hd2 (vs ++ e2 :: ws) (drop_list hd1 σ)); last first.
    { simpl. by rewrite lookup_delete_ne. }
    iIntros "(H1 & H2 & H)".
    wp_call (list_swap_across hd1 ys e1 zs hd1 hd2 vs e2 ws hd2) with "[$H1 $H2]".
    iIntros (_) "[H1 H2]". iDestruct ("H" with "H2") as "H".
    iDestruct (rep_add_list with "H1 H") as "H". unfold set_list, drop_list, rep. simpl.
    rewrite (insert_insert_ne _ hd1 hd2) //. by rewrite insert_delete_eq.
Qed.

Lemma cut_position_spec l hd e σ σ' :
  abs_step (CCutPosition l hd e) σ = Some σ' → {{ rep σ }} list_cut_position l hd e {{ _, rep σ' }}.
Proof.
  simpl. intros (xs & Hxs & Hs)%bind_Some. triple_start. case_decide as He; [subst e; case_decide as Hn|].
  - injection Hs as <-. subst xs. iIntros "H".
    iDestruct (rep_focus_id with "H") as "[Hc H]"; [done|]. unfold list_cut_position.
    wp_call (list_empty_spec hd []) with "Hc". iIntros (b) "[-> Hc]". wp_rets. by iApply "H".
  - apply bind_Some in Hs as (σ1 & Hg & (ys & Hys & [= <-])%bind_Some). rewrite rep_vacate //.
    assert (ys = xs) as ->.
    { unfold vacate in Hg. case_decide; [by simplify_eq/=|]. apply bind_Some in Hg as (zs & Hzs & [= <-]).
      assert (lists (foldr add_loose (drop_list l σ) zs) = delete l (lists σ)) as E.
      { clear. by induction zs. }
      rewrite E in Hys. apply lookup_delete_Some in Hys as [_ ?]. congruence. }
    rewrite (rep_focus_id hd) //. iIntros "(Hl & Hc & H)".
    wp_call (list_cut_position_head l hd xs) with "[$Hl $Hc]". iIntros (_) "[Hl Hc]".
    rewrite (bool_decide_eq_false_2 (xs = [])) //. iApply (rep_add_list with "Hl"). by iApply "H".
  - apply bind_Some in Hs as (σ1 & Hg & (ys & Hys & ([us vs] & ->%split_at_spec & [= <-])%bind_Some)%bind_Some).
    rewrite rep_vacate // (rep_focus hd) //. iIntros "(Hl & Hc & H)".
    wp_call (list_cut_position_entry l hd us e vs) with "[$Hl $Hc]". iIntros (_) "[Hl Hc]".
    iApply (rep_add_list with "Hl"). by iApply "H".
Qed.

Lemma cut_before_spec l hd e σ σ' :
  abs_step (CCutBefore l hd e) σ = Some σ' → {{ rep σ }} list_cut_before l hd e {{ _, rep σ' }}.
Proof.
  simpl. intros (σ1 & Hg & (xs & Hxs & ([us vs] & Hb & [= <-])%bind_Some)%bind_Some)%bind_Some.
  triple_start. rewrite rep_vacate // (rep_focus hd) //. iIntros "(Hl & Hc & H)".
  unfold before in Hb. case_decide as He.
  - injection Hb as <- <-. subst e. wp_call (list_cut_before_head l hd xs) with "[$Hl $Hc]".
    iIntros (_) "[Hl Hc]". iApply (rep_add_list with "Hl"). by iApply "H".
  - apply bind_Some in Hb as ([ys zs] & ->%split_at_spec & [= <- <-]).
    wp_call (list_cut_before_entry l hd ys e zs) with "[$Hl $Hc]".
    iIntros (_) "[Hl Hc]". iApply (rep_add_list with "Hl"). by iApply "H".
Qed.

#[local] Ltac inv_step :=
  repeat match goal with
  | H : (_ ≫= _) = Some _ |- _ => apply bind_Some in H as (? & ? & ?)
  | p : (_ * _)%type |- _ => destruct p
  | H : split_at _ _ = Some _ |- _ => apply split_at_spec in H as ->
  | H : Some _ = Some _ |- _ => injection H as <-
  end.

Lemma wp_cmd (c : M heap unit) Φ : wp c (λ _, Φ None) ⊢ wp (call c) Φ.
Proof. unfold call. iIntros "H". iApply wp_bind. iApply (wp_wand with "H"). iIntros (_) "H". by wp_ret. Qed.

(** A call that is a command of the machine. *)
Lemma triple_cmd (c : M heap unit) (P Q : hPropI) :
  {{ P }} c {{ _, Q }} → {{ P }} call c {{ r, ⌜r = None⌝ ∗ Q }}.
Proof.
  intros Hc. triple_start. iIntros "H". iApply wp_cmd.
  iApply (wp_triple _ _ _ _ Hc with "H"). iIntros (_) "$". done.
Qed.

(** The commands that add: an entry, one of another list, or a list. *)
Lemma exec_add c σ σ' : abs_step c σ = Some σ' →
  match c with
  | CAdd _ _ _ | CAddTail _ _ _ | CMove _ _ _ _ | CMoveTail _ _ _ _ =>
      {{ rep σ }} exec c {{ r, ⌜r = None⌝ ∗ rep σ' }}
  | _ => True
  end.
Proof.
  intros Hs. destruct c; try done; simpl in Hs; apply bind_Some in Hs as (σ1 & H1 & H2);
    apply triple_cmd; triple_start.
  - rewrite rep_take_node //. iIntros "H".
    wp_call (list_add_place new hd place σ1 σ' H2) with "H". by iIntros (_) "[_ $]".
  - rewrite rep_take_node //. iIntros "H".
    wp_call (list_add_tail_place new hd place σ1 σ' H2) with "H". by iIntros (_) "[_ $]".
  - iIntros "H". unfold list_move. wp_call (remove_spec hd e σ σ1 H1) with "H". iIntros (_) "H".
    wp_call (list_add_place e hd' place σ1 σ' H2) with "H". by iIntros (_) "[_ $]".
  - iIntros "H". unfold list_move_tail. wp_call (remove_spec hd e σ σ1 H1) with "H". iIntros (_) "H".
    wp_call (list_add_tail_place e hd' place σ1 σ' H2) with "H". by iIntros (_) "[_ $]".
Qed.

Lemma exec_splice c σ σ' : abs_step c σ = Some σ' →
  match c with
  | CSplice _ _ _ | CSpliceTail _ _ _ | CSpliceInit _ _ _ | CSpliceTailInit _ _ _ =>
      {{ rep σ }} exec c {{ r, ⌜r = None⌝ ∗ rep σ' }}
  | _ => True
  end.
Proof.
  intros Hs. destruct c; try done; simpl in Hs;
    apply bind_Some in Hs as (us & Hus & (σ1 & Ha & [= <-])%bind_Some);
    apply triple_cmd; triple_start; (rewrite (rep_drop l) //; iIntros "H").
  - wp_call (add_behind_spec (list_splice l) us _ _ hd place _ _ (list_splice_chain l us) Ha) with "H".
    iIntros (_) "[Hl H]". iApply (rep_add_loose with "Hl H").
  - wp_call (add_before_spec (list_splice_tail l) us _ _ hd place _ _ (list_splice_tail_chain l us) Ha) with "H".
    iIntros (_) "[Hl H]". iApply (rep_add_loose with "Hl H").
  - wp_call (add_behind_spec (list_splice_init l) us _ _ hd place _ _ (list_splice_init_chain l us) Ha) with "H".
    iIntros (_) "[Hl H]". iApply (rep_add_list with "Hl H").
  - wp_call (add_before_spec (list_splice_tail_init l) us _ _ hd place _ _ (list_splice_tail_init_chain l us) Ha) with "H".
    iIntros (_) "[Hl H]". iApply (rep_add_list with "Hl H").
Qed.

Lemma exec_replace c σ σ' : abs_step c σ = Some σ' →
  match c with
  | CReplace _ _ _ | CReplaceHead _ _ | CReplaceInit _ _ _ | CReplaceInitHead _ _ =>
      {{ rep σ }} exec c {{ r, ⌜r = None⌝ ∗ rep σ' }}
  | _ => True
  end.
Proof.
  intros Hs. destruct c; try done; simpl in Hs; apply bind_Some in Hs as (σ1 & H1 & (x & H2 & [= <-])%bind_Some);
    apply triple_cmd; triple_start; rewrite rep_take_node //.
  - rewrite rep_replace_in //. iIntros "(Hn & %ys & %zs & Hc & H)".
    wp_call (list_replace_chain hd ys old zs hd new) with "[$Hn $Hc]". iIntros (_) "[Hc Hn]".
    iApply (rep_add_loose with "Hn"). by iApply "H".
  - rewrite (rep_drop old) //. iIntros "(Hn & Hc & H)".
    wp_call (list_replace_head old new x) with "[$Hn $Hc]". iIntros (_) "[Hc Hn]".
    iApply (rep_add_loose with "Hn"). iApply (rep_add_list with "Hc H").
  - rewrite rep_replace_in //. iIntros "(Hn & %ys & %zs & Hc & H)".
    wp_call (list_replace_init_chain hd ys old zs hd new) with "[$Hn $Hc]". iIntros (_) "[Hc Hn]".
    iApply (rep_add_list with "Hn"). by iApply "H".
  - rewrite (rep_drop old) //. iIntros "(Hn & Hc & H)".
    wp_call (list_replace_init_head old new x) with "[$Hn $Hc]". iIntros (_) "[Hc Hn]".
    iApply (rep_add_list with "Hn"). iApply (rep_add_list with "Hc H").
Qed.

Lemma exec_ask c σ σ' : abs_step c σ = Some σ' →
  match c with
  | CEmpty _ | CIsFirst _ _ | CIsLast _ _ | CIsSingular _ =>
      {{ rep σ }} exec c {{ r, ⌜r = abs_answer c σ⌝ ∗ rep σ' }}
  | _ => True
  end.
Proof.
  intros Hs. destruct c; try done; simpl in Hs;
    apply bind_Some in Hs as (xs & Hxs & Hs); unfold exec, ask, abs_answer; rewrite Hxs.
  - injection Hs as <-. triple_start. iIntros "H".
    iDestruct (rep_focus_id with "H") as "[Hc H]"; [done|].
    wp_call (list_empty_spec hd xs) with "Hc". iIntros (b) "[-> Hc]". wp_ret.
    iSplit; [done|]. by iApply "H".
  - apply bind_Some in Hs as ([ys zs] & E & [= <-]). simpl. rewrite E. apply split_at_spec in E as ->.
    triple_start. iIntros "H".
    iDestruct (rep_focus_id with "H") as "[Hc H]"; [done|].
    wp_call (list_is_first_spec hd ys e zs) with "Hc". iIntros (b) "[-> Hc]". wp_ret.
    iSplit; [done|]. by iApply "H".
  - apply bind_Some in Hs as ([ys zs] & E & [= <-]). simpl. rewrite E. apply split_at_spec in E as ->.
    triple_start. iIntros "H".
    iDestruct (rep_focus_id with "H") as "[Hc H]"; [done|].
    wp_call (list_is_last_spec hd ys e zs) with "Hc". iIntros (b) "[-> Hc]". wp_ret.
    iSplit; [done|]. by iApply "H".
  - injection Hs as <-. triple_start. iIntros "H".
    iDestruct (rep_focus_id with "H") as "[Hc H]"; [done|].
    wp_call (list_is_singular_spec hd xs) with "Hc". iIntros (b) "[-> Hc]". wp_ret.
    iSplit; [done|]. by iApply "H".
Qed.

Lemma exec_step c σ σ' :
  abs_step c σ = Some σ' → {{ rep σ }} exec c {{ r, ⌜r = abs_answer c σ⌝ ∗ rep σ' }}.
Proof.
  intros Hs. pose proof (exec_add c σ σ' Hs). pose proof (exec_splice c σ σ' Hs).
  pose proof (exec_replace c σ σ' Hs). pose proof (exec_ask c σ σ' Hs).
  destruct c; try done; apply triple_cmd.
  - simpl in Hs. inv_step. triple_start. rewrite rep_vacate //. iIntros "[Hl H]".
    wp_call (INIT_LIST_HEAD_spec l) with "Hl". iIntros (_) "Hl".
    iApply (rep_add_list with "Hl H").
  - simpl in Hs. unfold remove in Hs. inv_step. triple_start. rewrite rep_focus //. iIntros "[Hc H]".
    wp_call (list_del_chain hd _ e _ hd) with "Hc". iIntros (_) "(Hc & Hn & Hp)".
    iApply (rep_add_loose with "[Hn Hp]"); [iApply (node_intro with "Hn Hp")|by iApply "H"].
  - simpl in Hs. unfold remove in Hs. inv_step. triple_start. rewrite rep_focus //. iIntros "[Hc H]".
    wp_call (list_del_init_chain hd _ e _ hd) with "Hc". iIntros (_) "(Hc & He)".
    iApply (rep_add_list with "He"). by iApply "H".
  - by apply (swap_spec hd1 e1 hd2 e2).
  - simpl in Hs. apply bind_Some in Hs as (xs & Hxs & ([ys zs] & ->%split_at_spec & Hs)%bind_Some).
    apply bind_Some in Hs as ([us vs] & [-> ->]%behind_spec & [= <-]).
    triple_start. rewrite rep_focus //. iIntros "[Hc H]".
    wp_call (list_bulk_move_tail_spec hd ys first us vs) with "Hc". iIntros (_) "Hc". by iApply "H".
  - simpl in Hs. inv_step. triple_start. rewrite rep_focus //. iIntros "[Hc H]".
    wp_call (list_rotate_left_spec hd _) with "Hc". iIntros (_) "Hc". by iApply "H".
  - simpl in Hs. inv_step. triple_start. rewrite rep_focus //. iIntros "[Hc H]".
    wp_call (list_rotate_to_front_spec hd _ e _) with "Hc". iIntros (_) "Hc". by iApply "H".
  - by apply cut_position_spec.
  - by apply cut_before_spec.
Qed.

Lemma exec_script_step cs σ rs σ' :
  abs_script cs σ = Some (rs, σ') → {{ rep σ }} exec_script cs {{ v, ⌜v = rs⌝ ∗ rep σ' }}.
Proof.
  revert σ rs. induction cs as [|c cs IH]; intros σ rs; simpl.
  - intros [= <- <-]. triple_start. iIntros "H". wp_ret. by iFrame.
  - intros (σ1 & Hc & ([rs1 σ2] & Hcs & [= <- <-])%bind_Some)%bind_Some. triple_start. iIntros "H".
    wp_call (exec_step c σ σ1 Hc) with "H". iIntros (r) "[-> H]".
    wp_call (IH σ1 rs1 Hcs) with "H". iIntros (v) "[-> H]". wp_ret. by iFrame.
Qed.

(** C1. The list API implements sequences: for every script of calls on heads of
    lists, entries on them and free nodes, the heap that represents a collection
    of sequences (and any unrelated memory) is turned into the heap that
    represents the collection the abstract machine computes, with the answers
    it computes and without undefined behaviour.  Entries can be added at the
    head or at any entry of a list, also again after [list_del] or
    [list_del_init]; the entry at which a list is cut can be its head, and the
    list that takes the entries any head, whose own entries are given up. *)
Theorem list_api_refines_sequences cs σ rs σ' :
  abs_script cs σ = Some (rs, σ') → {{ rep σ }} exec_script cs {{ v, ⌜v = rs⌝ ∗ rep σ' }}.
Proof. apply exec_script_step. Qed.

Lemma list_api_refines_sequences_witness :
  let σ := LState ∅ {[ 64; 96; 128; 160; 192 ]} in
  let cs := [CInit 64; CInit 96; CAdd 128 64 64; CAddTail 160 64 64; CSwap 64 128 64 160;
             CMove 64 128 96 96; CAdd 192 64 160; CDelInit 64 160; CEmpty 160; CAdd 160 96 128;
             CSpliceTailInit 64 96 160; CRotateToFront 96 192; CCutPosition 64 96 96;
             CCutBefore 64 96 96; CIsSingular 96; CIsFirst 64 192] in
  {{ rep σ }} exec_script cs
  {{ v, ⌜v = replicate 8 None ++ [Some true] ++ replicate 5 None ++ [Some false; Some true]⌝ ∗
        rep (LState {[ 64 := [192; 160; 128]; 96 := [] ]} ∅) }}.
Proof. apply list_api_refines_sequences. vm_compute. reflexivity. Defined.

End ListMachine.
