(* ===== verification/LinuxHlist.v ===== *)
(** * Linux hash-chain lists (src/linux/no_proofs/list.c, the [hlist] half)

    A [struct hlist_head] at [h] has its [first] pointer in the cell [h]; a
    [struct hlist_node] at [n] has [next] in the cell [n] and [pprev] in
    [n + 8].  [pprev] is the address of the pointer that points to the node,
    be it the [first] of a head or the [next] of another node, so that
    deletion needs no head. *)
From S2P Require Import Prelude HeapLogic LinuxList.
From stdpp Require Import gmap list.
From iris.proofmode Require Import proofmode.
#[local] Open Scope Z_scope.

Module Hlist.

(** ** The code *)

Definition first (h : Z) : Z := h.
Definition hnext (n : Z) : Z := n.
Definition pprev (n : Z) : Z := n + 8.

Definition HLIST_HEAD_INIT : Z := NULL.
Definition HLIST_HEAD (name : Z) : M heap unit := store (first name) HLIST_HEAD_INIT.
Definition INIT_HLIST_HEAD (ptr : Z) : M heap unit := store (first ptr) NULL.

Definition INIT_HLIST_NODE (h : Z) : M heap unit :=
  store (hnext h) NULL ;;
  store (pprev h) NULL.

Definition hlist_unhashed (h : Z) : M heap bool :=
  p ← load (pprev h); mret (p =? NULL).

Definition hlist_unhashed_lockless (h : Z) : M heap bool :=
  p ← load (pprev h); mret (p =? NULL).

Definition hlist_empty (h : Z) : M heap bool :=
  f ← load (first h); mret (f =? NULL).

Definition __hlist_del (n : Z) : M heap unit :=
  next ← load (hnext n);
  pprev_ ← load (pprev n);
  store pprev_ next ;;
  if negb (next =? NULL) then store (pprev next) pprev_ else mret tt.

Definition hlist_del (n : Z) : M heap unit :=
  __hlist_del n ;;
  store (hnext n) ListHead.LIST_POISON1 ;;
  store (pprev n) ListHead.LIST_POISON2.

Definition hlist_del_init (n : Z) : M heap unit :=
  u ← hlist_unhashed n;
  if negb u then
    __hlist_del n ;;
    INIT_HLIST_NODE n
  else mret tt.

Definition hlist_add_head (n h : Z) : M heap unit :=
  first_ ← load (first h);
  store (hnext n) first_ ;;
  (if negb (first_ =? NULL) then store (pprev first_) (hnext n) else mret tt) ;;
  store (first h) n ;;
  store (pprev n) (first h).

Definition hlist_add_before (n next : Z) : M heap unit :=
  np ← load (pprev next);
  store (pprev n) np ;;
  store (hnext n) next ;;
  store (pprev next) (hnext n) ;;
  p ← load (pprev n);
  store p n.

Definition hlist_add_behind (n prev : Z) : M heap unit :=
  pn ← load (hnext prev);
  store (hnext n) pn ;;
  store (hnext prev) n ;;
  store (pprev n) (hnext prev) ;;
  nn ← load (hnext n);
  if negb (nn =? NULL) then
    nn ← load (hnext n);
    store (pprev nn) (hnext n)
  else mret tt.

Definition hlist_add_fake (n : Z) : M heap unit := store (pprev n) (hnext n).

Definition hlist_fake (h : Z) : M heap bool :=
  p ← load (pprev h); mret (p =? hnext h).

Definition hlist_is_singular_node (n h : Z) : M heap bool :=
  nn ← load (hnext n);
  if nn =? NULL then
    p ← load (pprev n); mret (p =? first h)
  else mret false.

Definition hlist_move_list (old new : Z) : M heap unit :=
  f ← load (first old);
  store (first new) f ;;
  nf ← load (first new);
  (if negb (nf =? NULL) then
     nf ← load (first new);
     store (pprev nf) (first new)
   else mret tt) ;;
  store (first old) NULL.

(** *** Entries and iteration *)

Definition hlist_entry (ptr off : Z) : Z := ptr - off.

Definition hlist_entry_safe (ptr off : Z) : Z :=
  if negb (ptr =? NULL) then hlist_entry ptr off else NULL.

(** [for (; pos && ({ n = next(pos); 1; }); pos = conv(n)) body(pos)] *)
Fixpoint hloop_safe (fuel : nat) (nxt : Z → M heap Z) (conv : Z → Z)
    (body : Z → M heap unit) (pos : Z) : M heap unit :=
  match fuel with
  | O => fail OutOfFuel
  | S fuel =>
      if pos =? NULL then mret tt else
      n ← nxt pos;
      body pos ;;
      hloop_safe fuel nxt conv body (conv n)
  end.

Definition hlist_for_each (fuel : nat) (body : Z → M heap unit) (head : Z) : M heap Z :=
  pos ← load (first head);
  ListHead.for_loop fuel (λ pos, negb (pos =? NULL)) (λ pos, load (hnext pos)) body pos.

Definition hlist_for_each_safe (fuel : nat) (body : Z → M heap unit) (head : Z) : M heap unit :=
  pos ← load (first head);
  hloop_safe fuel (λ pos, load (hnext pos)) id body pos.

Definition hlist_next_entry (off pos : Z) : M heap Z :=
  n ← load (hnext (pos + off)); mret (hlist_entry_safe n off).

Definition hlist_for_each_entry (fuel : nat) (body : Z → M heap unit)
    (head off : Z) : M heap Z :=
  f ← load (first head);
  ListHead.for_loop fuel (λ pos, negb (pos =? NULL)) (hlist_next_entry off) body
    (hlist_entry_safe f off).

Definition hlist_for_each_entry_continue (fuel : nat) (body : Z → M heap unit)
    (pos off : Z) : M heap Z :=
  pos ← hlist_next_entry off pos;
  ListHead.for_loop fuel (λ pos, negb (pos =? NULL)) (hlist_next_entry off) body pos.

Definition hlist_for_each_entry_from (fuel : nat) (body : Z → M heap unit)
    (pos off : Z) : M heap Z :=
  ListHead.for_loop fuel (λ pos, negb (pos =? NULL)) (hlist_next_entry off) body pos.

Definition hlist_for_each_entry_safe (fuel : nat) (body : Z → M heap unit)
    (head off : Z) : M heap unit :=
  f ← load (first head);
  hloop_safe fuel (λ pos, load (hnext (pos + off))) (λ n, hlist_entry_safe n off) body
    (hlist_entry_safe f off).

(** ** The abstract view *)

(** From the pointer in cell [c]: the nodes [xs], up to the null pointer. *)
Fixpoint hls (c : Z) (xs : list Z) : hProp :=
  match xs with
  | [] => (c ↦ NULL)%I
  | x :: xs => (c ↦ x ∗ pprev x ↦ c ∗ hls (hnext x) xs)%I
  end.

(** The same nodes, without the pointer that follows the last of them. *)
Fixpoint hseg (c : Z) (xs : list Z) : hProp :=
  match xs with
  | [] => emp%I
  | x :: xs => (c ↦ x ∗ pprev x ↦ c ∗ hseg (hnext x) xs)%I
  end.

(** The cell of the pointer behind [xs]. *)
Definition tail_cell (c : Z) (xs : list Z) : Z := from_option hnext c (last xs).

Definition hlist (h : Z) (xs : list Z) : hProp := hls (first h) xs.
Definition hnode (n : Z) : hProp := (hnext n ↦? ∗ pprev n ↦?)%I.

Arguments first : simpl never.
Arguments hnext : simpl never.
Arguments pprev : simpl never.

Lemma tail_cell_cons c x xs : tail_cell c (x :: xs) = tail_cell (hnext x) xs.
Proof. unfold tail_cell. rewrite last_cons. by destruct (last xs). Qed.

Lemma hls_app c xs ys : hls c (xs ++ ys) ⊣⊢ hseg c xs ∗ hls (tail_cell c xs) ys.
Proof.
  revert c. induction xs as [|x xs IH]; intros c; simpl; [by rewrite left_id|].
  by rewrite IH tail_cell_cons -!assoc.
Qed.

(** The first pointer of a chain, and how to replace what it leads to. *)
Lemma hls_head c xs :
  hls c xs ⊣⊢ c ↦ (default NULL (head xs)) ∗
    match xs with [] => emp | x :: xs => pprev x ↦ c ∗ hls (hnext x) xs end.
Proof. destruct xs; simpl; [by rewrite right_id|done]. Qed.

Lemma hls_not_null c x xs : hls c (x :: xs) ⊢ ⌜x ≠ NULL⌝.
Proof.
  simpl. iIntros "(_ & _ & H)". rewrite hls_head. iDestruct "H" as "[H _]".
  iDestruct (pointsto_not_null with "H") as %?. iPureIntro. done.
Qed.

Lemma hnode_intro n v w : hnext n ↦ v -∗ pprev n ↦ w -∗ hnode n.
Proof. iIntros "H1 H2". iSplitL "H1"; by iExists _. Qed.

(** ** Operations *)

Lemma __hlist_del_spec c x xs :
  {{ hls c (x :: xs) }} __hlist_del x {{ _, hls c xs ∗ hnode x }}.
Proof.
  triple_start. iIntros "(Hc & Hp & H)". unfold __hlist_del. destruct xs as [|y xs].
  - simpl. wp_steps. iFrame.
  - iDestruct (hls_not_null with "H") as %Hy. simpl. iDestruct "H" as "(Hx & Hyp & H)".
    wp_load. wp_load. wp_store. rewrite (proj2 (Z.eqb_neq y NULL)) //=. wp_store. iFrame.
Qed.

Lemma __hlist_del_at h xs x ys :
  {{ hlist h (xs ++ x :: ys) }} __hlist_del x {{ _, hlist h (xs ++ ys) ∗ hnode x }}.
Proof.
  triple_start. unfold hlist. rewrite hls_app. iIntros "[Hs H]".
  wp_call (__hlist_del_spec _ x ys) with "H". iIntros (_) "[H $]". rewrite hls_app. iFrame.
Qed.

Lemma hlist_del_at h xs x ys :
  {{ hlist h (xs ++ x :: ys) }} hlist_del x
  {{ _, hlist h (xs ++ ys) ∗ hnext x ↦ ListHead.LIST_POISON1 ∗ pprev x ↦ ListHead.LIST_POISON2 }}.
Proof.
  triple_start. iIntros "H". unfold hlist_del. wp_call (__hlist_del_at h xs x ys) with "H".
  iIntros (_) "(H & [%v Hn] & [%w Hp])". wp_steps. iFrame.
Qed.

Lemma pprev_not_null h xs x ys :
  hlist h (xs ++ x :: ys) ⊢ ∃ c, ⌜c ≠ NULL⌝ ∗ pprev x ↦ c ∗ (pprev x ↦ c -∗ hlist h (xs ++ x :: ys)).
Proof.
  unfold hlist. iIntros "H". iDestruct (hls_app with "H") as "(Hs & Hc & Hp & H)".
  iDestruct (pointsto_not_null with "Hc") as %?. iExists _. iFrame "Hp". iSplit; [done|].
  iIntros "Hp". iApply hls_app. iFrame.
Qed.

Lemma hlist_del_init_at h xs x ys :
  {{ hlist h (xs ++ x :: ys) }} hlist_del_init x
  {{ _, hlist h (xs ++ ys) ∗ hnext x ↦ NULL ∗ pprev x ↦ NULL }}.
Proof.
  triple_start. iIntros "H". iDestruct (pprev_not_null with "H") as (c) "(% & Hp & H)".
  unfold hlist_del_init, hlist_unhashed. wp_load.
  rewrite (proj2 (Z.eqb_neq c NULL)) //=. iDestruct ("H" with "Hp") as "H".
  wp_call (__hlist_del_at h xs x ys) with "H". iIntros (_) "(H & [%v Hn] & [%w Hp])".
  unfold INIT_HLIST_NODE. wp_steps. iFrame.
Qed.

(** Deleting an unhashed node does nothing. *)
Lemma hlist_del_init_unhashed x v :
  {{ hnext x ↦o v ∗ pprev x ↦ NULL }} hlist_del_init x {{ _, hnext x ↦o v ∗ pprev x ↦ NULL }}.
Proof.
  triple_start. iIntros "[Hn Hp]". unfold hlist_del_init, hlist_unhashed. wp_load. wp_rets. iFrame.
Qed.

Lemma hlist_add_head_spec n h xs :
  {{ hnode n ∗ hlist h xs }} hlist_add_head n h {{ _, hlist h (n :: xs) }}.
Proof.
  triple_start. iIntros "[[[%v Hn] [%w Hp]] H]". unfold hlist, hlist_add_head.
  destruct xs as [|x xs].
  - simpl. wp_load. wp_store. wp_rets. wp_steps. iFrame.
  - iDestruct (hls_not_null with "H") as %Hx. simpl. iDestruct "H" as "(Hf & Hxp & H)".
    wp_load. wp_store. rewrite (proj2 (Z.eqb_neq x NULL)) //=. wp_steps. iFrame.
Qed.

Lemma hlist_add_before_at n h xs x ys :
  {{ hnode n ∗ hlist h (xs ++ x :: ys) }} hlist_add_before n x {{ _, hlist h (xs ++ n :: x :: ys) }}.
Proof.
  triple_start. iIntros "[[[%v Hn] [%w Hp]] H]". unfold hlist, hlist_add_before.
  rewrite hls_app /=. iDestruct "H" as "(Hs & Hc & Hxp & H)". wp_steps.
  rewrite hls_app /=. iFrame.
Qed.

Lemma hlist_add_behind_at n h xs x ys :
  {{ hnode n ∗ hlist h (xs ++ x :: ys) }} hlist_add_behind n x {{ _, hlist h (xs ++ x :: n :: ys) }}.
Proof.
  triple_start. iIntros "[[[%v Hn] [%w Hp]] H]". unfold hlist, hlist_add_behind.
  rewrite hls_app /=. iDestruct "H" as "(Hs & Hc & Hxp & H)". destruct ys as [|y ys].
  - simpl. wp_steps. rewrite hls_app /=. iFrame.
  - iDestruct (hls_not_null with "H") as %Hy. simpl. iDestruct "H" as "(Hx & Hyp & H)".
    wp_load. wp_store. wp_store. wp_store. wp_load.
    rewrite (proj2 (Z.eqb_neq y NULL)) //=. wp_steps. rewrite hls_app /=. iFrame.
Qed.

Lemma hlist_move_list_spec old new xs :
  {{ hlist old xs ∗ first new ↦? }} hlist_move_list old new {{ _, hlist new xs ∗ hlist old [] }}.
Proof.
  triple_start. iIntros "[H [%v Hn]]". unfold hlist, hlist_move_list. destruct xs as [|x xs].
  - simpl. wp_load. wp_store. wp_load. wp_rets. wp_steps. iFrame.
  - iDestruct (hls_not_null with "H") as %Hx. simpl. iDestruct "H" as "(Hf & Hxp & H)".
    wp_load. wp_store. wp_load. rewrite (proj2 (Z.eqb_neq x NULL)) //=. wp_steps. iFrame.
Qed.

Lemma hlist_empty_spec h xs :
  {{ hlist h xs }} hlist_empty h {{ b, ⌜b = bool_decide (xs = [])⌝ ∗ hlist h xs }}.
Proof.
  triple_start. iIntros "H". unfold hlist, hlist_empty. destruct xs as [|x xs].
  - simpl. wp_load. by iFrame.
  - iDestruct (hls_not_null with "H") as %Hx. simpl. iDestruct "H" as "(Hf & Hxp & H)".
    wp_load. rewrite (proj2 (Z.eqb_neq x NULL)) //. by iFrame.
Qed.

Lemma hlist_is_singular_node_spec h xs n ys :
  {{ hlist h (xs ++ n :: ys) }} hlist_is_singular_node n h
  {{ b, ⌜b = bool_decide (xs = [] ∧ ys = [])⌝ ∗ hlist h (xs ++ n :: ys) }}.
Proof.
  triple_start. iIntros "H". unfold hlist, hlist_is_singular_node.
  iDestruct (hls_app with "H") as "[Hs H]". iDestruct "H" as "(Hc & Hp & H)".
  iAssert ⌜(tail_cell (first h) xs =? first h) = bool_decide (xs = [])⌝%I as %Hcell.
  { destruct xs as [|x xs]; simpl; [iPureIntro; apply Z.eqb_refl|].
    iDestruct "Hs" as "[Hf _]". iDestruct (pointsto_ne with "Hc Hf") as %?.
    iPureIntro. by apply Z.eqb_neq. }
  destruct ys as [|y ys].
  - simpl. wp_steps. iSplit; [|iApply hls_app; iFrame]. iPureIntro. rewrite Hcell.
    apply bool_decide_ext. naive_solver.
  - iDestruct (hls_not_null with "H") as %Hy. simpl. iDestruct "H" as "(Hn & Hyp & H)".
    wp_load. rewrite (proj2 (Z.eqb_neq y NULL)) //. wp_ret.
    iSplit; [|iApply hls_app; iFrame]. iPureIntro. rewrite bool_decide_false //. naive_solver.
Qed.

(** ** Iteration *)

Lemma load_hnext h xs x ys :
  {{ hlist h (xs ++ x :: ys) }} load (hnext x)
  {{ v, ⌜v = default NULL (head ys)⌝ ∗ hlist h (xs ++ x :: ys) }}.
Proof.
  triple_start. iIntros "H". unfold hlist. iDestruct (hls_app with "H") as "(Hs & Hc & Hp & H)".
  iDestruct (hls_head with "H") as "[Hn H]". wp_load. iSplit; [done|].
  iApply hls_app. iFrame. iApply hls_head. iFrame.
Qed.

Lemma load_first h xs :
  {{ hlist h xs }} load (first h) {{ v, ⌜v = default NULL (head xs)⌝ ∗ hlist h xs }}.
Proof.
  triple_start. iIntros "H". unfold hlist. iDestruct (hls_head with "H") as "[Hn H]". wp_load.
  iSplit; [done|]. iApply hls_head. iFrame.
Qed.

Lemma hlist_nodes_not_null h xs : hlist h xs ⊢ ⌜Forall (λ x, x ≠ NULL) xs⌝.
Proof.
  unfold hlist. generalize (first h). induction xs as [|x xs IH]; intros c.
  { iIntros "_". iPureIntro. constructor. }
  iIntros "H". iDestruct (hls_not_null with "H") as %Hx. simpl. iDestruct "H" as "(_ & _ & H)".
  rewrite IH. iDestruct "H" as %?. iPureIntro. by constructor.
Qed.

(** The cursor of an entry is a null pointer only at the end, provided no
    container is at address zero. *)
Lemma entry_safe_head off (xs : list Z) :
  Forall (λ x, x ≠ NULL) xs →
  hlist_entry_safe (default NULL (head xs)) off = from_option (λ x, x - off) NULL (head xs).
Proof.
  intros H. destruct xs as [|x xs]; [done|]. apply Forall_cons in H as [Hx _]. simpl.
  unfold hlist_entry_safe. by rewrite (proj2 (Z.eqb_neq x NULL)).
Qed.

Lemma hloop_safe_spec h off xs (I : list Z → list Z → hProp) (body : Z → M heap unit) :
  Forall (λ x, x ≠ off) xs → Forall (λ x, x ≠ NULL) xs →
  (∀ pre kept x post, xs = pre ++ x :: post →
     {{ hlist h (kept ++ x :: post) ∗ I pre kept }} body (x - off)
     {{ _, ∃ kept', hlist h (kept' ++ post) ∗ I (pre ++ [x]) kept' }}) →
  ∀ todo seen kept fuel, xs = seen ++ todo → (length todo < fuel)%nat →
  {{ hlist h (kept ++ todo) ∗ I seen kept }}
    hloop_safe fuel (λ pos, load (hnext (pos + off))) (λ n, hlist_entry_safe n off) body
      (hlist_entry_safe (default NULL (head todo)) off)
  {{ _, ∃ kept', hlist h kept' ∗ I xs kept' }}.
Proof.
  intros Hoff Hnn Hbody. induction todo as [|x todo IH];
    intros seen kept [|fuel] Hxs Hf; simpl in Hf; try lia; triple_start.
  - rewrite app_nil_r in Hxs. subst seen. rewrite app_nil_r. iIntros "[H HI]". simpl.
    wp_ret. iExists kept. iFrame.
  - assert (Forall (λ x, x ≠ NULL) (x :: todo)) as Htodo.
    { subst xs. by apply Forall_app in Hnn as [_ ?]. }
    assert (x ≠ off) as Hx.
    { subst xs. apply Forall_app in Hoff as [_ Hoff]. by apply Forall_cons in Hoff as [??]. }
    rewrite entry_safe_head //. iIntros "[H HI]". simpl.
    rewrite (proj2 (Z.eqb_neq (x - off) NULL)); [|unfold NULL; lia]. rewrite Z.sub_add.
    wp_call (load_hnext h kept x todo) with "H". iIntros (v) "[-> H]".
    wp_call (Hbody seen kept x todo Hxs) with "[$H $HI]". iIntros (_) "(%kept' & H & HI)".
    iApply (IH (seen ++ [x]) kept' fuel with "[$H $HI]"); [by rewrite -app_assoc|lia].
Qed.

(** ** Correctness *)

(** The [hlist] operations implement sequences: insertion at the head,
    before and behind a node, deletion of a node from any position (knowing
    only the node), and moving a whole chain to another head, each keeping the
    back pointers consistent; [hlist_del_init] leaves an unhashed node. *)
Theorem hlist_operations_on_sequences h n xs x ys new :
  ({{ hnode n ∗ hlist h xs }} hlist_add_head n h {{ _, hlist h (n :: xs) }}) ∧
  ({{ hnode n ∗ hlist h (xs ++ x :: ys) }} hlist_add_before n x
   {{ _, hlist h (xs ++ n :: x :: ys) }}) ∧
  ({{ hnode n ∗ hlist h (xs ++ x :: ys) }} hlist_add_behind n x
   {{ _, hlist h (xs ++ x :: n :: ys) }}) ∧
  ({{ hlist h (xs ++ x :: ys) }} hlist_del x
   {{ _, hlist h (xs ++ ys) ∗ hnext x ↦ ListHead.LIST_POISON1 ∗
         pprev x ↦ ListHead.LIST_POISON2 }}) ∧
  ({{ hlist h (xs ++ x :: ys) }} hlist_del_init x
   {{ _, hlist h (xs ++ ys) ∗ hnext x ↦ NULL ∗ pprev x ↦ NULL }}) ∧
  ({{ hlist h xs ∗ first new ↦? }} hlist_move_list h new
   {{ _, hlist new xs ∗ hlist h [] }}) ∧
  ({{ hlist h (xs ++ x :: ys) }} hlist_is_singular_node x h
   {{ b, ⌜b = bool_decide (xs = [] ∧ ys = [])⌝ ∗ hlist h (xs ++ x :: ys) }}).
Proof.
  split_and!; auto using hlist_add_head_spec, hlist_add_before_at, hlist_add_behind_at,
    hlist_del_at, hlist_del_init_at, hlist_move_list_spec, hlist_is_singular_node_spec.
Qed.

(** [hlist_for_each_entry_safe] visits the container of every node of the
    chain once, in order, even when its body unlinks the node it is given, and
    it terminates. *)
Theorem hlist_for_each_entry_safe_visits_all fuel h off xs (I : list Z → list Z → hProp) body :
  (length xs < fuel)%nat → Forall (λ x, x ≠ off) xs →
  (∀ pre kept x post, xs = pre ++ x :: post →
     {{ hlist h (kept ++ x :: post) ∗ I pre kept }} body (x - off)
     {{ _, ∃ kept', hlist h (kept' ++ post) ∗ I (pre ++ [x]) kept' }}) →
  {{ hlist h xs ∗ I [] [] }} hlist_for_each_entry_safe fuel body h off
  {{ _, ∃ kept, hlist h kept ∗ I xs kept }}.
Proof.
  intros Hf Hoff Hb. triple_start. iIntros "[H HI]".
  iDestruct (hlist_nodes_not_null with "H") as %Hnn. unfold hlist_for_each_entry_safe.
  wp_call (load_first h xs) with "H". iIntros (v) "[-> H]".
  iApply (hloop_safe_spec h off xs I body Hoff Hnn Hb xs [] [] fuel with "[$H $HI]"); done.
Qed.

Lemma hlist_for_each_entry_safe_visits_all_witness :
  {{ hlist 64 [96; 32; 160] ∗ ⌜([] : list Z) = []⌝ }}
    hlist_for_each_entry_safe 4 (λ pos, hlist_del (pos + 16)) 64 16
  {{ _, ∃ kept, hlist 64 kept ∗ ⌜kept = []⌝ }}.
Proof.
  apply (hlist_for_each_entry_safe_visits_all 4 64 16 [96; 32; 160]
    (λ _ kept, ⌜kept = []⌝)%I (λ pos, hlist_del (pos + 16))).
  - simpl. lia.
  - repeat constructor; lia.
  - intros pre kept x post _. rewrite Z.sub_add. triple_start. iIntros "[H ->]".
    wp_call (hlist_del_at 64 [] x post) with "H". iIntros (_) "[H _]". iExists []. by iFrame.
Defined.

End Hlist.
