(* ===== verification/SpinLock.v ===== *)
(** * Spinlocks (src/examples/spinlock.c)

    Two views of the same code.  As heap programs run by one thread, the
    functions are what the lock-protected components ([Mpool], [PageAlloc])
    call; a [sl_lock] on a lock that is already taken never returns, because
    no other thread is there to release it.  As a step relation over any
    number of threads, interleaved at every atomic access, they provide mutual
    exclusion, and threads that take their locks in order, as [sl_lock_both]
    does, do not deadlock. *)
From S2P Require Import Prelude HeapLogic.
From stdpp Require Import gmap list relations functions.
From iris.proofmode Require Import proofmode.
#[local] Open Scope Z_scope.

Module SpinLock.

(** ** One thread *)

(** [atomic_compare_exchange_strong(obj, &expected, desired)]: the result and
    the new value of [expected]. *)
Definition atomic_compare_exchange_strong (obj expected desired : Z) : M heap (bool * Z) :=
  v ← load obj;
  if v =? expected then store obj desired ;; mret (true, expected)
  else mret (false, v).

Definition sl_init (lock : Z) : M heap unit := store lock 0.

(** One more turn of the [while] loop would run in the same memory. *)
Definition sl_lock (lock : Z) : M heap unit :=
  '(b, _) ← atomic_compare_exchange_strong lock 0 1;
  if (b : bool) then mret tt else fail NonTermination.

Definition sl_unlock (lock : Z) : M heap unit := store lock 0.

Definition sl_lock_both (a b : Z) : M heap unit :=
  if a <? b then sl_lock a ;; sl_lock b else sl_lock b ;; sl_lock a.

Definition sl_lock_both_same_prov (a b : Z) : M heap unit :=
  if a <? b then sl_lock a ;; sl_lock b else sl_lock b ;; sl_lock a.

Lemma sl_init_spec l : {{ l ↦? }} sl_init l {{ _, l ↦ 0 }}.
Proof. triple_start. iIntros "[%v H]". unfold sl_init. wp_steps. iFrame. Qed.

Lemma sl_lock_spec l : {{ l ↦ 0 }} sl_lock l {{ _, l ↦ 1 }}.
Proof.
  triple_start. iIntros "H". unfold sl_lock, atomic_compare_exchange_strong. wp_steps. iFrame.
Qed.

Lemma sl_unlock_spec l : {{ l ↦ 1 }} sl_unlock l {{ _, l ↦ 0 }}.
Proof. triple_start. iIntros "H". unfold sl_unlock. wp_steps. iFrame. Qed.

Lemma sl_lock_held (h : heap) l :
  l ≠ NULL → h !! l = Some (Some 1) → sl_lock l h = Err NonTermination.
Proof.
  intros Hl Hh.
  unfold sl_lock, atomic_compare_exchange_strong, load, mbind, M_bind. simpl.
  rewrite decide_False // Hh. done.
Qed.

(** ** Many threads

    Any number of threads run scripts of calls, interleaved at every atomic
    access and every assignment to [expected]. *)

(** Where a call of [sl_lock] is, with its local variable. *)
Inductive lock_pc :=
  | LockEnter                (** before [bool expected = 0;] *)
  | LockCas (expected : Z)   (** at the condition of the loop *)
  | LockBody (expected : Z)  (** at the body of the loop *)
  | LockDone.

(** One step of [sl_lock] on the value of the lock.  The compare-and-exchange
    that fails writes the value it found to [expected]. *)
Definition sl_lock_step (lock : Z) (p : lock_pc) : Z * lock_pc :=
  match p with
  | LockEnter => let expected := 0 in (lock, LockCas expected)
  | LockCas expected => if lock =? expected then (1, LockDone) else (lock, LockBody lock)
  | LockBody expected => let expected := 0 in (lock, LockCas expected)
  | LockDone => (lock, LockDone)
  end.

(** A call that is to be made or under way. *)
Inductive call :=
  | SlLock (l : Z) (p : lock_pc)
  | SlUnlock (l : Z)
  | SlLockBoth (a b : Z)
  | SlLockBothSameProv (a b : Z).

(** The calls of [sl_lock] that the two functions on pairs make. *)
Definition lock_both (a b : Z) : list call :=
  if a <? b then [SlLock a LockEnter; SlLock b LockEnter]
  else [SlLock b LockEnter; SlLock a LockEnter].

(** The values of the locks. *)
Definition mem := Z → Z.
(** A thread with its calls; [own] are the locks for which [sl_lock] has
    returned and [sl_unlock] has not been called. *)
Record thread := Thread { own : gset Z; calls : list call }.
Record world := World { locks : mem; threads : list thread }.

Definition thread_step (m : mem) (t : thread) : option (mem * thread) :=
  match calls t with
  | [] => None
  | SlLock l p :: k =>
      let '(v, p) := sl_lock_step (m l) p in
      Some (<[l := v]> m,
            match p with
            | LockDone => Thread ({[l]} ∪ own t) k
            | _ => Thread (own t) (SlLock l p :: k)
            end)
  | SlUnlock l :: k => Some (<[l := 0]> m, Thread (own t ∖ {[l]}) k)
  | SlLockBoth a b :: k => Some (m, Thread (own t) (lock_both a b ++ k))
  | SlLockBothSameProv a b :: k => Some (m, Thread (own t) (lock_both a b ++ k))
  end.

Inductive step : world → world → Prop :=
  | Step m m' ts i t t' :
      ts !! i = Some t → thread_step m t = Some (m', t') →
      step (World m ts) (World m' (<[i := t']> ts)).

(** All locks are free, and the threads are about to make their first calls. *)
Definition initial (scripts : list (list call)) : world :=
  World (λ _, 0) (Thread ∅ <$> scripts).

(** A call of a script has not begun. *)
Definition fresh (c : call) : Prop :=
  match c with SlLock _ p => p = LockEnter | _ => True end.

(** A script with calls of [sl_unlock] only on locks that the thread has. *)
Fixpoint releases_own (own : gset Z) (k : list call) : Prop :=
  match k with
  | [] => True
  | SlLock l _ :: k => releases_own ({[l]} ∪ own) k
  | SlUnlock l :: k => l ∈ own ∧ releases_own (own ∖ {[l]}) k
  | SlLockBoth a b :: k | SlLockBothSameProv a b :: k => releases_own ({[a]} ∪ ({[b]} ∪ own)) k
  end.

(** ** Mutual exclusion *)

(** The control points a call passes: [expected] is 0 at every
    compare-and-exchange. *)
Definition running (c : call) : Prop :=
  match c with
  | SlLock _ (LockCas expected) => expected = 0
  | SlLock _ LockDone => False
  | _ => True
  end.

Lemma fresh_running k : Forall fresh k → Forall running k.
Proof. intros Hk. eapply Forall_impl; [exact Hk|]. by intros [l []| | |]. Qed.

Definition owner (ts : list thread) (l : Z) : Prop := ∃ i t, ts !! i = Some t ∧ l ∈ own t.

(** A lock that is taken has exactly one owner, a free one has none. *)
Record inv (w : world) : Prop := {
  inv_threads : Forall (λ t, releases_own (own t) (calls t) ∧ Forall running (calls t)) (threads w);
  inv_disjoint i j t u : i ≠ j → threads w !! i = Some t → threads w !! j = Some u → own t ## own u;
  inv_locks l : (locks w l = 1 ∧ owner (threads w) l) ∨ (locks w l = 0 ∧ ¬ owner (threads w) l);
}.

Lemma initial_inv scripts :
  Forall (λ k, Forall fresh k ∧ releases_own ∅ k) scripts → inv (initial scripts).
Proof.
  intros Hs. assert (∀ i t, threads (initial scripts) !! i = Some t → own t = ∅) as He.
  { intros i t Ht. simpl in Ht. by apply list_lookup_fmap_Some in Ht as (k & -> & _). }
  split.
  - simpl. apply Forall_fmap. eapply Forall_impl; [exact Hs|]. intros k [Hf Hr].
    split; [done|by apply fresh_running].
  - intros i j t u _ Ht _. rewrite (He i t Ht). set_solver.
  - intros l. right. split; [done|]. intros (i & t & Ht & Hl). rewrite (He i t Ht) in Hl. set_solver.
Qed.

Lemma owner_insert ts i t t' l :
  ts !! i = Some t →
  owner (<[i := t']> ts) l ↔ l ∈ own t' ∨ ∃ j u, j ≠ i ∧ ts !! j = Some u ∧ l ∈ own u.
Proof.
  intros Hi. split.
  - intros (j & u & [(-> & -> & _)|[Hn Hu]]%list_lookup_insert_Some & Hl); [by left|right; eauto].
  - intros [Hl|(j & u & Hn & Hu & Hl)].
    + exists i, t'. split; [|done]. rewrite list_lookup_insert_eq //. by eapply lookup_lt_Some.
    + exists j, u. by rewrite list_lookup_insert_ne.
Qed.

(** What a step of a thread does to its locks: nothing, it takes a free one, or
    it frees one of its own. *)
Lemma thread_step_cases m t m' t' :
  releases_own (own t) (calls t) → Forall running (calls t) → thread_step m t = Some (m', t') →
  (releases_own (own t') (calls t') ∧ Forall running (calls t')) ∧
  ((own t' = own t ∧ ∀ l, m' l = m l) ∨
   (∃ l, m l = 0 ∧ own t' = {[l]} ∪ own t ∧ m' = <[l := 1]> m) ∨
   (∃ l, l ∈ own t ∧ own t' = own t ∖ {[l]} ∧ m' = <[l := 0]> m)).
Proof.
  destruct t as [o [|c k]]; [done|]. simpl. intros Hr [Hc Hk]%Forall_cons Hs. unfold thread_step in Hs.
  assert (∀ a b, releases_own ({[a]} ∪ ({[b]} ∪ o)) k →
    releases_own o (lock_both a b ++ k) ∧ Forall running (lock_both a b ++ k)) as Hboth.
  { intros a b Hab. unfold lock_both. destruct (a <? b); (split; [|by repeat constructor]); simpl; [|done].
    by replace ({[b]} ∪ ({[a]} ∪ o)) with ({[a]} ∪ ({[b]} ∪ o)) by set_solver. }
  assert (∀ l x, <[l := m l]> m x = m x) as Hid.
  { intros l x. unfold insert, fn_insert. case_decide; by subst. }
  destruct c as [l p|l|a b|a b]; simplify_eq/=.
  - destruct p as [|e|e|]; simplify_eq/=; [| | |done].
    + split; [split; [done|by repeat constructor]|]. by left.
    + destruct (Z.eqb_spec (m l) 0) as [H0|H0]; simplify_eq/=.
      * split; [done|]. right; left. by exists l.
      * split; [split; [done|by repeat constructor]|]. by left.
    + split; [split; [done|by repeat constructor]|]. by left.
  - destruct Hr as [Hl Hr]. split; [done|]. right; right. by exists l.
  - split; [by apply Hboth|]. by left.
  - split; [by apply Hboth|]. by left.
Qed.

Lemma step_inv w w' : step w w' → inv w → inv w'.
Proof.
  intros [m m' ts i t t' Hi Ht] [Hth Hd Hl]. simpl in *.
  destruct (Forall_lookup_1 _ _ _ _ Hth Hi) as [Hr Hk].
  destruct (thread_step_cases m t m' t' Hr Hk Ht) as [Hok Hcases].
  assert (∀ j u, j ≠ i → ts !! j = Some u → own t' ## own u) as Hd'.
  { intros j u Hj Hu. pose proof (Hd i j t u ltac:(done) Hi Hu) as Htu.
    destruct Hcases as [[-> _]|[(l & H0 & -> & _)|(l & _ & -> & _)]]; [done| |set_solver].
    destruct (Hl l) as [[? _]|[_ Hno]]; [congruence|].
    assert (l ∉ own u) by (intros ?; apply Hno; by exists j, u). set_solver. }
  split; simpl.
  - by apply Forall_insert.
  - intros j1 j2 u1 u2 Hne H1 H2.
    apply list_lookup_insert_Some in H1 as [(<- & <- & _)|[Hn1 H1]],
      H2 as [(<- & <- & _)|[Hn2 H2]]; [done|by eapply Hd'|symmetry; by eapply Hd'|exact (Hd _ _ _ _ Hne H1 H2)].
  - intros l. rewrite (owner_insert ts i t t' l Hi).
    assert (owner ts l ↔ l ∈ own t ∨ ∃ j u, j ≠ i ∧ ts !! j = Some u ∧ l ∈ own u) as Hown.
    { rewrite -(owner_insert ts i t t l Hi). by rewrite list_insert_id. }
    specialize (Hl l). rewrite Hown in Hl.
    destruct Hcases as [[-> Hm]|[(x & H0 & -> & ->)|(x & Hx & -> & ->)]].
    + by rewrite Hm.
    + unfold insert, fn_insert. case_decide as Hxl; [subst x; left; set_solver|].
      rewrite elem_of_union elem_of_singleton. naive_solver.
    + unfold insert, fn_insert. case_decide as Hxl; [subst x; right|].
      * split; [done|]. intros [?|(j & u & Hj & Hu & Hlu)]; [set_solver|].
        pose proof (Hd i j t u ltac:(done) Hi Hu). set_solver.
      * rewrite elem_of_difference elem_of_singleton. naive_solver.
Qed.

Lemma reachable_inv scripts w :
  Forall (λ k, Forall fresh k ∧ releases_own ∅ k) scripts → rtc step (initial scripts) w → inv w.
Proof.
  intros Hs Hr. pose proof (initial_inv scripts Hs) as Hi.
  induction Hr as [|w1 w2 w3 Hst _ IH]; eauto using step_inv.
Qed.

(** C22. Mutual exclusion of [sl_lock], [sl_unlock], [sl_lock_both] and
    [sl_lock_both_same_prov]: any number of threads make any calls of them,
    calling [sl_unlock] only on locks they have, and interleave at every
    compare-and-exchange, store and assignment to [expected].  No two threads
    have the same lock, and a lock holds 1 exactly while some thread has it and
    0 otherwise. *)
Theorem spinlock_mutual_exclusion scripts w :
  Forall (λ k, Forall fresh k ∧ releases_own ∅ k) scripts → rtc step (initial scripts) w →
  (∀ i j t u, i ≠ j → threads w !! i = Some t → threads w !! j = Some u → own t ## own u) ∧
  (∀ l, (locks w l = 1 ↔ owner (threads w) l) ∧ (locks w l = 0 ↔ ¬ owner (threads w) l)).
Proof.
  intros Hs Hr. destruct (reachable_inv _ _ Hs Hr) as [_ Hd Hl]. split; [exact Hd|].
  intros l. destruct (Hl l) as [[-> Ho]|[-> Ho]]; naive_solver lia.
Qed.

(** A schedule names the thread that makes the next step. *)
Fixpoint schedule (l : list nat) (w : world) : world :=
  match l with
  | [] => w
  | i :: l =>
      schedule l
        match t ← threads w !! i; thread_step (locks w) t with
        | Some (m, t) => World m (<[i := t]> (threads w))
        | None => w
        end
  end.

Lemma schedule_runs l w : rtc step w (schedule l w).
Proof.
  revert w. induction l as [|i l IH]; intros [m ts]; [done|]. simpl.
  destruct (ts !! i) as [t|] eqn:Ht; [|apply IH]. simpl.
  destruct (thread_step m t) as [[m' t']|] eqn:Hs; [|apply IH].
  eapply rtc_l; [by eapply Step|apply IH].
Qed.

(** Two threads want the lock 96; one has it and the other has tried twice. *)
Definition demo_scripts : list (list call) :=
  [[SlLock 96 LockEnter; SlLock 64 LockEnter; SlUnlock 96; SlUnlock 64];
   [SlLockBoth 96 80; SlUnlock 80; SlUnlock 96]].
Definition demo_schedule : list nat := [0; 0; 1; 1; 1; 1; 1; 1; 1]%nat.

Lemma spinlock_mutual_exclusion_witness :
  (own <$> threads (schedule demo_schedule (initial demo_scripts)) = [{[96]}; {[80]}] ∧
   calls <$> threads (schedule demo_schedule (initial demo_scripts)) =
     [[SlLock 64 LockEnter; SlUnlock 96; SlUnlock 64];
      [SlLock 96 (LockBody 1); SlUnlock 80; SlUnlock 96]]) ∧
  locks (schedule demo_schedule (initial demo_scripts)) 96 = 1.
Proof.
  split; [split; vm_compute; reflexivity|].
  apply (spinlock_mutual_exclusion demo_scripts).
  - repeat (constructor || set_solver).
  - apply schedule_runs.
  - eexists 0%nat, _. split; [vm_compute; reflexivity|]. vm_compute. done.
Defined.

(** ** Freedom from deadlock *)

(** A script takes each lock while it only has smaller ones, and has none in
    the end. *)
Fixpoint in_order (own : gset Z) (k : list call) : Prop :=
  match k with
  | [] => own = ∅
  | SlLock l _ :: k => (∀ x, x ∈ own → x < l) ∧ in_order ({[l]} ∪ own) k
  | SlUnlock l :: k => l ∈ own ∧ in_order (own ∖ {[l]}) k
  | SlLockBoth a b :: k | SlLockBothSameProv a b :: k =>
      a ≠ b ∧ (∀ x, x ∈ own → x < a ∧ x < b) ∧ in_order ({[a]} ∪ ({[b]} ∪ own)) k
  end.

Lemma in_order_releases_own o k : in_order o k → releases_own o k.
Proof. revert o. induction k as [|[] k IH]; naive_solver. Qed.

(** [sl_lock_both] keeps the order whichever way its arguments come. *)
Lemma lock_both_in_order o a b k :
  a ≠ b → (∀ x, x ∈ o → x < a ∧ x < b) → in_order ({[a]} ∪ ({[b]} ∪ o)) k →
  in_order o (lock_both a b ++ k).
Proof.
  intros Hab Ho Hk. unfold lock_both. destruct (Z.ltb_spec a b); simpl.
  - split_and!; [set_solver|set_solver by lia|].
    by replace ({[b]} ∪ ({[a]} ∪ o)) with ({[a]} ∪ ({[b]} ∪ o)) by set_solver.
  - split_and!; [set_solver| |done]. intros x [->%elem_of_singleton|Hx]%elem_of_union; [lia|].
    by apply Ho.
Qed.

Lemma thread_step_in_order m t m' t' :
  in_order (own t) (calls t) → thread_step m t = Some (m', t') → in_order (own t') (calls t').
Proof.
  destruct t as [o [|[l p|l|a b|a b] k]]; simpl; intros Ho Hs; unfold thread_step in Hs; simplify_eq/=.
  - destruct (sl_lock_step (m l) p) as [v []]; naive_solver.
  - naive_solver.
  - destruct Ho as (? & ? & ?). by apply lock_both_in_order.
  - destruct Ho as (? & ? & ?). by apply lock_both_in_order.
Qed.

(** The steps that calls still have to take, turns of the loop apart. *)
Definition weight (c : call) : nat :=
  match c with
  | SlLock _ LockEnter => 2
  | SlLock _ _ => 1
  | SlUnlock _ => 1
  | SlLockBoth _ _ | SlLockBothSameProv _ _ => 5
  end.
Fixpoint weights (k : list call) : nat :=
  match k with [] => 0 | c :: k => weight c + weights k end.
Definition todo (t : thread) : nat := weights (calls t).
Definition remaining (w : world) : nat := sum_list (todo <$> threads w).

Lemma remaining_insert ts i t t' :
  ts !! i = Some t →
  (sum_list (todo <$> <[i := t']> ts) + todo t = sum_list (todo <$> ts) + todo t')%nat.
Proof.
  revert i. induction ts as [|u ts IH]; intros [|i] Hi; simplify_eq/=; [lia|].
  specialize (IH i Hi). lia.
Qed.

Lemma thread_progress m m' ts i t t' :
  ts !! i = Some t → thread_step m t = Some (m', t') → (todo t' < todo t)%nat →
  ∃ w', bsteps step 2 (World m ts) w' ∧ (remaining w' < remaining (World m ts))%nat.
Proof.
  intros Hi Ht Hlt. eexists. split; [eapply bsteps_l; [by eapply Step|apply bsteps_refl]|].
  unfold remaining. simpl. pose proof (remaining_insert ts i t t' Hi). lia.
Qed.

(** The lock a thread spins on. *)
Definition waits_for (t : thread) : option Z :=
  match calls t with
  | SlLock l (LockCas _) :: _ | SlLock l (LockBody _) :: _ => Some l
  | _ => None
  end.

(** A thread that does not spin makes progress with its next step … *)
Lemma unblocked_progress m ts i t :
  ts !! i = Some t → Forall running (calls t) → calls t ≠ [] → waits_for t = None →
  ∃ w', bsteps step 2 (World m ts) w' ∧ (remaining w' < remaining (World m ts))%nat.
Proof.
  intros Hi Hr Hk Hw. destruct t as [o [|c k]]; [done|]. apply Forall_cons in Hr as [Hc _].
  destruct c as [l []|l|a b|a b]; simpl in *; try done; (eapply thread_progress; [done|reflexivity|]);
    unfold todo; simpl; unfold lock_both; try destruct (a <? b); simpl; lia.
Qed.

(** … and so does one that spins on a free lock, once [expected] is reset. *)
Lemma spinning_progress m ts i t l :
  ts !! i = Some t → Forall running (calls t) → waits_for t = Some l → m l = 0 →
  ∃ w', bsteps step 2 (World m ts) w' ∧ (remaining w' < remaining (World m ts))%nat.
Proof.
  intros Hi Hr Hw H0. pose proof (lookup_lt_Some _ _ _ Hi) as Hlt.
  destruct t as [o [|[x p| | |] k]]; try done. apply Forall_cons in Hr as [Hc _].
  unfold waits_for in Hw. destruct p as [|e|e|]; simplify_eq/=.
  - eapply (thread_progress m (<[l := 1]> m) ts i _ (Thread ({[l]} ∪ o) k)); [done| |unfold todo; simpl; lia].
    by rewrite /thread_step /= H0.
  - exists (World (<[l := 1]> (<[l := m l]> m)) (<[i := Thread ({[l]} ∪ o) k]> ts)). split.
    + eapply bsteps_l; [by eapply Step|]. eapply bsteps_l; [|apply bsteps_refl]. simpl.
      rewrite -(list_insert_insert_eq ts i (Thread _ k) (Thread o (SlLock l (LockCas 0) :: k))).
      eapply Step; [by rewrite list_lookup_insert_eq|]. by rewrite /thread_step /= fn_lookup_insert H0.
    + unfold remaining. simpl. pose proof (remaining_insert ts i _ (Thread ({[l]} ∪ o) k) Hi) as Hs.
      unfold todo in Hs at 2 4. simpl in Hs. lia.
Qed.

Lemma largest (l : list Z) : l ≠ [] → ∃ x, x ∈ l ∧ ∀ y, y ∈ l → y ≤ x.
Proof.
  induction l as [|z l IH]; [done|]. intros _. destruct l as [|z' l].
  { exists z. set_solver by lia. }
  destruct IH as (x & Hx & Hmax); [done|]. destruct (decide (z ≤ x)).
  - exists x. split; [set_solver|]. intros y [->|Hy]%elem_of_cons; [done|by apply Hmax].
  - exists z. split; [set_solver|]. intros y [->|Hy]%elem_of_cons; [lia|]. specialize (Hmax y Hy). lia.
Qed.

(** In order, a thread spins on a lock larger than all it has. *)
Lemma waits_for_larger t x l :
  in_order (own t) (calls t) → waits_for t = Some x → l ∈ own t → l < x.
Proof.
  unfold waits_for. destruct t as [o [|[y []| | |] k]]; simpl; try done;
    intros [Ho _] [= <-]; apply Ho.
Qed.

Definition ordered (w : world) : Prop :=
  inv w ∧ Forall (λ t, in_order (own t) (calls t)) (threads w).

(** The thread that spins on the largest lock finds it free: its owner would
    spin on a larger one. *)
Lemma ordered_progress w :
  ordered w → Forall (λ t, calls t = []) (threads w) ∨
  ∃ w', bsteps step 2 w w' ∧ (remaining w' < remaining w)%nat.
Proof.
  intros [[Hth _ Hl] Ho]. destruct w as [m ts]. simpl in *.
  destruct (decide (Forall (λ t, calls t = [] ∨ is_Some (waits_for t)) ts)) as [Hw|Hn]; cycle 1.
  { right. apply not_Forall_Exists, Exists_exists in Hn as (t & [i Hi]%list_elem_of_lookup & Ht); [|apply _].
    destruct (Forall_lookup_1 _ _ _ _ Hth Hi) as [_ Hr].
    eapply (unblocked_progress m ts i t); try done; [naive_solver|].
    apply eq_None_not_Some. naive_solver. }
  destruct (decide (omap waits_for ts = [])) as [E|E].
  { left. apply Forall_forall. intros t Ht. eapply Forall_forall in Hw as [|[l Hl']]; [done| |done].
    exfalso. assert (l ∈ omap waits_for ts) as Hin by (apply list_elem_of_omap; eauto).
    rewrite E in Hin. set_solver. }
  right. destruct (largest _ E) as (l & (t & Ht & Hl')%list_elem_of_omap & Hmax).
  apply list_elem_of_lookup in Ht as [i Hi]. destruct (Forall_lookup_1 _ _ _ _ Hth Hi) as [_ Hr].
  apply (spinning_progress m ts i t l); [done..|].
  destruct (Hl l) as [[_ (j & u & Hj & Hlu)]|[? _]]; [exfalso|done].
  pose proof (Forall_lookup_1 _ _ _ _ Ho Hj) as Hou.
  destruct (Forall_lookup_1 _ _ _ _ Hw Hj) as [Hk|[x Hx]]; [rewrite Hk in Hou; set_solver|].
  assert (x ≤ l) by (apply Hmax, list_elem_of_omap; eauto using list_elem_of_lookup_2).
  pose proof (waits_for_larger u x l Hou Hx Hlu). lia.
Qed.

Lemma step_ordered w w' : step w w' → ordered w → ordered w'.
Proof.
  intros Hs [Hi Ho]. split; [by eapply step_inv|]. destruct Hs as [m m' ts i t t' Ht Hs]. simpl in *.
  apply Forall_insert; [done|]. eapply thread_step_in_order; [|done]. by eapply Forall_lookup_1 in Ho.
Qed.

Lemma steps_ordered w w' : rtc step w w' → ordered w → ordered w'.
Proof. induction 1; eauto using step_ordered. Qed.

Lemma initial_ordered scripts :
  Forall (λ k, Forall fresh k ∧ in_order ∅ k) scripts → ordered (initial scripts).
Proof.
  intros Hs. split.
  - apply initial_inv. eapply Forall_impl; [exact Hs|]. naive_solver eauto using in_order_releases_own.
  - simpl. apply Forall_fmap. eapply Forall_impl; [exact Hs|]. by intros k [_ Hk].
Qed.

Lemma ordered_can_finish w :
  ordered w → ∃ w', rtc step w w' ∧ Forall (λ t, calls t = []) (threads w').
Proof.
  induction w as [w IH] using (induction_ltof1 _ remaining). intros Hi.
  destruct (ordered_progress w Hi) as [Hd|(w1 & Hs%rtc_bsteps_2 & Hlt)].
  - exists w. split; [apply rtc_refl|done].
  - destruct (IH w1 Hlt (steps_ordered _ _ Hs Hi)) as (w2 & Hr & Hd).
    exists w2. split; [by etrans|done].
Qed.

(** A thread that asks for one pair of locks after the other, in any order, and
    releases both each time. *)
Fixpoint pairs_script (pairs : list (Z * Z)) : list call :=
  match pairs with
  | [] => []
  | (a, b) :: ps => SlLockBoth a b :: SlUnlock a :: SlUnlock b :: pairs_script ps
  end.

Lemma pairs_script_in_order ps : Forall (λ '(a, b), a ≠ b) ps → in_order ∅ (pairs_script ps).
Proof.
  induction 1 as [|[a b] ps Hab _ IH]; [done|]. simpl. split_and!; [done|set_solver..|].
  by replace (_ ∖ _) with (∅ : gset Z) by set_solver.
Qed.

(** C23. No deadlock: any number of threads take locks while they only have
    smaller ones, [sl_lock_both] and [sl_lock_both_same_prov] on two distinct
    locks larger than those they have, the two in either order, and release
    what they took.  Then from every reachable state the threads can all
    finish; and as long as they have not, some thread can, within two steps,
    get ahead of a failed compare-and-exchange.  Threads that ask for one pair
    of distinct locks after the other with [sl_lock_both] are such threads. *)
Theorem sl_lock_both_deadlock_free :
  (∀ scripts w,
     Forall (λ k, Forall fresh k ∧ in_order ∅ k) scripts → rtc step (initial scripts) w →
     (∃ w', rtc step w w' ∧ Forall (λ t, calls t = []) (threads w')) ∧
     (Forall (λ t, calls t = []) (threads w) ∨
      ∃ w', bsteps step 2 w w' ∧ (remaining w' < remaining w)%nat)) ∧
  (∀ ps, Forall (λ '(a, b), a ≠ b) ps →
     Forall fresh (pairs_script ps) ∧ in_order ∅ (pairs_script ps)).
Proof.
  split.
  - intros scripts w Hs Hr. pose proof (steps_ordered _ _ Hr (initial_ordered _ Hs)) as Hi.
    split; [by apply ordered_can_finish|by apply ordered_progress].
  - intros ps Hps. split; [|by apply pairs_script_in_order].
    clear Hps. induction ps as [|[a b] ps IH]; by repeat constructor.
Qed.

Lemma sl_lock_both_deadlock_free_witness :
  ∃ w', rtc step (initial (pairs_script <$> [[(64, 96); (96, 80)]; [(96, 64)]; [(64, 128)]])) w' ∧
    Forall (λ t, calls t = []) (threads w').
Proof.
  destruct sl_lock_both_deadlock_free as [Hfree Hpairs].
  apply (Hfree (pairs_script <$> [[(64, 96); (96, 80)]; [(96, 64)]; [(64, 128)]])); [|apply rtc_refl].
  apply Forall_fmap. repeat (apply Forall_cons; split; [apply Hpairs; by repeat constructor|]).
  apply Forall_nil_2.
Defined.

(** Asked for the same lock twice, [sl_lock_both] spins for ever: it takes
    the lock and then waits for itself. *)
Theorem sl_lock_both_same_lock_spins (h : heap) l v :
  l ≠ NULL → h !! l = Some (Some v) → sl_lock_both l l h = Err NonTermination.
Proof.
  intros Hl Hh. unfold sl_lock_both. rewrite Z.ltb_irrefl. unfold mbind, M_bind.
  destruct (decide (v = 0)) as [->|Hv].
  - assert (sl_lock l h = Ok tt (<[l := Some 1]> h)) as ->.
    { unfold sl_lock, atomic_compare_exchange_strong, load, store, mbind, M_bind. simpl.
      rewrite decide_False // Hh /= decide_False // Hh. done. }
    apply sl_lock_held; [done|by rewrite lookup_insert_eq].
  - unfold sl_lock, atomic_compare_exchange_strong, load, store, mbind, M_bind. simpl.
    rewrite decide_False // Hh /=. by rewrite (proj2 (Z.eqb_neq v 0)).
Qed.

Lemma sl_lock_both_same_lock_spins_witness :
  sl_lock_both 64 64 {[ 64 := Some 0 ]} = Err NonTermination.
Proof. by apply (sl_lock_both_same_lock_spins _ 64 0). Defined.

End SpinLock.
