(* ===== verification/TicketLock.v ===== *)
(** * The ticket lock of pKVM (src/linux/pkvm/spinlock.c)

    The variant whose dispenser stops at 2^16 - 1 tickets and is reset by the
    last ticket holder.  Every atomic access of [hyp_spin_lock] and
    [hyp_spin_unlock] is one step of a thread; threads interleave freely and
    take the lock as often as they like.  The theorems show mutual exclusion,
    first-come-first-served order, and that the lock never gets stuck, without
    any bound on the number of threads. *)
From S2P Require Import Prelude.
From stdpp Require Import ssreflect gmap list relations.
#[local] Open Scope Z_scope.

Module TicketLock.

Definition NO_TICKET : Z := 65535.
Definition LAST_TICKET : Z := 65534.

(** Where a thread is in the code. *)
Inductive pc :=
  | Idle                (** not in a call *)
  | ReadNext            (** [ticket = lock->next] of the inner loop *)
  | TakeTicket (t : Z)  (** the compare-and-exchange on [lock->next] *)
  | WaitTurn (t : Z)    (** [while(lock->owner != ticket)] *)
  | Critical (t : Z)    (** [hyp_spin_lock] has returned *)
  | GiveUp (t : Z)      (** [hyp_spin_unlock] has read the owner *)
  | ResetNext.          (** the owner is reset, [lock->next = 0] is not *)

#[export] Instance pc_eq_dec : EqDecision pc.
Proof. solve_decision. Defined.

Record lock := Lock { owner : Z; next : Z }.
Record world := World { lck : lock; threads : list pc }.

Definition hyp_spin_lock_init : lock := Lock 0 0.

(** One access of [hyp_spin_lock]: the new lock and where the thread goes. *)
Definition hyp_spin_lock_step (l : lock) (p : pc) : option (lock * pc) :=
  match p with
  | Idle => Some (l, ReadNext)
  | ReadNext =>
      let ticket := next l in
      if ticket =? NO_TICKET then Some (l, ReadNext) else Some (l, TakeTicket ticket)
  | TakeTicket ticket =>
      if next l =? ticket then Some (Lock (owner l) (u16 (ticket + 1)), WaitTurn ticket)
      else Some (l, ReadNext)
  | WaitTurn ticket =>
      if negb (owner l =? ticket) then Some (l, WaitTurn ticket) else Some (l, Critical ticket)
  | _ => None
  end.

(** One access of [hyp_spin_unlock]. *)
Definition hyp_spin_unlock_step (l : lock) (p : pc) : option (lock * pc) :=
  match p with
  | Critical _ => Some (l, GiveUp (owner l))
  | GiveUp ticket =>
      if ticket =? LAST_TICKET then Some (Lock 0 (next l), ResetNext)
      else Some (Lock (u16 (ticket + 1)) (next l), Idle)
  | ResetNext => Some (Lock (owner l) 0, Idle)
  | _ => None
  end.

Definition thread_step (l : lock) (p : pc) : option (lock * pc) :=
  match hyp_spin_lock_step l p with
  | Some r => Some r
  | None => hyp_spin_unlock_step l p
  end.

Inductive step : world → world → Prop :=
  | Step l ts i p l' p' :
      ts !! i = Some p → thread_step l p = Some (l', p') →
      step (World l ts) (World l' (<[i := p']> ts)).

Definition initial (n : nat) : world := World hyp_spin_lock_init (replicate n Idle).

(** ** The invariant *)

(** The ticket a thread holds. *)
Definition ticket (p : pc) : list Z :=
  match p with
  | WaitTurn t | Critical t | GiveUp t => [t]
  | _ => []
  end.

Definition resetting (p : pc) : list unit :=
  match p with ResetNext => [()] | _ => [] end.

(** The thread is between the return of [hyp_spin_lock] and the end of
    [hyp_spin_unlock]. *)
Definition holds_lock (p : pc) : bool :=
  match p with Critical _ | GiveUp _ | ResetNext => true | _ => false end.

Definition pc_ok (l : lock) (p : pc) : Prop :=
  match p with
  | TakeTicket t => 0 ≤ t < NO_TICKET
  | Critical t | GiveUp t => t = owner l
  | _ => True
  end.

(** Outside a reset, the tickets given out and not yet served are the numbers
    from [owner] up to [next], each held by one thread; during a reset nobody
    holds a ticket and none can be taken. *)
Inductive mode (l : lock) (ts : list pc) : Prop :=
  | Serving :
      ts ≫= resetting = [] → 0 ≤ owner l ≤ LAST_TICKET → owner l ≤ next l ≤ NO_TICKET →
      ts ≫= ticket ≡ₚ seqZ (owner l) (next l - owner l) → mode l ts
  | Resetting :
      ts ≫= resetting = [()] → owner l = 0 → next l = NO_TICKET →
      ts ≫= ticket = [] → mode l ts.

Definition inv (w : world) : Prop :=
  Forall (pc_ok (lck w)) (threads w) ∧ mode (lck w) (threads w).

Lemma ticket_initial_inv n : inv (initial n).
Proof.
  split; simpl.
  - apply Forall_replicate. done.
  - apply Serving; simpl; [by induction n|unfold LAST_TICKET; lia|unfold NO_TICKET; lia|].
    by induction n.
Qed.

(** A ticket holder in critical position is the only one. *)
Lemma owner_unique l ts i j p q :
  mode l ts → i ≠ j → ts !! i = Some p → ts !! j = Some q →
  owner l ∈ ticket p → owner l ∉ ticket q.
Proof.
  intros [_ _ _ Hp|_ _ _ Hp] Hne Hi Hj Hip Hiq.
  - assert (NoDup (ts ≫= ticket)) as Hn by (rewrite Hp; apply NoDup_seqZ).
    by eapply (list_bind_disjoint ticket ts i j p q).
  - assert (owner l ∈ ts ≫= ticket) as He.
    { apply list_elem_of_bind. exists p. split; [done|]. by eapply list_elem_of_lookup_2. }
    rewrite Hp in He. set_solver.
Qed.

Lemma pc_ok_others l l' ts i p p' :
  Forall (pc_ok l) ts → ts !! i = Some p → mode l ts → pc_ok l' p' →
  (owner l = owner l' ∨ owner l ∈ ticket p) →
  Forall (pc_ok l') (<[i := p']> ts).
Proof.
  intros Hok Hi Hm Hp' Hown. apply Forall_lookup. intros j q Hj.
  destruct (decide (i = j)) as [<-|Hne].
  { rewrite list_lookup_insert_eq in Hj; [by simplify_eq|by eapply lookup_lt_Some]. }
  rewrite list_lookup_insert_ne // in Hj.
  pose proof (proj1 (Forall_lookup _ _) Hok j q Hj) as Hq.
  destruct Hown as [He|He]; [destruct q; simpl in *; congruence|].
  pose proof (owner_unique l ts i j p q Hm Hne Hi Hj He) as Hnot.
  destruct q; simpl in *; try done; subst; set_solver.
Qed.

(** A step that touches neither the lock nor the tickets keeps the mode. *)
Lemma mode_same l ts i p p' :
  ts !! i = Some p → ticket p = ticket p' → resetting p = resetting p' →
  mode l ts → mode l (<[i := p']> ts).
Proof.
  intros Hi Ht Hr.
  destruct (list_bind_insert ticket ts i p p' Hi) as (us & vs & E1 & E2).
  destruct (list_bind_insert resetting ts i p p' Hi) as (us' & vs' & F1 & F2).
  intros [Hs ? ? Hp|Hs ? ? Hp]; [apply Serving|apply Resetting]; try done; congruence.
Qed.

Lemma mode_next_bound l ts : mode l ts → 0 ≤ next l ≤ NO_TICKET.
Proof. intros [????|????]; unfold NO_TICKET in *; lia. Qed.

Lemma seqZ_single t : seqZ t 1 = [t].
Proof. rewrite seqZ_cons //. Qed.

Lemma mode_take l ts i t :
  ts !! i = Some (TakeTicket t) → next l = t → 0 ≤ t < NO_TICKET → mode l ts →
  mode (Lock (owner l) (t + 1)) (<[i := WaitTurn t]> ts).
Proof.
  intros Hi Hn Ht.
  destruct (list_bind_insert ticket ts i _ (WaitTurn t) Hi) as (us & vs & E1 & E2).
  destruct (list_bind_insert resetting ts i _ (WaitTurn t) Hi) as (us' & vs' & F1 & F2).
  simpl in *. intros [Hs Ho Hnx Hp|Hs Ho Hnx Hp]; [|lia].
  apply Serving; simpl; [congruence|lia|lia|].
  rewrite E2. rewrite E1 in Hp.
  replace (t + 1 - owner l) with ((next l - owner l) + 1) by lia.
  rewrite seqZ_app; [|lia..]. rewrite -Hp.
  replace (owner l + (next l - owner l)) with t by lia.
  rewrite seqZ_single. solve_Permutation.
Qed.

Lemma mode_serve l ts i t :
  ts !! i = Some (GiveUp t) → t = owner l → t ≠ LAST_TICKET → mode l ts →
  mode (Lock (t + 1) (next l)) (<[i := Idle]> ts).
Proof.
  intros Hi Ht Hl.
  destruct (list_bind_insert ticket ts i _ Idle Hi) as (us & vs & E1 & E2).
  destruct (list_bind_insert resetting ts i _ Idle Hi) as (us' & vs' & F1 & F2).
  simpl in *. intros [Hs Ho Hnx Hp|Hs Ho Hnx Hp]; [|rewrite E1 in Hp; by destruct us].
  rewrite E1 in Hp.
  assert (0 < next l - owner l) as Hlt.
  { destruct (decide (0 < next l - owner l)); [done|]. rewrite seqZ_nil in Hp; [|lia].
    apply Permutation_nil_r in Hp. by destruct us. }
  rewrite seqZ_cons // in Hp. rewrite -Permutation_middle -Ht in Hp.
  apply (Permutation_cons_inv (l := us ++ vs)) in Hp.
  apply Serving; simpl; [congruence|unfold LAST_TICKET in *; lia|lia|].
  rewrite E2 Hp Ht. by replace (Z.pred (next l - owner l)) with (next l - (owner l + 1)) by lia.
Qed.

Lemma mode_last l ts i :
  ts !! i = Some (GiveUp LAST_TICKET) → owner l = LAST_TICKET → mode l ts →
  mode (Lock 0 (next l)) (<[i := ResetNext]> ts).
Proof.
  intros Hi Hl.
  destruct (list_bind_insert ticket ts i _ ResetNext Hi) as (us & vs & E1 & E2).
  destruct (list_bind_insert resetting ts i _ ResetNext Hi) as (us' & vs' & F1 & F2).
  simpl in *. intros [Hs Ho Hnx Hp|Hs Ho Hnx Hp]; [|rewrite E1 in Hp; by destruct us].
  rewrite E1 Hl in Hp. rewrite F1 in Hs. apply app_eq_nil in Hs as [-> ->].
  assert (next l = NO_TICKET) as Hnext.
  { unfold LAST_TICKET, NO_TICKET in *. destruct (decide (0 < next l - 65534)); [lia|].
    rewrite seqZ_nil in Hp; [|lia]. apply Permutation_nil_r in Hp. by destruct us. }
  rewrite Hnext (seqZ_single LAST_TICKET) in Hp.
  rewrite -Permutation_middle in Hp.
  apply (Permutation_cons_inv (l := us ++ vs)), Permutation_nil_r in Hp.
  apply Resetting; simpl; [done|done|done|]. by rewrite E2.
Qed.

Lemma mode_reset l ts i :
  ts !! i = Some ResetNext → mode l ts → mode (Lock (owner l) 0) (<[i := Idle]> ts).
Proof.
  intros Hi.
  destruct (list_bind_insert ticket ts i _ Idle Hi) as (us & vs & E1 & E2).
  destruct (list_bind_insert resetting ts i _ Idle Hi) as (us' & vs' & F1 & F2).
  simpl in *. intros [Hs Ho Hnx Hp|Hs Ho Hnx Hp]; [rewrite F1 in Hs; by destruct us'|].
  assert (us' ++ vs' = []) as Hnil.
  { rewrite F1 in Hs. apply (f_equal length) in Hs. rewrite length_app /= in Hs.
    apply length_zero_iff_nil. rewrite length_app. lia. }
  apply Serving; simpl; 
    [congruence|rewrite Ho; unfold LAST_TICKET; lia|rewrite Ho; unfold NO_TICKET; lia|].
  rewrite E2 -E1 Hp Ho. done.
Qed.

Lemma ticket_step_inv w w' : step w w' → inv w → inv w'.
Proof.
  intros Hs. destruct Hs as [l ts i p l' p' Hi Ht]. intros [Hok Hm]. simpl in *.
  pose proof (proj1 (Forall_lookup _ _) Hok i p Hi) as Hp.
  pose proof (mode_next_bound l ts Hm) as Hnb. split; simpl.
  - assert (pc_ok l' p' ∧ (owner l = owner l' ∨ owner l ∈ ticket p)) as [??];
      [|by eapply pc_ok_others].
    destruct p; unfold thread_step in Ht; simpl in *.
    + simplify_eq. auto.
    + destruct (Z.eqb_spec (next l) NO_TICKET); simplify_eq/=; split; auto; lia.
    + destruct (next l =? t); simplify_eq/=; auto.
    + destruct (Z.eqb_spec (owner l) t); simplify_eq/=; auto.
    + simplify_eq/=. auto.
    + subst t. destruct (owner l =? LAST_TICKET); simplify_eq/=; (split; [done|right; set_solver]).
    + simplify_eq/=. auto.
  - destruct p; simpl in *; unfold thread_step in Ht; simpl in Ht.
    + simplify_eq. by eapply mode_same.
    + destruct (next l =? NO_TICKET); simplify_eq; by eapply mode_same.
    + destruct (Z.eqb_spec (next l) t); simplify_eq; [|by eapply mode_same].
      rewrite wrap_small; [|unfold in_unsigned, NO_TICKET in *; lia]. by eapply mode_take.
    + destruct (owner l =? t); simplify_eq/=; by eapply mode_same.
    + simplify_eq. by eapply mode_same.
    + destruct (Z.eqb_spec t LAST_TICKET); simplify_eq.
      * eapply mode_last; try done. congruence.
      * assert (0 ≤ owner l ≤ LAST_TICKET) by (destruct Hm; unfold LAST_TICKET in *; lia).
        rewrite wrap_small; [|unfold in_unsigned, LAST_TICKET in *; lia]. by eapply mode_serve.
    + simplify_eq. by eapply mode_reset.
Qed.

Lemma ticket_reachable_inv n w : rtc step (initial n) w → inv w.
Proof.
  intros Hr. remember (initial n) as w0 eqn:E.
  assert (inv w0) as Hi by (subst; apply ticket_initial_inv). clear E.
  induction Hr; eauto using ticket_step_inv.
Qed.

(** ** Correctness *)

Lemma holder_cases l ts i p :
  Forall (pc_ok l) ts → ts !! i = Some p → holds_lock p = true →
  owner l ∈ ticket p ∨ p = ResetNext.
Proof.
  intros Hok Hi Hh. pose proof (proj1 (Forall_lookup _ _) Hok i p Hi) as Hp.
  destruct p; simpl in *; try done; [left; set_solver..|by right].
Qed.

Lemma reset_excludes l ts i j q :
  mode l ts → i ≠ j → ts !! i = Some ResetNext → ts !! j = Some q →
  ticket q = [] ∧ q ≠ ResetNext.
Proof.
  intros Hm Hne Hi Hj.
  assert (() ∈ ts ≫= resetting) as Hin.
  { apply list_elem_of_bind. exists ResetNext. split; [simpl; set_solver|].
    by eapply list_elem_of_lookup_2. }
  destruct Hm as [Hs _ _ _|Hs _ _ Ht]; rewrite Hs in Hin; [set_solver|]. split.
  - destruct (ticket q) as [|t tq] eqn:Hq; [done|].
    assert (t ∈ ts ≫= ticket) as He.
    { apply list_elem_of_bind. exists q. split; [rewrite Hq; set_solver|].
      by eapply list_elem_of_lookup_2. }
    rewrite Ht in He. set_solver.
  - intros ->. assert (NoDup (ts ≫= resetting)) as Hn by (rewrite Hs; apply NoDup_singleton).
    eapply (list_bind_disjoint resetting ts i j _ _ Hn Hne Hi Hj ()); simpl; set_solver.
Qed.

(** C3. Mutual exclusion of the ticket lock: in every interleaving of any
    number of threads (also more than there are tickets, across any number of
    resets of the dispenser), at most one thread is between the return of
    [hyp_spin_lock] and the end of [hyp_spin_unlock]. *)
Theorem ticket_lock_mutual_exclusion n w i j p q :
  rtc step (initial n) w → i ≠ j → threads w !! i = Some p → threads w !! j = Some q →
  holds_lock p = true → holds_lock q = false.
Proof.
  intros Hr Hne Hi Hj Hp. destruct (ticket_reachable_inv n w Hr) as [Hok Hm].
  destruct (holds_lock q) eqn:Hq; [exfalso|done].
  destruct (holder_cases _ _ _ _ Hok Hi Hp) as [Ho| ->].
  - destruct (holder_cases _ _ _ _ Hok Hj Hq) as [Ho'| ->].
    + by eapply (owner_unique _ _ i j).
    + destruct (reset_excludes _ _ j i p Hm) as [Ht _]; [done..|]. rewrite Ht in Ho. set_solver.
  - destruct (reset_excludes _ _ i j q Hm Hne Hi Hj) as [Ht Hnr].
    destruct (holder_cases _ _ _ _ Hok Hj Hq) as [Ho'|]; [|done]. rewrite Ht in Ho'. set_solver.
Qed.

(** Thread 0 in the critical section, thread 1 waiting with the next ticket. *)
Definition two_threads : world := World (Lock 0 2) [Critical 0; WaitTurn 1].

Lemma two_threads_reachable : rtc step (initial 2) two_threads.
Proof.
  do 3 (eapply rtc_l; [eapply (Step _ _ 0%nat); [reflexivity|vm_compute; reflexivity]|]).
  do 3 (eapply rtc_l; [eapply (Step _ _ 1%nat); [reflexivity|vm_compute; reflexivity]|]).
  eapply rtc_l; [eapply (Step _ _ 0%nat); [reflexivity|vm_compute; reflexivity]|].
  vm_compute. apply rtc_refl.
Qed.

Lemma ticket_lock_mutual_exclusion_witness : holds_lock (WaitTurn 1) = false.
Proof.
  apply (ticket_lock_mutual_exclusion 2 two_threads 0%nat 1%nat (Critical 0));
    [apply two_threads_reachable|done..].
Defined.

(** C20. First come, first served: a thread that is still waiting has a later
    ticket than the thread that has been let in. *)
Theorem ticket_lock_fifo n w i j t t' :
  rtc step (initial n) w →
  threads w !! i = Some (WaitTurn t) → threads w !! j = Some (Critical t') → t' < t.
Proof.
  intros Hr Hi Hj. destruct (ticket_reachable_inv n w Hr) as [Hok Hm].
  pose proof (proj1 (Forall_lookup _ _) Hok j _ Hj) as ->.
  assert (i ≠ j) as Hne by (intros ->; simplify_eq).
  assert (t ≠ owner (lck w)) as Hown.
  { intros ->. eapply (owner_unique _ _ j i); [done..|simpl; set_solver|simpl; set_solver]. }
  assert (t ∈ threads w ≫= ticket) as He.
  { apply list_elem_of_bind. exists (WaitTurn t). split; [simpl; set_solver|].
    by eapply list_elem_of_lookup_2. }
  destruct Hm as [_ _ _ Hp|_ _ _ Hp]; rewrite Hp in He; [|set_solver].
  apply elem_of_seqZ in He. lia.
Qed.

Lemma ticket_lock_fifo_witness : 0 < 1.
Proof.
  apply (ticket_lock_fifo 2 two_threads 1%nat 0%nat 1 0); [apply two_threads_reachable|done..].
Defined.

(** Threads that may have to wait for another one. *)
Definition may_spin (p : pc) : bool :=
  match p with ReadNext | WaitTurn _ => true | _ => false end.

Lemma moving_thread l p :
  p ≠ Idle → may_spin p = false →
  ∃ l' p', thread_step l p = Some (l', p') ∧ (l', p') ≠ (l, p).
Proof.
  intros Hid Hsp. destruct p; simpl in *; try done; unfold thread_step; simpl.
  - destruct (next l =? t); eauto.
  - eauto.
  - destruct (t =? LAST_TICKET); eauto.
  - eauto.
Qed.

Lemma waiting_progress l ts :
  mode l ts → Forall (λ p, p = Idle ∨ may_spin p = true) ts →
  Forall (λ p, p = Idle) ts ∨
  ∃ i p l' p', ts !! i = Some p ∧ p ≠ Idle ∧
    thread_step l p = Some (l', p') ∧ (l', p') ≠ (l, p).
Proof.
  intros Hm Hall.
  assert (ts ≫= resetting = []) as Hnr.
  { apply elem_of_nil_inv. intros u (p & Hu & Hp)%list_elem_of_bind.
    destruct (proj1 (Forall_forall _ _) Hall p Hp) as [->|?]; [set_solver|].
    destruct p; simpl in *; try done; set_solver. }
  destruct Hm as [_ Ho Hnx Hp|Hs _ _ _]; [|congruence].
  destruct (decide (owner l = next l)) as [Heq|Hlt].
  - (* no ticket is out: a reader gets one *)
    rewrite Heq Z.sub_diag seqZ_nil // in Hp. apply Permutation_nil_r in Hp.
    destruct (decide (Forall (λ p, p = Idle) ts)) as [|Hn]; [by left|right].
    apply not_Forall_Exists, Exists_exists in Hn as (p & [i Hi]%list_elem_of_lookup & Hid); [|apply _].
    destruct (proj1 (Forall_lookup _ _) Hall i p Hi) as [|Hsp]; [done|].
    destruct p; simpl in *; try done.
    + exists i, ReadNext, l, (TakeTicket (next l)). unfold thread_step. simpl.
      rewrite (proj2 (Z.eqb_neq (next l) NO_TICKET)); [|unfold NO_TICKET, LAST_TICKET in *; lia].
      split_and!; done.
    + assert (t ∈ ts ≫= ticket) as He.
      { apply list_elem_of_bind. exists (WaitTurn t). split; [simpl; set_solver|].
        by eapply list_elem_of_lookup_2. }
      rewrite Hp in He. set_solver.
  - (* the holder of the ticket being served enters *)
    assert (owner l ∈ ts ≫= ticket) as (p & Hpt & [i Hi]%list_elem_of_lookup)%list_elem_of_bind.
    { rewrite Hp. apply elem_of_seqZ. lia. }
    right. destruct (proj1 (Forall_lookup _ _) Hall i p Hi) as [->|Hsp]; [set_solver|].
    destruct p; simpl in *; try done; [set_solver|].
    apply list_elem_of_singleton in Hpt as <-.
    exists i, (WaitTurn (owner l)), l, (Critical (owner l)). unfold thread_step. simpl.
    rewrite Z.eqb_refl /=. split_and!; done.
Qed.

(** C21. The ticket lock never gets stuck: as long as some thread is inside one
    of the two functions, some such thread has a next step that is not a mere
    repetition of a spinning read; in particular no ticket is ever lost. *)
Theorem ticket_lock_progress n w :
  rtc step (initial n) w →
  Forall (λ p, p = Idle) (threads w) ∨
  ∃ i p l' p', threads w !! i = Some p ∧ p ≠ Idle ∧
    thread_step (lck w) p = Some (l', p') ∧ (l', p') ≠ (lck w, p).
Proof.
  intros Hr. destruct (ticket_reachable_inv n w Hr) as [_ Hm].
  destruct (decide (Forall (λ p, p = Idle ∨ may_spin p = true) (threads w))) as [Hall|Hex].
  - by apply waiting_progress.
  - right. apply not_Forall_Exists, Exists_exists in Hex
      as (p & [i Hi]%list_elem_of_lookup & Hp); [|apply _].
    assert (p ≠ Idle ∧ may_spin p = false) as [Hid Hsp].
    { split; [by intros ->; apply Hp; left|].
      destruct (may_spin p) eqn:E; [destruct Hp; by right|done]. }
    destruct (moving_thread (lck w) p Hid Hsp) as (l' & p' & ? & ?).
    eauto 10.
Qed.

Lemma ticket_lock_progress_witness :
  ∃ i p l' p', threads two_threads !! i = Some p ∧ p ≠ Idle ∧
    thread_step (lck two_threads) p = Some (l', p') ∧ (l', p') ≠ (lck two_threads, p).
Proof.
  destruct (ticket_lock_progress 2 two_threads two_threads_reachable) as [H|H]; [|exact H].
  exfalso. apply Forall_cons in H as [H _]. discriminate H.
Defined.

End TicketLock.
