(* ===== verification/Mpool.v ===== *)
(** * Memory pools (src/examples/mpool.c, from Hafnium)

    A [struct mpool] at [p] keeps [entry_size] at [p], its spinlock at
    [p + 8], the list of chunks at [p + 16], the list of free entries at
    [p + 24] and the fallback pool at [p + 32].  Free memory is threaded
    through itself: a chunk at [c] stores its size at [c] and the next chunk
    at [c + 8], an entry at [e] the next entry at [e].  All of it is cells of
    the heap, so the specifications account for every word the pool hands out
    or takes back. *)
From S2P Require Import Prelude HeapLogic SpinLock.
From stdpp Require Import gmap list.
From iris.proofmode Require Import proofmode.
Import SpinLock.
#[local] Open Scope Z_scope.

Module Mpool.

(** ** The code *)

(** Members of [struct mpool], [struct mpool_chunk] and [struct mpool_entry]. *)
Definition entry_size (p : Z) : Z := p.
Definition lock (p : Z) : Z := p + 8.
Definition chunk_list (p : Z) : Z := p + 16.
Definition entry_list (p : Z) : Z := p + 24.
Definition fallback (p : Z) : Z := p + 32.
Definition size (c : Z) : Z := c.
Definition next_chunk (c : Z) : Z := c + 8.
Definition enext (e : Z) : Z := e.

(** [round_pointer_up] is only declared in the file: how far it rounds is a
    parameter, with the behaviour its declaration documents. *)
Class RoundPointerUp := {
  round_pointer_up : Z → Z → Z;
  round_pointer_up_range p align : 0 < align → 0 ≤ round_pointer_up p align < align;
  round_pointer_up_aligned p align : 0 < align → (align | p + round_pointer_up p align);
}.

Definition mpool_init (p es : Z) : M heap unit :=
  store (entry_size p) es ;;
  store (chunk_list p) NULL ;;
  store (entry_list p) NULL ;;
  store (fallback p) NULL ;;
  sl_init (lock p).

Definition mpool_init_from (p from : Z) : M heap unit :=
  es ← load (entry_size from);
  mpool_init p es ;;
  sl_lock (lock from) ;;
  c ← load (chunk_list from);
  store (chunk_list p) c ;;
  e ← load (entry_list from);
  store (entry_list p) e ;;
  f ← load (fallback from);
  store (fallback p) f ;;
  store (chunk_list from) NULL ;;
  store (entry_list from) NULL ;;
  sl_unlock (lock from).

Definition mpool_init_with_fallback (p fb : Z) : M heap unit :=
  es ← load (entry_size fb);
  mpool_init p es ;;
  store (fallback p) fb.

Definition mpool_add_chunk (p begin sz : Z) : M heap bool :=
  if sz =? 0 then mret false else
  let chunk := begin in
  store (size chunk) sz ;;
  sl_lock (lock p) ;;
  c ← load (chunk_list p);
  store (next_chunk chunk) c ;;
  store (chunk_list p) chunk ;;
  sl_unlock (lock p) ;;
  mret true.

Definition mpool_alloc_no_fallback (p : Z) : M heap Z :=
  sl_lock (lock p) ;;
  el ← load (entry_list p);
  ret ← (if negb (el =? NULL) then
           entry ← load (entry_list p);
           nx ← load (enext entry);
           store (entry_list p) nx ;;
           mret entry
         else
           chunk ← load (chunk_list p);
           if chunk =? NULL then mret NULL else
           es ← load (entry_size p);
           sz ← load (size chunk);
           (if sz <=? es then
              nx ← load (next_chunk chunk);
              store (chunk_list p) nx
            else
              es ← load (entry_size p);
              let new_chunk := chunk + es in
              nx ← load (next_chunk chunk);
              store (next_chunk new_chunk) nx ;;
              sz ← load (size chunk);
              es ← load (entry_size p);
              store (size new_chunk) (u64 (sz - es)) ;;
              store (chunk_list p) new_chunk) ;;
           mret chunk);
  sl_unlock (lock p) ;;
  mret ret.

(** [while(p != NULL) { ret = f(p); if(ret != NULL) return ret; p = p->fallback; }] *)
Fixpoint fallback_loop (fuel : nat) (f : Z → M heap Z) (p : Z) : M heap Z :=
  match fuel with
  | O => fail OutOfFuel
  | S fuel =>
      if p =? NULL then mret NULL else
      ret ← f p;
      if negb (ret =? NULL) then mret ret else
      p ← load (fallback p);
      fallback_loop fuel f p
  end.

Definition mpool_alloc (fuel : nat) (p : Z) : M heap Z :=
  ret ← mpool_alloc_no_fallback p;
  if negb (ret =? NULL) then mret ret else
  p ← load (fallback p);
  fallback_loop fuel mpool_alloc_no_fallback p.

Definition mpool_free (p ptr : Z) : M heap unit :=
  let e := ptr in
  sl_lock (lock p) ;;
  el ← load (entry_list p);
  store (enext e) el ;;
  store (entry_list p) e ;;
  sl_unlock (lock p).

Fixpoint free_entries (fuel : nat) (p entry : Z) : M heap unit :=
  match fuel with
  | O => fail OutOfFuel
  | S fuel =>
      if entry =? NULL then mret tt else
      let ptr1 := entry in
      entry ← load (enext entry);
      fb ← load (fallback p);
      mpool_free fb ptr1 ;;
      free_entries fuel p entry
  end.

Fixpoint free_chunks (fuel : nat) (p chunk : Z) : M heap unit :=
  match fuel with
  | O => fail OutOfFuel
  | S fuel =>
      if chunk =? NULL then mret tt else
      let ptr2 := chunk in
      sz ← load (size chunk);
      chunk ← load (next_chunk chunk);
      fb ← load (fallback p);
      _ ← mpool_add_chunk fb ptr2 sz;
      free_chunks fuel p chunk
  end.

Definition mpool_fini (fuel : nat) (p : Z) : M heap unit :=
  fb ← load (fallback p);
  if fb =? NULL then mret tt else
  entry ← load (entry_list p);
  chunk ← load (chunk_list p);
  free_entries fuel p entry ;;
  free_chunks fuel p chunk ;;
  store (chunk_list p) NULL ;;
  store (entry_list p) NULL ;;
  store (fallback p) NULL.

Section contiguous.
Context `{!RoundPointerUp}.

Fixpoint contiguous_loop (fuel : nat) (p count align prev : Z) : M heap Z :=
  match fuel with
  | O => fail OutOfFuel
  | S fuel =>
      chunk ← load prev;
      if chunk =? NULL then mret NULL else
      let before_start := round_pointer_up chunk align in
      es ← load (entry_size p);
      csz ← load (size chunk);
      if u64 (before_start + u64 (count * es)) <=? csz then
        chunk_size ← load (size chunk);
        chunk_next ← load (next_chunk chunk);
        let start := chunk + before_start in
        es ← load (entry_size p);
        (if u64 (before_start + u64 (count * es)) =? chunk_size then
           store prev chunk_next
         else
           es ← load (entry_size p);
           let new_chunk := start + u64 (count * es) in
           store (size new_chunk) (u64 (chunk_size - u64 (before_start + u64 (count * es)))) ;;
           store (next_chunk new_chunk) chunk_next ;;
           store prev new_chunk) ;;
        es ← load (entry_size p);
        (if es <=? before_start then
           q ← load prev;
           store (next_chunk chunk) q ;;
           store prev chunk ;;
           store (size chunk) before_start
         else mret tt) ;;
        mret start
      else contiguous_loop fuel p count align (next_chunk chunk)
  end.

Definition mpool_alloc_contiguous_no_fallback (fuel : nat) (count align p : Z) : M heap Z :=
  es ← load (entry_size p);
  let align := u64 (align * es) in
  sl_lock (lock p) ;;
  ret ← contiguous_loop fuel p count align (chunk_list p);
  sl_unlock (lock p) ;;
  mret ret.

Definition mpool_alloc_contiguous (fuel : nat) (p count align : Z) : M heap Z :=
  ret ← mpool_alloc_contiguous_no_fallback fuel count align p;
  if negb (ret =? NULL) then mret ret else
  p ← load (fallback p);
  fallback_loop fuel (mpool_alloc_contiguous_no_fallback fuel count align) p.
End contiguous.

Arguments entry_size : simpl never.
Arguments lock : simpl never.
Arguments chunk_list : simpl never.
Arguments entry_list : simpl never.
Arguments fallback : simpl never.
Arguments size : simpl never.
Arguments next_chunk : simpl never.
Arguments enext : simpl never.

(** ** The abstract view *)

(** The chunks, each with its address and size, linked from [c]. *)
Fixpoint chunks (c : Z) (cs : list (Z * Z)) : hProp :=
  match cs with
  | [] => ⌜c = NULL⌝%I
  | (a, sz) :: cs =>
      (⌜c = a⌝ ∗ ∃ nx, size a ↦ sz ∗ next_chunk a ↦ nx ∗ raw (a + 16) (sz - 16) ∗ chunks nx cs)%I
  end.

(** The free entries of [es] bytes each, linked from [e]. *)
Fixpoint entries (es e : Z) (xs : list Z) : hProp :=
  match xs with
  | [] => ⌜e = NULL⌝%I
  | x :: xs => (⌜e = x⌝ ∗ ∃ nx, enext x ↦ nx ∗ raw (x + 8) (es - 8) ∗ entries es nx xs)%I
  end.

(** Entry sizes hold two pointers and are powers of two. *)
Definition entry_size_ok (es : Z) : Prop := ∃ k, 4 ≤ k < 64 ∧ es = 2 ^ k.
Definition chunk_ok (es : Z) (c : Z * Z) : Prop :=
  (es | c.1) ∧ (es | c.2) ∧ es ≤ c.2 < 2 ^ 64.

Definition mpool (p es : Z) (cs : list (Z * Z)) (xs : list Z) (fb : Z) : hProp :=
  (∃ c e, entry_size p ↦ es ∗ lock p ↦ 0 ∗ chunk_list p ↦ c ∗ entry_list p ↦ e ∗ fallback p ↦ fb ∗
     chunks c cs ∗ entries es e xs ∗
     ⌜entry_size_ok es ∧ Forall (chunk_ok es) cs ∧ Forall (Z.divide es) xs⌝)%I.

(** The memory of a [struct mpool] before its initialisation. *)
Definition mpool_uninit (p : Z) : hProp :=
  (entry_size p ↦? ∗ lock p ↦? ∗ chunk_list p ↦? ∗ entry_list p ↦? ∗ fallback p ↦?)%I.

(** How many entries a pool can hand out. *)
Definition total (es : Z) (cs : list (Z * Z)) (xs : list Z) : Z :=
  foldr (λ c n, c.2 / es + n) 0 cs + Z.of_nat (length xs).

(** What one allocation does. *)
Definition alloc_abs (es : Z) (cs : list (Z * Z)) (xs : list Z) : Z * list (Z * Z) * list Z :=
  match xs with
  | x :: xs => (x, cs, xs)
  | [] =>
      match cs with
      | [] => (NULL, [], [])
      | (a, sz) :: cs => (a, if sz <=? es then cs else (a + es, sz - es) :: cs, [])
      end
  end.

Lemma entry_size_facts es : entry_size_ok es → 16 ≤ es < 2 ^ 64 ∧ (16 | es) ∧ (8 | es).
Proof.
  intros (k & Hk & ->). assert (2 ^ k = 16 * 2 ^ (k - 4)) as E.
  { change 16 with (2 ^ 4). rewrite -Z.pow_add_r; [f_equal; lia|lia|lia]. }
  assert (0 < 2 ^ (k - 4)) by (apply Z.pow_pos_nonneg; lia).
  assert (2 ^ k < 2 ^ 64) by (apply Z.pow_lt_mono_r; lia).
  split_and!; [lia|done| |]; [exists (2 ^ (k - 4)); lia|exists (2 * 2 ^ (k - 4)); lia].
Qed.

Lemma chunk_raw a sz nx :
  16 ≤ sz → size a ↦ sz -∗ next_chunk a ↦ nx -∗ raw (a + 16) (sz - 16) -∗ raw a sz.
Proof.
  iIntros (?) "H1 H2 H3". rewrite (raw_words a sz) //. iSplitL "H1"; [by iExists _|].
  iSplitL "H2"; [by iExists _|done].
Qed.

Lemma entry_raw es x nx : 8 ≤ es → enext x ↦ nx -∗ raw (x + 8) (es - 8) -∗ raw x es.
Proof. iIntros (?) "H1 H2". rewrite (raw_word x es) //. iSplitL "H1"; [by iExists _|done]. Qed.

Lemma chunks_not_null c a sz cs : chunks c ((a, sz) :: cs) ⊢ ⌜c = a ∧ a ≠ NULL⌝.
Proof.
  simpl. iIntros "(-> & %nx & H & _)". iDestruct (pointsto_not_null with "H") as %?. done.
Qed.

Lemma entries_not_null es e x xs : entries es e (x :: xs) ⊢ ⌜e = x ∧ x ≠ NULL⌝.
Proof.
  simpl. iIntros "(-> & %nx & H & _)". iDestruct (pointsto_not_null with "H") as %?. done.
Qed.

(** ** Initialisation, freeing, single allocations *)

Lemma mpool_init_spec p es :
  entry_size_ok es → {{ mpool_uninit p }} mpool_init p es {{ _, mpool p es [] [] NULL }}.
Proof.
  intros Hes. triple_start.
  iIntros "([% H1] & [% H2] & [% H3] & [% H4] & [% H5])". unfold mpool_init, sl_init.
  wp_steps. iExists NULL, NULL. iFrame. by auto.
Qed.

Lemma mpool_init_with_fallback_spec p q es cs xs fb :
  {{ mpool_uninit p ∗ mpool q es cs xs fb }} mpool_init_with_fallback p q
  {{ _, mpool p es [] [] q ∗ mpool q es cs xs fb }}.
Proof.
  triple_start. iIntros "[Hp (%c & %e & Hes & Hl & Hc & He & Hf & Hcs & Hxs & %Hok)]".
  unfold mpool_init_with_fallback. wp_load.
  wp_call (mpool_init_spec p es (proj1 Hok)) with "Hp". iIntros (_) "Hp".
  iDestruct "Hp" as (c' e') "(H1 & H2 & H3 & H4 & Hpf & H5 & H6 & %Hok')". wp_store.
  iSplitL "H1 H2 H3 H4 Hpf H5 H6"; [iExists c', e'|iExists c, e]; by iFrame.
Qed.

Lemma mpool_init_from_spec p q es cs xs fb :
  {{ mpool_uninit p ∗ mpool q es cs xs fb }} mpool_init_from p q
  {{ _, mpool p es cs xs fb ∗ mpool q es [] [] fb }}.
Proof.
  triple_start. iIntros "[Hp (%c & %e & Hes & Hl & Hc & He & Hf & Hcs & Hxs & %Hok)]".
  unfold mpool_init_from. wp_load.
  wp_call (mpool_init_spec p es (proj1 Hok)) with "Hp". iIntros (_) "Hp".
  iDestruct "Hp" as (c' e') "(? & ? & Hpc & Hpe & Hpf & _ & _ & _)".
  wp_call (sl_lock_spec (lock q)) with "Hl". iIntros (_) "Hl". wp_steps.
  wp_call (sl_unlock_spec (lock q)) with "Hl". iIntros (_) "Hl".
  iSplitR "Hes Hl Hc He Hf"; [iExists c, e; by iFrame|].
  iExists NULL, NULL. iFrame. iPureIntro. naive_solver.
Qed.

Lemma mpool_add_chunk_spec p es cs xs fb a sz :
  (es | a) → (es | sz) → 0 ≤ sz < 2 ^ 64 →
  {{ mpool p es cs xs fb ∗ raw a sz }} mpool_add_chunk p a sz
  {{ b, ⌜b = bool_decide (0 < sz)⌝ ∗
        mpool p es (if decide (0 < sz) then (a, sz) :: cs else cs) xs fb }}.
Proof.
  intros Ha Hs Hsz. triple_start.
  iIntros "[(%c & %e & Hes & Hl & Hc & He & Hf & Hcs & Hxs & %Hok) Hr]".
  unfold mpool_add_chunk. destruct (Z.eqb_spec sz 0) as [->|Hne].
  { wp_ret. iSplit; [done|]. iExists c, e. by iFrame. }
  destruct (entry_size_facts es (proj1 Hok)) as (Hes & _ & _).
  assert (es ≤ sz) by (apply Z.divide_pos_le; [lia|done]).
  rewrite raw_words; [|lia]. iDestruct "Hr" as "([% H1] & [% H2] & Hr)". wp_store.
  wp_call (sl_lock_spec (lock p)) with "Hl". iIntros (_) "Hl". wp_steps.
  wp_call (sl_unlock_spec (lock p)) with "Hl". iIntros (_) "Hl". wp_ret.
  rewrite bool_decide_true; [|lia]. rewrite decide_True; [|lia]. iSplit; [done|].
  iExists a, e. iFrame. iPureIntro. split_and!; try done; [naive_solver| |naive_solver].
  constructor; [|naive_solver]. unfold chunk_ok. simpl. auto with lia.
Qed.

Lemma mpool_free_spec p es cs xs fb x :
  (es | x) →
  {{ mpool p es cs xs fb ∗ raw x es }} mpool_free p x {{ _, mpool p es cs (x :: xs) fb }}.
Proof.
  intros Hx. triple_start.
  iIntros "[(%c & %e & Hes & Hl & Hc & He & Hf & Hcs & Hxs & %Hok) Hr]".
  destruct (entry_size_facts es (proj1 Hok)) as (Hes & _ & _).
  rewrite raw_word; [|lia]. iDestruct "Hr" as "([% H1] & Hr)". unfold mpool_free.
  wp_call (sl_lock_spec (lock p)) with "Hl". iIntros (_) "Hl". wp_steps.
  wp_call (sl_unlock_spec (lock p)) with "Hl". iIntros (_) "Hl".
  iExists c, x. iFrame. iPureIntro. split_and!; [done|naive_solver..|].
  constructor; naive_solver.
Qed.

Lemma divide_rest es sz : (es | sz) → es < sz → (es | sz - es) ∧ es ≤ sz - es.
Proof.
  intros Hd Hlt. assert (es | sz - es) by (apply Z.divide_sub_r; [done|by exists 1; lia]).
  split; [done|]. apply Z.divide_pos_le; [lia|done].
Qed.

(** Taking the front of a chunk off as one entry. *)
Lemma chunk_front a es sz :
  entry_size_ok es → chunk_ok es (a, sz) → es < sz →
  raw (a + 16) (sz - 16) ⊢ raw (a + 16) (es - 16) ∗
    next_chunk (a + es) ↦? ∗ size (a + es) ↦? ∗ raw (a + es + 16) (sz - es - 16).
Proof.
  intros Hes (Ha & Hs & Hsz) Hlt. simpl in *.
  destruct (entry_size_facts es Hes) as (? & [k Hk] & _).
  destruct (divide_rest es sz Hs Hlt) as [_ ?].
  replace (sz - 16) with ((es - 16) + (sz - es)) by lia.
  assert (8 | es - 16) by (exists (2 * k - 2); lia).
  rewrite raw_split; [|lia|lia|done].
  replace (a + 16 + (es - 16)) with (a + es) by lia.
  rewrite (raw_words (a + es)); [|lia]. iIntros "($ & $ & $ & $)".
Qed.

Lemma mpool_alloc_no_fallback_spec p es cs xs fb :
  {{ mpool p es cs xs fb }} mpool_alloc_no_fallback p
  {{ r, ⌜r = (alloc_abs es cs xs).1.1⌝ ∗
        mpool p es (alloc_abs es cs xs).1.2 (alloc_abs es cs xs).2 fb ∗
        if decide (r = NULL) then ⌜cs = [] ∧ xs = []⌝ else ⌜(es | r)⌝ ∗ raw r es }}.
Proof.
  triple_start. iIntros "(%c & %e & Hes & Hl & Hc & He & Hf & Hcs & Hxs & %Hok)".
  destruct Hok as (Hes & Hcok & Hxok). destruct (entry_size_facts es Hes) as (? & _ & _).
  unfold mpool_alloc_no_fallback.
  wp_call (sl_lock_spec (lock p)) with "Hl". iIntros (_) "Hl". wp_load.
  destruct xs as [|x xs].
  - iDestruct "Hxs" as "->". simpl. wp_load. destruct cs as [|[a sz] cs].
    + iDestruct "Hcs" as "->". wp_rets. wp_call (sl_unlock_spec (lock p)) with "Hl".
      iIntros (_) "Hl". wp_ret. iSplit; [done|]. iSplitL; [|by auto].
      iExists NULL, NULL. by iFrame.
    + iDestruct (chunks_not_null with "Hcs") as %[-> Hn].
      apply Forall_cons in Hcok as [Hc Hcok]. pose proof Hc as (Ha & Hs & Hsz); simpl in *.
      rewrite (proj2 (Z.eqb_neq a NULL)) //. iDestruct "Hcs" as "(_ & %nx & Hsz & Hnx & Hr & Hcs)".
      wp_load. wp_load. destruct (Z.leb_spec sz es).
      * assert (sz = es) as -> by lia. wp_steps.
        wp_call (sl_unlock_spec (lock p)) with "Hl". iIntros (_) "Hl". wp_ret.
        rewrite decide_False //. iSplit; [done|]. iSplitR "Hsz Hnx Hr".
        { iExists nx, NULL. by iFrame. }
        iSplit; [done|]. iApply (chunk_raw with "Hsz Hnx Hr"). lia.
      * rewrite (chunk_front a es sz) //. iDestruct "Hr" as "(Hr & [% Hn1] & [% Hn2] & Hr')".
        wp_steps. rewrite wrap_small; [|unfold in_unsigned; lia].
        wp_call (sl_unlock_spec (lock p)) with "Hl". iIntros (_) "Hl". wp_ret.
        rewrite decide_False //. iSplit; [done|]. iSplitR "Hsz Hnx Hr".
        { iExists (a + es), NULL. iFrame. iPureIntro. split_and!; try done.
          constructor; [|done]. destruct (divide_rest es sz Hs) as [? ?]; [lia|].
          split_and!; simpl; [by apply Z.divide_add_r|done|lia|lia]. }
        iSplit; [done|]. rewrite (raw_words a es); [|lia].
        iSplitL "Hsz"; [by iExists _|]. iSplitL "Hnx"; [by iExists _|done].
  - iDestruct (entries_not_null with "Hxs") as %[-> Hn]. simpl.
    iDestruct "Hxs" as "(_ & %nx & Hnx & Hr & Hxs)". apply Forall_cons in Hxok as [Hx Hxok].
    rewrite (proj2 (Z.eqb_neq x NULL)) //=. wp_steps.
    wp_call (sl_unlock_spec (lock p)) with "Hl". iIntros (_) "Hl". wp_ret.
    rewrite decide_False //. iSplit; [done|]. iSplitR "Hnx Hr".
    { iExists c, nx. by iFrame. }
    iSplit; [done|]. iApply (entry_raw with "Hnx Hr"). lia.
Qed.

(** ** Fallbacks *)

(** A pool with its contents. *)
Abbreviation pool := (Z * list (Z * Z) * list Z)%type.

(** Pools linked through their fallback pointers, starting at [p]. *)
Fixpoint pools (es p : Z) (ps : list pool) : hProp :=
  match ps with
  | [] => ⌜p = NULL⌝%I
  | (q, cs, xs) :: ps => (⌜p = q⌝ ∗ ∃ fb, mpool q es cs xs fb ∗ pools es fb ps)%I
  end.

(** Trying each pool of the chain in turn: [N] is why a pool could not serve
    the request, [R] what serving it does to the pool. *)
Inductive chain_step (N : list (Z * Z) → list Z → Prop)
    (R : list (Z * Z) → list Z → Z → list (Z * Z) → list Z → Prop) :
    list pool → Z → list pool → Prop :=
  | chain_none : chain_step N R [] NULL []
  | chain_here q cs xs r cs' xs' ps :
      r ≠ NULL → R cs xs r cs' xs' →
      chain_step N R ((q, cs, xs) :: ps) r ((q, cs', xs') :: ps)
  | chain_next q cs xs ps r ps' :
      N cs xs → chain_step N R ps r ps' →
      chain_step N R ((q, cs, xs) :: ps) r ((q, cs, xs) :: ps').

Lemma pools_not_null es p q cs xs ps : pools es p ((q, cs, xs) :: ps) ⊢ ⌜p = q ∧ q ≠ NULL⌝.
Proof.
  simpl. iIntros "(-> & %fb & (%c & %e & H & _) & _)".
  iDestruct (pointsto_not_null with "H") as %?. done.
Qed.

Section fallbacks.
Context (es : Z) (N : list (Z * Z) → list Z → Prop).
Context (R : list (Z * Z) → list Z → Z → list (Z * Z) → list Z → Prop) (Q : Z → hProp).
Context (f : Z → M heap Z) (B : list (Z * Z) → Prop).
Context (Hf : ∀ p cs xs fb, B cs →
  {{ mpool p es cs xs fb }} f p
  {{ r, ∃ cs' xs', mpool p es cs' xs' fb ∗
        if decide (r = NULL) then ⌜cs' = cs ∧ xs' = xs ∧ N cs xs⌝
        else ⌜R cs xs r cs' xs'⌝ ∗ Q r }}).

Lemma fallback_loop_spec ps : ∀ fuel p,
  (length ps < fuel)%nat → Forall (λ q, B q.1.2) ps →
  {{ pools es p ps }} fallback_loop fuel f p
  {{ r, ∃ ps', pools es p ps' ∗ ⌜chain_step N R ps r ps'⌝ ∗
        if decide (r = NULL) then emp else Q r }}.
Proof.
  induction ps as [|[[q cs] xs] ps IH]; intros [|fuel] p Hlt Hb; simpl in Hlt; try lia.
  - triple_start. iIntros "->". simpl. wp_ret. iExists []. iSplit; [done|].
    iSplit; [iPureIntro; constructor|done].
  - triple_start. iIntros "H". iDestruct (pools_not_null with "H") as %[-> Hn].
    apply Forall_cons in Hb as [Hb1 Hb].
    iDestruct "H" as "(_ & %fb & Hq & Hps)". simpl. rewrite (proj2 (Z.eqb_neq q NULL)) //.
    wp_call (Hf q cs xs fb Hb1) with "Hq". iIntros (r) "(%cs' & %xs' & Hq & HQ)".
    destruct (Z.eqb_spec r NULL) as [->|Hr]; simpl.
    + iDestruct "HQ" as %(-> & -> & HN).
      iDestruct "Hq" as (c e) "(Hes & Hl & Hc & He & Hfb & Hq)". wp_load.
      wp_call (IH fuel fb (ltac:(lia)) Hb) with "Hps". iIntros (v) "(%ps' & Hps & %Hch & $)".
      iExists ((q, cs, xs) :: ps'). iSplitL; [|iPureIntro; by constructor].
      iSplit; [done|]. iExists fb. iFrame.
    + wp_ret. rewrite !decide_False //. iDestruct "HQ" as "[%HR $]".
      iExists ((q, cs', xs') :: ps). iSplitL; [|iPureIntro; by constructor]. by iFrame.
Qed.

(** Both allocators with fallback unroll the first turn of the loop. *)
Lemma first_turn_spec p cs xs ps fuel :
  (length ps < fuel)%nat → Forall (λ q, B q.1.2) ((p, cs, xs) :: ps) →
  {{ pools es p ((p, cs, xs) :: ps) }}
    ret ← f p;
    if negb (ret =? NULL) then mret ret else
    p ← load (fallback p);
    fallback_loop fuel f p
  {{ r, ∃ ps', pools es p ps' ∗ ⌜chain_step N R ((p, cs, xs) :: ps) r ps'⌝ ∗
        if decide (r = NULL) then emp else Q r }}.
Proof.
  intros Hlt Hb. triple_start. iIntros "H".
  iDestruct (pools_not_null with "H") as %[_ Hn].
  iPoseProof (fallback_loop_spec ((p, cs, xs) :: ps) (S fuel) p with "H") as "H";
    [simpl; lia|done|].
  iEval (cbn [fallback_loop]) in "H". by rewrite (proj2 (Z.eqb_neq p NULL)).
Qed.
End fallbacks.

(** How many entries a chain of pools can hand out. *)
Definition pools_total (es : Z) (ps : list pool) : Z :=
  foldr (λ q n, total es q.1.2 q.2 + n) 0 ps.

Lemma chain_step_total N R es k ps r ps' :
  chain_step N R ps r ps' →
  (∀ cs xs r cs' xs', R cs xs r cs' xs' → total es cs' xs' = total es cs xs - k) →
  pools_total es ps' = pools_total es ps - (if decide (r = NULL) then 0 else k).
Proof.
  intros Hc HR. unfold pools_total. induction Hc as [|q cs xs r cs' xs' ps Hr H|]; simpl.
  - done.
  - apply HR in H. rewrite decide_False //. lia.
  - lia.
Qed.

Lemma chain_step_null N R ps r ps' :
  chain_step N R ps r ps' → r = NULL → ps' = ps ∧ Forall (λ q, N q.1.2 q.2) ps.
Proof. induction 1; intros ?; [done|done|]. destruct IHchain_step as [-> ?]; auto. Qed.

(** ** Contiguous allocation *)
Section contiguous_spec.
Context `{!RoundPointerUp}.

(** What a contiguous allocation of [n] bytes at alignment [al] does to the
    chunks: the first chunk that fits is cut in up to three pieces. *)
Fixpoint contig_abs (es n al : Z) (cs : list (Z * Z)) : Z * list (Z * Z) :=
  match cs with
  | [] => (NULL, [])
  | (a, sz) :: cs =>
      let before := round_pointer_up a al in
      if before + n <=? sz then
        (a + before,
         (if es <=? before then [(a, before)] else []) ++
         (if before + n =? sz then [] else [(a + before + n, sz - (before + n))]) ++ cs)
      else
        let '(r, cs') := contig_abs es n al cs in (r, (a, sz) :: cs')
  end.

(** No chunk has room for the allocation. *)
Definition no_room (n al : Z) (cs : list (Z * Z)) : Prop :=
  Forall (λ c, c.2 < round_pointer_up c.1 al + n) cs.

Lemma chunk_cut a es sz before n :
  entry_size_ok es → 0 ≤ before → (es | before) → 0 < n → (es | n) → before + n ≤ sz →
  raw a sz ⊢ raw a before ∗ raw (a + before) n ∗ raw (a + before + n) (sz - (before + n)).
Proof.
  intros Hes Hb Hbd Hn Hnd Hle. destruct (entry_size_facts es Hes) as (_ & _ & H8).
  replace sz with (before + (n + (sz - (before + n)))) at 1 by lia.
  rewrite raw_split; [|lia|lia|by etrans]. rewrite raw_split; [done|lia|lia|by etrans].
Qed.

Lemma before_divides es al a : (es | al) → 0 < al → (es | a) → (es | round_pointer_up a al).
Proof.
  intros H1 H2 H3. apply (Z.divide_add_cancel_r es a); [done|].
  trans al; [done|]. by apply round_pointer_up_aligned.
Qed.

Lemma raw_chunk_cells a n :
  16 ≤ n → raw a n ⊢ size a ↦? ∗ next_chunk a ↦? ∗ raw (a + 16) (n - 16).
Proof. intros ?. by rewrite raw_words. Qed.

(** Adding back the space before the aligned start. *)
Lemma add_back_spec es prev q a before cs :
  16 ≤ es →
  {{ prev ↦ q ∗ chunks q cs ∗ raw a before }}
    if es <=? before then
      q ← load prev;
      store (next_chunk a) q ;;
      store prev a ;;
      store (size a) before
    else mret tt
  {{ _, ∃ c, prev ↦ c ∗ chunks c ((if es <=? before then [(a, before)] else []) ++ cs) }}.
Proof.
  intros Hes. triple_start. iIntros "(Hp & Hcs & Hr)". destruct (Z.leb_spec es before).
  - rewrite raw_chunk_cells; [|lia]. iDestruct "Hr" as "([% H1] & [% H2] & Hr)". wp_steps.
    iExists a. by iFrame.
  - wp_rets. iExists q. by iFrame.
Qed.

Lemma contiguous_loop_spec p es count al cs : ∀ fuel prev,
  entry_size_ok es → (length cs < fuel)%nat → Forall (chunk_ok es) cs →
  0 < count → (es | al) → 0 < al → al + count * es < 2 ^ 64 →
  {{ entry_size p ↦ es ∗ ∃ c, prev ↦ c ∗ chunks c cs }}
    contiguous_loop fuel p count al prev
  {{ r, ⌜r = (contig_abs es (count * es) al cs).1⌝ ∗ entry_size p ↦ es ∗
        (∃ c, prev ↦ c ∗ chunks c (contig_abs es (count * es) al cs).2) ∗
        if decide (r = NULL)
        then ⌜(contig_abs es (count * es) al cs).2 = cs ∧ no_room (count * es) al cs⌝
        else ⌜(al | r)⌝ ∗ raw r (count * es) }}.
Proof.
  induction cs as [|[a sz] cs IH];
    intros [|fuel] prev Hes Hfuel Hcs Hcount Hal Hal0 Hov; simpl in Hfuel; try lia.
  - triple_start. iIntros "(Hes & %c & Hp & ->)". simpl. wp_load.
    iSplit; [done|]. iFrame. iSplit; [done|]. iPureIntro. split; [done|]. constructor.
  - destruct (entry_size_facts es Hes) as (Hesr & _ & _).
    apply Forall_cons in Hcs as [(Ha & Hs & Hsz) Hcs]. simpl in Ha, Hs, Hsz.
    pose proof (before_divides es al a Hal Hal0 Ha) as Hbd.
    pose proof (round_pointer_up_range a al Hal0) as Hbr.
    pose proof (round_pointer_up_aligned a al Hal0) as Hba.
    assert (es ≤ count * es) as Hn by nia.
    triple_start. iIntros "(Hes & %c & Hp & Hcs)".
    iDestruct (chunks_not_null with "Hcs") as %[-> Hnn].
    iDestruct "Hcs" as "(_ & %nx & Hsz & Hnx & Hr & Hcs)".
    cbn [contiguous_loop contig_abs]. set (before := round_pointer_up a al) in *.
    wp_load. rewrite (proj2 (Z.eqb_neq a NULL)) //. wp_load. wp_load.
    rewrite (wrap_small 64 (count * es)); [|unfold in_unsigned; lia].
    rewrite (wrap_small 64 (before + count * es)); [|unfold in_unsigned; lia].
    destruct (Z.leb_spec (before + count * es) sz) as [Hfit|Hno]; simpl.
    + wp_load. wp_load. wp_load.
      rewrite (wrap_small 64 (count * es)); [|unfold in_unsigned; lia].
      rewrite (wrap_small 64 (before + count * es)); [|unfold in_unsigned; lia].
      iDestruct (chunk_raw with "Hsz Hnx Hr") as "Hr"; [lia|].
      iDestruct (chunk_cut a es sz before (count * es) with "Hr") as "(Hb & Hr & Hrest)";
        [done|lia|done|lia|by apply Z.divide_factor_r|done|].
      iDestruct (raw_not_null with "Hr") as %Hr; [lia|].
      destruct (Z.eqb_spec (before + count * es) sz) as [Hexact|Hmore].
      * wp_store. wp_load.
        wp_call (add_back_spec es prev nx a before cs (proj1 Hesr)) with "[$Hp $Hcs $Hb]".
        iIntros (r) "Hp". wp_ret. iFrame "Hes Hp". rewrite decide_False //. by iFrame.
      * assert (es ≤ sz - (before + count * es)) as Hrest.
        { apply Z.divide_pos_le; [lia|]. apply Z.divide_sub_r; [done|].
          apply Z.divide_add_r; [done|by apply Z.divide_factor_r]. }
        iDestruct (raw_chunk_cells with "Hrest") as "([% H1] & [% H2] & Hrest)"; [lia|].
        wp_load. rewrite (wrap_small 64 (count * es)); [|unfold in_unsigned; lia].
        rewrite (wrap_small 64 (before + count * es)); [|unfold in_unsigned; lia].
        rewrite (wrap_small 64 (sz - _)); [|unfold in_unsigned; lia].
        wp_store. wp_store. wp_store. wp_load.
        wp_call (add_back_spec es prev (a + before + count * es) a before
          ((a + before + count * es, sz - (before + count * es)) :: cs) (proj1 Hesr))
          with "[$Hp H1 H2 Hrest Hcs $Hb]"; [by iFrame|].
        iIntros (r) "Hp". wp_ret. iFrame "Hes Hp". rewrite decide_False //. by iFrame.
    + assert (length cs < fuel)%nat as Hlt by lia.
      specialize (IH fuel (next_chunk a) Hes Hlt Hcs Hcount Hal Hal0 Hov).
      destruct (contig_abs es (count * es) al cs) as [r cs']. simpl in *.
      wp_call IH with "[$Hes Hnx Hcs]"; [by iExists nx; iFrame|].
      iIntros (v) "(-> & $ & (%c & Hnx & Hcs) & Hv)". iSplit; [done|].
      iSplitL "Hp Hsz Hnx Hr Hcs"; [iExists a; by iFrame|]. case_decide; [|done].
      iDestruct "Hv" as %[-> ?]. iPureIntro. split; [done|]. by constructor.
Qed.

Lemma contig_abs_ok es n al cs :
  entry_size_ok es → Forall (chunk_ok es) cs → 0 < n → (es | n) → (es | al) → 0 < al →
  Forall (chunk_ok es) (contig_abs es n al cs).2.
Proof.
  intros Hes Hcs Hn Hnd Hal Hal0. destruct (entry_size_facts es Hes) as (? & _ & _).
  induction Hcs as [|[a sz] cs Hc Hcs IH]; [constructor|]. pose proof Hc as (Ha & Hs & Hsz).
  simpl in *. pose proof (before_divides es al a Hal Hal0 Ha) as Hbd.
  pose proof (round_pointer_up_range a al Hal0). set (before := round_pointer_up a al) in *.
  destruct (Z.leb_spec (before + n) sz) as [Hfit|]; simpl.
  - apply Forall_app. split; [|apply Forall_app; split; [|done]].
    + destruct (Z.leb_spec es before); [|done]. constructor; [|done].
      split_and!; simpl; [done|done|lia|lia].
    + destruct (Z.eqb_spec (before + n) sz); [done|]. constructor; [|done].
      assert (es | sz - (before + n)).
      { apply Z.divide_sub_r; [done|]. by apply Z.divide_add_r. }
      split_and!; simpl; [repeat apply Z.divide_add_r; done|done| |lia].
      apply Z.divide_pos_le; [lia|done].
  - destruct (contig_abs es n al cs). simpl in *. by constructor.
Qed.

Lemma divide_sum_div es a b : 0 < es → (es | a) → (a + b) / es = a / es + b / es.
Proof. intros Hes [k ->]. rewrite Z.div_add_l; [|lia]. by rewrite Z.div_mul; [|lia]. Qed.

(** A contiguous allocation takes exactly its entries out of the pool. *)
Lemma contig_abs_total es count al cs xs :
  entry_size_ok es → Forall (chunk_ok es) cs → 0 < count → (es | al) → 0 < al →
  (contig_abs es (count * es) al cs).1 ≠ NULL →
  total es (contig_abs es (count * es) al cs).2 xs = total es cs xs - count.
Proof.
  intros Hes Hcs Hn Hal Hal0. destruct (entry_size_facts es Hes) as (? & _ & _).
  unfold total. induction Hcs as [|[a sz] cs (Ha & Hs & Hsz) Hcs IH]; [done|]. simpl in *.
  pose proof (before_divides es al a Hal Hal0 Ha) as Hbd.
  pose proof (round_pointer_up_range a al Hal0). set (before := round_pointer_up a al) in *.
  destruct (Z.leb_spec (before + count * es) sz) as [Hfit|]; simpl; intros Hr.
  - assert (sz / es = before / es + (count + (sz - (before + count * es)) / es)) as ->.
    { rewrite -{1}(Z.div_mul count es); [|lia].
      rewrite -divide_sum_div; [|lia|by apply Z.divide_factor_r].
      rewrite -divide_sum_div; [|lia|done]. f_equal. lia. }
    destruct (Z.leb_spec es before); [|rewrite (Z.div_small before); [|lia]];
      (destruct (Z.eqb_spec (before + count * es) sz) as [E|];
        [rewrite E Z.sub_diag Zdiv_0_l|]; simpl; lia).
  - destruct (contig_abs es (count * es) al cs). simpl in *. specialize (IH Hr). lia.
Qed.

Lemma mpool_alloc_contiguous_no_fallback_spec p es cs xs fb fuel count align :
  (length cs < fuel)%nat → 0 < count → 0 < align → align * es + count * es < 2 ^ 64 →
  {{ mpool p es cs xs fb }} mpool_alloc_contiguous_no_fallback fuel count align p
  {{ r, ∃ cs' xs', mpool p es cs' xs' fb ∗
        if decide (r = NULL) then ⌜cs' = cs ∧ xs' = xs ∧ no_room (count * es) (align * es) cs⌝
        else ⌜(contig_abs es (count * es) (align * es) cs = (r, cs') ∧ xs' = xs) ∧
              total es cs' xs' = total es cs xs - count⌝ ∗
             ⌜(align * es | r)⌝ ∗ raw r (count * es) }}.
Proof.
  intros Hfuel Hc Hal Hov. triple_start.
  iIntros "(%c & %e & Hes & Hl & Hc & He & Hf & Hcs & Hxs & %Hes & %Hcok & %Hxok)".
  destruct (entry_size_facts es Hes) as (? & _ & _).
  unfold mpool_alloc_contiguous_no_fallback. wp_load.
  rewrite (wrap_small 64 (align * es)); [|unfold in_unsigned; nia].
  wp_call (sl_lock_spec (lock p)) with "Hl". iIntros (_) "Hl".
  wp_call (contiguous_loop_spec p es count (align * es) cs fuel (chunk_list p)
    Hes Hfuel Hcok Hc (Z.divide_factor_r _ _) (ltac:(nia)) Hov) with "[$Hes Hc Hcs]";
    [iExists c; iFrame|].
  iIntros (r) "(-> & Hes & (%c' & Hc & Hcs) & Hr)".
  wp_call (sl_unlock_spec (lock p)) with "Hl". iIntros (_) "Hl". wp_ret.
  pose proof (contig_abs_total es count (align * es) cs xs Hes Hcok Hc
    (Z.divide_factor_r _ _) (ltac:(nia))) as Ht.
  pose proof (contig_abs_ok es (count * es) (align * es) cs Hes Hcok (ltac:(nia))
    (Z.divide_factor_r _ _) (Z.divide_factor_r _ _) (ltac:(nia))) as Hok.
  destruct (contig_abs es (count * es) (align * es) cs) as [r cs']. simpl in *.
  iExists cs', xs. iSplitR "Hr"; [iExists c', e; by iFrame|].
  case_decide as Hn; [iDestruct "Hr" as %[-> ?]; done|]. iFrame. iPureIntro. auto.
Qed.

End contiguous_spec.

(** ** Single allocations through the fallbacks *)

Lemma alloc_abs_total es cs xs :
  entry_size_ok es → Forall (chunk_ok es) cs → (alloc_abs es cs xs).1.1 ≠ NULL →
  total es (alloc_abs es cs xs).1.2 (alloc_abs es cs xs).2 = total es cs xs - 1.
Proof.
  intros Hes Hcs. destruct (entry_size_facts es Hes) as (? & _ & _). unfold total.
  destruct xs as [|x xs]; simpl; [|lia].
  destruct Hcs as [|[a sz] cs (Ha & Hs & Hsz) Hcs]; [done|]. intros _. simpl in *.
  destruct (Z.leb_spec sz es); simpl.
  - assert (sz = es) as -> by lia. rewrite Z.div_same; lia.
  - destruct (divide_rest es sz Hs) as [? ?]; [lia|].
    assert (sz / es = 1 + (sz - es) / es); [|lia].
    rewrite -(Z.div_same es); [|lia]. rewrite -divide_sum_div; [f_equal|..]; lia || done.
Qed.

Lemma mpool_alloc_no_fallback_chain p es cs xs fb :
  {{ mpool p es cs xs fb }} mpool_alloc_no_fallback p
  {{ r, ∃ cs' xs', mpool p es cs' xs' fb ∗
        if decide (r = NULL) then ⌜cs' = cs ∧ xs' = xs ∧ cs = [] ∧ xs = []⌝
        else ⌜alloc_abs es cs xs = (r, cs', xs') ∧
              total es cs' xs' = total es cs xs - 1⌝ ∗ ⌜(es | r)⌝ ∗ raw r es }}.
Proof.
  triple_start. iIntros "H".
  iAssert ⌜entry_size_ok es ∧ Forall (chunk_ok es) cs⌝%I as %[Hes Hcs].
  { iDestruct "H" as (c e) "(_ & _ & _ & _ & _ & _ & _ & %Hok)". naive_solver. }
  pose proof (alloc_abs_total es cs xs Hes Hcs) as Ht.
  iApply (wp_triple _ _ _ _ (mpool_alloc_no_fallback_spec p es cs xs fb) with "H").
  iIntros (r) "(-> & H & Hr)". iExists _, _. iFrame "H".
  destruct (alloc_abs es cs xs) as [[r cs'] xs'] eqn:E. simpl in *.
  case_decide; [|iFrame; iPureIntro; auto].
  iDestruct "Hr" as %[-> ->]. simpl in E. by simplify_eq.
Qed.

(** C10. [mpool_alloc] on a pool with its chain of fallbacks: the first pool of
    the chain that has free memory hands out one entry (a free entry, else the
    front of its first chunk), aligned and of the entry size, which is no
    longer part of any pool; the other pools are unchanged and the chain has
    exactly one entry less.  [NULL] is returned only when the whole chain is
    exhausted. *)
Theorem mpool_alloc_hands_out_one_entry es p cs xs ps fuel :
  (length ps < fuel)%nat →
  {{ pools es p ((p, cs, xs) :: ps) }} mpool_alloc fuel p
  {{ r, ∃ ps', pools es p ps' ∗
        ⌜chain_step (λ cs xs, cs = [] ∧ xs = [])
           (λ cs xs r cs' xs', alloc_abs es cs xs = (r, cs', xs') ∧
              total es cs' xs' = total es cs xs - 1) ((p, cs, xs) :: ps) r ps'⌝ ∗
        ⌜pools_total es ps' =
           pools_total es ((p, cs, xs) :: ps) - (if decide (r = NULL) then 0 else 1)⌝ ∗
        if decide (r = NULL) then ⌜pools_total es ((p, cs, xs) :: ps) = 0⌝
        else ⌜(es | r)⌝ ∗ raw r es }}.
Proof.
  intros Hfuel. triple_start. iIntros "H". unfold mpool_alloc.
  iApply (wp_triple _ _ _ _ (first_turn_spec es _ _ (λ r, ⌜(es | r)⌝ ∗ raw r es)%I _
    (λ _, True) (λ p cs xs fb _, mpool_alloc_no_fallback_chain p es cs xs fb)
    p cs xs ps fuel Hfuel (proj2 (Forall_forall _ _) (λ _ _, I))) with "H").
  iIntros (r) "(%ps' & H & %Hch & Hr)". iExists ps'. iFrame "H".
  iSplit; [done|]. iSplit; [iPureIntro; eapply chain_step_total; naive_solver|].
  case_decide; [|done]. apply chain_step_null in Hch as [_ Hch]; [|done]. iPureIntro.
  unfold pools_total. induction Hch as [|q qs [E1 E2] _ IH]; [done|].
  simpl. rewrite IH E1 E2. done.
Qed.


(** A pool at 256 with one free chunk of two entries at 1024, and an empty
    pool at 512 that falls back to it, both with entries of 16 bytes. *)
Definition example_memory : list (Z * option Z) :=
  [(512, Some 16); (520, Some 0); (528, Some 0); (536, Some 0); (544, Some 256);
   (256, Some 16); (264, Some 0); (272, Some 1024); (280, Some 0); (288, Some 0);
   (1024, Some 32); (1032, Some 0); (1040, None); (1048, None)].

Lemma example_pools : cells example_memory ⊢ pools 16 512 [(512, [], []); (256, [(1024, 32)], [])].
Proof.
  unfold cells, example_memory. simpl.
  iIntros "(H1 & H2 & H3 & H4 & H5 & H6 & H7 & H8 & H9 & H10 & H11 & H12 & H13 & H14 & _)".
  assert (entry_size_ok 16) by (exists 4; lia).
  iSplit; [done|]. iExists 256. iSplitL "H1 H2 H3 H4 H5".
  { iExists 0, 0. by iFrame. }
  iSplit; [done|]. iExists 0. iSplit; [|done]. iExists 1024, 0. iFrame. iSplit.
  { by repeat iSplit. }
  iPureIntro. split_and!; [done|done| |constructor]. constructor; [|constructor].
  split_and!; simpl; [by exists 64|by exists 2|lia|lia].
Qed.

Lemma mpool_alloc_hands_out_one_entry_witness :
  ∃ r h', mpool_alloc 2 512 (list_to_map example_memory) = Ok r h' ∧ r = 1024.
Proof.
  destruct (triple_run_cells _ _ _ example_memory
    (mpool_alloc_hands_out_one_entry 16 512 [] [] [(256, [(1024, 32)], [])] 2 (ltac:(simpl; lia))))
    as (r & h' & Hrun & _).
  - by apply (bool_decide_eq_true_1 _).
  - by apply (bool_decide_eq_true_1 _).
  - apply example_pools.
  - exists r, h'. split; [done|]. revert Hrun. vm_compute. by intros [= <- _].
Defined.

(** ** Contiguous allocations through the fallbacks *)

(** C29. [mpool_alloc_contiguous] on a pool with its chain of fallbacks: the
    first chunk of the first pool with room for [count] entries at the
    requested alignment is cut, what lies before and after the allocation stays
    in the pool, exactly [count] entries leave it, and the block returned is
    aligned and in no pool.  [NULL] is returned only when no chunk of the chain
    has room, and then nothing has changed. *)
Theorem mpool_alloc_contiguous_cuts_a_chunk `{!RoundPointerUp} es p cs xs ps fuel count align :
  (length ps < fuel)%nat → Forall (λ q : pool, (length q.1.2 < fuel)%nat) ((p, cs, xs) :: ps) →
  0 < count → 0 < align → align * es + count * es < 2 ^ 64 →
  {{ pools es p ((p, cs, xs) :: ps) }} mpool_alloc_contiguous fuel p count align
  {{ r, ∃ ps', pools es p ps' ∗
        ⌜chain_step (λ cs _, no_room (count * es) (align * es) cs)
           (λ cs xs r cs' xs',
              (contig_abs es (count * es) (align * es) cs = (r, cs') ∧ xs' = xs) ∧
              total es cs' xs' = total es cs xs - count) ((p, cs, xs) :: ps) r ps'⌝ ∗
        ⌜pools_total es ps' =
           pools_total es ((p, cs, xs) :: ps) - (if decide (r = NULL) then 0 else count)⌝ ∗
        if decide (r = NULL) then ⌜ps' = (p, cs, xs) :: ps⌝
        else ⌜(align * es | r)⌝ ∗ raw r (count * es) }}.
Proof.
  intros Hfuel Hlen Hc Hal Hov. triple_start. iIntros "H". unfold mpool_alloc_contiguous.
  iApply (wp_triple _ _ _ _ (first_turn_spec es _ _
    (λ r, ⌜(align * es | r)⌝ ∗ raw r (count * es))%I _ (λ cs, (length cs < fuel)%nat)
    (λ p cs xs fb Hl, mpool_alloc_contiguous_no_fallback_spec p es cs xs fb fuel count align
       Hl Hc Hal Hov)
    p cs xs ps fuel Hfuel Hlen) with "H").
  iIntros (r) "(%ps' & H & %Hch & Hr)". iExists ps'. iFrame "H".
  iSplit; [done|]. iSplit; [iPureIntro; eapply chain_step_total; naive_solver|].
  case_decide; [|done]. by apply chain_step_null in Hch as [-> _].
Qed.

(** Rounding up as the arithmetic says. *)
Definition round_up_arith : RoundPointerUp.
Proof.
  refine {| round_pointer_up p align := (- p) mod align |}.
  - intros p al Hal. by apply Z.mod_pos_bound.
  - intros p al Hal. apply Z.mod_divide; [lia|].
    rewrite Z.add_mod_idemp_r; [|lia]. by rewrite Z.add_opp_diag_r.
Defined.

Lemma mpool_alloc_contiguous_cuts_a_chunk_witness :
  ∃ r h', @mpool_alloc_contiguous round_up_arith 2 512 1 2 (list_to_map example_memory) =
            Ok r h' ∧ r = 1024.
Proof.
  destruct (triple_run_cells _ _ _ example_memory
    (@mpool_alloc_contiguous_cuts_a_chunk round_up_arith 16 512 [] [] [(256, [(1024, 32)], [])]
       2 1 2 (ltac:(simpl; lia)) (ltac:(repeat constructor)) (ltac:(lia)) (ltac:(lia))
       (ltac:(lia)))) as (r & h' & Hrun & _).
  - by apply (bool_decide_eq_true_1 _).
  - by apply (bool_decide_eq_true_1 _).
  - apply example_pools.
  - exists r, h'. split; [done|]. revert Hrun. vm_compute. by intros [= <- _].
Defined.

(** ** Emptying a pool *)

Lemma free_entries_spec p es q fcs fb xs : ∀ fuel e fxs,
  (length xs < fuel)%nat → Forall (Z.divide es) xs → 16 ≤ es →
  {{ fallback p ↦ q ∗ mpool q es fcs fxs fb ∗ entries es e xs }} free_entries fuel p e
  {{ _, fallback p ↦ q ∗ mpool q es fcs (reverse xs ++ fxs) fb }}.
Proof.
  induction xs as [|x xs IH]; intros [|fuel] e fxs Hlt Hx Hes; simpl in Hlt; try lia.
  - triple_start. iIntros "(Hf & Hq & ->)". simpl. wp_ret. iFrame.
  - triple_start. iIntros "(Hf & Hq & Hxs)". apply Forall_cons in Hx as [Hx Hxs].
    iDestruct (entries_not_null with "Hxs") as %[-> Hn].
    iDestruct "Hxs" as "(_ & %nx & Hnx & Hr & Hxs)". simpl.
    rewrite (proj2 (Z.eqb_neq x NULL)) //. wp_load. wp_load.
    iDestruct (entry_raw with "Hnx Hr") as "Hr"; [lia|].
    wp_call (mpool_free_spec q es fcs fxs fb x Hx) with "[$Hq $Hr]". iIntros (_) "Hq".
    wp_call (IH fuel nx (x :: fxs) (ltac:(lia)) Hxs Hes) with "[$Hf $Hq $Hxs]".
    iIntros (_) "[$ Hq]". by rewrite reverse_cons -assoc.
Qed.

Lemma free_chunks_spec p es q fxs fb cs : ∀ fuel c fcs,
  (length cs < fuel)%nat → Forall (chunk_ok es) cs → 16 ≤ es →
  {{ fallback p ↦ q ∗ mpool q es fcs fxs fb ∗ chunks c cs }} free_chunks fuel p c
  {{ _, fallback p ↦ q ∗ mpool q es (reverse cs ++ fcs) fxs fb }}.
Proof.
  induction cs as [|[a sz] cs IH]; intros [|fuel] c fcs Hlt Hx Hes; simpl in Hlt; try lia.
  - triple_start. iIntros "(Hf & Hq & ->)". simpl. wp_ret. iFrame.
  - triple_start. iIntros "(Hf & Hq & Hcs)". apply Forall_cons in Hx as [(Ha & Hs & Hsz) Hxs].
    simpl in Ha, Hs, Hsz. iDestruct (chunks_not_null with "Hcs") as %[-> Hn].
    iDestruct "Hcs" as "(_ & %nx & H1 & H2 & Hr & Hcs)". simpl.
    rewrite (proj2 (Z.eqb_neq a NULL)) //. wp_load. wp_load. wp_load.
    iDestruct (chunk_raw with "H1 H2 Hr") as "Hr"; [lia|].
    wp_call (mpool_add_chunk_spec q es fcs fxs fb a sz Ha Hs (ltac:(lia))) with "[$Hq $Hr]".
    iIntros (b) "[_ Hq]". rewrite decide_True; [|lia].
    wp_call (IH fuel nx ((a, sz) :: fcs) (ltac:(lia)) Hxs Hes) with "[$Hf $Hq $Hcs]".
    iIntros (_) "[$ Hq]". by rewrite reverse_cons -assoc.
Qed.

(** [mpool_fini] gives everything back: with a fallback, every free entry
    and every chunk of the pool is in the fallback afterwards (in front of
    what it had, last first), the pool is left empty and without a fallback;
    without one the pool keeps its memory. *)
Theorem mpool_fini_returns_everything es p cs xs ps fuel :
  (length cs < fuel)%nat → (length xs < fuel)%nat →
  {{ pools es p ((p, cs, xs) :: ps) }} mpool_fini fuel p
  {{ _, match ps with
        | [] => pools es p [(p, cs, xs)]
        | (q, fcs, fxs) :: ps =>
            mpool p es [] [] NULL ∗
            pools es q ((q, reverse cs ++ fcs, reverse xs ++ fxs) :: ps)
        end }}.
Proof.
  intros Hcs Hxs. triple_start. iIntros "H". simpl. iDestruct "H" as "(_ & %fb & Hp & Hps)".
  iDestruct "Hp" as (c e) "(Hes & Hl & Hc & He & Hf & Hcs & Hxs & %Hes & %Hcok & %Hxok)".
  destruct (entry_size_facts es Hes) as (? & _ & _). unfold mpool_fini. wp_load.
  destruct ps as [|[[q fcs] fxs] ps].
  - iDestruct "Hps" as %->. simpl. wp_rets. iSplit; [done|]. iExists NULL. iSplit; [|done].
    iExists c, e. by iFrame.
  - iDestruct (pools_not_null with "Hps") as %[-> Hq]. simpl.
    iDestruct "Hps" as "(_ & %fb & Hq & Hps)". rewrite (proj2 (Z.eqb_neq q NULL)) //.
    wp_load. wp_load.
    wp_call (free_entries_spec p es q fcs fb xs fuel e fxs Hxs Hxok (ltac:(lia)))
      with "[$Hf $Hq $Hxs]". iIntros (_) "[Hf Hq]".
    wp_call (free_chunks_spec p es q (reverse xs ++ fxs) fb cs fuel c fcs Hcs Hcok (ltac:(lia)))
      with "[$Hf $Hq $Hcs]". iIntros (_) "[Hf Hq]". wp_steps.
    iSplitR "Hq Hps"; [|by iFrame]. iExists NULL, NULL. iFrame. by auto.
Qed.

(** The pool of [example_memory] with the chunk falling back to the empty one. *)
Definition example_memory2 : list (Z * option Z) :=
  [(512, Some 16); (520, Some 0); (528, Some 0); (536, Some 0); (544, Some 0);
   (256, Some 16); (264, Some 0); (272, Some 1024); (280, Some 0); (288, Some 512);
   (1024, Some 32); (1032, Some 0); (1040, None); (1048, None)].

Lemma mpool_fini_returns_everything_witness :
  ∃ h', mpool_fini 2 256 (list_to_map example_memory2) = Ok tt h' ∧
        h' !! 528 = Some (Some 1024) ∧ h' !! 272 = Some (Some 0).
Proof.
  destruct (triple_run_cells _ _ _ example_memory2
    (mpool_fini_returns_everything 16 256 [(1024, 32)] [] [(512, [], [])] 2
       (ltac:(simpl; lia)) (ltac:(simpl; lia)))) as ([] & h' & Hrun & _).
  - by apply (bool_decide_eq_true_1 _).
  - by apply (bool_decide_eq_true_1 _).
  - unfold cells, example_memory2. simpl.
    iIntros "(H1 & H2 & H3 & H4 & H5 & H6 & H7 & H8 & H9 & H10 & H11 & H12 & H13 & H14 & _)".
    assert (entry_size_ok 16) by (exists 4; lia).
    iSplit; [done|]. iExists 512. iSplitR "H1 H2 H3 H4 H5".
    + iExists 1024, 0. iFrame. iSplit; [by repeat iSplit|].
      iPureIntro. split_and!; [done|done| |constructor]. constructor; [|constructor].
      split_and!; simpl; [by exists 64|by exists 2|lia|lia].
    + iSplit; [done|]. iExists 0. iSplit; [|done]. iExists 0, 0. by iFrame.
  - exists h'. split; [done|]. revert Hrun. vm_compute. by intros [= <-].
Defined.

End Mpool.
