(* ===== verification/MessageQueue.v ===== *)
(** * Messages and priority bitmaps of the scheduler
    (src/examples/scheduler/include/fdsched/message.h and priority.h)

    A [struct message] at [m] keeps its type at [m], its length at [m + 8], the
    pointer of the embedded list at [m + 16] and its bytes from [m + 24] on.
    A [struct message_queue] at [q] keeps the first message at [q] and, at
    [q + 8], the address of the pointer that ends the list, which is either a
    [next] member of a message or [q] itself. *)
From S2P Require Import Prelude HeapLogic.
From stdpp Require Import gmap list.
From iris.proofmode Require Import proofmode.
#[local] Open Scope Z_scope.

Module MessageQueue.

(** ** message.h *)

Definition NUM_MESSAGE_TYPES : Z := 256.
(** A page less the sizes of the other three members. *)
Definition MAX_MESSAGE_LEN : Z := 4096 - 1 - 8 - 8.

Definition type (m : Z) : Z := m.
Definition len (m : Z) : Z := m + 8.
Definition mnext (m : Z) : Z := m + 16.
Definition data (m : Z) : Z := m + 24.

Definition message_layout : layout :=
  Layout 4104 (0 :: 8 :: 16 :: seqZ 24 MAX_MESSAGE_LEN).

Definition first (q : Z) : Z := q.
Definition last (q : Z) : Z := q + 8.

Definition message_queue_add (q msg : Z) : M heap unit :=
  store (mnext msg) NULL ;;
  l ← load (last q);
  store l msg ;;
  store (last q) (mnext msg).

Definition message_queue_empty (q : Z) : M heap bool :=
  f ← load (first q);
  mret (f =? NULL).

Definition message_queue_remove (q : Z) : M heap Z :=
  e ← message_queue_empty q;
  c_assert (negb e) ;;
  head ← load (first q);
  n ← load (mnext head);
  (if n =? NULL then
     store (first q) NULL ;;
     store (last q) (first q)
   else
     n ← load (mnext head);
     store (first q) n) ;;
  mret head.

Arguments type : simpl never.
Arguments len : simpl never.
Arguments mnext : simpl never.
Arguments data : simpl never.
Arguments first : simpl never.
Arguments last : simpl never.

(** ** priority.h *)

Definition NUM_PRIORITIES : Z := 256.

(** [bm->bits[i]] *)
Definition bits (bm i : Z) : Z := bm + 8 * i.

Fixpoint init_loop (n : nat) (bm lvl : Z) : M heap unit :=
  match n with
  | O => mret tt
  | S n => store (bits bm lvl) 0 ;; init_loop n bm (lvl + 1)
  end.
(** The loop runs for [lvl] = 0, ..., 3. *)
Definition prio_level_init (bm : Z) : M heap unit := init_loop 4 bm 0.

Fixpoint search_loop (n : nat) (bm i offset : Z) : M heap Z :=
  match n with
  | O => mret (-1)
  | S n =>
      w ← load (bits bm i);
      let first_bit := ffsll w in
      if negb (first_bit =? 0) then mret (first_bit + offset)
      else search_loop n bm (i + 1) (offset + 64)
  end.
Definition highest_pending_priority (bm : Z) : M heap Z := search_loop 4 bm 0 (-1).

Definition priority_search_none_found (result : Z) : bool := result <? 0.

Definition priority_level_set (bm prio : Z) : M heap unit :=
  let word := u8 (Z.quot prio 64) in
  let bit := u8 (Z.rem prio 64) in
  w ← load (bits bm word);
  store (bits bm word) (Z.lor w (u64 (Z.shiftl 1 bit))).

Definition priority_level_clear (bm prio : Z) : M heap unit :=
  let word := u8 (Z.quot prio 64) in
  let bit := u8 (Z.rem prio 64) in
  w ← load (bits bm word);
  store (bits bm word) (Z.land w (cnot 64 (u64 (Z.shiftl 1 bit)))).

(** ** Messages in memory *)

(** What a message says: its type and its bytes. *)
Record message := Message { m_type : Z; m_data : list Z }.

(** The length and the bytes of the message at [a]; the tail of the buffer is
    whatever it was. *)
Definition bytes (a : Z) (bs : list Z) : hPropI :=
  ([∗ list] i ↦ b ∈ bs, (a + Z.of_nat i) ↦ b)%I.
Definition buffer (a : Z) (bs : list Z) : hPropI :=
  (bytes a bs ∗
   [∗ list] i ∈ seqZ (Z.of_nat (length bs)) (MAX_MESSAGE_LEN - Z.of_nat (length bs)), (a + i) ↦?)%I.
Definition payload (a : Z) (bs : list Z) : hPropI :=
  (⌜Z.of_nat (length bs) ≤ MAX_MESSAGE_LEN⌝ ∗ len a ↦ Z.of_nat (length bs) ∗ buffer (data a) bs)%I.

(** The message at [a], without the pointer of the list it is in. *)
Definition msg (a : Z) (m : message) : hPropI :=
  (type a ↦ m_type m ∗ payload a (m_data m))%I.

(** Messages linked from the pointer at [place] up to the pointer at [l]. *)
Fixpoint mseg (place : Z) (ms : list message) (l : Z) : hProp :=
  match ms with
  | [] => ⌜place = l⌝%I
  | m :: ms => (∃ a, place ↦ a ∗ msg a m ∗ mseg (mnext a) ms l)%I
  end.

Definition queue (q : Z) (ms : list message) : hProp :=
  (∃ l, last q ↦ l ∗ mseg (first q) ms l ∗ l ↦ NULL)%I.

Lemma msg_not_null a m : msg a m ⊢ ⌜a ≠ NULL⌝.
Proof. iIntros "[H _]". iApply (pointsto_not_null with "H"). Qed.

Lemma mseg_snoc place ms l a m :
  mseg place ms l -∗ l ↦ a -∗ msg a m -∗ mseg place (ms ++ [m]) (mnext a).
Proof.
  iIntros "Hs Hl Hm". iInduction ms as [|x ms] "IH" forall (place); simpl.
  - iDestruct "Hs" as %->. iExists a. by iFrame.
  - iDestruct "Hs" as (b) "(Hb & Hx & Hs)". iExists b. iFrame.
    iApply ("IH" with "Hs Hl Hm").
Qed.

(** The first pointer of a queue is null exactly when the queue is empty. *)
Lemma mseg_head place ms l :
  mseg place ms l -∗ l ↦ NULL -∗
  ∃ a, place ↦ a ∗ ⌜a = NULL ↔ ms = []⌝ ∗ (place ↦ a -∗ mseg place ms l ∗ l ↦ NULL).
Proof.
  iIntros "Hs Hl". destruct ms as [|m ms]; simpl.
  - iDestruct "Hs" as %->. iExists NULL. iFrame. iSplit; [done|]. by iIntros "$".
  - iDestruct "Hs" as (b) "(Hb & Hx & Hs)". iDestruct (msg_not_null with "Hx") as %Hn.
    iExists b. iFrame "Hb". iSplit; [iPureIntro; naive_solver|]. iIntros "Hb". iFrame.
Qed.

Lemma message_queue_add_spec q ms a m :
  {{ queue q ms ∗ msg a m ∗ mnext a ↦? }} message_queue_add q a {{ _, queue q (ms ++ [m]) }}.
Proof.
  triple_start. iIntros "((%l & Hlast & Hs & Hl) & Hm & [% Hn])". unfold message_queue_add.
  wp_steps. iExists (mnext a). iFrame. iApply (mseg_snoc with "Hs Hl Hm").
Qed.

Lemma message_queue_empty_spec q ms :
  {{ queue q ms }} message_queue_empty q {{ b, ⌜b = bool_decide (ms = [])⌝ ∗ queue q ms }}.
Proof.
  triple_start. iIntros "(%l & Hlast & Hs & Hl)". unfold message_queue_empty.
  iDestruct (mseg_head with "Hs Hl") as (a) "(Ha & %Hn & Hback)". wp_load.
  iDestruct ("Hback" with "Ha") as "[Hs Hl]". iSplit; [|iExists l; iFrame].
  iPureIntro. destruct (Z.eqb_spec a NULL); case_bool_decide; naive_solver.
Qed.

Lemma message_queue_remove_spec q m ms :
  {{ queue q (m :: ms) }} message_queue_remove q
  {{ a, queue q ms ∗ msg a m ∗ mnext a ↦? }}.
Proof.
  triple_start. iIntros "Hq". unfold message_queue_remove.
  wp_call (message_queue_empty_spec q (m :: ms)) with "Hq". iIntros (b) "[-> Hq]".
  rewrite bool_decide_false //. simpl. wp_rets.
  iDestruct "Hq" as (l) "(Hlast & (%a & Hf & Hm & Hs) & Hl)". wp_load.
  destruct ms as [|m' ms]; simpl.
  - iDestruct "Hs" as %<-. wp_steps. wp_rets. iFrame "Hm". iSplitR "Hl"; [|by iExists _].
    iExists (first q). by iFrame.
  - iDestruct "Hs" as (b) "(Hb & Hm' & Hs)". iDestruct (msg_not_null with "Hm'") as %Hn.
    wp_load. rewrite (proj2 (Z.eqb_neq b NULL)) //. wp_steps. wp_rets. iFrame.
Qed.

(** ** Bitmaps in memory *)

(** Bit [j] of a bitmap given by its words. *)
Definition bit_of (ws : list Z) (j : Z) : bool :=
  match ws !! Z.to_nat (j / 64) with Some w => Z.testbit w (j mod 64) | None => false end.

(** The bitmap at [bm] holds the set [f] of priorities. *)
Definition bitmap (bm : Z) (f : Z → bool) : hPropI :=
  (∃ ws, ⌜length ws = 4%nat ∧ ∀ j, 0 ≤ j < NUM_PRIORITIES → bit_of ws j = f j⌝ ∗
     [∗ list] i ↦ w ∈ ws, bits bm (Z.of_nat i) ↦ w)%I.

Lemma single_bit b k :
  0 ≤ b < 64 → 0 ≤ k < 64 → Z.testbit (u64 (Z.shiftl 1 b)) k = (k =? b).
Proof.
  intros Hb Hk. rewrite wrap_testbit; [|lia]. rewrite bool_decide_true; [|lia].
  rewrite Z.shiftl_1_l Z.pow2_bits_eqb; [|lia]. simpl. apply Z.eqb_sym.
Qed.

Lemma bit_of_insert ws p w w' (c : bool) :
  0 ≤ p < NUM_PRIORITIES → ws !! Z.to_nat (p / 64) = Some w →
  (∀ k, 0 ≤ k < 64 → Z.testbit w' k = if k =? p mod 64 then c else Z.testbit w k) →
  ∀ j, 0 ≤ j < NUM_PRIORITIES →
    bit_of (<[Z.to_nat (p / 64) := w']> ws) j = if j =? p then c else bit_of ws j.
Proof.
  intros Hp Hw Hbits j Hj. unfold bit_of, NUM_PRIORITIES in *.
  pose proof (Z.div_mod p 64 ltac:(lia)). pose proof (Z.div_mod j 64 ltac:(lia)).
  pose proof (Z.mod_pos_bound j 64 ltac:(lia)).
  assert (0 ≤ p / 64) by (apply Z.div_pos; lia). assert (0 ≤ j / 64) by (apply Z.div_pos; lia).
  destruct (decide (j / 64 = p / 64)) as [E|E].
  - rewrite E list_lookup_insert_eq; [|by eapply lookup_lt_Some]. rewrite Hbits // Hw.
    destruct (Z.eqb_spec (j mod 64) (p mod 64)), (Z.eqb_spec j p); lia || done || congruence.
  - rewrite list_lookup_insert_ne; [|lia]. by rewrite (proj2 (Z.eqb_neq j p)); [|congruence].
Qed.

Section update.
Context (bm p : Z) (upd : Z → Z) (c : bool).
Context (Hupd : ∀ w k, 0 ≤ k < 64 →
  Z.testbit (upd w) k = if k =? p mod 64 then c else Z.testbit w k).

(** Updating the word that holds bit [p]. *)
Lemma bitmap_update_spec f :
  0 ≤ p < NUM_PRIORITIES →
  {{ bitmap bm f }}
    w ← load (bits bm (p / 64)); store (bits bm (p / 64)) (upd w)
  {{ _, bitmap bm (λ j, if j =? p then c else f j) }}.
Proof.
  intros Hp. triple_start. iIntros "(%ws & [%Hlen %Hf] & Hws)".
  assert (0 ≤ p / 64) by (apply Z.div_pos; lia).
  assert (p / 64 < 4) by (apply Z.div_lt_upper_bound; unfold NUM_PRIORITIES in *; lia).
  destruct (lookup_lt_is_Some_2 ws (Z.to_nat (p / 64))) as [w Hw]; [lia|].
  iDestruct (big_sepL_insert_acc _ _ _ _ Hw with "Hws") as "[Hw Hws]".
  rewrite Z2Nat.id //. wp_load. wp_store.
  iExists (<[Z.to_nat (p / 64) := upd w]> ws). iSplit; [|by iApply "Hws"].
  iPureIntro. rewrite length_insert. split; [done|]. intros j Hj.
  rewrite (bit_of_insert _ _ w _ c) //; [|naive_solver]. by rewrite Hf.
Qed.
End update.

Lemma word_and_bit p :
  0 ≤ p < NUM_PRIORITIES →
  u8 (Z.quot p 64) = p / 64 ∧ u8 (Z.rem p 64) = p mod 64 ∧ 0 ≤ p mod 64 < 64.
Proof.
  unfold NUM_PRIORITIES. intros Hp.
  pose proof (Z.mod_pos_bound p 64 ltac:(lia)).
  assert (0 ≤ p / 64) by (apply Z.div_pos; lia).
  assert (p / 64 < 4) by (apply Z.div_lt_upper_bound; lia).
  rewrite Z.quot_div_nonneg; [|lia..]. rewrite Z.rem_mod_nonneg; [|lia..].
  rewrite !wrap_small; unfold in_unsigned; lia.
Qed.

Lemma priority_level_set_spec bm p f :
  0 ≤ p < NUM_PRIORITIES →
  {{ bitmap bm f }} priority_level_set bm p {{ _, bitmap bm (λ j, if j =? p then true else f j) }}.
Proof.
  intros Hp. unfold priority_level_set. destruct (word_and_bit p Hp) as (-> & -> & Hb).
  apply bitmap_update_spec; [|done]. intros w k Hk. rewrite Z.lor_spec single_bit //.
  destruct (k =? p mod 64); [apply orb_true_r|apply orb_false_r].
Qed.

Lemma priority_level_clear_spec bm p f :
  0 ≤ p < NUM_PRIORITIES →
  {{ bitmap bm f }} priority_level_clear bm p
  {{ _, bitmap bm (λ j, if j =? p then false else f j) }}.
Proof.
  intros Hp. unfold priority_level_clear. destruct (word_and_bit p Hp) as (-> & -> & Hb).
  apply (bitmap_update_spec bm p (λ w, Z.land w _)); [|done].
  intros w k Hk. rewrite Z.land_spec. unfold cnot.
  rewrite wrap_testbit; [|lia]. rewrite bool_decide_true; [|lia].
  rewrite Z.lnot_spec; [|lia]. rewrite single_bit //. simpl.
  destruct (k =? p mod 64); [apply andb_false_r|apply andb_true_r].
Qed.

(** The first element of [f] among [i], ..., [i + n - 1], or -1. *)
Fixpoint first_set (n : nat) (i : Z) (f : Z → bool) : Z :=
  match n with
  | O => -1
  | S n => if f i then i else first_set n (i + 1) f
  end.

Lemma first_set_app a b i f :
  0 ≤ i →
  first_set (a + b) i f =
    if first_set a i f =? -1 then first_set b (i + Z.of_nat a) f else first_set a i f.
Proof.
  revert i. induction a as [|a IH]; intros i Hi; simpl; [by rewrite Z.add_0_r|].
  destruct (f i); [by rewrite (proj2 (Z.eqb_neq i (-1))); [|lia]|].
  rewrite IH; [|lia]. by replace (i + 1 + Z.of_nat a) with (i + Z.of_nat (S a)) by lia.
Qed.

Lemma ffs_first_set w f i :
  (∀ k, 0 ≤ k < 64 → Z.testbit w k = f (64 * i + k)) →
  ∀ n j, 0 ≤ j → j + Z.of_nat n ≤ 64 →
    first_set n (64 * i + j) f =
      if ffs_from n j w =? 0 then -1 else ffs_from n j w - 1 + 64 * i.
Proof.
  intros Hw n. induction n as [|n IH]; intros j Hj Hn; simpl; [done|].
  rewrite Hw; [|lia]. destruct (f (64 * i + j)).
  - rewrite (proj2 (Z.eqb_neq (j + 1) 0)); lia.
  - rewrite -IH; [|lia..]. f_equal. lia.
Qed.

Lemma first_set_none n i f : 0 ≤ i → first_set n i f = -1 ↔ ∀ j, i ≤ j < i + Z.of_nat n → f j = false.
Proof.
  revert i. induction n as [|n IH]; intros i Hi; simpl; [split; [lia|done]|].
  destruct (f i) eqn:E.
  - split; [lia|]. intros H. rewrite H in E; [done|lia].
  - rewrite IH; [|lia]. split; intros H j Hj; [|apply H; lia].
    destruct (decide (j = i)) as [->|]; [done|apply H; lia].
Qed.

Lemma first_set_some n i f r :
  0 ≤ i → first_set n i f = r → r ≠ -1 →
  i ≤ r < i + Z.of_nat n ∧ f r = true ∧ ∀ j, i ≤ j < r → f j = false.
Proof.
  revert i. induction n as [|n IH]; intros i Hi Hr Hne; simpl in Hr; [lia|].
  destruct (f i) eqn:E; [subst; split_and!; [lia|lia|done|lia]|].
  destruct (IH (i + 1) ltac:(lia) Hr Hne) as (? & ? & Hlow). split_and!; [lia|lia|done|].
  intros j Hj. destruct (decide (j = i)) as [->|]; [done|apply Hlow; lia].
Qed.

Lemma search_loop_spec bm ws f : ∀ n i,
  length ws = 4%nat → (∀ j, 0 ≤ j < NUM_PRIORITIES → bit_of ws j = f j) → (i + n = 4)%nat →
  {{ [∗ list] i ↦ w ∈ ws, bits bm (Z.of_nat i) ↦ w }}
    search_loop n bm (Z.of_nat i) (64 * Z.of_nat i - 1)
  {{ r, ⌜r = first_set (64 * n) (64 * Z.of_nat i) f⌝ ∗
        [∗ list] i ↦ w ∈ ws, bits bm (Z.of_nat i) ↦ w }}.
Proof.
  induction n as [|n IH]; intros i Hlen Hf Hi; triple_start; iIntros "Hws".
  { simpl. wp_rets. by iFrame. }
  remember (first_set (64 * S n) (64 * Z.of_nat i) f) as res eqn:Hres.
  cbn [search_loop]. destruct (lookup_lt_is_Some_2 ws i) as [w Hw]; [lia|].
  iDestruct (big_sepL_lookup_acc _ _ _ _ Hw with "Hws") as "[Hw Hws]". wp_load.
  iDestruct ("Hws" with "Hw") as "Hws".
  assert (∀ k, 0 ≤ k < 64 → Z.testbit w k = f (64 * Z.of_nat i + k)) as Hbits.
  { intros k Hk. rewrite -Hf; [|unfold NUM_PRIORITIES; lia]. unfold bit_of.
    replace ((64 * Z.of_nat i + k) / 64) with (Z.of_nat i)
      by (apply (Z.div_unique_pos _ _ _ k); lia).
    replace ((64 * Z.of_nat i + k) mod 64) with k
      by (apply (Z.mod_unique_pos _ _ (Z.of_nat i)); lia).
    by rewrite Nat2Z.id Hw. }
  pose proof (ffs_first_set w f (Z.of_nat i) Hbits 64 0 ltac:(lia) ltac:(lia)) as Hffs.
  replace (64 * S n)%nat with (64 + 64 * n)%nat in Hres by lia.
  rewrite first_set_app in Hres; [|lia].
  rewrite Z.add_0_r in Hffs. rewrite Hffs in Hres. fold (ffsll w) in Hres.
  destruct (Z.eqb_spec (ffsll w) 0); simpl negb; cbv iota.
  - replace (Z.of_nat i + 1) with (Z.of_nat (S i)) by lia.
    replace (64 * Z.of_nat i - 1 + 64) with (64 * Z.of_nat (S i) - 1) by lia.
    wp_call (IH (S i) Hlen Hf (ltac:(lia))) with "Hws". iIntros (r) "[-> $]". iPureIntro.
    rewrite Hres. simpl. f_equal; lia.
  - wp_rets. iFrame. iPureIntro. assert (0 ≤ ffsll w - 1 + 64 * Z.of_nat i).
    { assert (0 ≤ ffsll w); [|lia]. clear. unfold ffsll. generalize 64%nat. intros n.
      assert (∀ i, 0 ≤ i → 0 ≤ ffs_from n i w) as H; [|by apply H].
      induction n as [|n IH]; intros i Hi; simpl; [done|].
      destruct (Z.testbit w i); [lia|apply IH; lia]. }
    rewrite Hres (proj2 (Z.eqb_neq _ (-1))); lia.
Qed.

Lemma highest_pending_priority_spec bm f :
  {{ bitmap bm f }} highest_pending_priority bm
  {{ r, ⌜r = first_set 256 0 f⌝ ∗ bitmap bm f }}.
Proof.
  triple_start. iIntros "(%ws & [%Hlen %Hf] & Hws)".
  iApply (wp_triple _ _ _ _ (search_loop_spec bm ws f 4 0 Hlen Hf eq_refl) with "Hws").
  iIntros (r) "[-> Hws]". iSplit; [done|]. iExists ws. by iFrame.
Qed.

Lemma prio_level_init_spec bm :
  {{ [∗ list] i ∈ seqZ 0 4, bits bm i ↦? }} prio_level_init bm {{ _, bitmap bm (λ _, false) }}.
Proof.
  triple_start. change (seqZ 0 4) with [0; 1; 2; 3]. unfold prio_level_init. simpl.
  iIntros "([% H0] & [% H1] & [% H2] & [% H3] & _)". wp_steps. wp_rets.
  iExists [0; 0; 0; 0]. iFrame. iSplit; [|done]. iPureIntro. split; [done|].
  intros j Hj. unfold bit_of.
  destruct (Z.to_nat (j / 64)) as [|[|[|[|k]]]]; simpl; apply Z.bits_0 || done.
Qed.

End MessageQueue.
