(* ===== verification/Scheduler.v ===== *)
(** * The non-preemptive fixed-priority scheduler
    (src/examples/scheduler/include/fdsched/scheduler.h)

    A [struct npfp_scheduler] at [s] keeps 256 callbacks of 16 bytes from [s]
    on, 256 message queues from [s + 4096] on, and the bitmap of the non-empty
    queues at [s + 8192].  The contract it offers its clients is a priority
    queue that is stable: among the pending messages of the best priority the
    one that arrived first leaves first. *)
From S2P Require Import Prelude HeapLogic MessageQueue.
From stdpp Require Import gmap list.
From iris.proofmode Require Import proofmode.
Import MessageQueue.
#[local] Open Scope Z_scope.

Module Scheduler.

(** ** The code *)

(** Members of [callbacks[t]], [pending[p]] and [prio_levels]. *)
Definition cb_prio (s t : Z) : Z := s + 16 * t.
Definition cb_f (s t : Z) : Z := s + 16 * t + 8.
Definition pending (s p : Z) : Z := s + 4096 + 16 * p.
Definition prio_levels (s : Z) : Z := s + 8192.

(** [message_identify_type] is provided by the application: it reads the
    message and tells its type. *)
Class MessageIdentification := {
  message_identify_type : Z → M heap Z;
  identify : list Z → Z;
  identify_range bs : 0 ≤ identify bs < NUM_MESSAGE_TYPES;
  message_identify_type_spec a bs :
    {{ payload a bs }} message_identify_type a {{ r, ⌜r = identify bs⌝ ∗ payload a bs }};
}.

(** So are the callbacks, which a function pointer selects: they look at the
    message and succeed with 0 or fail.  Function pointers are numbers, of
    which one is the address of [nop_callback]. *)
Class Callbacks := {
  invoke : Z → Z → M heap Z;
  callable : Z → bool;
  outcome : Z → message → Z;
  invoke_spec f a m :
    callable f = true → {{ msg a m }} invoke f a {{ r, ⌜r = outcome f m⌝ ∗ msg a m }};
}.

Section code.
Context `{!MessageIdentification, !Callbacks}.

Definition npfp_enqueue (sched msg : Z) : M heap unit :=
  t ← message_identify_type msg;
  store (type msg) t ;;
  t ← load (type msg);
  msg_prio ← load (cb_prio sched t);
  message_queue_add (pending sched msg_prio) msg ;;
  priority_level_set (prio_levels sched) msg_prio.

Definition npfp_dequeue (sched : Z) : M heap Z :=
  top_prio ← highest_pending_priority (prio_levels sched);
  if priority_search_none_found top_prio then mret NULL else
  msg ← message_queue_remove (pending sched top_prio);
  e ← message_queue_empty (pending sched top_prio);
  (if (e : bool) then priority_level_clear (prio_levels sched) (u8 top_prio) else mret tt) ;;
  mret msg.

(** [nop_callback] of fdsched.c, and a call through a function pointer. *)
Definition NOP_CALLBACK : Z := 1.
Definition nop_callback (msg : Z) : M heap Z := mret 0.
Definition call (f msg : Z) : M heap Z :=
  if f =? NOP_CALLBACK then nop_callback msg else invoke f msg.

Definition npfp_dispatch (sched msg : Z) : M heap Z :=
  t ← load (type msg);
  f ← load (cb_f sched t);
  call f msg.
End code.

Arguments cb_prio : simpl never.
Arguments cb_f : simpl never.
Arguments pending : simpl never.
Arguments prio_levels : simpl never.

(** ** What the scheduler promises *)

(** A message and the priority it was enqueued with. *)
Abbreviation entry := (Z * message)%type.

(** Taking the first message of the best (numerically least) priority. *)
Definition picks (arr : list entry) (x : entry) (arr' : list entry) : Prop :=
  ∃ l1 l2, arr = l1 ++ x :: l2 ∧ arr' = l1 ++ l2 ∧
    Forall (λ y, x.1 < y.1) l1 ∧ Forall (λ y, x.1 ≤ y.1) l2.

(** The queue of each priority. *)
Definition queue_of (arr : list entry) (p : Z) : list message :=
  snd <$> filter (λ x, x.1 = p) arr.
Definition queues_of_def (arr : list entry) : list (list message) :=
  queue_of arr <$> seqZ 0 NUM_PRIORITIES.
(** Sealed, so that no comparison of assertions lays out the 256 queues. *)
Definition queues_of_aux : seal (@queues_of_def). Proof. by eexists. Qed.
Definition queues_of := queues_of_aux.(unseal).
Lemma queues_of_unseal : queues_of = queues_of_def.
Proof. exact queues_of_aux.(seal_eq). Qed.

Definition has_work (arr : list entry) (p : Z) : bool := bool_decide (queue_of arr p ≠ []).

Abbreviation callback := (Z * Z)%type.
Definition callbacks_at (s : Z) (cbs : list callback) : hPropI :=
  ([∗ list] t ↦ c ∈ cbs, cb_prio s (Z.of_nat t) ↦ c.1 ∗ cb_f s (Z.of_nat t) ↦ c.2)%I.
Definition queues_at (s : Z) (qs : list (list message)) : hPropI :=
  ([∗ list] p ↦ ms ∈ qs, queue (pending s (Z.of_nat p)) ms)%I.

Definition prio_ok (p : Z) : Prop := 0 ≤ p < NUM_PRIORITIES.

(** The scheduler at [s] with its callbacks and the pending messages in the
    order in which they arrived. *)
Definition scheduler (s : Z) (cbs : list callback) (arr : list entry) : hPropI :=
  (⌜Z.of_nat (length cbs) = NUM_MESSAGE_TYPES ∧
    Forall (λ c, prio_ok c.1) cbs ∧ Forall (λ x, prio_ok x.1) arr⌝ ∗
   callbacks_at s cbs ∗ queues_at s (queues_of arr) ∗ bitmap (prio_levels s) (has_work arr))%I.

(** A message with its bytes received, before it is enqueued. *)
Definition received (a : Z) (bs : list Z) : hPropI :=
  (type a ↦? ∗ mnext a ↦? ∗ payload a bs)%I.

Definition callback_of (cbs : list callback) (t : Z) : callback := cbs !!! Z.to_nat t.

(** ** Queues and arrival order *)

(** [picks] as a function. *)
Fixpoint pick (arr : list entry) : option (entry * list entry) :=
  match arr with
  | [] => None
  | x :: arr =>
      match pick arr with
      | Some (y, arr') => if y.1 <? x.1 then Some (y, x :: arr') else Some (x, arr)
      | None => Some (x, [])
      end
  end.

Lemma pick_none arr : pick arr = None ↔ arr = [].
Proof.
  destruct arr as [|x arr]; [done|]. split; [|done]. simpl.
  destruct (pick arr) as [[y arr']|]; [by destruct (y.1 <? x.1)|done].
Qed.

Lemma pick_picks arr x arr' : picks arr x arr' ↔ pick arr = Some (x, arr').
Proof.
  split.
  - intros (l1 & l2 & -> & -> & H1 & H2). induction H1 as [|y l1 Hy H1 IH]; simpl.
    + destruct (pick l2) as [[z l2']|] eqn:E; [|by apply pick_none in E as ->].
      rewrite (proj2 (Z.ltb_ge z.1 x.1)) //.
      assert (z ∈ l2) as Hz; [|by apply (proj1 (Forall_forall _ _) H2)].
      clear -E. revert z l2' E. induction l2 as [|w l2 IH]; intros z l2' E; [done|]. simpl in E.
      destruct (pick l2) as [[v l2'']|]; [|simplify_eq; left].
      destruct (v.1 <? w.1); simplify_eq; [right; by eapply IH|left].
    + rewrite IH. by rewrite (proj2 (Z.ltb_lt x.1 y.1)).
  - revert x arr'. induction arr as [|y arr IH]; intros x arr' E; [done|]. simpl in E.
    destruct (pick arr) as [[z arr'']|] eqn:Ep.
    + destruct (IH z arr'' eq_refl) as (l1 & l2 & -> & -> & H1 & H2).
      destruct (Z.ltb_spec z.1 y.1); simplify_eq.
      * exists (y :: l1), l2. split_and!; [done|done|by constructor|done].
      * exists [], (l1 ++ z :: l2). split_and!; [done|done|constructor|].
        apply Forall_app. split; [|constructor; [done|]]; eapply Forall_impl; try done;
          simpl; lia.
    + apply pick_none in Ep as ->. simplify_eq. exists [], []. auto.
Qed.

Lemma queues_of_lookup arr p :
  prio_ok p → queues_of arr !! Z.to_nat p = Some (queue_of arr p).
Proof.
  intros Hp. unfold prio_ok in *. rewrite queues_of_unseal. unfold queues_of_def. rewrite list_lookup_fmap.
  rewrite lookup_seqZ_lt; [|lia]. simpl. do 2 f_equal. lia.
Qed.

Lemma queues_of_insert arr arr' p ms :
  prio_ok p → queue_of arr' p = ms → (∀ q, q ≠ p → queue_of arr' q = queue_of arr q) →
  <[Z.to_nat p := ms]> (queues_of arr) = queues_of arr'.
Proof.
  intros Hp <- Hne. apply list_eq. intros i. destruct (decide (i = Z.to_nat p)) as [->|Hi].
  - rewrite list_lookup_insert_eq ?queues_of_lookup //.
    eapply lookup_lt_Some. by apply queues_of_lookup.
  - rewrite list_lookup_insert_ne //. rewrite queues_of_unseal. unfold queues_of_def. rewrite (list_lookup_fmap (queue_of arr)) (list_lookup_fmap (queue_of arr')).
    destruct (seqZ 0 NUM_PRIORITIES !! i) as [q|] eqn:E; [|done]. simpl. f_equal.
    symmetry. apply Hne. apply lookup_seqZ in E as [-> ?]. unfold prio_ok in *. lia.
Qed.

Lemma queue_of_app arr1 arr2 p : queue_of (arr1 ++ arr2) p = queue_of arr1 p ++ queue_of arr2 p.
Proof. unfold queue_of. by rewrite filter_app fmap_app. Qed.

Lemma queue_of_cons x arr p :
  queue_of (x :: arr) p = (if decide (x.1 = p) then [x.2] else []) ++ queue_of arr p.
Proof. unfold queue_of. rewrite filter_cons. by case_decide. Qed.

Lemma queue_of_nil arr p : queue_of arr p = [] → Forall (λ x, x.1 ≠ p) arr.
Proof.
  induction arr as [|x arr IH]; [constructor|]. rewrite queue_of_cons.
  case_decide; [done|]. simpl. auto.
Qed.

(** The head of a queue is the first message of its priority. *)
Lemma queue_of_head arr p m ms :
  queue_of arr p = m :: ms →
  ∃ l1 l2, arr = l1 ++ (p, m) :: l2 ∧ Forall (λ x, x.1 ≠ p) l1 ∧ queue_of l2 p = ms.
Proof.
  induction arr as [|x arr IH]; [done|]. rewrite queue_of_cons. case_decide as E; simpl.
  - intros [= <- <-]. exists [], arr. split_and!; [|constructor|done]. destruct x. simpl in *.
    by subst.
  - intros H. destruct (IH H) as (l1 & l2 & -> & ? & ?). exists (x :: l1), l2. auto.
Qed.

(** Where the bitmap finds the first bit, the queue holds the message to pick. *)
Lemma first_work_picks arr p :
  Forall (λ x, prio_ok x.1) arr → first_set 256 0 (has_work arr) = p → p ≠ -1 →
  prio_ok p ∧ ∃ m ms arr', queue_of arr p = m :: ms ∧ picks arr (p, m) arr' ∧
    queue_of arr' p = ms ∧ ∀ q, q ≠ p → queue_of arr' q = queue_of arr q.
Proof.
  intros Harr Hp Hne. apply first_set_some in Hp as (Hr & Hw & Hlow); [|lia|done].
  split; [unfold prio_ok, NUM_PRIORITIES; lia|].
  apply bool_decide_eq_true in Hw. destruct (queue_of arr p) as [|m ms] eqn:E; [done|].
  destruct (queue_of_head _ _ _ _ E) as (l1 & l2 & -> & Hl1 & Hl2).
  assert (Forall (λ x, p ≤ x.1) (l1 ++ (p, m) :: l2)) as Hge.
  { apply Forall_forall. intros x Hx. destruct (decide (x.1 < p)); [|lia].
    pose proof (proj1 (Forall_forall _ _) Harr x Hx) as Hok.
    specialize (Hlow x.1 ltac:(unfold prio_ok in *; lia)). apply bool_decide_eq_false, dec_stable in Hlow.
    apply queue_of_nil in Hlow. by destruct (proj1 (Forall_forall _ _) Hlow x Hx). }
  apply Forall_app in Hge as [Hge1 [_ Hge2]%Forall_cons].
  exists m, ms, (l1 ++ l2). split_and!; [done| | |].
  - exists l1, l2. split_and!; [done|done| |done]. simpl. clear -Hl1 Hge1.
    rewrite ->Forall_forall in *. intros x Hx. specialize (Hl1 x Hx). specialize (Hge1 x Hx).
    simpl in *. lia.
  - rewrite queue_of_app queue_of_cons decide_True // in E. rewrite queue_of_app.
    assert (queue_of l1 p = []) as E1; [|by rewrite E1 in E |- *; simplify_eq/=].
    unfold queue_of. clear -Hl1. induction Hl1 as [|x l1 Hx]; [done|].
    rewrite filter_cons_False //.
  - intros q Hq. rewrite !queue_of_app queue_of_cons decide_False //.
Qed.

Lemma no_work_empty arr :
  Forall (λ x, prio_ok x.1) arr → first_set 256 0 (has_work arr) = -1 → arr = [].
Proof.
  intros Harr Hw. destruct arr as [|x arr]; [done|]. exfalso.
  apply Forall_cons in Harr as [Hx _]. unfold prio_ok, NUM_PRIORITIES in Hx.
  rewrite first_set_none in Hw; [|lia]. specialize (Hw x.1 ltac:(lia)) as Hf.
  apply bool_decide_eq_false in Hf. apply Hf. rewrite queue_of_cons decide_True //.
Qed.

(** ** The operations *)

Lemma bitmap_ext bm f g :
  (∀ j, prio_ok j → f j = g j) → bitmap bm f ⊢ bitmap bm g.
Proof.
  intros Hfg. iIntros "(%ws & [%Hlen %Hf] & Hws)". iExists ws. iFrame. iPureIntro.
  split; [done|]. intros j Hj. rewrite Hf //. by apply Hfg.
Qed.

Lemma callbacks_lookup s cbs t :
  0 ≤ t < Z.of_nat (length cbs) →
  callbacks_at s cbs ⊢
    (cb_prio s t ↦ (callback_of cbs t).1 ∗ cb_f s t ↦ (callback_of cbs t).2) ∗
    ((cb_prio s t ↦ (callback_of cbs t).1 ∗ cb_f s t ↦ (callback_of cbs t).2) -∗
     callbacks_at s cbs).
Proof.
  intros Ht. destruct (lookup_lt_is_Some_2 cbs (Z.to_nat t)) as [c Hc]; [lia|].
  unfold callback_of. rewrite (list_lookup_total_correct _ _ _ Hc).
  iIntros "H". iDestruct (big_sepL_lookup_acc _ _ _ _ Hc with "H") as "[H Hw]".
  rewrite Z2Nat.id; [|lia]. iFrame.
Qed.

Lemma queues_at_access s qs p ms :
  0 ≤ p → qs !! Z.to_nat p = Some ms →
  queues_at s qs ⊢ queue (pending s p) ms ∗
    ∀ ms, queue (pending s p) ms -∗ queues_at s (<[Z.to_nat p := ms]> qs).
Proof.
  intros Hp Hms. unfold queues_at. iIntros "H".
  iDestruct (big_sepL_insert_acc _ _ _ _ Hms with "H") as "[Hq H]".
  rewrite Z2Nat.id; [|done]. iFrame.
Qed.

Lemma queues_access s arr p :
  prio_ok p →
  queues_at s (queues_of arr) ⊢ queue (pending s p) (queue_of arr p) ∗
    ∀ ms, queue (pending s p) ms -∗ queues_at s (<[Z.to_nat p := ms]> (queues_of arr)).
Proof. intros Hp. apply queues_at_access; [apply Hp|by apply queues_of_lookup]. Qed.

Section specs.
Context `{!MessageIdentification, !Callbacks}.

Lemma npfp_enqueue_spec s cbs arr a bs :
  {{ scheduler s cbs arr ∗ received a bs }} npfp_enqueue s a
  {{ _, scheduler s cbs (arr ++ [((callback_of cbs (identify bs)).1, Message (identify bs) bs)]) }}.
Proof.
  triple_start. iIntros "[(%Hok & Hcb & Hq & Hb) ([% Ht] & Hn & Hp)]".
  destruct Hok as (Hlen & Hcok & Harr). pose proof (identify_range bs) as Hr.
  unfold npfp_enqueue.
  wp_call (message_identify_type_spec a bs) with "Hp". iIntros (t) "[-> Hp]".
  wp_store. wp_load.
  iDestruct (callbacks_lookup _ _ (identify bs) with "Hcb") as "[[Hpr Hf] Hcb]"; [lia|].
  set (c := callback_of cbs (identify bs)) in *. wp_load.
  assert (prio_ok c.1) as Hc.
  { unfold c, callback_of. apply (Forall_lookup_1 _ _ (Z.to_nat (identify bs)) _ Hcok).
    apply list_lookup_lookup_total_lt. lia. }
  iDestruct ("Hcb" with "[$Hpr $Hf]") as "Hcb".
  iDestruct (queues_access _ _ c.1 Hc with "Hq") as "[Hq Hqs]".
  set (m := Message (identify bs) bs).
  wp_call (message_queue_add_spec (pending s c.1) (queue_of arr c.1) a m) with "[$Hq $Hn Hp Ht]".
  { iFrame "Ht Hp". }
  iIntros (_) "Hq". iDestruct ("Hqs" with "Hq") as "Hqs".
  wp_call (priority_level_set_spec (prio_levels s) c.1 _ Hc) with "Hb". iIntros (_) "Hb".
  iSplit; [iPureIntro; split_and!; [done|done|by apply Forall_app; auto]|]. iFrame "Hcb".
  rewrite (queues_of_insert arr (arr ++ [(c.1, m)])) //; last first.
  { intros q Hq. rewrite queue_of_app queue_of_cons decide_False //=. apply app_nil_r. }
  { rewrite queue_of_app queue_of_cons decide_True //. }
  iFrame "Hqs". iApply (bitmap_ext with "Hb"). intros j Hj. unfold has_work.
  rewrite queue_of_app queue_of_cons. simpl. destruct (Z.eqb_spec j c.1) as [->|Hne].
  - rewrite decide_True //. symmetry. apply bool_decide_eq_true. by destruct (queue_of arr _).
  - rewrite decide_False //. simpl. by rewrite app_nil_r.
Qed.

Lemma npfp_dequeue_spec s cbs arr :
  {{ scheduler s cbs arr }} npfp_dequeue s
  {{ r, (⌜r = NULL ∧ arr = []⌝ ∗ scheduler s cbs []) ∨
        (∃ x arr', ⌜r ≠ NULL ∧ picks arr x arr'⌝ ∗ scheduler s cbs arr' ∗
           msg r x.2 ∗ mnext r ↦?) }}.
Proof.
  triple_start. iIntros "(%Hok & Hcb & Hq & Hb)". unfold npfp_dequeue.
  destruct Hok as (Hlen & Hcok & Harr).
  wp_call (highest_pending_priority_spec (prio_levels s) (has_work arr)) with "Hb".
  iIntros (r) "[%Hr Hb]". unfold priority_search_none_found.
  destruct (decide (r = -1)) as [->|Hne].
  { simpl. wp_rets. iLeft. pose proof (no_work_empty arr Harr (eq_sym Hr)) as ->.
    clear Hr. iSplit; [done|].
    by iFrame. }
  destruct (first_work_picks arr r Harr (eq_sym Hr) Hne) as (Hp & m & ms & arr' & Em & Hpick & Ems & Hoth).
  clear Hr.
  rewrite (proj2 (Z.ltb_ge r 0)); [|unfold prio_ok in Hp; lia].
  iDestruct (queues_access _ _ r Hp with "Hq") as "[Hq Hqs]". rewrite Em.
  wp_call (message_queue_remove_spec (pending s r) m ms) with "Hq".
  iIntros (a) "(Hq & Hm & Hn)". iDestruct (msg_not_null with "Hm") as %Ha.
  wp_call (message_queue_empty_spec (pending s r) ms) with "Hq". iIntros (e) "[-> Hq]".
  iDestruct ("Hqs" with "Hq") as "Hqs". rewrite (queues_of_insert arr arr') //.
  assert (Forall (λ x, prio_ok x.1) arr') as Harr'.
  { destruct Hpick as (l1 & l2 & -> & -> & _ & _).
    apply Forall_app in Harr as [? [_ ?]%Forall_cons]. by apply Forall_app. }
  case_bool_decide as Hms; simpl.
  - rewrite wrap_small; [|unfold in_unsigned, prio_ok, NUM_PRIORITIES in *; lia].
    wp_call (priority_level_clear_spec (prio_levels s) r _ Hp) with "Hb". iIntros (_) "Hb".
    wp_rets. iRight. iExists (r, m), arr'. iFrame. iSplit; [done|]. iSplit; [done|].
    iApply (bitmap_ext with "Hb"). intros j Hj. unfold has_work.
    destruct (Z.eqb_spec j r) as [->|Hjr]; [|by rewrite Hoth].
    symmetry. apply bool_decide_eq_false. rewrite Ems Hms. by intros [].
  - wp_rets. iRight. iExists (r, m), arr'. iFrame. iSplit; [done|]. iSplit; [done|].
    iApply (bitmap_ext with "Hb"). intros j Hj. unfold has_work.
    destruct (decide (j = r)) as [->|Hjr]; [|by rewrite Hoth].
    by rewrite Ems Em !bool_decide_true.
Qed.

(** What the callback for a message answers. *)
Definition verdict (cbs : list callback) (m : message) : Z :=
  let f := (callback_of cbs (m_type m)).2 in
  if f =? NOP_CALLBACK then 0 else outcome f m.

(** A pointer to a function that can be called. *)
Definition fn_ok (f : Z) : Prop := f = NOP_CALLBACK ∨ callable f = true.

Lemma npfp_dispatch_spec s cbs arr a m :
  0 ≤ m_type m < NUM_MESSAGE_TYPES → Forall (λ c, fn_ok c.2) cbs →
  {{ scheduler s cbs arr ∗ msg a m }} npfp_dispatch s a
  {{ r, ⌜r = verdict cbs m⌝ ∗ scheduler s cbs arr ∗ msg a m }}.
Proof.
  intros Ht Hfns. triple_start. iIntros "[(%Hok & Hcb & Hq & Hb) [Hty Hm]]".
  unfold npfp_dispatch. wp_load.
  iDestruct (callbacks_lookup _ _ (m_type m) with "Hcb") as "[[Hpr Hf] Hcb]"; [lia|]. wp_load.
  iDestruct ("Hcb" with "[$Hpr $Hf]") as "Hcb".
  assert (fn_ok (callback_of cbs (m_type m)).2) as Hfn.
  { apply (Forall_lookup_1 _ _ (Z.to_nat (m_type m)) _ Hfns).
    apply list_lookup_lookup_total_lt. lia. }
  unfold call, verdict. destruct (Z.eqb_spec (callback_of cbs (m_type m)).2 NOP_CALLBACK).
  - unfold nop_callback. wp_rets. by iFrame.
  - destruct Hfn as [|Hfn]; [done|]. wp_call (invoke_spec _ a m Hfn) with "[$Hty $Hm]". iIntros (r) "[-> $]". by iFrame.
Qed.
(** C4. The NP-FP scheduler is a stable priority queue: [npfp_enqueue] adds a
    received message, with the type the application gives it and the priority
    of its callback, behind everything that is pending, and [npfp_dequeue]
    hands out the first message of the best pending priority, leaving the
    others in order; it returns [NULL] exactly when nothing is pending.  The
    bitmap and the 256 queues stay consistent. *)
Theorem npfp_is_stable_priority_queue s cbs arr a bs :
  ({{ scheduler s cbs arr ∗ received a bs }} npfp_enqueue s a
   {{ _, scheduler s cbs
           (arr ++ [((callback_of cbs (identify bs)).1, Message (identify bs) bs)]) }}) ∧
  ({{ scheduler s cbs arr }} npfp_dequeue s
   {{ r, (⌜r = NULL ∧ arr = []⌝ ∗ scheduler s cbs []) ∨
         (∃ x arr', ⌜r ≠ NULL ∧ picks arr x arr'⌝ ∗ scheduler s cbs arr' ∗
            msg r x.2 ∗ mnext r ↦?) }}).
Proof. split; [apply npfp_enqueue_spec|apply npfp_dequeue_spec]. Qed.
End specs.

End Scheduler.
