(* ===== verification/FdSched.v ===== *)
(** * The file-descriptor scheduler (src/examples/scheduler/src/fdsched.c)

    A [struct fd_scheduler] at [fds] keeps up to 16 file descriptors from
    [fds] on, their number at [fds + 64] and the NP-FP scheduler at
    [fds + 72].  The operating system is a parameter: what [fcntl] answers and
    what the [t]-th [read] of the program returns.  The number of reads so far,
    [errno] and the messages read are threaded through the functions. *)
From S2P Require Import Prelude HeapLogic MessageQueue Scheduler.
From stdpp Require Import gmap list sorting.
From iris.proofmode Require Import proofmode.
Import MessageQueue Scheduler.
#[local] Open Scope Z_scope.

Module FdSched.

(** ** The operating system *)

Definition F_SETFL : Z := 4.
Definition O_NONBLOCK : Z := 2048.

(** The error numbers of [<errno.h>], [fcntl(fd, cmd, val)], and the outcome of
    the [t]-th [read], of at most [MAX_MESSAGE_LEN] bytes, on [fd]: the bytes,
    or the new [errno]. *)
Class OperatingSystem := {
  EWOULDBLOCK : Z;
  EAGAIN : Z;
  fcntl : Z → Z → Z → Z;
  read_result : nat → Z → list Z + Z;
  read_length t fd bs :
    read_result t fd = inl bs → Z.of_nat (length bs) ≤ MAX_MESSAGE_LEN;
}.

(** The reads so far, [errno], and the messages that reads have returned. *)
Record world := World { reads : nat; errno : Z; delivered : list (list Z) }.

(** ** The code *)

Definition MAX_INPUT_CHANNELS : Z := 16.
Definition input_channels (fds i : Z) : Z := fds + 4 * i.
Definition num_channels (fds : Z) : Z := fds + 64.
Definition sched (fds : Z) : Z := fds + 72.

Fixpoint store_bytes (a : Z) (bs : list Z) : M heap unit :=
  match bs with
  | [] => mret tt
  | b :: bs => store a b ;; store_bytes (a + 1) bs
  end.

Fixpoint init_callbacks (n : nat) (s typ : Z) : M heap unit :=
  match n with
  | O => mret tt
  | S n =>
      store (cb_prio s typ) 0 ;;
      store (cb_f s typ) NOP_CALLBACK ;;
      init_callbacks n s (typ + 1)
  end.

Fixpoint init_queues (n : nat) (s prio : Z) : M heap unit :=
  match n with
  | O => mret tt
  | S n =>
      store (first (pending s prio)) NULL ;;
      store (last (pending s prio)) NULL ;;
      store (last (pending s prio)) (first (pending s prio)) ;;
      init_queues n s (prio + 1)
  end.

(** The two loops run [NUM_MESSAGE_TYPES] and [NUM_PRIORITIES] times. *)
Definition fds_init (fds : Z) : M heap unit :=
  store (num_channels fds) 0 ;;
  prio_level_init (prio_levels (sched fds)) ;;
  init_callbacks (Z.to_nat NUM_MESSAGE_TYPES) (sched fds) 0 ;;
  init_queues (Z.to_nat NUM_PRIORITIES) (sched fds) 0.

Definition fds_set_callback (fds type f prio : Z) : M heap unit :=
  store (cb_prio (sched fds) type) prio ;;
  store (cb_f (sched fds) type) f.

Section code.
Context `{!OperatingSystem, !Allocator, !MessageIdentification, !Callbacks}.

Definition fds_add_channel (fds fd : Z) : M heap Z :=
  n ← load (num_channels fds);
  c_assert (n <? MAX_INPUT_CHANNELS) ;;
  let err := fcntl fd F_SETFL O_NONBLOCK in
  if negb (err =? 0) then mret err else
  n ← load (num_channels fds);
  store (input_channels fds n) fd ;;
  n ← load (num_channels fds);
  store (num_channels fds) (u64 (n + 1)) ;;
  mret 0.

Definition read (w : world) (fd buf : Z) : M heap (Z * world) :=
  match read_result (reads w) fd with
  | inl bs => store_bytes buf bs ;; mret (Z.of_nat (length bs), World (S (reads w)) (errno w) (delivered w ++ [bs]))
  | inr e => mret (-1, World (S (reads w)) e (delivered w))
  end.

Definition receive_one_message (w : world) (fds fd : Z) : M heap (Z * world) :=
  msg ← xmalloc message_layout;
  c_assert (negb (msg =? NULL)) ;;
  '(n, w) ← read w fd (data msg);
  if n <? 0 then
    free message_layout msg ;;
    mret (n, w)
  else
    store (len msg) n ;;
    npfp_enqueue (sched fds) msg ;;
    mret (0, w).

(** The [do]-[while] loop of [receive_messages]: the last [err], [non_empty]. *)
Fixpoint receive_loop (fuel : nat) (w : world) (fds fd non_empty : Z) : M heap (Z * Z * world) :=
  match fuel with
  | O => fail OutOfFuel
  | S fuel =>
      '(err, w) ← receive_one_message w fds fd;
      let non_empty := if err =? 0 then 1 else non_empty in
      if err =? 0 then receive_loop fuel w fds fd non_empty
      else mret (err, non_empty, w)
  end.

Definition receive_messages (fuel : nat) (w : world) (fds fd : Z) : M heap (Z * world) :=
  '(err, non_empty, w) ← receive_loop fuel w fds fd 0;
  if (errno w =? EWOULDBLOCK) || (errno w =? EAGAIN) then mret (non_empty, w)
  else mret (err, w).

(** [for (ch = 0; ch < fds->num_channels; ch++)]; [n] bounds the channels. *)
Fixpoint channels_loop (n fuel : nat) (w : world) (fds ch flag : Z) : M heap (Z * world) :=
  match n with
  | O => fail OutOfFuel
  | S n =>
      nc ← load (num_channels fds);
      if ch <? nc then
        fd ← load (input_channels fds ch);
        '(err, w) ← receive_messages fuel w fds fd;
        if err <? 0 then mret (err, w) else
        let flag := if 0 <? err then 1 else flag in
        channels_loop n fuel w fds (u64 (ch + 1)) flag
      else mret (flag, w)
  end.

Definition check_channels (fuel : nat) (w : world) (fds : Z) : M heap (Z * world) :=
  channels_loop (S (Z.to_nat MAX_INPUT_CHANNELS)) fuel w fds 0 0.

Fixpoint check_channels_until_empty (fuel : nat) (w : world) (fds : Z) : M heap (Z * world) :=
  match fuel with
  | O => fail OutOfFuel
  | S fuel' =>
      '(err, w) ← check_channels fuel w fds;
      if err <? 0 then mret (err, w) else
      if 0 <? err then check_channels_until_empty fuel' w fds else mret (err, w)
  end.

(** One turn of the inner loop of [fds_run]: there was no message, the
    callback succeeded, or it failed. *)
Inductive turn := NoMessage | Handled | Failed (err : Z).

Definition fds_run_turn (fuel : nat) (w : world) (fds : Z) : M heap (turn * world) :=
  '(_, w) ← check_channels_until_empty fuel w fds;
  msg ← npfp_dequeue (sched fds);
  if msg =? NULL then mret (NoMessage, w) else
  err ← npfp_dispatch (sched fds) msg;
  free message_layout msg ;;
  mret (if negb (err =? 0) then Failed err else Handled, w).

(** Both loops continue with another turn unless a callback fails. *)
Fixpoint run_loop (fuel : nat) (w : world) (fds : Z) : M heap (Z * world) :=
  match fuel with
  | O => fail OutOfFuel
  | S fuel' =>
      '(t, w) ← fds_run_turn fuel w fds;
      match t with
      | NoMessage | Handled => run_loop fuel' w fds
      | Failed err => mret (err, w)
      end
  end.

Definition fds_run (fuel : nat) (w : world) (fds : Z) : M heap (Z * world) :=
  n ← load (num_channels fds);
  c_assert (0 <? n) ;;
  run_loop fuel w fds.
End code.

Arguments input_channels : simpl never.
Arguments num_channels : simpl never.
Arguments sched : simpl never.

(** ** Memory *)

(** [n] bytes from [a] on; sealed, so that no comparison of assertions lays
    out the 4079 bytes of a message. *)
Definition room_def (a n : Z) : hPropI := ([∗ list] i ∈ seqZ 0 n, (a + i) ↦?)%I.
Definition room_aux : seal (@room_def). Proof. by eexists. Qed.
Definition room := room_aux.(unseal).
Lemma room_unseal : room = room_def.
Proof. exact room_aux.(seal_eq). Qed.

Lemma block_room p n :
  HeapLogic.block p (Layout 4104 (0 :: 8 :: 16 :: seqZ 24 n)) ⊣⊢
    type p ↦? ∗ len p ↦? ∗ mnext p ↦? ∗ room (data p) n.
Proof.
  rewrite room_unseal. unfold HeapLogic.block, room_def. simpl ly_fields. rewrite !big_sepL_cons Z.add_0_r. 
  rewrite -(fmap_add_seqZ 24 0 n : _ = seqZ 24 n) big_sepL_fmap.
  unfold type, len, mnext, data. do 4 f_equiv. intros i x.
  by replace (p + (24 + x)) with (p + 24 + x) by lia.
Qed.

Lemma block_message p :
  HeapLogic.block p message_layout ⊣⊢
    type p ↦? ∗ len p ↦? ∗ mnext p ↦? ∗ room (data p) MAX_MESSAGE_LEN.
Proof. exact (block_room p MAX_MESSAGE_LEN). Qed.

Lemma store_bytes_loop_spec a bs : ∀ o,
  {{ [∗ list] i ∈ seqZ o (Z.of_nat (length bs)), (a + i) ↦? }} store_bytes (a + o) bs
  {{ _, [∗ list] i ↦ b ∈ bs, (a + o + Z.of_nat i) ↦ b }}.
Proof.
  induction bs as [|b bs IH]; intros o; triple_start.
  - iIntros "_". simpl. by wp_rets.
  - rewrite seqZ_cons; [|simpl; lia]. rewrite big_sepL_cons. iIntros "[[% H] Hr]".
    replace (Z.pred (Z.of_nat (length (b :: bs)))) with (Z.of_nat (length bs)) by (simpl; lia).
    cbn [store_bytes]. wp_store. replace (a + o + 1) with (a + Z.succ o) by lia.
    wp_call (IH (Z.succ o)) with "Hr". iIntros (_) "Hr".
    rewrite Z.add_0_r. iFrame. iApply (big_sepL_impl with "Hr").
    iIntros "!>" (i x _) "H". by replace (a + Z.succ o + Z.of_nat i) with (a + o + Z.of_nat (S i)) by lia.
Qed.

Lemma store_bytes_spec a bs :
  Z.of_nat (length bs) ≤ MAX_MESSAGE_LEN →
  {{ room a MAX_MESSAGE_LEN }} store_bytes a bs {{ _, buffer a bs }}.
Proof.
  intros Hlen. triple_start. rewrite room_unseal. unfold room_def, buffer, bytes.
  replace MAX_MESSAGE_LEN
    with (Z.of_nat (length bs) + (MAX_MESSAGE_LEN - Z.of_nat (length bs))) at 1 by lia.
  rewrite seqZ_app; [|lia..]. rewrite big_sepL_app. iIntros "[H1 H2]".
  pose proof (store_bytes_loop_spec a bs 0) as Hs. rewrite Z.add_0_r in Hs.
  wp_call Hs with "H1". iIntros (_) "$". by rewrite Z.add_0_l.
Qed.

Lemma bytes_forget a bs : ∀ o,
  ([∗ list] i ↦ b ∈ bs, (a + o + Z.of_nat i) ↦ b) ⊢
  ([∗ list] i ∈ seqZ o (Z.of_nat (length bs)), (a + i) ↦?).
Proof.
  induction bs as [|b bs IH]; intros o; [by iIntros "_"|].
  rewrite (seqZ_cons o); [|simpl; lia]. rewrite !big_sepL_cons Z.add_0_r.
  replace (Z.pred (Z.of_nat (length (b :: bs)))) with (Z.of_nat (length bs)) by (simpl; lia).
  iIntros "[H Hr]". iSplitL "H"; [by iExists _|]. iApply IH.
  iApply (big_sepL_impl with "Hr"). iIntros "!>" (i x _) "H".
  by replace (a + Z.succ o + Z.of_nat i) with (a + o + Z.of_nat (S i)) by lia.
Qed.

(** The memory of a message, whatever it holds. *)
Lemma buffer_room a bs :
  Z.of_nat (length bs) ≤ MAX_MESSAGE_LEN → buffer a bs ⊢ room a MAX_MESSAGE_LEN.
Proof.
  intros Hlen. rewrite room_unseal. unfold room_def, buffer, bytes.
  replace MAX_MESSAGE_LEN
    with (Z.of_nat (length bs) + (MAX_MESSAGE_LEN - Z.of_nat (length bs))) at 2 by lia.
  rewrite seqZ_app; [|lia..]. rewrite big_sepL_app Z.add_0_l. iIntros "[H1 $]".
  pose proof (bytes_forget a bs 0) as Hb. rewrite Z.add_0_r in Hb. by iApply Hb.
Qed.

(** ** What the functions do to the pending messages *)

Section abstract.
Context `{!OperatingSystem, !MessageIdentification, !Callbacks}.

Definition would_block (e : Z) : bool := (e =? EWOULDBLOCK) || (e =? EAGAIN).

(** The entry that a received message becomes. *)
Definition arrival (cbs : list callback) (bs : list Z) : entry :=
  ((callback_of cbs (identify bs)).1, Message (identify bs) bs).

(** Reading one descriptor until a read fails: what was read. *)
Fixpoint recv_abs (fuel : nat) (w : world) (fd : Z) : option (list (list Z) * world) :=
  match fuel with
  | O => None
  | S fuel =>
      match read_result (reads w) fd with
      | inr e => Some ([], World (S (reads w)) e (delivered w))
      | inl bs =>
          '(l, w') ← recv_abs fuel (World (S (reads w)) (errno w) (delivered w ++ [bs])) fd;
          Some (bs :: l, w')
      end
  end.

Definition flag_of {A} (flag : Z) (l : list A) : Z := match l with [] => flag | _ => 1 end.

(** One round over the channels. *)
Fixpoint check_abs (fuel : nat) (w : world) (chans : list Z) (flag : Z) :
    option (list (list Z) * Z * world) :=
  match chans with
  | [] => Some ([], flag, w)
  | fd :: chans =>
      '(l, w) ← recv_abs fuel w fd;
      if would_block (errno w) then
        '(l', r, w) ← check_abs fuel w chans (flag_of flag l);
        Some (l ++ l', r, w)
      else Some (l, -1, w)
  end.

(** Rounds until one finds nothing. *)
Fixpoint until_abs (fuel : nat) (w : world) (chans : list Z) : option (list (list Z) * Z * world) :=
  match fuel with
  | O => None
  | S fuel' =>
      '(l, r, w) ← check_abs fuel w chans 0;
      if 0 <? r then
        '(l', r, w) ← until_abs fuel' w chans;
        Some (l ++ l', r, w)
      else Some (l, r, w)
  end.

(** One turn of [fds_run]: the message handled, if any. *)
Definition turn_abs (fuel : nat) (w : world) (chans : list Z) (cbs : list callback)
    (arr : list entry) : option (option entry * list entry * world) :=
  '(l, _, w) ← until_abs fuel w chans;
  match pick (arr ++ (arrival cbs <$> l)) with
  | Some (x, arr') => Some (Some x, arr', w)
  | None => Some (None, [], w)
  end.

(** A whole run: the messages handled, the last of which failed with [err]. *)
Fixpoint run_abs (fuel : nat) (w : world) (chans : list Z) (cbs : list callback)
    (arr : list entry) : option (list entry * Z * list entry * world) :=
  match fuel with
  | O => None
  | S fuel' =>
      '(o, arr, w) ← turn_abs fuel w chans cbs arr;
      match o with
      | None => run_abs fuel' w chans cbs arr
      | Some x =>
          if verdict cbs x.2 =? 0 then
            '(xs, err, arr, w) ← run_abs fuel' w chans cbs arr;
            Some (x :: xs, err, arr, w)
          else Some ([x], verdict cbs x.2, arr, w)
      end
  end.

(** The scheduler with its channels, callbacks and pending messages. *)
Definition fd_sched (fds : Z) (chans : list Z) (cbs : list callback) (arr : list entry) : hPropI :=
  (⌜Z.of_nat (length chans) ≤ MAX_INPUT_CHANNELS ∧ Forall (λ c, fn_ok c.2) cbs ∧
    Forall (λ x, 0 ≤ m_type x.2 < NUM_MESSAGE_TYPES) arr⌝ ∗
   num_channels fds ↦ Z.of_nat (length chans) ∗
   ([∗ list] i ↦ fd ∈ chans, input_channels fds (Z.of_nat i) ↦ fd) ∗
   ([∗ list] i ∈ seqZ (Z.of_nat (length chans)) (MAX_INPUT_CHANNELS - Z.of_nat (length chans)),
      input_channels fds i ↦?) ∗
   scheduler (sched fds) cbs arr)%I.
End abstract.

Section specs.
Context `{!OperatingSystem, !Allocator, !AllocatorTotal, !MessageIdentification, !Callbacks}.

Lemma room_layout_wf n : 24 + n ≤ 4104 → layout_wf (Layout 4104 (0 :: 8 :: 16 :: seqZ 24 n)).
Proof.
  intros Hn. split; simpl ly_fields.
  - repeat (apply NoDup_cons; split; [rewrite ?elem_of_cons elem_of_seqZ; lia|]).
    apply NoDup_seqZ.
  - repeat (constructor; [simpl; lia|]). apply Forall_forall. intros i Hi%elem_of_seqZ.
    simpl ly_size. lia.
Qed.

Lemma message_layout_wf : layout_wf message_layout.
Proof. apply room_layout_wf. unfold MAX_MESSAGE_LEN. lia. Qed.

Lemma receive_one_message_spec w fds chans cbs arr fd :
  {{ fd_sched fds chans cbs arr }} receive_one_message w fds fd
  {{ r, match read_result (reads w) fd with
        | inl bs => ⌜r = (0, World (S (reads w)) (errno w) (delivered w ++ [bs]))⌝ ∗
                    fd_sched fds chans cbs (arr ++ [arrival cbs bs])
        | inr e => ⌜r = (-1, World (S (reads w)) e (delivered w))⌝ ∗ fd_sched fds chans cbs arr
        end }}.
Proof.
  triple_start. iIntros "(%Hok & Hn & Hch & Hroom & Hs)". unfold receive_one_message.
  wp_focus. iApply (wp_xmalloc _ _ message_layout_wf). iIntros (p Hp) "Hb".
  rewrite block_message (proj2 (Z.eqb_neq p NULL)) //. iDestruct "Hb" as "(Ht & [% Hl] & Hx & Hd)".
  wp_focus. iApply wp_ret. unfold read. destruct (read_result (reads w) fd) as [bs|e] eqn:Hr.
  - pose proof (read_length _ _ _ Hr) as Hlen.
    wp_call (store_bytes_spec (data p) bs Hlen) with "Hd". iIntros (_) "Hd". wp_ret. cbn.
    rewrite (proj2 (Z.ltb_ge _ 0)); [|lia]. wp_focus. iApply (wp_store with "Hl"). iIntros "Hl".
    wp_call (npfp_enqueue_spec (sched fds) cbs arr p bs) with "[$Hs $Ht $Hx $Hl $Hd]"; [done|].
    iIntros (_) "Hs". wp_ret. iSplit; [done|]. iFrame. iPureIntro.
    destruct Hok as (? & ? & ?). split_and!; [done|done|]. apply Forall_app. split; [done|].
    constructor; [apply identify_range|constructor].
  - wp_ret. cbn. wp_focus. iApply (wp_free message_layout with "[Ht Hl Hx Hd]").
    { rewrite block_message. iFrame. }
    wp_ret. iSplit; [done|]. by iFrame.
Qed.

Lemma receive_loop_spec fds chans cbs fd : ∀ fuel w arr ne l w',
  recv_abs fuel w fd = Some (l, w') →
  {{ fd_sched fds chans cbs arr }} receive_loop fuel w fds fd ne
  {{ r, ⌜r = (-1, flag_of ne l, w')⌝ ∗ fd_sched fds chans cbs (arr ++ (arrival cbs <$> l)) }}.
Proof.
  induction fuel as [|fuel IH]; intros w arr ne l w' Habs; [done|]. simpl in Habs.
  triple_start. iIntros "H". cbn [receive_loop].
  wp_call (receive_one_message_spec w fds chans cbs arr fd) with "H". iIntros (r) "H".
  destruct (read_result (reads w) fd) as [bs|e].
  - iDestruct "H" as "[-> H]". cbn.
    destruct (recv_abs fuel _ fd) as [[l' w'']|] eqn:Erec; simplify_eq/=.
    wp_call (IH _ (arr ++ [arrival cbs bs]) 1 _ _ Erec) with "H". iIntros (r) "[-> H]".
    rewrite -assoc. simpl. iSplit; [|done]. by destruct l'.
  - simplify_eq. iDestruct "H" as "[-> H]". cbn. wp_ret. iSplit; [done|]. by rewrite app_nil_r.
Qed.

Lemma receive_messages_spec fds chans cbs fd fuel w arr l w' :
  recv_abs fuel w fd = Some (l, w') →
  {{ fd_sched fds chans cbs arr }} receive_messages fuel w fds fd
  {{ r, ⌜r = (if would_block (errno w') then flag_of 0 l else -1, w')⌝ ∗
        fd_sched fds chans cbs (arr ++ (arrival cbs <$> l)) }}.
Proof.
  intros Habs. triple_start. iIntros "H". unfold receive_messages.
  wp_call (receive_loop_spec fds chans cbs fd fuel w arr 0 l w' Habs) with "H".
  iIntros (r) "[-> H]". cbn. fold (would_block (errno w')).
  destruct (would_block (errno w')); wp_ret; by iFrame.
Qed.

Lemma check_abs_flag fuel w chans flag l r w' :
  flag = 0 ∨ flag = 1 → check_abs fuel w chans flag = Some (l, r, w') → r = -1 ∨ r = 0 ∨ r = 1.
Proof.
  revert w flag l r w'. induction chans as [|fd chans IH]; intros w flag l r w' Hf Habs; simpl in Habs.
  { simplify_eq. naive_solver. }
  destruct (recv_abs fuel w fd) as [[l1 w1]|]; [|done]. simpl in Habs.
  destruct (would_block (errno w1)); [|simplify_eq; auto].
  destruct (check_abs fuel w1 chans (flag_of flag l1)) as [[[l2 r2] w2]|] eqn:E; simplify_eq/=.
  eapply IH; [|exact E]. destruct l1; simpl; auto.
Qed.

Lemma channels_loop_spec fds chans cbs fuel : ∀ done_ todo n w arr flag l r w',
  chans = done_ ++ todo → (length todo < n)%nat →
  check_abs fuel w todo flag = Some (l, r, w') →
  {{ fd_sched fds chans cbs arr }} channels_loop n fuel w fds (Z.of_nat (length done_)) flag
  {{ v, ⌜v = (r, w')⌝ ∗ fd_sched fds chans cbs (arr ++ (arrival cbs <$> l)) }}.
Proof.
  intros done_ todo. revert done_. induction todo as [|fd todo IH];
    intros done_ [|n] w arr flag l r w' Hch Hn Habs; simpl in Hn; try lia.
  - triple_start. iIntros "(%Hok & Hn & Hrest)". simpl in Habs. simplify_eq. cbn [channels_loop].
    wp_load. rewrite app_nil_r Z.ltb_irrefl. wp_ret. iSplit; [done|].
    rewrite !app_nil_r in Hok |- *. by iFrame.
  - triple_start. iIntros "(%Hok & Hn & Hch & Hrest)". cbn [channels_loop].
    simpl in Habs. destruct (recv_abs fuel w fd) as [[l1 w1]|] eqn:Er; [|done]. simpl in Habs.
    wp_load. rewrite (proj2 (Z.ltb_lt _ _)); [|subst chans; rewrite length_app; simpl; lia].
    assert (chans !! length done_ = Some fd) as Hfd by (subst; apply list_lookup_middle; done).
    iDestruct (big_sepL_lookup_acc _ _ _ _ Hfd with "Hch") as "[Hfd Hch]". wp_load.
    iDestruct ("Hch" with "Hfd") as "Hch".
    wp_call (receive_messages_spec fds chans cbs fd fuel w arr l1 w1 Er) with "[$Hn $Hch $Hrest]";
      [done|].
    iIntros (v) "[-> H]". simpl. destruct (would_block (errno w1)).
    + destruct (check_abs fuel w1 todo (flag_of flag l1)) as [[[l2 r2] w2]|] eqn:E; simplify_eq/=.
      replace (u64 (Z.of_nat (length done_) + 1)) with (Z.of_nat (length (done_ ++ [fd]))); last first.
      { destruct Hok as [Hok _]. rewrite length_app wrap_small /=; [lia|].
        rewrite length_app /= in Hok. unfold MAX_INPUT_CHANNELS, in_unsigned in *. lia. }
      rewrite (proj2 (Z.ltb_ge (flag_of 0 l1) 0)); [|destruct l1; simpl; lia].
      replace (if 0 <? flag_of 0 l1 then 1 else flag) with (flag_of flag l1) by by destruct l1.
      wp_call (IH (done_ ++ [fd]) n w1 (arr ++ (arrival cbs <$> l1)) (flag_of flag l1) _ _ _
        (ltac:(by rewrite -assoc)) (ltac:(lia)) E) with "H".
      iIntros (v) "[-> H]". by rewrite -assoc -fmap_app; iFrame.
    + simplify_eq. simpl. wp_ret. by iFrame.
Qed.

Lemma check_channels_spec fds chans cbs fuel w arr l r w' :
  check_abs fuel w chans 0 = Some (l, r, w') →
  {{ fd_sched fds chans cbs arr }} check_channels fuel w fds
  {{ v, ⌜v = (r, w')⌝ ∗ fd_sched fds chans cbs (arr ++ (arrival cbs <$> l)) }}.
Proof.
  intros Habs. triple_start. iIntros "H".
  iAssert ⌜Z.of_nat (length chans) ≤ MAX_INPUT_CHANNELS⌝%I as %Hlen.
  { iDestruct "H" as "[%Hok _]". naive_solver. }
  assert (length chans < S (Z.to_nat MAX_INPUT_CHANNELS))%nat as Hn by lia.
  iApply (channels_loop_spec fds chans cbs fuel [] chans _ w arr 0 l r w' eq_refl Hn Habs with "H").
Qed.

Lemma check_channels_until_empty_spec fds chans cbs : ∀ fuel w arr l r w',
  until_abs fuel w chans = Some (l, r, w') →
  {{ fd_sched fds chans cbs arr }} check_channels_until_empty fuel w fds
  {{ v, ⌜v = (r, w')⌝ ∗ fd_sched fds chans cbs (arr ++ (arrival cbs <$> l)) }}.
Proof.
  induction fuel as [|fuel IH]; intros w arr l r w' Habs; [done|]. cbn [until_abs] in Habs.
  destruct (check_abs (S fuel) w chans 0) as [[[l1 r1] w1]|] eqn:E; [|done]. simpl in Habs.
  pose proof (check_abs_flag _ _ _ _ _ _ _ (or_introl eq_refl) E) as Hr.
  triple_start. iIntros "H". cbn [check_channels_until_empty].
  wp_call (check_channels_spec fds chans cbs (S fuel) w arr l1 r1 w1 E) with "H".
  iIntros (v) "[-> H]". cbn. destruct Hr as [->|[->| ->]]; simpl in *.
  - simplify_eq. wp_ret. by iFrame.
  - simplify_eq. wp_ret. by iFrame.
  - destruct (until_abs fuel w1 chans) as [[[l2 r2] w2]|] eqn:E2; simplify_eq/=.
    wp_call (IH w1 (arr ++ (arrival cbs <$> l1)) _ _ _ E2) with "H".
    iIntros (v) "[-> H]". by rewrite -assoc -fmap_app; iFrame.
Qed.

Lemma msg_block a m : msg a m ∗ mnext a ↦? ⊢ HeapLogic.block a message_layout.
Proof.
  iIntros "[(Ht & %Hlen & Hl & Hd) Hn]". rewrite block_message.
  iSplitL "Ht"; [by iExists _|]. iSplitL "Hl"; [by iExists _|]. iFrame "Hn".
  by iApply buffer_room.
Qed.

Definition turn_of (cbs : list callback) (o : option entry) : turn :=
  match o with
  | None => NoMessage
  | Some x => if verdict cbs x.2 =? 0 then Handled else Failed (verdict cbs x.2)
  end.

Lemma fds_run_turn_spec fds chans cbs fuel w arr o arr' w' :
  turn_abs fuel w chans cbs arr = Some (o, arr', w') →
  {{ fd_sched fds chans cbs arr }} fds_run_turn fuel w fds
  {{ v, ⌜v = (turn_of cbs o, w')⌝ ∗ fd_sched fds chans cbs arr' }}.
Proof.
  intros Habs. unfold turn_abs in Habs.
  destruct (until_abs fuel w chans) as [[[l r] w1]|] eqn:E; [|done]. simpl in Habs.
  triple_start. iIntros "H". unfold fds_run_turn.
  wp_call (check_channels_until_empty_spec fds chans cbs fuel w arr l r w1 E) with "H".
  iIntros (v) "[-> (%Hok & Hn & Hch & Hroom & Hs)]". cbv beta iota.
  set (pool := arr ++ (arrival cbs <$> l)) in *.
  wp_call (npfp_dequeue_spec (sched fds) cbs pool) with "Hs". iIntros (a) "[H|H]".
  - iDestruct "H" as "[[-> %Hnil] Hs]". rewrite Hnil in Habs. simpl in Habs. simplify_eq.
    cbn. wp_ret. iSplit; [done|]. iFrame. iPureIntro. naive_solver.
  - iDestruct "H" as (x arr1) "([%Ha %Hp] & Hs & Hm & Hx)".
    pose proof Hp as (l1 & l2 & Ep & -> & _ & _).
    apply pick_picks in Hp. rewrite Hp in Habs. simplify_eq.
    rewrite (proj2 (Z.eqb_neq a NULL)) //. destruct Hok as (Hlen & Hfn & Hty). rewrite Ep in Hty.
    apply Forall_app in Hty as [Hty1 [Hty Hty2]%Forall_cons].
    wp_call (npfp_dispatch_spec (sched fds) cbs (l1 ++ l2) a x.2 Hty Hfn) with "[$Hs $Hm]".
    iIntros (err) "(-> & Hs & Hm)". wp_focus.
    iApply (wp_free message_layout with "[Hm Hx]"); [by iApply msg_block; iFrame|].
    wp_ret. iSplit; [by simpl; destruct (_ =? 0)|]. iFrame. iPureIntro. split_and!; [done|done|].
    by apply Forall_app.
Qed.

Lemma run_loop_spec fds chans cbs : ∀ fuel w arr xs err arr' w',
  run_abs fuel w chans cbs arr = Some (xs, err, arr', w') →
  {{ fd_sched fds chans cbs arr }} run_loop fuel w fds
  {{ v, ⌜v = (err, w')⌝ ∗ fd_sched fds chans cbs arr' }}.
Proof.
  induction fuel as [|fuel IH]; intros w arr xs err arr' w' Habs; [done|].
  cbn [run_abs] in Habs. destruct (turn_abs (S fuel) w chans cbs arr) as [[[o arr1] w1]|] eqn:E;
    [|done]. simpl in Habs.
  triple_start. iIntros "H". cbn [run_loop].
  wp_call (fds_run_turn_spec fds chans cbs (S fuel) w arr o arr1 w1 E) with "H".
  iIntros (v) "[-> H]". destruct o as [x|]; cbn.
  - destruct (Z.eqb_spec (verdict cbs x.2) 0).
    + destruct (run_abs fuel w1 chans cbs arr1) as [[[[xs1 err1] arr2] w2]|] eqn:E2; simplify_eq/=.
      iApply (IH _ _ _ _ _ _ E2 with "H").
    + simplify_eq. wp_ret. by iFrame.
  - iApply (IH _ _ _ _ _ _ Habs with "H").
Qed.

(** ** Draining the channels terminates *)

(** From the [T]-th read on, every read finds nothing for now. *)
Definition quiet (T : nat) : Prop :=
  ∀ t fd, (T ≤ t)%nat → ∃ e, read_result t fd = inr e ∧ would_block e = true.

Lemma recv_abs_total T fd : quiet T → ∀ fuel w,
  (T - reads w < fuel)%nat → ∃ l w', recv_abs fuel w fd = Some (l, w') ∧
    (reads w < reads w')%nat ∧ ((T ≤ reads w)%nat → l = [] ∧ would_block (errno w') = true).
Proof.
  intros HT fuel. induction fuel as [|fuel IH]; intros w Hf; [lia|]. simpl.
  destruct (read_result (reads w) fd) as [bs|e] eqn:E.
  - assert (reads w < T)%nat as Hlt.
    { destruct (decide (reads w < T)%nat); [done|]. destruct (HT (reads w) fd) as (e & He & _); [lia|].
      congruence. }
    destruct (IH (World (S (reads w)) (errno w) (delivered w ++ [bs]))) as (l & w' & -> & Hr & _); [simpl; lia|].
    exists (bs :: l), w'. simpl in *. split_and!; [done|lia|lia].
  - exists [], (World (S (reads w)) e (delivered w)). split_and!; [done|simpl; lia|]. intros Hge.
    destruct (HT (reads w) fd Hge) as (e' & He & Hb). rewrite He in E. by simplify_eq.
Qed.

Lemma check_abs_total T fuel chans : quiet T → ∀ w flag,
  (T - reads w < fuel)%nat → ∃ l r w', check_abs fuel w chans flag = Some (l, r, w') ∧
    (reads w ≤ reads w')%nat ∧ (r ≠ -1 → r = flag ∨ (reads w < reads w')%nat) ∧
    ((T ≤ reads w)%nat → l = [] ∧ r = flag).
Proof.
  intros HT. induction chans as [|fd chans IH]; intros w flag Hf; simpl.
  { exists [], flag, w. auto with lia. }
  destruct (recv_abs_total T fd HT fuel w Hf) as (l1 & w1 & -> & Hr1 & Hq1). simpl.
  destruct (would_block (errno w1)) eqn:Eb.
  - destruct (IH w1 (flag_of flag l1)) as (l2 & r & w2 & -> & Hr2 & Hc2 & Hq2); [lia|].
    exists (l1 ++ l2), r, w2. split_and!; [done|lia|lia|]. intros Hge.
    destruct Hq1 as [-> _]; [done|]. apply Hq2. lia.
  - exists l1, (-1), w1. split_and!; [done|lia|lia|]. intros Hge.
    by destruct Hq1 as [_ ?]; [done|congruence].
Qed.

Lemma until_abs_total T chans : quiet T → ∀ fuel w,
  (T - reads w < fuel)%nat → ∃ l r w', until_abs fuel w chans = Some (l, r, w') ∧ r ≤ 0 ∧
    (reads w ≤ reads w')%nat ∧ ((T ≤ reads w)%nat → l = []).
Proof.
  intros HT fuel. induction fuel as [|fuel IH]; intros w Hf; [lia|]. cbn [until_abs].
  destruct (check_abs_total T (S fuel) chans HT w 0 Hf) as (l & r & w1 & E & Hr & Hc & Hq).
  rewrite E. simpl. destruct (Z.ltb_spec 0 r).
  - assert (reads w < T)%nat.
    { destruct (decide (T ≤ reads w)%nat) as [Hge|]; [|lia]. destruct (Hq Hge). lia. }
    destruct (IH w1) as (l' & r' & w2 & -> & ? & ? & ?); [destruct Hc; lia|].
    simpl. exists (l ++ l'), r', w2. split_and!; [done|lia|lia|lia].
  - exists l, r, w1. split_and!; [done|lia|lia|naive_solver].
Qed.

(** What draining does to the world: it adds what it read to the messages read,
    every one of them was read before the channels fell silent, and a read that
    gets a message with [Q] on any channel leaves such a message behind. *)
Definition logged (T : nat) (chans : list Z) (w : world) (l : list (list Z)) (w' : world) : Prop :=
  (reads w ≤ reads w')%nat ∧ delivered w' = delivered w ++ l ∧
  (length l + (T - reads w') ≤ T - reads w)%nat ∧
  ∀ t Q, (reads w ≤ t < reads w')%nat →
    (∀ fd, fd ∈ chans → ∃ bs, read_result t fd = inl bs ∧ Q bs) → Exists Q l.

Lemma logged_trans T chans w1 l1 w2 l2 w3 :
  logged T chans w1 l1 w2 → logged T chans w2 l2 w3 → logged T chans w1 (l1 ++ l2) w3.
Proof.
  intros (Hr1 & Hd1 & Hl1 & Hq1) (Hr2 & Hd2 & Hl2 & Hq2). split_and!; [lia| | |].
  - by rewrite Hd2 Hd1 assoc_L.
  - rewrite length_app. lia.
  - intros t Q Ht HQ. apply Exists_app. destruct (decide (t < reads w2)%nat).
    + left. apply (Hq1 t); [lia|done].
    + right. apply (Hq2 t); [lia|done].
Qed.

Lemma logged_refl T chans w : logged T chans w [] w.
Proof. split_and!; [done|by rewrite app_nil_r|done|]. intros. lia. Qed.

Lemma recv_abs_logged T chans fd : quiet T → fd ∈ chans → ∀ fuel w l w',
  recv_abs fuel w fd = Some (l, w') → logged T chans w l w' ∧ (reads w < reads w')%nat.
Proof.
  intros HT Hfd fuel. induction fuel as [|fuel IH]; intros w l w' E; [done|]. simpl in E.
  destruct (read_result (reads w) fd) as [bs|e] eqn:Er.
  - assert (reads w < T)%nat as Hlt.
    { destruct (decide (reads w < T)%nat); [done|]. destruct (HT (reads w) fd) as (e & He & _); [lia|].
      congruence. }
    destruct (recv_abs fuel _ fd) as [[l1 w1]|] eqn:E1; simplify_eq/=.
    destruct (IH _ _ _ E1) as [Hlog Hr]. simpl in Hr. split; [|lia].
    eapply (logged_trans T chans w [bs]); [|exact Hlog]. split_and!; simpl; [lia|done|lia|].
    intros t Q Ht HQ. assert (t = reads w) as -> by lia. destruct (HQ fd Hfd) as (bs' & E & HQb).
    rewrite Er in E. simplify_eq. by constructor.
  - simplify_eq. split; [|simpl; lia]. split_and!; simpl; [lia|by rewrite app_nil_r|lia|].
    intros t Q Ht HQ. assert (t = reads w) as -> by lia. destruct (HQ fd Hfd) as (bs' & E & HQb). congruence.
Qed.

Lemma check_abs_logged T all fuel chans : quiet T → chans ⊆ all → ∀ w flag l r w',
  check_abs fuel w chans flag = Some (l, r, w') →
  logged T all w l w' ∧ (chans ≠ [] → (reads w < reads w')%nat).
Proof.
  intros HT. induction chans as [|fd chans IH]; intros Hsub w flag l r w' E; simpl in E.
  { simplify_eq. split; [apply logged_refl|done]. }
  destruct (recv_abs fuel w fd) as [[l1 w1]|] eqn:E1; [|done]. simpl in E.
  destruct (recv_abs_logged T all fd HT ltac:(set_solver) _ _ _ _ E1) as [Hg1 Hr1].
  destruct (would_block (errno w1)); [|by simplify_eq].
  destruct (check_abs fuel w1 chans _) as [[[l2 r2] w2]|] eqn:E2; simplify_eq/=.
  destruct (IH ltac:(set_solver) _ _ _ _ _ E2) as [Hg2 _].
  split; [by eapply logged_trans|]. intros _. destruct Hg2 as [? _]. lia.
Qed.

Lemma until_abs_logged T chans : quiet T → chans ≠ [] → ∀ fuel w l r w',
  until_abs fuel w chans = Some (l, r, w') → logged T chans w l w' ∧ (reads w < reads w')%nat.
Proof.
  intros HT Hch fuel. induction fuel as [|fuel IH]; intros w l r w' E; [done|]. cbn [until_abs] in E.
  destruct (check_abs (S fuel) w chans 0) as [[[l1 r1] w1]|] eqn:E1; [|done]. simpl in E.
  destruct (check_abs_logged T chans _ _ HT ltac:(done) _ _ _ _ _ E1) as [Hg1 Hr1]. specialize (Hr1 Hch).
  destruct (0 <? r1); [|by simplify_eq].
  destruct (until_abs fuel w1 chans) as [[[l2 r2] w2]|] eqn:E2; simplify_eq/=.
  destruct (IH _ _ _ _ E2) as [Hg2 Hr2]. split; [by eapply logged_trans|lia].
Qed.

(** ** A run ends *)

(** Every message read is handled or pending in the end. *)
Lemma run_abs_accounts T chans cbs : quiet T → chans ≠ [] → ∀ fuel w arr xs err arr' w',
  run_abs fuel w chans cbs arr = Some (xs, err, arr', w') →
  ∃ l, delivered w' = delivered w ++ l ∧ arr ++ (arrival cbs <$> l) ≡ₚ xs ++ arr'.
Proof.
  intros HT Hch fuel. induction fuel as [|fuel IH]; intros w arr xs err arr' w' E; [done|].
  cbn [run_abs] in E. unfold turn_abs in E.
  destruct (until_abs (S fuel) w chans) as [[[l r] w1]|] eqn:Eu; [|done]. cbn -[pick run_abs] in E.
  destruct (until_abs_logged T chans HT Hch _ _ _ _ _ Eu) as [(_ & Hd & _) _].
  destruct (pick _) as [[x arr1]|] eqn:Ep; cbn -[run_abs] in E.
  - apply pick_picks in Ep as (l1 & l2 & Ep & -> & _ & _).
    destruct (verdict cbs x.2 =? 0).
    + destruct (run_abs fuel w1 chans cbs (l1 ++ l2)) as [[[[xs1 err1] arr2] w2]|] eqn:E1; simplify_eq/=.
      destruct (IH _ _ _ _ _ _ E1) as (l' & Hd' & Hp). exists (l ++ l').
      split; [by rewrite Hd' Hd assoc_L|].
      rewrite fmap_app (assoc_L (++) arr) Ep -(Permutation_middle l1 l2 x).
      simpl. by rewrite Hp.
    + simplify_eq. exists l. split; [done|]. rewrite Ep. by rewrite -Permutation_middle.
  - apply pick_none, app_nil in Ep as [-> Hl]. apply fmap_nil_inv in Hl as ->.
    destruct (IH _ _ _ _ _ _ E) as (l' & Hd' & Hp). exists l'. by rewrite Hd' Hd app_nil_r.
Qed.

(** A message whose callback fails ends the run: it is pending, or the [t]-th
    read gets one whatever channel it is on. *)
Lemma run_abs_total T t chans cbs : quiet T → chans ≠ [] →
  (∀ fd, fd ∈ chans → ∃ bs, read_result t fd = inl bs ∧ verdict cbs (arrival cbs bs).2 ≠ 0) →
  ∀ fuel w arr, (reads w ≤ t)%nat ∨ Exists (λ x, verdict cbs x.2 ≠ 0) arr →
  (2 * (T - reads w) + length arr < fuel)%nat →
  ∃ xs err arr' w', run_abs fuel w chans cbs arr = Some (xs, err, arr', w').
Proof.
  intros HT Hch Ht fuel. induction fuel as [|fuel IH]; intros w arr Hw Hf; [lia|].
  assert (t < T)%nat as HtT.
  { destruct (decide (t < T)%nat); [done|]. destruct chans as [|fd chans]; [done|].
    destruct (Ht fd) as (bs & E & _); [set_solver|]. destruct (HT t fd) as (e & He & _); [lia|]. congruence. }
  cbn [run_abs]. unfold turn_abs.
  destruct (until_abs_total T chans HT (S fuel) w) as (l & r & w1 & E & _); [lia|]. rewrite E.
  destruct (until_abs_logged T chans HT Hch _ _ _ _ _ E) as [(_ & _ & Hlen & Hq) Hr]. cbn -[pick run_abs].
  assert ((reads w1 ≤ t)%nat ∨ Exists (λ x, verdict cbs x.2 ≠ 0) (arr ++ (arrival cbs <$> l))) as Hnext.
  { destruct (decide (reads w1 ≤ t)%nat); [by left|right]. apply Exists_app. destruct Hw as [Hw|Hw]; [right|by left].
    apply Exists_fmap. apply (Hq t (λ bs, verdict cbs (arrival cbs bs).2 ≠ 0)); [lia|done]. }
  destruct (pick _) as [[x arr1]|] eqn:Ep; cbn -[run_abs].
  - apply pick_picks in Ep as (l1 & l2 & Ep & -> & _ & _).
    destruct (Z.eqb_spec (verdict cbs x.2) 0) as [Hx|Hx]; [|by eauto].
    apply (f_equal length) in Ep as Hl. rewrite !length_app length_fmap /= in Hl.
    destruct (IH w1 (l1 ++ l2)) as (xs & err & arr' & w' & ->); [| |by eauto].
    + destruct Hnext as [?|Hex]; [by left|right]. rewrite Ep in Hex.
      rewrite Exists_app Exists_cons in Hex. rewrite Exists_app. naive_solver.
    + rewrite length_app. lia.
  - apply pick_none, app_nil in Ep as [-> Hl]. apply fmap_nil_inv in Hl as ->.
    apply IH; simpl in *; [done|]. destruct Hw as [Hw|Hw%Exists_nil]; [lia|done].
Qed.

(** ** The order in which pending messages are handled *)

Fixpoint order (n : nat) (arr : list entry) : list entry :=
  match n with
  | O => []
  | S n => match pick arr with Some (x, arr') => x :: order n arr' | None => [] end
  end.
Definition handling_order (arr : list entry) : list entry := order (length arr) arr.

Lemma handling_order_pick arr x arr' :
  pick arr = Some (x, arr') → handling_order arr = x :: handling_order arr'.
Proof.
  intros Hp. unfold handling_order. pose proof Hp as (l1 & l2 & -> & -> & _)%pick_picks.
  replace (length (l1 ++ x :: l2)) with (S (length (l1 ++ l2)))
    by (rewrite !length_app /=; lia).
  simpl. by rewrite Hp.
Qed.

Lemma handling_order_ind (P : list entry → list entry → Prop) :
  P [] [] →
  (∀ arr x arr', picks arr x arr' → P arr' (handling_order arr') →
     P arr (x :: handling_order arr')) →
  ∀ arr, P arr (handling_order arr).
Proof.
  intros Hnil HS arr. remember (length arr) as n eqn:Hn. revert arr Hn.
  induction n as [|n IH]; intros arr Hn.
  { by destruct arr. }
  destruct (pick arr) as [[x arr']|] eqn:E; [|by apply pick_none in E as ->].
  rewrite (handling_order_pick _ _ _ E). apply pick_picks in E as Hp.
  apply HS; [done|]. apply IH. destruct Hp as (l1 & l2 & -> & -> & _).
  rewrite length_app /= in Hn. rewrite length_app. lia.
Qed.

(** It is the stable sort of the pending messages by priority: everything is
    handled, best priority first, in order of arrival within a priority. *)
Lemma handling_order_stable_sort arr :
  handling_order arr ≡ₚ arr ∧ StronglySorted (λ x y, x.1 ≤ y.1) (handling_order arr) ∧
  ∀ p, queue_of (handling_order arr) p = queue_of arr p.
Proof.
  apply (handling_order_ind (λ arr ord,
    ord ≡ₚ arr ∧ StronglySorted (λ x y, x.1 ≤ y.1) ord ∧ ∀ p, queue_of ord p = queue_of arr p)).
  { split_and!; [done|constructor|done]. }
  intros a x a' (l1 & l2 & -> & -> & Hl1 & Hl2) (Hperm & Hsort & Hst). split_and!.
  - rewrite Hperm. by apply Permutation_middle.
  - constructor; [done|]. rewrite Hperm. apply Forall_app. split; [|done].
    eapply Forall_impl; [done|]. simpl. lia.
  - intros p. rewrite queue_of_cons Hst !queue_of_app queue_of_cons. case_decide as E; [|done].
    assert (queue_of l1 p = []) as ->; [|done]. subst p. clear -Hl1.
    induction Hl1 as [|y l1 Hy Hl1 IH]; [done|]. by rewrite queue_of_cons decide_False; [|lia].
Qed.

Lemma quiet_mono T T' : quiet T → (T ≤ T')%nat → quiet T'.
Proof. intros HT Hle t fd Ht. apply HT. lia. Qed.

Lemma run_abs_quiet chans cbs x : ∀ xs rest arr fuel w,
  quiet (reads w) → handling_order arr = xs ++ x :: rest →
  Forall (λ y, verdict cbs y.2 = 0) xs → verdict cbs x.2 ≠ 0 → (length xs < fuel)%nat →
  ∃ arr' w', run_abs fuel w chans cbs arr = Some (xs ++ [x], verdict cbs x.2, arr', w') ∧
    handling_order arr' = rest.
Proof.
  induction xs as [|y xs IH]; intros rest arr [|fuel] w Hq Hord Hxs Hx Hf; simpl in Hf; try lia;
    cbn [run_abs]; unfold turn_abs;
    (destruct (until_abs_total (reads w) chans Hq (S fuel) w) as (l & r & w1 & -> & _ & Hw & Hl);
     [lia|]); rewrite Hl //; cbn -[pick run_abs]; rewrite app_nil_r;
    (destruct (pick arr) as [[z arr1]|] eqn:Ep; [|by apply pick_none in Ep as ->]);
    rewrite (handling_order_pick _ _ _ Ep) in Hord; simplify_eq/=.
  - rewrite (proj2 (Z.eqb_neq _ 0)) //. eauto.
  - apply Forall_cons in Hxs as [Hy Hxs]. rewrite Hy. cbn -[run_abs].
    destruct (IH rest arr1 fuel w1) as (arr' & w' & -> & ?);
      [by eapply quiet_mono|done|done|done|lia|]. simpl. eauto.
Qed.

(** [check_channels_until_empty] terminates whenever the channels fall
    silent at some point: if from the [T]-th read on every read would block, a
    fuel of [T] reads suffices, every message that was read is pending, in
    the order of the reads, behind what was pending before, and the result is
    0 or an error. *)
Theorem check_channels_until_empty_drains T fds chans cbs arr fuel w :
  quiet T → (T - reads w < fuel)%nat →
  ∃ l r w', until_abs fuel w chans = Some (l, r, w') ∧ r ≤ 0 ∧
  {{ fd_sched fds chans cbs arr }} check_channels_until_empty fuel w fds
  {{ v, ⌜v = (r, w')⌝ ∗ fd_sched fds chans cbs (arr ++ (arrival cbs <$> l)) }}.
Proof.
  intros HT Hf. destruct (until_abs_total T chans HT fuel w Hf) as (l & r & w' & E & Hr & _).
  exists l, r, w'. split_and!; [done|done|]. by apply check_channels_until_empty_spec.
Qed.

(** One turn of [fds_run]: after the channels have been drained, the first
    message of the best priority among everything that is pending, old or just
    received, is handled by the callback of its type and released; no message
    is handled only if none is pending. *)
Theorem fds_run_turn_dispatches_best fds chans cbs arr fuel w l r w' :
  until_abs fuel w chans = Some (l, r, w') →
  {{ fd_sched fds chans cbs arr }} fds_run_turn fuel w fds
  {{ v, ⌜v.2 = w'⌝ ∗
        ((⌜v.1 = NoMessage ∧ arr = [] ∧ l = []⌝ ∗ fd_sched fds chans cbs []) ∨
         (∃ x arr', ⌜picks (arr ++ (arrival cbs <$> l)) x arr' ∧
            v.1 = if verdict cbs x.2 =? 0 then Handled else Failed (verdict cbs x.2)⌝ ∗
            fd_sched fds chans cbs arr')) }}.
Proof.
  intros E. triple_start. iIntros "H".
  destruct (turn_abs fuel w chans cbs arr) as [[[o arr'] w1]|] eqn:Et.
  - iApply (wp_triple _ _ _ _ (fds_run_turn_spec fds chans cbs _ _ _ _ _ _ Et) with "H").
    iIntros (v) "[-> H]". unfold turn_abs in Et. rewrite E in Et. simpl in Et.
    destruct (pick _) as [[x arr1]|] eqn:Ep; simplify_eq; (iSplit; [done|]).
    + iRight. iExists x, arr'. iFrame. iPureIntro. split; [by apply pick_picks|done].
    + iLeft. iFrame. iPureIntro. apply pick_none, app_nil in Ep as [-> Hl].
      by apply fmap_nil_inv in Hl as ->.
  - unfold turn_abs in Et. rewrite E in Et. simpl in Et. by destruct (pick _) as [[??]|].
Qed.

(** C12. [fds_run] with messages pending and silent channels: the messages are
    handled in the order of a stable sort by priority, up to the first whose
    callback fails, and that failure is what [fds_run] returns; the messages
    after it stay pending. [malloc] is assumed to succeed ([AllocatorTotal]). *)
Theorem fds_run_handles_in_priority_order fds chans cbs arr fuel w xs x rest :
  quiet (reads w) → chans ≠ [] → handling_order arr = xs ++ x :: rest →
  Forall (λ y, verdict cbs y.2 = 0) xs → verdict cbs x.2 ≠ 0 → (length xs < fuel)%nat →
  (handling_order arr ≡ₚ arr ∧ StronglySorted (λ y z, y.1 ≤ z.1) (handling_order arr) ∧
   ∀ p, queue_of (handling_order arr) p = queue_of arr p) ∧
  {{ fd_sched fds chans cbs arr }} fds_run fuel w fds
  {{ v, ⌜v.1 = verdict cbs x.2⌝ ∗
        ∃ left, ⌜handling_order left = rest⌝ ∗ fd_sched fds chans cbs left }}.
Proof.
  intros Hq Hch Hord Hxs Hx Hf. split; [apply handling_order_stable_sort|].
  destruct (run_abs_quiet chans cbs x xs rest arr fuel w Hq Hord Hxs Hx Hf)
    as (left & w' & E & Hleft).
  triple_start. iIntros "(%Hok & Hn & Hr)". unfold fds_run. wp_load.
  rewrite (proj2 (Z.ltb_lt 0 _)); [|destruct chans; simpl; [done|lia]].
  wp_focus. iApply wp_ret.
  iApply (wp_triple _ _ _ _ (run_loop_spec fds chans cbs _ _ _ _ _ _ _ E) with "[$Hn $Hr]"); [done|].
  iIntros (v) "[-> H]". iSplit; [done|]. iExists left. by iFrame.
Qed.

End specs.

(** ** Setting the scheduler up *)

(** A [struct fd_scheduler] before its initialisation. *)
Definition fds_uninit (fds : Z) : hPropI :=
  (num_channels fds ↦? ∗ ([∗ list] i ∈ seqZ 0 MAX_INPUT_CHANNELS, input_channels fds i ↦?) ∗
   ([∗ list] i ∈ seqZ 0 4, bits (prio_levels (sched fds)) i ↦?) ∗
   ([∗ list] t ∈ seqZ 0 (Z.of_nat (Z.to_nat NUM_MESSAGE_TYPES)),
      cb_prio (sched fds) t ↦? ∗ cb_f (sched fds) t ↦?) ∗
   ([∗ list] p ∈ seqZ 0 (Z.of_nat (Z.to_nat NUM_PRIORITIES)),
      first (pending (sched fds) p) ↦? ∗ last (pending (sched fds) p) ↦?))%I.

Lemma init_callbacks_spec s : ∀ n o,
  {{ [∗ list] t ∈ seqZ o (Z.of_nat n), cb_prio s t ↦? ∗ cb_f s t ↦? }} init_callbacks n s o
  {{ _, [∗ list] i ↦ c ∈ replicate n (0, NOP_CALLBACK),
          cb_prio s (o + Z.of_nat i) ↦ c.1 ∗ cb_f s (o + Z.of_nat i) ↦ c.2 }}.
Proof.
  induction n as [|n IH]; intros o; triple_start.
  - iIntros "_". simpl. by wp_rets.
  - rewrite seqZ_cons; [|lia]. rewrite big_sepL_cons. iIntros "[[[% H1] [% H2]] Hr]".
    replace (Z.pred (Z.of_nat (S n))) with (Z.of_nat n) by lia.
    cbn [init_callbacks]. wp_store. wp_store. rewrite -Z.add_1_r.
    wp_call (IH (o + 1)) with "Hr". iIntros (_) "Hr". rewrite Z.add_0_r. iFrame.
    iApply (big_sepL_impl with "Hr"). iIntros "!>" (i x _) "H".
    by replace (o + 1 + Z.of_nat i) with (o + Z.of_nat (S i)) by lia.
Qed.

Lemma init_queues_spec s : ∀ n o,
  {{ [∗ list] p ∈ seqZ o (Z.of_nat n), first (pending s p) ↦? ∗ last (pending s p) ↦? }}
    init_queues n s o
  {{ _, [∗ list] i ↦ ms ∈ replicate n ([] : list message), queue (pending s (o + Z.of_nat i)) ms }}.
Proof.
  induction n as [|n IH]; intros o; triple_start.
  - iIntros "_". simpl. by wp_rets.
  - rewrite seqZ_cons; [|lia]. rewrite big_sepL_cons. iIntros "[[[% H1] [% H2]] Hr]".
    replace (Z.pred (Z.of_nat (S n))) with (Z.of_nat n) by lia.
    cbn [init_queues]. wp_store. wp_store. wp_store. rewrite -Z.add_1_r.
    wp_call (IH (o + 1)) with "Hr". iIntros (_) "Hr". rewrite Z.add_0_r.
    iSplitL "H1 H2"; [iExists (first (pending s o)); by iFrame|].
    iApply (big_sepL_impl with "Hr"). iIntros "!>" (i x _) "H".
    by replace (o + 1 + Z.of_nat i) with (o + Z.of_nat (S i)) by lia.
Qed.

Lemma queues_of_nil : queues_of [] = replicate (Z.to_nat NUM_PRIORITIES) [].
Proof. rewrite queues_of_unseal. by vm_compute. Qed.

Lemma fds_init_spec `{!Callbacks} fds :
  {{ fds_uninit fds }} fds_init fds
  {{ _, fd_sched fds [] (replicate (Z.to_nat NUM_MESSAGE_TYPES) (0, NOP_CALLBACK)) [] }}.
Proof.
  triple_start. iIntros "([% Hn] & Hch & Hb & Hc & Hq)". unfold fds_init.
  wp_focus. iApply (wp_store with "Hn"). iIntros "Hn".
  wp_call (prio_level_init_spec (prio_levels (sched fds))) with "Hb". iIntros (_) "Hb".
  wp_call (init_callbacks_spec (sched fds) (Z.to_nat NUM_MESSAGE_TYPES) 0) with "Hc".
  iIntros (_) "Hc".
  wp_call (init_queues_spec (sched fds) (Z.to_nat NUM_PRIORITIES) 0) with "Hq".
  iIntros (_) "Hq". iSplit.
  { iPureIntro. split_and!; [done| |constructor]. apply Forall_replicate. by left. }
  iFrame "Hn Hch". iSplit; [done|]. iSplit.
  { iPureIntro. split_and!; [by vm_compute| |constructor]. apply Forall_replicate.
    unfold prio_ok, NUM_PRIORITIES. simpl. lia. }
  rewrite queues_of_nil. iFrame "Hc Hq". iApply (bitmap_ext with "Hb"). done.
Qed.

Section setup.
Context `{!OperatingSystem, !Callbacks}.

(** A descriptor that [fcntl] accepts is added at the end; otherwise nothing
    changes and the error is returned. *)
Lemma fds_add_channel_spec fds chans cbs arr fd :
  Z.of_nat (length chans) < MAX_INPUT_CHANNELS →
  {{ fd_sched fds chans cbs arr }} fds_add_channel fds fd
  {{ r, ⌜r = fcntl fd F_SETFL O_NONBLOCK⌝ ∗
        fd_sched fds (if decide (r = 0) then chans ++ [fd] else chans) cbs arr }}.
Proof.
  intros Hlt. triple_start. iIntros "(%Hok & Hn & Hch & Hr & Hs)". unfold fds_add_channel.
  wp_load. rewrite (proj2 (Z.ltb_lt _ _)) //. wp_focus. iApply wp_ret.
  destruct (Z.eqb_spec (fcntl fd F_SETFL O_NONBLOCK) 0) as [E|E]; simpl.
  - rewrite seqZ_cons; [|lia]. rewrite big_sepL_cons. iDestruct "Hr" as "[[% Hc] Hr]".
    wp_load. wp_store. wp_load. wp_store. rewrite E. iSplit; [done|]. iSplit.
    { iPureIntro. split; [|naive_solver]. rewrite length_app. simpl. lia. }
    rewrite wrap_small; [|unfold in_unsigned, MAX_INPUT_CHANNELS in *; lia].
    rewrite length_app big_sepL_app /=. rewrite Nat.add_0_r.
    replace (Z.of_nat (length chans + 1)) with (Z.succ (Z.of_nat (length chans))) by lia.
    replace (MAX_INPUT_CHANNELS - Z.succ (Z.of_nat (length chans)))
      with (Z.pred (MAX_INPUT_CHANNELS - Z.of_nat (length chans))) by lia.
    rewrite -Z.add_1_r. by iFrame.
  - wp_rets. iSplit; [done|]. rewrite decide_False //. by iFrame.
Qed.

(** A seventeenth channel fails the assertion. *)
Lemma fds_add_channel_full fds fd h :
  load (num_channels fds) h = Ok MAX_INPUT_CHANNELS h →
  fds_add_channel fds fd h = Err AssertionFailure.
Proof. intros Hn. unfold fds_add_channel, mbind, M_bind. by rewrite Hn. Qed.

Lemma fds_set_callback_spec fds chans cbs arr t f p :
  0 ≤ t < NUM_MESSAGE_TYPES → prio_ok p → fn_ok f →
  {{ fd_sched fds chans cbs arr }} fds_set_callback fds t f p
  {{ _, fd_sched fds chans (<[Z.to_nat t := (p, f)]> cbs) arr }}.
Proof.
  intros Ht Hp Hf. triple_start.
  iIntros "(%Hok & Hn & Hch & Hr & (%Hlen & %Hcb & %Harr) & Hc & Hqs)".
  destruct (lookup_lt_is_Some_2 cbs (Z.to_nat t)) as [c Hc]; [lia|].
  unfold callbacks_at. iDestruct (big_sepL_insert_acc _ _ _ _ Hc with "Hc") as "[[H1 H2] Hc]".
  rewrite Z2Nat.id; [|lia]. unfold fds_set_callback. wp_store. wp_store.
  iSpecialize ("Hc" $! (p, f) with "[$H1 $H2]"). iSplit.
  { iPureIntro. destruct Hok as (? & ? & ?). split_and!; [done|by apply Forall_insert|done]. }
  iFrame. iPureIntro. rewrite length_insert. split_and!; [done|by apply Forall_insert|done].
Qed.
End setup.

End FdSched.
