(* ===== verification/Application.v ===== *)
(** * The example application (src/examples/scheduler/src/main.c)

    It instantiates the interfaces of the scheduler: how messages are
    classified ([MessageIdentification]) and what their callbacks answer
    ([Callbacks]).  What the callbacks print and how long they sleep is not
    modelled; the descriptors that io.c opens are parameters here (Sockets.v). *)
From S2P Require Import Prelude HeapLogic MessageQueue Scheduler FdSched.
From stdpp Require Import gmap list sorting.
From iris.proofmode Require Import proofmode.
Import MessageQueue Scheduler FdSched.
#[local] Open Scope Z_scope.

Module Application.

(** ** The code *)

(** [enum message_types] *)
Definition MSG_FOO : Z := 0.
Definition MSG_BAR : Z := 1.
Definition MSG_SLEEP : Z := 2.
Definition MSG_EXIT : Z := 3.
Definition MSG_GARBAGE : Z := 4.

Definition FOO_PRIO : Z := 27.
Definition BAR_PRIO : Z := 10.
Definition SLEEP_PRIO : Z := 1.
Definition EXIT_PRIO : Z := 2.
Definition GARBAGE_PRIO : Z := 100.

(** [!memcmp(s, p, n)] for a literal [s] of [n] bytes. *)
Fixpoint memcmp_eq (s : list Z) (p : Z) : M heap bool :=
  match s with
  | [] => mret true
  | c :: s =>
      b ← load p;
      r ← memcmp_eq s (p + 1);
      mret ((b =? c) && r)
  end.

Definition FOO : list Z := [70; 79; 79].
Definition foo : list Z := [102; 111; 111].
Definition BAR : list Z := [66; 65; 82].
Definition bar : list Z := [98; 97; 114].
Definition ZZZ : list Z := [90; 90; 90].
Definition zzz : list Z := [122; 122; 122].
Definition XXX : list Z := [88; 88; 88].
Definition xxx : list Z := [120; 120; 120].

(** [!memcmp(s1, p, 3) || !memcmp(s2, p, 3)] *)
Definition matches (s1 s2 : list Z) (p : Z) : M heap bool :=
  b ← memcmp_eq s1 p;
  if (b : bool) then mret true else memcmp_eq s2 p.

Definition message_identify_type (msg : Z) : M heap Z :=
  l ← load (len msg);
  if l <? 3 then mret MSG_GARBAGE else
  b ← matches FOO foo (data msg);
  if (b : bool) then mret MSG_FOO else
  b ← matches BAR bar (data msg);
  if (b : bool) then mret MSG_BAR else
  b ← matches ZZZ zzz (data msg);
  if (b : bool) then mret MSG_SLEEP else
  b ← matches XXX xxx (data msg);
  if (b : bool) then mret MSG_EXIT else mret MSG_GARBAGE.

(** The callbacks, without their output. *)
Definition on_foo (msg : Z) : M heap Z := _ ← load (len msg); mret 0.
Definition on_bar (msg : Z) : M heap Z := _ ← load (len msg); mret 0.
Definition on_sleep (msg : Z) : M heap Z := _ ← load (len msg); _ ← load (len msg); mret 0.
Definition on_termination (msg : Z) : M heap Z := mret 1.
Definition on_garbage (msg : Z) : M heap Z := _ ← load (len msg); mret 0.

(** Their addresses. *)
Definition ON_FOO : Z := 2.
Definition ON_BAR : Z := 3.
Definition ON_SLEEP : Z := 4.
Definition ON_TERMINATION : Z := 5.
Definition ON_GARBAGE : Z := 6.

Definition invoke_app (f msg : Z) : M heap Z :=
  if f =? ON_FOO then on_foo msg
  else if f =? ON_BAR then on_bar msg
  else if f =? ON_SLEEP then on_sleep msg
  else if f =? ON_TERMINATION then on_termination msg
  else if f =? ON_GARBAGE then on_garbage msg
  else fail UndefinedBehaviour.

(** ** The interfaces it implements *)

Definition starts_with (s bs : list Z) : bool := bool_decide (take (length s) bs = s).
Definition is_command (s1 s2 bs : list Z) : bool := starts_with s1 bs || starts_with s2 bs.

Definition classify (bs : list Z) : Z :=
  if Z.of_nat (length bs) <? 3 then MSG_GARBAGE
  else if is_command FOO foo bs then MSG_FOO
  else if is_command BAR bar bs then MSG_BAR
  else if is_command ZZZ zzz bs then MSG_SLEEP
  else if is_command XXX xxx bs then MSG_EXIT
  else MSG_GARBAGE.

Lemma memcmp_eq_spec s : ∀ a bs,
  (length s ≤ length bs)%nat →
  {{ bytes a bs }} memcmp_eq s a {{ r, ⌜r = starts_with s bs⌝ ∗ bytes a bs }}.
Proof.
  induction s as [|c s IH]; intros a bs Hlen; triple_start; iIntros "H".
  - simpl. wp_rets. iFrame. iPureIntro. unfold starts_with. by rewrite bool_decide_true.
  - destruct bs as [|b bs]; simpl in Hlen; [lia|]. cbn [memcmp_eq]. unfold bytes. simpl.
    rewrite Z.add_0_r. iDestruct "H" as "[Hb H]". wp_load.
    wp_call (IH (a + 1) bs (ltac:(lia))) with "[H]".
    { unfold bytes. iApply (big_sepL_impl with "H"). iIntros "!>" (i x _) "H".
      by replace (a + 1 + Z.of_nat i) with (a + Z.of_nat (S i)) by lia. }
    iIntros (r) "[-> H]". wp_ret. iFrame "Hb". iSplit.
    + iPureIntro. unfold starts_with. simpl. destruct (Z.eqb_spec b c) as [->|Hne]; simpl.
      * apply bool_decide_ext. split; congruence.
      * rewrite bool_decide_false; [done|]. by intros [= ? _].
    + unfold bytes. iApply (big_sepL_impl with "H"). iIntros "!>" (i x _) "H".
      by replace (a + 1 + Z.of_nat i) with (a + Z.of_nat (S i)) by lia.
Qed.

Lemma matches_spec s1 s2 a bs :
  (length s1 ≤ length bs)%nat → (length s2 ≤ length bs)%nat →
  {{ bytes a bs }} matches s1 s2 a {{ r, ⌜r = is_command s1 s2 bs⌝ ∗ bytes a bs }}.
Proof.
  intros H1 H2. triple_start. iIntros "H". unfold matches, is_command.
  wp_call (memcmp_eq_spec s1 a bs H1) with "H". iIntros (r) "[-> H]".
  destruct (starts_with s1 bs); [wp_rets; by iFrame|].
  iApply (memcmp_eq_spec s2 a bs H2 with "H").
Qed.

Lemma identify_app_spec a bs :
  {{ payload a bs }} message_identify_type a {{ r, ⌜r = classify bs⌝ ∗ payload a bs }}.
Proof.
  triple_start. iIntros "(%Hlen & Hl & Hb & Hrest)". unfold message_identify_type, classify.
  wp_load. destruct (Z.ltb_spec (Z.of_nat (length bs)) 3); [wp_rets; by iFrame|].
  wp_call (matches_spec FOO foo _ bs (ltac:(simpl; lia)) (ltac:(simpl; lia))) with "Hb".
  iIntros (r) "[-> Hb]". destruct (is_command FOO foo bs); [wp_rets; by iFrame|].
  wp_call (matches_spec BAR bar _ bs (ltac:(simpl; lia)) (ltac:(simpl; lia))) with "Hb".
  iIntros (r) "[-> Hb]". destruct (is_command BAR bar bs); [wp_rets; by iFrame|].
  wp_call (matches_spec ZZZ zzz _ bs (ltac:(simpl; lia)) (ltac:(simpl; lia))) with "Hb".
  iIntros (r) "[-> Hb]". destruct (is_command ZZZ zzz bs); [wp_rets; by iFrame|].
  wp_call (matches_spec XXX xxx _ bs (ltac:(simpl; lia)) (ltac:(simpl; lia))) with "Hb".
  iIntros (r) "[-> Hb]". destruct (is_command XXX xxx bs); wp_rets; by iFrame.
Qed.

Lemma classify_range bs : 0 ≤ classify bs < NUM_MESSAGE_TYPES.
Proof. unfold classify. repeat case_match; done. Qed.

#[export] Instance app_identification : MessageIdentification := {|
  Scheduler.message_identify_type := message_identify_type;
  identify := classify;
  identify_range := classify_range;
  message_identify_type_spec := identify_app_spec;
|}.

Definition callable_app (f : Z) : bool := bool_decide (ON_FOO ≤ f ≤ ON_GARBAGE).
Definition outcome_app (f : Z) (_ : message) : Z := if f =? ON_TERMINATION then 1 else 0.

Lemma invoke_app_spec f a m :
  callable_app f = true →
  {{ msg a m }} invoke_app f a {{ r, ⌜r = outcome_app f m⌝ ∗ msg a m }}.
Proof.
  intros Hf%bool_decide_eq_true. triple_start. iIntros "(Ht & %Hlen & Hl & Hb)".
  unfold ON_FOO, ON_GARBAGE in Hf.
  assert (f = 2 ∨ f = 3 ∨ f = 4 ∨ f = 5 ∨ f = 6) as [->|[->|[->|[->| ->]]]] by lia;
    unfold invoke_app, outcome_app; simpl;
    unfold on_foo, on_bar, on_sleep, on_termination, on_garbage;
    wp_steps; wp_rets; by iFrame.
Qed.

#[export] Instance app_callbacks : Callbacks := {|
  invoke := invoke_app;
  callable := callable_app;
  outcome := outcome_app;
  invoke_spec := invoke_app_spec;
|}.

(** ** main *)

(** The sockets that io.c opens. *)
Class Sockets := { open_udp_socket : Z → Z; open_stdin : Z }.

Definition UDP_LISTEN_PORT1 : Z := 2006.
Definition UDP_LISTEN_PORT2 : Z := 1619.

Section main.
Context `{!OperatingSystem, !Allocator, !AllocatorTotal, !Sockets}.

(** A descriptor that cannot be opened is reported but still added. *)
Definition main (fuel : nat) (w : world) (fds : Z) : M heap (Z * world) :=
  fds_init fds ;;
  let fd := open_udp_socket UDP_LISTEN_PORT1 in
  _ ← fds_add_channel fds fd;
  let fd := open_udp_socket UDP_LISTEN_PORT2 in
  _ ← fds_add_channel fds fd;
  let fd := open_stdin in
  _ ← fds_add_channel fds fd;
  fds_set_callback fds MSG_FOO ON_FOO FOO_PRIO ;;
  fds_set_callback fds MSG_BAR ON_BAR BAR_PRIO ;;
  fds_set_callback fds MSG_SLEEP ON_SLEEP SLEEP_PRIO ;;
  fds_set_callback fds MSG_EXIT ON_TERMINATION EXIT_PRIO ;;
  fds_set_callback fds MSG_GARBAGE ON_GARBAGE GARBAGE_PRIO ;;
  fds_run fuel w fds.

(** The channels that [fcntl] accepted, and the table of callbacks. *)
Definition opened : list Z :=
  filter (λ fd, fcntl fd F_SETFL O_NONBLOCK = 0)
    [open_udp_socket UDP_LISTEN_PORT1; open_udp_socket UDP_LISTEN_PORT2; open_stdin].
Definition app_table : list callback :=
  [(FOO_PRIO, ON_FOO); (BAR_PRIO, ON_BAR); (SLEEP_PRIO, ON_SLEEP); (EXIT_PRIO, ON_TERMINATION);
   (GARBAGE_PRIO, ON_GARBAGE)] ++ replicate (Z.to_nat (NUM_MESSAGE_TYPES - 5)) (0, NOP_CALLBACK).

Lemma app_table_insert :
  <[Z.to_nat MSG_GARBAGE := (GARBAGE_PRIO, ON_GARBAGE)]>
  (<[Z.to_nat MSG_EXIT := (EXIT_PRIO, ON_TERMINATION)]>
   (<[Z.to_nat MSG_SLEEP := (SLEEP_PRIO, ON_SLEEP)]>
    (<[Z.to_nat MSG_BAR := (BAR_PRIO, ON_BAR)]>
     (<[Z.to_nat MSG_FOO := (FOO_PRIO, ON_FOO)]>
       (replicate (Z.to_nat NUM_MESSAGE_TYPES) (0, NOP_CALLBACK)))))) = app_table.
Proof. by vm_compute. Qed.

(** A run handles messages until one fails. *)
Lemma run_abs_shape chans cbs : ∀ fuel w arr xs err arr' w',
  run_abs fuel w chans cbs arr = Some (xs, err, arr', w') →
  ∃ ys x, xs = ys ++ [x] ∧ Forall (λ y, verdict cbs y.2 = 0) ys ∧ verdict cbs x.2 = err ∧ err ≠ 0.
Proof.
  induction fuel as [|fuel IH]; intros w arr xs err arr' w' E; [done|]. cbn [run_abs] in E.
  destruct (turn_abs (S fuel) w chans cbs arr) as [[[[x|] arr1] w1]|]; [|by eapply IH|done].
  cbn -[run_abs] in E. destruct (Z.eqb_spec (verdict cbs x.2) 0).
  - destruct (run_abs fuel w1 chans cbs arr1) as [[[[xs1 err1] arr2] w2]|] eqn:E1; simplify_eq/=.
    destruct (IH _ _ _ _ _ _ E1) as (ys & y & -> & ? & ? & ?). exists (x :: ys), y. auto.
  - simplify_eq. exists [], x. auto.
Qed.

Lemma verdict_app m :
  0 ≤ m_type m < NUM_MESSAGE_TYPES → verdict app_table m = if m_type m =? MSG_EXIT then 1 else 0.
Proof.
  intros Hm. unfold verdict, callback_of, app_table.
  destruct (decide (m_type m < 5)) as [Hlt|Hge].
  - assert (m_type m = 0 ∨ m_type m = 1 ∨ m_type m = 2 ∨ m_type m = 3 ∨ m_type m = 4)
      as [->|[->|[->|[->| ->]]]] by lia; done.
  - rewrite (proj2 (Z.eqb_neq _ MSG_EXIT)); [|unfold MSG_EXIT; lia].
    rewrite lookup_total_app_r; [|simpl; lia].
    rewrite lookup_total_replicate_2; [done|]. simpl length. unfold NUM_MESSAGE_TYPES in *. lia.
Qed.

Lemma run_abs_forall (Q : entry → Prop) chans cbs : (∀ bs, Q (arrival cbs bs)) →
  ∀ fuel w arr xs err arr' w', Forall Q arr →
  run_abs fuel w chans cbs arr = Some (xs, err, arr', w') → Forall Q xs.
Proof.
  intros HQ. induction fuel as [|fuel IH]; intros w arr xs err arr' w' Harr E; [done|].
  cbn [run_abs] in E. unfold turn_abs in E.
  destruct (until_abs (S fuel) w chans) as [[[l r] w1]|]; [|done]. cbn -[pick run_abs] in E.
  assert (Forall Q (arr ++ (arrival cbs <$> l))) as Hall.
  { apply Forall_app. split; [done|]. apply Forall_fmap, Forall_forall. simpl. auto. }
  destruct (pick _) as [[x arr1]|] eqn:Ep; cbn -[run_abs] in E; [|eapply IH, E; constructor].
  apply pick_picks in Ep as (l1 & l2 & Ep & -> & _ & _). rewrite Ep in Hall.
  apply Forall_app in Hall as [Hl1 [Hx Hl2]%Forall_cons].
  assert (Forall Q (l1 ++ l2)) as Hrest by by apply Forall_app.
  destruct (verdict cbs x.2 =? 0).
  - destruct (run_abs fuel w1 chans cbs (l1 ++ l2)) as [[[[xs1 err1] arr2] w2]|] eqn:E1;
      simplify_eq/=. constructor; [done|]. by eapply IH.
  - simplify_eq. auto.
Qed.

Lemma main_setup_spec fuel w fds xs err arr' w' :
  opened ≠ [] → run_abs fuel w opened app_table [] = Some (xs, err, arr', w') →
  {{ fds_uninit fds }} main fuel w fds
  {{ v, ⌜v = (err, w')⌝ ∗ fd_sched fds opened app_table arr' }}.
Proof.
  intros Hop E. triple_start. iIntros "H". unfold main.
  wp_call (fds_init_spec fds) with "H". iIntros (_) "H".
  wp_call (fds_add_channel_spec fds [] _ [] (open_udp_socket UDP_LISTEN_PORT1) (ltac:(done))) with "H".
  iIntros (r1) "[%Hr1 H]".
  set (c1 := if decide (r1 = 0) then _ else _).
  assert (Z.of_nat (length c1) ≤ 1) by (unfold c1; case_decide; simpl; lia).
  wp_call (fds_add_channel_spec fds c1 _ [] (open_udp_socket UDP_LISTEN_PORT2)
    (ltac:(unfold MAX_INPUT_CHANNELS; lia))) with "H".
  iIntros (r2) "[%Hr2 H]".
  set (c2 := if decide (r2 = 0) then _ else _).
  assert (Z.of_nat (length c2) ≤ 2) by (unfold c2; case_decide; rewrite ?length_app /=; lia).
  wp_call (fds_add_channel_spec fds c2 _ [] open_stdin
    (ltac:(unfold MAX_INPUT_CHANNELS; lia))) with "H".
  iIntros (r3) "[%Hr3 H]".
  set (c3 := if decide (r3 = 0) then _ else _).
  assert (c3 = opened) as ->.
  { unfold c3, c2, c1, opened. rewrite !filter_cons filter_nil Hr1 Hr2 Hr3.
    by repeat case_decide. }
  wp_call (fds_set_callback_spec fds opened _ [] MSG_FOO ON_FOO FOO_PRIO
    (ltac:(done)) (ltac:(done)) (ltac:(by right))) with "H". iIntros (_) "H".
  wp_call (fds_set_callback_spec fds opened _ [] MSG_BAR ON_BAR BAR_PRIO
    (ltac:(done)) (ltac:(done)) (ltac:(by right))) with "H". iIntros (_) "H".
  wp_call (fds_set_callback_spec fds opened _ [] MSG_SLEEP ON_SLEEP SLEEP_PRIO
    (ltac:(done)) (ltac:(done)) (ltac:(by right))) with "H". iIntros (_) "H".
  wp_call (fds_set_callback_spec fds opened _ [] MSG_EXIT ON_TERMINATION EXIT_PRIO
    (ltac:(done)) (ltac:(done)) (ltac:(by right))) with "H". iIntros (_) "H".
  wp_call (fds_set_callback_spec fds opened _ [] MSG_GARBAGE ON_GARBAGE GARBAGE_PRIO
    (ltac:(done)) (ltac:(done)) (ltac:(by right))) with "H". iIntros (_) "H".
  rewrite app_table_insert. unfold fds_run.
  iDestruct "H" as "(%Hok & Hn & Hr)". wp_focus. iApply (wp_load with "Hn"). iIntros "Hn".
  rewrite (proj2 (Z.ltb_lt 0 _)); [|destruct opened; simpl; [done|lia]].
  wp_focus. iApply wp_ret.
  by iApply (run_loop_spec fds opened app_table _ _ _ _ _ _ _ E with "[$Hn $Hr]").
Qed.

(** C24. [main] sets the scheduler up on uninitialised memory with the channels
    that could be made non-blocking, of which there is at least one, and the
    five callbacks, and returns 1 when the first exit message has been handled.
    It does return if [malloc] succeeds and, of the reads to come, one gets an
    exit message whatever channel it is on (the [t]-th) and those from some
    number [T] on find nothing: twice the reads until then bound the turns of
    its loops.  The messages it has read are then those it has handled, none of
    which was an exit message, the exit message, and those still pending. *)
Theorem main_returns_at_first_exit_message T t fuel w fds :
  opened ≠ [] → quiet T → (reads w ≤ t)%nat →
  (∀ fd, fd ∈ opened → ∃ bs, read_result t fd = inl bs ∧ classify bs = MSG_EXIT) →
  (2 * (T - reads w) < fuel)%nat →
  ∃ w' got handled bs left,
    delivered w' = delivered w ++ got ∧
    got ≡ₚ handled ++ bs :: ((λ x, m_data x.2) <$> left) ∧
    classify bs = MSG_EXIT ∧ Forall (λ bs, classify bs ≠ MSG_EXIT) handled ∧
    {{ fds_uninit fds }} main fuel w fds
    {{ v, ⌜v = (1, w')⌝ ∗ fd_sched fds opened app_table left }}.
Proof.
  intros Hop HT Ht Hexit Hf.
  assert (∀ bs, verdict app_table (arrival app_table bs).2 = if classify bs =? MSG_EXIT then 1 else 0)
    as Hverdict by (intros bs; apply verdict_app, classify_range).
  destruct (run_abs_total T t opened app_table HT Hop) with (fuel := fuel) (w := w) (arr := @nil entry)
    as (xs & err & arr' & w' & E); [|by left|simpl; lia|].
  { intros fd Hfd. destruct (Hexit fd Hfd) as (bs & Hbs & Hc). exists bs. by rewrite Hverdict Hc. }
  destruct (run_abs_accounts T opened app_table HT Hop _ _ _ _ _ _ _ E) as (got & Hd & Hp).
  destruct (run_abs_shape _ _ _ _ _ _ _ _ _ E) as (ys & x & -> & Hys & Hx & Herr).
  assert (Forall (λ y, verdict app_table y.2 =
    if classify (m_data y.2) =? MSG_EXIT then 1 else 0) (ys ++ [x])) as Hall.
  { eapply run_abs_forall, E; [|constructor]. exact Hverdict. }
  apply Forall_app in Hall as [Hv1 [Hv2 _]%Forall_cons].
  assert (classify (m_data x.2) = MSG_EXIT ∧ err = 1) as [Hc ->].
  { rewrite Hv2 in Hx. destruct (Z.eqb_spec (classify (m_data x.2)) MSG_EXIT); lia || done. }
  exists w', got, ((λ y, m_data y.2) <$> ys), (m_data x.2), arr'.
  split_and!; [done| |done| |by eapply main_setup_spec].
  - apply (fmap_Permutation (λ y : entry, m_data y.2)) in Hp. rewrite -list_fmap_compose in Hp.
    rewrite -(list_fmap_id got). rewrite Hp !fmap_app -assoc_L. done.
  - apply Forall_fmap. rewrite ->Forall_forall in *. intros y Hy Hcy. specialize (Hys y Hy).
    specialize (Hv1 y Hy). simpl in *. by rewrite Hv1 Hcy in Hys.
Qed.
End main.

(** ** A concrete system

    The first descriptor delivers an exit message and then a sleep message,
    after which nothing more arrives. *)
Definition script (t : nat) (fd : Z) : list Z + Z :=
  match t with
  | 0%nat => inl XXX
  | 1%nat => inl zzz
  | _ => inr 11
  end.

#[program] Definition script_os : OperatingSystem := {|
  EWOULDBLOCK := 11;
  EAGAIN := 11;
  fcntl _ _ _ := 0;
  read_result := script;
|}.
Next Obligation. intros [|[|t]] fd bs H; simpl in H; simplify_eq; done. Qed.

Definition script_sockets : Sockets := {| open_udp_socket p := p; open_stdin := 3 |}.

Lemma script_quiet : @quiet script_os 2.
Proof. intros [|[|t]] fd Ht; [lia|lia|]. exists 11. done. Qed.

#[local] Existing Instances script_os script_sockets bump_allocator bump_allocator_total.

Lemma npfp_is_stable_priority_queue_witness :
  {{ scheduler 4096 app_table [(27, Message MSG_FOO FOO); (1, Message MSG_SLEEP zzz)] }}
    npfp_dequeue 4096
  {{ r, (⌜r = NULL ∧ [(27, Message MSG_FOO FOO); (1, Message MSG_SLEEP zzz)] = []⌝ ∗
         scheduler 4096 app_table []) ∨
        (∃ x arr', ⌜r ≠ NULL ∧
           picks [(27, Message MSG_FOO FOO); (1, Message MSG_SLEEP zzz)] x arr'⌝ ∗
           scheduler 4096 app_table arr' ∗ msg r x.2 ∗ mnext r ↦?) }}.
Proof. exact (proj2 (npfp_is_stable_priority_queue 4096 app_table _ 0 [])). Defined.

Lemma check_channels_until_empty_drains_witness :
  ∃ l r w', until_abs 3 (World 0 0 []) [3; 4] = Some (l, r, w') ∧ r ≤ 0 ∧
  {{ fd_sched 4096 [3; 4] app_table [] }} check_channels_until_empty 3 (World 0 0 []) 4096
  {{ v, ⌜v = (r, w')⌝ ∗ fd_sched 4096 [3; 4] app_table ([] ++ (arrival app_table <$> l)) }}.
Proof.
  apply (check_channels_until_empty_drains 2 4096 [3; 4] app_table [] 3 (World 0 0 []) script_quiet).
  simpl. lia.
Defined.

Lemma fds_run_turn_dispatches_best_witness :
  {{ fd_sched 4096 [3; 4] app_table [] }} fds_run_turn 3 (World 0 0 []) 4096
  {{ v, ⌜v.2 = World 6 11 [XXX; zzz]⌝ ∗
        ((⌜v.1 = NoMessage ∧ ([] : list entry) = [] ∧ [XXX; zzz] = []⌝ ∗
            fd_sched 4096 [3; 4] app_table []) ∨
         (∃ x arr', ⌜picks ([] ++ (arrival app_table <$> [XXX; zzz])) x arr' ∧
            v.1 = if verdict app_table x.2 =? 0 then Handled else Failed (verdict app_table x.2)⌝ ∗
            fd_sched 4096 [3; 4] app_table arr')) }}.
Proof.
  exact (fds_run_turn_dispatches_best 4096 [3; 4] app_table [] 3 (World 0 0 []) [XXX; zzz] 0
    (World 6 11 [XXX; zzz]) eq_refl).
Defined.

Lemma fds_run_handles_in_priority_order_witness :
  {{ fd_sched 4096 [3] app_table
       [(27, Message MSG_FOO FOO); (2, Message MSG_EXIT XXX); (1, Message MSG_SLEEP zzz)] }}
    fds_run 2 (World 2 0 []) 4096
  {{ v, ⌜v.1 = 1⌝ ∗ ∃ left, ⌜handling_order left = [(27, Message MSG_FOO FOO)]⌝ ∗
        fd_sched 4096 [3] app_table left }}.
Proof.
  refine (proj2 (fds_run_handles_in_priority_order 4096 [3] app_table
    [(27, Message MSG_FOO FOO); (2, Message MSG_EXIT XXX); (1, Message MSG_SLEEP zzz)] 2 (World 2 0 [])
    [(1, Message MSG_SLEEP zzz)] (2, Message MSG_EXIT XXX) [(27, Message MSG_FOO FOO)] _ _ _ _ _ _)).
  - apply script_quiet.
  - done.
  - done.
  - by repeat constructor.
  - done.
  - simpl. lia.
Defined.

Lemma main_returns_at_first_exit_message_witness :
  ∃ w' got handled bs left,
    delivered w' = [] ++ got ∧ got ≡ₚ handled ++ bs :: ((λ x, m_data x.2) <$> left) ∧
    classify bs = MSG_EXIT ∧ Forall (λ bs, classify bs ≠ MSG_EXIT) handled ∧
    {{ fds_uninit 4096 }} main 5 (World 0 0 []) 4096
    {{ v, ⌜v = (1, w')⌝ ∗ fd_sched 4096 opened app_table left }}.
Proof.
  apply (main_returns_at_first_exit_message 2 0 5 (World 0 0 []) 4096).
  - done.
  - apply script_quiet.
  - done.
  - intros fd _. by exists XXX.
  - simpl. lia.
Defined.

End Application.
