(* ===== verification/Buddy.v ===== *)
(** * Buddies

    The arithmetic of the buddy allocator: which block is the buddy of which,
    and free lists as collections of pages.  A block of order [o] that starts
    at page [i] is the pages [i], ..., [i + 2 ^ o - 1]. *)
From S2P Require Import Prelude.
From stdpp Require Import ssreflect gmap list.
#[local] Open Scope Z_scope.

Module Buddy.

(** ** Buddies of aligned blocks *)

(** The page whose physical address differs in the bit of the block size. *)
Definition buddy (i : Z) (o : nat) : Z := Z.lxor i (2 ^ Z.of_nat o).

Lemma pow2_pos (o : nat) : 0 < 2 ^ Z.of_nat o.
Proof. apply Z.pow_pos_nonneg; lia. Qed.

Lemma pow2_S (o : nat) : 2 ^ Z.of_nat (S o) = 2 * 2 ^ Z.of_nat o.
Proof. rewrite Nat2Z.inj_succ Z.pow_succ_r; lia. Qed.

Lemma lxor_1 q : Z.lxor q 1 = if Z.even q then q + 1 else q - 1.
Proof.
  destruct (Z.even q) eqn:E.
  - apply Z.even_spec in E as [k ->]. rewrite Z.add_nocarry_lxor //.
    apply Z.bits_inj'. intros n Hn. rewrite Z.land_spec Z.bits_0.
    destruct (decide (n = 0)) as [->|]; [by rewrite Z.testbit_even_0|].
    rewrite (Z.bits_above_log2 1); [by rewrite andb_false_r|lia|simpl; lia].
  - assert (Z.odd q = true) as O by (rewrite -Z.negb_even E; done).
    apply Z.odd_spec in O as [k ->].
    replace (2 * k + 1) with (Z.lxor (2 * k) 1) at 1.
    + rewrite Z.lxor_assoc Z.lxor_nilpotent Z.lxor_0_r. lia.
    + rewrite Z.add_nocarry_lxor //. apply Z.bits_inj'. intros n Hn.
      rewrite Z.land_spec Z.bits_0.
      destruct (decide (n = 0)) as [->|]; [by rewrite Z.testbit_even_0|].
      rewrite (Z.bits_above_log2 1); [by rewrite andb_false_r|lia|simpl; lia].
Qed.

Lemma buddy_mul q o :
  buddy (q * 2 ^ Z.of_nat o) o = Z.lxor q 1 * 2 ^ Z.of_nat o.
Proof.
  unfold buddy. replace (2 ^ Z.of_nat o) with (1 * 2 ^ Z.of_nat o) at 2 by lia.
  rewrite -!Z.shiftl_mul_pow2; [|lia..]. by rewrite Z.shiftl_lxor.
Qed.

(** An aligned block is the lower or the upper half of the block of the next
    order that it forms with its buddy. *)
Lemma buddy_cases i o :
  (2 ^ Z.of_nat o | i) →
  ((2 ^ Z.of_nat (S o) | i) ∧ buddy i o = i + 2 ^ Z.of_nat o) ∨
  ((2 ^ Z.of_nat (S o) | i - 2 ^ Z.of_nat o) ∧ buddy i o = i - 2 ^ Z.of_nat o).
Proof.
  intros [q ->]. rewrite buddy_mul lxor_1 pow2_S. destruct (Z.even q) eqn:E.
  - left. apply Z.even_spec in E as [k ->]. split; [exists k; lia|lia].
  - right. assert (Z.odd q = true) as O by (rewrite -Z.negb_even E; done).
    apply Z.odd_spec in O as [k ->]. split; [exists k; lia|lia].
Qed.

Lemma buddy_involutive i o : buddy (buddy i o) o = i.
Proof. unfold buddy. by rewrite Z.lxor_assoc Z.lxor_nilpotent Z.lxor_0_r. Qed.

Lemma buddy_aligned i o : (2 ^ Z.of_nat o | i) → (2 ^ Z.of_nat o | buddy i o).
Proof.
  intros Hi. destruct (buddy_cases i o Hi) as [[_ ->]|[_ ->]];
    [apply Z.divide_add_r|apply Z.divide_sub_r]; done || by apply Z.divide_refl.
Qed.

Lemma buddy_ne i o : (2 ^ Z.of_nat o | i) → buddy i o ≠ i.
Proof. intros Hi. pose proof (pow2_pos o). destruct (buddy_cases i o Hi) as [[_ ->]|[_ ->]]; lia. Qed.

(** ** Blocks of pages *)

Definition block (o : nat) (i : Z) : list Z := seqZ i (2 ^ Z.of_nat o).

Lemma elem_of_block o i j : j ∈ block o i ↔ i ≤ j < i + 2 ^ Z.of_nat o.
Proof. unfold block. rewrite elem_of_seqZ. done. Qed.

Lemma block_split o i : block (S o) i = block o i ++ block o (i + 2 ^ Z.of_nat o).
Proof.
  unfold block. pose proof (pow2_pos o). rewrite pow2_S.
  replace (2 * 2 ^ Z.of_nat o) with (2 ^ Z.of_nat o + 2 ^ Z.of_nat o) by lia.
  by rewrite seqZ_app; [|lia..].
Qed.

(** The block that a block and its buddy form. *)
Lemma block_merge o i :
  (2 ^ Z.of_nat o | i) →
  block (S o) (Z.min i (buddy i o)) ≡ₚ block o i ++ block o (buddy i o) ∧
  (2 ^ Z.of_nat (S o) | Z.min i (buddy i o)).
Proof.
  intros Hi. pose proof (pow2_pos o). rewrite block_split.
  destruct (buddy_cases i o Hi) as [[Hd ->]|[Hd ->]].
  - rewrite Z.min_l; [|lia]. done.
  - rewrite Z.min_r; [|lia]. split; [|done].
    replace (i - 2 ^ Z.of_nat o + 2 ^ Z.of_nat o) with i by lia. apply Permutation_app_comm.
Qed.

(** Aligned blocks that share a page are nested. *)
Lemma block_contains k b o i c j :
  (k ≤ o)%nat → (2 ^ Z.of_nat k | b) → (2 ^ Z.of_nat o | i) →
  c ∈ block k b → c ∈ block o i → j ∈ block k b → j ∈ block o i.
Proof.
  rewrite !elem_of_block. intros Hko [x ->] Hi Hc1 Hc2 Hj.
  assert (2 ^ Z.of_nat k | i) as [y ->].
  { etrans; [|exact Hi]. exists (2 ^ Z.of_nat (o - k)). rewrite -Z.pow_add_r; [|lia..].
    f_equal. lia. }
  assert (∃ n, 0 < n ∧ 2 ^ Z.of_nat o = n * 2 ^ Z.of_nat k) as (n & Hn & E).
  { exists (2 ^ Z.of_nat (o - k)). split; [apply pow2_pos|].
    rewrite -Z.pow_add_r; [|lia..]. f_equal. lia. }
  rewrite E in Hc2 |- *. pose proof (pow2_pos k). set (m := 2 ^ Z.of_nat k) in *.
  assert (y ≤ x) by nia. assert (x < y + n) by nia. nia.
Qed.

Lemma same_aligned k i b :
  (2 ^ Z.of_nat k | i) → (2 ^ Z.of_nat k | b) → b ∈ block k i → i = b.
Proof.
  rewrite elem_of_block. intros [x ->] [y ->] Hj. pose proof (pow2_pos k).
  set (m := 2 ^ Z.of_nat k) in *. assert (x = y) by nia. by subst.
Qed.

(** ** Free lists *)

(** The pages of the free lists, the first of which has order [o]. *)
Fixpoint pages_from (o : nat) (fl : list (list Z)) : list Z :=
  match fl with
  | [] => []
  | l :: fl => (l ≫= block o) ++ pages_from (S o) fl
  end.
Definition pages_of (fl : list (list Z)) : list Z := pages_from 0 fl.

Lemma pages_from_insert fl : ∀ o k l, fl !! k = Some l →
  ∃ rest, ∀ l', pages_from o (<[k := l']> fl) ≡ₚ (l' ≫= block (o + k)) ++ rest.
Proof.
  induction fl as [|x fl IH]; intros o [|k] l Hl; simplify_eq/=.
  - exists (pages_from (S o) fl). intros l'. by rewrite Nat.add_0_r.
  - destruct (IH (S o) k l Hl) as [rest Hr]. exists ((x ≫= block o) ++ rest). intros l'.
    rewrite Hr. rewrite !app_assoc (Permutation_app_comm (x ≫= block o)).
    by replace (S o + k)%nat with (o + S k)%nat by lia.
Qed.

Lemma bind_perm (f : Z → list Z) l l' : l ≡ₚ l' → l ≫= f ≡ₚ l' ≫= f.
Proof.
  induction 1 as [|x l l' _ IH|x y l|l l' l'' _ IH1 _ IH2]; simpl.
  - done.
  - by apply Permutation_app.
  - rewrite !app_assoc. apply Permutation_app; [apply Permutation_app_comm|done].
  - by etrans.
Qed.

(** Adding a block to its free list adds its pages. *)
Lemma pages_add fl o l l' i :
  fl !! o = Some l → l' ≡ₚ i :: l →
  pages_of (<[o := l']> fl) ≡ₚ block o i ++ pages_of fl.
Proof.
  intros Hl Hp. destruct (pages_from_insert fl 0 o l Hl) as [rest Hr].
  unfold pages_of. rewrite (Hr l'). rewrite -{1}(list_insert_id fl o l Hl) (Hr l).
  rewrite (bind_perm _ _ _ Hp). simpl. by rewrite -assoc.
Qed.

Lemma pages_remove fl o l l' i :
  fl !! o = Some l → l ≡ₚ i :: l' →
  pages_of fl ≡ₚ block o i ++ pages_of (<[o := l']> fl).
Proof.
  intros Hl Hp. destruct (pages_from_insert fl 0 o l Hl) as [rest Hr].
  unfold pages_of. rewrite (Hr l'). rewrite -{1}(list_insert_id fl o l Hl) (Hr l).
  rewrite (bind_perm _ _ _ Hp). simpl. by rewrite -assoc.
Qed.

Lemma pages_in fl o l i j :
  fl !! o = Some l → i ∈ l → j ∈ block o i → j ∈ pages_of fl.
Proof.
  intros Hl Hi Hj. destruct (list_elem_of_split l i Hi) as (l1 & l2 & ->).
  rewrite (pages_remove fl o _ (l1 ++ l2) i Hl); [|symmetry; apply Permutation_middle].
  apply elem_of_app. by left.
Qed.

Lemma elem_of_pages_from fl j : ∀ o, j ∈ pages_from o fl →
  ∃ k l i, fl !! k = Some l ∧ i ∈ l ∧ j ∈ block (o + k) i.
Proof.
  induction fl as [|x fl IH]; intros o Hj; simpl in Hj; [by apply elem_of_nil in Hj|].
  apply elem_of_app in Hj as [(i & Hj & Hi)%list_elem_of_bind|Hj].
  - exists 0%nat, x, i. by rewrite Nat.add_0_r.
  - destruct (IH (S o) Hj) as (k & l & i & Hl & Hi & Hb). exists (S k), l, i.
    by replace (o + S k)%nat with (S o + k)%nat by lia.
Qed.

Lemma elem_of_pages fl j :
  j ∈ pages_of fl ↔ ∃ o l i, fl !! o = Some l ∧ i ∈ l ∧ j ∈ block o i.
Proof.
  split; [apply elem_of_pages_from|]. intros (o & l & i & Hl & Hi & Hj). by eapply pages_in.
Qed.

(** ** The invariant of the free lists *)

Record fl_wf (max : nat) (fl : list (list Z)) : Prop := {
  fl_length : length fl = S max;
  fl_aligned o l i : fl !! o = Some l → i ∈ l → (2 ^ Z.of_nat o | i);
  fl_disjoint : NoDup (pages_of fl);
  fl_coalesced o l i : (o < max)%nat → fl !! o = Some l → i ∈ l → buddy i o ∉ l;
}.

Section wf.
Context (max : nat).

(** Two free blocks that share a page are the same block. *)
Lemma free_blocks_same fl o1 l1 i1 o2 l2 i2 j :
  fl_wf max fl → fl !! o1 = Some l1 → i1 ∈ l1 → fl !! o2 = Some l2 → i2 ∈ l2 →
  j ∈ block o1 i1 → j ∈ block o2 i2 → o1 = o2 ∧ i1 = i2.
Proof.
  intros Hwf Hl1 Hi1 Hl2 Hi2 Hj1 Hj2. pose proof (fl_disjoint _ _ Hwf) as Hnd.
  destruct (list_elem_of_split l1 i1 Hi1) as (xs & ys & ->).
  rewrite (pages_remove fl o1 _ (xs ++ ys) i1 Hl1) in Hnd; [|symmetry; apply Permutation_middle].
  apply NoDup_app in Hnd as (_ & Hnd & _). specialize (Hnd j Hj1).
  destruct (decide (o1 = o2)) as [<-|Hne].
  - rewrite Hl1 in Hl2. simplify_eq. split; [done|].
    apply elem_of_app in Hi2. rewrite elem_of_cons in Hi2.
    destruct (decide (i2 = i1)) as [|Hne]; [done|]. destruct Hnd.
    eapply (pages_in _ o1 (xs ++ ys) i2); [|set_solver|done].
    apply list_lookup_insert_eq. by eapply lookup_lt_Some.
  - destruct Hnd. eapply (pages_in _ o2 l2 i2); [|done|done]. by rewrite list_lookup_insert_ne.
Qed.

(** No two buddies are free, so every aligned run of free pages lies within
    one free block: an allocation fails only when no such run is left. *)
Lemma aligned_run_in_block fl k : ∀ b,
  fl_wf max fl → (k ≤ max)%nat → (2 ^ Z.of_nat k | b) →
  (∀ j, j ∈ block k b → j ∈ pages_of fl) →
  ∃ o l i, (k ≤ o)%nat ∧ fl !! o = Some l ∧ i ∈ l ∧ ∀ j, j ∈ block k b → j ∈ block o i.
Proof.
  induction k as [|k IH]; intros b Hwf Hk Hb Hall.
  - assert (b ∈ block 0 b) as Hbb by (apply elem_of_block; simpl; lia).
    destruct (proj1 (elem_of_pages fl b) (Hall b Hbb)) as (o & l & i & Hl & Hi & Hj).
    exists o, l, i. split_and!; [lia|done|done|]. intros j Hj0.
    apply elem_of_block in Hj0. simpl in Hj0. by assert (j = b) as -> by lia.
  - pose proof (pow2_pos k). rewrite block_split in Hall.
    assert (2 ^ Z.of_nat k | b) as Hbk by (etrans; [|exact Hb]; rewrite pow2_S; by exists 2).
    assert (2 ^ Z.of_nat k | b + 2 ^ Z.of_nat k) as Hbk2
      by (apply Z.divide_add_r; [done|apply Z.divide_refl]).
    destruct (IH b Hwf ltac:(lia) Hbk) as (o1 & l1 & i1 & Ho1 & Hl1 & Hi1 & H1).
    { intros j Hj. apply Hall, elem_of_app. by left. }
    destruct (IH (b + 2 ^ Z.of_nat k) Hwf ltac:(lia) Hbk2) as (o2 & l2 & i2 & Ho2 & Hl2 & Hi2 & H2).
    { intros j Hj. apply Hall, elem_of_app. by right. }
    assert (b ∈ block k b) as Hb1 by (apply elem_of_block; lia).
    assert (b + 2 ^ Z.of_nat k ∈ block k (b + 2 ^ Z.of_nat k)) as Hb2 by (apply elem_of_block; lia).
    assert (∀ o l i c, (S k ≤ o)%nat → fl !! o = Some l → i ∈ l → c ∈ block (S k) b →
      c ∈ block o i → ∀ j, j ∈ block (S k) b → j ∈ block o i) as Hbig.
    { intros o l i c Ho Hl Hi Hc Hci j. eapply block_contains; [done|done|by apply (fl_aligned _ _ Hwf _ _ _ Hl Hi)|done|done]. }
    rewrite block_split in Hbig.
    destruct (decide (S k ≤ o1)%nat) as [Hge1|Hlt1].
    { exists o1, l1, i1. split_and!; [done|done|done|]. rewrite block_split.
      eapply (Hbig o1 l1 i1 b); [done|done|done|apply elem_of_app; by left|by apply H1]. }
    destruct (decide (S k ≤ o2)%nat) as [Hge2|Hlt2].
    { exists o2, l2, i2. split_and!; [done|done|done|]. rewrite block_split.
      eapply (Hbig o2 l2 i2 (b + 2 ^ Z.of_nat k)); [done|done|done|apply elem_of_app; by right|by apply H2]. }
    assert (o1 = k) as -> by lia. assert (o2 = k) as -> by lia.
    assert (i1 = b) as ->.
    { apply (same_aligned k); [by apply (fl_aligned _ _ Hwf _ _ _ Hl1 Hi1)|done|by apply H1]. }
    assert (i2 = b + 2 ^ Z.of_nat k) as ->.
    { apply (same_aligned k); [by apply (fl_aligned _ _ Hwf _ _ _ Hl2 Hi2)|done|by apply H2]. }
    rewrite Hl1 in Hl2. simplify_eq.
    destruct (fl_coalesced _ _ Hwf k _ b ltac:(lia) Hl1 Hi1).
    destruct (buddy_cases b k Hbk) as [[_ ->]|[Hd _]]; [done|].
    exfalso. assert (2 ^ Z.of_nat (S k) | 2 ^ Z.of_nat k) as Hdiv.
    { replace (2 ^ Z.of_nat k) with (b - (b - 2 ^ Z.of_nat k)) by lia. by apply Z.divide_sub_r. }
    apply Z.divide_pos_le in Hdiv; [|lia]. rewrite pow2_S in Hdiv. lia.
Qed.
Lemma fl_once fl o l1 i l2 : fl_wf max fl → fl !! o = Some (l1 ++ i :: l2) → i ∉ l1 ++ l2.
Proof.
  intros Hwf Hl Hi. pose proof (fl_disjoint _ _ Hwf) as Hnd.
  rewrite (pages_remove fl o _ (l1 ++ l2) i Hl) in Hnd; [|symmetry; apply Permutation_middle].
  apply NoDup_app in Hnd as (_ & Hnd & _). pose proof (pow2_pos o).
  apply (Hnd i); [apply elem_of_block; lia|].
  eapply (pages_in _ o (l1 ++ l2) i); [|done|apply elem_of_block; lia].
  apply list_lookup_insert_eq. by eapply lookup_lt_Some.
Qed.

(** Removing a block from its free list, and adding one. *)
Lemma fl_wf_remove fl o l l' i :
  fl_wf max fl → fl !! o = Some l → l ≡ₚ i :: l' → fl_wf max (<[o := l']> fl).
Proof.
  intros Hwf Hl Hp. destruct Hwf as [Hlen Hal Hnd Hco]. split.
  - by rewrite length_insert.
  - intros k m j [[<- [-> _]]|[Hne Hm]]%list_lookup_insert_Some Hj; [|by eapply Hal].
    eapply Hal; [done|]. rewrite Hp. by right.
  - rewrite (pages_remove fl o l l' i Hl Hp) in Hnd. by apply NoDup_app in Hnd as (_ & _ & ?).
  - intros k m j Hk [[<- [-> _]]|[Hne Hm]]%list_lookup_insert_Some Hj; [|by eapply Hco].
    intros Hb. eapply (Hco o l j); [done|done|rewrite Hp; by right|rewrite Hp; by right].
Qed.

Lemma fl_wf_add fl o l l' i :
  fl_wf max fl → fl !! o = Some l → l' ≡ₚ i :: l → (2 ^ Z.of_nat o | i) →
  NoDup (block o i ++ pages_of fl) → ((o < max)%nat → buddy i o ∉ l) →
  fl_wf max (<[o := l']> fl).
Proof.
  intros Hwf Hl Hp Hi Hn Hb. destruct Hwf as [Hlen Hal Hnd Hco]. split.
  - by rewrite length_insert.
  - intros k m j [[<- [-> _]]|[Hne Hm]]%list_lookup_insert_Some Hj; [|by eapply Hal].
    rewrite Hp in Hj. apply elem_of_cons in Hj as [->|Hj]; [done|by eapply Hal].
  - by rewrite (pages_add fl o l l' i Hl Hp).
  - intros k m j Hk [[<- [-> _]]|[Hne Hm]]%list_lookup_insert_Some Hj; [|by eapply Hco].
    rewrite Hp. rewrite Hp in Hj. specialize (Hb Hk).
    apply elem_of_cons in Hj as [->|Hj]; intros [Heq|Hin]%elem_of_cons.
    + by apply (buddy_ne i o Hi).
    + done.
    + apply Hb. rewrite -Heq buddy_involutive. done.
    + by eapply (Hco o l j).
Qed.
End wf.

End Buddy.
