(* ===== verification/PageAlloc.v ===== *)
(** * The buddy allocator of pKVM (src/linux/casestudies/page_alloc.c)

    A [struct hyp_page] of 32 bytes describes one page: its reference count at
    offset 0, its order at 4, its pool at 8 and its list node at 16; the page
    with number [i] (its physical address divided by the page size) is
    described at [hyp_vmemmap + 32 * i].  A [struct hyp_pool] keeps its lock
    at 0, the heads of its 12 free lists from 8 on and the physical range it
    manages at 200 and 208.  The list functions that the file copies from the Linux
    kernel are in [KernelList]; they are those of [LinuxList]. *)
From S2P Require Import Prelude HeapLogic LinuxList SpinLock Buddy.
From stdpp Require Import gmap list.
From iris.proofmode Require Import proofmode.
Import ListHead SpinLock Buddy.
#[local] Open Scope Z_scope.

(** ** The list functions of the file *)
Module KernelList.

Definition next (p : Z) : Z := p.
Definition prev (p : Z) : Z := p + 8.

Definition __list_add_valid (new prev next : Z) : bool := true.
Definition __list_del_entry_valid (entry : Z) : bool := true.

Definition INIT_LIST_HEAD (list : Z) : M heap unit :=
  store (next list) list ;;
  store (prev list) list.

Definition __list_add (new prev_ next_ : Z) : M heap unit :=
  if negb (__list_add_valid new prev_ next_) then mret tt else
  store (prev next_) new ;;
  store (next new) next_ ;;
  store (prev new) prev_ ;;
  store (next prev_) new.

Definition list_add (new head : Z) : M heap unit :=
  n ← load (next head);
  __list_add new head n.

Definition list_add_tail (new head : Z) : M heap unit :=
  p ← load (prev head);
  __list_add new p head.

Definition __list_del (prev_ next_ : Z) : M heap unit :=
  store (prev next_) prev_ ;;
  store (next prev_) next_.

Definition __list_del_entry (entry : Z) : M heap unit :=
  if negb (__list_del_entry_valid entry) then mret tt else
  p ← load (prev entry);
  n ← load (next entry);
  __list_del p n.

Definition list_del_init (entry : Z) : M heap unit :=
  __list_del_entry entry ;;
  INIT_LIST_HEAD entry.

Definition list_empty (head : Z) : M heap bool :=
  n ← load (next head);
  mret (n =? head).

(** The last argument is the [offsetof] of the member. *)
Definition container_of (ptr off : Z) : Z := ptr - off.
Definition list_entry (ptr off : Z) : Z := container_of ptr off.
Definition list_first_entry (ptr off : Z) : M heap Z :=
  n ← load (next ptr);
  mret (list_entry n off).

(** They do what the functions of list.c do, which the proofs below use. *)
Lemma kernel_list_is_list_head :
  INIT_LIST_HEAD = ListHead.INIT_LIST_HEAD ∧ list_add = ListHead.list_add ∧
  list_add_tail = ListHead.list_add_tail ∧ list_del_init = ListHead.list_del_init ∧
  list_empty = ListHead.list_empty ∧ list_first_entry = ListHead.list_first_entry.
Proof. by split_and!. Qed.

End KernelList.

Module PageAlloc.

(** ** The code *)

Definition PAGE_SIZE : Z := 4096.
Definition PAGE_SHIFT : Z := 12.
Definition EINVAL : Z := 22.
Definition HYP_MAX_ORDER : Z := 11.
Definition HYP_NO_ORDER : Z := 4294967295.
Definition HYP_GFP_ZERO : Z := 1.

(** Members of [struct hyp_page] and [struct hyp_pool]. *)
Definition refcount (p : Z) : Z := p.
Definition order (p : Z) : Z := p + 4.
Definition page_pool (p : Z) : Z := p + 8.
Definition node_of (p : Z) : Z := p + 16.
Definition sizeof_hyp_page : Z := 32.
Definition lock (pool : Z) : Z := pool.
Definition free_area (pool o : Z) : Z := pool + 8 + 16 * o.
Definition range_start (pool : Z) : Z := pool + 200.
Definition range_end (pool : Z) : Z := pool + 208.

(** The globals [__hyp_vmemmap] and [hyp_physvirt_offset], and the assembly
    routine [clear_page], which zeroes the 512 words of a page. *)
Definition zero_words_def (a : Z) : hPropI := ([∗ list] k ∈ seqZ 0 512, (a + 8 * k) ↦ 0)%I.
Definition page_words_def (a : Z) : hPropI := ([∗ list] k ∈ seqZ 0 512, (a + 8 * k) ↦?)%I.
(** Sealed, so that no comparison of assertions lays the words out. *)
Definition zero_words_aux : seal (@zero_words_def). Proof. by eexists. Qed.
Definition zero_words := zero_words_aux.(unseal).
Definition page_words_aux : seal (@page_words_def). Proof. by eexists. Qed.
Definition page_words := page_words_aux.(unseal).
Lemma zero_words_unseal : zero_words = zero_words_def.
Proof. exact zero_words_aux.(seal_eq). Qed.
Lemma page_words_unseal : page_words = page_words_def.
Proof. exact page_words_aux.(seal_eq). Qed.

Class HypMemory := {
  hyp_vmemmap : Z;
  hyp_physvirt_offset : Z;
  clear_page : Z → M heap unit;
  clear_page_spec a : {{ page_words a }} clear_page a {{ _, zero_words a }};
}.

Section code.
Context `{!HypMemory}.

Definition __hyp_pa (virt : Z) : Z := u64 (virt + hyp_physvirt_offset).
Definition __hyp_va (phys : Z) : Z := u64 (phys - hyp_physvirt_offset).
Definition hyp_phys_to_virt (phys : Z) : Z := __hyp_va phys.
Definition hyp_virt_to_phys (addr : Z) : Z := __hyp_pa addr.
Definition hyp_phys_to_pfn (phys : Z) : Z := Z.shiftr phys PAGE_SHIFT.
Definition hyp_phys_to_page (phys : Z) : Z :=
  hyp_vmemmap + sizeof_hyp_page * hyp_phys_to_pfn phys.
Definition hyp_virt_to_page (virt : Z) : Z := hyp_phys_to_page (__hyp_pa virt).
Definition hyp_page_to_phys (page : Z) : Z :=
  u64 (Z.shiftl (u64 (Z.quot (page - hyp_vmemmap) sizeof_hyp_page)) PAGE_SHIFT).
Definition hyp_page_to_virt (page : Z) : Z := __hyp_va (hyp_page_to_phys page).
Definition hyp_page_to_pool (page : Z) : M heap Z := load (page_pool page).

Definition hyp_panic : M heap unit := c_assert false.

Definition hyp_page_count (addr : Z) : M heap Z :=
  let p := hyp_virt_to_page addr in
  load (refcount p).

Definition __find_buddy (pool p order_ : Z) : M heap Z :=
  let addr := hyp_page_to_phys p in
  size ← signed 32 (Z.shiftl PAGE_SIZE order_);
  let addr := Z.lxor addr size in
  rs ← load (range_start pool);
  if addr <? rs then mret NULL else
  re ← load (range_end pool);
  if re <=? addr then mret NULL else
  mret (hyp_phys_to_page addr).

(** The loop of [__hyp_attach_page] runs at most [HYP_MAX_ORDER] times. *)
Fixpoint attach_loop (fuel : nat) (pool p order_ : Z) : M heap (Z * Z) :=
  match fuel with
  | O => fail OutOfFuel
  | S fuel =>
      if order_ <? HYP_MAX_ORDER then
        buddy ← __find_buddy pool p order_;
        if buddy =? NULL then mret (p, order_) else
        e ← list_empty (node_of buddy);
        if (e : bool) then mret (p, order_) else
        bo ← load (order buddy);
        if negb (bo =? order_) then mret (p, order_) else
        list_del_init (node_of buddy) ;;
        store (order buddy) HYP_NO_ORDER ;;
        let p := if p <? buddy then p else buddy in
        attach_loop fuel pool p (u32 (order_ + 1))
      else mret (p, order_)
  end.

Definition __hyp_attach_page (pool p : Z) : M heap unit :=
  order_ ← load (order p);
  store (order p) HYP_NO_ORDER ;;
  '(p, order_) ← attach_loop (S (Z.to_nat HYP_MAX_ORDER)) pool p order_;
  store (order p) order_ ;;
  list_add (node_of p) (free_area pool order_).

Definition hyp_put_page (addr : Z) : M heap unit :=
  let p := hyp_virt_to_page addr in
  pool ← hyp_page_to_pool p;
  sl_lock (lock pool) ;;
  rc ← load (refcount p);
  (if rc =? 0 then hyp_panic else mret tt) ;;
  rc ← load (refcount p);
  store (refcount p) (u32 (rc - 1)) ;;
  rc ← load (refcount p);
  (if rc =? 0 then __hyp_attach_page pool p else mret tt) ;;
  sl_unlock (lock pool).

Definition hyp_get_page (addr : Z) : M heap unit :=
  let p := hyp_virt_to_page addr in
  pool ← hyp_page_to_pool p;
  sl_lock (lock pool) ;;
  rc ← load (refcount p);
  store (refcount p) (u32 (rc + 1)) ;;
  sl_unlock (lock pool).

(** The loop of [__hyp_extract_page] lowers the order in each turn. *)
Fixpoint extract_loop (fuel : nat) (pool p order_ : Z) : M heap unit :=
  match fuel with
  | O => fail OutOfFuel
  | S fuel =>
      po ← load (order p);
      if order_ <? po then
        po ← load (order p);
        store (order p) (u32 (po - 1)) ;;
        po ← load (order p);
        buddy ← __find_buddy pool p po;
        po ← load (order p);
        store (order buddy) po ;;
        bo ← load (order buddy);
        list_add_tail (node_of buddy) (free_area pool bo) ;;
        extract_loop fuel pool p order_
      else mret tt
  end.

Definition __hyp_extract_page (pool p order_ : Z) : M heap Z :=
  po ← load (order p);
  if po =? HYP_NO_ORDER then mret NULL else
  po ← load (order p);
  if po <? order_ then mret NULL else
  list_del_init (node_of p) ;;
  extract_loop (S (Z.to_nat HYP_MAX_ORDER)) pool p order_ ;;
  store (refcount p) 1 ;;
  mret p.

Fixpoint clear_loop (n : nat) (p i : Z) : M heap unit :=
  match n with
  | O => fail OutOfFuel
  | S n =>
      po ← load (order p);
      count ← signed 32 (Z.shiftl 1 po);
      if i <? count then
        clear_page (u64 (hyp_page_to_virt p + u64 (Z.shiftl i PAGE_SHIFT))) ;;
        clear_loop n p (u64 (i + 1))
      else mret tt
  end.
(** At most [2 ^ HYP_MAX_ORDER] pages are cleared. *)
Definition clear_hyp_page (p : Z) : M heap unit :=
  clear_loop (S (Z.to_nat (2 ^ HYP_MAX_ORDER))) p 0.

(** [while (i <= HYP_MAX_ORDER && list_empty(&pool->free_area[i])) i++;] *)
Fixpoint find_loop (fuel : nat) (pool i : Z) : M heap Z :=
  match fuel with
  | O => fail OutOfFuel
  | S fuel =>
      if i <=? HYP_MAX_ORDER then
        e ← list_empty (free_area pool i);
        if (e : bool) then find_loop fuel pool (u32 (i + 1)) else mret i
      else mret i
  end.

Definition __hyp_alloc_pages (pool mask order_ : Z) : M heap Z :=
  i ← find_loop (S (S (Z.to_nat HYP_MAX_ORDER))) pool order_;
  if HYP_MAX_ORDER <? i then mret NULL else
  p ← list_first_entry (free_area pool i) 16;
  p ← __hyp_extract_page pool p order_;
  (if negb (Z.land mask HYP_GFP_ZERO =? 0) then clear_hyp_page p else mret tt) ;;
  mret p.

Definition hyp_alloc_pages (pool mask order_ : Z) : M heap Z :=
  sl_lock (lock pool) ;;
  p ← __hyp_alloc_pages pool mask order_;
  sl_unlock (lock pool) ;;
  mret (if negb (p =? NULL) then hyp_page_to_virt p else NULL).

Fixpoint init_free_area (n : nat) (pool i : Z) : M heap unit :=
  match n with
  | O => mret tt
  | S n => INIT_LIST_HEAD (free_area pool i) ;; init_free_area n pool (i + 1)
  end.

(** [memset(p, 0, sizeof(struct hyp_page) * n)], member by member. *)
Fixpoint memset_pages (n : nat) (p : Z) : M heap unit :=
  match n with
  | O => mret tt
  | S n =>
      store (refcount p) 0 ;;
      store (order p) 0 ;;
      store (page_pool p) 0 ;;
      store (next (node_of p)) 0 ;;
      store (prev (node_of p)) 0 ;;
      memset_pages n (p + sizeof_hyp_page)
  end.

Fixpoint init_pages (n : nat) (pool p : Z) : M heap unit :=
  match n with
  | O => mret tt
  | S n =>
      store (page_pool p) pool ;;
      INIT_LIST_HEAD (node_of p) ;;
      init_pages n pool (p + sizeof_hyp_page)
  end.

Fixpoint attach_pages (n : nat) (pool p : Z) : M heap unit :=
  match n with
  | O => mret tt
  | S n => __hyp_attach_page pool p ;; attach_pages n pool (p + sizeof_hyp_page)
  end.

(** The loops over [int i] from 0 and from [used_pages] up to [nr_pages] run
    [nr_pages] and [nr_pages - used_pages] times; the shifts are those of
    [unsigned int]. *)
Definition hyp_pool_init (pool phys nr_pages used_pages : Z) : M heap Z :=
  if negb (Z.rem phys PAGE_SIZE =? 0) then mret (- EINVAL) else
  sl_init (lock pool) ;;
  init_free_area (Z.to_nat (HYP_MAX_ORDER + 1)) pool 0 ;;
  store (range_start pool) phys ;;
  store (range_end pool) (u64 (phys + u32 (Z.shiftl nr_pages PAGE_SHIFT))) ;;
  let p := hyp_phys_to_page phys in
  memset_pages (Z.to_nat nr_pages) p ;;
  init_pages (Z.to_nat nr_pages) pool p ;;
  let p := hyp_phys_to_page (u64 (phys + u32 (Z.shiftl used_pages PAGE_SHIFT))) in
  attach_pages (Z.to_nat (nr_pages - used_pages)) pool p ;;
  mret 0.
End code.

Arguments refcount : simpl never.
Arguments order : simpl never.
Arguments page_pool : simpl never.
Arguments node_of : simpl never.
Arguments free_area : simpl never.
Arguments range_start : simpl never.
Arguments range_end : simpl never.

(** ** The state of a pool *)

(** What the [struct hyp_page] of a page says, and whether its node is on a
    free list. *)
Record pg := Pg { rc : Z; ord : Z; listed : bool }.

Definition max_order : nat := 11.

(** The table of pages and the free lists agree; [s] and [e] bound the page
    numbers of the pool. *)
Record pool_wf (s e : Z) (pgs : gmap Z pg) (fl : list (list Z)) : Prop := {
  wf_bounds : 0 ≤ s ∧ PAGE_SIZE * e < 2 ^ 64;
  wf_fl : fl_wf max_order fl;
  wf_dom i : is_Some (pgs !! i) ↔ s ≤ i < e;
  wf_on_list o l i : fl !! o = Some l → i ∈ l → pgs !! i = Some (Pg 0 (Z.of_nat o) true);
  wf_listed i g : pgs !! i = Some g → listed g = true →
    ∃ o l, ord g = Z.of_nat o ∧ fl !! o = Some l ∧ i ∈ l;
  wf_range j : j ∈ pages_of fl → s ≤ j < e;
  wf_used i g : pgs !! i = Some g → rc g ≠ 0 →
    listed g = false ∧ 0 < rc g < 2 ^ 32 ∧
    ∃ o, ord g = Z.of_nat o ∧ (o ≤ max_order)%nat ∧ (2 ^ Z.of_nat o | i) ∧ i + 2 ^ Z.of_nat o ≤ e;
  wf_used_not_free i g j :
    pgs !! i = Some g → rc g ≠ 0 → j ∈ block (Z.to_nat (ord g)) i → j ∉ pages_of fl;
  wf_used_disjoint i1 g1 i2 g2 j :
    pgs !! i1 = Some g1 → rc g1 ≠ 0 → pgs !! i2 = Some g2 → rc g2 ≠ 0 →
    j ∈ block (Z.to_nat (ord g1)) i1 → j ∈ block (Z.to_nat (ord g2)) i2 → i1 = i2;
}.

(** [j] belongs to no block in use, other than perhaps the one at [i]. *)
Definition unused_but (pgs : gmap Z pg) (i j : Z) : Prop :=
  ∀ k g, k ≠ i → pgs !! k = Some g → rc g ≠ 0 → j ∉ block (Z.to_nat (ord g)) k.
Definition unused (pgs : gmap Z pg) (j : Z) : Prop :=
  ∀ k g, pgs !! k = Some g → rc g ≠ 0 → j ∉ block (Z.to_nat (ord g)) k.

(** A page off the lists may be in use or not. *)
Definition unlisted_page (e : Z) (pgs : gmap Z pg) (fl : list (list Z)) (i : Z) (g : pg) : Prop :=
  listed g = false ∧ (rc g ≠ 0 → 0 < rc g < 2 ^ 32 ∧
    (∃ o, ord g = Z.of_nat o ∧ (o ≤ max_order)%nat ∧ (2 ^ Z.of_nat o | i) ∧
       i + 2 ^ Z.of_nat o ≤ e) ∧
    ∀ j, j ∈ block (Z.to_nat (ord g)) i → j ∉ pages_of fl ∧ unused_but pgs i j).

(** The pages in use: their orders and reference counts. *)
Definition in_use (pgs : gmap Z pg) : gmap Z (Z * Z) :=
  omap (λ g, if rc g =? 0 then None else Some (ord g, rc g)) pgs.

Lemma in_use_insert i g pgs :
  in_use (<[i := g]> pgs) =
    if rc g =? 0 then delete i (in_use pgs) else <[i := (ord g, rc g)]> (in_use pgs).
Proof.
  unfold in_use. apply map_eq. intros j. rewrite lookup_omap.
  destruct (decide (i = j)) as [<-|Hne].
  - rewrite lookup_insert_eq /=. destruct (rc g =? 0);
      by rewrite ?lookup_delete_eq ?lookup_insert_eq.
  - rewrite lookup_insert_ne //. destruct (rc g =? 0);
      by rewrite ?lookup_delete_ne ?lookup_insert_ne // lookup_omap.
Qed.

Lemma in_use_none i g pgs : pgs !! i = Some g → rc g = 0 → in_use pgs !! i = None.
Proof. intros Hi Hr. unfold in_use. by rewrite lookup_omap Hi /= Hr. Qed.

Lemma dom_insert_iff (pgs : gmap Z pg) i g g' j :
  pgs !! i = Some g → is_Some (<[i := g']> pgs !! j) ↔ is_Some (pgs !! j).
Proof.
  intros Hi. rewrite lookup_insert_is_Some. split; [intros [->|[]]; eauto|].
  destruct (decide (i = j)); auto.
Qed.

(** Changing a page that is and stays off the lists. *)
Lemma pool_wf_page s e pgs fl i g g' :
  pool_wf s e pgs fl → pgs !! i = Some g → listed g = false → unlisted_page e pgs fl i g' →
  pool_wf s e (<[i := g']> pgs) fl.
Proof.
  intros [Hb Hfl Hdom Hon Hli Hra Hus Huf Hud] Hi Hg [Hg' Hu]. split; try done.
  - intros j. by rewrite (dom_insert_iff pgs i g).
  - intros o l j Hl Hj. rewrite lookup_insert_ne; [by eapply Hon|].
    intros <-. pose proof (Hon _ _ _ Hl Hj) as E. rewrite Hi in E. by simplify_eq.
  - intros j h [[<- <-]|[Hne Hh]]%lookup_insert_Some Hlh; [congruence|by eapply Hli].
  - intros j h [[<- <-]|[Hne Hh]]%lookup_insert_Some Hr; [|by eapply Hus].
    destruct (Hu Hr) as (? & ? & _). auto.
  - intros j h x [[<- <-]|[Hne Hh]]%lookup_insert_Some Hr; [|by eapply Huf].
    intros Hx. by apply (Hu Hr).
  - intros i1 g1 i2 g2 j [[<- <-]|[Hne1 H1]]%lookup_insert_Some Hr1
      [[<- <-]|[Hne2 H2]]%lookup_insert_Some Hr2 Hj1 Hj2; [done| | |by eapply Hud].
    + exfalso. destruct (Hu Hr1) as (_ & _ & Hun). by eapply (proj2 (Hun j Hj1) i2).
    + exfalso. destruct (Hu Hr2) as (_ & _ & Hun). by eapply (proj2 (Hun j Hj2) i1).
Qed.

(** Taking a page off its list. *)
Lemma pool_wf_remove s e pgs fl o l l' i v :
  pool_wf s e pgs fl → fl !! o = Some l → l ≡ₚ i :: l' → i ∉ l' →
  pool_wf s e (<[i := Pg 0 v false]> pgs) (<[o := l']> fl).
Proof.
  intros [Hb Hfl Hdom Hon Hli Hra Hus Huf Hud] Hl Hp Hnin.
  assert (i ∈ l) as Hi by (rewrite Hp; by left). pose proof (Hon _ _ _ Hl Hi) as Hgi. split.
  - done.
  - by eapply fl_wf_remove.
  - intros j. by rewrite (dom_insert_iff pgs i _ _ j Hgi).
  - intros k m j [[<- [-> _]]|[Hne Hm]]%list_lookup_insert_Some Hj.
    + rewrite lookup_insert_ne; [|set_solver]. eapply Hon; [done|]. rewrite Hp. by right.
    + rewrite lookup_insert_ne; [by eapply Hon|]. intros <-.
      pose proof (Hon _ _ _ Hm Hj) as E. rewrite Hgi in E. simplify_eq.
  - intros j h [[<- <-]|[Hne Hh]]%lookup_insert_Some Hlh; [done|].
    destruct (Hli j h Hh Hlh) as (k & m & Ek & Hm & Hj). exists k.
    destruct (decide (k = o)) as [->|Hko].
    + exists l'. split_and!; [done| |].
      * apply list_lookup_insert_eq. by eapply lookup_lt_Some.
      * rewrite Hl in Hm. simplify_eq. rewrite Hp in Hj. set_solver.
    + exists m. by rewrite list_lookup_insert_ne.
  - intros j Hj. apply Hra. rewrite (pages_remove fl o l l' i Hl Hp). apply elem_of_app. by right.
  - intros j h [[<- <-]|[Hne Hh]]%lookup_insert_Some Hr; [done|by eapply Hus].
  - intros j h x [[<- <-]|[Hne Hh]]%lookup_insert_Some Hr Hx Hin; [done|].
    eapply Huf; [done|done|done|]. rewrite (pages_remove fl o l l' i Hl Hp). apply elem_of_app. by right.
  - intros i1 g1 i2 g2 j [[<- <-]|[Hne1 H1]]%lookup_insert_Some Hr1
      [[<- <-]|[Hne2 H2]]%lookup_insert_Some Hr2; [done|done|done|by eapply Hud].
Qed.

(** Putting a page on a list. *)
Lemma pool_wf_add s e pgs fl o l l' i g :
  pool_wf s e pgs fl → pgs !! i = Some g → listed g = false →
  fl !! o = Some l → l' ≡ₚ i :: l → (2 ^ Z.of_nat o | i) →
  NoDup (block o i ++ pages_of fl) → (∀ j, j ∈ block o i → s ≤ j < e ∧ unused pgs j) →
  ((o < max_order)%nat → buddy i o ∉ l) →
  pool_wf s e (<[i := Pg 0 (Z.of_nat o) true]> pgs) (<[o := l']> fl).
Proof.
  intros [Hb Hfl Hdom Hon Hli Hra Hus Huf Hud] Hgi Hg Hl Hp Hi Hnd Hbr Hbud.
  assert (∀ k m, fl !! k = Some m → i ∉ m) as Hno.
  { intros k m Hm Him. pose proof (Hon _ _ _ Hm Him) as E. rewrite Hgi in E. by simplify_eq. }
  split.
  - done.
  - by eapply fl_wf_add.
  - intros j. by rewrite (dom_insert_iff pgs i _ _ j Hgi).
  - intros k m j [[<- [-> _]]|[Hne Hm]]%list_lookup_insert_Some Hj.
    + rewrite Hp in Hj. destruct (decide (i = j)) as [->|Hij]; [by rewrite lookup_insert_eq|].
      rewrite lookup_insert_ne //. eapply Hon; [done|]. set_solver.
    + rewrite lookup_insert_ne; [by eapply Hon|]. intros <-. by eapply Hno.
  - assert (<[o := l']> fl !! o = Some l') as Hlo.
    { apply list_lookup_insert_eq. by eapply lookup_lt_Some. }
    intros j h [[<- <-]|[Hne Hh]]%lookup_insert_Some Hlh.
    + exists o, l'. split_and!; [done|done|]. rewrite Hp. by left.
    + destruct (Hli j h Hh Hlh) as (k & m & Ek & Hm & Hj). exists k.
      destruct (decide (k = o)) as [->|Hko].
      * exists l'. split_and!; [done|done|]. rewrite Hl in Hm. simplify_eq. rewrite Hp. by right.
      * exists m. by rewrite list_lookup_insert_ne.
  - intros j. rewrite (pages_add fl o l l' i Hl Hp). intros [Hj|Hj]%elem_of_app; [by apply Hbr|auto].
  - intros j h [[<- <-]|[Hne Hh]]%lookup_insert_Some Hr; [done|by eapply Hus].
  - intros j h x [[<- <-]|[Hne Hh]]%lookup_insert_Some Hr Hx; [done|].
    rewrite (pages_add fl o l l' i Hl Hp). intros [Hin|Hin]%elem_of_app; [|by eapply Huf].
    by eapply (proj2 (Hbr x Hin)).
  - intros i1 g1 i2 g2 j [[<- <-]|[Hne1 H1]]%lookup_insert_Some Hr1
      [[<- <-]|[Hne2 H2]]%lookup_insert_Some Hr2; [done|done|done|by eapply Hud].
Qed.

(** A page that stops being in use leaves its block to nobody. *)
Lemma unused_insert pgs i g j :
  unused_but pgs i j → rc g = 0 → unused (<[i := g]> pgs) j.
Proof.
  intros Hu Hg k h [[<- <-]|[Hne Hh]]%lookup_insert_Some Hr; [done|]. by apply Hu.
Qed.

Lemma unused_insert_mono pgs i g j :
  unused pgs j → rc g = 0 → unused (<[i := g]> pgs) j.
Proof. intros Hu. apply unused_insert. intros k h _. apply Hu. Qed.

Section specs.
Context `{!HypMemory}.

(** ** The pool in memory *)

Definition page (i : Z) : Z := hyp_vmemmap + sizeof_hyp_page * i.
Definition virt (i : Z) : Z := __hyp_va (PAGE_SIZE * i).

Definition page_at (pool i : Z) (g : pg) : hPropI :=
  (refcount (page i) ↦ rc g ∗ order (page i) ↦ ord g ∗ page_pool (page i) ↦ pool ∗
   if listed g then emp else clist (node_of (page i)) [])%I.

Definition nodes (l : list Z) : list Z := (λ i, node_of (page i)) <$> l.
Definition free_list_at (pool : Z) (o : nat) (l : list Z) : hPropI :=
  clist (free_area pool (Z.of_nat o)) (nodes l).

Definition pool_at (pool s e : Z) (pgs : gmap Z pg) (fl : list (list Z)) : hPropI :=
  (range_start pool ↦ (PAGE_SIZE * s) ∗ range_end pool ↦ (PAGE_SIZE * e) ∗
   ([∗ list] o ↦ l ∈ fl, free_list_at pool o l) ∗ ([∗ map] i ↦ g ∈ pgs, page_at pool i g))%I.

(** The memory of a list of pages. *)
Definition pages_mem (js : list Z) : hPropI := ([∗ list] j ∈ js, page_words (virt j))%I.

Lemma page_inj i j : page i = page j → i = j.
Proof. unfold page, sizeof_hyp_page. lia. Qed.

Lemma page_to_phys i : 0 ≤ i → PAGE_SIZE * i < 2 ^ 64 → hyp_page_to_phys (page i) = PAGE_SIZE * i.
Proof.
  unfold PAGE_SIZE. intros H0 H1. unfold hyp_page_to_phys, page, sizeof_hyp_page, PAGE_SHIFT.
  replace (hyp_vmemmap + 32 * i - hyp_vmemmap) with (i * 32) by lia.
  rewrite Z.quot_mul; [|lia]. rewrite (wrap_small 64 i); [|unfold in_unsigned; lia].
  rewrite Z.shiftl_mul_pow2; [|lia]. rewrite wrap_small; [|unfold in_unsigned]; lia.
Qed.

Lemma phys_to_page j : hyp_phys_to_page (PAGE_SIZE * j) = page j.
Proof.
  unfold hyp_phys_to_page, hyp_phys_to_pfn, page, PAGE_SHIFT, PAGE_SIZE.
  rewrite Z.shiftr_div_pow2; [|lia]. rewrite (Z.mul_comm 4096). by rewrite Z.div_mul.
Qed.

Lemma page_to_virt i : 0 ≤ i → PAGE_SIZE * i < 2 ^ 64 → hyp_page_to_virt (page i) = virt i.
Proof. intros. unfold hyp_page_to_virt. by rewrite page_to_phys. Qed.

Lemma virt_to_page i : 0 ≤ i → PAGE_SIZE * i < 2 ^ 64 → hyp_virt_to_page (virt i) = page i.
Proof.
  intros H0 H1. unfold hyp_virt_to_page, virt, __hyp_pa, __hyp_va, wrap.
  rewrite Z.add_mod_idemp_l; [|lia].
  replace (PAGE_SIZE * i - hyp_physvirt_offset + hyp_physvirt_offset) with (PAGE_SIZE * i) by lia.
  rewrite Z.mod_small; [|unfold PAGE_SIZE in *; lia]. apply phys_to_page.
Qed.

Lemma phys_buddy i (o : nat) :
  Z.lxor (PAGE_SIZE * i) (Z.shiftl PAGE_SIZE (Z.of_nat o)) = PAGE_SIZE * buddy i o.
Proof.
  unfold PAGE_SIZE, buddy. change 4096 with (2 ^ 12).
  rewrite Z.shiftl_mul_pow2; [|lia]. rewrite !(Z.mul_comm (2 ^ 12)).
  rewrite -!Z.shiftl_mul_pow2; [|lia..]. by rewrite Z.shiftl_lxor.
Qed.

(** Shifts by orders stay in the range of [int]. *)
Lemma signed_shift k (o : nat) (h : heap) :
  0 < k ≤ PAGE_SIZE → (o ≤ max_order)%nat →
  signed 32 (Z.shiftl k (Z.of_nat o)) h = Ok (Z.shiftl k (Z.of_nat o)) h.
Proof.
  intros Hk Ho. unfold signed. rewrite decide_True //. rewrite Z.shiftl_mul_pow2; [|lia].
  assert (2 ^ Z.of_nat o ≤ 2 ^ 11) by (apply Z.pow_le_mono_r; unfold max_order in *; lia).
  assert (0 < 2 ^ Z.of_nat o) by (apply Z.pow_pos_nonneg; lia).
  unfold in_signed, PAGE_SIZE in *. nia.
Qed.

Lemma __find_buddy_spec pool s e i (o : nat) :
  0 ≤ i → PAGE_SIZE * i < 2 ^ 64 → (o ≤ max_order)%nat →
  {{ range_start pool ↦ (PAGE_SIZE * s) ∗ range_end pool ↦ (PAGE_SIZE * e) }}
    __find_buddy pool (page i) (Z.of_nat o)
  {{ r, ⌜r = if decide (s ≤ buddy i o < e) then page (buddy i o) else NULL⌝ ∗
        range_start pool ↦ (PAGE_SIZE * s) ∗ range_end pool ↦ (PAGE_SIZE * e) }}.
Proof.
  intros H0 H1 Ho. triple_start. iIntros "[Hs He]". unfold __find_buddy.
  wp_focus. iApply wp_value; [intros h; by apply signed_shift|].
  rewrite page_to_phys // phys_buddy. wp_load. unfold PAGE_SIZE in *.
  destruct (Z.ltb_spec (4096 * buddy i o) (4096 * s)).
  { wp_rets. iFrame. iPureIntro. rewrite decide_False //. lia. }
  wp_load. destruct (Z.leb_spec (4096 * e) (4096 * buddy i o)).
  { wp_rets. iFrame. iPureIntro. rewrite decide_False //. lia. }
  wp_rets. iFrame. iPureIntro. rewrite decide_True; [|lia]. apply phys_to_page.
Qed.

(** A page in range is described somewhere. *)
Lemma page_at_not_null pool i g : page_at pool i g ⊢ ⌜page i ≠ NULL⌝.
Proof. iIntros "[H _]". iApply (pointsto_not_null with "H"). Qed.

Lemma nodes_middle l1 i l2 : nodes (l1 ++ i :: l2) = nodes l1 ++ node_of (page i) :: nodes l2.
Proof. unfold nodes. by rewrite fmap_app. Qed.

(** A free list seen from one of its nodes. *)
Lemma free_list_rotate pool o l1 i l2 :
  free_list_at pool o (l1 ++ i :: l2) ⊣⊢
  clist (node_of (page i)) (nodes l2 ++ free_area pool (Z.of_nat o) :: nodes l1).
Proof. unfold free_list_at. by rewrite nodes_middle clist_rotate. Qed.

(** The node of a page is a list of its own exactly when it is on no list. *)
Lemma node_empty_spec pool s e pgs fl i g :
  pool_wf s e pgs fl → pgs !! i = Some g →
  {{ pool_at pool s e pgs fl }} list_empty (node_of (page i))
  {{ b, ⌜b = negb (listed g)⌝ ∗ pool_at pool s e pgs fl }}.
Proof.
  intros Hwf Hi. triple_start. iIntros "(Hs & He & Hfl & Hpg)".
  destruct (listed g) eqn:Hl.
  - destruct (wf_listed _ _ _ _ Hwf i g Hi Hl) as (o & l & _ & Ho & Hin).
    iDestruct (big_sepL_lookup_acc _ _ _ _ Ho with "Hfl") as "[Hl Hfl]".
    destruct (list_elem_of_split l i Hin) as (l1 & l2 & ->).
    iEval (rewrite free_list_rotate) in "Hl".
    wp_call (list_empty_spec (node_of (page i)) _) with "Hl". iIntros (b) "[-> Hl]".
    iDestruct ("Hfl" with "[Hl]") as "Hfl"; [by iEval (rewrite free_list_rotate)|].
    iFrame. iPureIntro. rewrite bool_decide_false //. by destruct (nodes l2).
  - iDestruct (big_sepM_lookup_acc _ _ _ _ Hi with "Hpg") as "[(H1 & H2 & H3 & Hn) Hpg]".
    rewrite Hl. wp_call (list_empty_spec (node_of (page i)) []) with "Hn". iIntros (b) "[-> Hn]".
    iDestruct ("Hpg" with "[$H1 $H2 $H3 Hn]") as "Hpg"; [by rewrite Hl|]. by iFrame.
Qed.

(** ** Accesses to the pool *)

Lemma load_order_spec pool s e pgs fl i g :
  pgs !! i = Some g →
  {{ pool_at pool s e pgs fl }} load (order (page i))
  {{ r, ⌜r = ord g⌝ ∗ pool_at pool s e pgs fl }}.
Proof.
  intros Hi. triple_start. iIntros "(Hs & He & Hfl & Hpg)".
  iDestruct (big_sepM_lookup_acc _ _ _ _ Hi with "Hpg") as "[(H1 & H2 & H3 & Hn) Hpg]". wp_load.
  iDestruct ("Hpg" with "[$H1 $H2 $H3 $Hn]") as "Hpg". by iFrame.
Qed.

Lemma load_refcount_spec pool s e pgs fl i g :
  pgs !! i = Some g →
  {{ pool_at pool s e pgs fl }} load (refcount (page i))
  {{ r, ⌜r = rc g⌝ ∗ pool_at pool s e pgs fl }}.
Proof.
  intros Hi. triple_start. iIntros "(Hs & He & Hfl & Hpg)".
  iDestruct (big_sepM_lookup_acc _ _ _ _ Hi with "Hpg") as "[(H1 & H2 & H3 & Hn) Hpg]". wp_load.
  iDestruct ("Hpg" with "[$H1 $H2 $H3 $Hn]") as "Hpg". by iFrame.
Qed.

Lemma store_order_spec pool s e pgs fl i g v :
  pgs !! i = Some g →
  {{ pool_at pool s e pgs fl }} store (order (page i)) v
  {{ _, pool_at pool s e (<[i := Pg (rc g) v (listed g)]> pgs) fl }}.
Proof.
  intros Hi. triple_start. iIntros "(Hs & He & Hfl & Hpg)".
  iDestruct (big_sepM_insert_acc _ _ _ _ Hi with "Hpg") as "[(H1 & H2 & H3 & Hn) Hpg]". wp_store.
  iDestruct ("Hpg" $! (Pg (rc g) v (listed g)) with "[$H1 $H2 $H3 $Hn]") as "Hpg". by iFrame.
Qed.

Lemma store_refcount_spec pool s e pgs fl i g v :
  pgs !! i = Some g →
  {{ pool_at pool s e pgs fl }} store (refcount (page i)) v
  {{ _, pool_at pool s e (<[i := Pg v (ord g) (listed g)]> pgs) fl }}.
Proof.
  intros Hi. triple_start. iIntros "(Hs & He & Hfl & Hpg)".
  iDestruct (big_sepM_insert_acc _ _ _ _ Hi with "Hpg") as "[(H1 & H2 & H3 & Hn) Hpg]". wp_store.
  iDestruct ("Hpg" $! (Pg v (ord g) (listed g)) with "[$H1 $H2 $H3 $Hn]") as "Hpg". by iFrame.
Qed.

Lemma unlist_spec pool s e pgs fl (o : nat) l1 i l2 g :
  fl !! o = Some (l1 ++ i :: l2) → pgs !! i = Some g → listed g = true →
  {{ pool_at pool s e pgs fl }} list_del_init (node_of (page i))
  {{ _, pool_at pool s e (<[i := Pg (rc g) (ord g) false]> pgs) (<[o := l1 ++ l2]> fl) }}.
Proof.
  intros Hl Hi Hg. triple_start. iIntros "(Hs & He & Hfl & Hpg)".
  iDestruct (big_sepL_insert_acc _ _ _ _ Hl with "Hfl") as "[Hl Hfl]".
  iDestruct (big_sepM_insert_acc _ _ _ _ Hi with "Hpg") as "[(H1 & H2 & H3 & _) Hpg]".
  iEval (unfold free_list_at; rewrite nodes_middle) in "Hl".
  iApply (wp_triple _ _ _ _ (list_del_init_chain _ (nodes l1) (node_of (page i)) (nodes l2) _) with "Hl").
  iIntros (_) "[Hl Hn]".
  iDestruct ("Hpg" $! (Pg (rc g) (ord g) false) with "[$H1 $H2 $H3 $Hn]") as "Hpg".
  iDestruct ("Hfl" $! (l1 ++ l2) with "[Hl]") as "Hfl".
  { unfold free_list_at, nodes. by rewrite fmap_app. }
  iFrame.
Qed.

Lemma clist_nil_node n : clist n [] ⊢ node n.
Proof. by apply clist_node. Qed.

Lemma list_add_spec pool s e pgs fl (o : nat) l i g :
  fl !! o = Some l → pgs !! i = Some g → listed g = false →
  {{ pool_at pool s e pgs fl }} list_add (node_of (page i)) (free_area pool (Z.of_nat o))
  {{ _, pool_at pool s e (<[i := Pg (rc g) (ord g) true]> pgs) (<[o := i :: l]> fl) }}.
Proof.
  intros Hl Hi Hg. triple_start. iIntros "(Hs & He & Hfl & Hpg)".
  iDestruct (big_sepL_insert_acc _ _ _ _ Hl with "Hfl") as "[Hl Hfl]".
  iDestruct (big_sepM_insert_acc _ _ _ _ Hi with "Hpg") as "[(H1 & H2 & H3 & Hn) Hpg]".
  rewrite Hg clist_nil_node.
  iApply (wp_triple _ _ _ _ (list_add_chain (node_of (page i)) _ (nodes l) _) with "[$Hn $Hl]").
  iIntros (_) "Hl".
  iDestruct ("Hpg" $! (Pg (rc g) (ord g) true) with "[$H1 $H2 $H3]") as "Hpg".
  iDestruct ("Hfl" $! (i :: l) with "Hl") as "Hfl". iFrame.
Qed.

Lemma list_add_tail_spec pool s e pgs fl (o : nat) l i g :
  fl !! o = Some l → pgs !! i = Some g → listed g = false →
  {{ pool_at pool s e pgs fl }} list_add_tail (node_of (page i)) (free_area pool (Z.of_nat o))
  {{ _, pool_at pool s e (<[i := Pg (rc g) (ord g) true]> pgs) (<[o := l ++ [i]]> fl) }}.
Proof.
  intros Hl Hi Hg. triple_start. iIntros "(Hs & He & Hfl & Hpg)".
  iDestruct (big_sepL_insert_acc _ _ _ _ Hl with "Hfl") as "[Hl Hfl]".
  iDestruct (big_sepM_insert_acc _ _ _ _ Hi with "Hpg") as "[(H1 & H2 & H3 & Hn) Hpg]".
  rewrite Hg clist_nil_node.
  iApply (wp_triple _ _ _ _ (list_add_tail_chain (node_of (page i)) _ (nodes l) _) with "[$Hn $Hl]").
  iIntros (_) "Hl".
  iDestruct ("Hpg" $! (Pg (rc g) (ord g) true) with "[$H1 $H2 $H3]") as "Hpg".
  iDestruct ("Hfl" $! (l ++ [i]) with "[Hl]") as "Hfl".
  { unfold free_list_at. by rewrite nodes_middle. }
  iFrame.
Qed.

Lemma find_buddy_pool_spec pool s e pgs fl i (o : nat) :
  pool_wf s e pgs fl → s ≤ i < e → (o ≤ max_order)%nat →
  {{ pool_at pool s e pgs fl }} __find_buddy pool (page i) (Z.of_nat o)
  {{ r, ⌜r = if decide (s ≤ buddy i o < e) then page (buddy i o) else NULL⌝ ∗
        pool_at pool s e pgs fl }}.
Proof.
  intros Hwf Hi Ho. destruct (wf_bounds _ _ _ _ Hwf). triple_start.
  iIntros "(Hs & He & Hr)".
  iApply (wp_triple _ _ _ _ (__find_buddy_spec pool s e i o _ _ Ho) with "[$Hs $He]").
  iIntros (r) "(-> & $ & $)". by iFrame.
Unshelve. all: unfold PAGE_SIZE in *; lia.
Qed.

Lemma page_not_null pool s e pgs fl i g :
  pgs !! i = Some g → pool_at pool s e pgs fl ⊢ ⌜page i ≠ NULL⌝.
Proof.
  intros Hi. iIntros "(_ & _ & _ & Hpg)".
  iDestruct (big_sepM_lookup _ _ _ _ Hi with "Hpg") as "H". by iApply page_at_not_null.
Qed.

(** ** Attaching a block *)

(** The block of order [o'] at [i'] is what coalescing made of the block of
    order [o] at [i]: together with the free lists it has the same pages, its
    buddy is not free, and nothing else changed. *)
Record coalesced (s e : Z) (pgs : gmap Z pg) (fl : list (list Z)) (i : Z) (o : nat)
    (pgs' : gmap Z pg) (fl' : list (list Z)) (i' : Z) (o' : nat) : Prop := {
  co_wf : pool_wf s e pgs' fl';
  co_order : (o' ≤ max_order)%nat;
  co_page : pgs' !! i' = Some (Pg 0 HYP_NO_ORDER false);
  co_aligned : (2 ^ Z.of_nat o' | i');
  co_pages : block o' i' ++ pages_of fl' ≡ₚ block o i ++ pages_of fl;
  co_in_use : in_use pgs' = in_use pgs;
  co_unused j : j ∈ block o' i' → s ≤ j < e ∧ unused pgs' j;
  co_other j : j ∉ block o i ++ pages_of fl → pgs' !! j = pgs !! j;
  co_maximal l : (o' < max_order)%nat → fl' !! o' = Some l → buddy i' o' ∉ l;
}.

(** The pages of a coalesced block, in use elsewhere in the proof. *)
Definition loose (s e : Z) (pgs : gmap Z pg) (fl : list (list Z)) (i : Z) (o : nat) : Prop :=
  pool_wf s e pgs fl ∧ (o ≤ max_order)%nat ∧ pgs !! i = Some (Pg 0 HYP_NO_ORDER false) ∧
  (2 ^ Z.of_nat o | i) ∧ NoDup (block o i ++ pages_of fl) ∧
  ∀ j, j ∈ block o i → s ≤ j < e ∧ unused pgs j.

Lemma loose_stop s e pgs fl i o :
  loose s e pgs fl i o → (∀ l, (o < max_order)%nat → fl !! o = Some l → buddy i o ∉ l) →
  coalesced s e pgs fl i o pgs fl i o.
Proof. intros (Hwf & Ho & Hp & Ha & Hnd & Hr) Hb. by split. Qed.

(** Merging with the buddy. *)
Lemma loose_merge s e pgs fl i o l1 l2 :
  let b := buddy i o in
  let pgs' := <[b := Pg 0 HYP_NO_ORDER false]> pgs in
  let fl' := <[o := l1 ++ l2]> fl in
  loose s e pgs fl i o → (o < max_order)%nat → fl !! o = Some (l1 ++ b :: l2) →
  loose s e pgs' fl' (Z.min i b) (S o) ∧
  block (S o) (Z.min i b) ++ pages_of fl' ≡ₚ block o i ++ pages_of fl ∧
  in_use pgs' = in_use pgs.
Proof.
  intros b pgs' fl' (Hwf & Ho & Hp & Ha & Hnd & Hr) Hlt Hl.
  assert (l1 ++ b :: l2 ≡ₚ b :: l1 ++ l2) as Hperm by (symmetry; apply Permutation_middle).
  destruct (block_merge o i Ha) as [Hmerge Halign]. fold b in Hmerge, Halign.
  pose proof (pages_remove fl o _ (l1 ++ l2) b Hl Hperm) as Hpages. fold fl' in Hpages.
  assert (block (S o) (Z.min i b) ++ pages_of fl' ≡ₚ block o i ++ pages_of fl) as Hsame.
  { by rewrite Hmerge Hpages assoc. }
  assert (b ∈ l1 ++ b :: l2) as Hb by set_solver.
  pose proof (wf_on_list _ _ _ _ Hwf _ _ _ Hl Hb) as Hgb.
  split_and!; [|done|].
  - split_and!.
    + eapply pool_wf_remove; [done|done|done|]. eapply fl_once; [by eapply wf_fl|done].
    + lia.
    + unfold pgs'. destruct (Z.min_spec i b) as [[? ->]|[? ->]].
      * rewrite lookup_insert_ne; [done|]. by apply buddy_ne.
      * by rewrite lookup_insert_eq.
    + done.
    + by rewrite Hsame.
    + intros j Hj. assert (j ∈ block o i ++ pages_of fl) as Hj'.
      { rewrite -Hsame. apply elem_of_app. by left. }
      assert (s ≤ j < e ∧ unused pgs j) as [Hj1 Hj2].
      { apply elem_of_app in Hj' as [Hj'|Hj']; [by apply Hr|].
        split; [by eapply wf_range|]. intros k g Hk Hrk Hjk. by eapply wf_used_not_free. }
      split; [done|]. by apply unused_insert_mono.
  - unfold pgs'. rewrite in_use_insert /=. apply delete_id. by eapply in_use_none.
Qed.

Lemma attach_stop_spec pool s e pgs fl i (o : nat) :
  loose s e pgs fl i o → (∀ l, (o < max_order)%nat → fl !! o = Some l → buddy i o ∉ l) →
  {{ pool_at pool s e pgs fl }} mret (page i, Z.of_nat o)
  {{ r, ∃ i' (o' : nat) pgs' fl', ⌜r = (page i', Z.of_nat o')⌝ ∗
        ⌜coalesced s e pgs fl i o pgs' fl' i' o'⌝ ∗ pool_at pool s e pgs' fl' }}.
Proof.
  intros Hlo Hb. triple_start. iIntros "H". wp_ret. iExists i, o, pgs, fl. iFrame. iPureIntro.
  split; [done|]. by apply loose_stop.
Qed.

Lemma attach_loop_spec pool s e : ∀ fuel i (o : nat) pgs fl,
  (max_order - o < fuel)%nat → loose s e pgs fl i o →
  {{ pool_at pool s e pgs fl }} attach_loop fuel pool (page i) (Z.of_nat o)
  {{ r, ∃ i' (o' : nat) pgs' fl', ⌜r = (page i', Z.of_nat o')⌝ ∗
        ⌜coalesced s e pgs fl i o pgs' fl' i' o'⌝ ∗ pool_at pool s e pgs' fl' }}.
Proof.
  induction fuel as [|fuel IH]; intros i o pgs fl Hfuel Hlo; [lia|].
  pose proof Hlo as (Hwf & Ho & Hp & Ha & Hnd & Hr). pose proof (pow2_pos o).
  assert (s ≤ i < e) as Hi by (by apply Hr, elem_of_block; lia).
  triple_start. iIntros "H". cbn [attach_loop].
  destruct (Z.ltb_spec (Z.of_nat o) HYP_MAX_ORDER) as [Hlt|Hge]; unfold HYP_MAX_ORDER in *; last first.
  { iApply (attach_stop_spec with "H"); [done|]. unfold max_order. lia. }
  assert (o < max_order)%nat as Hmax by (unfold max_order; lia).
  wp_call (find_buddy_pool_spec pool s e pgs fl i o Hwf Hi ltac:(unfold max_order, HYP_MAX_ORDER in *; lia)) with "H". iIntros (r) "[-> H]".
  case_decide as Hb; last first.
  { rewrite Z.eqb_refl. iApply (attach_stop_spec with "H"); [done|]. intros l _ Hl Hin. apply Hb. eapply wf_range; [done|].
    eapply pages_in; [done|done|]. apply elem_of_block. lia. }
  destruct (proj2 (wf_dom _ _ _ _ Hwf (buddy i o)) Hb) as [gb Hgb].
  iDestruct (page_not_null _ _ _ _ _ _ _ Hgb with "H") as %Hnn.
  rewrite (proj2 (Z.eqb_neq _ NULL)) //.
  wp_call (node_empty_spec pool s e pgs fl _ gb Hwf Hgb) with "H". iIntros (r) "[-> H]".
  destruct (listed gb) eqn:Hlb; simpl; last first.
  { iApply (attach_stop_spec with "H"); [done|]. intros l _ Hl Hin.
    pose proof (wf_on_list _ _ _ _ Hwf _ _ _ Hl Hin) as E. rewrite Hgb in E. by simplify_eq. }
  wp_call (load_order_spec pool s e pgs fl _ gb Hgb) with "H". iIntros (r) "[-> H]".
  destruct (Z.eqb_spec (ord gb) (Z.of_nat o)) as [Hob|Hob]; simpl; last first.
  { iApply (attach_stop_spec with "H"); [done|]. intros l _ Hl Hin.
    pose proof (wf_on_list _ _ _ _ Hwf _ _ _ Hl Hin) as E. rewrite Hgb in E. by simplify_eq. }
  destruct (wf_listed _ _ _ _ Hwf _ _ Hgb Hlb) as (o2 & l & Ho2 & Hl & Hin).
  assert (o2 = o) as -> by lia.
  pose proof (wf_on_list _ _ _ _ Hwf _ _ _ Hl Hin) as E. rewrite Hgb in E. simplify_eq.
  destruct (list_elem_of_split l _ Hin) as (l1 & l2 & ->).
  wp_call (unlist_spec pool s e pgs fl o l1 _ l2 _ Hl Hgb eq_refl) with "H". iIntros (_) "H".
  wp_call (store_order_spec pool s e _ _ (buddy i o) _ HYP_NO_ORDER (lookup_insert_eq _ _ _)) with "H".
  iIntros (_) "H". rewrite insert_insert_eq. simpl.
  destruct (loose_merge s e pgs fl i o l1 l2 Hlo Hmax Hl) as (Hlo' & Hsame & Huse).
  replace (if page i <? page (buddy i o) then page i else page (buddy i o))
    with (page (Z.min i (buddy i o))); last first.
  { unfold page, sizeof_hyp_page. destruct (Z.ltb_spec (hyp_vmemmap + 32 * i) (hyp_vmemmap + 32 * buddy i o));
      destruct (Z.min_spec i (buddy i o)) as [[? ->]|[? ->]]; lia. }
  replace (u32 (Z.of_nat o + 1)) with (Z.of_nat (S o)); last first.
  { rewrite wrap_small; [lia|]. unfold in_unsigned. lia. }
  wp_call (IH _ (S o) _ _ (ltac:(lia)) Hlo') with "H".
  iIntros (r) "(%i' & %o' & %pgs' & %fl' & -> & %Hco & H)". iExists i', o', pgs', fl'. iFrame.
  iPureIntro. split; [done|]. destruct Hco as [H1 H2 H3 H4 H5 H6 H7 H8 H9].
  split; try done; [by etrans|congruence|]. intros j Hj. rewrite H8; [|by rewrite Hsame].
  rewrite lookup_insert_ne //. intros <-. apply Hj, elem_of_app. right.
  eapply pages_in; [done|done|]. apply elem_of_block. lia.
Qed.

Lemma __hyp_attach_page_spec pool s e pgs fl i (o : nat) :
  pool_wf s e pgs fl → (o ≤ max_order)%nat → pgs !! i = Some (Pg 0 (Z.of_nat o) false) →
  (2 ^ Z.of_nat o | i) → NoDup (block o i ++ pages_of fl) →
  (∀ j, j ∈ block o i → s ≤ j < e ∧ unused pgs j) →
  {{ pool_at pool s e pgs fl }} __hyp_attach_page pool (page i)
  {{ _, ∃ pgs' fl', pool_at pool s e pgs' fl' ∗
        ⌜pool_wf s e pgs' fl' ∧ pages_of fl' ≡ₚ block o i ++ pages_of fl ∧
         in_use pgs' = in_use pgs ∧ ∀ j, j ∉ block o i ++ pages_of fl → pgs' !! j = pgs !! j⌝ }}.
Proof.
  intros Hwf Ho Hi Ha Hnd Hr. triple_start. iIntros "H". unfold __hyp_attach_page.
  wp_call (load_order_spec pool s e pgs fl i _ Hi) with "H". iIntros (r) "[-> H]".
  wp_call (store_order_spec pool s e pgs fl i _ HYP_NO_ORDER Hi) with "H". iIntros (_) "H".
  simpl rc. simpl ord. simpl listed.
  assert (loose s e (<[i := Pg 0 HYP_NO_ORDER false]> pgs) fl i o) as Hlo.
  { split_and!; [by eapply pool_wf_page|done|by rewrite lookup_insert_eq|done|done|].
    intros j Hj. destruct (Hr j Hj). split; [done|]. by apply unused_insert_mono. }
  assert (in_use (<[i := Pg 0 HYP_NO_ORDER false]> pgs) = in_use pgs) as Huse.
  { rewrite in_use_insert /=. apply delete_id. by eapply in_use_none. }
  wp_call (attach_loop_spec pool s e (S (Z.to_nat HYP_MAX_ORDER)) i o _ fl
    (ltac:(unfold max_order, HYP_MAX_ORDER; lia)) Hlo) with "H".
  iIntros (r) "(%i' & %o' & %pgs' & %fl' & -> & %Hco & H)". destruct Hco as [Hwf' Ho' Hp' Ha' Hpg Hu Hun Hoth Hmax].
  cbv beta iota.
  wp_call (store_order_spec pool s e pgs' fl' i' _ (Z.of_nat o') Hp') with "H". iIntros (_) "H".
  destruct (lookup_lt_is_Some_2 fl' o') as [l Hl].
  { rewrite (fl_length _ _ (wf_fl _ _ _ _ Hwf')). lia. }
  wp_call (list_add_spec pool s e _ fl' o' l i' (Pg 0 (Z.of_nat o') false) Hl
    (lookup_insert_eq _ _ _) eq_refl) with "H".
  iIntros (_) "H". rewrite insert_insert_eq. simpl. iExists _, _. iFrame. iPureIntro.
  assert (NoDup (block o' i' ++ pages_of fl')) as Hnd' by by rewrite Hpg.
  split_and!.
  - eapply pool_wf_add; try done. naive_solver.
  - by rewrite (pages_add fl' o' l _ i' Hl) // Hpg.
  - rewrite in_use_insert /= -Huse -Hu. apply delete_id. by eapply in_use_none.
  - intros j Hj. pose proof (pow2_pos o'). pose proof (pow2_pos o).
    rewrite lookup_insert_ne; last first.
    { intros <-. apply Hj. rewrite -Hpg. apply elem_of_app. left. apply elem_of_block. lia. }
    rewrite Hoth // lookup_insert_ne //. intros <-. apply Hj, elem_of_app. left.
    apply elem_of_block. lia.
Qed.

(** ** Extracting a block *)

(** A block of order [k] at [i] that is on no list and of which nothing is in
    use; its page says [k]. *)
Definition detached (s e : Z) (pgs : gmap Z pg) (fl : list (list Z)) (i : Z) (k : nat) : Prop :=
  pool_wf s e pgs fl ∧ (k ≤ max_order)%nat ∧ pgs !! i = Some (Pg 0 (Z.of_nat k) false) ∧
  (2 ^ Z.of_nat k | i) ∧ NoDup (block k i ++ pages_of fl) ∧
  ∀ j, j ∈ block k i → s ≤ j < e ∧ unused pgs j.

Lemma buddy_upper i k : (2 ^ Z.of_nat (S k) | i) → buddy i k = i + 2 ^ Z.of_nat k.
Proof.
  intros Hd. pose proof (pow2_pos k).
  assert (2 ^ Z.of_nat k | i) as Hk by (etrans; [|exact Hd]; rewrite pow2_S; by exists 2).
  destruct (buddy_cases i k Hk) as [[_ ->]|[Hd' _]]; [done|]. exfalso.
  assert (2 ^ Z.of_nat (S k) | 2 ^ Z.of_nat k) as Hdiv.
  { replace (2 ^ Z.of_nat k) with (i - (i - 2 ^ Z.of_nat k)) by lia. by apply Z.divide_sub_r. }
  apply Z.divide_pos_le in Hdiv; [|lia]. rewrite pow2_S in Hdiv. lia.
Qed.

(** Pages of a detached block are on no list. *)
Lemma detached_page s e pgs fl i k j :
  detached s e pgs fl i k → j ∈ block k i →
  ∃ v, pgs !! j = Some (Pg 0 v false).
Proof.
  intros (Hwf & Hk & Hp & Ha & Hnd & Hr) Hj. destruct (Hr j Hj) as [Hje Hun].
  destruct (proj2 (wf_dom _ _ _ _ Hwf j) Hje) as [[r v li] Hg]. exists v.
  assert (r = 0) as ->.
  { destruct (decide (r = 0)) as [|Hr0]; [done|]. destruct (Hun j _ Hg Hr0). simpl.
    apply elem_of_block. pose proof (pow2_pos (Z.to_nat v)). lia. }
  destruct li; [|done]. exfalso.
  destruct (wf_listed _ _ _ _ Hwf j _ Hg eq_refl) as (o & l & _ & Hl & Hin).
  apply NoDup_app in Hnd as (_ & Hnd & _). apply (Hnd j Hj).
  eapply pages_in; [done|done|]. apply elem_of_block. pose proof (pow2_pos o). lia.
Qed.

(** Giving the upper half back. *)
Lemma detached_split s e pgs fl i k l :
  detached s e pgs fl i (S k) → fl !! k = Some l →
  let b := buddy i k in
  let pgs' := <[b := Pg 0 (Z.of_nat k) true]> (<[i := Pg 0 (Z.of_nat k) false]> pgs) in
  let fl' := <[k := l ++ [b]]> fl in
  detached s e pgs' fl' i k ∧ block k i ++ pages_of fl' ≡ₚ block (S k) i ++ pages_of fl ∧
  in_use pgs' = in_use pgs.
Proof.
  intros Hdt Hl b pgs' fl'. pose proof Hdt as (Hwf & Hk & Hp & Ha & Hnd & Hr).
  pose proof (pow2_pos k). assert (b = i + 2 ^ Z.of_nat k) as Eb by by apply buddy_upper.
  assert (2 ^ Z.of_nat k | i) as Hak by (etrans; [|exact Ha]; rewrite pow2_S; by exists 2).
  assert (l ++ [b] ≡ₚ b :: l) as Hperm by (symmetry; apply Permutation_cons_append).
  assert (b ∈ block (S k) i) as Hbin by (apply elem_of_block; rewrite pow2_S; lia).
  destruct (detached_page _ _ _ _ _ _ b Hdt Hbin) as [v Hb].
  assert (block k i ++ pages_of fl' ≡ₚ block (S k) i ++ pages_of fl) as Hsame.
  { unfold fl'. rewrite (pages_add fl k l _ b Hl Hperm) block_split assoc. by subst b; rewrite Eb. }
  assert (∀ j, j ∈ block k i → j ∈ block (S k) i) as Hsub1.
  { intros j. rewrite !elem_of_block pow2_S. lia. }
  assert (∀ j, j ∈ block k b → j ∈ block (S k) i) as Hsub2.
  { intros j. rewrite !elem_of_block pow2_S. lia. }
  assert (pool_wf s e (<[i := Pg 0 (Z.of_nat k) false]> pgs) fl) as Hwf1 by by eapply pool_wf_page.
  rewrite block_split -assoc in Hnd. rewrite -Eb in Hnd.
  apply NoDup_app in Hnd as (Hnd1 & Hnd2 & Hnd3).
  split_and!; [|done|].
  - split_and!; [|lia| |done| |].
    + eapply (pool_wf_add _ _ _ _ k l _ b (Pg 0 v false)); [done| |done|done|done|by apply buddy_aligned|done| |].
      * rewrite lookup_insert_ne; [exact Hb|lia].
      * intros j Hj. destruct (Hr j (Hsub2 j Hj)). split; [done|]. by apply unused_insert_mono.
      * intros _ Hin. unfold b in Hin. rewrite buddy_involutive in Hin.
        pose proof (wf_on_list _ _ _ _ Hwf _ _ _ Hl Hin) as E. rewrite Hp in E. by simplify_eq.
    + unfold pgs'. rewrite lookup_insert_ne; [|lia]. by rewrite lookup_insert_eq.
    + rewrite Hsame block_split -assoc -Eb. by apply NoDup_app.
    + intros j Hj. destruct (Hr j (Hsub1 j Hj)). split; [done|].
      unfold pgs'. do 2 (apply unused_insert_mono; [|done]). done.
  - unfold pgs'. rewrite !in_use_insert /=.
    rewrite (delete_id (in_use pgs)); [|by eapply in_use_none].
    apply delete_id. by eapply in_use_none.
Qed.

Lemma extract_loop_spec pool s e (o : nat) i : ∀ fuel (k : nat) pgs fl,
  (k - o < fuel)%nat → (o ≤ k)%nat → detached s e pgs fl i k →
  {{ pool_at pool s e pgs fl }} extract_loop fuel pool (page i) (Z.of_nat o)
  {{ _, ∃ pgs' fl', ⌜detached s e pgs' fl' i o ∧
          block o i ++ pages_of fl' ≡ₚ block k i ++ pages_of fl ∧ in_use pgs' = in_use pgs⌝ ∗
        pool_at pool s e pgs' fl' }}.
Proof.
  induction fuel as [|fuel IH]; intros k pgs fl Hfuel Hok Hdt; [lia|].
  pose proof Hdt as (Hwf & Hk & Hp & Ha & Hnd & Hr).
  triple_start. iIntros "H". cbn [extract_loop].
  wp_call (load_order_spec pool s e pgs fl i _ Hp) with "H". iIntros (r) "[-> H]". simpl ord.
  destruct (Z.ltb_spec (Z.of_nat o) (Z.of_nat k)) as [Hlt|Hge]; last first.
  { assert (k = o) as -> by lia. wp_ret. iExists pgs, fl. by iFrame. }
  destruct k as [|k]; [lia|]. pose proof (pow2_pos k).
  wp_call (load_order_spec pool s e pgs fl i _ Hp) with "H". iIntros (r) "[-> H]". simpl ord.
  replace (u32 (Z.of_nat (S k) - 1)) with (Z.of_nat k); last first.
  { rewrite wrap_small; [lia|]. unfold in_unsigned, max_order in *. lia. }
  wp_call (store_order_spec pool s e pgs fl i _ (Z.of_nat k) Hp) with "H". iIntros (_) "H".
  simpl rc. simpl listed. set (pgs1 := <[i := Pg 0 (Z.of_nat k) false]> pgs).
  assert (pgs1 !! i = Some (Pg 0 (Z.of_nat k) false)) as Hi1 by apply lookup_insert_eq.
  wp_call (load_order_spec pool s e pgs1 fl i _ Hi1) with "H". iIntros (r) "[-> H]". simpl ord.
  assert (pool_wf s e pgs1 fl) as Hwf1 by by eapply pool_wf_page.
  assert (s ≤ i < e) as Hie by (apply Hr, elem_of_block; rewrite pow2_S; lia).
  assert (buddy i k ∈ block (S k) i) as Hbin.
  { rewrite buddy_upper //. apply elem_of_block. rewrite pow2_S. lia. }
  wp_call (find_buddy_pool_spec pool s e pgs1 fl i k Hwf1 Hie ltac:(lia)) with "H". iIntros (r) "[-> H]".
  rewrite decide_True; [|by apply Hr].
  wp_call (load_order_spec pool s e pgs1 fl i _ Hi1) with "H". iIntros (r) "[-> H]". simpl ord.
  destruct (detached_page _ _ _ _ _ _ _ Hdt Hbin) as [v Hb].
  assert (pgs1 !! buddy i k = Some (Pg 0 v false)) as Hb1.
  { unfold pgs1. rewrite lookup_insert_ne //. rewrite buddy_upper //. lia. }
  wp_call (store_order_spec pool s e pgs1 fl (buddy i k) _ (Z.of_nat k) Hb1) with "H".
  iIntros (_) "H". simpl rc. simpl listed.
  set (pgs2 := <[buddy i k := Pg 0 (Z.of_nat k) false]> pgs1).
  assert (pgs2 !! buddy i k = Some (Pg 0 (Z.of_nat k) false)) as Hb2 by apply lookup_insert_eq.
  wp_call (load_order_spec pool s e pgs2 fl (buddy i k) _ Hb2) with "H". iIntros (r) "[-> H]".
  simpl ord. destruct (lookup_lt_is_Some_2 fl k) as [l Hl].
  { rewrite (fl_length _ _ (wf_fl _ _ _ _ Hwf)). lia. }
  wp_call (list_add_tail_spec pool s e pgs2 fl k l _ _ Hl Hb2 eq_refl) with "H". iIntros (_) "H".
  simpl rc. simpl ord. unfold pgs2. rewrite insert_insert_eq.
  destruct (detached_split s e pgs fl i k l Hdt Hl) as (Hdt' & Hsame & Huse).
  wp_call (IH k _ _ (ltac:(lia)) (ltac:(lia)) Hdt') with "H".
  iIntros (_) "(%pgs' & %fl' & (%Hd & %Hs & %Hu) & H)". iExists pgs', fl'. iFrame. iPureIntro.
  split_and!; [done|by rewrite Hs|by rewrite Hu].
Qed.

(** The block of order [o] at [i] is in use afterwards, its pages are no longer
    free, and nothing else changed. *)
Definition extracted (s e : Z) (pgs : gmap Z pg) (fl : list (list Z)) (i : Z) (o : nat)
    (pgs' : gmap Z pg) (fl' : list (list Z)) : Prop :=
  pool_wf s e pgs' fl' ∧ pgs' !! i = Some (Pg 1 (Z.of_nat o) false) ∧ (2 ^ Z.of_nat o | i) ∧
  pages_of fl ≡ₚ block o i ++ pages_of fl' ∧ in_use pgs !! i = None ∧
  in_use pgs' = <[i := (Z.of_nat o, 1)]> (in_use pgs).

Lemma detached_use s e pgs fl i o :
  detached s e pgs fl i o → pool_wf s e (<[i := Pg 1 (Z.of_nat o) false]> pgs) fl.
Proof.
  intros (Hwf & Hk & Hp & Ha & Hnd & Hr). pose proof (pow2_pos o).
  eapply pool_wf_page; [done|done|done|]. split; [done|]. intros _. simpl. split_and!.
  - done.
  - lia.
  - exists o. split_and!; [done|done|done|].
    destruct (Hr (i + 2 ^ Z.of_nat o - 1)); [apply elem_of_block; lia|lia].
  - intros j Hj. rewrite Nat2Z.id in Hj. split.
    + apply NoDup_app in Hnd as (_ & Hnd & _). by apply Hnd.
    + intros k g _. by apply (Hr j Hj).
Qed.

Lemma __hyp_extract_page_spec pool s e pgs fl (k o : nat) i l :
  pool_wf s e pgs fl → (o ≤ k)%nat → fl !! k = Some (i :: l) →
  {{ pool_at pool s e pgs fl }} __hyp_extract_page pool (page i) (Z.of_nat o)
  {{ r, ⌜r = page i⌝ ∗ ∃ pgs' fl', ⌜extracted s e pgs fl i o pgs' fl'⌝ ∗
        pool_at pool s e pgs' fl' }}.
Proof.
  intros Hwf Hok Hl. pose proof (wf_on_list _ _ _ _ Hwf _ _ _ Hl ltac:(by left)) as Hi.
  pose proof (wf_fl _ _ _ _ Hwf) as Hfl.
  assert (k ≤ max_order)%nat as Hkm.
  { pose proof (lookup_lt_Some _ _ _ Hl) as Hlt. rewrite (fl_length _ _ Hfl) in Hlt. lia. }
  triple_start. iIntros "H". unfold __hyp_extract_page.
  wp_call (load_order_spec pool s e pgs fl i _ Hi) with "H". iIntros (r) "[-> H]". simpl ord.
  rewrite (proj2 (Z.eqb_neq _ HYP_NO_ORDER)); [|unfold HYP_NO_ORDER, max_order in *; lia].
  wp_call (load_order_spec pool s e pgs fl i _ Hi) with "H". iIntros (r) "[-> H]". simpl ord.
  rewrite (proj2 (Z.ltb_ge _ _)); [|lia].
  wp_call (unlist_spec pool s e pgs fl k [] i l _ Hl Hi eq_refl) with "H". iIntros (_) "H".
  simpl rc. simpl ord. simpl app.
  pose proof (pages_remove fl k _ l i Hl (reflexivity _)) as Hpg.
  assert (detached s e (<[i := Pg 0 (Z.of_nat k) false]> pgs) (<[k := l]> fl) i k) as Hdt.
  { split_and!; [|done|by rewrite lookup_insert_eq| | |].
    - eapply pool_wf_remove; [done|done|done|]. by apply (fl_once _ _ k [] i l Hfl).
    - eapply (fl_aligned _ _ Hfl); [done|]. by left.
    - rewrite -Hpg. by eapply fl_disjoint.
    - intros j Hj. assert (j ∈ pages_of fl) as Hjf by (rewrite Hpg; apply elem_of_app; by left).
      split; [by eapply wf_range|]. apply unused_insert_mono; [|done].
      intros x g Hx Hrx Hjx. by eapply wf_used_not_free. }
  wp_call (extract_loop_spec pool s e o i (S (Z.to_nat HYP_MAX_ORDER)) k _ _
    (ltac:(unfold max_order, HYP_MAX_ORDER in *; lia)) Hok Hdt) with "H".
  iIntros (_) "(%pgs' & %fl' & (%Hd & %Hs & %Hu) & H)". pose proof Hd as (Hwf' & _ & Hp' & Ha' & _ & _).
  wp_call (store_refcount_spec pool s e pgs' fl' i _ 1 Hp') with "H". iIntros (_) "H".
  wp_ret. iSplit; [done|]. iExists _, _. iFrame "H". iPureIntro.
  assert (in_use pgs !! i = None) as Hnone by by eapply in_use_none.
  split_and!; [by apply detached_use|by rewrite lookup_insert_eq|done|by rewrite Hs -Hpg|done|].
  rewrite in_use_insert /= Hu in_use_insert /=. by rewrite (delete_id (in_use pgs)).
Qed.

Lemma first_free_spec pool s e pgs fl (k : nat) x l :
  fl !! k = Some (x :: l) →
  {{ pool_at pool s e pgs fl }} list_first_entry (free_area pool (Z.of_nat k)) 16
  {{ r, ⌜r = page x⌝ ∗ pool_at pool s e pgs fl }}.
Proof.
  intros Hl. triple_start. iIntros "(Hs & He & Hfl & Hpg)".
  iDestruct (big_sepL_lookup_acc _ _ _ _ Hl with "Hfl") as "[Hl Hfl]". unfold list_first_entry.
  wp_call (head_of_clist (free_area pool (Z.of_nat k)) (nodes (x :: l))) with "Hl".
  iIntros (r) "[-> Hl]". iDestruct ("Hfl" with "Hl") as "Hfl". wp_ret. iFrame. iPureIntro.
  unfold list_entry, nodes. simpl. unfold node_of. lia.
Qed.

Lemma find_loop_spec pool s e pgs fl : ∀ fuel (o : nat),
  length fl = S max_order → (max_order + 1 - o < fuel)%nat → Z.of_nat o < 2 ^ 32 →
  {{ pool_at pool s e pgs fl }} find_loop fuel pool (Z.of_nat o)
  {{ r, ∃ k : nat, ⌜r = Z.of_nat k ∧ (o ≤ k)%nat ∧
          (∀ m l, (o ≤ m < k)%nat → fl !! m = Some l → l = []) ∧
          ((k ≤ max_order)%nat → ∃ x l, fl !! k = Some (x :: l))⌝ ∗ pool_at pool s e pgs fl }}.
Proof.
  induction fuel as [|fuel IH]; intros o Hlen Hfuel Ho; [lia|].
  triple_start. iIntros "H". cbn [find_loop].
  destruct (Z.leb_spec (Z.of_nat o) HYP_MAX_ORDER) as [Hle|Hgt]; unfold HYP_MAX_ORDER in *; last first.
  { wp_ret. iExists o. iFrame. iPureIntro. unfold max_order. split_and!; [done|lia|lia|lia]. }
  destruct (lookup_lt_is_Some_2 fl o) as [l Hl]; [unfold max_order in *; lia|].
  iDestruct "H" as "(Hs & He & Hfl & Hpg)".
  iDestruct (big_sepL_lookup_acc _ _ _ _ Hl with "Hfl") as "[Hl Hfl]".
  wp_call (list_empty_spec (free_area pool (Z.of_nat o)) (nodes l)) with "Hl". iIntros (b) "[-> Hl]".
  iDestruct ("Hfl" with "Hl") as "Hfl". iAssert (pool_at pool s e pgs fl) with "[$Hs $He $Hfl $Hpg]" as "H".
  destruct l as [|x l]; simpl.
  - replace (u32 (Z.of_nat o + 1)) with (Z.of_nat (S o)); last first.
    { rewrite wrap_small; [lia|]. unfold in_unsigned. lia. }
    wp_call (IH (S o) Hlen (ltac:(unfold max_order in *; lia)) (ltac:(lia))) with "H".
    iIntros (r) "(%k & (-> & %Hk & %Hempty & %Hne) & $)". iExists k. iPureIntro.
    split_and!; [done|lia| |done]. intros m l Hm Hml. destruct (decide (m = o)) as [->|]; [congruence|].
    eapply Hempty; [|done]. lia.
  - wp_ret. iExists o. iFrame. iPureIntro. split_and!; [done|lia|lia|eauto].
Qed.

(** ** Clearing a block *)

Lemma virt_offset i t : u64 (virt i + u64 (PAGE_SIZE * t)) = virt (i + t).
Proof.
  unfold virt, __hyp_va, wrap. rewrite -Z.add_mod; [|lia].
  f_equal. unfold PAGE_SIZE. lia.
Qed.

Lemma clear_loop_spec pool s e pgs fl i (o : nat) g : ∀ n t,
  pool_wf s e pgs fl → s ≤ i < e → pgs !! i = Some g → ord g = Z.of_nat o → (o ≤ max_order)%nat →
  0 ≤ t ≤ 2 ^ Z.of_nat o → 2 ^ Z.of_nat o - t < Z.of_nat n →
  {{ pool_at pool s e pgs fl ∗ ([∗ list] j ∈ seqZ (i + t) (2 ^ Z.of_nat o - t), page_words (virt j)) }}
    clear_loop n (page i) t
  {{ _, pool_at pool s e pgs fl ∗
        ([∗ list] j ∈ seqZ (i + t) (2 ^ Z.of_nat o - t), zero_words (virt j)) }}.
Proof.
  induction n as [|n IH]; intros t Hwf Hi Hg Hord Ho Ht Hn; [lia|].
  triple_start. iIntros "[H Hw]". cbn [clear_loop].
  wp_call (load_order_spec pool s e pgs fl i g Hg) with "H". iIntros (r) "[-> H]".
  rewrite Hord. wp_focus. iApply wp_value; [intros h; by apply signed_shift|].
  rewrite Z.shiftl_1_l. destruct (Z.ltb_spec t (2 ^ Z.of_nat o)) as [Hlt|Hge]; last first.
  { wp_ret. iFrame "H". by replace (2 ^ Z.of_nat o - t) with 0 by lia. }
  rewrite (seqZ_cons (i + t)); [|lia]. rewrite !big_sepL_cons. iDestruct "Hw" as "[Hp Hw]".
  assert (2 ^ Z.of_nat o ≤ 2 ^ 11) by (apply Z.pow_le_mono_r; unfold max_order in *; lia).
  destruct (wf_bounds _ _ _ _ Hwf) as [Hb1 Hb2].
  rewrite (page_to_virt i); [|lia|unfold PAGE_SIZE in *; lia].
  unfold PAGE_SHIFT. rewrite Z.shiftl_mul_pow2; [|lia].
  replace (t * 2 ^ 12) with (PAGE_SIZE * t) by (unfold PAGE_SIZE; lia). rewrite virt_offset.
  wp_call (clear_page_spec (virt (i + t))) with "Hp". iIntros (_) "$".
  rewrite (wrap_small 64 (t + 1)); [|unfold in_unsigned; lia].
  replace (Z.succ (i + t)) with (i + (t + 1)) by lia.
  replace (Z.pred (2 ^ Z.of_nat o - t)) with (2 ^ Z.of_nat o - (t + 1)) by lia.
  wp_call (IH (t + 1) Hwf Hi Hg Hord Ho (ltac:(lia)) (ltac:(lia))) with "[$H $Hw]".
  iIntros (_) "[$ $]".
Qed.

Definition zeroed_pages (js : list Z) : hPropI := ([∗ list] j ∈ js, zero_words (virt j))%I.

Lemma clear_hyp_page_spec pool s e pgs fl i (o : nat) g :
  pool_wf s e pgs fl → s ≤ i < e → pgs !! i = Some g → ord g = Z.of_nat o → (o ≤ max_order)%nat →
  {{ pool_at pool s e pgs fl ∗ pages_mem (block o i) }} clear_hyp_page (page i)
  {{ _, pool_at pool s e pgs fl ∗ zeroed_pages (block o i) }}.
Proof.
  intros Hwf Hi Hg Hord Ho. pose proof (pow2_pos o).
  assert (2 ^ Z.of_nat o ≤ 2 ^ 11) by (apply Z.pow_le_mono_r; unfold max_order in *; lia).
  pose proof (clear_loop_spec pool s e pgs fl i o g (S (Z.to_nat (2 ^ HYP_MAX_ORDER))) 0
    Hwf Hi Hg Hord Ho ltac:(lia) ltac:(unfold HYP_MAX_ORDER; lia)) as Hc.
  by rewrite Z.add_0_r Z.sub_0_r in Hc.
Qed.

(** ** The allocator as its clients see it *)

(** The pool [pool] manages the pages from [s] up to [e]: the blocks in use,
    by their first page, with order and reference count, and the free pages,
    whose memory it owns. *)
Definition hyp_pool (pool s e : Z) (used : gmap Z (Z * Z)) (free : list Z) : hProp :=
  (∃ pgs fl, lock pool ↦ 0 ∗ pool_at pool s e pgs fl ∗ pages_mem free ∗
     ⌜pool_wf s e pgs fl ∧ pages_of fl ≡ₚ free ∧ in_use pgs = used⌝)%I.

Definition wants_zero (mask : Z) : bool := negb (Z.land mask HYP_GFP_ZERO =? 0).
Definition fresh_pages (mask : Z) (js : list Z) : hPropI :=
  if wants_zero mask then zeroed_pages js else pages_mem js.

(** The order is beyond the maximum, or no aligned run of [2 ^ o] free pages is
    left. *)
Definition exhausted (o : nat) (free : list Z) : Prop :=
  (max_order < o)%nat ∨ ∀ b, (2 ^ Z.of_nat o | b) → ∃ j, j ∈ block o b ∧ j ∉ free.

Lemma pages_mem_perm js js' : js ≡ₚ js' → pages_mem js ⊣⊢ pages_mem js'.
Proof. intros Hp. unfold pages_mem. by rewrite Hp. Qed.

Lemma pages_mem_app js js' : pages_mem (js ++ js') ⊣⊢ pages_mem js ∗ pages_mem js'.
Proof. apply big_sepL_app. Qed.

Lemma find_failed_exhausted s e pgs fl (o k : nat) free :
  pool_wf s e pgs fl → pages_of fl ≡ₚ free → (max_order < k)%nat →
  (∀ m l, (o ≤ m < k)%nat → fl !! m = Some l → l = []) → exhausted o free.
Proof.
  intros Hwf Hfree Hk Hempty. destruct (decide (max_order < o)%nat) as [|Hle]; [by left|right].
  intros b Hb. destruct (decide (Forall (λ j, j ∈ free) (block o b))) as [Hall|Hnot].
  - exfalso. rewrite ->Forall_forall in Hall.
    destruct (aligned_run_in_block max_order fl o b (wf_fl _ _ _ _ Hwf) ltac:(lia) Hb) as
      (m & l & i & Hm & Hl & Hi & _).
    { intros j Hj. rewrite Hfree. by apply Hall. }
    assert (m < k)%nat.
    { apply lookup_lt_Some in Hl as Hlt. rewrite (fl_length _ _ (wf_fl _ _ _ _ Hwf)) in Hlt. lia. }
    assert (l = []) as -> by (eapply Hempty; [|done]; lia). by apply elem_of_nil in Hi.
  - apply not_Forall_Exists in Hnot; [|intros x; apply _]. apply Exists_exists in Hnot as (j & ? & ?).
    eauto.
Qed.

Lemma hyp_alloc_pages_spec pool s e used free mask (o : nat) :
  Z.of_nat o < 2 ^ 32 →
  {{ hyp_pool pool s e used free }} hyp_alloc_pages pool mask (Z.of_nat o)
  {{ r, (⌜r = NULL ∧ exhausted o free⌝ ∗ hyp_pool pool s e used free) ∨
        (∃ i free', ⌜r = virt i ∧ used !! i = None ∧ (2 ^ Z.of_nat o | i) ∧
                     free ≡ₚ block o i ++ free'⌝ ∗
           hyp_pool pool s e (<[i := (Z.of_nat o, 1)]> used) free' ∗
           fresh_pages mask (block o i)) }}.
Proof.
  intros Ho. triple_start. iIntros "(%pgs & %fl & Hlk & H & Hm & %Hwf & %Hfree & %Huse)".
  unfold hyp_alloc_pages, __hyp_alloc_pages.
  wp_call (sl_lock_spec (lock pool)) with "Hlk". iIntros (_) "Hlk".
  wp_call (find_loop_spec pool s e pgs fl (S (S (Z.to_nat HYP_MAX_ORDER))) o
    (fl_length _ _ (wf_fl _ _ _ _ Hwf)) (ltac:(unfold max_order, HYP_MAX_ORDER; lia)) Ho) with "H".
  iIntros (r) "(%k & (-> & %Hok & %Hempty & %Hne) & H)". unfold HYP_MAX_ORDER at 1.
  destruct (Z.ltb_spec 11 (Z.of_nat k)) as [Hgt|Hle].
  { wp_ret. wp_call (sl_unlock_spec (lock pool)) with "Hlk". iIntros (_) "Hlk". wp_ret.
    iLeft. iSplit.
    - iPureIntro. split; [done|]. eapply find_failed_exhausted; [done|done| |done].
      unfold max_order. lia.
    - iExists pgs, fl. by iFrame. }
  destruct Hne as (x & l & Hl); [unfold max_order; lia|].
  wp_call (first_free_spec pool s e pgs fl k x l Hl) with "H". iIntros (p) "[-> H]".
  wp_call (__hyp_extract_page_spec pool s e pgs fl k o x l Hwf Hok Hl) with "H".
  iIntros (p) "(-> & %pgs' & %fl' & %Hex & H)".
  pose proof Hex as (Hwf' & Hx & Hal & Hpg & Hnone & Huse').
  iDestruct (page_not_null _ _ _ _ _ _ _ Hx with "H") as %Hnn.
  rewrite (pages_mem_perm free (block o x ++ pages_of fl')); [|by rewrite -Hfree].
  rewrite pages_mem_app. iDestruct "Hm" as "[Hb Hm]".
  destruct (wf_bounds _ _ _ _ Hwf) as [Hb1 Hb2]. pose proof (pow2_pos o).
  assert (s ≤ x < e) as Hxe by (apply (wf_dom _ _ _ _ Hwf'); eauto).
  fold (wants_zero mask).
  wp_focus. iApply (wp_wand _ (λ _, pool_at pool s e pgs' fl' ∗ fresh_pages mask (block o x))%I
    with "[H Hb]").
  { unfold fresh_pages. destruct (wants_zero mask); [|by wp_ret; iFrame].
    iApply (clear_hyp_page_spec pool s e pgs' fl' x o _ Hwf' Hxe Hx eq_refl with "[$H $Hb]").
    unfold max_order. lia. }
  iIntros (_) "[H Hb]". wp_ret.
  wp_call (sl_unlock_spec (lock pool)) with "Hlk". iIntros (_) "Hlk". wp_ret.
  rewrite (proj2 (Z.eqb_neq _ NULL)) //. iRight. iExists x, (pages_of fl'). iFrame "Hb".
  rewrite /= page_to_virt; [|lia|unfold PAGE_SIZE in *; lia]. iSplit.
  - iPureIntro. split_and!; [done|by rewrite -Huse|done|by rewrite -Hfree].
  - iExists pgs', fl'. iFrame. iPureIntro. split_and!; [done|done|by rewrite -Huse].
Qed.

(** ** Reference counts *)

Lemma in_use_lookup pgs i a r :
  in_use pgs !! i = Some (a, r) → ∃ g, pgs !! i = Some g ∧ ord g = a ∧ rc g = r ∧ rc g ≠ 0.
Proof.
  unfold in_use. rewrite lookup_omap. destruct (pgs !! i) as [g|]; [|done]. simpl.
  destruct (Z.eqb_spec (rc g) 0); [done|]. intros [= <- <-]. eauto.
Qed.

Lemma words_excl a n :
  0 < n → ([∗ list] k ∈ seqZ 0 n, (a + 8 * k) ↦?) -∗ ([∗ list] k ∈ seqZ 0 n, (a + 8 * k) ↦?) -∗
  (False : hPropI).
Proof.
  intros Hn. rewrite seqZ_cons //. rewrite !big_sepL_cons. iIntros "[[% H1] _] [[% H2] _]".
  by iDestruct (pointsto_ne with "H1 H2") as %[].
Qed.

Lemma page_words_excl a : page_words a -∗ page_words a -∗ False.
Proof. rewrite page_words_unseal. by apply words_excl. Qed.

Lemma pages_mem_nodup js : pages_mem js ⊢ ⌜NoDup js⌝.
Proof.
  induction js as [|j js IH]; [iIntros "_"; iPureIntro; constructor|].
  iIntros "[Hj H]". rewrite NoDup_cons. iSplit; [|by iApply IH]. iIntros (Hin).
  apply list_elem_of_lookup in Hin as [n Hn].
  iDestruct (big_sepL_lookup _ _ _ _ Hn with "H") as "Hj'".
  iApply (page_words_excl with "Hj Hj'").
Qed.

Lemma load_pool_spec pool s e pgs fl i g :
  pgs !! i = Some g →
  {{ pool_at pool s e pgs fl }} hyp_page_to_pool (page i)
  {{ r, ⌜r = pool⌝ ∗ pool_at pool s e pgs fl }}.
Proof.
  intros Hi. triple_start. iIntros "(Hs & He & Hfl & Hpg)". unfold hyp_page_to_pool.
  iDestruct (big_sepM_lookup_acc _ _ _ _ Hi with "Hpg") as "[(H1 & H2 & H3 & Hn) Hpg]". wp_load.
  iDestruct ("Hpg" with "[$H1 $H2 $H3 $Hn]") as "Hpg". by iFrame.
Qed.

Lemma wf_virt s e pgs fl i g :
  pool_wf s e pgs fl → pgs !! i = Some g → hyp_virt_to_page (virt i) = page i.
Proof.
  intros Hwf Hi. destruct (wf_bounds _ _ _ _ Hwf) as [??].
  assert (s ≤ i < e) by (apply (wf_dom _ _ _ _ Hwf); eauto).
  apply virt_to_page; unfold PAGE_SIZE in *; lia.
Qed.

(** Changing the reference count of a block in use. *)
Lemma pool_wf_refcount s e pgs fl i g r :
  pool_wf s e pgs fl → pgs !! i = Some g → rc g ≠ 0 → 0 ≤ r < 2 ^ 32 →
  pool_wf s e (<[i := Pg r (ord g) (listed g)]> pgs) fl.
Proof.
  intros Hwf Hi Hg Hr. destruct (wf_used _ _ _ _ Hwf i g Hi Hg) as (Hl & _ & Hord).
  eapply pool_wf_page; [done|done|done|]. split; [done|]. simpl. intros Hr0.
  split_and!; [lia|lia|done|]. intros j Hj. split; [by eapply wf_used_not_free|].
  intros k h Hk Hh Hrh Hjk. apply Hk. by eapply (wf_used_disjoint _ _ _ _ Hwf k h i g j).
Qed.

(** A block given back: its memory is needed when the last reference goes. *)
Definition surrendered (r : Z) (js : list Z) : hPropI := if r =? 1 then pages_mem js else emp%I.

Lemma hyp_put_page_spec pool s e used free i (o : nat) r :
  used !! i = Some (Z.of_nat o, r) →
  {{ hyp_pool pool s e used free ∗ surrendered r (block o i) }} hyp_put_page (virt i)
  {{ _, if r =? 1 then hyp_pool pool s e (delete i used) (block o i ++ free)
        else hyp_pool pool s e (<[i := (Z.of_nat o, r - 1)]> used) free }}.
Proof.
  intros Hi. triple_start. iIntros "[(%pgs & %fl & Hlk & H & Hm & %Hwf & %Hfree & %Huse) Hb]".
  rewrite -Huse in Hi. destruct (in_use_lookup _ _ _ _ Hi) as (g & Hg & Hord & <- & Hr0).
  destruct (wf_used _ _ _ _ Hwf i g Hg Hr0) as (Hli & Hr & o' & Ho' & Hmax & Ha & He).
  assert (o' = o) as -> by lia. unfold hyp_put_page. rewrite (wf_virt _ _ _ _ _ _ Hwf Hg).
  wp_call (load_pool_spec pool s e pgs fl i g Hg) with "H". iIntros (p) "[-> H]".
  wp_call (sl_lock_spec (lock pool)) with "Hlk". iIntros (_) "Hlk".
  wp_call (load_refcount_spec pool s e pgs fl i g Hg) with "H". iIntros (p) "[-> H]".
  rewrite (proj2 (Z.eqb_neq (rc g) 0)) //. wp_ret.
  wp_call (load_refcount_spec pool s e pgs fl i g Hg) with "H". iIntros (p) "[-> H]".
  rewrite wrap_small; [|unfold in_unsigned; lia].
  wp_call (store_refcount_spec pool s e pgs fl i g (rc g - 1) Hg) with "H". iIntros (_) "H".
  pose proof (pool_wf_refcount s e pgs fl i g (rc g - 1) Hwf Hg Hr0 ltac:(lia)) as Hwf1.
  set (g1 := Pg (rc g - 1) (ord g) (listed g)) in *. set (pgs1 := <[i := g1]> pgs) in *.
  assert (pgs1 !! i = Some g1) as Hg1 by apply lookup_insert_eq.
  assert (in_use pgs1 = if rc g1 =? 0 then delete i used else <[i := (ord g, rc g - 1)]> used) as Huse1.
  { unfold pgs1. by rewrite in_use_insert Huse. }
  wp_call (load_refcount_spec pool s e pgs1 fl i g1 Hg1) with "H". iIntros (p) "[-> H]".
  simpl in Huse1 |- *. unfold surrendered. destruct (Z.eqb_spec (rc g) 1) as [H1|H1].
  - rewrite H1 /= in Huse1 |- *. iDestruct (pages_mem_app with "[$Hb $Hm]") as "Hm".
    iDestruct (pages_mem_nodup with "Hm") as %Hnd.
    assert (pgs1 !! i = Some (Pg 0 (Z.of_nat o) false)) as Hi1.
    { rewrite Hg1. unfold g1. by rewrite H1 Hord Hli. }
    assert (∀ j, j ∈ block o i → s ≤ j < e ∧ unused pgs1 j) as Hblk.
    { intros j Hj. pose proof (proj1 (elem_of_block o i j) Hj).
      assert (s ≤ i < e) by (apply (wf_dom _ _ _ _ Hwf); eauto). split; [lia|].
      apply unused_insert; [|simpl; lia]. intros k h Hk Hh Hrh Hjk. apply Hk.
      eapply (wf_used_disjoint _ _ _ _ Hwf k h i g j); try done. by rewrite Hord Nat2Z.id. }
    wp_call (__hyp_attach_page_spec pool s e pgs1 fl i o Hwf1 Hmax Hi1 Ha
      (ltac:(by rewrite Hfree)) Hblk) with "H".
    iIntros (_) "(%pgs' & %fl' & H & %Hwf' & %Hpg' & %Hu' & _)".
    wp_call (sl_unlock_spec (lock pool)) with "Hlk". iIntros (_) "Hlk".
    iExists pgs', fl'. iFrame. iPureIntro.
    split_and!; [done|by rewrite Hpg' Hfree|by rewrite Hu' Huse1].
  - rewrite (proj2 (Z.eqb_neq (rc g - 1) 0)) in Huse1 |- *; [|lia]. wp_ret.
    wp_call (sl_unlock_spec (lock pool)) with "Hlk". iIntros (_) "Hlk".
    iExists pgs1, fl. iFrame. iPureIntro. split_and!; [done|done|]. by rewrite Huse1 Hord.
Qed.

Lemma hyp_get_page_spec pool s e used free i a r :
  used !! i = Some (a, r) → r + 1 < 2 ^ 32 →
  {{ hyp_pool pool s e used free }} hyp_get_page (virt i)
  {{ _, hyp_pool pool s e (<[i := (a, r + 1)]> used) free }}.
Proof.
  intros Hi Hr1. triple_start. iIntros "(%pgs & %fl & Hlk & H & Hm & %Hwf & %Hfree & %Huse)".
  rewrite -Huse in Hi. destruct (in_use_lookup _ _ _ _ Hi) as (g & Hg & Hord & <- & Hr0).
  destruct (wf_used _ _ _ _ Hwf i g Hg Hr0) as (_ & Hr & _).
  unfold hyp_get_page. rewrite (wf_virt _ _ _ _ _ _ Hwf Hg).
  wp_call (load_pool_spec pool s e pgs fl i g Hg) with "H". iIntros (p) "[-> H]".
  wp_call (sl_lock_spec (lock pool)) with "Hlk". iIntros (_) "Hlk".
  wp_call (load_refcount_spec pool s e pgs fl i g Hg) with "H". iIntros (p) "[-> H]".
  rewrite wrap_small; [|unfold in_unsigned; lia].
  wp_call (store_refcount_spec pool s e pgs fl i g (rc g + 1) Hg) with "H". iIntros (_) "H".
  wp_call (sl_unlock_spec (lock pool)) with "Hlk". iIntros (_) "Hlk".
  iExists _, fl. iFrame. iPureIntro.
  split_and!; [apply pool_wf_refcount; [done..|lia]|done|].
  rewrite in_use_insert /= (proj2 (Z.eqb_neq _ 0)); [|lia]. by rewrite Huse Hord.
Qed.

(** Putting a page that is not in use. *)
Lemma hyp_put_page_panics pool s e used free i :
  used !! i = None → s ≤ i < e →
  stops (hyp_pool pool s e used free) (hyp_put_page (virt i)) AssertionFailure.
Proof.
  intros Hi Hie. apply stops_exist. intros pgs. apply stops_exist. intros fl.
  intros h hf HP Hd.
  assert (pool_wf s e pgs fl ∧ in_use pgs = used) as [Hwf Huse].
  { destruct HP as (h1 & h2 & -> & _ & _ & h3 & h4 & -> & _ & _ & h5 & h6 & -> & _ & _ & ? & _ & ?).
    done. }
  revert h hf HP Hd. change (stops
    (lock pool ↦ 0 ∗ pool_at pool s e pgs fl ∗ pages_mem free ∗
     ⌜pool_wf s e pgs fl ∧ pages_of fl ≡ₚ free ∧ in_use pgs = used⌝)%I
    (hyp_put_page (virt i)) AssertionFailure).
  destruct (proj2 (wf_dom _ _ _ _ Hwf i) Hie) as [g Hg].
  assert (rc g = 0) as Hrc.
  { rewrite -Huse /in_use lookup_omap Hg /= in Hi. by destruct (Z.eqb_spec (rc g) 0). }
  unfold hyp_put_page. rewrite (wf_virt _ _ _ _ _ _ Hwf Hg).
  apply (stops_bind _ _ (λ p, ⌜p = pool⌝ ∗ lock pool ↦ 0 ∗ pool_at pool s e pgs fl)%I).
  { triple_start. iIntros "(Hlk & H & _)".
    wp_call (load_pool_spec pool s e pgs fl i g Hg) with "H". iIntros (p) "[$ $]". done. }
  intros p. apply stops_pure. intros ->.
  apply (stops_bind _ _ (λ _, pool_at pool s e pgs fl)).
  { triple_start. iIntros "[Hlk H]". wp_call (sl_lock_spec (lock pool)) with "Hlk".
    iIntros (_) "_". done. }
  intros _. apply (stops_bind _ _ (λ r, ⌜r = rc g⌝ ∗ pool_at pool s e pgs fl)%I);
    [by apply load_refcount_spec|].
  intros r. apply stops_pure. intros ->. rewrite Hrc. by intros h hf _ _.
Qed.

(** ** Initialisation *)

(** The memory of a [struct hyp_page] and of a [struct hyp_pool]. *)
Definition page_uninit (p : Z) : hPropI :=
  (refcount p ↦? ∗ order p ↦? ∗ page_pool p ↦? ∗ node (node_of p))%I.
Definition pool_uninit (pool : Z) : hPropI :=
  (lock pool ↦? ∗ ([∗ list] o ∈ seqZ 0 (HYP_MAX_ORDER + 1), node (free_area pool o)) ∗
   range_start pool ↦? ∗ range_end pool ↦?)%I.

Lemma init_free_area_spec pool : ∀ n o,
  {{ [∗ list] o ∈ seqZ o (Z.of_nat n), node (free_area pool o) }} init_free_area n pool o
  {{ _, [∗ list] k ↦ l ∈ replicate n ([] : list Z), clist (free_area pool (o + Z.of_nat k)) (nodes l) }}.
Proof.
  induction n as [|n IH]; intros o; triple_start.
  - iIntros "_". simpl. by wp_rets.
  - rewrite seqZ_cons; [|lia]. rewrite big_sepL_cons. iIntros "[H Hr]".
    replace (Z.pred (Z.of_nat (S n))) with (Z.of_nat n) by lia. cbn [init_free_area].
    wp_call (INIT_LIST_HEAD_spec (free_area pool o)) with "H". iIntros (_) "H". rewrite -Z.add_1_r.
    wp_call (IH (o + 1)) with "Hr". iIntros (_) "Hr". simpl replicate. rewrite big_sepL_cons Z.add_0_r.
    iFrame "H". iApply (big_sepL_impl with "Hr"). iIntros "!>" (k l _) "H".
    by replace (o + 1 + Z.of_nat k) with (o + Z.of_nat (S k)) by lia.
Qed.

Lemma page_succ i : page i + sizeof_hyp_page = page (i + 1).
Proof. unfold page, sizeof_hyp_page. lia. Qed.

Lemma memset_pages_spec : ∀ n i,
  {{ [∗ list] j ∈ seqZ i (Z.of_nat n), page_uninit (page j) }} memset_pages n (page i)
  {{ _, [∗ list] j ∈ seqZ i (Z.of_nat n), refcount (page j) ↦ 0 ∗ order (page j) ↦ 0 ∗
          page_pool (page j) ↦? ∗ node (node_of (page j)) }}.
Proof.
  induction n as [|n IH]; intros i; triple_start.
  - iIntros "_". simpl. by wp_rets.
  - rewrite seqZ_cons; [|lia]. rewrite !big_sepL_cons.
    iIntros "[([% H1] & [% H2] & [% H3] & [[% H4] [% H5]]) Hr]".
    replace (Z.pred (Z.of_nat (S n))) with (Z.of_nat n) by lia. cbn [memset_pages].
    wp_steps. rewrite page_succ -Z.add_1_r. wp_call (IH (i + 1)) with "Hr". iIntros (_) "$".
    iFrame.
Qed.

Lemma init_pages_spec pool : ∀ n i,
  {{ [∗ list] j ∈ seqZ i (Z.of_nat n), refcount (page j) ↦ 0 ∗ order (page j) ↦ 0 ∗
       page_pool (page j) ↦? ∗ node (node_of (page j)) }} init_pages n pool (page i)
  {{ _, [∗ list] j ∈ seqZ i (Z.of_nat n), page_at pool j (Pg 0 0 false) }}.
Proof.
  induction n as [|n IH]; intros i; triple_start.
  - iIntros "_". simpl. by wp_rets.
  - rewrite seqZ_cons; [|lia]. rewrite !big_sepL_cons. iIntros "[(H1 & H2 & [% H3] & H4) Hr]".
    replace (Z.pred (Z.of_nat (S n))) with (Z.of_nat n) by lia. cbn [init_pages].
    wp_store. wp_call (INIT_LIST_HEAD_spec (node_of (page i))) with "H4". iIntros (_) "H4".
    rewrite page_succ -Z.add_1_r. wp_call (IH (i + 1)) with "Hr". iIntros (_) "$". iFrame.
Qed.

Lemma unused_nothing_in_use pgs j : in_use pgs = ∅ → unused pgs j.
Proof.
  intros Hu k g Hk Hr _. assert (in_use pgs !! k = Some (ord g, rc g)) as E.
  { unfold in_use. rewrite lookup_omap Hk /=. by rewrite (proj2 (Z.eqb_neq _ 0)). }
  by rewrite Hu lookup_empty in E.
Qed.

Lemma attach_pages_spec pool s e : ∀ n i pgs fl,
  pool_wf s e pgs fl → in_use pgs = ∅ → s ≤ i → i + Z.of_nat n = e →
  (∀ j, i ≤ j < e → pgs !! j = Some (Pg 0 0 false) ∧ j ∉ pages_of fl) →
  {{ pool_at pool s e pgs fl }} attach_pages n pool (page i)
  {{ _, ∃ pgs' fl', pool_at pool s e pgs' fl' ∗ ⌜pool_wf s e pgs' fl' ∧ in_use pgs' = ∅ ∧
        pages_of fl' ≡ₚ pages_of fl ++ seqZ i (Z.of_nat n)⌝ }}.
Proof.
  induction n as [|n IH]; intros i pgs fl Hwf Hu Hs He Hrest; triple_start; iIntros "H".
  { simpl. wp_rets. iExists pgs, fl. iFrame. by rewrite app_nil_r. }
  cbn [attach_pages]. destruct (Hrest i ltac:(lia)) as [Hi Hni].
  assert (block 0 i = [i]) as Hb by (unfold block; simpl; by rewrite seqZ_cons; [|lia]).
  assert (NoDup (block 0 i ++ pages_of fl)) as Hnd.
  { rewrite Hb. apply NoDup_cons. split; [done|]. by eapply fl_disjoint, wf_fl. }
  assert (∀ j, j ∈ block 0 i → s ≤ j < e ∧ unused pgs j) as Hblk.
  { intros j Hj. rewrite Hb in Hj. apply list_elem_of_singleton in Hj as ->. split; [lia|].
    by apply unused_nothing_in_use. }
  wp_call (__hyp_attach_page_spec pool s e pgs fl i 0 Hwf (ltac:(lia)) Hi (Z.divide_1_l _) Hnd Hblk)
    with "H".
  iIntros (_) "(%pgs' & %fl' & H & %Hwf' & %Hpg' & %Hu' & %Hoth)". rewrite page_succ.
  assert (∀ j, i + 1 ≤ j < e → pgs' !! j = Some (Pg 0 0 false) ∧ j ∉ pages_of fl') as Hrest'.
  { intros j Hj. destruct (Hrest j ltac:(lia)) as [Hj1 Hj2]. rewrite Hpg' Hb.
    assert (j ∉ [i] ++ pages_of fl) as Hn by (rewrite elem_of_app list_elem_of_singleton; naive_solver lia).
    split; [|done]. by rewrite Hoth // Hb. }
  wp_call (IH (i + 1) pgs' fl' Hwf' (ltac:(congruence)) (ltac:(lia)) (ltac:(lia)) Hrest') with "H".
  iIntros (_) "(%pgs2 & %fl2 & H & %Hwf2 & %Hu2 & %Hpg2)". iExists pgs2, fl2. iFrame. iPureIntro.
  split_and!; [done|done|]. rewrite Hpg2 Hpg' Hb (seqZ_cons i); [|lia].
  replace (Z.pred (Z.of_nat (S n))) with (Z.of_nat n) by lia. rewrite -Z.add_1_r.
  rewrite -(Permutation_app_comm (pages_of fl)) -assoc. done.
Qed.

(** Every page of the range is known, off the lists and not in use. *)
Definition initial_pages (s n : Z) : gmap Z pg :=
  list_to_map ((λ i, (i, Pg 0 0 false)) <$> seqZ s n).

Lemma initial_pages_lookup s n i g :
  initial_pages s n !! i = Some g ↔ s ≤ i < s + n ∧ g = Pg 0 0 false.
Proof.
  unfold initial_pages. rewrite -elem_of_list_to_map; last first.
  { rewrite -list_fmap_compose. rewrite (list_fmap_ext _ id); [|done].
    rewrite list_fmap_id. apply NoDup_seqZ. }
  rewrite list_elem_of_fmap. split.
  - intros (j & [= -> ->] & Hj%elem_of_seqZ). done.
  - intros [Hi ->]. exists i. by rewrite elem_of_seqZ.
Qed.

Lemma initial_pages_at pool s n :
  ([∗ list] j ∈ seqZ s n, page_at pool j (Pg 0 0 false)) ⊣⊢
  ([∗ map] i ↦ g ∈ initial_pages s n, page_at pool i g).
Proof.
  unfold initial_pages. rewrite big_sepM_list_to_map; last first.
  { rewrite -list_fmap_compose. rewrite (list_fmap_ext _ id); [|done].
    rewrite list_fmap_id. apply NoDup_seqZ. }
  by rewrite big_sepL_fmap.
Qed.

Definition no_free : list (list Z) := replicate (S max_order) [].

Lemma initial_wf s e n :
  0 ≤ s → PAGE_SIZE * e < 2 ^ 64 → e = s + n →
  pool_wf s e (initial_pages s n) no_free ∧ in_use (initial_pages s n) = ∅ ∧ pages_of no_free = [].
Proof.
  intros Hs He ->. assert (∀ o l i, no_free !! o = Some l → i ∉ l) as Hno.
  { intros o l i [-> _]%lookup_replicate. apply not_elem_of_nil. }
  split_and!; [|apply map_eq; intros i; unfold in_use; rewrite lookup_omap lookup_empty|done].
  - split; try done.
    + split; [done| |constructor|].
      * intros o l i Hl Hi. by destruct (Hno o l i).
      * intros o l i _ Hl Hi. by destruct (Hno o l i).
    + intros i. split; [intros [g Hg%initial_pages_lookup]; lia|].
      intros Hi. exists (Pg 0 0 false). by apply initial_pages_lookup.
    + intros o l i Hl Hi. by destruct (Hno o l i).
    + by intros i g [_ ->]%initial_pages_lookup.
    + intros j Hj. by apply elem_of_nil in Hj.
    + by intros i g [_ ->]%initial_pages_lookup.
    + by intros i g j [_ ->]%initial_pages_lookup.
    + by intros i1 g1 i2 g2 j [_ ->]%initial_pages_lookup.
  - destruct (initial_pages s n !! i) as [g|] eqn:E; [|done]. simpl.
    by apply initial_pages_lookup in E as [_ ->].
Qed.

Lemma hyp_pool_init_spec pool s nr used :
  0 ≤ s → 0 ≤ used ≤ nr → nr < 2 ^ 20 → PAGE_SIZE * (s + nr) < 2 ^ 64 →
  {{ pool_uninit pool ∗ ([∗ list] j ∈ seqZ s nr, page_uninit (page j)) ∗
     pages_mem (seqZ (s + used) (nr - used)) }}
    hyp_pool_init pool (PAGE_SIZE * s) nr used
  {{ r, ⌜r = 0⌝ ∗ hyp_pool pool s (s + nr) ∅ (seqZ (s + used) (nr - used)) }}.
Proof.
  intros Hs Hu Hnr He. triple_start.
  iIntros "(([% Hlk] & Hfa & [% Hrs] & [% Hre]) & Hpg & Hm)". unfold hyp_pool_init.
  assert (Z.rem (PAGE_SIZE * s) PAGE_SIZE = 0) as ->.
  { rewrite Z.mul_comm. by apply Z.rem_mul. }
  simpl negb. cbv iota. unfold sl_init. wp_focus. iApply (wp_store with "Hlk"). iIntros "Hlk".
  wp_call (init_free_area_spec pool (Z.to_nat (HYP_MAX_ORDER + 1)) 0) with "[Hfa]"; [done|].
  iIntros (_) "Hfa". wp_focus. iApply (wp_store with "Hrs"). iIntros "Hrs".
  wp_focus. iApply (wp_store with "Hre"). iIntros "Hre".
  rewrite phys_to_page -{1}(Z2Nat.id nr); [|lia].
  wp_call (memset_pages_spec (Z.to_nat nr) s) with "Hpg". iIntros (_) "Hpg".
  wp_call (init_pages_spec pool (Z.to_nat nr) s) with "Hpg". iIntros (_) "Hpg".
  unfold PAGE_SIZE, PAGE_SHIFT in *. rewrite !Z.shiftl_mul_pow2; [|lia..].
  rewrite !(wrap_small 32); [|unfold in_unsigned; lia..].
  rewrite !(wrap_small 64); [|unfold in_unsigned; lia..].
  replace (4096 * s + used * 2 ^ 12) with (PAGE_SIZE * (s + used)) by (unfold PAGE_SIZE; lia).
  rewrite phys_to_page Z2Nat.id; [|lia]. rewrite initial_pages_at.
  destruct (initial_wf s (s + nr) nr Hs He eq_refl) as (Hwf & Huse & Hpages).
  assert (∀ j, s + used ≤ j < s + nr →
    initial_pages s nr !! j = Some (Pg 0 0 false) ∧ j ∉ pages_of no_free) as Hrest.
  { intros j Hj. split; [apply initial_pages_lookup; split; [lia|done]|]. rewrite Hpages. apply not_elem_of_nil. }
  wp_call (attach_pages_spec pool s (s + nr) (Z.to_nat (nr - used)) (s + used) _ no_free Hwf Huse
    (ltac:(lia)) (ltac:(lia)) Hrest) with "[Hrs Hre Hfa Hpg]".
  { iFrame "Hpg Hfa". unfold PAGE_SIZE. iFrame "Hrs".
    by replace (4096 * (s + nr)) with (4096 * s + nr * 2 ^ 12) by lia. }
  iIntros (_) "(%pgs & %fl & H & %Hwf' & %Huse' & %Hpages')". wp_ret. iSplit; [done|].
  iExists pgs, fl. iFrame. iPureIntro. split_and!; [done| |done].
  rewrite Hpages' Hpages Z2Nat.id //. lia.
Qed.

Lemma hyp_pool_init_misaligned pool phys nr used h :
  Z.rem phys PAGE_SIZE ≠ 0 → hyp_pool_init pool phys nr used h = Ok (- EINVAL) h.
Proof. intros Hr. unfold hyp_pool_init. by rewrite (proj2 (Z.eqb_neq _ 0)). Qed.

(** ** The contract *)

(** C2. [hyp_alloc_pages] hands out a block of exactly [2 ^ order] free pages,
    aligned to its size, zeroed if asked for, and in use with one reference
    afterwards; all other blocks and free pages are untouched.  It fails only
    when the order is beyond [HYP_MAX_ORDER] or no aligned run of that many
    free pages exists, because buddies are always coalesced. *)
Theorem hyp_alloc_pages_correct pool s e used free mask (o : nat) :
  Z.of_nat o < 2 ^ 32 →
  {{ hyp_pool pool s e used free }} hyp_alloc_pages pool mask (Z.of_nat o)
  {{ r, (⌜r = NULL ∧ exhausted o free⌝ ∗ hyp_pool pool s e used free) ∨
        (∃ i free', ⌜r = virt i ∧ used !! i = None ∧ (2 ^ Z.of_nat o | i) ∧
                     free ≡ₚ block o i ++ free'⌝ ∗
           hyp_pool pool s e (<[i := (Z.of_nat o, 1)]> used) free' ∗
           fresh_pages mask (block o i)) }}.
Proof. apply hyp_alloc_pages_spec. Qed.

(** C9. References are counted: [hyp_get_page] adds one to a block in use, as
    long as the count stays below [2 ^ 32], [hyp_put_page] removes one, and with the last reference the block's memory
    returns to the free pages (coalesced with its buddies). *)
Theorem hyp_get_put_page_count_references pool s e used free i (o : nat) r :
  used !! i = Some (Z.of_nat o, r) → r + 1 < 2 ^ 32 →
  ({{ hyp_pool pool s e used free }} hyp_get_page (virt i)
   {{ _, hyp_pool pool s e (<[i := (Z.of_nat o, r + 1)]> used) free }}) ∧
  ({{ hyp_pool pool s e used free ∗ surrendered r (block o i) }} hyp_put_page (virt i)
   {{ _, if r =? 1 then hyp_pool pool s e (delete i used) (block o i ++ free)
         else hyp_pool pool s e (<[i := (Z.of_nat o, r - 1)]> used) free }}).
Proof. intros Hi Hr. split; [by apply hyp_get_page_spec|by apply hyp_put_page_spec]. Qed.

(** [hyp_put_page] on a page of the pool that is not in use, such as a
    second release of a freed block, panics before it changes anything. *)
Theorem hyp_put_page_unused_panics pool s e used free i :
  used !! i = None → s ≤ i < e →
  stops (hyp_pool pool s e used free) (hyp_put_page (virt i)) AssertionFailure.
Proof. apply hyp_put_page_panics. Qed.

(** C30. For [used_pages ≤ nr_pages < 2^20] pages whose addresses are below
    [2^64], [hyp_pool_init] turns uninitialised memory into a pool in which the
    pages after the first [used_pages] are free and nothing is in use.  (Its
    size is computed in 32 bits, so that a pool of [2^20] pages or more would
    get a wrong end.)  For any number of pages, a physical address that is not
    page aligned is refused with [-EINVAL] and nothing is written. *)
Theorem hyp_pool_init_correct pool s nr used_pages :
  0 ≤ s → 0 ≤ used_pages ≤ nr → nr < 2 ^ 20 → PAGE_SIZE * (s + nr) < 2 ^ 64 →
  ({{ pool_uninit pool ∗ ([∗ list] j ∈ seqZ s nr, page_uninit (page j)) ∗
      pages_mem (seqZ (s + used_pages) (nr - used_pages)) }}
     hyp_pool_init pool (PAGE_SIZE * s) nr used_pages
   {{ r, ⌜r = 0⌝ ∗ hyp_pool pool s (s + nr) ∅ (seqZ (s + used_pages) (nr - used_pages)) }}) ∧
  (∀ phys nr used_pages h, Z.rem phys PAGE_SIZE ≠ 0 →
     hyp_pool_init pool phys nr used_pages h = Ok (- EINVAL) h).
Proof.
  intros. split; [by apply hyp_pool_init_spec|]. intros. by apply hyp_pool_init_misaligned.
Qed.
End specs.

(** ** A concrete memory *)

Fixpoint clear_words (n : nat) (a : Z) : M heap unit :=
  match n with
  | O => mret tt
  | S n => store a 0 ;; clear_words n (a + 8)
  end.

Lemma clear_words_spec a : ∀ n k,
  {{ [∗ list] k ∈ seqZ k (Z.of_nat n), (a + 8 * k) ↦? }} clear_words n (a + 8 * k)
  {{ _, [∗ list] k ∈ seqZ k (Z.of_nat n), (a + 8 * k) ↦ 0 }}.
Proof.
  induction n as [|n IH]; intros k; triple_start.
  - iIntros "_". simpl. by wp_rets.
  - rewrite seqZ_cons; [|lia]. rewrite !big_sepL_cons. iIntros "[[% H] Hr]".
    replace (Z.pred (Z.of_nat (S n))) with (Z.of_nat n) by lia. cbn [clear_words]. wp_store.
    replace (a + 8 * k + 8) with (a + 8 * Z.succ k) by lia.
    wp_call (IH (Z.succ k)) with "Hr". iIntros (_) "$". iFrame.
Qed.

#[program] Definition flat_memory : HypMemory := {|
  hyp_vmemmap := 65536;
  hyp_physvirt_offset := 0;
  clear_page := clear_words 512;
|}.
Next Obligation.
  intros a. rewrite page_words_unseal zero_words_unseal. pose proof (clear_words_spec a 512 0) as H.
  by rewrite Z.mul_0_r Z.add_0_r in H.
Qed.

#[local] Existing Instance flat_memory.

Lemma hyp_alloc_pages_correct_witness :
  {{ hyp_pool 4096 4 8 ∅ (seqZ 4 4) }} hyp_alloc_pages 4096 1 (Z.of_nat 2)
  {{ r, (⌜r = NULL ∧ exhausted 2 (seqZ 4 4)⌝ ∗ hyp_pool 4096 4 8 ∅ (seqZ 4 4)) ∨
        (∃ i free', ⌜r = virt i ∧ (∅ : gmap Z (Z * Z)) !! i = None ∧ (2 ^ Z.of_nat 2 | i) ∧
                     seqZ 4 4 ≡ₚ block 2 i ++ free'⌝ ∗
           hyp_pool 4096 4 8 (<[i := (Z.of_nat 2, 1)]> ∅) free' ∗ fresh_pages 1 (block 2 i)) }}.
Proof. apply (hyp_alloc_pages_correct 4096 4 8 ∅ (seqZ 4 4) 1 2). lia. Defined.

Lemma hyp_get_put_page_count_references_witness :
  {{ hyp_pool 4096 4 8 {[4 := (1, 2)]} [6; 7] }} hyp_get_page (virt 4)
  {{ _, hyp_pool 4096 4 8 (<[4 := (1, 2 + 1)]> {[4 := (1, 2)]}) [6; 7] }}.
Proof.
  refine (proj1 (hyp_get_put_page_count_references 4096 4 8 {[4 := (1, 2)]} [6; 7] 4 1 2 _ _)).
  - by vm_compute.
  - lia.
Defined.

Lemma hyp_put_page_unused_panics_witness :
  stops (hyp_pool 4096 4 8 {[4 := (1, 2)]} [6; 7]) (hyp_put_page (virt 6)) AssertionFailure.
Proof.
  apply (hyp_put_page_unused_panics 4096 4 8 {[4 := (1, 2)]} [6; 7] 6); [by vm_compute|lia].
Defined.

Lemma hyp_pool_init_correct_witness :
  ({{ pool_uninit 4096 ∗ ([∗ list] j ∈ seqZ 4 4, page_uninit (page j)) ∗
      pages_mem (seqZ (4 + 1) (4 - 1)) }}
     hyp_pool_init 4096 (PAGE_SIZE * 4) 4 1
   {{ r, ⌜r = 0⌝ ∗ hyp_pool 4096 4 (4 + 4) ∅ (seqZ (4 + 1) (4 - 1)) }}) ∧
  (∀ phys nr used_pages h, Z.rem phys PAGE_SIZE ≠ 0 →
     hyp_pool_init 4096 phys nr used_pages h = Ok (- EINVAL) h).
Proof. apply (hyp_pool_init_correct 4096 4 4 1); unfold PAGE_SIZE; lia. Defined.

End PageAlloc.
