(* ===== verification/EarlyAlloc.v ===== *)
(** * The early allocators (src/linux/casestudies/early_alloc.c)

    Before the buddy allocator is up, pages are handed out from one region by
    advancing a pointer.  The repository has three implementations: one that
    compares the pointer with the end of the region ([EarlyAlloc]), one that
    counts the bytes that are left ([EarlyAllocSize]) and the one of pKVM
    proper (file [PkvmEarlyAlloc]), which also hands out contiguous pages.  Each of
    them implements the interface [EarlyAllocator], against which the client
    that allocates page after page is verified once. *)
From S2P Require Import Prelude HeapLogic LinuxList PageAlloc.
From stdpp Require Import gmap list.
From iris.proofmode Require Import proofmode.
Import PageAlloc.
#[local] Open Scope Z_scope.

(** ** Runs of pages *)

Fixpoint pages (a : Z) (n : nat) : hPropI :=
  match n with
  | O => emp
  | S n => page_words a ∗ pages (a + PAGE_SIZE) n
  end%I.

Fixpoint zero_pages (a : Z) (n : nat) : hPropI :=
  match n with
  | O => emp
  | S n => zero_words a ∗ zero_pages (a + PAGE_SIZE) n
  end%I.

Lemma pages_app a n m : pages a (n + m) ⊣⊢ pages a n ∗ pages (a + PAGE_SIZE * Z.of_nat n) m.
Proof.
  revert a. induction n as [|n IH]; intros a; simpl.
  - rewrite left_id. by rewrite Z.mul_0_r Z.add_0_r.
  - rewrite IH assoc.
    by replace (a + PAGE_SIZE + PAGE_SIZE * Z.of_nat n)
      with (a + PAGE_SIZE * Z.of_nat (S n)) by lia.
Qed.

Lemma zero_pages_app a n m :
  zero_pages a (n + m) ⊣⊢ zero_pages a n ∗ zero_pages (a + PAGE_SIZE * Z.of_nat n) m.
Proof.
  revert a. induction n as [|n IH]; intros a; simpl.
  - rewrite left_id. by rewrite Z.mul_0_r Z.add_0_r.
  - rewrite IH assoc.
    by replace (a + PAGE_SIZE + PAGE_SIZE * Z.of_nat n)
      with (a + PAGE_SIZE * Z.of_nat (S n)) by lia.
Qed.

(** The same memory as single words. *)
Definition words (a : Z) (n : nat) : hPropI := ([∗ list] k ∈ seqZ 0 (Z.of_nat n), (a + 8 * k) ↦?)%I.
Definition words_are (w a : Z) (n : nat) : hPropI :=
  ([∗ list] k ∈ seqZ 0 (Z.of_nat n), (a + 8 * k) ↦ w)%I.

Lemma seqZ_words (Φ : Z → hPropI) a n m :
  ([∗ list] k ∈ seqZ 0 (Z.of_nat (n + m)), Φ (a + 8 * k)) ⊣⊢
  ([∗ list] k ∈ seqZ 0 (Z.of_nat n), Φ (a + 8 * k)) ∗
  ([∗ list] k ∈ seqZ 0 (Z.of_nat m), Φ (a + 8 * Z.of_nat n + 8 * k)).
Proof.
  rewrite Nat2Z.inj_add seqZ_app; [|lia..]. rewrite big_sepL_app. f_equiv.
  rewrite (_ : seqZ (0 + Z.of_nat n) (Z.of_nat m) = Z.add (Z.of_nat n) <$> seqZ 0 (Z.of_nat m));
    [|rewrite fmap_add_seqZ; f_equal; lia]. rewrite big_sepL_fmap.
  apply big_sepL_proper. intros k x _.
  by replace (a + 8 * (Z.of_nat n + x)) with (a + 8 * Z.of_nat n + 8 * x) by lia.
Qed.

Lemma pages_words a n : pages a n ⊣⊢ words a (512 * n).
Proof.
  revert a. induction n as [|n IH]; intros a.
  - by rewrite Nat.mul_0_r.
  - rewrite Nat.mul_succ_r Nat.add_comm /words (seqZ_words (λ x, x ↦?)%I). cbn [pages].
    rewrite IH page_words_unseal. done.
Qed.

Lemma zero_pages_words a n : zero_pages a n ⊣⊢ words_are 0 a (512 * n).
Proof.
  revert a. induction n as [|n IH]; intros a.
  - by rewrite Nat.mul_0_r.
  - rewrite Nat.mul_succ_r Nat.add_comm /words_are (seqZ_words (λ x, x ↦ 0)%I). cbn [zero_pages].
    rewrite IH zero_words_unseal. done.
Qed.

(** ** The interface *)

(** [ea_region b g r]: the region starts at [b], its first [g] pages are given
    away and [r] pages are left. *)
Class EarlyAllocator := {
  ea_region : Z → nat → nat → hPropI;
  ea_alloc_page : M heap Z;
  ea_alloc_spec b g r :
    {{ ea_region b g (S r) }} ea_alloc_page
    {{ p, ⌜p = (b + PAGE_SIZE * Z.of_nat g)%Z⌝ ∗ zero_words p ∗ ea_region b (S g) r }};
  ea_alloc_full b g :
    {{ ea_region b g 0 }} ea_alloc_page {{ p, ⌜p = NULL⌝ ∗ ea_region b g 0 }};
}.

(** A client: allocate [n] times. *)
Fixpoint alloc_times (alloc : M heap Z) (n : nat) : M heap (list Z) :=
  match n with
  | O => mret []
  | S n => p ← alloc; ps ← alloc_times alloc n; mret (p :: ps)
  end.

(** The answers the interface promises: the next pages, then null pointers. *)
Fixpoint answers (a : Z) (n r : nat) : list Z :=
  match n, r with
  | O, _ => []
  | S n, O => NULL :: answers a n O
  | S n, S r => a :: answers (a + PAGE_SIZE) n r
  end.

Lemma alloc_times_full `{!EarlyAllocator} b g n :
  {{ ea_region b g 0 }} alloc_times ea_alloc_page n
  {{ ps, ⌜ps = replicate n NULL⌝ ∗ ea_region b g 0 }}.
Proof.
  induction n as [|n IH]; triple_start; iIntros "Hr"; cbn [alloc_times].
  - wp_rets. by iFrame.
  - wp_call (ea_alloc_full b g) with "Hr". iIntros (p) "[-> Hr]".
    wp_call IH with "Hr". iIntros (ps) "[-> Hr]". wp_rets. by iFrame.
Qed.

Lemma alloc_times_spec `{!EarlyAllocator} b g r n :
  {{ ea_region b g r }} alloc_times ea_alloc_page n
  {{ ps, ⌜ps = answers (b + PAGE_SIZE * Z.of_nat g) n r⌝ ∗
     zero_pages (b + PAGE_SIZE * Z.of_nat g) (n `min` r) ∗
     ea_region b (g + n `min` r) (r - n) }}.
Proof.
  revert g r. induction n as [|n IH]; intros g r; triple_start; iIntros "Hr"; cbn [alloc_times].
  - wp_rets. rewrite Nat.add_0_r Nat.sub_0_r. by iFrame.
  - destruct r as [|r].
    + wp_call (ea_alloc_full b g) with "Hr". iIntros (p) "[-> Hr]".
      wp_call (IH g 0%nat) with "Hr". iIntros (ps) "(-> & _ & Hr)". wp_rets.
      rewrite Nat.min_0_r. by iFrame.
    + wp_call (ea_alloc_spec b g r) with "Hr". iIntros (p) "(-> & Hp & Hr)".
      wp_call (IH (S g) r) with "Hr". iIntros (ps) "(-> & Hps & Hr)". wp_rets.
      replace (b + PAGE_SIZE * Z.of_nat g + PAGE_SIZE)
        with (b + PAGE_SIZE * Z.of_nat (S g)) by lia.
      rewrite -Nat.add_succ_comm. by iFrame.
Qed.

(** The assembly routine that zeroes a page. *)
Class PageClearing := {
  clear_page : Z → M heap unit;
  clear_page_zeroes a : {{ page_words a }} clear_page a {{ _, zero_words a }};
}.

(** ** The allocator with an end pointer *)

Module EarlyAlloc.

(** The addresses of the static variables [base], [end] and [cur]. *)
Class Globals := { base : Z; end_ : Z; cur : Z }.

Section code.
Context `{!PageClearing, !Globals}.

Definition hyp_early_alloc_nr_pages : M heap Z :=
  c ← load cur;
  b ← load base;
  mret (Z.shiftr (u64 (c - b)) PAGE_SHIFT).

Definition hyp_early_alloc_page : M heap Z :=
  ret ← load cur;
  c ← load cur;
  store cur (u64 (c + PAGE_SIZE)) ;;
  c ← load cur;
  e ← load end_;
  if e <? c then
    store cur ret ;;
    mret NULL
  else
    clear_page ret ;;
    mret ret.

Definition hyp_early_alloc_init (virt size : Z) : M heap unit :=
  store base virt ;;
  store end_ (u64 (virt + size)) ;;
  store cur virt.

(** Bytes after the last whole page stay unused; the region must leave room
    for one more page below the end of the address space. *)
Definition region (b : Z) (g r : nat) : hPropI :=
  (∃ t, ⌜0 ≤ b ∧ 0 ≤ t < PAGE_SIZE ∧
         b + PAGE_SIZE * (Z.of_nat g + Z.of_nat r) + PAGE_SIZE < 2 ^ 64⌝ ∗
   base ↦ b ∗ cur ↦ (b + PAGE_SIZE * Z.of_nat g)%Z ∗
   end_ ↦ (b + PAGE_SIZE * (Z.of_nat g + Z.of_nat r) + t)%Z ∗
   pages (b + PAGE_SIZE * Z.of_nat g) r)%I.

Lemma early_nr_pages_spec b g r :
  {{ region b g r }} hyp_early_alloc_nr_pages {{ n, ⌜n = Z.of_nat g⌝ ∗ region b g r }}.
Proof.
  triple_start. iIntros "(%t & % & Hb & Hc & He & Hp)". unfold hyp_early_alloc_nr_pages.
  wp_steps. iSplit; [iPureIntro|iExists t; by iFrame].
  rewrite wrap_small; [|unfold in_unsigned, PAGE_SIZE in *; lia].
  rewrite Z.shiftr_div_pow2 // /PAGE_SHIFT /PAGE_SIZE.
  rewrite Z.add_simpl_l Z.mul_comm. by apply Z.div_mul.
Qed.

Lemma early_page_spec b g r :
  {{ region b g (S r) }} hyp_early_alloc_page
  {{ p, ⌜p = (b + PAGE_SIZE * Z.of_nat g)%Z⌝ ∗ zero_words p ∗ region b (S g) r }}.
Proof.
  triple_start. iIntros "(%t & % & Hb & Hc & He & [Hp Hps])". unfold hyp_early_alloc_page.
  wp_steps. rewrite wrap_small; [|unfold in_unsigned, PAGE_SIZE in *; lia].
  rewrite (proj2 (Z.ltb_ge _ _)); [|unfold PAGE_SIZE in *; lia].
  wp_call (clear_page_zeroes _) with "Hp". iIntros (_) "Hz". wp_rets. iSplit; [done|]. iFrame "Hz".
  iExists t. replace (b + PAGE_SIZE * Z.of_nat g + PAGE_SIZE)
    with (b + PAGE_SIZE * Z.of_nat (S g)) by lia.
  replace (Z.of_nat g + Z.of_nat (S r)) with (Z.of_nat (S g) + Z.of_nat r) by lia.
  iFrame. iPureIntro. lia.
Qed.

Lemma early_page_full b g :
  {{ region b g 0 }} hyp_early_alloc_page {{ p, ⌜p = NULL⌝ ∗ region b g 0 }}.
Proof.
  triple_start. iIntros "(%t & % & Hb & Hc & He & Hp)". unfold hyp_early_alloc_page.
  wp_steps. rewrite wrap_small; [|unfold in_unsigned, PAGE_SIZE in *; lia].
  rewrite (proj2 (Z.ltb_lt _ _)); [|unfold PAGE_SIZE in *; lia].
  wp_steps. iSplit; [done|]. iExists t. by iFrame.
Qed.

#[export] Instance early_allocator : EarlyAllocator := {|
  ea_alloc_spec := early_page_spec; ea_alloc_full := early_page_full |}.

Lemma early_init_spec b n size :
  0 ≤ b → 0 ≤ size → b + size + PAGE_SIZE < 2 ^ 64 → Z.of_nat n = size / PAGE_SIZE →
  {{ base ↦? ∗ end_ ↦? ∗ cur ↦? ∗ pages b n }} hyp_early_alloc_init b size
  {{ _, region b 0 n }}.
Proof.
  intros Hb Hs Hbd Hn. triple_start. iIntros "([% Hb] & [% He] & [% Hc] & Hp)".
  unfold hyp_early_alloc_init. wp_steps. iExists (size mod PAGE_SIZE).
  pose proof (Z.div_mod size PAGE_SIZE ltac:(done)) as E. rewrite -Hn in E.
  pose proof (Z.mod_pos_bound size PAGE_SIZE ltac:(done)).
  rewrite wrap_small; [|unfold in_unsigned, PAGE_SIZE in *; lia].
  replace (b + PAGE_SIZE * Z.of_nat 0) with b by lia.
  replace (b + size) with (b + PAGE_SIZE * (Z.of_nat 0 + Z.of_nat n) + size mod PAGE_SIZE) by lia.
  iFrame. iPureIntro. lia.
Qed.

(** From [hyp_early_alloc_init] on, over a region of [n] whole pages, [k]
    calls of [hyp_early_alloc_page] return the pages of the region in address
    order, each of them zeroed and none twice, and the null pointer once the
    region is used up; [hyp_early_alloc_nr_pages] then returns how many pages
    are in use.  (The region must not reach into the last page of the address
    space.) *)
Theorem early_alloc_hands_out_region b size n k :
  0 ≤ b → 0 ≤ size → b + size + PAGE_SIZE < 2 ^ 64 → Z.of_nat n = size / PAGE_SIZE →
  {{ base ↦? ∗ end_ ↦? ∗ cur ↦? ∗ pages b n }}
    hyp_early_alloc_init b size ;;
    ps ← alloc_times hyp_early_alloc_page k;
    used ← hyp_early_alloc_nr_pages;
    mret (ps, used)
  {{ r, ⌜r = (answers b k n, Z.of_nat (k `min` n))⌝ ∗ zero_pages b (k `min` n) ∗
     region b (k `min` n) (n - k) }}.
Proof.
  intros Hb Hs Hbd Hn. triple_start. iIntros "H".
  wp_call (early_init_spec b n size Hb Hs Hbd Hn) with "H". iIntros (_) "Hr".
  wp_call (alloc_times_spec b 0 n k) with "Hr". iIntros (ps) "(-> & Hz & Hr)".
  wp_call (early_nr_pages_spec b _ _) with "Hr". iIntros (u) "(-> & Hr)". wp_rets.
  rewrite Z.add_0_r. by iFrame.
Qed.

(** At the top of the address space the comparison of [cur] with [end]
    wraps around: a region whose end is the start of the last page and that is
    used up hands that page out, although it is not part of the region. *)
Theorem early_alloc_page_wraps_at_top b :
  {{ base ↦ b ∗ cur ↦ (2 ^ 64 - PAGE_SIZE) ∗ end_ ↦ (2 ^ 64 - PAGE_SIZE) ∗
     page_words (2 ^ 64 - PAGE_SIZE) }}
    hyp_early_alloc_page
  {{ p, ⌜p = 2 ^ 64 - PAGE_SIZE⌝ ∗ zero_words p ∗ base ↦ b ∗ cur ↦ 0 ∗
     end_ ↦ (2 ^ 64 - PAGE_SIZE) }}.
Proof.
  triple_start. iIntros "(Hb & Hc & He & Hp)". unfold hyp_early_alloc_page.
  wp_load. wp_load. wp_store. wp_load. wp_load.
  wp_call (clear_page_zeroes _) with "Hp". iIntros (_) "Hz". wp_rets. by iFrame.
Qed.
End code.
End EarlyAlloc.

(** ** The allocator that counts the bytes left *)

Module EarlyAllocSize.

(** The addresses of the static variables [base1], [size1] and [cur1]. *)
Class Globals1 := { base1 : Z; size1 : Z; cur1 : Z }.

Section code.
Context `{!PageClearing, !Globals1}.

Definition hyp_early_alloc_page1 : M heap Z :=
  s ← load size1;
  if s <=? PAGE_SIZE then mret NULL else
  ret ← load cur1;
  c ← load cur1;
  store cur1 (c + PAGE_SIZE) ;;
  s ← load size1;
  store size1 (u64 (s - PAGE_SIZE)) ;;
  clear_page ret ;;
  mret ret.

Definition hyp_early_alloc_init1 (virt size : Z) : M heap unit :=
  store base1 virt ;;
  store size1 size ;;
  store cur1 virt.

(** The last page is never given away, even when it is whole: [r] pages are
    left when more than [r] and at most [r + 1] pages' bytes are. *)
Definition region1 (b : Z) (g r : nat) : hPropI :=
  (∃ s, ⌜0 ≤ s < 2 ^ 64 ∧ s ≤ PAGE_SIZE * (Z.of_nat r + 1) ∧
         (r = 0%nat ∨ PAGE_SIZE * Z.of_nat r < s)⌝ ∗
   base1 ↦ b ∗ cur1 ↦ (b + PAGE_SIZE * Z.of_nat g)%Z ∗ size1 ↦ s ∗
   pages (b + PAGE_SIZE * Z.of_nat g) r)%I.

Lemma alloc_page1_spec b g r :
  {{ region1 b g (S r) }} hyp_early_alloc_page1
  {{ p, ⌜p = (b + PAGE_SIZE * Z.of_nat g)%Z⌝ ∗ zero_words p ∗ region1 b (S g) r }}.
Proof.
  triple_start. iIntros "(%s & % & Hb & Hc & Hs & [Hp Hps])". unfold hyp_early_alloc_page1.
  wp_load. rewrite (proj2 (Z.leb_gt _ _)); [|unfold PAGE_SIZE in *; lia]. wp_steps.
  wp_call (clear_page_zeroes _) with "Hp". iIntros (_) "Hz". wp_rets. iSplit; [done|]. iFrame "Hz".
  rewrite wrap_small; [|unfold in_unsigned, PAGE_SIZE in *; lia].
  iExists (s - PAGE_SIZE). replace (b + PAGE_SIZE * Z.of_nat g + PAGE_SIZE)
    with (b + PAGE_SIZE * Z.of_nat (S g)) by lia.
  iFrame. iPureIntro. unfold PAGE_SIZE in *. lia.
Qed.

Lemma alloc_page1_full b g :
  {{ region1 b g 0 }} hyp_early_alloc_page1 {{ p, ⌜p = NULL⌝ ∗ region1 b g 0 }}.
Proof.
  triple_start. iIntros "(%s & % & Hb & Hc & Hs & Hp)". unfold hyp_early_alloc_page1.
  wp_load. rewrite (proj2 (Z.leb_le _ _)); [|unfold PAGE_SIZE in *; lia].
  wp_rets. iSplit; [done|]. iExists s. by iFrame.
Qed.

#[export] Instance early_allocator1 : EarlyAllocator := {|
  ea_alloc_spec := alloc_page1_spec; ea_alloc_full := alloc_page1_full |}.

Lemma init1_spec b n size :
  0 ≤ size < 2 ^ 64 → Z.of_nat n = Z.max 0 (size - 1) / PAGE_SIZE →
  {{ base1 ↦? ∗ size1 ↦? ∗ cur1 ↦? ∗ pages b n }} hyp_early_alloc_init1 b size
  {{ _, region1 b 0 n }}.
Proof.
  intros Hs Hn. triple_start. iIntros "([% Hb] & [% He] & [% Hc] & Hp)".
  unfold hyp_early_alloc_init1. wp_steps. iExists size.
  pose proof (Z.div_mod (Z.max 0 (size - 1)) PAGE_SIZE ltac:(done)) as E. rewrite -Hn in E.
  pose proof (Z.mod_pos_bound (Z.max 0 (size - 1)) PAGE_SIZE ltac:(done)).
  replace (b + PAGE_SIZE * Z.of_nat 0) with b by lia. iFrame. iPureIntro.
  unfold PAGE_SIZE in *. lia.
Qed.

(** C36. The allocator that counts bytes hands out the pages of its region in
    address order, each zeroed and none twice, and then null pointers; but of
    a region of [size] bytes only [(size - 1) / PAGE_SIZE] pages are ever
    handed out, so that of exactly [n + 1] pages the last one is refused. *)
Theorem early_alloc1_keeps_last_page b size n k :
  0 ≤ size < 2 ^ 64 → Z.of_nat n = Z.max 0 (size - 1) / PAGE_SIZE →
  {{ base1 ↦? ∗ size1 ↦? ∗ cur1 ↦? ∗ pages b n }}
    hyp_early_alloc_init1 b size ;;
    alloc_times hyp_early_alloc_page1 k
  {{ ps, ⌜ps = answers b k n⌝ ∗ zero_pages b (k `min` n) ∗
     region1 b (k `min` n) (n - k) }}.
Proof.
  intros Hs Hn. triple_start. iIntros "H".
  wp_call (init1_spec b n size Hs Hn) with "H". iIntros (_) "Hr".
  wp_call (alloc_times_spec b 0 n k) with "Hr". iIntros (ps) "(-> & Hz & Hr)".
  rewrite Z.add_0_r. by iFrame.
Qed.
End code.
End EarlyAllocSize.

(** ** Concrete instances *)

Module EarlyAllocInstances.

#[program, local] Instance clear_by_words : PageClearing := {| clear_page := clear_words 512 |}.
Next Obligation.
  intros a. rewrite page_words_unseal zero_words_unseal. pose proof (clear_words_spec a 512 0) as H.
  by rewrite Z.mul_0_r Z.add_0_r in H.
Qed.
#[local] Instance globals : EarlyAlloc.Globals :=
  {| EarlyAlloc.base := 64; EarlyAlloc.end_ := 72; EarlyAlloc.cur := 80 |}.
#[local] Instance globals1 : EarlyAllocSize.Globals1 :=
  {| EarlyAllocSize.base1 := 88; EarlyAllocSize.size1 := 96; EarlyAllocSize.cur1 := 104 |}.
Lemma early_alloc_hands_out_region_witness :
  {{ EarlyAlloc.base ↦? ∗ EarlyAlloc.end_ ↦? ∗ EarlyAlloc.cur ↦? ∗ pages 8192 2 }}
    EarlyAlloc.hyp_early_alloc_init 8192 8200 ;;
    ps ← alloc_times EarlyAlloc.hyp_early_alloc_page 3;
    used ← EarlyAlloc.hyp_early_alloc_nr_pages;
    mret (ps, used)
  {{ r, ⌜r = ([8192; 12288; NULL], 2)⌝ ∗ zero_pages 8192 2 ∗ EarlyAlloc.region 8192 2 0 }}.
Proof. apply (EarlyAlloc.early_alloc_hands_out_region 8192 8200 2 3); done. Defined.

Lemma early_alloc1_keeps_last_page_witness :
  {{ EarlyAllocSize.base1 ↦? ∗ EarlyAllocSize.size1 ↦? ∗ EarlyAllocSize.cur1 ↦? ∗ pages 8192 1 }}
    EarlyAllocSize.hyp_early_alloc_init1 8192 8192 ;;
    alloc_times EarlyAllocSize.hyp_early_alloc_page1 3
  {{ ps, ⌜ps = [8192; NULL; NULL]⌝ ∗ zero_pages 8192 1 ∗ EarlyAllocSize.region1 8192 1 0 }}.
Proof. apply (EarlyAllocSize.early_alloc1_keeps_last_page 8192 8192 1 3); done. Defined.

Lemma early_alloc_page_wraps_at_top_witness :
  {{ EarlyAlloc.base ↦ 4096 ∗ EarlyAlloc.cur ↦ (2 ^ 64 - PAGE_SIZE) ∗
     EarlyAlloc.end_ ↦ (2 ^ 64 - PAGE_SIZE) ∗ page_words (2 ^ 64 - PAGE_SIZE) }}
    EarlyAlloc.hyp_early_alloc_page
  {{ p, ⌜p = 2 ^ 64 - PAGE_SIZE⌝ ∗ zero_words p ∗ EarlyAlloc.base ↦ 4096 ∗ EarlyAlloc.cur ↦ 0 ∗
     EarlyAlloc.end_ ↦ (2 ^ 64 - PAGE_SIZE) }}.
Proof. apply (EarlyAlloc.early_alloc_page_wraps_at_top 4096). Defined.

End EarlyAllocInstances.
