(* ===== verification/PkvmEarlyAlloc.v ===== *)
(** * The early allocator of pKVM (src/linux/pkvm/early_alloc.c)

    The pointers of the region are the members of one [struct region]; besides
    single pages the allocator hands out contiguous ones.  It implements the
    interface of [EarlyAlloc]. *)
From S2P Require Import Prelude HeapLogic LinuxList PageAlloc EarlyAlloc.
From stdpp Require Import gmap list.
From iris.proofmode Require Import proofmode.
Import PageAlloc.
#[local] Open Scope Z_scope.

Module PkvmEarlyAlloc.

(** Members of [struct region], and the address of the static [mem]. *)
Definition end_of (m : Z) : Z := m.
Definition cur_of (m : Z) : Z := m + 8.
Definition base_of (m : Z) : Z := m + 16.
Class Globals := { mem : Z }.

(** [memset] over [n] words: every word holds the byte [c] eight times. *)
Fixpoint memset_words (n : nat) (to w : Z) : M heap unit :=
  match n with
  | O => mret tt
  | S n => store to w ;; memset_words n (to + 8) w
  end.
(** Sizes are those of whole pages. *)
Definition memset (to c size : Z) : M heap unit :=
  memset_words (Z.to_nat (size / 8)) to (u64 (c * 72340172838076673)).

Section code.
Context `{!Globals}.

Definition hyp_early_alloc_nr_used_pages : M heap Z :=
  c ← load (cur_of mem);
  b ← load (base_of mem);
  mret (Z.shiftr (u64 (c - b)) PAGE_SHIFT).

(** [copy_alloc_id(a, p)] is the address [a], which lies in the allocation of [p]
    as long as [cur] lies in the region; the shift is that of [unsigned int]. *)
Definition hyp_early_alloc_contig (nr_pages : Z) : M heap Z :=
  let size := u32 (Z.shiftl nr_pages PAGE_SHIFT) in
  ret ← load (cur_of mem);
  load (base_of mem) ;;
  if nr_pages =? 0 then mret NULL else
  e ← load (end_of mem);
  c ← load (cur_of mem);
  if u64 (e - c) <? size then mret NULL else
  c ← load (cur_of mem);
  store (cur_of mem) (u64 (c + size)) ;;
  memset ret 0 size ;;
  mret ret.

Definition hyp_early_alloc_page : M heap Z := hyp_early_alloc_contig 1.

Definition hyp_early_alloc_init (virt size : Z) : M heap unit :=
  store (base_of mem) virt ;;
  b ← load (base_of mem);
  store (cur_of mem) b ;;
  b ← load (base_of mem);
  store (end_of mem) (u64 (b + size)).
End code.

Arguments end_of : simpl never.
Arguments cur_of : simpl never.
Arguments base_of : simpl never.

Lemma memset_words_spec w a : ∀ n k,
  {{ [∗ list] k ∈ seqZ k (Z.of_nat n), (a + 8 * k) ↦? }} memset_words n (a + 8 * k) w
  {{ _, [∗ list] k ∈ seqZ k (Z.of_nat n), (a + 8 * k) ↦ w }}.
Proof.
  induction n as [|n IH]; intros k; triple_start.
  - iIntros "_". simpl. by wp_rets.
  - rewrite seqZ_cons; [|lia]. rewrite !big_sepL_cons. iIntros "[[% H] Hr]".
    replace (Z.pred (Z.of_nat (S n))) with (Z.of_nat n) by lia. cbn [memset_words]. wp_store.
    replace (a + 8 * k + 8) with (a + 8 * Z.succ k) by lia.
    wp_call (IH (Z.succ k)) with "Hr". iIntros (_) "$". iFrame.
Qed.

Lemma memset_zero_pages_spec a n :
  {{ pages a n }} memset a 0 (PAGE_SIZE * Z.of_nat n) {{ _, zero_pages a n }}.
Proof.
  triple_start. rewrite pages_words. iIntros "H". unfold memset.
  replace (Z.to_nat (PAGE_SIZE * Z.of_nat n / 8)) with (512 * n)%nat; last first.
  { unfold PAGE_SIZE. replace (4096 * Z.of_nat n) with (512 * Z.of_nat n * 8) by lia.
    rewrite Z.div_mul //. lia. }
  replace (u64 (0 * 72340172838076673)) with 0 by done.
  pose proof (memset_words_spec 0 a (512 * n) 0) as Hm. rewrite Z.mul_0_r Z.add_0_r in Hm.
  wp_call Hm with "H". iIntros (_) "H". by rewrite zero_pages_words.
Qed.

Section specs.
Context `{!Globals}.

Definition region (b : Z) (g r : nat) : hPropI :=
  (∃ t, ⌜0 ≤ b ∧ 0 ≤ t < PAGE_SIZE ∧
         b + PAGE_SIZE * (Z.of_nat g + Z.of_nat r) + t < 2 ^ 64⌝ ∗
   base_of mem ↦ b ∗ cur_of mem ↦ (b + PAGE_SIZE * Z.of_nat g)%Z ∗
   end_of mem ↦ (b + PAGE_SIZE * (Z.of_nat g + Z.of_nat r) + t)%Z ∗
   pages (b + PAGE_SIZE * Z.of_nat g) r)%I.

Lemma nr_used_pages_spec b g r :
  {{ region b g r }} hyp_early_alloc_nr_used_pages {{ n, ⌜n = Z.of_nat g⌝ ∗ region b g r }}.
Proof.
  triple_start. iIntros "(%t & % & Hb & Hc & He & Hp)". unfold hyp_early_alloc_nr_used_pages.
  wp_steps. iSplit; [iPureIntro|iExists t; by iFrame].
  rewrite wrap_small; [|unfold in_unsigned, PAGE_SIZE in *; lia].
  rewrite Z.shiftr_div_pow2 // /PAGE_SHIFT /PAGE_SIZE.
  rewrite Z.add_simpl_l Z.mul_comm. by apply Z.div_mul.
Qed.

(** The pages that a call for [nr] contiguous pages asks for in effect: its size
    is computed in 32 bits. *)
Definition asked (nr : Z) : nat := Z.to_nat (nr mod 2 ^ 20).

Lemma contig_size nr : u32 (Z.shiftl nr PAGE_SHIFT) = PAGE_SIZE * Z.of_nat (asked nr).
Proof.
  unfold asked. rewrite Z2Nat.id; [|by apply Z.mod_pos_bound].
  rewrite Z.shiftl_mul_pow2 // /PAGE_SHIFT /PAGE_SIZE. unfold wrap.
  change (2 ^ 32) with (2 ^ 20 * 2 ^ 12). rewrite Z.mul_mod_distr_r //. lia.
Qed.

Lemma contig_spec b g r nr :
  nr ≠ 0 → (asked nr ≤ r)%nat →
  {{ region b g r }} hyp_early_alloc_contig nr
  {{ p, ⌜p = (b + PAGE_SIZE * Z.of_nat g)%Z⌝ ∗ zero_pages p (asked nr) ∗
     region b (g + asked nr) (r - asked nr) }}.
Proof.
  intros Hnr Hn. triple_start. iIntros "(%t & % & Hb & Hc & He & Hp)".
  unfold hyp_early_alloc_contig. rewrite contig_size. set (n := asked nr) in *. wp_load. wp_load.
  rewrite (proj2 (Z.eqb_neq _ _)); [|lia]. wp_load. wp_load.
  rewrite wrap_small; [|unfold in_unsigned, PAGE_SIZE in *; lia].
  rewrite (proj2 (Z.ltb_ge _ _)); [|unfold PAGE_SIZE in *; lia]. wp_load. wp_store.
  rewrite wrap_small; [|unfold in_unsigned, PAGE_SIZE in *; lia].
  replace (pages _ r) with (pages (b + PAGE_SIZE * Z.of_nat g) (n + (r - n))) by (f_equal; lia).
  rewrite pages_app. iDestruct "Hp" as "[Hp Hps]".
  wp_call (memset_zero_pages_spec _ n) with "Hp". iIntros (_) "Hz". wp_rets. iSplit; [done|].
  iFrame "Hz". iExists t.
  replace (b + PAGE_SIZE * Z.of_nat g + PAGE_SIZE * Z.of_nat n)
    with (b + PAGE_SIZE * Z.of_nat (g + n)) by lia.
  replace (Z.of_nat g + Z.of_nat r) with (Z.of_nat (g + n) + Z.of_nat (r - n)) by lia.
  iFrame. iPureIntro. unfold PAGE_SIZE in *. lia.
Qed.

Lemma contig_refuses b g r nr :
  nr = 0 ∨ (r < asked nr)%nat →
  {{ region b g r }} hyp_early_alloc_contig nr {{ p, ⌜p = NULL⌝ ∗ region b g r }}.
Proof.
  intros Hn. triple_start. iIntros "(%t & % & Hb & Hc & He & Hp)".
  unfold hyp_early_alloc_contig. rewrite contig_size. wp_load. wp_load.
  destruct (Z.eqb_spec nr 0).
  { wp_rets. iSplit; [done|]. iExists t. by iFrame. }
  wp_load. wp_load. rewrite wrap_small; [|unfold in_unsigned, PAGE_SIZE in *; lia].
  rewrite (proj2 (Z.ltb_lt _ _)); [|unfold PAGE_SIZE in *; lia].
  wp_rets. iSplit; [done|]. iExists t. by iFrame.
Qed.

Lemma pkvm_page_spec b g r :
  {{ region b g (S r) }} hyp_early_alloc_page
  {{ p, ⌜p = (b + PAGE_SIZE * Z.of_nat g)%Z⌝ ∗ zero_words p ∗ region b (S g) r }}.
Proof.
  triple_start. iIntros "H". unfold hyp_early_alloc_page.
  assert (asked 1 = 1%nat) as E by done.
  assert (asked 1 ≤ S r)%nat as Hle by (rewrite E; lia).
  wp_call (contig_spec b g (S r) 1 ltac:(done) Hle) with "H". rewrite E.
  iIntros (p) "($ & [$ _] & H)". by rewrite Nat.add_1_r Nat.sub_succ Nat.sub_0_r.
Qed.

Lemma pkvm_page_full b g :
  {{ region b g 0 }} hyp_early_alloc_page {{ p, ⌜p = NULL⌝ ∗ region b g 0 }}.
Proof. apply (contig_refuses b g 0 1). right. by vm_compute; lia. Qed.

#[export] Instance pkvm_early_allocator : EarlyAllocator := {|
  ea_alloc_spec := pkvm_page_spec; ea_alloc_full := pkvm_page_full |}.

Lemma pkvm_init_spec b n size :
  0 ≤ b → 0 ≤ size → b + size < 2 ^ 64 → Z.of_nat n = size / PAGE_SIZE →
  {{ base_of mem ↦? ∗ end_of mem ↦? ∗ cur_of mem ↦? ∗ pages b n }} hyp_early_alloc_init b size
  {{ _, region b 0 n }}.
Proof.
  intros Hb Hs Hbd Hn. triple_start. iIntros "([% Hb] & [% He] & [% Hc] & Hp)".
  unfold hyp_early_alloc_init. wp_steps. iExists (size mod PAGE_SIZE).
  pose proof (Z.div_mod size PAGE_SIZE ltac:(done)) as E. rewrite -Hn in E.
  pose proof (Z.mod_pos_bound size PAGE_SIZE ltac:(done)).
  rewrite wrap_small; [|unfold in_unsigned, PAGE_SIZE in *; lia].
  replace (b + PAGE_SIZE * Z.of_nat 0) with b by lia.
  replace (b + size) with (b + PAGE_SIZE * (Z.of_nat 0 + Z.of_nat n) + size mod PAGE_SIZE) by lia.
  iFrame. iPureIntro. lia.
Qed.

(** *** Scripts of calls *)

Inductive request := Page | Contig (nr : Z) | NrUsed.

Definition perform (c : request) : M heap Z :=
  match c with
  | Page => hyp_early_alloc_page
  | Contig nr => hyp_early_alloc_contig nr
  | NrUsed => hyp_early_alloc_nr_used_pages
  end.

Fixpoint perform_all (cs : list request) : M heap (list Z) :=
  match cs with
  | [] => mret []
  | c :: cs => x ← perform c; xs ← perform_all cs; mret (x :: xs)
  end.

(** What a call does when [g] pages from [b] on are in use and [r] are left: its
    answer, and the pages it takes. *)
Definition take_pages (b : Z) (nr : Z) (g r : nat) : Z * nat :=
  if decide (nr ≠ 0 ∧ (asked nr ≤ r)%nat) then ((b + PAGE_SIZE * Z.of_nat g)%Z, asked nr) else (NULL, 0%nat).
Definition outcome (b : Z) (c : request) (g r : nat) : Z * nat :=
  match c with
  | Page => take_pages b 1 g r
  | Contig nr => take_pages b nr g r
  | NrUsed => (Z.of_nat g, 0%nat)
  end.

Fixpoint outcomes (b : Z) (cs : list request) (g r : nat) : list Z * nat :=
  match cs with
  | [] => ([], 0%nat)
  | c :: cs =>
      let '(x, n) := outcome b c g r in
      let '(xs, m) := outcomes b cs (g + n) (r - n) in (x :: xs, (n + m)%nat)
  end.

Lemma take_pages_spec b g r nr :
  {{ region b g r }} hyp_early_alloc_contig nr
  {{ p, let '(x, n) := take_pages b nr g r in
     ⌜p = x⌝ ∗ zero_pages (b + PAGE_SIZE * Z.of_nat g) n ∗ region b (g + n) (r - n) }}.
Proof.
  triple_start. iIntros "H". unfold take_pages. case_decide as Hd.
  - destruct Hd as [Hnr Hn]. wp_call (contig_spec b g r nr Hnr Hn) with "H".
    iIntros (p) "(-> & $ & $)". done.
  - assert (nr = 0 ∨ (r < asked nr)%nat) as Hn by (destruct (decide (nr = 0)); [by left|right; lia]).
    wp_call (contig_refuses b g r nr Hn) with "H". iIntros (p) "[-> H]".
    rewrite Nat.add_0_r Nat.sub_0_r. by iFrame.
Qed.

Lemma perform_spec b g r c :
  {{ region b g r }} perform c
  {{ p, let '(x, n) := outcome b c g r in
     ⌜p = x⌝ ∗ zero_pages (b + PAGE_SIZE * Z.of_nat g) n ∗ region b (g + n) (r - n) }}.
Proof.
  destruct c as [|nr|]; [apply take_pages_spec|apply take_pages_spec|]. triple_start. iIntros "H". simpl.
  wp_call (nr_used_pages_spec b g r) with "H". iIntros (p) "[-> H]".
  rewrite Nat.add_0_r Nat.sub_0_r. by iFrame.
Qed.

Lemma perform_all_spec b cs : ∀ g r,
  {{ region b g r }} perform_all cs
  {{ ps, let '(xs, n) := outcomes b cs g r in
     ⌜ps = xs⌝ ∗ zero_pages (b + PAGE_SIZE * Z.of_nat g) n ∗ region b (g + n) (r - n) }}.
Proof.
  induction cs as [|c cs IH]; intros g r; triple_start; iIntros "H"; simpl.
  { wp_rets. rewrite Nat.add_0_r Nat.sub_0_r. by iFrame. }
  wp_call (perform_spec b g r c) with "H". iIntros (p) "H".
  destruct (outcome b c g r) as [x n]. iDestruct "H" as "(-> & Hz & H)".
  wp_call (IH (g + n)%nat (r - n)%nat) with "H". iIntros (ps) "H".
  destruct (outcomes b cs (g + n) (r - n)) as [xs m]. iDestruct "H" as "(-> & Hz' & H)". wp_rets.
  iSplit; [done|]. rewrite zero_pages_app. iFrame "Hz".
  replace (b + PAGE_SIZE * Z.of_nat g + PAGE_SIZE * Z.of_nat n)
    with (b + PAGE_SIZE * Z.of_nat (g + n)) by lia.
  rewrite Nat.add_assoc Nat.sub_add_distr. iFrame.
Qed.

(** C35. From [hyp_early_alloc_init] on, over [n] whole pages from [b] on, any
    script of calls gets the answers [outcomes] lists.  A call for [nr]
    contiguous pages takes [nr mod 2^20] pages, as its size is computed in 32
    bits: if [nr] is not zero and that many are left it returns the address
    behind the pages in use, otherwise the null pointer without taking any, so
    that for a positive multiple of [2^20] pages it always returns a pointer
    and takes nothing.  [hyp_early_alloc_page] is the call for one page, and
    [hyp_early_alloc_nr_used_pages] returns how many pages have been taken.
    All pages taken are zeroed, in the end they are the first ones of the
    region, and the rest is still to be had. *)
Theorem pkvm_early_alloc_hands_out_region b size n cs :
  0 ≤ b → 0 ≤ size → b + size < 2 ^ 64 → Z.of_nat n = size / PAGE_SIZE →
  {{ base_of mem ↦? ∗ end_of mem ↦? ∗ cur_of mem ↦? ∗ pages b n }}
    hyp_early_alloc_init b size ;; perform_all cs
  {{ ps, let '(xs, g) := outcomes b cs 0 n in
     ⌜ps = xs⌝ ∗ zero_pages b g ∗ region b g (n - g) }}.
Proof.
  intros Hb Hs Hbd Hn. triple_start. iIntros "H".
  wp_call (pkvm_init_spec b n size Hb Hs Hbd Hn) with "H". iIntros (_) "Hr".
  wp_call (perform_all_spec b cs 0 n) with "Hr". iIntros (ps) "H".
  by rewrite Z.mul_0_r Z.add_0_r.
Qed.

(** Asked for [2^20] pages, [hyp_early_alloc_contig] returns the current pointer
    as if it had allocated them, whatever the region has left, and takes none. *)
Theorem pkvm_contig_wraps b g r :
  {{ region b g r }} hyp_early_alloc_contig (2 ^ 20)
  {{ p, ⌜p = (b + PAGE_SIZE * Z.of_nat g)%Z⌝ ∗ region b g r }}.
Proof.
  triple_start. iIntros "H".
  wp_call (contig_spec b g r (2 ^ 20) ltac:(done) ltac:(by apply Nat.le_0_l)) with "H".
  iIntros (p) "($ & _ & H)". change (asked (2 ^ 20)) with 0%nat. by rewrite Nat.add_0_r Nat.sub_0_r.
Qed.
End specs.

(** ** A concrete instance *)
#[local] Instance pkvm_globals : Globals := {| mem := 64 |}.

Lemma pkvm_early_alloc_hands_out_region_witness :
  {{ base_of mem ↦? ∗ end_of mem ↦? ∗ cur_of mem ↦? ∗ pages 8192 4 }}
    hyp_early_alloc_init 8192 16384 ;;
    perform_all [Page; Contig 2; Contig 2; Contig 1048576; Page; NrUsed; Page]
  {{ ps, ⌜ps = [8192; 12288; 0; 20480; 20480; 4; 0]⌝ ∗ zero_pages 8192 4 ∗ region 8192 4 0 }}.
Proof.
  apply (pkvm_early_alloc_hands_out_region 8192 16384 4
    [Page; Contig 2; Contig 2; Contig 1048576; Page; NrUsed; Page]); done.
Defined.
End PkvmEarlyAlloc.
