(* ===== verification/Pgtable.v ===== *)
(** * Page-table entries of KVM (src/linux/casestudies/pgtable.c)

    A page-table entry is one 64-bit word: bit 0 is its validity, bit 1 its
    type, bits 2 to 11 and 51 to 63 the attributes of a leaf and bits 12 to 47
    the physical page it maps.  The code builds and takes apart entries with
    masks; the theorems say what it does to the fields. *)
From S2P Require Import Prelude HeapLogic.
From stdpp Require Import gmap list.
From iris.proofmode Require Import proofmode environments.
#[local] Open Scope Z_scope.

Module Pgtable.

(** ** The code *)

Definition PAGE_SHIFT : Z := 12.
Definition BITS_PER_LONG : Z := 8 * 8.
Definition EINVAL : Z := 22.
(** [WARN_ON(b)] is [assert(b)] in this file. *)
Definition WARN_ON (b : bool) : M heap unit := c_assert b.

Definition BIT (i : Z) : M heap Z := shl64 1 i.

Definition GENMASK (h l : Z) : M heap Z :=
  a ← shl64 1 l;
  b ← shr64 (cnot 64 0) (u64 (BITS_PER_LONG - 1 - h));
  mret (Z.land (u64 (u64 (cnot 64 0 - a) + 1)) b).

Definition __bf_shf (x : Z) : Z := ffsll x - 1.

Definition FIELD_GET (_mask _reg : Z) : M heap Z :=
  shr64 (Z.land _reg _mask) (__bf_shf _mask).

Definition FIELD_PREP (_mask _val : Z) : M heap Z :=
  v ← shl64 _val (__bf_shf _mask);
  mret (Z.land v _mask).

Definition KVM_PGTABLE_PROT_X : M heap Z := BIT 0.
Definition KVM_PGTABLE_PROT_W : M heap Z := BIT 1.
Definition KVM_PGTABLE_PROT_R : M heap Z := BIT 2.
Definition KVM_PGTABLE_PROT_DEVICE : M heap Z := BIT 3.

Definition MT_NORMAL : Z := 0.
Definition MT_DEVICE_nGnRE : Z := 5.

Definition KVM_PGTABLE_MAX_LEVELS : Z := 4.
Definition KVM_PTE_VALID : M heap Z := BIT 0.
Definition KVM_PTE_TYPE : M heap Z := BIT 1.
Definition KVM_PTE_TYPE_BLOCK : Z := 0.
Definition KVM_PTE_TYPE_PAGE : Z := 1.
Definition KVM_PTE_TYPE_TABLE : Z := 1.
Definition KVM_PTE_ADDR_MASK : M heap Z := GENMASK 47 PAGE_SHIFT.
Definition KVM_PTE_ADDR_51_48 : M heap Z := GENMASK 15 12.
Definition KVM_PTE_LEAF_ATTR_LO : M heap Z := GENMASK 11 2.
Definition KVM_PTE_LEAF_ATTR_LO_S1_ATTRIDX : M heap Z := GENMASK 4 2.
Definition KVM_PTE_LEAF_ATTR_LO_S1_AP : M heap Z := GENMASK 7 6.
Definition KVM_PTE_LEAF_ATTR_LO_S1_AP_RO : Z := 3.
Definition KVM_PTE_LEAF_ATTR_LO_S1_AP_RW : Z := 1.
Definition KVM_PTE_LEAF_ATTR_LO_S1_SH : M heap Z := GENMASK 9 8.
Definition KVM_PTE_LEAF_ATTR_LO_S1_SH_IS : Z := 3.
Definition KVM_PTE_LEAF_ATTR_LO_S1_AF : M heap Z := BIT 10.
Definition KVM_PTE_LEAF_ATTR_HI : M heap Z := GENMASK 63 51.
Definition KVM_PTE_LEAF_ATTR_HI_S1_XN : M heap Z := BIT 54.

Definition kvm_pte_valid (pte : Z) : M heap bool :=
  v ← KVM_PTE_VALID;
  mret (negb (Z.land pte v =? 0)).

Definition kvm_pte_table (pte level : Z) : M heap bool :=
  if level =? KVM_PGTABLE_MAX_LEVELS - 1 then mret false else
  v ← kvm_pte_valid pte;
  if negb v then mret false else
  m ← KVM_PTE_TYPE;
  t ← FIELD_GET m pte;
  mret (t =? KVM_PTE_TYPE_TABLE).

Definition kvm_set_invalid_pte (ptep : Z) : M heap unit :=
  pte ← load ptep;
  v ← KVM_PTE_VALID;
  store ptep (Z.land pte (cnot 64 v)).

Definition kvm_phys_to_pte (pa : Z) : M heap Z :=
  m ← KVM_PTE_ADDR_MASK;
  let pte := Z.land pa m in
  if PAGE_SHIFT =? 16 then
    m ← KVM_PTE_ADDR_51_48;
    s ← shr64 pa 48;
    f ← FIELD_PREP m s;
    mret (Z.lor pte f)
  else mret pte.

(** [mm_ops->virt_to_phys] is a pointer to a function that returns the
    physical address of a virtual one. *)
Definition virt_to_phys (mm_ops : Z) : Z := mm_ops.
Class MmOps := {
  call_virt_to_phys : Z → Z → M heap Z;
  phys_of : Z → Z → Z;
  phys_of_range f a : in_unsigned 64 (phys_of f a);
  call_virt_to_phys_spec f a h : call_virt_to_phys f a h = Ok (phys_of f a) h;
}.

Definition kvm_set_table_pte `{!MmOps} (ptep childp mm_ops : Z) : M heap unit :=
  old ← load ptep;
  f ← load (virt_to_phys mm_ops);
  pa ← call_virt_to_phys f childp;
  pte ← kvm_phys_to_pte pa;
  m ← KVM_PTE_TYPE;
  t ← FIELD_PREP m KVM_PTE_TYPE_TABLE;
  let pte := Z.lor pte t in
  v ← KVM_PTE_VALID;
  let pte := Z.lor pte v in
  o ← kvm_pte_valid old;
  WARN_ON o ;;
  store ptep pte.

Definition kvm_set_valid_leaf_pte (ptep pa attr level : Z) : M heap bool :=
  old ← load ptep;
  pte ← kvm_phys_to_pte pa;
  let type := if level =? KVM_PGTABLE_MAX_LEVELS - 1 then KVM_PTE_TYPE_PAGE
              else KVM_PTE_TYPE_BLOCK in
  lo ← KVM_PTE_LEAF_ATTR_LO;
  hi ← KVM_PTE_LEAF_ATTR_HI;
  let pte := Z.lor pte (Z.land attr (Z.lor lo hi)) in
  m ← KVM_PTE_TYPE;
  t ← FIELD_PREP m type;
  let pte := Z.lor pte t in
  v ← KVM_PTE_VALID;
  let pte := Z.lor pte v in
  o ← kvm_pte_valid old;
  if (o : bool) then mret (old =? pte) else
  store ptep pte ;;
  mret true.

(** Members of [struct hyp_map_data]. *)
Definition phys (data : Z) : Z := data.
Definition attr (data : Z) : Z := data + 8.
Definition data_mm_ops (data : Z) : Z := data + 16.

Definition hyp_map_set_prot_attr (prot data : Z) : M heap Z :=
  d ← KVM_PGTABLE_PROT_DEVICE;
  let device := negb (Z.land prot d =? 0) in
  let mtype := if device then MT_DEVICE_nGnRE else MT_NORMAL in
  m ← KVM_PTE_LEAF_ATTR_LO_S1_ATTRIDX;
  a ← FIELD_PREP m mtype;
  let sh := KVM_PTE_LEAF_ATTR_LO_S1_SH_IS in
  w ← KVM_PGTABLE_PROT_W;
  let ap := if negb (Z.land prot w =? 0) then KVM_PTE_LEAF_ATTR_LO_S1_AP_RW
            else KVM_PTE_LEAF_ATTR_LO_S1_AP_RO in
  r ← KVM_PGTABLE_PROT_R;
  if Z.land prot r =? 0 then mret (- EINVAL) else
  x ← KVM_PGTABLE_PROT_X;
  (* the attributes so far, or the early return *)
  ea ← (if negb (Z.land prot x =? 0) then
          w ← KVM_PGTABLE_PROT_W;
          if negb (Z.land prot w =? 0) then mret None else
          if device then mret None else
          mret (Some a)
        else
          xn ← KVM_PTE_LEAF_ATTR_HI_S1_XN;
          mret (Some (Z.lor a xn)));
  match ea with
  | None => mret (- EINVAL)
  | Some a =>
      m ← KVM_PTE_LEAF_ATTR_LO_S1_AP;
      f ← FIELD_PREP m ap;
      let a := Z.lor a f in
      m ← KVM_PTE_LEAF_ATTR_LO_S1_SH;
      f ← FIELD_PREP m sh;
      let a := Z.lor a f in
      af ← KVM_PTE_LEAF_ATTR_LO_S1_AF;
      let a := Z.lor a af in
      store (attr data) a ;;
      mret 0
  end.

Arguments attr : simpl never.
Arguments virt_to_phys : simpl never.
Arguments BIT : simpl never.
Arguments GENMASK : simpl never.
Arguments FIELD_GET : simpl never.
Arguments FIELD_PREP : simpl never.
Arguments kvm_pte_valid : simpl never.
Arguments kvm_phys_to_pte : simpl never.
#[local] Arguments Z.testbit : simpl never.
#[local] Arguments Z.land : simpl never.
#[local] Arguments Z.lor : simpl never.
#[local] Arguments Z.shiftl : simpl never.

(** ** Fields of words *)

(** Bits [l], ..., [l + k - 1] of a word, and the mask that selects them. *)
Definition slice (l k w : Z) : Z := Z.land (Z.shiftr w l) (Z.ones k).
Definition mask (l k : Z) : Z := Z.shiftl (Z.ones k) l.

Lemma ones_bit k i : 0 ≤ k → 0 ≤ i → Z.testbit (Z.ones k) i = bool_decide (i < k).
Proof.
  intros. case_bool_decide; [rewrite Z.ones_spec_low //; lia|rewrite Z.ones_spec_high //; lia].
Qed.

Lemma mask_bit l k i :
  0 ≤ l → 0 ≤ k → 0 ≤ i → Z.testbit (mask l k) i = bool_decide (l ≤ i) && bool_decide (i < l + k).
Proof.
  intros. unfold mask. rewrite Z.shiftl_spec //. case_bool_decide.
  - rewrite ones_bit; [|lia..]. by apply bool_decide_ext; lia.
  - rewrite Z.testbit_neg_r //. lia.
Qed.

Lemma slice_bit l k w i :
  0 ≤ l → 0 ≤ k → 0 ≤ i → Z.testbit (slice l k w) i = bool_decide (i < k) && Z.testbit w (i + l).
Proof.
  intros. unfold slice. rewrite Z.land_spec Z.shiftr_spec // ones_bit //. apply andb_comm.
Qed.

Lemma slice_mod l k w : 0 ≤ l → 0 ≤ k → slice l k w = (w / 2 ^ l) mod 2 ^ k.
Proof. intros. unfold slice. by rewrite Z.land_ones // Z.shiftr_div_pow2. Qed.

(** Deciding an equation of words bit by bit. *)
Ltac push_testbit :=
  match goal with
  | |- context [Z.testbit (slice ?l ?k ?w) ?i] => rewrite (slice_bit l k w i); [|lia..]
  | |- context [Z.testbit (mask ?l ?k) ?i] => rewrite (mask_bit l k i); [|lia..]
  | |- context [Z.testbit (wrap ?n ?w) ?i] => rewrite (wrap_testbit n w i); [|lia]
  | |- context [Z.testbit (Z.land ?a ?b) ?i] => rewrite (Z.land_spec a b i)
  | |- context [Z.testbit (Z.lor ?a ?b) ?i] => rewrite (Z.lor_spec a b i)
  | |- context [Z.testbit (Z.lnot ?a) ?i] => rewrite (Z.lnot_spec a i); [|lia]
  | |- context [Z.testbit (Z.ones ?a) ?i] => rewrite (ones_bit a i); [|lia..]
  | |- context [Z.testbit (Z.shiftr ?a ?b) ?i] => rewrite (Z.shiftr_spec a b i); [|lia]
  | |- context [Z.testbit (Z.shiftl ?a ?b) ?i] => rewrite (Z.shiftl_spec a b i); [|lia]
  | |- context [Z.testbit 0 ?i] => rewrite (Z.testbit_0_l i)
  end.
Ltac word_bits := apply Z.bits_inj'; intros i ?; repeat push_testbit.
Ltac bit_cases :=
  repeat case_bool_decide; simpl; try lia;
  rewrite ?andb_true_r ?andb_false_r ?orb_false_r ?orb_true_r; try done.

Lemma bit_of_high w i n : in_unsigned n w → 0 ≤ n ≤ i → Z.testbit w i = false.
Proof.
  intros Hw Hi. rewrite -(wrap_small n w) // wrap_testbit; [|lia].
  by rewrite bool_decide_false; [|lia].
Qed.

Lemma BIT_mask i : 0 ≤ i < 64 → BIT i = mret (mask i 1).
Proof.
  intros. unfold BIT, shl64. rewrite decide_True //. f_equal. rewrite wrap_small //.
  unfold in_unsigned. rewrite Z.shiftl_1_l. split; [apply Z.pow_nonneg; lia|].
  apply Z.pow_lt_mono_r; lia.
Qed.

Lemma low_bit_range l : 0 ≤ l < 64 → 1 ≤ Z.shiftl 1 l < 2 ^ 64.
Proof.
  intros. rewrite Z.shiftl_1_l. pose proof (Z.pow_pos_nonneg 2 l).
  pose proof (Z.pow_lt_mono_r 2 l 64). lia.
Qed.

Lemma upper_bits l : 0 ≤ l < 64 → Z.ones 64 - Z.shiftl 1 l + 1 = mask l (64 - l).
Proof.
  intros. unfold mask. rewrite Z.shiftl_1_l Z.shiftl_mul_pow2; [|lia]. rewrite !Z.ones_equiv.
  replace (2 ^ 64) with (2 ^ (64 - l) * 2 ^ l); [lia|]. rewrite -Z.pow_add_r; [|lia..].
  f_equal. lia.
Qed.

Lemma GENMASK_mask h l : 0 ≤ l ≤ h → h < 64 → GENMASK h l = mret (mask l (h - l + 1)).
Proof.
  intros Hl Hh. unfold GENMASK, shl64, shr64, BITS_PER_LONG.
  pose proof (low_bit_range l ltac:(lia)) as Hs. change (cnot 64 0) with (Z.ones 64).
  rewrite (wrap_small 64 (8 * 8 - 1 - h)); [|unfold in_unsigned; lia].
  rewrite !decide_True; [|lia..].
  rewrite (wrap_small 64 (Z.shiftl 1 l)); [|unfold in_unsigned; lia].
  enough (Z.land (u64 (u64 (Z.ones 64 - Z.shiftl 1 l) + 1)) (Z.shiftr (Z.ones 64) (8 * 8 - 1 - h)) =
    mask l (h - l + 1)) as <- by done.
  change (Z.ones 64) with (2 ^ 64 - 1) at 1 2.
  rewrite !(wrap_small 64); [|unfold in_unsigned; lia..].
  change (2 ^ 64 - 1) with (Z.ones 64). rewrite upper_bits; [|lia].
  word_bits. bit_cases.
Qed.

(** The lowest bit of a mask is where its field starts. *)
Lemma ffs_mask l k : ∀ n j,
  0 ≤ j ≤ l → 0 < k → l < j + Z.of_nat n → ffs_from n j (mask l k) = l + 1.
Proof.
  induction n as [|n IH]; intros j Hj Hk Hn; [lia|]. cbn [ffs_from].
  rewrite mask_bit; [|lia..]. destruct (decide (j = l)) as [->|].
  - by rewrite !bool_decide_true; [|lia..].
  - rewrite bool_decide_false; [|lia]. apply IH; lia.
Qed.

Lemma bf_shf_mask l k : 0 ≤ l < 64 → 0 < k → __bf_shf (mask l k) = l.
Proof. intros. unfold __bf_shf, ffsll. rewrite ffs_mask; lia. Qed.

Lemma FIELD_GET_mask l k r : 0 ≤ l < 64 → 0 < k → FIELD_GET (mask l k) r = mret (slice l k r).
Proof.
  intros. unfold FIELD_GET, shr64. rewrite bf_shf_mask // decide_True //. f_equal.
  word_bits. bit_cases.
Qed.

Lemma FIELD_PREP_mask l k v :
  0 ≤ l < 64 → 0 < k → l + k ≤ 64 → 0 ≤ v < 2 ^ k →
  FIELD_PREP (mask l k) v = mret (Z.shiftl v l).
Proof.
  intros Hl Hk Hlk Hv. unfold FIELD_PREP, shl64. rewrite bf_shf_mask // decide_True //.
  enough (Z.land (u64 (Z.shiftl v l)) (mask l k) = Z.shiftl v l) as E
    by exact (f_equal (mret (M:=M heap)) E).
  word_bits. bit_cases.
  all: symmetry; destruct (decide (l ≤ i)); [|rewrite Z.testbit_neg_r //; lia].
  all: apply (bit_of_high v _ k); [done|lia].
Qed.

Lemma test_bit w i : 0 ≤ i → negb (Z.land w (mask i 1) =? 0) = Z.testbit w i.
Proof.
  intros Hi. destruct (Z.eqb_spec (Z.land w (mask i 1)) 0) as [E|E]; simpl.
  - assert (Z.testbit (Z.land w (mask i 1)) i = false) as Hb by (rewrite E; apply Z.testbit_0_l).
    move: Hb. repeat push_testbit. rewrite !bool_decide_true; [|lia..].
    by destruct (Z.testbit w i).
  - destruct (Z.testbit w i) eqn:Hb; [done|]. destruct E. apply Z.bits_inj'. intros j Hj.
    repeat push_testbit. destruct (decide (i = j)) as [->|]; [by rewrite Hb|].
    bit_cases.
Qed.

(** ** Entries *)

Record Pte := mk_pte {
  pte_valid : bool;
  pte_type : Z;
  pte_leaf_attr_lo : Z;
  pte_addr : Z;
  pte_undef : Z;
  pte_leaf_attr_hi : Z;
}.

#[export] Instance Pte_eq_dec : EqDecision Pte.
Proof. solve_decision. Defined.

(** The fields of an entry. *)
Definition pte_of (w : Z) : Pte :=
  mk_pte (Z.testbit w 0) (slice 1 1 w) (slice 2 10 w) (slice 12 36 w) (slice 48 3 w)
    (slice 51 13 w).

Lemma slices_inj l k w w' i :
  0 ≤ l → 0 ≤ k → slice l k w = slice l k w' → l ≤ i < l + k → Z.testbit w i = Z.testbit w' i.
Proof.
  intros Hl Hk E Hi. assert (Z.testbit (slice l k w) (i - l) = Z.testbit (slice l k w') (i - l))
    as Hb by by rewrite E.
  move: Hb. repeat push_testbit. rewrite bool_decide_true; [|lia].
  by replace (i - l + l) with i by lia.
Qed.

(** The fields determine the entry. *)
Lemma pte_of_inj w w' : in_unsigned 64 w → in_unsigned 64 w' → pte_of w = pte_of w' → w = w'.
Proof.
  intros Hw Hw' [= H0 H1 H2 H12 H48 H51]. apply Z.bits_inj'. intros i Hi.
  destruct (decide (64 ≤ i)); [by rewrite !(bit_of_high _ i 64); [|done || lia..]|].
  destruct (decide (i = 0)) as [->|]; [done|].
  destruct (decide (i < 2)); [by apply (slices_inj 1 1); [done..|lia]|].
  destruct (decide (i < 12)); [by apply (slices_inj 2 10); [done..|lia]|].
  destruct (decide (i < 48)); [by apply (slices_inj 12 36); [done..|lia]|].
  destruct (decide (i < 51)); [by apply (slices_inj 48 3); [done..|lia]|].
  apply (slices_inj 51 13); [done..|lia].
Qed.

Lemma kvm_pte_valid_eq w : kvm_pte_valid w = mret (Z.testbit w 0).
Proof.
  unfold kvm_pte_valid, KVM_PTE_VALID. rewrite BIT_mask //.
  exact (f_equal (mret (M:=M heap)) (test_bit w 0 ltac:(done))).
Qed.

Lemma kvm_phys_to_pte_eq pa : kvm_phys_to_pte pa = mret (Z.land pa (mask 12 36)).
Proof. unfold kvm_phys_to_pte, KVM_PTE_ADDR_MASK. rewrite GENMASK_mask //. Qed.

Lemma type_field t : 0 ≤ t < 2 → FIELD_PREP (mask 1 1) t = mret (Z.shiftl t 1).
Proof. intros. apply FIELD_PREP_mask; lia. Qed.

(** Whether an entry of a table at [level] is a table itself. *)
Definition is_table (p : Pte) (level : Z) : bool :=
  negb (level =? 3) && pte_valid p && (pte_type p =? 1).

Lemma kvm_pte_table_eq w level : kvm_pte_table w level = mret (is_table (pte_of w) level).
Proof.
  unfold kvm_pte_table, is_table, KVM_PTE_TYPE. rewrite kvm_pte_valid_eq BIT_mask //.
  change (KVM_PGTABLE_MAX_LEVELS - 1) with 3. destruct (level =? 3); [done|].
  simpl. change (mret ?b ≫= ?k) with (k b). cbv beta. destruct (Z.testbit w 0); [|done].
  simpl. change (mret ?b ≫= ?k) with (k b). cbv beta. by rewrite FIELD_GET_mask.
Qed.

Definition leaf_type (level : Z) : Z := if level =? 3 then 1 else 0.

(** The words [kvm_set_valid_leaf_pte] and [kvm_set_table_pte] store, [type]
    being the field of the entry's type. *)
Definition entry_word (pa attr type : Z) : Z :=
  Z.lor (Z.lor (Z.lor (Z.land pa (mask 12 36)) (Z.land attr (Z.lor (mask 2 10) (mask 51 13)))) type)
    (mask 0 1).

Ltac field := word_bits; bit_cases; f_equal; lia.

Lemma entry_word_fields pa a (t : bool) :
  let type := if t then mask 1 1 else 0 in
  pte_of (entry_word pa a type) =
    mk_pte true (Z.b2z t) (slice 2 10 a) (slice 12 36 pa) 0 (slice 51 13 a).
Proof.
  unfold pte_of, entry_word. f_equal.
  - repeat push_testbit. rewrite (bool_decide_true (0 ≤ 0)) // (bool_decide_true (0 < 0 + 1)) //.
    apply orb_true_r.
  - destruct t; [change (Z.b2z true) with (mask 0 1)|change (Z.b2z false) with 0]; field.
  - destruct t; field.
  - destruct t; field.
  - destruct t; field.
  - destruct t; field.
Qed.

Lemma mask_range l k : 0 ≤ l → 0 ≤ k → l + k ≤ 64 → in_unsigned 64 (mask l k).
Proof.
  intros. unfold in_unsigned, mask. rewrite Z.shiftl_mul_pow2 // Z.ones_equiv.
  pose proof (Z.pow_pos_nonneg 2 k). pose proof (Z.pow_pos_nonneg 2 l).
  assert (2 ^ (l + k) ≤ 2 ^ 64) by (apply Z.pow_le_mono_r; lia).
  rewrite Z.pow_add_r // in H4. nia.
Qed.

Lemma bits_below w : (∀ i, 64 ≤ i → Z.testbit w i = false) → in_unsigned 64 (u64 w) ∧ u64 w = w.
Proof.
  intros Hw. split; [by apply wrap_range|]. apply Z.bits_inj'. intros i Hi.
  rewrite wrap_testbit //. case_bool_decide; [done|]. rewrite Hw //. lia.
Qed.

Lemma word_range w : (∀ i, 64 ≤ i → Z.testbit w i = false) → in_unsigned 64 w.
Proof. intros Hw. destruct (bits_below w Hw) as [? <-]. done. Qed.

Lemma entry_word_range pa a (t : bool) : in_unsigned 64 (entry_word pa a (if t then mask 1 1 else 0)).
Proof.
  apply word_range. intros i Hi. unfold entry_word. destruct t; repeat push_testbit; bit_cases.
Qed.

Lemma slice_zero_bit l k w i :
  0 ≤ l → 0 ≤ k → slice l k w = 0 → l ≤ i < l + k → Z.testbit w i = false.
Proof.
  intros Hl Hk E Hi. rewrite (slices_inj l k w 0 i) // ?Z.testbit_0_l //.
  by rewrite E /slice Z.shiftr_0_l.
Qed.

(** A value shifted into a field that is clear. *)
Lemma clear_field_add l k other v :
  0 ≤ l → 0 ≤ k → 0 ≤ v < 2 ^ k → slice l k other = 0 →
  Z.lor other (Z.shiftl v l) = other + v * 2 ^ l ∧ slice l k (Z.lor other (Z.shiftl v l)) = v.
Proof.
  intros Hl Hk Hv Ho. split.
  - rewrite -Z.shiftl_mul_pow2 // -Z.lxor_lor ?Z.add_nocarry_lxor //.
    all: apply Z.bits_inj'; intros i Hi; repeat push_testbit.
    all: destruct (decide (l ≤ i)); [|rewrite (Z.testbit_neg_r v); [apply andb_false_r|lia]].
    all: destruct (decide (i < l + k)); [by rewrite (slice_zero_bit l k other)|].
    all: rewrite (bit_of_high v _ k); [apply andb_false_r|done|lia].
  - word_bits. case_bool_decide; simpl.
    + rewrite (slice_zero_bit l k other); [|lia||done..]. simpl. f_equal. lia.
    + symmetry. apply (bit_of_high v _ k); [done|lia].
Qed.

(** C39. [FIELD_GET] reads back what [FIELD_PREP] puts into a field, whatever
    the other fields of the word hold: for the mask of bits [l] to [h] and a
    value [v] that fits, the word [other | FIELD_PREP(mask, v)] has [v] in the
    field when [other] is clear there, keeps every bit of [other], and
    [FIELD_GET] of any word is the quotient and remainder of its bits. *)
Theorem field_get_prep_roundtrip h l v other s :
  0 ≤ l ≤ h → h < 64 → 0 ≤ v < 2 ^ (h - l + 1) →
  slice l (h - l + 1) other = 0 →
  (m ← GENMASK h l; f ← FIELD_PREP m v; g ← FIELD_GET m (Z.lor other f);
   r ← FIELD_GET m other; mret (g, r, Z.lor other f)) s =
    Ok (v, 0, other + v * 2 ^ l) s ∧
  (∀ w, (m ← GENMASK h l; FIELD_GET m w) s = Ok ((w / 2 ^ l) mod 2 ^ (h - l + 1)) s).
Proof.
  intros Hl Hh Hv Ho. set (k := h - l + 1) in *.
  destruct (clear_field_add l k other v ltac:(lia) ltac:(lia) Hv Ho) as [E1 E2].
  assert (∀ r s', FIELD_GET (mask l k) r s' = Ok (slice l k r) s') as Hget.
  { intros r s'. by rewrite FIELD_GET_mask; [|lia..]. }
  assert (FIELD_PREP (mask l k) v s = Ok (Z.shiftl v l) s) as Hprep.
  { by rewrite FIELD_PREP_mask; [|lia..]. }
  rewrite GENMASK_mask //. fold k. unfold mbind, M_bind, mret, M_ret. split.
  - by rewrite Hprep Hget Hget Ho E2 E1.
  - intros w. by rewrite Hget slice_mod; [|lia..].
Qed.

(** Run a computation on words whose value is known. *)
Ltac wp_word :=
  wp_focus;
  cbv delta [KVM_PGTABLE_PROT_X KVM_PGTABLE_PROT_W KVM_PGTABLE_PROT_R KVM_PGTABLE_PROT_DEVICE
    KVM_PTE_VALID KVM_PTE_TYPE KVM_PTE_LEAF_ATTR_LO KVM_PTE_LEAF_ATTR_LO_S1_ATTRIDX
    KVM_PTE_LEAF_ATTR_LO_S1_AP KVM_PTE_LEAF_ATTR_LO_S1_SH KVM_PTE_LEAF_ATTR_LO_S1_AF
    KVM_PTE_LEAF_ATTR_HI KVM_PTE_LEAF_ATTR_HI_S1_XN KVM_PTE_TYPE_TABLE KVM_PTE_TYPE_PAGE
    KVM_PTE_TYPE_BLOCK KVM_PTE_LEAF_ATTR_LO_S1_AP_RW KVM_PTE_LEAF_ATTR_LO_S1_AP_RO
    KVM_PTE_LEAF_ATTR_LO_S1_SH_IS];
  lazymatch goal with
  | |- envs_entails _ (wp (BIT ?i) _) => rewrite (BIT_mask i); [|lia]
  | |- envs_entails _ (wp (GENMASK ?h ?l) _) => rewrite (GENMASK_mask h l); [|lia..]
  | |- envs_entails _ (wp (FIELD_PREP (mask ?l ?k) ?v) _) =>
      rewrite (FIELD_PREP_mask l k v); [|lia..]
  | |- envs_entails _ (wp (kvm_pte_valid ?w) _) => rewrite (kvm_pte_valid_eq w)
  | |- envs_entails _ (wp (kvm_phys_to_pte ?pa) _) => rewrite (kvm_phys_to_pte_eq pa)
  end;
  wp_ret; cbv beta zeta.

Lemma kvm_set_invalid_pte_spec p w :
  {{ p ↦ w }} kvm_set_invalid_pte p {{ _, p ↦ Z.land w (cnot 64 (mask 0 1)) }}.
Proof.
  triple_start. iIntros "Hp". unfold kvm_set_invalid_pte. wp_load. wp_word. wp_store. by iFrame.
Qed.

Lemma kvm_set_valid_leaf_pte_spec p w pa a level :
  {{ p ↦ w }} kvm_set_valid_leaf_pte p pa a level
  {{ r, let w' := entry_word pa a (if level =? 3 then mask 1 1 else 0) in
     if Z.testbit w 0 then ⌜r = (w =? w')⌝ ∗ p ↦ w else ⌜r = true⌝ ∗ p ↦ w' }}.
Proof.
  triple_start. iIntros "Hp". unfold kvm_set_valid_leaf_pte.
  change (KVM_PGTABLE_MAX_LEVELS - 1) with 3. wp_load. do 4 wp_word.
  change (11 - 2 + 1) with 10. change (63 - 51 + 1) with 13.
  assert (FIELD_PREP (mask 1 1) (if level =? 3 then KVM_PTE_TYPE_PAGE else KVM_PTE_TYPE_BLOCK) =
    mret (if level =? 3 then mask 1 1 else 0)) as Ht.
  { destruct (level =? 3); by rewrite type_field. }
  wp_focus. rewrite Ht. wp_ret. cbv beta zeta. wp_word. wp_word.
  destruct (Z.testbit w 0); wp_rets; [by iFrame|]. wp_store. by iFrame.
Qed.

Section table.
Context `{!MmOps}.

Lemma kvm_set_table_pte_valid p w child ops f :
  Z.testbit w 0 = true →
  {{ p ↦ w ∗ virt_to_phys ops ↦ f }} kvm_set_table_pte p child ops
  {{ _, p ↦ entry_word (phys_of f child) 0 (mask 1 1) ∗ virt_to_phys ops ↦ f }}.
Proof.
  intros Hw. triple_start. iIntros "[Hp Hf]". unfold kvm_set_table_pte. wp_load. wp_load.
  iApply (wp_value _ (phys_of f child)); [apply call_virt_to_phys_spec|].
  do 5 wp_word. unfold WARN_ON. rewrite Hw. wp_rets. wp_store. iFrame "Hf".
  unfold entry_word. by rewrite Z.land_0_l Z.lor_0_r.
Qed.

Lemma kvm_set_table_pte_invalid p w child ops f :
  Z.testbit w 0 = false →
  stops (p ↦ w ∗ virt_to_phys ops ↦ f)%I (kvm_set_table_pte p child ops) AssertionFailure.
Proof.
  intros Hw. unfold kvm_set_table_pte, KVM_PTE_TYPE, KVM_PTE_VALID.
  eapply stops_load; [done|]. eapply stops_load; [by rewrite bi.sep_comm|].
  eapply stops_value; [intros; apply call_virt_to_phys_spec|].
  eapply stops_value; [intros; by rewrite kvm_phys_to_pte_eq|].
  eapply stops_value; [intros; by rewrite BIT_mask|].
  eapply stops_value; [intros; by rewrite type_field|].
  eapply stops_value; [intros; by rewrite BIT_mask|].
  eapply stops_value; [intros; by rewrite kvm_pte_valid_eq|].
  intros h hf _ _. unfold WARN_ON. by rewrite Hw.
Qed.
End table.

(** ** Attributes *)

(** The permissions a caller asks for, and the attributes they give. *)
Record Prot := { prot_x : bool; prot_w : bool; prot_r : bool; prot_device : bool }.
Definition prot_of (w : Z) : Prot :=
  {| prot_x := Z.testbit w 0; prot_w := Z.testbit w 1; prot_r := Z.testbit w 2;
     prot_device := Z.testbit w 3 |}.

Record Attr := {
  attr_lo_s1_attridx : Z;
  attr_lo_s1_ap : Z;
  attr_lo_s1_sh : Z;
  attr_lo_s1_af : bool;
  attr_hi_s1_xn : bool;
}.
Definition attr_of (w : Z) : Attr :=
  {| attr_lo_s1_attridx := slice 2 3 w; attr_lo_s1_ap := slice 6 2 w;
     attr_lo_s1_sh := slice 8 2 w; attr_lo_s1_af := Z.testbit w 10;
     attr_hi_s1_xn := Z.testbit w 54 |}.

Definition prot_refused (p : Prot) : bool :=
  negb (prot_r p) || prot_x p && (prot_w p || prot_device p).
Definition prot_attr (p : Prot) : Attr :=
  {| attr_lo_s1_attridx := if prot_device p then 5 else 0;
     attr_lo_s1_ap := if prot_w p then 1 else 3;
     attr_lo_s1_sh := 3; attr_lo_s1_af := true; attr_hi_s1_xn := negb (prot_x p) |}.

Definition prot_word (p : Prot) : Z :=
  let a := Z.shiftl (if prot_device p then 5 else 0) 2 in
  let a := if prot_x p then a else Z.lor a (mask 54 1) in
  Z.lor (Z.lor (Z.lor a (Z.shiftl (if prot_w p then 1 else 3) 6)) (Z.shiftl 3 8)) (mask 10 1).

Lemma prot_word_fields p :
  attr_of (prot_word p) = prot_attr p.
Proof. destruct p as [[] [] ? []]; by vm_compute. Qed.

Lemma hyp_map_set_prot_attr_spec prot data a :
  {{ attr data ↦o a }} hyp_map_set_prot_attr prot data
  {{ r, if prot_refused (prot_of prot) then ⌜r = - EINVAL⌝ ∗ attr data ↦o a
        else ⌜r = 0⌝ ∗ attr data ↦ prot_word (prot_of prot) }}.
Proof.
  triple_start. iIntros "Ha". unfold hyp_map_set_prot_attr. wp_word. wp_word. rewrite test_bit //.
  assert (∀ d : bool, 0 ≤ (if d then MT_DEVICE_nGnRE else MT_NORMAL) < 2 ^ 3) as Hm by by intros [].
  change (4 - 2 + 1) with 3. wp_focus. rewrite FIELD_PREP_mask; [|lia||apply Hm..]. wp_ret.
  cbv beta zeta. wp_word. rewrite test_bit //. wp_word.
  unfold prot_refused, prot_word, prot_of. cbn [prot_x prot_w prot_r prot_device].
  pose proof (test_bit prot 2 ltac:(done)) as Hr. destruct (Z.land prot (mask 2 1) =? 0).
  { simpl in Hr. rewrite -Hr. simpl. wp_rets. by iFrame. }
  simpl in Hr. rewrite -Hr. cbn [negb orb]; cbv iota. wp_word. rewrite test_bit //.
  destruct (Z.testbit prot 0); cbn [negb andb]; cbv iota.
  - wp_ret. cbv beta. rewrite test_bit //. destruct (Z.testbit prot 1); cbn [negb orb]; cbv iota.
    { wp_rets. by iFrame. }
    destruct (Z.testbit prot 3); wp_rets; [by iFrame|]. do 5 wp_word. wp_store. by iFrame.
  - wp_word. wp_rets. destruct (Z.testbit prot 1); do 5 wp_word; wp_store; by iFrame.
Qed.

(** ** The theorems *)

Definition invalid (p : Pte) : Pte :=
  mk_pte false (pte_type p) (pte_leaf_attr_lo p) (pte_addr p) (pte_undef p) (pte_leaf_attr_hi p).

Lemma invalid_word_fields w : pte_of (Z.land w (cnot 64 (mask 0 1))) = invalid (pte_of w).
Proof.
  unfold pte_of, invalid, cnot. simpl. f_equal; [|word_bits; bit_cases..].
  repeat push_testbit. by rewrite !bool_decide_true // andb_false_r.
Qed.

Lemma invalid_word_range w : in_unsigned 64 (Z.land w (cnot 64 (mask 0 1))).
Proof. apply word_range. intros i Hi. unfold cnot. repeat push_testbit. bit_cases. Qed.

(** [kvm_set_invalid_pte] clears the validity of an entry and keeps every
    other field; afterwards [kvm_pte_valid] and, at every level,
    [kvm_pte_table] are false. *)
Theorem kvm_set_invalid_pte_correct p w level :
  {{ p ↦ w }}
    kvm_set_invalid_pte p ;;
    w' ← load p;
    v ← kvm_pte_valid w';
    t ← kvm_pte_table w' level;
    mret (v, t)
  {{ r, ⌜r = (false, false)⌝ ∗
     ∃ w', ⌜in_unsigned 64 w' ∧ pte_of w' = invalid (pte_of w)⌝ ∗ p ↦ w' }}.
Proof.
  triple_start. iIntros "Hp". wp_call (kvm_set_invalid_pte_spec p w) with "Hp". iIntros (_) "Hp".
  wp_focus. iApply (wp_load with "Hp"). iIntros "Hp". wp_word. wp_focus.
  rewrite kvm_pte_table_eq. wp_ret. wp_ret. rewrite invalid_word_fields.
  iSplit; [iPureIntro|iExists _; iFrame; iPureIntro; auto using invalid_word_fields, invalid_word_range].
  pose proof (f_equal pte_valid (invalid_word_fields w)) as Hv. simpl in Hv. rewrite Hv.
  unfold is_table. simpl. by rewrite andb_false_r.
Qed.

(** C37. [kvm_set_valid_leaf_pte] installs a leaf only over an invalid entry:
    the new entry is valid, a page at the last level and a block above it, maps
    the page of [pa] (bits 12 to 47), takes both attribute fields of [attr] and
    has no other bit set; the answer is true.  Over a valid entry nothing is
    written and the answer says whether the entry is already that one. *)
Theorem kvm_set_valid_leaf_pte_correct p w pa a level :
  in_unsigned 64 w →
  {{ p ↦ w }} kvm_set_valid_leaf_pte p pa a level
  {{ r, ∃ w', ⌜in_unsigned 64 w' ∧
       pte_of w' = mk_pte true (leaf_type level) (pte_leaf_attr_lo (pte_of a))
         (pte_addr (pte_of pa)) 0 (pte_leaf_attr_hi (pte_of a))⌝ ∗
     if pte_valid (pte_of w) then ⌜r = bool_decide (pte_of w = pte_of w')⌝ ∗ p ↦ w
     else ⌜r = true⌝ ∗ p ↦ w' }}.
Proof.
  intros Hw. triple_start. iIntros "Hp".
  wp_call (kvm_set_valid_leaf_pte_spec p w pa a level) with "Hp". iIntros (r) "H".
  iExists (entry_word pa a (if level =? 3 then mask 1 1 else 0)).
  pose proof (entry_word_range pa a (level =? 3)) as Hr.
  iSplit; [iPureIntro; split; [done|]|].
  { rewrite entry_word_fields. unfold leaf_type. by destruct (level =? 3). }
  cbn [pte_valid pte_of]. destruct (Z.testbit w 0); [|done].
  iDestruct "H" as "[-> $]". iPureIntro. case_bool_decide as E.
  - by apply Z.eqb_eq, pte_of_inj.
  - apply Z.eqb_neq. by intros ->.
Qed.

(** [kvm_set_table_pte] over a valid entry links the child table: the new
    entry is a valid table entry for the physical page of the child and has no
    other bit set.  Over an invalid entry its [WARN_ON], which is an assertion
    of its argument, stops the program. *)
Theorem kvm_set_table_pte_correct `{!MmOps} p w child ops f :
  (pte_valid (pte_of w) = true →
     {{ p ↦ w ∗ virt_to_phys ops ↦ f }} kvm_set_table_pte p child ops
     {{ _, ∃ w', ⌜in_unsigned 64 w' ∧
          pte_of w' = mk_pte true 1 0 (pte_addr (pte_of (phys_of f child))) 0 0 ∧
          is_table (pte_of w') 0 = true⌝ ∗ p ↦ w' ∗ virt_to_phys ops ↦ f }}) ∧
  (pte_valid (pte_of w) = false →
     stops (p ↦ w ∗ virt_to_phys ops ↦ f)%I (kvm_set_table_pte p child ops) AssertionFailure).
Proof.
  split; [|apply kvm_set_table_pte_invalid]. intros Hw. triple_start. iIntros "H".
  wp_call (kvm_set_table_pte_valid p w child ops f Hw) with "H". iIntros (_) "[Hp $]".
  iExists _. iFrame. iPureIntro. pose proof (entry_word_range (phys_of f child) 0 true).
  by rewrite (entry_word_fields (phys_of f child) 0 true).
Qed.

(** C38. [hyp_map_set_prot_attr] refuses, without writing anything, mappings that
    cannot be read and executable mappings that can be written or are devices;
    for every other request it stores the attributes that grant exactly the
    permissions asked for: execute-never unless executable, read-write or
    read-only, the memory type, inner shareable, with the access flag; all bits
    outside of these fields are zero. *)
Theorem hyp_map_set_prot_attr_correct prot data a :
  {{ attr data ↦o a }} hyp_map_set_prot_attr prot data
  {{ r, if prot_refused (prot_of prot) then ⌜r = - EINVAL⌝ ∗ attr data ↦o a
        else ⌜r = 0⌝ ∗ ∃ w, ⌜attr_of w = prot_attr (prot_of prot) ∧
          Z.land w (Z.lor (mask 2 3) (Z.lor (mask 6 5) (mask 54 1))) = w⌝ ∗ attr data ↦ w }}.
Proof.
  triple_start. iIntros "H". wp_call (hyp_map_set_prot_attr_spec prot data a) with "H".
  iIntros (r) "H". destruct (prot_refused (prot_of prot)); [done|]. iDestruct "H" as "[$ H]".
  iExists _. iFrame. iPureIntro. split; [apply prot_word_fields|].
  by destruct (prot_of prot) as [[] [] ? []]; vm_compute.
Qed.

(** ** Witnesses *)

#[program, local] Instance linear_map : MmOps :=
  {| call_virt_to_phys f a := mret (u64 (a - f)); phys_of f a := u64 (a - f) |}.
Next Obligation. intros. by apply wrap_range. Qed.
Next Obligation. done. Qed.

Lemma field_get_prep_roundtrip_witness :
  (m ← GENMASK 9 8; f ← FIELD_PREP m 3; g ← FIELD_GET m (Z.lor 1029 f);
   r ← FIELD_GET m 1029; mret (g, r, Z.lor 1029 f)) ∅ = Ok (3, 0, 1029 + 3 * 2 ^ 8) ∅ ∧
  (∀ w, (m ← GENMASK 9 8; FIELD_GET m w) ∅ = Ok ((w / 2 ^ 8) mod 2 ^ (9 - 8 + 1)) ∅).
Proof. apply (field_get_prep_roundtrip 9 8 3 1029 ∅); [lia|lia|lia|reflexivity]. Defined.

Lemma kvm_set_valid_leaf_pte_correct_witness :
  {{ 64 ↦ 0 }} kvm_set_valid_leaf_pte 64 1052672 1796 3
  {{ r, ∃ w', ⌜in_unsigned 64 w' ∧ pte_of w' = mk_pte true 1 449 257 0 0⌝ ∗
     ⌜r = true⌝ ∗ 64 ↦ w' }}.
Proof. apply (kvm_set_valid_leaf_pte_correct 64 0 1052672 1796 3). split; done. Defined.

Lemma kvm_set_table_pte_correct_witness :
  ({{ 64 ↦ 1 ∗ virt_to_phys 72 ↦ 0 }} kvm_set_table_pte 64 8192 72
   {{ _, ∃ w', ⌜in_unsigned 64 w' ∧
        pte_of w' = mk_pte true 1 0 (pte_addr (pte_of (phys_of 0 8192))) 0 0 ∧
        is_table (pte_of w') 0 = true⌝ ∗ 64 ↦ w' ∗ virt_to_phys 72 ↦ 0 }}) ∧
  stops (64 ↦ 0 ∗ virt_to_phys 72 ↦ 0)%I (kvm_set_table_pte 64 8192 72) AssertionFailure.
Proof.
  split.
  - exact (proj1 (kvm_set_table_pte_correct 64 1 8192 72 0) eq_refl).
  - exact (proj2 (kvm_set_table_pte_correct 64 0 8192 72 0) eq_refl).
Defined.

End Pgtable.
