(* ===== verification/Talloc.v ===== *)
(** * The tutorial's allocator
    (src/tutorial/t04_alloc.c, talloc.h and talloc_internal.h)

    Freed blocks are kept on a linked list protected by a spinlock; [talloc]
    takes the first block that fits, whole or cut off its end, and spins when
    there is none.  [TallocInterface] is what talloc.h promises: the lists and
    trees of the tutorial are verified against it, and this allocator
    discharges it. *)
From S2P Require Import Prelude HeapLogic SpinLock.
From stdpp Require Import gmap list.
From iris.proofmode Require Import proofmode.
Import SpinLock.
#[local] Open Scope Z_scope.

(** ** The interface

    [ta_take size s] is the state after a block of [size] bytes is taken, if
    the allocator can serve it; [ta_give size s] the state after one is given
    back. *)
Class TallocInterface := {
  ta_state : Type;
  ta_take : Z → ta_state → option ta_state;
  ta_give : Z → ta_state → ta_state;
  arena : ta_state → hPropI;
  talloc : Z → M heap Z;
  tfree : Z → Z → M heap unit;
  talloc_spec size s s' :
    0 < size → (8 | size) → size + 16 < 2 ^ 64 → ta_take size s = Some s' →
    {{ arena s }} talloc size {{ p, raw p size ∗ arena s' }};
  tfree_spec size s p :
    0 < size → (8 | size) → size < 2 ^ 64 →
    {{ arena s ∗ raw p size }} tfree size p {{ _, arena (ta_give size s) }};
}.

Module Talloc.

(** ** The code *)

(** Members of [struct alloc_entry] and [struct alloc_state]. *)
Definition size (e : Z) : Z := e.
Definition next (e : Z) : Z := e + 8.
Definition sizeof_alloc_entry : Z := 16.
Definition lock (st : Z) : Z := st.
Definition data (st : Z) : Z := st + 8.

(** The address of the static [allocator_state]. *)
Class Globals := { allocator_state : Z }.

Section code.
Context `{!Globals}.

(** The inner loop of [talloc]: the block found, if any. *)
Fixpoint scan (fuel : nat) (sz prev : Z) : M heap (option Z) :=
  match fuel with
  | O => fail OutOfFuel
  | S fuel =>
      p ← load prev;
      if p =? NULL then mret None else
      cur ← load prev;
      csz ← load (size cur);
      if csz =? sz then
        n ← load (next cur);
        store prev n ;;
        sl_unlock (lock allocator_state) ;;
        mret (Some cur)
      else
      csz ← load (size cur);
      if u64 (sz + sizeof_alloc_entry) <=? csz then
        csz ← load (size cur);
        store (size cur) (u64 (csz - sz)) ;;
        csz ← load (size cur);
        let ret := cur + csz in
        sl_unlock (lock allocator_state) ;;
        mret (Some ret)
      else scan fuel sz (next cur)
  end.

(** Without a block that fits the outer loop searches the same list again, and
    no other thread is there to give a block back. *)
Definition talloc (sz : Z) : M heap Z :=
  sl_lock (lock allocator_state) ;;
  r ← with_fuel (λ n, scan n sz (data allocator_state));
  match r with
  | Some p => mret p
  | None => sl_unlock (lock allocator_state) ;; fail NonTermination
  end.

Definition tfree (sz ptr : Z) : M heap unit :=
  if sz <? sizeof_alloc_entry then mret tt else
  let entry := ptr in
  store (size entry) sz ;;
  sl_lock (lock allocator_state) ;;
  d ← load (data allocator_state);
  store (next entry) d ;;
  store (data allocator_state) entry ;;
  sl_unlock (lock allocator_state).

Definition init_talloc : M heap unit :=
  sl_init (lock allocator_state) ;;
  store (data allocator_state) NULL.

Definition talloc_array (sz n : Z) : M heap Z := talloc (u64 (n * sz)).
Definition tfree_array (sz n ptr : Z) : M heap unit := tfree (u64 (n * sz)) ptr.
End code.

Arguments size : simpl never.
Arguments next : simpl never.
Arguments lock : simpl never.
Arguments data : simpl never.

(** ** The free list *)

Definition block_ok (s : Z) : Prop := 16 ≤ s < 2 ^ 64 ∧ (8 | s).

(** The free blocks, by their sizes, linked from the pointer at [place]. *)
Fixpoint free_list (place : Z) (ss : list Z) : hProp :=
  match ss with
  | [] => place ↦ NULL
  | s :: ss =>
      ∃ e, place ↦ e ∗ ⌜block_ok s⌝ ∗ size e ↦ s ∗ free_list (next e) ss ∗ raw (e + 16) (s - 16)
  end%I.

(** First fit: a block of the very size, or the end of one that leaves room for
    a header. *)
Fixpoint take_block (sz : Z) (ss : list Z) : option (list Z) :=
  match ss with
  | [] => None
  | s :: ss =>
      if s =? sz then Some ss
      else if sz + 16 <=? s then Some (s - sz :: ss)
      else (s ::.) <$> take_block sz ss
  end.

Definition give_block (sz : Z) (ss : list Z) : list Z := if sz <? 16 then ss else sz :: ss.

Section specs.
Context `{!Globals}.

Definition arena (ss : list Z) : hPropI :=
  (lock allocator_state ↦ 0 ∗ free_list (data allocator_state) ss)%I.

(** The loop meets a distinct pointer in every turn. *)
Lemma free_list_cells place ss : free_list place ss ⊢ at_least (length ss).
Proof.
  iIntros "H". iInduction ss as [|s ss] "IH" forall (place); simpl.
  - iApply at_least_0.
  - iDestruct "H" as (e) "(Hp & _ & _ & H & _)". iApply (at_least_add 1). iSplitL "Hp".
    + iApply (at_least_cell with "Hp").
    + iApply ("IH" with "H").
Qed.

(** A free list can be hung at another pointer. *)
Lemma free_list_open place ss :
  free_list place ss ⊢ ∃ x, place ↦ x ∗ (∀ q, q ↦ x -∗ free_list q ss).
Proof.
  destruct ss as [|s ss]; simpl.
  - iIntros "H". iExists NULL. iFrame. by iIntros (q) "H".
  - iIntros "(%e & Hp & % & H)". iExists e. iFrame. iIntros (q) "Hq". iExists e. by iFrame.
Qed.

Lemma scan_spec sz n place ss :
  0 < sz → (8 | sz) → sz + 16 < 2 ^ 64 → (length ss < n)%nat →
  {{ free_list place ss ∗ lock allocator_state ↦ 1 }} scan n sz place
  {{ r, match take_block sz ss with
        | Some ss' => ∃ p, ⌜r = Some p⌝ ∗ raw p sz ∗ free_list place ss' ∗ lock allocator_state ↦ 0
        | None => ⌜r = None⌝ ∗ free_list place ss ∗ lock allocator_state ↦ 1
        end }}.
Proof.
  intros Hpos H8 Hsz. revert place ss. induction n as [|n IH]; intros place ss Hn; [lia|].
  triple_start. iIntros "[H Hl]". destruct ss as [|s ss]; cbn [scan free_list take_block].
  { wp_load. wp_rets. by iFrame. }
  iDestruct "H" as (e) "(Hp & [%Hs %Hs8] & Hsz & H & Hraw)". wp_load.
  iDestruct (pointsto_not_null with "Hsz") as %He. rewrite (proj2 (Z.eqb_neq e NULL)) //.
  wp_load. wp_load. destruct (Z.eqb_spec s sz) as [->|Hne].
  - (* the whole block *)
    iDestruct (free_list_open with "H") as (x) "[Hn H]". wp_load. wp_store.
    wp_call (sl_unlock_spec _) with "Hl". iIntros (_) "Hl". wp_rets. iExists e. iSplit; [done|].
    iSplitR "Hp H Hl"; [|iFrame; by iApply "H"].
    rewrite (raw_words e sz); [|lia]. iFrame.
  - wp_load. rewrite wrap_small; [|unfold in_unsigned, sizeof_alloc_entry; lia].
    unfold sizeof_alloc_entry. destruct (Z.leb_spec (sz + 16) s) as [Hfit|Hfit].
    + wp_load. wp_store. wp_load. rewrite wrap_small; [|unfold in_unsigned; lia].
      wp_call (sl_unlock_spec _) with "Hl". iIntros (_) "Hl". wp_rets. iExists (e + (s - sz)).
      assert (8 | s - 16 - sz) by (apply Z.divide_sub_r; [apply Z.divide_sub_r; [done|by exists 2]|done]).
      replace (s - 16) with ((s - 16 - sz) + sz) by lia. rewrite raw_split; [|lia|lia|done].
      iDestruct "Hraw" as "[Hraw Hret]". iSplit; [done|].
      replace (e + 16 + (s - 16 - sz)) with (e + (s - sz)) by lia. iFrame.
      replace (s - sz - 16) with (s - 16 - sz) by lia. iFrame. iPureIntro.
      split; [lia|]. by apply Z.divide_sub_r.
    + cbn [fmap option_fmap option_map]. assert (length ss < n)%nat as Hn' by (simpl in Hn; lia).
      wp_call (IH (next e) ss Hn') with "[$H $Hl]". iIntros (r) "H".
      destruct (take_block sz ss) as [ss'|]; simpl.
      * iDestruct "H" as (p) "($ & $ & H & $)". iExists e. by iFrame.
      * iDestruct "H" as "($ & H & $)". iExists e. by iFrame.
Qed.

Lemma arena_talloc_spec sz ss ss' :
  0 < sz → (8 | sz) → sz + 16 < 2 ^ 64 → take_block sz ss = Some ss' →
  {{ arena ss }} talloc sz {{ p, raw p sz ∗ arena ss' }}.
Proof.
  intros Hpos H8 Hsz Ht. triple_start. iIntros "[Hl H]". unfold talloc.
  wp_call (sl_lock_spec _) with "Hl". iIntros (_) "Hl". wp_focus. iCombine "H Hl" as "H".
  iApply (wp_wand with "[H]").
  { iApply (triple_with_fuel (length ss) with "H").
    - iIntros "[H _]". by iApply free_list_cells.
    - intros n Hn. by apply (scan_spec sz n _ ss). }
  iIntros (r) "H". rewrite Ht. iDestruct "H" as (p) "(-> & Hp & H & Hl)". wp_rets. iFrame.
Qed.

Lemma arena_tfree_spec sz ss p :
  0 < sz → (8 | sz) → sz < 2 ^ 64 →
  {{ arena ss ∗ raw p sz }} tfree sz p {{ _, arena (give_block sz ss) }}.
Proof.
  intros Hpos H8 Hsz. triple_start. iIntros "[[Hl H] Hraw]". unfold tfree, give_block.
  change sizeof_alloc_entry with 16. destruct (Z.ltb_spec sz 16); [wp_rets; iFrame|].
  rewrite raw_words; [|done]. iDestruct "Hraw" as "([% Hs] & [% Hn] & Hraw)".
  wp_store. wp_call (sl_lock_spec _) with "Hl". iIntros (_) "Hl".
  iDestruct (free_list_open with "H") as (x) "[Hd H]". wp_load. wp_store. wp_store.
  wp_call (sl_unlock_spec _) with "Hl". iIntros (_) "Hl". iFrame "Hl". iExists p. iFrame.
  iSplit; [by iPureIntro|]. by iApply "H".
Qed.

Lemma arena_init_spec :
  {{ lock allocator_state ↦? ∗ data allocator_state ↦? }} init_talloc {{ _, arena [] }}.
Proof.
  triple_start. iIntros "[Hl [% Hd]]". unfold init_talloc. wp_call (sl_init_spec _) with "Hl".
  iIntros (_) "Hl". wp_store. iFrame.
Qed.

(** When no block fits, the search never ends. *)
Lemma talloc_spins sz ss :
  0 < sz → (8 | sz) → sz + 16 < 2 ^ 64 → take_block sz ss = None →
  stops (arena ss) (talloc sz) NonTermination.
Proof.
  intros Hpos H8 Hsz Ht. unfold talloc.
  apply (stops_bind _ _ (λ _, free_list (data allocator_state) ss ∗ lock allocator_state ↦ 1)%I).
  { triple_start. iIntros "[Hl H]". wp_call (sl_lock_spec _) with "Hl". iIntros (_) "$". done. }
  intros _. eapply stops_bind.
  { apply (triple_with_fuel (length ss)).
    - iIntros "[H _]". by iApply free_list_cells.
    - intros n Hn. by apply (scan_spec sz n _ ss). }
  intros r. rewrite Ht. apply stops_pure. intros ->.
  apply (stops_bind _ _ (λ _, True)%I); [|by intros _ h hf].
  triple_start. iIntros "[_ Hl]". by wp_call (sl_unlock_spec _) with "Hl"; iIntros.
Qed.

(** [talloc] is first fit: it hands out memory of the size asked for, which
    is a whole free block of that size or the end of the first larger one that
    still has room for a header, and leaves the other free blocks alone; when no
    block fits it spins forever, holding nothing.  [tfree] puts the memory back
    in front, unless it is too small for a header. *)
Theorem talloc_first_fit sz ss :
  0 < sz → (8 | sz) → sz + 16 < 2 ^ 64 →
  (match take_block sz ss with
   | Some ss' => {{ arena ss }} talloc sz {{ p, raw p sz ∗ arena ss' }}
   | None => stops (arena ss) (talloc sz) NonTermination
   end) ∧
  ∀ p, {{ arena ss ∗ raw p sz }} tfree sz p {{ _, arena (give_block sz ss) }}.
Proof.
  intros Hpos H8 Hsz. split.
  - destruct (take_block sz ss) as [ss'|] eqn:Ht; [by apply arena_talloc_spec|by apply talloc_spins].
  - intros p. apply arena_tfree_spec; [done..|lia].
Qed.

#[export] Instance talloc_interface : TallocInterface := {|
  ta_take := take_block; ta_give := give_block;
  Talloc.talloc_spec := arena_talloc_spec; Talloc.tfree_spec := arena_tfree_spec |}.
End specs.

Lemma talloc_first_fit_witness :
  let G : Globals := {| allocator_state := 64 |} in
  ({{ arena [32; 24; 96] }} talloc 24 {{ p, raw p 24 ∗ arena [32; 96] }}) ∧
  ∀ p, {{ arena [32; 24; 96] ∗ raw p 24 }} tfree 24 p {{ _, arena [24; 32; 24; 96] }}.
Proof. intros G. apply (talloc_first_fit 24 [32; 24; 96]); [done|by exists 3|done]. Defined.
End Talloc.
