(* ===== verification/TutorialList.v ===== *)
(** * The tutorial's linked lists and its main program
    (src/tutorial/t03_list.c, t05_main.c, src/examples/latch.c)

    A [struct list] at [p] keeps the element at [p] and the rest at [p + 8].
    Nodes come from the allocator of talloc.h, through its interface. *)
From S2P Require Import Prelude HeapLogic SpinLock Talloc.
From stdpp Require Import gmap list.
From iris.proofmode Require Import proofmode.
#[local] Open Scope Z_scope.

Module TutorialList.

(** ** The code *)

Definition head (p : Z) : Z := p.
Definition tail (p : Z) : Z := p + 8.
Definition sizeof_list : Z := 16.

Section code.
Context `{!TallocInterface}.

Definition init : Z := NULL.

Definition is_empty (l : Z) : M heap bool :=
  p ← load l;
  mret (p =? NULL).

Definition push (p e : Z) : M heap Z :=
  node ← talloc sizeof_list;
  store (head node) e ;;
  store (tail node) p ;;
  mret node.

Definition pop (p : Z) : M heap Z :=
  v ← load p;
  if v =? NULL then mret NULL else
  node ← load p;
  ret ← load (head node);
  t ← load (tail node);
  store p t ;;
  tfree sizeof_list node ;;
  mret ret.

Fixpoint reverse_loop (fuel : nat) (w p : Z) : M heap Z :=
  match fuel with
  | O => fail OutOfFuel
  | S fuel =>
      if p =? NULL then mret w else
      t ← load (tail p);
      store (tail p) w ;;
      reverse_loop fuel p t
  end.
Definition reverse (p : Z) : M heap Z := with_fuel (λ n, reverse_loop n NULL p).

Fixpoint length_loop (fuel : nat) (p len : Z) : M heap Z :=
  match fuel with
  | O => fail OutOfFuel
  | S fuel =>
      v ← load p;
      if v =? NULL then mret len else
      v ← load p;
      length_loop fuel (tail v) (u64 (len + 1))
  end.
Definition length (p : Z) : M heap Z := with_fuel (λ n, length_loop n p 0).

Fixpoint length_val_rec_ (fuel : nat) (p : Z) : M heap Z :=
  match fuel with
  | O => fail OutOfFuel
  | S fuel =>
      if p =? NULL then mret 0 else
      t ← load (tail p);
      r ← length_val_rec_ fuel t;
      mret (u64 (r + 1))
  end.
Definition length_val_rec (p : Z) : M heap Z := with_fuel (λ n, length_val_rec_ n p).

Fixpoint length_val_loop (fuel : nat) (p len : Z) : M heap Z :=
  match fuel with
  | O => fail OutOfFuel
  | S fuel =>
      if p =? NULL then mret len else
      t ← load (tail p);
      length_val_loop fuel t (u64 (len + 1))
  end.
Definition length_val (p : Z) : M heap Z := with_fuel (λ n, length_val_loop n p 0).

Fixpoint append_loop (fuel : nat) (end_ l2 : Z) : M heap unit :=
  match fuel with
  | O => fail OutOfFuel
  | S fuel =>
      v ← load end_;
      if v =? NULL then store end_ l2 else
      v ← load end_;
      append_loop fuel (tail v) l2
  end.
Definition append (l1 l2 : Z) : M heap unit := with_fuel (λ n, append_loop n l1 l2).

Fixpoint member_loop (fuel : nat) (prev k : Z) : M heap bool :=
  match fuel with
  | O => fail OutOfFuel
  | S fuel =>
      v ← load prev;
      if v =? NULL then mret false else
      cur ← load prev;
      h ← load (head cur);
      x ← load h;
      if x =? k then mret true else member_loop fuel (tail cur) k
  end.
Definition member (p k : Z) : M heap bool := with_fuel (λ n, member_loop n p k).

Fixpoint rev_append_loop (fuel : nat) (cur l2 : Z) : M heap unit :=
  match fuel with
  | O => fail OutOfFuel
  | S fuel =>
      if cur =? NULL then mret tt else
      cur_tail ← load (tail cur);
      v ← load l2;
      store (tail cur) v ;;
      store l2 cur ;;
      rev_append_loop fuel cur_tail l2
  end.
Definition rev_append (l1 l2 : Z) : M heap unit := with_fuel (λ n, rev_append_loop n l1 l2).

(** [list] is the address of the local variable. *)
Definition test (list : Z) : M heap unit :=
  store list init ;;
  elem1 ← talloc 8;
  elem2 ← talloc 8;
  elem3 ← talloc 8;
  b ← is_empty list;
  c_assert b ;;
  store elem1 1 ;;
  store elem2 2 ;;
  store elem3 3 ;;
  l ← load list; l ← push l elem1; store list l ;;
  l ← load list; l ← push l elem2; store list l ;;
  l ← load list; l ← push l elem3; store list l ;;
  b ← member list 1;
  c_assert b ;;
  l ← load list; l ← reverse l; store list l ;;
  b ← member list 1;
  c_assert b ;;
  elem1 ← pop list;
  elem2 ← pop list;
  elem3 ← pop list;
  b ← is_empty list;
  c_assert b ;;
  v ← load elem1; c_assert (v =? 1) ;;
  v ← load elem2; c_assert (v =? 2) ;;
  v ← load elem3; c_assert (v =? 3) ;;
  tfree 8 elem1 ;;
  tfree 8 elem2 ;;
  tfree 8 elem3.
End code.

Arguments head : simpl never.
Arguments tail : simpl never.

(** ** Lists in memory *)

(** The nodes from the pointer [p] on, and those from the pointer at [place]. *)
Fixpoint list_at (p : Z) (xs : list Z) : hProp :=
  match xs with
  | [] => ⌜p = NULL⌝
  | x :: xs => ∃ q, head p ↦ x ∗ tail p ↦ q ∗ list_at q xs
  end%I.
Definition list_in (place : Z) (xs : list Z) : hProp := (∃ p, place ↦ p ∗ list_at p xs)%I.

(** Elements that point to the values [vs]. *)
Definition values (xs vs : list Z) : hPropI := ([∗ list] x;v ∈ xs;vs, x ↦ v)%I.

Lemma list_at_null p xs : list_at p xs ⊢ ⌜p = NULL ↔ xs = []⌝.
Proof.
  destruct xs as [|x xs]; simpl; [by iIntros (->)|]. iIntros "(%q & H & _)".
  iDestruct (pointsto_not_null with "H") as %?. iPureIntro. naive_solver.
Qed.

Lemma list_at_cells p xs : list_at p xs ⊢ at_least (List.length xs).
Proof.
  iIntros "H". iInduction xs as [|x xs] "IH" forall (p); simpl; [iApply at_least_0|].
  iDestruct "H" as (q) "(_ & Ht & H)". iApply (at_least_add 1). iSplitL "Ht".
  - iApply (at_least_cell with "Ht").
  - iApply ("IH" with "H").
Qed.

(** Case analysis on a list whose pointer was compared with null. *)
Ltac list_cases p xs H :=
  let Hn := fresh "Hn" in
  iDestruct (list_at_null p xs with H) as %Hn;
  destruct (Z.eqb_spec p NULL) as [?|?];
  [assert (xs = []) as -> by (by apply Hn)
  |destruct xs as [|? xs]; [by destruct Hn as [_ Hn]; specialize (Hn eq_refl)|]].

Section specs.
Implicit Types (p q w x : Z) (xs ys vs : list Z).

Lemma is_empty_spec l xs :
  {{ list_in l xs }} is_empty l {{ b, ⌜b = bool_decide (xs = [])⌝ ∗ list_in l xs }}.
Proof.
  triple_start. iIntros "(%p & Hl & H)". unfold is_empty. wp_load.
  iDestruct (list_at_null with "H") as %Hn. iSplit; [|iExists p; iFrame].
  iPureIntro. destruct (Z.eqb_spec p NULL); case_bool_decide; naive_solver.
Qed.

Lemma reverse_loop_spec n w ys p xs :
  (List.length xs < n)%nat →
  {{ list_at w ys ∗ list_at p xs }} reverse_loop n w p {{ r, list_at r (rev xs ++ ys) }}.
Proof.
  revert w ys p xs. induction n as [|n IH]; intros w ys p xs Hn; [lia|].
  triple_start. iIntros "[Hw H]". cbn [reverse_loop]. list_cases p xs "H".
  - wp_rets. by iFrame.
  - cbn [list_at]. iDestruct "H" as (q) "(Hh & Ht & H)". wp_load. wp_store.
    assert (List.length xs < n)%nat as Hl by (simpl in Hn; lia).
    wp_call (IH p (z :: ys) q xs Hl) with "[$H Hw Hh Ht]".
    { simpl. iExists w. iFrame. }
    iIntros (r) "H". by rewrite /= -assoc_L.
Qed.

Lemma reverse_spec p xs : {{ list_at p xs }} reverse p {{ r, list_at r (rev xs) }}.
Proof.
  apply (triple_with_fuel (List.length xs)); [by iApply list_at_cells|]. intros n Hn.
  triple_start. iIntros "H". wp_call (reverse_loop_spec n NULL [] p xs Hn) with "[$H]"; [done|].
  iIntros (r) "H". by rewrite app_nil_r.
Qed.

Lemma rev_append_loop_spec n cur xs l2 ys :
  (List.length xs < n)%nat →
  {{ list_at cur xs ∗ list_in l2 ys }} rev_append_loop n cur l2 {{ _, list_in l2 (rev xs ++ ys) }}.
Proof.
  revert cur xs ys. induction n as [|n IH]; intros cur xs ys Hn; [lia|].
  triple_start. iIntros "[H (%w & Hl & Hw)]". cbn [rev_append_loop]. list_cases cur xs "H".
  - wp_rets. iExists w. iFrame.
  - cbn [list_at]. iDestruct "H" as (q) "(Hh & Ht & H)". wp_load. wp_load. wp_store. wp_store.
    assert (List.length xs < n)%nat as Hlen by (simpl in Hn; lia).
    wp_call (IH q xs (z :: ys) Hlen) with "[$H Hl Hw Hh Ht]".
    { iExists cur. iFrame. }
    iIntros (r) "H". by rewrite /= -assoc_L.
Qed.

Lemma append_loop_spec n place xs l2 ys :
  (List.length xs < n)%nat →
  {{ list_in place xs ∗ list_at l2 ys }} append_loop n place l2 {{ _, list_in place (xs ++ ys) }}.
Proof.
  revert place xs. induction n as [|n IH]; intros place xs Hn; [lia|].
  triple_start. iIntros "[(%p & Hp & H) Hy]". cbn [append_loop]. wp_load. list_cases p xs "H".
  - wp_store. iExists l2. iFrame.
  - wp_load. cbn [list_at]. iDestruct "H" as (q) "(Hh & Ht & H)".
    assert (List.length xs < n)%nat as Hlen by (simpl in Hn; lia).
    wp_call (IH (tail p) xs Hlen) with "[$Hy Ht H]"; [iExists q; iFrame|].
    iIntros (_) "(%q' & Ht & H)". iExists p. iFrame.
Qed.

Lemma u64_count k n : u64 (u64 (k + Z.of_nat n) + 1) = u64 (k + Z.of_nat (S n)).
Proof. unfold wrap. rewrite Zplus_mod_idemp_l. f_equal. lia. Qed.

Lemma length_loop_spec n place xs k :
  (List.length xs < n)%nat →
  {{ list_in place xs }} length_loop n place (u64 k)
  {{ r, ⌜r = u64 (k + Z.of_nat (List.length xs))⌝ ∗ list_in place xs }}.
Proof.
  revert place xs k. induction n as [|n IH]; intros place xs k Hn; [lia|].
  triple_start. iIntros "(%p & Hp & H)". cbn [length_loop]. wp_load. list_cases p xs "H".
  - wp_rets. rewrite Z.add_0_r. iSplit; [done|]. iExists p. iFrame.
  - wp_load. cbn [list_at]. iDestruct "H" as (q) "(Hh & Ht & H)".
    assert (List.length xs < n)%nat as Hlen by (simpl in Hn; lia).
    pose proof (u64_count k 0) as Hk. rewrite Z.add_0_r in Hk. rewrite Hk.
    wp_call (IH (tail p) xs (k + 1) Hlen) with "[Ht H]"; [iExists q; iFrame|].
    iIntros (r) "[-> (%q' & Ht & H)]". iSplit; [iPureIntro; f_equal; simpl; lia|].
    iExists p. iFrame.
Qed.

Lemma length_val_loop_spec n p xs k :
  (List.length xs < n)%nat →
  {{ list_at p xs }} length_val_loop n p (u64 k)
  {{ r, ⌜r = u64 (k + Z.of_nat (List.length xs))⌝ ∗ list_at p xs }}.
Proof.
  revert p xs k. induction n as [|n IH]; intros p xs k Hn; [lia|].
  triple_start. iIntros "H". cbn [length_val_loop]. list_cases p xs "H".
  - wp_rets. rewrite Z.add_0_r. by iFrame.
  - cbn [list_at]. iDestruct "H" as (q) "(Hh & Ht & H)". wp_load.
    assert (List.length xs < n)%nat as Hlen by (simpl in Hn; lia).
    pose proof (u64_count k 0) as Hk. rewrite Z.add_0_r in Hk. rewrite Hk.
    wp_call (IH q xs (k + 1) Hlen) with "H".
    iIntros (r) "[-> H]". iSplit; [iPureIntro; f_equal; simpl; lia|]. iExists q. iFrame.
Qed.

Lemma length_val_rec_spec n p xs :
  (List.length xs < n)%nat →
  {{ list_at p xs }} length_val_rec_ n p
  {{ r, ⌜r = u64 (Z.of_nat (List.length xs))⌝ ∗ list_at p xs }}.
Proof.
  revert p xs. induction n as [|n IH]; intros p xs Hn; [lia|].
  triple_start. iIntros "H". cbn [length_val_rec_]. list_cases p xs "H".
  - wp_rets. by iFrame.
  - cbn [list_at]. iDestruct "H" as (q) "(Hh & Ht & H)". wp_load.
    assert (List.length xs < n)%nat as Hlen by (simpl in Hn; lia).
    wp_call (IH q xs Hlen) with "H". iIntros (r) "[-> H]". wp_rets.
    iSplit; [iPureIntro; apply (u64_count 0)|]. iExists q. iFrame.
Qed.

Lemma list_member_loop_spec n place xs vs k :
  (List.length xs < n)%nat →
  {{ list_in place xs ∗ values xs vs }} member_loop n place k
  {{ b, ⌜b = bool_decide (k ∈ vs)⌝ ∗ list_in place xs ∗ values xs vs }}.
Proof.
  revert place xs vs. induction n as [|n IH]; intros place xs vs Hn; [lia|].
  triple_start. iIntros "[(%p & Hp & H) Hv]". cbn [member_loop]. wp_load. list_cases p xs "H".
  - wp_rets. iDestruct (big_sepL2_nil_inv_l with "Hv") as %->. iSplit; [done|]. iFrame.
  - wp_load. cbn [list_at]. iDestruct "H" as (q) "(Hh & Ht & H)". wp_load.
    iDestruct (big_sepL2_cons_inv_l with "Hv") as (v vs' ->) "[Hx Hv]". wp_load.
    destruct (Z.eqb_spec v k) as [->|Hne].
    { wp_rets. iSplit; [iPureIntro; by rewrite bool_decide_true; [|left]|].
      iSplitR "Hx Hv"; [iExists p; iFrame|]. rewrite /values big_sepL2_cons. iFrame. }
    assert (List.length xs < n)%nat as Hlen by (simpl in Hn; lia).
    wp_call (IH (tail p) xs vs' Hlen) with "[$Hv Ht H]"; [iExists q; iFrame|].
    iIntros (b) "(-> & (%q' & Ht & H) & Hv)". iSplit.
    { iPureIntro. apply bool_decide_ext. rewrite elem_of_cons. naive_solver. }
    iSplitR "Hx Hv"; [iExists p; iFrame|]. rewrite /values big_sepL2_cons. iFrame.
Qed.

(** The whole functions, with the fuel of their memory. *)
Lemma list_in_cells place xs : list_in place xs ⊢ at_least (List.length xs).
Proof. iIntros "(%p & _ & H)". by iApply list_at_cells. Qed.

Lemma rev_append_spec l1 xs l2 ys :
  {{ list_at l1 xs ∗ list_in l2 ys }} rev_append l1 l2 {{ _, list_in l2 (rev xs ++ ys) }}.
Proof.
  apply (triple_with_fuel (List.length xs)); [|intros; by apply rev_append_loop_spec].
  iIntros "[H _]". by iApply list_at_cells.
Qed.

Lemma append_spec l1 xs l2 ys :
  {{ list_in l1 xs ∗ list_at l2 ys }} append l1 l2 {{ _, list_in l1 (xs ++ ys) }}.
Proof.
  apply (triple_with_fuel (List.length xs)); [|intros; by apply append_loop_spec].
  iIntros "[H _]". by iApply list_in_cells.
Qed.

Lemma length_spec p xs :
  {{ list_in p xs }} length p {{ r, ⌜r = u64 (Z.of_nat (List.length xs))⌝ ∗ list_in p xs }}.
Proof.
  apply (triple_with_fuel (List.length xs)); [by iApply list_in_cells|].
  intros n Hn. apply (length_loop_spec n p xs 0 Hn).
Qed.

Lemma length_val_spec p xs :
  {{ list_at p xs }} length_val p {{ r, ⌜r = u64 (Z.of_nat (List.length xs))⌝ ∗ list_at p xs }}.
Proof.
  apply (triple_with_fuel (List.length xs)); [by iApply list_at_cells|].
  intros n Hn. apply (length_val_loop_spec n p xs 0 Hn).
Qed.

Lemma length_val_rec_whole p xs :
  {{ list_at p xs }} length_val_rec p
  {{ r, ⌜r = u64 (Z.of_nat (List.length xs))⌝ ∗ list_at p xs }}.
Proof.
  apply (triple_with_fuel (List.length xs)); [by iApply list_at_cells|].
  intros n Hn. by apply length_val_rec_spec.
Qed.

Lemma member_spec p xs vs k :
  {{ list_in p xs ∗ values xs vs }} member p k
  {{ b, ⌜b = bool_decide (k ∈ vs)⌝ ∗ list_in p xs ∗ values xs vs }}.
Proof.
  apply (triple_with_fuel (List.length xs)); [|intros; by apply list_member_loop_spec].
  iIntros "[H _]". by iApply list_in_cells.
Qed.

Section allocation.
Context `{!TallocInterface}.

Lemma push_spec p xs e s s' :
  ta_take 16 s = Some s' →
  {{ list_at p xs ∗ arena s }} push p e {{ r, list_at r (e :: xs) ∗ arena s' }}.
Proof.
  intros Ht. triple_start. iIntros "[H Ha]". unfold push.
  wp_call (talloc_spec 16 s s' ltac:(done) ltac:(by exists 2) ltac:(done) Ht) with "Ha".
  iIntros (r) "[Hr Ha]". rewrite raw_words //. iDestruct "Hr" as "([% H1] & [% H2] & _)".
  wp_store. wp_store. wp_rets. iFrame.
Qed.

Lemma pop_spec l xs s :
  {{ list_in l xs ∗ arena s }} pop l
  {{ r, match xs with
        | [] => ⌜r = NULL⌝ ∗ list_in l [] ∗ arena s
        | x :: xs => ⌜r = x⌝ ∗ list_in l xs ∗ arena (ta_give 16 s)
        end }}.
Proof.
  triple_start. iIntros "[(%p & Hp & H) Ha]". unfold pop. wp_load. list_cases p xs "H".
  - wp_rets. iSplit; [done|]. iFrame.
  - wp_load. cbn [list_at]. iDestruct "H" as (q) "(Hh & Ht & H)". wp_load. wp_load. wp_store.
    wp_call (tfree_spec 16 s p ltac:(done) ltac:(by exists 2) ltac:(done)) with "[$Ha Hh Ht]".
    { rewrite raw_words //. iSplitL "Hh"; [by iExists _|]. iSplitL "Ht"; [by iExists _|].
      by rewrite /raw. }
    iIntros (_) "Ha". wp_rets. by iFrame.
Qed.

(** What [test] does to the allocator, if it can serve every request. *)
Definition test_arena (s : ta_state) : option ta_state :=
  s ← ta_take 8 s; s ← ta_take 8 s; s ← ta_take 8 s;
  s ← ta_take 16 s; s ← ta_take 16 s; s ← ta_take 16 s;
  Some (ta_give 8 (ta_give 8 (ta_give 8 (ta_give 16 (ta_give 16 (ta_give 16 s)))))).

Lemma talloc_word_spec s s' :
  ta_take 8 s = Some s' → {{ arena s }} talloc 8 {{ p, p ↦? ∗ arena s' }}.
Proof.
  intros Ht. triple_start. iIntros "H".
  wp_call (talloc_spec 8 s s' ltac:(done) ltac:(by exists 1) ltac:(done) Ht) with "H".
  iIntros (p) "[Hp $]". rewrite raw_word //. by iDestruct "Hp" as "[$ _]".
Qed.

Lemma tfree_word_spec s p v : {{ arena s ∗ p ↦ v }} tfree 8 p {{ _, arena (ta_give 8 s) }}.
Proof.
  triple_start. iIntros "[Ha Hp]".
  wp_call (tfree_spec 8 s p ltac:(done) ltac:(by exists 1) ltac:(done)) with "[$Ha Hp]".
  { rewrite raw_word //. iSplitL; [by iExists _|]. by rewrite /raw. }
  by iIntros.
Qed.

(** Push and reverse through the variable that holds the list. *)
Lemma wp_push_at l xs e s s' (k : M heap unit) Φ :
  ta_take 16 s = Some s' →
  list_in l xs -∗ arena s -∗ (list_in l (e :: xs) -∗ arena s' -∗ wp k Φ) -∗
  wp (load l) (λ p, wp (p ← push p e; store l p ;; k) Φ).
Proof.
  iIntros (Ht) "(%p & Hl & H) Ha Hk". wp_load.
  wp_call (push_spec p xs e s s' Ht) with "[$H $Ha]". iIntros (r) "[H Ha]". wp_store.
  iApply ("Hk" with "[Hl H] Ha"). iFrame.
Qed.

Lemma wp_reverse_at l xs (k : M heap unit) Φ :
  list_in l xs -∗ (list_in l (rev xs) -∗ wp k Φ) -∗
  wp (load l) (λ p, wp (p ← reverse p; store l p ;; k) Φ).
Proof.
  iIntros "(%p & Hl & H) Hk". wp_load. wp_call (reverse_spec p xs) with "H". iIntros (r) "H".
  wp_store. iApply "Hk". iFrame.
Qed.

Lemma test_spec l s s' :
  test_arena s = Some s' → {{ l ↦? ∗ arena s }} test l {{ _, l ↦ NULL ∗ arena s' }}.
Proof.
  unfold test_arena. intros Hs.
  apply bind_Some in Hs as (s1 & H1 & Hs). apply bind_Some in Hs as (s2 & H2 & Hs).
  apply bind_Some in Hs as (s3 & H3 & Hs). apply bind_Some in Hs as (s4 & H4 & Hs).
  apply bind_Some in Hs as (s5 & H5 & Hs). apply bind_Some in Hs as (s6 & H6 & Hs).
  injection Hs as <-. triple_start. iIntros "[[% Hl] Ha]". unfold test. wp_store.
  wp_call (talloc_word_spec s s1 H1) with "Ha". iIntros (e1) "[[% H1] Ha]".
  wp_call (talloc_word_spec s1 s2 H2) with "Ha". iIntros (e2) "[[% H2] Ha]".
  wp_call (talloc_word_spec s2 s3 H3) with "Ha". iIntros (e3) "[[% H3] Ha]".
  iAssert (list_in l []) with "[Hl]" as "Hl"; [iExists NULL; by iFrame|].
  wp_call (is_empty_spec l []) with "Hl". iIntros (b) "[-> Hl]". wp_rets.
  wp_store. wp_store. wp_store.
  wp_focus. iApply (wp_push_at l [] e1 s3 s4 _ _ H4 with "Hl Ha"). iIntros "Hl Ha".
  wp_focus. iApply (wp_push_at l [e1] e2 s4 s5 _ _ H5 with "Hl Ha"). iIntros "Hl Ha".
  wp_focus. iApply (wp_push_at l [e2; e1] e3 s5 s6 _ _ H6 with "Hl Ha"). iIntros "Hl Ha".
  iAssert (values [e3; e2; e1] [3; 2; 1]) with "[H1 H2 H3]" as "Hv"; [rewrite /values /=; by iFrame|].
  wp_call (member_spec l [e3; e2; e1] [3; 2; 1] 1) with "[$Hl $Hv]".
  iIntros (b) "(-> & Hl & Hv)". wp_rets.
  wp_focus. iApply (wp_reverse_at l [e3; e2; e1] with "Hl"). iIntros "Hl".
  iAssert (values [e1; e2; e3] [1; 2; 3]) with "[Hv]" as "Hv".
  { rewrite /values /=. iDestruct "Hv" as "($ & $ & $ & _)". }
  wp_call (member_spec l [e1; e2; e3] [1; 2; 3] 1) with "[$Hl $Hv]".
  iIntros (b) "(-> & Hl & Hv)". wp_rets.
  wp_call (pop_spec l [e1; e2; e3] s6) with "[$Hl $Ha]". iIntros (x) "(-> & Hl & Ha)".
  wp_call (pop_spec l [e2; e3] _) with "[$Hl $Ha]". iIntros (x) "(-> & Hl & Ha)".
  wp_call (pop_spec l [e3] _) with "[$Hl $Ha]". iIntros (x) "(-> & Hl & Ha)".
  wp_call (is_empty_spec l []) with "Hl". iIntros (b) "[-> Hl]". wp_rets.
  rewrite /values /=. iDestruct "Hv" as "(H1 & H2 & H3 & _)". wp_load. wp_load. wp_load.
  wp_call (tfree_word_spec _ e1 1) with "[$Ha $H1]". iIntros (_) "Ha".
  wp_call (tfree_word_spec _ e2 2) with "[$Ha $H2]". iIntros (_) "Ha".
  wp_call (tfree_word_spec _ e3 3) with "[$Ha $H3]". iIntros (_) "$".
  iDestruct "Hl" as (p) "[Hl %Hp]". by rewrite Hp.
Qed.
End allocation.
End specs.

(** C40. The operations of the linked list compute the operations on sequences:
    pushing and popping at the front, emptiness, reversal, the three lengths
    (modulo [2^64]), appending, appending the reverse, and membership of a value
    among the elements pointed to; each of them terminates, and nodes are taken
    from and given back to the allocator. *)
Theorem list_operations_refine_sequences `{!TallocInterface} l p xs ys vs k e s :
  ({{ list_in l xs }} is_empty l {{ b, ⌜b = bool_decide (xs = [])⌝ ∗ list_in l xs }}) ∧
  (∀ s', ta_take 16 s = Some s' →
     {{ list_at p xs ∗ arena s }} push p e {{ r, list_at r (e :: xs) ∗ arena s' }}) ∧
  ({{ list_in l (e :: xs) ∗ arena s }} pop l
   {{ r, ⌜r = e⌝ ∗ list_in l xs ∗ arena (ta_give 16 s) }}) ∧
  ({{ list_in l [] ∗ arena s }} pop l {{ r, ⌜r = NULL⌝ ∗ list_in l [] ∗ arena s }}) ∧
  ({{ list_at p xs }} reverse p {{ r, list_at r (rev xs) }}) ∧
  ({{ list_in l xs }} length l
   {{ r, ⌜r = u64 (Z.of_nat (List.length xs))⌝ ∗ list_in l xs }}) ∧
  ({{ list_at p xs }} length_val p
   {{ r, ⌜r = u64 (Z.of_nat (List.length xs))⌝ ∗ list_at p xs }}) ∧
  ({{ list_at p xs }} length_val_rec p
   {{ r, ⌜r = u64 (Z.of_nat (List.length xs))⌝ ∗ list_at p xs }}) ∧
  ({{ list_in l xs ∗ list_at p ys }} append l p {{ _, list_in l (xs ++ ys) }}) ∧
  ({{ list_at p xs ∗ list_in l ys }} rev_append p l {{ _, list_in l (rev xs ++ ys) }}) ∧
  ({{ list_in l xs ∗ values xs vs }} member l k
   {{ b, ⌜b = bool_decide (k ∈ vs)⌝ ∗ list_in l xs ∗ values xs vs }}).
Proof.
  split_and!; eauto using is_empty_spec, push_spec, reverse_spec, length_spec, length_val_spec,
    length_val_rec_whole, append_spec, rev_append_spec, member_spec.
  - apply (pop_spec l (e :: xs) s).
  - apply (pop_spec l [] s).
Qed.

(** ** latch.c and t05_main.c *)

Definition released (latch : Z) : Z := latch.

(** Another turn of the loop reads the same value, for want of another thread. *)
Definition latch_wait (latch : Z) : M heap unit :=
  r ← load (released latch);
  if r =? 0 then fail NonTermination else mret tt.

Definition latch_release (latch : Z) : M heap unit := store (released latch) 1.

Definition DATA_SIZE : Z := 10000.

(** The addresses of the static variables, and of the local of [test]. *)
Class Globals := { initialized : Z; allocator_data : Z; test_list : Z }.

Section main.
Context `{!Talloc.Globals, !Globals}.
#[local] Existing Instance Talloc.talloc_interface.

Definition main : M heap Z :=
  Talloc.init_talloc ;;
  Talloc.tfree DATA_SIZE allocator_data ;;
  latch_release initialized ;;
  test test_list ;;
  mret 0.

Definition main2 : M heap Z :=
  latch_wait initialized ;;
  test test_list ;;
  mret 0.

(** The whole program, from uninitialised memory: [main] sets the allocator
    up with its static buffer, opens the latch and runs [test], none of whose
    assertions fails and which always finds memory, and returns 0; [main2],
    which waits at the latch, then runs [test] too and returns 0. *)
Theorem tutorial_main_returns :
  {{ Talloc.lock Talloc.allocator_state ↦? ∗ Talloc.data Talloc.allocator_state ↦? ∗
     raw allocator_data DATA_SIZE ∗ released initialized ↦ 0 ∗ test_list ↦? }}
    a ← main; b ← main2; mret (a, b)
  {{ r, ⌜r = (0, 0)⌝ ∗ released initialized ↦ 1 ∗ ∃ ss, arena ss }}.
Proof.
  triple_start. iIntros "(Hl & Hd & Hraw & Hr & Ht)". unfold main, main2, latch_release, latch_wait.
  wp_call Talloc.arena_init_spec with "[$Hl $Hd]". iIntros (_) "Ha".
  wp_call (Talloc.arena_tfree_spec DATA_SIZE [] allocator_data ltac:(done) ltac:(by exists 1250)
    ltac:(done)) with "[$Ha $Hraw]". iIntros (_) "Ha". wp_store.
  assert (∃ s, test_arena (Talloc.give_block DATA_SIZE []) = Some s ∧ ∃ s', test_arena s = Some s')
    as (s & Hs & s' & Hs') by (eexists; split; [reflexivity|eexists; reflexivity]).
  wp_call (test_spec test_list _ s Hs) with "[$Ht $Ha]". iIntros (_) "[Ht Ha]". wp_rets.
  wp_load. wp_call (test_spec test_list s s' Hs') with "[$Ha Ht]"; [by iExists _|].
  iIntros (_) "[Ht Ha]". wp_rets. iSplit; [done|]. iFrame.
Qed.
End main.

(** ** A concrete allocator *)
#[local] Instance example_state : Talloc.Globals := {| Talloc.allocator_state := 64 |}.
#[local] Existing Instance Talloc.talloc_interface.

(** The allocator can serve: one free block of 64 bytes. *)
Lemma list_operations_refine_sequences_witness :
  {{ list_at 256 [7] ∗ arena ([64] : ta_state) }} push 256 9
  {{ r, list_at r [9; 7] ∗ arena ([48] : ta_state) }}.
Proof.
  apply (proj1 (proj2 (@list_operations_refine_sequences Talloc.talloc_interface 128 256 [7] [] [] 0 9 [64]))).
  reflexivity.
Defined.
End TutorialList.
