(* ===== verification/SearchTree.v ===== *)
(** * The tutorial's search trees (src/tutorial/t08_tree.c)

    A [struct tree] at [p] keeps its left subtree at [p], its right one at
    [p + 8] and its key at [p + 16].  The operations refine those of finite
    sets of keys; nodes come from the allocator of talloc.h.  The functions of
    t11_tree_set.c are the same with keys of type [size_t]. *)
From S2P Require Import Prelude HeapLogic SpinLock Talloc.
From stdpp Require Import gmap list sets.
From iris.proofmode Require Import proofmode.
#[local] Open Scope Z_scope.

Module SearchTree.

(** ** The code *)

Definition left (p : Z) : Z := p.
Definition right (p : Z) : Z := p + 8.
Definition key (p : Z) : Z := p + 16.
(** Two pointers, an [int] and padding. *)
Definition sizeof_tree : Z := 24.

Section code.
Context `{!TallocInterface}.

Definition empty : Z := NULL.

Definition init (k : Z) : M heap Z :=
  node ← talloc sizeof_tree;
  store (left node) NULL ;;
  store (key node) k ;;
  store (right node) NULL ;;
  mret node.

Definition node (l k r : Z) : M heap Z :=
  node ← talloc sizeof_tree;
  store (left node) l ;;
  store (key node) k ;;
  store (right node) r ;;
  mret node.

Fixpoint free_tree_ (fuel : nat) (t : Z) : M heap unit :=
  match fuel with
  | O => fail OutOfFuel
  | S fuel =>
      p ← load t;
      if negb (p =? NULL) then
        p ← load t;
        free_tree_ fuel (left p) ;;
        p ← load t;
        free_tree_ fuel (right p) ;;
        p ← load t;
        tfree sizeof_tree p
      else mret tt
  end.
Definition free_tree (t : Z) : M heap unit := with_fuel (λ n, free_tree_ n t).

Fixpoint member_rec_ (fuel : nat) (t k : Z) : M heap bool :=
  match fuel with
  | O => fail OutOfFuel
  | S fuel =>
      p ← load t;
      if p =? NULL then mret false else
      p ← load t;
      x ← load (key p);
      if x =? k then mret true else
      p ← load t;
      x ← load (key p);
      if k <? x then p ← load t; member_rec_ fuel (left p) k
      else p ← load t; member_rec_ fuel (right p) k
  end.
Definition member_rec (t k : Z) : M heap bool := with_fuel (λ n, member_rec_ n t k).

Fixpoint member_loop (fuel : nat) (cur k : Z) : M heap bool :=
  match fuel with
  | O => fail OutOfFuel
  | S fuel =>
      p ← load cur;
      if negb (p =? NULL) then
        p ← load cur;
        x ← load (key p);
        if x =? k then mret true else
        p ← load cur;
        x ← load (key p);
        if k <? x then p ← load cur; member_loop fuel (left p) k
        else p ← load cur; member_loop fuel (right p) k
      else mret false
  end.
Definition member (t k : Z) : M heap bool := with_fuel (λ n, member_loop n t k).

Fixpoint insert_rec_ (fuel : nat) (t k : Z) : M heap unit :=
  match fuel with
  | O => fail OutOfFuel
  | S fuel =>
      p ← load t;
      if p =? NULL then n ← node NULL k NULL; store t n else
      p ← load t;
      x ← load (key p);
      if x =? k then mret tt else
      p ← load t;
      x ← load (key p);
      if k <? x then p ← load t; insert_rec_ fuel (left p) k
      else p ← load t; insert_rec_ fuel (right p) k
  end.
Definition insert_rec (t k : Z) : M heap unit := with_fuel (λ n, insert_rec_ n t k).

(** The loop of [insert] ends at the pointer to be set, unless it finds the
    key. *)
Fixpoint insert_loop (fuel : nat) (cur k : Z) : M heap (option Z) :=
  match fuel with
  | O => fail OutOfFuel
  | S fuel =>
      p ← load cur;
      if negb (p =? NULL) then
        p ← load cur;
        x ← load (key p);
        if x =? k then mret None else
        p ← load cur;
        x ← load (key p);
        if k <? x then p ← load cur; insert_loop fuel (left p) k
        else p ← load cur; insert_loop fuel (right p) k
      else mret (Some cur)
  end.
Definition insert (t k : Z) : M heap unit :=
  r ← with_fuel (λ n, insert_loop n t k);
  match r with
  | None => mret tt
  | Some cur => n ← node NULL k NULL; store cur n
  end.

Fixpoint tree_max (fuel : nat) (t : Z) : M heap Z :=
  match fuel with
  | O => fail OutOfFuel
  | S fuel =>
      p ← load t;
      r ← load (right p);
      if r =? NULL then p ← load t; load (key p)
      else p ← load t; tree_max fuel (right p)
  end.

Fixpoint remove_ (fuel : nat) (t k : Z) : M heap unit :=
  match fuel with
  | O => fail OutOfFuel
  | S fuel =>
      p ← load t;
      if p =? NULL then mret tt else
      p ← load t;
      x ← load (key p);
      if k =? x then
        p ← load t;
        l ← load (left p);
        if negb (l =? NULL) then
          p ← load t;
          m ← tree_max fuel (left p);
          p ← load t;
          remove_ fuel (left p) m ;;
          p ← load t;
          store (key p) m
        else
          p ← load t;
          tmp ← load (right p);
          p ← load t;
          tfree sizeof_tree p ;;
          store t tmp
      else
        p ← load t;
        x ← load (key p);
        if k <? x then p ← load t; remove_ fuel (left p) k
        else p ← load t; remove_ fuel (right p) k
  end.
Definition remove (t k : Z) : M heap unit := with_fuel (λ n, remove_ n t k).

Definition sempty : Z := empty.
Definition sinit (k : Z) : M heap Z := init k.
Definition sfree_tree (t : Z) : M heap unit := free_tree t.
Definition smember (t k : Z) : M heap bool := member t k.
Definition sinsert (t k : Z) : M heap unit := insert t k.
Definition sremove (t k : Z) : M heap unit := remove t k.

(** [t] is the address of the local variable. *)
Definition main (t : Z) : M heap Z :=
  store t sempty ;;
  r ← sinit 3; store t r ;;
  sinsert t 2 ;;
  b ← smember t 2; c_assert b ;;
  b ← smember t 3; c_assert b ;;
  sremove t 3 ;;
  sinsert t 3 ;;
  b ← smember t 2; c_assert b ;;
  sremove t 3 ;;
  sfree_tree t ;;
  mret 0.
End code.

Arguments left : simpl never.
Arguments right : simpl never.
Arguments key : simpl never.

(** ** Trees as values *)

Inductive tree := Leaf | Node (l : tree) (k : Z) (r : tree).
#[export] Instance tree_eq_dec : EqDecision tree.
Proof. solve_decision. Defined.

Fixpoint keys (t : tree) : gset Z :=
  match t with Leaf => ∅ | Node l k r => {[k]} ∪ keys l ∪ keys r end.
Fixpoint nodes (t : tree) : nat :=
  match t with Leaf => 0 | Node l _ r => S (nodes l + nodes r) end.
Fixpoint bst (t : tree) : Prop :=
  match t with
  | Leaf => True
  | Node l k r => bst l ∧ bst r ∧ set_Forall (λ y, y < k) (keys l) ∧ set_Forall (λ y, k < y) (keys r)
  end.

Fixpoint t_member (k : Z) (t : tree) : bool :=
  match t with
  | Leaf => false
  | Node l x r => if x =? k then true else if k <? x then t_member k l else t_member k r
  end.
Fixpoint t_insert (k : Z) (t : tree) : tree :=
  match t with
  | Leaf => Node Leaf k Leaf
  | Node l x r =>
      if x =? k then t else if k <? x then Node (t_insert k l) x r else Node l x (t_insert k r)
  end.
Fixpoint t_max (t : tree) : Z :=
  match t with
  | Leaf => 0
  | Node _ k Leaf => k
  | Node _ _ r => t_max r
  end.
Fixpoint t_remove (k : Z) (t : tree) : tree :=
  match t with
  | Leaf => Leaf
  | Node l x r =>
      if k =? x then
        match l with Leaf => r | _ => Node (t_remove (t_max l) l) (t_max l) r end
      else if k <? x then Node (t_remove k l) x r else Node l x (t_remove k r)
  end.
(** Whether a node is given back. *)
Fixpoint t_frees (k : Z) (t : tree) : bool :=
  match t with
  | Leaf => false
  | Node l x r =>
      if k =? x then match l with Leaf => true | _ => t_frees (t_max l) l end
      else if k <? x then t_frees k l else t_frees k r
  end.

(** ** They implement sets *)

#[local] Ltac compare_keys :=
  repeat match goal with
  | |- context [?a =? ?b] => destruct (Z.eqb_spec a b); subst
  | |- context [?a <? ?b] => destruct (Z.ltb_spec a b)
  end.

Lemma t_member_keys k t : bst t → t_member k t = bool_decide (k ∈ keys t).
Proof.
  induction t as [|l IHl x r IHr]; simpl; [intros; by rewrite bool_decide_false; [|set_solver]|].
  intros (Hl & Hr & Hlt & Hgt). compare_keys.
  - rewrite bool_decide_true //. set_solver.
  - rewrite IHl //. apply bool_decide_ext. split; [set_solver|].
    intros [[->%elem_of_singleton|?]%elem_of_union|Hk]%elem_of_union; [lia|done|].
    specialize (Hgt _ Hk). simpl in Hgt. lia.
  - rewrite IHr //. apply bool_decide_ext. split; [set_solver|].
    intros [[->%elem_of_singleton|Hk]%elem_of_union|?]%elem_of_union; [lia| |done].
    specialize (Hlt _ Hk). simpl in Hlt. lia.
Qed.

Lemma t_insert_keys k t : keys (t_insert k t) = {[k]} ∪ keys t.
Proof. induction t as [|l IHl x r IHr]; simpl; [set_solver|]. compare_keys; set_solver. Qed.

Lemma t_insert_bst k t : bst t → bst (t_insert k t).
Proof.
  induction t as [|l IHl x r IHr]; simpl; [done|]. intros (Hl & Hr & Hlt & Hgt).
  compare_keys; simpl; rewrite ?t_insert_keys; split_and!; auto; intros y; set_unfold.
  - intros [->|?]; [done|]. by apply Hlt.
  - intros [->|?]; [lia|]. by apply Hgt.
Qed.

Lemma t_max_keys t : bst t → t ≠ Leaf → t_max t ∈ keys t ∧ set_Forall (λ y, y ≤ t_max t) (keys t).
Proof.
  induction t as [|l _ k r IHr]; [done|]. intros (Hl & Hr & Hlt & Hgt) _.
  destruct r as [|rl rk rr]; [simpl|].
  - split; [set_solver|]. intros y. set_unfold. intros [[->|Hy]|[]]; simpl; [lia|].
    specialize (Hlt _ Hy). simpl in Hlt. lia.
  - destruct IHr as [Hin Hmax]; [done|done|].
    change (t_max (Node l k (Node rl rk rr))) with (t_max (Node rl rk rr)).
    set (r := Node rl rk rr) in *. split; [simpl; set_solver|]. intros y.
    pose proof (Hgt _ Hin) as Hk. simpl in Hk.
    intros [[->%elem_of_singleton|Hy]%elem_of_union|Hy]%elem_of_union; [simpl; lia| |by apply Hmax].
    simpl.
    specialize (Hlt _ Hy). simpl in Hlt. lia.
Qed.

Lemma below_not_in k x (X : gset Z) : set_Forall (λ y, y < k) X → k ≤ x → x ∉ X.
Proof. intros HX Hx Hin. specialize (HX _ Hin). simpl in HX. lia. Qed.
Lemma above_not_in k x (X : gset Z) : set_Forall (λ y, k < y) X → x ≤ k → x ∉ X.
Proof. intros HX Hx Hin. specialize (HX _ Hin). simpl in HX. lia. Qed.

(** Replacing the root by the greatest key of the left subtree. *)
Lemma replace_root l x r m l' :
  bst (Node l x r) → m ∈ keys l → set_Forall (λ y, y ≤ m) (keys l) →
  bst l' → keys l' = keys l ∖ {[m]} →
  bst (Node l' m r) ∧ keys (Node l' m r) = keys (Node l x r) ∖ {[x]}.
Proof.
  intros (Hl & Hr & Hlt & Hgt) Hm Hmax Hl' Hk. pose proof (Hlt _ Hm) as Hmx. simpl in Hmx.
  pose proof (below_not_in x x _ Hlt ltac:(lia)). pose proof (above_not_in x x _ Hgt ltac:(lia)).
  split; simpl.
  - split_and!; [done|done| |].
    + intros y. rewrite Hk. intros [Hy Hne]%elem_of_difference. specialize (Hmax _ Hy).
      simpl in *. set_unfold. lia.
    + intros y Hy. specialize (Hgt _ Hy). simpl in *. lia.
  - apply set_eq. intros y. rewrite Hk. destruct (decide (y = m)); set_solver.
Qed.

Lemma t_remove_set t : ∀ k,
  bst t → bst (t_remove k t) ∧ keys (t_remove k t) = keys t ∖ {[k]} ∧
          t_frees k t = bool_decide (k ∈ keys t).
Proof.
  induction t as [|l IHl x r IHr]; intros k; simpl.
  { intros _. split_and!; [done|set_solver|by rewrite bool_decide_false; [|set_solver]]. }
  intros Hb. pose proof Hb as (Hl & Hr & Hlt & Hgt). compare_keys.
  - destruct (decide (l = Leaf)) as [->|Hne].
    + pose proof (above_not_in x x _ Hgt ltac:(lia)).
      split_and!; [done|simpl; set_solver|rewrite bool_decide_true //; set_solver].
    + destruct (t_max_keys l Hl Hne) as [Hm Hmax].
      destruct (IHl (t_max l) Hl) as (Hb' & Hk' & Hf).
      destruct (replace_root l x r _ _ Hb Hm Hmax Hb' Hk') as [Hbst Hkeys].
      rewrite bool_decide_true // in Hf. rewrite (bool_decide_true (x ∈ _)); [|set_solver].
      destruct l; [done|]. by split_and!.
  - destruct (IHl k Hl) as (Hb' & Hk' & Hf).
    pose proof (above_not_in x k _ Hgt ltac:(lia)). simpl. rewrite Hk' Hf. split_and!.
    + done.
    + done.
    + intros y Hy. apply Hlt. set_solver.
    + done.
    + apply set_eq. set_solver.
    + apply bool_decide_ext. set_solver.
  - destruct (IHr k Hr) as (Hb' & Hk' & Hf).
    pose proof (below_not_in x k _ Hlt ltac:(lia)). simpl. rewrite Hk' Hf. split_and!.
    + done.
    + done.
    + done.
    + intros y Hy. apply Hgt. set_solver.
    + apply set_eq. set_solver.
    + apply bool_decide_ext. set_solver.
Qed.

(** ** Trees in memory *)

(** The tree hanging from the pointer at [a]. *)
Fixpoint tree_in (a : Z) (t : tree) : hProp :=
  match t with
  | Leaf => a ↦ NULL
  | Node l k r => ∃ p, a ↦ p ∗ key p ↦ k ∗ tree_in (left p) l ∗ tree_in (right p) r
  end%I.

Lemma tree_in_cells a t : tree_in a t ⊢ at_least (nodes t).
Proof.
  iIntros "H". iInduction t as [|l k r] "IH" forall (a); simpl; [iApply at_least_0|].
  iDestruct "H" as (p) "(_ & Hk & Hl & Hr)". iApply (at_least_add 1).
  iSplitL "Hk"; [iApply (at_least_cell with "Hk")|]. iApply at_least_add.
  iSplitL "Hl"; [by iApply "IH"|by iApply "IH1"].
Qed.

Lemma tree_in_not_null a t : tree_in a t ⊢ ⌜a ≠ NULL⌝.
Proof.
  destruct t as [|l k r]; simpl; [by iApply pointsto_not_null|].
  iIntros "(%p & H & _)". by iApply (pointsto_not_null with "H").
Qed.

(** The tree can be hung at another pointer. *)
Lemma tree_in_open a t :
  tree_in a t ⊢ ∃ p, a ↦ p ∗ ⌜p = NULL ↔ t = Leaf⌝ ∗ (∀ b, b ↦ p -∗ tree_in b t).
Proof.
  destruct t as [|l k r]; simpl.
  - iIntros "H". iExists NULL. iFrame. iSplit; [done|]. by iIntros (b) "H".
  - iIntros "(%p & Ha & Hk & Hl & Hr)". iDestruct (tree_in_not_null (left p) with "Hl") as %Hp.
    iExists p. iFrame. iSplit; [iPureIntro; naive_solver|]. iIntros (b) "Hb". iExists p. iFrame.
Qed.

(** Open the tree at the pointer just about to be read, and compare that
    pointer with null. *)
#[local] Tactic Notation "open_tree" ident(t) constr(H) "as" ident(l) ident(x) ident(r) ident(p) :=
  destruct t as [|l x r]; cbn [tree_in];
  [wp_load
  |iDestruct H as (p) "(Ha & Hk & Hl & Hr)";
   let Hp := fresh "Hp" in
   iDestruct (tree_in_not_null (left p) with "Hl") as %Hp;
   wp_load; rewrite (proj2 (Z.eqb_neq p NULL)) //; cbn [negb]; cbv iota].

Lemma member_rec_spec n t : ∀ a k, (nodes t < n)%nat →
  {{ tree_in a t }} member_rec_ n a k {{ b, ⌜b = t_member k t⌝ ∗ tree_in a t }}.
Proof.
  revert t. induction n as [|n IH]; intros t a k Hn; [lia|]. triple_start. iIntros "H".
  cbn [member_rec_]. open_tree t "H" as l x r p.
  { wp_rets. by iFrame. }
  simpl in Hn. wp_steps. cbn [t_member]. destruct (x =? k); [wp_rets; iSplit; [done|]; iExists p; iFrame|].
  wp_steps. destruct (k <? x); wp_load.
  - wp_call (IH l (left p) k ltac:(lia)) with "Hl". iIntros (b) "[-> Hl]". iSplit; [done|].
    iExists p. iFrame.
  - wp_call (IH r (right p) k ltac:(lia)) with "Hr". iIntros (b) "[-> Hr]". iSplit; [done|].
    iExists p. iFrame.
Qed.

Lemma member_loop_spec n t : ∀ a k, (nodes t < n)%nat →
  {{ tree_in a t }} member_loop n a k {{ b, ⌜b = t_member k t⌝ ∗ tree_in a t }}.
Proof.
  revert t. induction n as [|n IH]; intros t a k Hn; [lia|]. triple_start. iIntros "H".
  cbn [member_loop]. open_tree t "H" as l x r p.
  { wp_rets. by iFrame. }
  simpl in Hn. wp_steps. cbn [t_member]. destruct (x =? k); [wp_rets; iSplit; [done|]; iExists p; iFrame|].
  wp_steps. destruct (k <? x); wp_load.
  - wp_call (IH l (left p) k ltac:(lia)) with "Hl". iIntros (b) "[-> Hl]". iSplit; [done|].
    iExists p. iFrame.
  - wp_call (IH r (right p) k ltac:(lia)) with "Hr". iIntros (b) "[-> Hr]". iSplit; [done|].
    iExists p. iFrame.
Qed.

Section allocation.
Context `{!TallocInterface}.
Implicit Types (s : ta_state).

Lemma node_block p : raw p 24 ⊣⊢ left p ↦? ∗ right p ↦? ∗ key p ↦?.
Proof.
  rewrite raw_words // raw_word // /raw. change (seqZ 0 ((24 - 16 - 8) / 8)) with (@nil Z).
  by rewrite /= right_id.
Qed.

Lemma node_spec s s' l k r pl pr :
  ta_take 24 s = Some s' →
  {{ (∀ b, b ↦ pl -∗ tree_in b l) ∗ (∀ b, b ↦ pr -∗ tree_in b r) ∗ arena s }} node pl k pr
  {{ p, (∀ b, b ↦ p -∗ tree_in b (Node l k r)) ∗ arena s' }}.
Proof.
  intros Ht. triple_start. iIntros "(Hl & Hr & Ha)". unfold node.
  wp_call (talloc_spec 24 s s' ltac:(done) ltac:(by exists 3) ltac:(done) Ht) with "Ha".
  iIntros (p) "[Hp Ha]". rewrite node_block. iDestruct "Hp" as "([% H1] & [% H2] & [% H3])".
  wp_steps. wp_rets. iFrame "Ha". iIntros (b) "Hb". iExists p. iFrame.
  iSplitL "Hl H1"; [by iApply "Hl"|by iApply "Hr"].
Qed.

Lemma new_node_spec s s' k :
  ta_take 24 s = Some s' →
  {{ arena s }} node NULL k NULL
  {{ p, (∀ b, b ↦ p -∗ tree_in b (Node Leaf k Leaf)) ∗ arena s' }}.
Proof.
  intros Ht. triple_start. iIntros "Ha".
  wp_call (node_spec s s' Leaf k Leaf NULL NULL Ht) with "[$Ha]"; [by iSplitL ""; iIntros (b) "H"|].
  by iIntros (p) "H".
Qed.

Lemma init_spec s s' k :
  ta_take 24 s = Some s' →
  {{ arena s }} init k {{ p, (∀ b, b ↦ p -∗ tree_in b (Node Leaf k Leaf)) ∗ arena s' }}.
Proof. apply new_node_spec. Qed.

(** What inserting [k] does to the allocator. *)
Definition insert_arena (k : Z) (t : tree) (s : ta_state) : option ta_state :=
  if t_member k t then Some s else ta_take 24 s.

Lemma insert_rec_spec n t : ∀ a k s s', (nodes t < n)%nat → insert_arena k t s = Some s' →
  {{ tree_in a t ∗ arena s }} insert_rec_ n a k {{ _, tree_in a (t_insert k t) ∗ arena s' }}.
Proof.
  revert t. induction n as [|n IH]; intros t a k s s' Hn Hs; [lia|]. triple_start.
  iIntros "[H Hs]". cbn [insert_rec_]. open_tree t "H" as l x r p.
  { wp_call (new_node_spec s s' k Hs) with "Hs". iIntros (p) "[Hp Hs]". wp_store. iFrame "Hs".
    by iApply "Hp". }
  simpl in Hn. wp_steps. unfold insert_arena in Hs. cbn [t_member] in Hs. cbn [t_insert].
  destruct (x =? k); [injection Hs as <-; wp_rets; iFrame "Hs"; iExists p; iFrame|].
  wp_steps. destruct (k <? x); wp_load.
  - wp_call (IH l (left p) k s s' ltac:(lia) Hs) with "[$Hl $Hs]". iIntros (_) "[Hl $]".
    iExists p. iFrame.
  - wp_call (IH r (right p) k s s' ltac:(lia) Hs) with "[$Hr $Hs]". iIntros (_) "[Hr $]".
    iExists p. iFrame.
Qed.

(** The loop of [insert] stops at the pointer where the new node belongs. *)
Lemma insert_loop_spec n t : ∀ a k, (nodes t < n)%nat →
  {{ tree_in a t }} insert_loop n a k
  {{ r, match r with
        | None => ⌜t_member k t = true ∧ t_insert k t = t⌝ ∗ tree_in a t
        | Some c => ⌜t_member k t = false⌝ ∗ c ↦ NULL ∗
            (tree_in c (Node Leaf k Leaf) -∗ tree_in a (t_insert k t))
        end }}.
Proof.
  revert t. induction n as [|n IH]; intros t a k Hn; [lia|]. triple_start. iIntros "H".
  cbn [insert_loop]. open_tree t "H" as l x r p.
  { wp_rets. iSplit; [done|]. iFrame. by iIntros "H". }
  simpl in Hn. wp_steps. cbn [t_member t_insert].
  destruct (x =? k); [wp_rets; iSplit; [done|]; iExists p; iFrame|].
  wp_steps. destruct (k <? x); wp_load.
  - wp_call (IH l (left p) k ltac:(lia)) with "Hl". iIntros ([c|]) "H".
    + iDestruct "H" as "($ & $ & Hw)". iIntros "H". iExists p. iFrame. by iApply "Hw".
    + iDestruct "H" as "[[-> ->] H]". iSplit; [done|]. iExists p. iFrame.
  - wp_call (IH r (right p) k ltac:(lia)) with "Hr". iIntros ([c|]) "H".
    + iDestruct "H" as "($ & $ & Hw)". iIntros "H". iExists p. iFrame. by iApply "Hw".
    + iDestruct "H" as "[[-> ->] H]". iSplit; [done|]. iExists p. iFrame.
Qed.

Lemma insert_spec a t k s s' :
  insert_arena k t s = Some s' →
  {{ tree_in a t ∗ arena s }} insert a k {{ _, tree_in a (t_insert k t) ∗ arena s' }}.
Proof.
  intros Hs. triple_start. iIntros "[H Hs]". unfold insert. wp_focus.
  iApply (wp_wand with "[H]").
  { iApply (triple_with_fuel (nodes t) with "H"); [by iApply tree_in_cells|].
    intros n Hn. by apply insert_loop_spec. }
  unfold insert_arena in Hs. iIntros ([c|]) "H".
  - iDestruct "H" as "(%Hm & Hc & Hw)". rewrite Hm in Hs.
    wp_call (new_node_spec s s' k Hs) with "Hs". iIntros (p) "[Hp $]". wp_store.
    iApply "Hw". by iApply "Hp".
  - iDestruct "H" as "[[%Hm ->] H]". rewrite Hm in Hs. injection Hs as <-. wp_rets. iFrame.
Qed.

Lemma tree_max_spec n t : ∀ a, (nodes t < n)%nat → t ≠ Leaf →
  {{ tree_in a t }} tree_max n a {{ m, ⌜m = t_max t⌝ ∗ tree_in a t }}.
Proof.
  revert t. induction n as [|n IH]; intros t a Hn Hne; [lia|]. triple_start. iIntros "H".
  cbn [tree_max]. destruct t as [|l x r]; [done|]. cbn [tree_in].
  iDestruct "H" as (p) "(Ha & Hk & Hl & Hr)". wp_load.
  iDestruct (tree_in_open with "Hr") as (q) "(Hq & %Hn' & Hr)". wp_load.
  iDestruct ("Hr" with "Hq") as "Hr". simpl in Hn. destruct (Z.eqb_spec q NULL) as [E|E].
  - wp_load. wp_load. destruct Hn' as [Hn' _]. rewrite (Hn' E). iSplit; [done|]. iExists p. iFrame.
  - assert (r ≠ Leaf) as Hr by naive_solver. wp_load.
    wp_call (IH r (right p) ltac:(lia) Hr) with "Hr". iIntros (m) "[-> Hr]".
    iSplit; [by destruct r|]. iExists p. iFrame.
Qed.

Definition give_if (b : bool) (s : ta_state) : ta_state := if b then ta_give 24 s else s.

Lemma remove_spec_ n t : ∀ a k s, (nodes t < n)%nat →
  {{ tree_in a t ∗ arena s }} remove_ n a k
  {{ _, tree_in a (t_remove k t) ∗ arena (give_if (t_frees k t) s) }}.
Proof.
  revert t. induction n as [|n IH]; intros t a k s Hn; [lia|]. triple_start. iIntros "[H Hs]".
  cbn [remove_]. open_tree t "H" as l x r p.
  { wp_rets. iFrame. }
  simpl in Hn. wp_steps. cbn [t_remove t_frees]. destruct (k =? x).
  - iDestruct (tree_in_open with "Hl") as (q) "(Hq & %Hn' & Hl)". wp_load. wp_load.
    destruct (Z.eqb_spec q NULL) as [E|E]; cbn [negb]; cbv iota.
    + destruct Hn' as [Hn' _]. rewrite (Hn' E).
      iDestruct (tree_in_open with "Hr") as (q') "(Hq' & _ & Hr)". wp_load. wp_load. wp_load.
      wp_call (tfree_spec 24 s p ltac:(done) ltac:(by exists 3) ltac:(done)) with "[$Hs Hk Hq Hq']".
      { rewrite node_block. iSplitL "Hq"; [by iExists _|]. iSplitL "Hq'"; by iExists _. }
      iIntros (_) "$". wp_store. by iApply "Hr".
    + iDestruct ("Hl" with "Hq") as "Hl". assert (l ≠ Leaf) as Hl by naive_solver. wp_load.
      wp_call (tree_max_spec n l (left p) ltac:(lia) Hl) with "Hl". iIntros (m) "[-> Hl]". wp_load.
      wp_call (IH l (left p) (t_max l) s ltac:(lia)) with "[$Hl $Hs]". iIntros (_) "[Hl Hs]".
      wp_load. wp_store. destruct l; [done|]. iFrame "Hs". iExists p. iFrame.
  - wp_steps. destruct (k <? x); wp_load.
    + wp_call (IH l (left p) k s ltac:(lia)) with "[$Hl $Hs]". iIntros (_) "[Hl $]".
      iExists p. iFrame.
    + wp_call (IH r (right p) k s ltac:(lia)) with "[$Hr $Hs]". iIntros (_) "[Hr $]".
      iExists p. iFrame.
Qed.

Lemma free_tree_spec_ n t : ∀ a s, (nodes t < n)%nat →
  {{ tree_in a t ∗ arena s }} free_tree_ n a
  {{ _, a ↦? ∗ arena (Nat.iter (nodes t) (ta_give 24) s) }}.
Proof.
  revert t. induction n as [|n IH]; intros t a s Hn; [lia|]. triple_start. iIntros "[H Hs]".
  cbn [free_tree_]. open_tree t "H" as l x r p.
  { wp_rets. iFrame. }
  simpl in Hn. wp_load. wp_call (IH l (left p) s ltac:(lia)) with "[$Hl $Hs]".
  iIntros (_) "[Hl Hs]". wp_load. wp_call (IH r (right p) _ ltac:(lia)) with "[$Hr $Hs]".
  iIntros (_) "[Hr Hs]". wp_load.
  wp_call (tfree_spec 24 _ p ltac:(done) ltac:(by exists 3) ltac:(done)) with "[$Hs Hk Hl Hr]".
  { rewrite node_block. iFrame. }
  iIntros (_) "Hs". cbn [nodes Nat.iter]. rewrite Nat.add_comm Nat.iter_add. iFrame.
Qed.

(** ** Sets in memory *)

Definition stree (a : Z) (X : gset Z) : hPropI := (∃ t, ⌜bst t ∧ keys t = X⌝ ∗ tree_in a t)%I.

Lemma smember_spec a X k :
  {{ stree a X }} smember a k {{ b, ⌜b = bool_decide (k ∈ X)⌝ ∗ stree a X }}.
Proof.
  triple_start. iIntros "(%t & [%Hb <-] & H)". unfold smember, member.
  iApply (wp_wand with "[H]").
  { iApply (triple_with_fuel (nodes t) with "H"); [by iApply tree_in_cells|].
    intros n Hn. by apply member_loop_spec. }
  iIntros (b) "[-> H]". rewrite t_member_keys //. iSplit; [done|]. iExists t. by iFrame.
Qed.

Lemma smember_rec_spec a X k :
  {{ stree a X }} member_rec a k {{ b, ⌜b = bool_decide (k ∈ X)⌝ ∗ stree a X }}.
Proof.
  triple_start. iIntros "(%t & [%Hb <-] & H)". unfold member_rec.
  iApply (wp_wand with "[H]").
  { iApply (triple_with_fuel (nodes t) with "H"); [by iApply tree_in_cells|].
    intros n Hn. by apply member_rec_spec. }
  iIntros (b) "[-> H]". rewrite t_member_keys //. iSplit; [done|]. iExists t. by iFrame.
Qed.

(** A new key needs a node. *)
Definition add_key (k : Z) (X : gset Z) (s : ta_state) : option ta_state :=
  if decide (k ∈ X) then Some s else ta_take 24 s.
Definition drop_key (k : Z) (X : gset Z) (s : ta_state) : ta_state :=
  if decide (k ∈ X) then ta_give 24 s else s.

Lemma add_key_new k X s : k ∉ X → add_key k X s = ta_take 24 s.
Proof. intros. unfold add_key. by rewrite decide_False. Qed.
Lemma drop_key_old k X s : k ∈ X → drop_key k X s = ta_give 24 s.
Proof. intros. unfold drop_key. by rewrite decide_True. Qed.

Lemma insert_arena_keys k t s : bst t → insert_arena k t s = add_key k (keys t) s.
Proof.
  intros Hb. unfold insert_arena, add_key. rewrite t_member_keys //.
  case_bool_decide; [by rewrite decide_True|by rewrite decide_False].
Qed.

Lemma stree_insert a t k : bst t → tree_in a (t_insert k t) ⊢ stree a ({[k]} ∪ keys t).
Proof.
  iIntros (Hb) "H". iExists (t_insert k t). iFrame. iPureIntro.
  auto using t_insert_bst, t_insert_keys.
Qed.

Lemma sinsert_spec a X k s s' :
  add_key k X s = Some s' →
  {{ stree a X ∗ arena s }} sinsert a k {{ _, stree a ({[k]} ∪ X) ∗ arena s' }}.
Proof.
  intros Hs. triple_start. iIntros "[(%t & [%Hb <-] & H) Hs]". rewrite -insert_arena_keys // in Hs.
  wp_call (insert_spec a t k s s' Hs) with "[$H $Hs]". iIntros (_) "[H $]". by iApply stree_insert.
Qed.

Lemma sinsert_rec_spec a X k s s' :
  add_key k X s = Some s' →
  {{ stree a X ∗ arena s }} insert_rec a k {{ _, stree a ({[k]} ∪ X) ∗ arena s' }}.
Proof.
  intros Hs. triple_start. iIntros "[(%t & [%Hb <-] & H) Hs]". rewrite -insert_arena_keys // in Hs.
  iCombine "H Hs" as "H". iApply (wp_wand with "[H]").
  { iApply (triple_with_fuel (nodes t) with "H"); [iIntros "[H _]"; by iApply tree_in_cells|].
    intros n Hn. by apply (insert_rec_spec n t a k s s'). }
  iIntros (_) "[H $]". by iApply stree_insert.
Qed.

Lemma sremove_spec a X k s :
  {{ stree a X ∗ arena s }} sremove a k {{ _, stree a (X ∖ {[k]}) ∗ arena (drop_key k X s) }}.
Proof.
  triple_start. iIntros "[(%t & [%Hb <-] & H) Hs]". iCombine "H Hs" as "H".
  destruct (t_remove_set t k Hb) as (Hb' & Hk & Hf). iApply (wp_wand with "[H]").
  { iApply (triple_with_fuel (nodes t) with "H"); [iIntros "[H _]"; by iApply tree_in_cells|].
    intros n Hn. by apply (remove_spec_ n t a k s). }
  iIntros (_) "[H Hs]". unfold drop_key, give_if. rewrite Hf.
  iSplitL "H"; [iExists _; by iFrame|].
  case_bool_decide; [by rewrite decide_True|by rewrite decide_False].
Qed.

Lemma nodes_size t : bst t → nodes t = size (keys t).
Proof.
  induction t as [|l IHl k r IHr]; simpl; [done|]. intros (Hl & Hr & Hlt & Hgt).
  pose proof (below_not_in k k _ Hlt ltac:(lia)). pose proof (above_not_in k k _ Hgt ltac:(lia)).
  rewrite -assoc_L size_union; [|set_solver]. rewrite size_singleton size_union.
  - rewrite IHl // IHr //.
  - intros y Hy1 Hy2. specialize (Hlt _ Hy1). specialize (Hgt _ Hy2). simpl in *. lia.
Qed.

Lemma sfree_tree_spec a X s :
  {{ stree a X ∗ arena s }} sfree_tree a {{ _, a ↦? ∗ arena (Nat.iter (size X) (ta_give 24) s) }}.
Proof.
  triple_start. iIntros "[(%t & [%Hb <-] & H) Hs]". rewrite -nodes_size //. iCombine "H Hs" as "H".
  iApply (triple_with_fuel (nodes t) with "H"); [iIntros "[H _]"; by iApply tree_in_cells|].
  intros n Hn. by apply (free_tree_spec_ n t a s).
Qed.

(** ** Scripts of operations *)

Inductive op :=
  | Insert (k : Z) | InsertRec (k : Z) | Remove (k : Z) | Member (k : Z) | MemberRec (k : Z).

Definition exec_op (a : Z) (o : op) : M heap (list bool) :=
  match o with
  | Insert k => sinsert a k ;; mret []
  | InsertRec k => insert_rec a k ;; mret []
  | Remove k => sremove a k ;; mret []
  | Member k => b ← smember a k; mret [b]
  | MemberRec k => b ← member_rec a k; mret [b]
  end.
Fixpoint exec (a : Z) (os : list op) : M heap (list bool) :=
  match os with
  | [] => mret []
  | o :: os => bs ← exec_op a o; bs' ← exec a os; mret (bs ++ bs')
  end.

(** The same on sets, as long as the allocator can serve. *)
Definition set_op (o : op) (X : gset Z) (s : ta_state) : option (list bool * gset Z * ta_state) :=
  match o with
  | Insert k | InsertRec k => s' ← add_key k X s; Some ([], {[k]} ∪ X, s')
  | Remove k => Some ([], X ∖ {[k]}, drop_key k X s)
  | Member k | MemberRec k => Some ([bool_decide (k ∈ X)], X, s)
  end.
Fixpoint set_ops (os : list op) (X : gset Z) (s : ta_state) :
    option (list bool * gset Z * ta_state) :=
  match os with
  | [] => Some ([], X, s)
  | o :: os =>
      '(bs, X, s) ← set_op o X s;
      '(bs', X, s) ← set_ops os X s;
      Some (bs ++ bs', X, s)
  end.

Lemma exec_op_spec a o X s bs X' s' :
  set_op o X s = Some (bs, X', s') →
  {{ stree a X ∗ arena s }} exec_op a o {{ r, ⌜r = bs⌝ ∗ stree a X' ∗ arena s' }}.
Proof.
  destruct o; cbn [set_op exec_op]; intros Ho; triple_start; iIntros "[H Hs]".
  - apply bind_Some in Ho as (s1 & Hs & [= <- <- <-]).
    wp_call (sinsert_spec a X k s s1 Hs) with "[$H $Hs]". iIntros (_) "H". wp_rets. by iFrame.
  - apply bind_Some in Ho as (s1 & Hs & [= <- <- <-]).
    wp_call (sinsert_rec_spec a X k s s1 Hs) with "[$H $Hs]". iIntros (_) "H". wp_rets. by iFrame.
  - injection Ho as <- <- <-.
    wp_call (sremove_spec a X k s) with "[$H $Hs]". iIntros (_) "H". wp_rets. by iFrame.
  - injection Ho as <- <- <-.
    wp_call (smember_spec a X k) with "H". iIntros (b) "[-> H]". wp_rets. by iFrame.
  - injection Ho as <- <- <-.
    wp_call (smember_rec_spec a X k) with "H". iIntros (b) "[-> H]". wp_rets. by iFrame.
Qed.

(** C11. The search trees refine finite sets of keys: for every sequence of
    insertions, removals and membership queries, iterative or recursive, run on
    a tree that represents a set, the answers are those of the set and the tree
    represents the resulting set, as long as the allocator can serve the nodes
    of new keys; exactly one node is taken per new key and one given back per
    key removed. *)
Theorem search_tree_refines_set a os X s bs X' s' :
  set_ops os X s = Some (bs, X', s') →
  {{ stree a X ∗ arena s }} exec a os {{ r, ⌜r = bs⌝ ∗ stree a X' ∗ arena s' }}.
Proof.
  revert X s bs. induction os as [|o os IH]; intros X s bs; cbn [set_ops exec]; intros Ho.
  - injection Ho as <- <- <-. triple_start. iIntros "H". wp_rets. by iFrame.
  - apply bind_Some in Ho as ([[bs1 X1] s1] & H1 & Ho).
    apply bind_Some in Ho as ([[bs2 X2] s2] & H2 & [= <- <- <-]).
    triple_start. iIntros "H". wp_call (exec_op_spec a o X s bs1 X1 s1 H1) with "H".
    iIntros (r) "(-> & H)". wp_call (IH X1 s1 bs2 H2) with "H". iIntros (r) "(-> & H)".
    wp_rets. by iFrame.
Qed.

(** What [main] does to the allocator. *)
Definition main_arena (s : ta_state) : option ta_state :=
  s ← ta_take 24 s; s ← ta_take 24 s; s ← ta_take 24 (ta_give 24 s);
  Some (ta_give 24 (ta_give 24 s)).

(** [main] of t08_tree.c terminates with 0 and without a failing assertion
    whenever the allocator can serve its three nodes, and gives all of them
    back. *)
Theorem tree_main_returns t s s' :
  main_arena s = Some s' →
  {{ t ↦? ∗ arena s }} main t {{ r, ⌜r = 0⌝ ∗ t ↦? ∗ arena s' }}.
Proof.
  intros Hs. apply bind_Some in Hs as (s1 & H1 & Hs). apply bind_Some in Hs as (s2 & H2 & Hs).
  apply bind_Some in Hs as (s3 & H3 & [= <-]).
  triple_start. iIntros "[[% Ht] Hs]". unfold main. wp_store.
  wp_call (init_spec s s1 3 H1) with "Hs". iIntros (r) "[Hr Hs]". wp_store.
  iAssert (stree t {[3]}) with "[Hr Ht]" as "H".
  { iExists (Node Leaf 3 Leaf). iSplit; [iPureIntro; simpl; split; [|set_solver]|by iApply "Hr"].
    split_and!; try done; by apply set_Forall_empty. }
  rewrite -(add_key_new 2 {[3]}) in H2; [|set_solver].
  wp_call (sinsert_spec t {[3]} 2 s1 s2 H2) with "[$H $Hs]". iIntros (_) "[H Hs]".
  wp_call (smember_spec t _ 2) with "H". iIntros (b) "[-> H]".
  rewrite bool_decide_true; [|set_solver]. wp_rets.
  wp_call (smember_spec t _ 3) with "H". iIntros (b) "[-> H]".
  rewrite bool_decide_true; [|set_solver]. wp_rets.
  wp_call (sremove_spec t _ 3 s2) with "[$H $Hs]". iIntros (_) "[H Hs]".
  rewrite drop_key_old; [|set_solver].
  rewrite -(add_key_new 3 (({[2]} ∪ {[3]}) ∖ {[3]})) in H3; [|set_solver].
  wp_call (sinsert_spec t _ 3 _ s3 H3) with "[$H $Hs]". iIntros (_) "[H Hs]".
  wp_call (smember_spec t _ 2) with "H". iIntros (b) "[-> H]".
  rewrite bool_decide_true; [|set_solver]. wp_rets.
  wp_call (sremove_spec t _ 3 s3) with "[$H $Hs]". iIntros (_) "[H Hs]".
  rewrite drop_key_old; [|set_solver].
  wp_call (sfree_tree_spec t _ _) with "[$H $Hs]". iIntros (_) "[H Hs]". wp_rets. by iFrame.
Qed.
End allocation.

(** ** Witnesses: a free block of 96 bytes *)
#[local] Instance example_state : Talloc.Globals := {| Talloc.allocator_state := 64 |}.

Lemma search_tree_refines_set_witness :
  {{ stree 128 ∅ ∗ Talloc.arena [96] }}
    @exec Talloc.talloc_interface 128 [Insert 5; InsertRec 3; Member 3; Remove 5; MemberRec 5]
  {{ r, ⌜r = [true; false]⌝ ∗ stree 128 (({[3]} ∪ ({[5]} ∪ ∅)) ∖ {[5]}) ∗ Talloc.arena [24; 48] }}.
Proof.
  apply (@search_tree_refines_set Talloc.talloc_interface 128
    [Insert 5; InsertRec 3; Member 3; Remove 5; MemberRec 5] ∅ [96]).
  vm_compute. reflexivity.
Defined.

Lemma tree_main_returns_witness :
  {{ 128 ↦? ∗ Talloc.arena [96] }} @main Talloc.talloc_interface 128
  {{ r, ⌜r = 0⌝ ∗ 128 ↦? ∗ Talloc.arena [24; 24; 48] }}.
Proof. apply (@tree_main_returns Talloc.talloc_interface 128 [96]). reflexivity. Defined.
End SearchTree.
