(* ===== verification/MutableMap.v ===== *)
(** * The mutable hash map (src/examples/mutable_map.c)

    A hash table with open addressing, linear probing and tombstones, which
    doubles when it runs out of empty slots.  A [struct item] of 24 bytes keeps
    its tag at offset 0 and its union at 8: a key at 8 and, in an entry, the
    value at 16.  A [struct fixed_size_map] keeps the array at 0, the number of
    empty slots at 8 and the number of slots at 16. *)
From S2P Require Import Prelude HeapLogic.
From stdpp Require Import gmap list.
From iris.proofmode Require Import proofmode.
#[local] Open Scope Z_scope.

Module MutableMap.

(** ** The code *)

Definition ITEM_EMPTY : Z := 0.
Definition ITEM_ENTRY : Z := 1.
Definition ITEM_TOMBSTONE : Z := 2.

Definition tag (it : Z) : Z := it.
Definition empty_dummy (it : Z) : Z := it + 8.
Definition entry_key (it : Z) : Z := it + 8.
Definition entry_value (it : Z) : Z := it + 16.
Definition tombstone_key (it : Z) : Z := it + 8.
Definition sizeof_item : Z := 24.

Definition items (m : Z) : Z := m.
Definition count (m : Z) : Z := m + 8.
Definition length (m : Z) : Z := m + 16.
Definition map_layout : layout := Layout 24 [0; 8; 16].

(** The address of the item number [i], given [m->items]. *)
Definition item (base i : Z) : Z := base + sizeof_item * i.

(** The cells of a block of [n] bytes that holds words. *)
Definition array_layout (n : Z) : layout := Layout n ((λ k, 8 * k) <$> seqZ 0 (n / 8)).

Definition SIZE_MAX : Z := 2 ^ 64 - 1.

Section code.
Context `{!Allocator}.

Fixpoint init_loop (n : nat) (m i : Z) : M heap unit :=
  match n with
  | O => mret tt
  | S n =>
      base ← load (items m);
      store (tag (item base i)) ITEM_EMPTY ;;
      base ← load (items m);
      store (empty_dummy (item base i)) 0 ;;
      init_loop n m (i + 1)
  end.

(** The loop runs [len] times. *)
Definition fsm_init (m len : Z) : M heap unit :=
  storage ← xmalloc (array_layout (u64 (sizeof_item * len)));
  store (length m) len ;;
  store (items m) storage ;;
  store (count m) len ;;
  init_loop (Z.to_nat len) m 0.

Definition fsm_slot_for_key (len key : Z) : Z := Z.rem key len.

Fixpoint probe_loop (fuel : nat) (m key slot_idx : Z) : M heap Z :=
  match fuel with
  | O => fail OutOfFuel
  | S fuel =>
      base ← load (items m);
      t ← load (tag (item base slot_idx));
      found ← (if t =? ITEM_EMPTY then mret true else
               base ← load (items m);
               t ← load (tag (item base slot_idx));
               if t =? ITEM_TOMBSTONE then
                 base ← load (items m);
                 k ← load (tombstone_key (item base slot_idx));
                 mret (k =? key)
               else mret false);
      if (found : bool) then mret slot_idx else
      base ← load (items m);
      t ← load (tag (item base slot_idx));
      found ← (if t =? ITEM_ENTRY then
                 base ← load (items m);
                 k ← load (entry_key (item base slot_idx));
                 mret (k =? key)
               else mret false);
      if (found : bool) then mret slot_idx else
      len ← load (length m);
      probe_loop fuel m key (Z.rem (u64 (slot_idx + 1)) len)
  end.

Definition fsm_probe (m key : Z) : M heap Z :=
  len ← load (length m);
  with_fuel (λ n, probe_loop n m key (fsm_slot_for_key len key)).

Definition fsm_get (m key : Z) : M heap Z :=
  slot_idx ← fsm_probe m key;
  base ← load (items m);
  let it := item base slot_idx in
  t ← load (tag it);
  if t =? ITEM_ENTRY then load (entry_value it) else mret NULL.

Definition fsm_remove (m key : Z) : M heap Z :=
  slot_idx ← fsm_probe m key;
  base ← load (items m);
  let it := item base slot_idx in
  t ← load (tag it);
  if t =? ITEM_ENTRY then
    removed ← load (entry_value it);
    store (tag it) ITEM_TOMBSTONE ;;
    store (tombstone_key it) key ;;
    mret removed
  else mret NULL.

Definition compute_min_count (len : Z) : Z := 2.

(** The loop over the items of [m], for [i] up to its length. *)
Fixpoint copy_loop (insert : Z → Z → Z → M heap Z) (n : nat) (m m2 i : Z) : M heap unit :=
  match n with
  | O => mret tt
  | S n =>
      base ← load (items m);
      t ← load (tag (item base i));
      (if t =? ITEM_ENTRY then
         base ← load (items m);
         k ← load (entry_key (item base i));
         base ← load (items m);
         v ← load (entry_value (item base i));
         insert m2 k v ;; mret tt
       else mret tt) ;;
      copy_loop insert n m m2 (i + 1)
  end.

(** [fsm_realloc_if_necessary], which calls [fsm_insert] on the new map;
    [free] is told the size of its block. *)
Definition realloc_with (insert : Z → Z → Z → M heap Z) (m : Z) : M heap unit :=
  len ← load (length m);
  c ← load (count m);
  if compute_min_count len <=? c then mret tt else
  len ← load (length m);
  (if len <? SIZE_MAX / 2 / sizeof_item - 16 then mret tt else fail NonTermination) ;;
  with_local map_layout (λ m2,
    len ← load (length m);
    let new_len := u64 (len * 2) in
    fsm_init m2 new_len ;;
    len ← load (length m);
    copy_loop insert (Z.to_nat len) m m2 0 ;;
    base ← load (items m);
    len ← load (length m);
    free (array_layout (sizeof_item * len)) base ;;
    b ← load (items m2); store (items m) b ;;
    c ← load (count m2); store (count m) c ;;
    l ← load (length m2); store (length m) l).

(** [fsm_insert] after the reallocation. *)
Definition insert_at (m key value : Z) : M heap Z :=
  slot_idx ← fsm_probe m key;
  base ← load (items m);
  let it := item base slot_idx in
  t ← load (tag it);
  replaced ← (if t =? ITEM_ENTRY then load (entry_value it) else
              t ← load (tag it);
              if t =? ITEM_EMPTY then
                c ← load (count m);
                store (count m) (u64 (c - 1)) ;;
                mret NULL
              else mret NULL);
  store (tag it) ITEM_ENTRY ;;
  store (entry_key it) key ;;
  store (entry_value it) value ;;
  mret replaced.

(** [fsm_insert] and [fsm_realloc_if_necessary] call each other; [depth] bounds
    the nesting. *)
Fixpoint insert_ (depth : nat) (m key value : Z) : M heap Z :=
  realloc_with (match depth with O => λ _ _ _, fail OutOfFuel | S d => insert_ d end) m ;;
  insert_at m key value.

(** An insertion during a reallocation does not reallocate again. *)
Definition fsm_realloc_if_necessary (m : Z) : M heap unit := realloc_with (insert_ 0) m.
Definition fsm_insert (m key value : Z) : M heap Z := insert_ 1 m key value.
End code.

Arguments tag : simpl never.
Arguments empty_dummy : simpl never.
Arguments entry_key : simpl never.
Arguments entry_value : simpl never.
Arguments tombstone_key : simpl never.
Arguments items : simpl never.
Arguments count : simpl never.
Arguments length : simpl never.
Arguments item : simpl never.
Arguments insert_ : simpl never.
Arguments insert_at : simpl never.

(** ** Slots *)

Inductive item_ref := Empty | Entry (key value : Z) | Tombstone (key : Z).
#[export] Instance item_ref_eq_dec : EqDecision item_ref.
Proof. solve_decision. Defined.

(** Where the search for [k] ends. *)
Definition stops_at (k : Z) (it : item_ref) : bool :=
  match it with
  | Empty => true
  | Entry k' _ | Tombstone k' => k' =? k
  end.

(** The [d]-th slot on the way of the search for [k] in [len] slots. *)
Definition slot (len : nat) (k : Z) (d : nat) : nat := (Z.to_nat (k mod Z.of_nat len) + d) mod len.

(** The search for [k] passes the first [d] slots of its way. *)
Definition passes (its : list item_ref) (k : Z) (d : nat) : Prop :=
  ∀ d' it, (d' < d)%nat → its !! slot (List.length its) k d' = Some it → stops_at k it = false.

(** The search for [k] ends at [i]. *)
Definition finds (its : list item_ref) (k : Z) (i : nat) : Prop :=
  ∃ d it, (d < List.length its)%nat ∧ i = slot (List.length its) k d ∧ passes its k d ∧
    its !! i = Some it ∧ stops_at k it = true.

Definition is_empty (it : item_ref) : bool := match it with Empty => true | _ => false end.
Definition empties (its : list item_ref) : nat := List.length (filter (λ it, it = Empty) its).

Section slots.
Implicit Types (its : list item_ref) (k v : Z) (d i : nat).

Lemma slot_lt len k d : (0 < len)%nat → (slot len k d < len)%nat.
Proof. intros. apply Nat.mod_upper_bound. lia. Qed.

Lemma slot_succ len k d : (0 < len)%nat → slot len k (S d) = ((slot len k d + 1) mod len)%nat.
Proof. intros. unfold slot. rewrite Nat.Div0.add_mod_idemp_l. f_equal. lia. Qed.

(** Every slot is on the way of every search. *)
Lemma slot_surj len k i : (i < len)%nat → ∃ d, (d < len)%nat ∧ slot len k d = i.
Proof.
  intros Hi. unfold slot. set (s := Z.to_nat (k mod Z.of_nat len)).
  assert (s < len)%nat as Hs.
  { pose proof (Z.mod_pos_bound k (Z.of_nat len) ltac:(lia)). unfold s. lia. }
  destruct (decide (s ≤ i)%nat).
  - exists (i - s)%nat. split; [lia|]. rewrite Nat.mod_small; lia.
  - exists (i + len - s)%nat. split; [lia|].
    replace (s + (i + len - s))%nat with (i + 1 * len)%nat by lia.
    rewrite Nat.Div0.mod_add. apply Nat.mod_small. lia.
Qed.

Lemma slot_inj len k d d' :
  (d < len)%nat → (d' < len)%nat → slot len k d = slot len k d' → d = d'.
Proof.
  intros Hd Hd' E. unfold slot in E. set (s := Z.to_nat (k mod Z.of_nat len)) in E.
  assert (s < len)%nat as Hs.
  { pose proof (Z.mod_pos_bound k (Z.of_nat len) ltac:(lia)). unfold s. lia. }
  clearbody s. assert (∀ x, (x < len)%nat → (s + x) mod len = if decide (s + x < len) then s + x else s + x - len)%nat as Hm.
  { intros x Hx. case_decide; [by apply Nat.mod_small|].
    replace (s + x)%nat with ((s + x - len) + 1 * len)%nat at 1 by lia.
    rewrite Nat.Div0.mod_add. apply Nat.mod_small. lia. }
  rewrite !Hm // in E. repeat case_decide; lia.
Qed.

Lemma finds_unique its k i j : finds its k i → finds its k j → i = j.
Proof.
  intros (d & it & Hd & -> & Hp & Hi & Hs) (d' & it' & Hd' & -> & Hp' & Hi' & Hs').
  destruct (decide (d < d')%nat) as [?|?]; [by rewrite (Hp' d it) in Hs|].
  destruct (decide (d' < d)%nat) as [?|?]; [by rewrite (Hp d' it') in Hs'|].
  by assert (d = d') as -> by lia.
Qed.

(** With an empty slot every search ends. *)
Lemma finds_exists its k d n :
  passes its k d → Empty ∈ its → (List.length its - d ≤ n)%nat → (d ≤ List.length its)%nat →
  ∃ d' it, (d ≤ d' < List.length its)%nat ∧ passes its k d' ∧
    its !! slot (List.length its) k d' = Some it ∧ stops_at k it = true.
Proof.
  intros Hp [i Hi]%list_elem_of_lookup. revert d Hp. induction n as [|n IH]; intros d Hp Hn Hd.
  - exfalso. destruct (slot_surj (List.length its) k i) as (d' & Hd' & <-); [by eapply lookup_lt_Some|].
    specialize (Hp d' Empty ltac:(lia) Hi). done.
  - destruct (decide (d = List.length its)) as [->|Hne].
    { destruct (slot_surj (List.length its) k i) as (d' & Hd' & <-); [by eapply lookup_lt_Some|].
      by specialize (Hp d' Empty ltac:(lia) Hi). }
    destruct (lookup_lt_is_Some_2 its (slot (List.length its) k d)) as [it Hit]; [apply slot_lt; lia|].
    destruct (stops_at k it) eqn:Hs; [exists d, it; split_and!; [lia|lia|done..]|].
    destruct (IH (S d)) as (d' & it' & ? & ?); [|lia|lia|exists d', it'; split; [lia|done]].
    intros e it' He Hit'. destruct (decide (e = d)) as [->|]; [|apply (Hp e); [lia|done]].
    by simplify_eq.
Qed.

(** ** The invariant of the table *)

Definition key_of (it : item_ref) : option Z :=
  match it with Empty => None | Entry k _ | Tombstone k => Some k end.

(** The entries are those of the map, and every key and every tombstone is
    where the search for it ends. *)
Record fsm_wf (mp : gmap Z Z) (its : list item_ref) : Prop := {
  wf_map k v : mp !! k = Some v ↔ ∃ i, its !! i = Some (Entry k v);
  wf_finds i it k : its !! i = Some it → key_of it = Some k → finds its k i;
}.

Lemma fsm_wf_init len : fsm_wf ∅ (replicate len Empty).
Proof.
  split.
  - intros k v. rewrite lookup_empty. split; [done|]. intros [i [Hi _]%lookup_replicate]. done.
  - intros i it k [-> _]%lookup_replicate. done.
Qed.

Lemma fsm_lookup mp its k i it :
  fsm_wf mp its → finds its k i → its !! i = Some it →
  mp !! k = match it with Entry _ v => Some v | _ => None end.
Proof.
  intros [Hmap Hfinds] Hf Hi. pose proof Hf as (d & it' & _ & _ & _ & Hi' & Hs). simplify_eq.
  assert (∀ v, mp !! k = Some v → it = Entry k v) as Hu.
  { intros v [j Hj]%Hmap. pose proof (Hfinds j _ k Hj eq_refl) as Hfj.
    rewrite (finds_unique its k j i Hfj Hf) in Hj. by simplify_eq. }
  destruct it as [|k' v|k'].
  - destruct (mp !! k) as [v|]; [by specialize (Hu v eq_refl)|done].
  - simpl in Hs. apply Z.eqb_eq in Hs as ->. apply Hmap. by exists i.
  - destruct (mp !! k) as [v|]; [by specialize (Hu v eq_refl)|done].
Qed.

Lemma stops_at_key k it it' : key_of it = Some k → stops_at it' it = (k =? it').
Proof. destruct it; by intros [= ->]. Qed.

Lemma passes_update its k k' i it d :
  passes its k' d → (stops_at k' it = false ∨ ∀ d', (d' < d)%nat → slot (List.length its) k' d' ≠ i) →
  passes (<[i := it]> its) k' d.
Proof.
  intros Hp Hor d' it' Hd'. rewrite length_insert.
  intros [[Heq [-> _]]|[_ Hit]]%list_lookup_insert_Some; [|by eapply Hp].
  destruct Hor as [?|Hne]; [done|]. by destruct (Hne d' Hd').
Qed.

(** Writing an entry or a tombstone of [k] where the search for [k] ends. *)
Lemma fsm_wf_update mp its k i it :
  fsm_wf mp its → finds its k i → key_of it = Some k →
  fsm_wf (match it with Entry _ v => <[k := v]> mp | _ => delete k mp end) (<[i := it]> its).
Proof.
  intros [Hmap Hfinds] Hf Hk. pose proof Hf as (d & old & Hd & Ei & Hp & Hi & Hs).
  assert (i < List.length its)%nat as Hlt by by eapply lookup_lt_Some.
  assert (∀ j it', j ≠ i → its !! j = Some it' → key_of it' ≠ Some k) as Hother.
  { intros j it' Hne Hj Hk'. destruct Hne. eapply finds_unique; [|done]. by eapply Hfinds. }
  split.
  - intros k' v. destruct (decide (k' = k)) as [->|Hne].
    + assert (∀ j, <[i := it]> its !! j = Some (Entry k v) → j = i ∧ it = Entry k v) as Hat.
      { intros j [[-> [<- _]]|[Hj Hjv]]%list_lookup_insert_Some; [done|].
        by destruct (Hother j (Entry k v)). }
      destruct it as [|k0 v0|k0]; [done|injection Hk as ->..]; simpl.
      * rewrite lookup_insert_eq. split.
        -- intros [= ->]. exists i. by apply list_lookup_insert_eq.
        -- intros [j [_ ?]%Hat]. by simplify_eq.
      * rewrite lookup_delete_eq. split; [done|]. by intros [j [_ ?]%Hat].
    + transitivity (∃ j, its !! j = Some (Entry k' v)).
      { rewrite -Hmap. destruct it as [|k0 v0|k0]; [done|by rewrite lookup_insert_ne|by rewrite lookup_delete_ne]. }
      split; intros [j Hj]; exists j.
      * rewrite list_lookup_insert_ne //. intros <-. simplify_eq.
        simpl in Hs. by apply Z.eqb_eq in Hs.
      * apply list_lookup_insert_Some in Hj as [[-> [-> _]]|[_ ?]]; [|done].
        by injection Hk as ->.
  - intros j it' k' Hj Hk'. apply list_lookup_insert_Some in Hj as [[<- [-> _]]|[Hne Hj]].
    + simplify_eq. exists d, it'. rewrite length_insert. split_and!; [done|done| |by apply list_lookup_insert_eq|].
      * apply (passes_update its k k); [done|]. right. intros d' Hd' E.
        assert (d' = d); [|lia]. apply (slot_inj (List.length its) k); [lia|done|congruence].
      * rewrite (stops_at_key k) //. by apply Z.eqb_refl.
    + assert (k' ≠ k) as Hkk by (intros ->; by eapply Hother).
      destruct (Hfinds j it' k' Hj Hk') as (e & it2 & He & Ej & Hp' & Hj' & Hs'). simplify_eq.
      exists e, it'. rewrite length_insert. split_and!; [done|done| | |done].
      * apply (passes_update its k k'); [done|]. left. rewrite (stops_at_key k) //.
        by apply Z.eqb_neq.
      * by rewrite list_lookup_insert_ne.
Qed.

Lemma empties_fill its i it :
  its !! i = Some Empty → it ≠ Empty → empties its = S (empties (<[i := it]> its)).
Proof.
  intros Hi Hne. unfold empties. rewrite -{1}(take_drop_middle its i Empty Hi).
  rewrite insert_take_drop; [|by eapply lookup_lt_Some].
  rewrite !filter_app !filter_cons !length_app. rewrite (decide_False (P := it = Empty)) // /=.
Qed.

Lemma empties_keep its i old it :
  its !! i = Some old → old ≠ Empty → it ≠ Empty → empties (<[i := it]> its) = empties its.
Proof.
  intros Hi Ho Hne. unfold empties. rewrite -{2}(take_drop_middle its i old Hi).
  rewrite insert_take_drop; [|by eapply lookup_lt_Some].
  rewrite !filter_app !filter_cons !length_app. by rewrite !decide_False.
Qed.

Lemma empties_of its : Empty ∈ its → (0 < empties its)%nat.
Proof.
  intros He. unfold empties. assert (Empty ∈ filter (λ it, it = Empty) its) as Hin
    by by apply list_elem_of_filter.
  destruct (filter _ its); [by apply not_elem_of_nil in Hin|simpl; lia].
Qed.

Lemma empties_le its : (empties its ≤ List.length its)%nat.
Proof. apply length_filter. Qed.

Lemma empties_pos its : (0 < empties its)%nat → Empty ∈ its.
Proof.
  unfold empties. destruct (filter _ its) as [|x l] eqn:E; simpl; [lia|]. intros _.
  assert (x ∈ filter (λ it, it = Empty) its) as [-> ?]%list_elem_of_filter; [|done].
  rewrite E. by left.
Qed.
End slots.

(** ** Tables in memory *)

Definition tag_of (it : item_ref) : Z :=
  match it with Empty => ITEM_EMPTY | Entry _ _ => ITEM_ENTRY | Tombstone _ => ITEM_TOMBSTONE end.

Definition item_at (a : Z) (it : item_ref) : hPropI :=
  (tag a ↦ tag_of it ∗
   match it with
   | Empty => empty_dummy a ↦? ∗ entry_value a ↦?
   | Entry k v => entry_key a ↦ k ∗ entry_value a ↦ v
   | Tombstone k => tombstone_key a ↦ k ∗ entry_value a ↦?
   end)%I.

Definition items_in (base : Z) (its : list item_ref) : hPropI :=
  ([∗ list] i ↦ it ∈ its, item_at (item base (Z.of_nat i)) it)%I.

(** The map at [m] with its items, [c] being what it takes for the number of
    empty ones. *)
Definition table (m : Z) (its : list item_ref) (c : Z) : hPropI :=
  (∃ base, items m ↦ base ∗ count m ↦ c ∗ length m ↦ Z.of_nat (List.length its) ∗
     items_in base its)%I.

Lemma item_cells a it : item_at a it ⊢ tag a ↦ tag_of it ∗ entry_key a ↦? ∗ entry_value a ↦?.
Proof.
  destruct it; iIntros "($ & H1 & H2)"; (iSplitL "H1"; [|done || by iExists _]); [done|by iExists _..].
Qed.

(** Decide the comparisons of a known tag. *)
#[local] Ltac tag_simpl :=
  cbn [tag_of Z.eqb Pos.eqb ITEM_EMPTY ITEM_ENTRY ITEM_TOMBSTONE]; cbv iota.

Section specs.
Implicit Types (its : list item_ref) (k v m : Z) (d i : nat).

Lemma items_acc base its i it :
  its !! i = Some it →
  items_in base its ⊢ item_at (item base (Z.of_nat i)) it ∗
    (∀ it', item_at (item base (Z.of_nat i)) it' -∗ items_in base (<[i := it']> its)).
Proof. intros. by apply (big_sepL_insert_acc (λ i, item_at (item base (Z.of_nat i)))). Qed.

Lemma table_cells m its c : table m its c ⊢ at_least (List.length its).
Proof.
  iIntros "(%base & _ & _ & _ & H)". iApply (big_sepL_at_least with "H").
  iIntros (i it) "[H _]". iApply (at_least_cell with "H").
Qed.

(** Reading one item and putting it back. *)
Lemma items_read base its i it :
  its !! i = Some it →
  items_in base its ⊢ item_at (item base (Z.of_nat i)) it ∗
    (item_at (item base (Z.of_nat i)) it -∗ items_in base its).
Proof.
  iIntros (Hi) "H". iDestruct (items_acc with "H") as "[$ H]"; [done|]. iIntros "Hit".
  iSpecialize ("H" with "Hit"). by rewrite list_insert_id.
Qed.

Lemma next_slot len k d :
  (0 < len)%nat → Z.of_nat len < 2 ^ 63 →
  Z.rem (u64 (Z.of_nat (slot len k d) + 1)) (Z.of_nat len) = Z.of_nat (slot len k (S d)).
Proof.
  intros Hl Hlen. pose proof (slot_lt len k d Hl).
  rewrite wrap_small; [|unfold in_unsigned; lia]. rewrite Z.rem_mod_nonneg; [|lia..].
  rewrite slot_succ // Nat2Z.inj_mod. f_equal. lia.
Qed.

Lemma first_slot len k :
  (0 < len)%nat → 0 ≤ k → fsm_slot_for_key (Z.of_nat len) k = Z.of_nat (slot len k 0).
Proof.
  intros Hl Hk. unfold fsm_slot_for_key, slot. rewrite Z.rem_mod_nonneg; [|lia..].
  pose proof (Z.mod_pos_bound k (Z.of_nat len) ltac:(lia)).
  rewrite Nat.add_0_r Nat.mod_small; lia.
Qed.

Lemma probe_loop_spec n m its c k d d' it :
  Z.of_nat (List.length its) < 2 ^ 63 → (d ≤ d' < List.length its)%nat → (d' - d < n)%nat →
  passes its k d' → its !! slot (List.length its) k d' = Some it → stops_at k it = true →
  {{ table m its c }} probe_loop n m k (Z.of_nat (slot (List.length its) k d))
  {{ r, ⌜r = Z.of_nat (slot (List.length its) k d')⌝ ∗ table m its c }}.
Proof.
  intros Hlen. revert d. induction n as [|n IH]; intros d Hd Hn Hp Hit Hs; [lia|].
  triple_start. iIntros "(%base & Hi & Hc & Hl & H)". cbn [probe_loop].
  pose proof (slot_lt (List.length its) k d ltac:(lia)) as Hlt.
  destruct (lookup_lt_is_Some_2 its (slot (List.length its) k d) Hlt) as [it' Hit'].
  assert (stops_at k it' = true → d = d') as Hret.
  { intros Hs'. destruct (decide (d < d')%nat); [|lia]. by rewrite (Hp d it') in Hs'. }
  assert (stops_at k it' = false → (S d ≤ d' < List.length its)%nat ∧ (d' - S d < n)%nat) as Hcont.
  { intros Hs'. destruct (decide (d = d')) as [->|]; [|lia]. congruence. }
  pose proof (next_slot (List.length its) k d ltac:(lia) Hlen) as Hnext.
  iDestruct (items_read with "H") as "[[Ht Hk] Hback]"; [done|]. wp_load. wp_load.
  destruct it' as [|k' v|k']; cbn [tag_of stops_at] in *; tag_simpl.
  - wp_rets. rewrite Hret //. iSplit; [done|]. iExists base. iFrame. iApply "Hback". iFrame.
  - iDestruct "Hk" as "[Hk Hv]". wp_steps. destruct (k' =? k); wp_rets; wp_steps.
    + rewrite Hret //. iSplit; [done|]. iExists base. iFrame. iApply "Hback". iFrame.
    + rewrite Hnext. destruct (Hcont eq_refl) as [Hd' Hn'].
      wp_call (IH (S d) Hd' Hn' Hp Hit Hs) with "[-]"; [|by iIntros (r) "H"].
      iExists base. iFrame. iApply "Hback". iFrame.
  - iDestruct "Hk" as "[Hk Hv]". wp_steps. destruct (k' =? k); wp_rets; wp_steps.
    + rewrite Hret //. iSplit; [done|]. iExists base. iFrame. iApply "Hback". iFrame.
    + rewrite Hnext. destruct (Hcont eq_refl) as [Hd' Hn'].
      wp_call (IH (S d) Hd' Hn' Hp Hit Hs) with "[-]"; [|by iIntros (r) "H"].
      iExists base. iFrame. iApply "Hback". iFrame.
Qed.

Lemma fsm_probe_spec m its c k :
  0 ≤ k → Empty ∈ its → Z.of_nat (List.length its) < 2 ^ 63 →
  {{ table m its c }} fsm_probe m k
  {{ r, ∃ i, ⌜r = Z.of_nat i ∧ finds its k i⌝ ∗ table m its c }}.
Proof.
  intros Hk He Hlen. assert (0 < List.length its)%nat as Hpos.
  { destruct its; [by apply not_elem_of_nil in He|simpl; lia]. }
  destruct (finds_exists its k 0 (List.length its)) as (d & it & Hd & Hp & Hit & Hs);
    [intros ? ? ?; lia|done|lia|lia|].
  triple_start. iIntros "(%base & Hi & Hc & Hl & H)". unfold fsm_probe. wp_load.
  rewrite first_slot //. iAssert (table m its c) with "[-]" as "H"; [iExists base; iFrame|].
  iApply (wp_wand with "[H]").
  { iApply (triple_with_fuel (List.length its) with "H"); [by iApply table_cells|].
    intros n Hn. by apply (probe_loop_spec n m its c k 0 d it); [..|lia| | |]. }
  iIntros (r) "[-> H]". iExists _. iFrame. iPureIntro. split; [done|].
  exists d, it. split_and!; [lia|done..].
Qed.

(** ** Single operations on the table *)

Definition value_of (it : item_ref) : Z := match it with Entry _ v => v | _ => NULL end.

Lemma fsm_get_table m its c k :
  0 ≤ k → Empty ∈ its → Z.of_nat (List.length its) < 2 ^ 63 →
  {{ table m its c }} fsm_get m k
  {{ r, ∃ i it, ⌜finds its k i ∧ its !! i = Some it ∧ r = value_of it⌝ ∗ table m its c }}.
Proof.
  intros Hk He Hlen. triple_start. iIntros "H". unfold fsm_get.
  wp_call (fsm_probe_spec m its c k Hk He Hlen) with "H". iIntros (r) "(%i & [-> %Hf] & H)".
  iDestruct "H" as (base) "(Hi & Hc & Hl & H)". wp_load.
  pose proof Hf as (d & it & _ & _ & _ & Hit & _).
  iDestruct (items_read with "H") as "[[Ht Hv] Hback]"; [done|]. wp_load.
  destruct it as [|k' v|k']; tag_simpl.
  - wp_rets. iExists i, _. iSplit; [done|]. iExists base. iFrame. iApply "Hback". iFrame.
  - iDestruct "Hv" as "[Hk Hv]". wp_steps. iExists i, _. iSplit; [done|]. iExists base. iFrame.
    iApply "Hback". iFrame.
  - wp_rets. iExists i, _. iSplit; [done|]. iExists base. iFrame. iApply "Hback". iFrame.
Qed.

Definition removed (k : Z) (it : item_ref) : item_ref :=
  match it with Entry _ _ => Tombstone k | _ => it end.

Lemma fsm_remove_table m its c k :
  0 ≤ k → Empty ∈ its → Z.of_nat (List.length its) < 2 ^ 63 →
  {{ table m its c }} fsm_remove m k
  {{ r, ∃ i it, ⌜finds its k i ∧ its !! i = Some it ∧ r = value_of it⌝ ∗
     table m (<[i := removed k it]> its) c }}.
Proof.
  intros Hk He Hlen. triple_start. iIntros "H". unfold fsm_remove.
  wp_call (fsm_probe_spec m its c k Hk He Hlen) with "H". iIntros (r) "(%i & [-> %Hf] & H)".
  iDestruct "H" as (base) "(Hi & Hc & Hl & H)". wp_load.
  pose proof Hf as (d & it & _ & _ & _ & Hit & _).
  iDestruct (items_acc with "H") as "[[Ht Hv] Hback]"; [done|]. wp_load.
  destruct it as [|k' v|k']; tag_simpl.
  - wp_rets. iExists i, _. iSplit; [done|]. iExists base. rewrite length_insert. iFrame.
    iApply "Hback". iFrame.
  - iDestruct "Hv" as "[Hk Hv]". wp_load. wp_store.
    change (entry_key (item base (Z.of_nat i))) with (tombstone_key (item base (Z.of_nat i))).
    wp_store. iExists i, _. iSplit; [done|]. iExists base. rewrite length_insert. iFrame.
    iApply "Hback". iFrame.
  - wp_rets. iExists i, _. iSplit; [done|]. iExists base. rewrite length_insert. iFrame.
    iApply "Hback". iFrame.
Qed.

Lemma insert_at_table m its k v :
  0 ≤ k → Empty ∈ its → Z.of_nat (List.length its) < 2 ^ 63 →
  {{ table m its (Z.of_nat (empties its)) }} insert_at m k v
  {{ r, ∃ i it, ⌜finds its k i ∧ its !! i = Some it ∧ r = value_of it⌝ ∗
     table m (<[i := Entry k v]> its) (Z.of_nat (empties (<[i := Entry k v]> its))) }}.
Proof.
  intros Hk He Hlen. triple_start. iIntros "H". unfold insert_at.
  wp_call (fsm_probe_spec m its _ k Hk He Hlen) with "H". iIntros (r) "(%i & [-> %Hf] & H)".
  iDestruct "H" as (base) "(Hi & Hc & Hl & H)". wp_load.
  pose proof Hf as (d & it & _ & _ & _ & Hit & _).
  iDestruct (items_acc with "H") as "[Hit Hback]"; [done|].
  assert (∀ r c, r = value_of it → c = Z.of_nat (empties (<[i := Entry k v]> its)) →
    items m ↦ base -∗ count m ↦ c -∗ length m ↦ Z.of_nat (List.length its) -∗
    (∀ it', item_at (item base (Z.of_nat i)) it' -∗ items_in base (<[i := it']> its)) -∗
    tag (item base (Z.of_nat i)) ↦ ITEM_ENTRY -∗ entry_key (item base (Z.of_nat i)) ↦ k -∗
    entry_value (item base (Z.of_nat i)) ↦ v -∗
    ∃ i it, ⌜finds its k i ∧ its !! i = Some it ∧ r = value_of it⌝ ∗
      table m (<[i := Entry k v]> its) (Z.of_nat (empties (<[i := Entry k v]> its)))) as Hend.
  { iIntros (r c -> ->) "Hi Hc Hl Hback Ht Hk Hv". iExists i, it. iSplit; [done|]. iExists base.
    rewrite length_insert. iFrame. iApply "Hback". iFrame. }
  destruct it as [|k' v'|k'].
  - iDestruct "Hit" as "(Ht & [% Hk] & [% Hv])". wp_load. tag_simpl. wp_load. tag_simpl. wp_load.
    wp_store.
    change (empty_dummy (item base (Z.of_nat i))) with (entry_key (item base (Z.of_nat i))).
    wp_steps. iApply (Hend with "Hi Hc Hl Hback Ht Hk Hv"); [done|].
    rewrite (empties_fill its i (Entry k v) Hit) //. pose proof (empties_le (<[i := Entry k v]> its)).
    rewrite length_insert in H. rewrite wrap_small; [lia|unfold in_unsigned; lia].
  - iDestruct "Hit" as "(Ht & Hk & Hv)". wp_load. tag_simpl. wp_load. wp_steps.
    iApply (Hend with "Hi Hc Hl Hback Ht Hk Hv"); [done|].
    by rewrite (empties_keep its i _ (Entry k v) Hit).
  - iDestruct "Hit" as "(Ht & Hk & [% Hv])". wp_load. tag_simpl. wp_load. tag_simpl. wp_rets.
    change (tombstone_key (item base (Z.of_nat i))) with (entry_key (item base (Z.of_nat i))).
    wp_steps. iApply (Hend with "Hi Hc Hl Hback Ht Hk Hv"); [done|].
    by rewrite (empties_keep its i _ (Entry k v) Hit).
Qed.

(** ** Arrays of items and raw memory *)

Lemma item_shift base i : item base (Z.of_nat (S i)) = item (base + 24) (Z.of_nat i).
Proof. unfold item, sizeof_item. lia. Qed.

Lemma items_in_cons base it its : items_in base (it :: its) ⊣⊢ item_at base it ∗ items_in (base + 24) its.
Proof.
  unfold items_in. rewrite big_sepL_cons. unfold item at 1, sizeof_item. rewrite Z.mul_0_r Z.add_0_r.
  f_equiv. apply big_sepL_proper. intros i x _. by rewrite item_shift.
Qed.

Lemma raw_item a : raw a 24 ⊣⊢ tag a ↦? ∗ empty_dummy a ↦? ∗ entry_value a ↦?.
Proof.
  rewrite raw_words // raw_word // /raw. change (seqZ 0 ((24 - 16 - 8) / 8)) with (@nil Z).
  by rewrite /= right_id.
Qed.

Lemma item_at_raw a it : item_at a it ⊢ raw a 24.
Proof.
  rewrite item_cells raw_item. iIntros "(Ht & Hk & $)". iSplitL "Ht"; [by iExists _|]. iApply "Hk".
Qed.

Lemma items_raw base its : items_in base its ⊢ raw base (sizeof_item * Z.of_nat (List.length its)).
Proof.
  revert base. induction its as [|it its IH]; intros base; [by iIntros "_"; rewrite /raw|].
  rewrite items_in_cons item_at_raw IH. unfold sizeof_item.
  replace (24 * Z.of_nat (List.length (it :: its))) with (24 + 24 * Z.of_nat (List.length its))
    by (simpl; lia).
  rewrite raw_split //; [lia|by exists 3].
Qed.

Lemma array_block a n : HeapLogic.block a (array_layout n) ⊣⊢ raw a n.
Proof. by rewrite /HeapLogic.block /array_layout /raw big_sepL_fmap. Qed.

Lemma words_layout_wf n : 0 ≤ n → layout_wf (array_layout n).
Proof.
  intros Hn. split; simpl.
  - apply NoDup_fmap_2; [intros x y; lia|]. apply NoDup_seqZ.
  - apply Forall_forall. intros o (k & -> & Hk%elem_of_seqZ)%list_elem_of_fmap.
    pose proof (Z.mul_div_le n 8 ltac:(lia)). lia.
Qed.

Lemma init_loop_spec n m base (i : Z) :
  {{ items m ↦ base ∗ raw (item base i) (sizeof_item * Z.of_nat n) }} init_loop n m i
  {{ _, items m ↦ base ∗ items_in (item base i) (replicate n Empty) }}.
Proof.
  revert i. induction n as [|n IH]; intros i; triple_start; iIntros "[Hi H]"; cbn [init_loop].
  - wp_rets. by iFrame.
  - unfold sizeof_item. replace (24 * Z.of_nat (S n)) with (24 + 24 * Z.of_nat n) by lia.
    rewrite raw_split; [|lia|lia|by exists 3]. rewrite raw_item.
    iDestruct "H" as "[([% Ht] & [% Hd] & [% Hv]) H]". wp_steps.
    replace (item base i + 24) with (item base (i + 1)) by (unfold item, sizeof_item; lia).
    wp_call (IH (i + 1)) with "[$Hi $H]". iIntros (_) "[$ H]". cbn [replicate].
    rewrite items_in_cons. replace (item base i + 24) with (item base (i + 1)) by (unfold item, sizeof_item; lia).
    iFrame.
Qed.

Section alloc.
Context `{!Allocator, !AllocatorTotal}.

Definition map_uninit (m : Z) : hPropI := (items m ↦? ∗ count m ↦? ∗ length m ↦?)%I.

Lemma fsm_init_table m len :
  (0 < len)%nat → sizeof_item * Z.of_nat len < 2 ^ 64 →
  {{ map_uninit m }} fsm_init m (Z.of_nat len)
  {{ _, table m (replicate len Empty) (Z.of_nat len) }}.
Proof.
  intros Hlen Hb. triple_start. iIntros "([% Hi] & [% Hc] & [% Hl])". unfold fsm_init.
  rewrite wrap_small; [|unfold in_unsigned, sizeof_item in *; lia]. wp_focus.
  iApply wp_xmalloc; [apply words_layout_wf; unfold sizeof_item; lia|].
  iIntros (p Hp) "Hblock". rewrite array_block. wp_steps.
  replace p with (item p 0) at 2 by (unfold item; lia). rewrite Nat2Z.id.
  wp_call (init_loop_spec len m p 0) with "[$Hi $Hblock]". iIntros (_) "[Hi H]".
  iExists p. rewrite length_replicate. iFrame. by replace (item p 0) with p by (unfold item; lia).
Qed.

(** Enough empty slots: nothing is reallocated. *)
Lemma realloc_not_needed ins m its c :
  2 ≤ c → {{ table m its c }} realloc_with ins m {{ _, table m its c }}.
Proof.
  intros Hc. triple_start. iIntros "(%base & Hi & Hc & Hl & H)". unfold realloc_with.
  wp_load. wp_load. rewrite (proj2 (Z.leb_le _ _)) //. wp_rets. iExists base. iFrame.
Qed.

Lemma insert_0_table m its k v :
  0 ≤ k → (2 ≤ empties its)%nat → Z.of_nat (List.length its) < 2 ^ 63 →
  {{ table m its (Z.of_nat (empties its)) }} insert_ 0 m k v
  {{ r, ∃ i it, ⌜finds its k i ∧ its !! i = Some it ∧ r = value_of it⌝ ∗
     table m (<[i := Entry k v]> its) (Z.of_nat (empties (<[i := Entry k v]> its))) }}.
Proof.
  intros Hk He Hlen. triple_start. iIntros "H".
  change (insert_ 0 m k v) with (realloc_with (λ _ _ _, fail OutOfFuel) m ;; insert_at m k v).
  assert (2 ≤ Z.of_nat (empties its)) as H2 by lia.
  wp_call (realloc_not_needed _ m its _ H2) with "H". iIntros (_) "H".
  assert (Empty ∈ its) as Hin by (apply empties_pos; lia).
  wp_call (insert_at_table m its k v Hk Hin Hlen) with "H". by iIntros (r) "H".
Qed.

(** ** Reallocation *)

(** The map after the entries of a list of items are inserted in order. *)
Definition add_item (mp : gmap Z Z) (it : item_ref) : gmap Z Z :=
  match it with Entry k v => <[k := v]> mp | _ => mp end.

Definition keys_ok its : Prop := ∀ k v, Entry k v ∈ its → 0 ≤ k.

Lemma fsm_wf_insert mp its i k v :
  fsm_wf mp its → finds its k i → fsm_wf (<[k := v]> mp) (<[i := Entry k v]> its).
Proof. intros Hwf Hf. by apply (fsm_wf_update mp its k i (Entry k v)). Qed.

Lemma empties_insert its i it k v :
  its !! i = Some it → (empties its ≤ S (empties (<[i := Entry k v]> its)))%nat.
Proof.
  intros Hi. destruct (decide (it = Empty)) as [->|Hne].
  - rewrite (empties_fill its i (Entry k v)) //.
  - rewrite (empties_keep its i it (Entry k v)) //. lia.
Qed.

Lemma copy_loop_spec m its c m2 n i its2 mp2 :
  (i + n = List.length its)%nat → keys_ok its → fsm_wf mp2 its2 → (n + 2 ≤ empties its2)%nat →
  Z.of_nat (List.length its2) < 2 ^ 63 →
  {{ table m its c ∗ table m2 its2 (Z.of_nat (empties its2)) }}
    copy_loop (insert_ 0) n m m2 (Z.of_nat i)
  {{ _, table m its c ∗ ∃ its2', table m2 its2' (Z.of_nat (empties its2')) ∗
     ⌜fsm_wf (foldl add_item mp2 (drop i its)) its2' ∧ List.length its2' = List.length its2 ∧
      (empties its2 ≤ n + empties its2')%nat⌝ }}.
Proof.
  revert i its2 mp2. induction n as [|n IH]; intros i its2 mp2 Hi Hkeys Hwf He Hlen.
  { triple_start. iIntros "[H H2]". cbn [copy_loop]. wp_rets. iFrame. iPureIntro.
    rewrite drop_ge; [|lia]. done. }
  triple_start. iIntros "[(%base & Hi & Hc & Hl & H) H2]". cbn [copy_loop].
  destruct (lookup_lt_is_Some_2 its i ltac:(lia)) as [it Hit]. rewrite (drop_S its it i Hit).
  iDestruct (items_read with "H") as "[[Ht Hv] Hback]"; [done|]. wp_load. wp_load.
  replace (Z.of_nat i + 1) with (Z.of_nat (S i)) by lia.
  assert (S i + n = List.length its)%nat as Hi' by lia.
  destruct (decide (tag_of it = ITEM_ENTRY)) as [Htag|Htag].
  - destruct it as [|k v|k]; [done| |done]. tag_simpl. iDestruct "Hv" as "[Hk Hv]". wp_steps.
    assert (0 ≤ k) as Hk by (eapply Hkeys, list_elem_of_lookup_2, Hit).
    assert (2 ≤ empties its2)%nat as He2 by lia.
    wp_call (insert_0_table m2 its2 k v Hk He2 Hlen) with "H2".
    iIntros (r) "(%j & %old & (%Hf & %Hj & _) & H2)". wp_rets.
    pose proof (empties_insert its2 j old k v Hj) as Hem.
    assert (n + 2 ≤ empties (<[j := Entry k v]> its2))%nat as He' by lia.
    assert (Z.of_nat (List.length (<[j := Entry k v]> its2)) < 2 ^ 63) as Hlen'
      by by rewrite length_insert.
    wp_call (IH (S i) _ _ Hi' Hkeys (fsm_wf_insert mp2 its2 j k v Hwf Hf) He' Hlen') with "[-]".
    { iFrame "H2". iExists base. iFrame. iApply "Hback". iFrame. }
    iIntros (_) "[$ (%its3 & H3 & %Hw3 & %Hl3 & %He3)]". iExists its3. iFrame. iPureIntro.
    rewrite length_insert in Hl3. split_and!; [done|done|lia].
  - rewrite (proj2 (Z.eqb_neq _ _)) //. wp_rets.
    assert (n + 2 ≤ empties its2)%nat as He' by lia.
    wp_call (IH (S i) its2 mp2 Hi' Hkeys Hwf He' Hlen) with "[-]".
    { iFrame "H2". iExists base. iFrame. iApply "Hback". iFrame. }
    iIntros (_) "[$ (%its3 & H3 & %Hw3 & %Hl3 & %He3)]". iExists its3. iFrame. iPureIntro.
    destruct it; [|done|]; split_and!; done || lia.
Qed.
(** Copying every entry of a table gives the map back. *)
Lemma foldl_add_item_other mp k its :
  (∀ v, Entry k v ∉ its) → foldl add_item mp its !! k = mp !! k.
Proof.
  revert mp. induction its as [|it its IH]; intros mp Hk; [done|]. cbn [foldl].
  rewrite IH; [|intros v ?; by eapply Hk, list_elem_of_further].
  destruct it as [|k' v|k']; [done| |done]. cbn [add_item]. rewrite lookup_insert_ne //.
  intros ->. eapply Hk, list_elem_of_here.
Qed.

Lemma foldl_add_item_all mp its : fsm_wf mp its → foldl add_item ∅ its = mp.
Proof.
  intros Hwf. apply map_eq. intros k. destruct (mp !! k) as [v|] eqn:Hk.
  - pose proof (proj1 (wf_map mp its Hwf k v) Hk) as [i Hi].
    rewrite -(take_drop_middle its i _ Hi) foldl_app. cbn [foldl add_item].
    rewrite foldl_add_item_other; [by rewrite lookup_insert_eq|].
    intros v' [j Hj]%list_elem_of_lookup. rewrite lookup_drop in Hj.
    pose proof (finds_unique its k _ _ (wf_finds _ _ Hwf _ _ k Hi eq_refl)
      (wf_finds _ _ Hwf _ _ k Hj eq_refl)). lia.
  - rewrite foldl_add_item_other; [by rewrite lookup_empty|].
    intros v [i Hi]%list_elem_of_lookup. assert (mp !! k = Some v); [|congruence].
    apply (wf_map mp its Hwf). by exists i.
Qed.

(** The keys of a map are values of [size_t]. *)
Definition keys_in (mp : gmap Z Z) : Prop := ∀ k, is_Some (mp !! k) → 0 ≤ k < 2 ^ 64.

Lemma keys_in_ok mp its : fsm_wf mp its → keys_in mp → keys_ok its.
Proof.
  intros Hwf Hin k v [i Hi]%list_elem_of_lookup. apply Hin. exists v.
  apply (wf_map mp its Hwf). by exists i.
Qed.

Definition LIMIT : Z := SIZE_MAX / 2 / sizeof_item - 16.

(** What a reallocation of a full table leaves: twice the slots, and as many
    empty ones as there were slots. *)
Definition reallocated its its2 : Prop :=
  its2 = its ∧ (2 ≤ empties its)%nat ∨
  List.length its2 = (2 * List.length its)%nat ∧ (List.length its ≤ empties its2)%nat ∧
  (empties its = 1)%nat.

Lemma map_block a : HeapLogic.block a map_layout ⊣⊢ map_uninit a.
Proof.
  rewrite /HeapLogic.block /map_layout /map_uninit /items /count /length /= Z.add_0_r right_id //.
Qed.

Lemma map_layout_wf : layout_wf map_layout.
Proof. split; [by apply (bool_decide_unpack (NoDup _))|by apply (bool_decide_unpack (Forall _ _))]. Qed.

Lemma empties_replicate n : empties (replicate n Empty) = n.
Proof.
  unfold empties. induction n as [|n IH]; [done|]. cbn [replicate].
  by rewrite filter_cons_True //= IH.
Qed.

Lemma realloc_table m its mp :
  fsm_wf mp its → keys_in mp → (1 < List.length its)%nat → (0 < empties its)%nat →
  ((empties its = 1)%nat → Z.of_nat (List.length its) < LIMIT) →
  {{ table m its (Z.of_nat (empties its)) }} fsm_realloc_if_necessary m
  {{ _, ∃ its2, table m its2 (Z.of_nat (empties its2)) ∗
     ⌜fsm_wf mp its2 ∧ reallocated its its2⌝ }}.
Proof.
  intros Hwf Hin Hlen He Hlim. unfold fsm_realloc_if_necessary.
  destruct (decide (2 ≤ empties its)%nat) as [He2|He1].
  { triple_start. iIntros "H". assert (2 ≤ Z.of_nat (empties its)) as H2 by lia.
    wp_call (realloc_not_needed (insert_ 0) m its _ H2) with "H". iIntros (_) "H".
    iExists its. iFrame. iPureIntro. split; [done|]. by left. }
  specialize (Hlim ltac:(lia)). triple_start.
  iIntros "(%base & Hi & Hc & Hl & H)". unfold realloc_with. wp_load. wp_load.
  rewrite (proj2 (Z.leb_gt _ _)); [|unfold compute_min_count; lia]. wp_load.
  rewrite (proj2 (Z.ltb_lt _ _)) //. wp_rets. assert (LIMIT = 384307168202282309) as HL by done.
  iApply (wp_with_local _ _ _ map_layout_wf). iIntros (m2) "Hm2".
  iDestruct (map_block with "Hm2") as "Hm2".
  wp_load. rewrite wrap_small; [|unfold in_unsigned; lia].
  replace (Z.of_nat (List.length its) * 2) with (Z.of_nat (2 * List.length its)) by lia.
  assert (0 < 2 * List.length its)%nat as Hpos by lia.
  assert (sizeof_item * Z.of_nat (2 * List.length its) < 2 ^ 64) as Hsize by (unfold sizeof_item; lia).
  wp_call (fsm_init_table m2 _ Hpos Hsize) with "Hm2". iIntros (_) "H2". wp_load. rewrite Nat2Z.id.
  iAssert (table m its (Z.of_nat (empties its))) with "[Hi Hc Hl H]" as "H"; [iExists base; iFrame|].
  assert (0 + List.length its = List.length its)%nat as Hi0 by done.
  pose proof (fsm_wf_init (2 * List.length its)) as Hwf0.
  pose proof (empties_replicate (2 * List.length its)) as Hrep.
  assert (List.length its + 2 ≤ empties (replicate (2 * List.length its) Empty))%nat as Hroom by lia.
  assert (Z.of_nat (List.length (replicate (2 * List.length its) Empty)) < 2 ^ 63) as Hl63
    by (rewrite length_replicate; lia).
  wp_call (copy_loop_spec m its _ m2 _ 0 _ _ Hi0 (keys_in_ok mp its Hwf Hin) Hwf0 Hroom Hl63) with "[H H2]".
  { rewrite Hrep. iFrame. }
  rewrite drop_0 (foldl_add_item_all mp its Hwf).
  iIntros (_) "[(%b1 & Hi & Hc & Hl & H) (%its2 & (%b2 & Hi2 & Hc2 & Hl2 & H2) & %Hwf2 & %Hlen2 & %He2)]".
  rewrite length_replicate in Hlen2. rewrite Hrep in He2. wp_load. wp_load. wp_focus.
  iApply (wp_free with "[H]"); [rewrite array_block; by iApply items_raw|].
  wp_steps. rewrite map_block. iSplitL "Hi2 Hc2 Hl2".
  { iSplitL "Hi2"; [by iExists _|]. iSplitL "Hc2"; by iExists _. }
  iExists its2. iSplit; [iExists b2; iFrame|]. iPureIntro. split; [done|]. right. lia.
Qed.

(** ** The map *)

(** What holds of a table that represents [mp], [n] insertions after it was
    made.  The last bound is what a doubling pays for: a reallocation empties
    half of the slots, and an insertion fills one. *)
Record fsm_ok (mp : gmap Z Z) (its : list item_ref) (n : nat) : Prop := {
  ok_wf : fsm_wf mp its;
  ok_keys : keys_in mp;
  ok_length : (1 < List.length its)%nat;
  ok_empties : (0 < empties its)%nat;
  ok_size : sizeof_item * Z.of_nat (List.length its) < 2 ^ 64;
  ok_paid : (List.length its ≤ 2 * empties its + 2 * n)%nat;
}.

Definition fsm (m : Z) (mp : gmap Z Z) (n : nat) : hPropI :=
  (∃ its, table m its (Z.of_nat (empties its)) ∗ ⌜fsm_ok mp its n⌝)%I.

Lemma fsm_ok_short mp its n : fsm_ok mp its n → Z.of_nat (List.length its) < 2 ^ 63.
Proof. intros [_ _ _ _ ? _]. unfold sizeof_item in *. lia. Qed.

Lemma fsm_ok_empty mp its n : fsm_ok mp its n → Empty ∈ its.
Proof. intros []. by apply empties_pos. Qed.

Lemma value_of_lookup mp its k i it :
  fsm_wf mp its → finds its k i → its !! i = Some it → value_of it = default NULL (mp !! k).
Proof. intros Hwf Hf Hi. rewrite (fsm_lookup mp its k i it) //. by destruct it. Qed.

Lemma fsm_init_spec m len :
  (1 < len)%nat → sizeof_item * Z.of_nat len < 2 ^ 64 →
  {{ map_uninit m }} fsm_init m (Z.of_nat len) {{ _, fsm m ∅ 0 }}.
Proof.
  intros Hlen Hsize. triple_start. iIntros "H". assert (0 < len)%nat as Hpos by lia.
  wp_call (fsm_init_table m len Hpos Hsize) with "H". iIntros (_) "H".
  iExists (replicate len Empty). rewrite empties_replicate. iFrame. iPureIntro.
  split; rewrite ?empties_replicate ?length_replicate; [apply fsm_wf_init| |done..|lia].
  intros k. by rewrite lookup_empty is_Some_alt.
Qed.

Lemma fsm_get_spec m mp n k :
  0 ≤ k → {{ fsm m mp n }} fsm_get m k {{ r, ⌜r = default NULL (mp !! k)⌝ ∗ fsm m mp n }}.
Proof.
  intros Hk. triple_start. iIntros "(%its & H & %Hok)".
  wp_call (fsm_get_table m its _ k Hk (fsm_ok_empty _ _ _ Hok) (fsm_ok_short _ _ _ Hok)) with "H".
  iIntros (r) "(%i & %it & (%Hf & %Hi & ->) & H)". iSplit.
  - iPureIntro. by eapply value_of_lookup; [apply Hok|..].
  - iExists its. by iFrame.
Qed.

Lemma fsm_ok_remove mp its n k i it :
  fsm_ok mp its n → finds its k i → its !! i = Some it →
  fsm_ok (delete k mp) (<[i := removed k it]> its) n ∧ empties (<[i := removed k it]> its) = empties its.
Proof.
  intros [Hwf Hkeys Hlen He Hsize Hpaid] Hf Hi.
  assert (keys_in (delete k mp)) as Hkeys'.
  { intros k' [v [_ Hv]%lookup_delete_Some]. by apply Hkeys. }
  assert (empties (<[i := removed k it]> its) = empties its) as E.
  { destruct it; [by rewrite list_insert_id|by eapply empties_keep|by eapply empties_keep]. }
  split; [|done]. split; rewrite ?length_insert ?E //.
  pose proof (fsm_lookup mp its k i it Hwf Hf Hi) as Hk.
  destruct it as [|k' v|k']; cbn [removed].
  - rewrite list_insert_id // delete_id //.
  - by apply (fsm_wf_update mp its k i (Tombstone k)).
  - rewrite list_insert_id // delete_id //.
Qed.

Lemma fsm_remove_spec m mp n k :
  0 ≤ k →
  {{ fsm m mp n }} fsm_remove m k {{ r, ⌜r = default NULL (mp !! k)⌝ ∗ fsm m (delete k mp) n }}.
Proof.
  intros Hk. triple_start. iIntros "(%its & H & %Hok)".
  wp_call (fsm_remove_table m its _ k Hk (fsm_ok_empty _ _ _ Hok) (fsm_ok_short _ _ _ Hok)) with "H".
  iIntros (r) "(%i & %it & (%Hf & %Hi & ->) & H)". iSplit.
  - iPureIntro. by eapply value_of_lookup; [apply Hok|..].
  - destruct (fsm_ok_remove mp its n k i it Hok Hf Hi) as [Hok' E].
    iExists (<[i := removed k it]> its). rewrite E. by iFrame.
Qed.

(** The guard of the reallocation holds as long as the insertions are few. *)
Lemma fsm_ok_realloc mp its its2 n :
  fsm_ok mp its n → 2 * Z.of_nat n + 2 < LIMIT → fsm_wf mp its2 → reallocated its its2 →
  fsm_ok mp its2 n ∧ (2 ≤ empties its2)%nat.
Proof.
  intros [Hwf Hkeys Hlen He Hsize Hpaid] Hn Hwf2 [[-> ?]|(Hl & He2 & E)]; [by split|].
  split; [|lia]. split; [done..|lia|lia| |lia].
  rewrite Hl. assert (LIMIT = 384307168202282309) as HL by done. unfold sizeof_item. lia.
Qed.

Lemma fsm_ok_insert mp its n k v i it :
  fsm_ok mp its n → (2 ≤ empties its)%nat → 0 ≤ k < 2 ^ 64 → finds its k i → its !! i = Some it →
  fsm_ok (<[k := v]> mp) (<[i := Entry k v]> its) (S n).
Proof.
  intros [Hwf Hkeys Hlen He Hsize Hpaid] He2 Hk Hf Hi.
  pose proof (empties_insert its i it k v Hi).
  split; rewrite ?length_insert //; [by apply fsm_wf_insert| |lia|lia].
  intros k' [v' [[-> _]|[_ ?]]%lookup_insert_Some]; [done|by apply Hkeys].
Qed.

Lemma fsm_insert_spec m mp n k v :
  0 ≤ k < 2 ^ 64 → 2 * Z.of_nat n + 2 < LIMIT →
  {{ fsm m mp n }} fsm_insert m k v
  {{ r, ⌜r = default NULL (mp !! k)⌝ ∗ fsm m (<[k := v]> mp) (S n) }}.
Proof.
  intros Hk Hn. triple_start. iIntros "(%its & H & %Hok)".
  change (fsm_insert m k v) with (fsm_realloc_if_necessary m ;; insert_at m k v).
  pose proof Hok as [Hwf Hkeys Hlen He Hsize Hpaid].
  assert ((empties its = 1)%nat → Z.of_nat (List.length its) < LIMIT) as Hlim by lia.
  wp_call (realloc_table m its mp Hwf Hkeys Hlen He Hlim) with "H".
  iIntros (_) "(%its2 & H & %Hwf2 & %Hre)".
  destruct (fsm_ok_realloc mp its its2 n Hok Hn Hwf2 Hre) as [Hok2 He2].
  assert (0 ≤ k) as Hk0 by lia.
  wp_call (insert_at_table m its2 k v Hk0 (fsm_ok_empty _ _ _ Hok2) (fsm_ok_short _ _ _ Hok2)) with "H".
  iIntros (r) "(%i & %it & (%Hf & %Hi & ->) & H)". iSplit.
  - iPureIntro. by eapply value_of_lookup.
  - iExists _. iFrame. iPureIntro. by eapply fsm_ok_insert.
Qed.

(** ** Scripts of operations *)

Inductive op := Insert (k v : Z) | Get (k : Z) | Remove (k : Z).

Definition op_key (o : op) : Z := match o with Insert k _ | Get k | Remove k => k end.

Definition exec_op (m : Z) (o : op) : M heap Z :=
  match o with
  | Insert k v => fsm_insert m k v
  | Get k => fsm_get m k
  | Remove k => fsm_remove m k
  end.
Fixpoint exec (m : Z) (os : list op) : M heap (list Z) :=
  match os with
  | [] => mret []
  | o :: os => r ← exec_op m o; rs ← exec m os; mret (r :: rs)
  end.

(** The same on finite maps: every operation answers with what the map had at
    its key. *)
Definition map_op (mp : gmap Z Z) (o : op) : gmap Z Z :=
  match o with Insert k v => <[k := v]> mp | Get _ => mp | Remove k => delete k mp end.
Fixpoint map_ops (mp : gmap Z Z) (os : list op) : list Z * gmap Z Z :=
  match os with
  | [] => ([], mp)
  | o :: os =>
      let '(rs, mp') := map_ops (map_op mp o) os in (default NULL (mp !! op_key o) :: rs, mp')
  end.

Fixpoint insertions (os : list op) : nat :=
  match os with
  | [] => 0
  | Insert _ _ :: os => S (insertions os)
  | _ :: os => insertions os
  end.

Lemma exec_spec m mp n os :
  Forall (λ o, 0 ≤ op_key o < 2 ^ 64) os → 2 * Z.of_nat (n + insertions os) + 2 < LIMIT →
  {{ fsm m mp n }} exec m os
  {{ rs, ⌜rs = (map_ops mp os).1⌝ ∗ fsm m (map_ops mp os).2 (n + insertions os) }}.
Proof.
  revert mp n. induction os as [|o os IH]; intros mp n Hos Hn; triple_start; iIntros "H"; cbn [exec].
  { wp_rets. rewrite Nat.add_0_r. by iFrame. }
  apply Forall_cons in Hos as [Ho Hos]. assert (0 ≤ op_key o) as Ho0 by lia.
  assert (∃ n', n' + insertions os = n + insertions (o :: os) ∧
    ({{ fsm m mp n }} exec_op m o
     {{ r, ⌜r = default NULL (mp !! op_key o)⌝ ∗ fsm m (map_op mp o) n' }}))%nat as (n' & En & Hstep).
  { destruct o as [k v|k|k]; cbn [insertions op_key map_op exec_op] in *.
    - exists (S n). split; [lia|]. apply fsm_insert_spec; [done|lia].
    - exists n. split; [lia|]. by apply fsm_get_spec.
    - exists n. split; [lia|]. by apply fsm_remove_spec. }
  wp_call Hstep with "H". iIntros (r) "[-> H]".
  rewrite -En in Hn. wp_call (IH _ _ Hos Hn) with "H". iIntros (rs) "[-> H]". wp_rets.
  cbn [map_ops]. destruct (map_ops (map_op mp o) os) as [rs mp']. rewrite -En. by iFrame.
Qed.

(** C6. The hash map refines finite maps: a map made with more than one slot,
    then used with any sequence of insertions, look-ups and removals of
    [size_t] keys, answers every one of them with what a finite map has at that
    key and ends up representing the finite map, growing on the way as needed.
    It never runs out of empty slots, so every search terminates; and since a
    doubling needs as many insertions as half of the slots it doubles, fewer
    than [LIMIT / 2 - 1] insertions never reach the endless loop that guards
    the doubling against overflow. [malloc] is assumed to succeed
    ([AllocatorTotal]). *)
Theorem mutable_map_refines_gmap m len os :
  (1 < len)%nat → sizeof_item * Z.of_nat len < 2 ^ 64 →
  Forall (λ o, 0 ≤ op_key o < 2 ^ 64) os → 2 * Z.of_nat (insertions os) + 2 < LIMIT →
  {{ map_uninit m }} (fsm_init m (Z.of_nat len) ;; exec m os)
  {{ rs, ⌜rs = (map_ops ∅ os).1⌝ ∗ fsm m (map_ops ∅ os).2 (insertions os) }}.
Proof.
  intros Hlen Hsize Hos Hn. triple_start. iIntros "H".
  wp_call (fsm_init_spec m len Hlen Hsize) with "H". iIntros (_) "H".
  wp_call (exec_spec m ∅ 0 os Hos Hn) with "H". by iIntros (rs) "H".
Qed.
End alloc.
End specs.

#[local] Existing Instances bump_allocator bump_allocator_total.

Lemma mutable_map_refines_gmap_witness :
  {{ map_uninit 64 }} (fsm_init 64 2 ;; exec 64 [Insert 3 10; Insert 5 20; Get 5; Remove 3; Insert 3 30; Get 7])
  {{ rs, ⌜rs = [0; 0; 20; 10; 0; 0]⌝ ∗ fsm 64 (<[3 := 30]> (delete 3 (<[5 := 20]> (<[3 := 10]> ∅)))) 3 }}.
Proof.
  apply (mutable_map_refines_gmap 64 2
    [Insert 3 10; Insert 5 20; Get 5; Remove 3; Insert 3 30; Get 7]); [lia|done| |done].
  repeat constructor; simpl; lia.
Defined.
End MutableMap.
