(* ===== verification/Arrays.v ===== *)
(** * Arrays of scalars

    The elements of an array of [w] bytes each lie side by side from its base
    on; an element that was never written has no value.  Shared by the sorting
    and searching routines and by the B-trees. *)
From S2P Require Import Prelude HeapLogic.
From stdpp Require Import gmap list.
From iris.proofmode Require Import proofmode.
#[local] Open Scope Z_scope.

(** The address of the element number [i]. *)
Definition elem (w a i : Z) : Z := a + w * i.
Arguments elem : simpl never.

Definition oarray (w a : Z) (xs : list (option Z)) : hPropI :=
  ([∗ list] i ↦ x ∈ xs, elem w a (Z.of_nat i) ↦o x)%I.

(** An array whose elements all have values. *)
Definition array (w a : Z) (xs : list Z) : hPropI := oarray w a (Some <$> xs).

Section arrays.
Implicit Types (w a : Z) (i : nat).

Lemma oarray_acc w a xs i x :
  xs !! i = Some x →
  oarray w a xs ⊢ elem w a (Z.of_nat i) ↦o x ∗
    (∀ y, elem w a (Z.of_nat i) ↦o y -∗ oarray w a (<[i := y]> xs)).
Proof. intros. by apply (big_sepL_insert_acc (λ i x, elem w a (Z.of_nat i) ↦o x)%I). Qed.

Lemma array_acc w a xs i x :
  xs !! i = Some x →
  array w a xs ⊢ elem w a (Z.of_nat i) ↦ x ∗
    (∀ y, elem w a (Z.of_nat i) ↦ y -∗ array w a (<[i := y]> xs)).
Proof.
  iIntros (Hi) "H". iDestruct (oarray_acc with "H") as "[$ H]"; [by rewrite list_lookup_fmap Hi|].
  iIntros (y) "Hy". rewrite /array list_fmap_insert. by iApply "H".
Qed.

(** Reads and writes of elements, as the loops of the programs make them. *)
Lemma wp_elem_load w a xs i v Φ :
  xs !! i = Some (Some v) →
  oarray w a xs -∗ (oarray w a xs -∗ Φ v) -∗ wp (load (elem w a (Z.of_nat i))) Φ.
Proof.
  iIntros (Hi) "H HΦ". iDestruct (oarray_acc with "H") as "[Hi H]"; [done|].
  iApply (wp_load with "Hi"). iIntros "Hi". iApply "HΦ". iSpecialize ("H" with "Hi").
  by rewrite list_insert_id.
Qed.

Lemma wp_elem_store w a xs i v Φ :
  (i < length xs)%nat →
  oarray w a xs -∗ (oarray w a (<[i := Some v]> xs) -∗ Φ tt) -∗ wp (store (elem w a (Z.of_nat i)) v) Φ.
Proof.
  iIntros (Hi) "H HΦ". destruct (lookup_lt_is_Some_2 xs i Hi) as [x Hx].
  iDestruct (oarray_acc with "H") as "[Hi H]"; [done|].
  iApply (wp_store with "Hi"). iIntros "Hi". iApply "HΦ". by iApply "H".
Qed.

Lemma wp_array_load w a xs i v Φ :
  xs !! i = Some v →
  array w a xs -∗ (array w a xs -∗ Φ v) -∗ wp (load (elem w a (Z.of_nat i))) Φ.
Proof. iIntros (Hi) "H HΦ". iApply (wp_elem_load with "H HΦ"). by rewrite list_lookup_fmap Hi. Qed.

Lemma wp_array_store w a xs i v Φ :
  (i < length xs)%nat →
  array w a xs -∗ (array w a (<[i := v]> xs) -∗ Φ tt) -∗ wp (store (elem w a (Z.of_nat i)) v) Φ.
Proof.
  iIntros (Hi) "H HΦ". iApply (wp_elem_store with "H"); [by rewrite length_fmap|].
  iIntros "H". iApply "HΦ". by rewrite /array list_fmap_insert.
Qed.

(** The element behind a first part of the array. *)
Lemma array_mid w a l x r :
  array w a (l ++ x :: r) ⊢ elem w a (Z.of_nat (length l)) ↦ x ∗
    (∀ y, elem w a (Z.of_nat (length l)) ↦ y -∗ array w a (l ++ y :: r)).
Proof.
  iIntros "H". iDestruct (array_acc with "H") as "[$ H]"; [by apply list_lookup_middle|].
  iIntros (y) "Hy". iSpecialize ("H" with "Hy").
  by rewrite insert_app_r_alt // Nat.sub_diag.
Qed.

Lemma wp_mid_load w a l x r k Φ :
  k = Z.of_nat (length l) →
  array w a (l ++ x :: r) -∗ (array w a (l ++ x :: r) -∗ Φ x) -∗ wp (load (elem w a k)) Φ.
Proof.
  iIntros (->) "H HΦ". iDestruct (array_mid with "H") as "[Hx H]".
  iApply (wp_load with "Hx"). iIntros "Hx". iApply "HΦ". by iApply "H".
Qed.

Lemma wp_mid_store w a l x r k v Φ :
  k = Z.of_nat (length l) →
  array w a (l ++ x :: r) -∗ (array w a (l ++ v :: r) -∗ Φ tt) -∗ wp (store (elem w a k) v) Φ.
Proof.
  iIntros (->) "H HΦ". iDestruct (array_mid with "H") as "[Hx H]".
  iApply (wp_store with "Hx"). iIntros "Hx". iApply "HΦ". by iApply "H".
Qed.

Lemma oarray_cells w a xs : oarray w a xs ⊢ at_least (length xs).
Proof.
  iIntros "H". iApply (big_sepL_at_least with "H"). iIntros (i x) "H". iApply (at_least_cell with "H").
Qed.

(** The cells of an array as fields of a block. *)
Lemma elem_succ w a i : elem w a (Z.of_nat (S i)) = elem w (a + w) (Z.of_nat i).
Proof. unfold elem. lia. Qed.

Lemma oarray_cons w a x xs : oarray w a (x :: xs) ⊣⊢ a ↦o x ∗ oarray w (a + w) xs.
Proof.
  unfold oarray. rewrite big_sepL_cons. replace (elem w a (Z.of_nat 0)) with a by (unfold elem; lia).
  f_equiv. apply big_sepL_proper. intros i y _. by rewrite elem_succ.
Qed.

Lemma oarray_app w a xs ys :
  oarray w a (xs ++ ys) ⊣⊢ oarray w a xs ∗ oarray w (elem w a (Z.of_nat (length xs))) ys.
Proof.
  unfold oarray. rewrite big_sepL_app. f_equiv. apply big_sepL_proper. intros i y _.
  f_equiv. unfold elem. lia.
Qed.
End arrays.

(** ** Arrays in blocks *)

(** The cells of a block of [n] elements. *)
Definition array_layout (w : Z) (n : nat) : layout :=
  Layout (w * Z.of_nat n) ((λ i, w * Z.of_nat i) <$> seq 0 n).

Lemma array_layout_wf w n : 0 < w → layout_wf (array_layout w n).
Proof.
  intros Hw. split; simpl.
  - apply NoDup_fmap_2; [intros x y; nia|]. apply NoDup_seq.
  - apply Forall_forall. intros o (i & -> & Hi%elem_of_seq)%list_elem_of_fmap. nia.
Qed.

(** Elements that may have values. *)
Definition slots (w a : Z) (n : nat) : hPropI := (∃ xs, ⌜length xs = n⌝ ∗ oarray w a xs)%I.

Lemma slots_cons w a n : slots w a (S n) ⊣⊢ a ↦? ∗ slots w (a + w) n.
Proof.
  iSplit.
  - iIntros "(%xs & %Hl & H)". destruct xs as [|x xs]; [done|]. rewrite oarray_cons.
    iDestruct "H" as "[Hx H]". iSplitL "Hx"; [by iExists x|]. iExists xs. iFrame. iPureIntro. simpl in Hl. lia.
  - iIntros "[[%x Hx] (%xs & <- & H)]". iExists (x :: xs). iSplit; [done|]. rewrite oarray_cons. iFrame.
Qed.

Lemma seq_slots w a s n :
  ([∗ list] i ∈ seq s n, (a + w * Z.of_nat i) ↦?) ⊣⊢ slots w (elem w a (Z.of_nat s)) n.
Proof.
  revert s. induction n as [|n IH]; intros s; simpl.
  - iSplit; [|by iIntros]. iIntros "_". iExists []. iSplit; [done|]. by rewrite /oarray.
  - rewrite slots_cons IH.
    by replace (elem w a (Z.of_nat (S s))) with (elem w a (Z.of_nat s) + w) by (unfold elem; lia).
Qed.

Lemma block_slots w a n : HeapLogic.block a (array_layout w n) ⊣⊢ slots w a n.
Proof.
  rewrite /HeapLogic.block /array_layout /= big_sepL_fmap seq_slots.
  by replace (elem w a (Z.of_nat 0)) with a by (unfold elem; lia).
Qed.

(** An array of [cap] elements the first of which have the values [xs]. *)
Definition parray (w a : Z) (cap : nat) (xs : list Z) : hPropI :=
  (∃ ys, ⌜(length xs + length ys)%nat = cap⌝ ∗ oarray w a ((Some <$> xs) ++ ys))%I.

Lemma parray_nil w a cap : slots w a cap ⊣⊢ parray w a cap [].
Proof. done. Qed.

Lemma parray_slots w a cap xs : parray w a cap xs ⊢ slots w a cap.
Proof.
  iIntros "(%ys & %Hl & H)". iExists _. iFrame. iPureIntro. by rewrite length_app length_fmap.
Qed.

Lemma parray_acc w a cap xs i x :
  xs !! i = Some x →
  parray w a cap xs ⊢ elem w a (Z.of_nat i) ↦ x ∗
    (∀ y, elem w a (Z.of_nat i) ↦ y -∗ parray w a cap (<[i := y]> xs)).
Proof.
  iIntros (Hi) "(%ys & %Hl & H)". assert (i < length xs)%nat by by eapply lookup_lt_Some.
  iDestruct (oarray_acc _ _ _ i (Some x) with "H") as "[$ H]".
  { rewrite lookup_app_l; [|by rewrite length_fmap]. by rewrite list_lookup_fmap Hi. }
  iIntros (y) "Hy". iExists ys. rewrite length_insert. iSplit; [done|].
  rewrite list_fmap_insert -insert_app_l; [|by rewrite length_fmap]. by iApply "H".
Qed.

Lemma wp_parray_load w a cap xs i v Φ :
  xs !! i = Some v →
  parray w a cap xs -∗ (parray w a cap xs -∗ Φ v) -∗ wp (load (elem w a (Z.of_nat i))) Φ.
Proof.
  iIntros (Hi) "H HΦ". iDestruct (parray_acc with "H") as "[Hi H]"; [done|].
  iApply (wp_load with "Hi"). iIntros "Hi". iApply "HΦ". iSpecialize ("H" with "Hi").
  by rewrite list_insert_id.
Qed.

Lemma wp_slots_store w a n i v Φ :
  (i < n)%nat → slots w a n -∗ (slots w a n -∗ Φ tt) -∗ wp (store (elem w a (Z.of_nat i)) v) Φ.
Proof.
  iIntros (Hi) "(%xs & <- & H) HΦ". iApply (wp_elem_store with "H"); [done|]. iIntros "H". iApply "HΦ".
  iExists _. iFrame. iPureIntro. by rewrite length_insert.
Qed.
