(* ===== verification/Sorting.v ===== *)
(** * Sorting and searching

    [QuickSort] is src/examples/quick_sort.c (arrays of [int]), [BinarySearch] is
    src/examples/binary_search.c, whose comparison is a function pointer.  Each
    loop is bounded by the length of the range it works on. *)
From S2P Require Import Prelude HeapLogic Arrays.
From stdpp Require Import gmap list sorting.
From iris.proofmode Require Import proofmode.
#[local] Open Scope Z_scope.

Module QuickSort.

(** ** The code *)

(** [while (i < j && arr[j] >= key) --j;] *)
Fixpoint scan_down (fuel : nat) (arr i j key : Z) : M heap Z :=
  match fuel with
  | O => fail OutOfFuel
  | S fuel =>
      if i <? j then
        x ← load (elem 4 arr j);
        if key <=? x then j ← signed 32 (j - 1); scan_down fuel arr i j key else mret j
      else mret j
  end.

(** [while (i < j && arr[i] <= key) ++i;] *)
Fixpoint scan_up (fuel : nat) (arr i j key : Z) : M heap Z :=
  match fuel with
  | O => fail OutOfFuel
  | S fuel =>
      if i <? j then
        x ← load (elem 4 arr i);
        if x <=? key then i ← signed 32 (i + 1); scan_up fuel arr i j key else mret i
      else mret i
  end.

Definition turns (i j : Z) : nat := S (Z.to_nat (j - i)).

Fixpoint partition_loop (fuel : nat) (arr i j key : Z) : M heap Z :=
  match fuel with
  | O => fail OutOfFuel
  | S fuel =>
      if i <? j then
        j ← scan_down (turns i j) arr i j key;
        x ← load (elem 4 arr j);
        store (elem 4 arr i) x ;;
        i ← scan_up (turns i j) arr i j key;
        x ← load (elem 4 arr i);
        store (elem 4 arr j) x ;;
        partition_loop fuel arr i j key
      else mret i
  end.

Definition partition (arr lo hi : Z) : M heap Z :=
  key ← load (elem 4 arr lo);
  i ← partition_loop (turns lo hi) arr lo hi key;
  store (elem 4 arr i) key ;;
  mret i.

Fixpoint qsort_ (fuel : nat) (arr lo hi : Z) : M heap unit :=
  match fuel with
  | O => fail OutOfFuel
  | S fuel =>
      if lo <? hi then
        k ← partition arr lo hi;
        k1 ← signed 32 (k - 1);
        qsort_ fuel arr lo k1 ;;
        k2 ← signed 32 (k + 1);
        qsort_ fuel arr k2 hi
      else mret tt
  end.
Definition qsort (arr lo hi : Z) : M heap unit := qsort_ (turns lo hi) arr lo hi.

(** ** Ranges of a list *)

Section ranges.
Implicit Types (xs ys es : list Z) (i j k : nat) (lo hi : Z).

(** Outside of [lo..hi] the two lists agree. *)
Definition unchanged lo hi xs es : Prop :=
  ∀ k, Z.of_nat k < lo ∨ hi < Z.of_nat k → xs !! k = es !! k.

(** Every element of [lo..hi] satisfies [P]. *)
Definition range (P : Z → Prop) lo hi xs : Prop :=
  ∀ k x, lo ≤ Z.of_nat k ≤ hi → xs !! k = Some x → P x.

Definition sorted lo hi xs : Prop :=
  ∀ k l x y, lo ≤ Z.of_nat k → (k ≤ l)%nat → Z.of_nat l ≤ hi →
    xs !! k = Some x → xs !! l = Some y → x ≤ y.

Lemma unchanged_refl lo hi xs : unchanged lo hi xs xs.
Proof. by intros k _. Qed.

Lemma unchanged_insert lo hi xs es i x :
  unchanged lo hi xs es → lo ≤ Z.of_nat i ≤ hi → unchanged lo hi (<[i := x]> xs) es.
Proof. intros Hu Hi k Hk. rewrite list_lookup_insert_ne; [by apply Hu|lia]. Qed.

Lemma unchanged_trans lo hi lo' hi' xs ys es :
  unchanged lo' hi' xs ys → unchanged lo hi ys es → lo ≤ lo' → hi' ≤ hi → unchanged lo hi xs es.
Proof. intros H1 H2 ?? k Hk. rewrite H1; [by apply H2|lia]. Qed.

Lemma range_empty P lo hi xs : hi < lo → range P lo hi xs.
Proof. intros ? k x ?. lia. Qed.

Lemma range_app P lo m hi xs : range P lo m xs → range P (m + 1) hi xs → range P lo hi xs.
Proof.
  intros H1 H2 k x Hk. destruct (decide (Z.of_nat k ≤ m)); [apply H1; lia|apply H2; lia].
Qed.

Lemma range_insert (P : Z → Prop) lo hi xs i x :
  range P lo hi xs → (lo ≤ Z.of_nat i ≤ hi → P x) → range P lo hi (<[i := x]> xs).
Proof.
  intros Hr Hx k y Hk [[-> [<- _]]|[_ Hy]]%list_lookup_insert_Some; [by apply Hx|by eapply Hr].
Qed.

Lemma range_extend_r (P : Z → Prop) lo hi xs i x :
  range P lo hi xs → xs !! i = Some x → P x → Z.of_nat i = hi + 1 → range P lo (Z.of_nat i) xs.
Proof.
  intros Hr Hi HP E k y Hk Hy. destruct (decide (k = i)) as [->|]; [by simplify_eq|].
  apply (Hr k); [lia|done].
Qed.

Lemma range_extend_l (P : Z → Prop) lo hi xs i x :
  range P lo hi xs → xs !! i = Some x → P x → Z.of_nat i = lo - 1 → range P (Z.of_nat i) hi xs.
Proof.
  intros Hr Hi HP E k y Hk Hy. destruct (decide (k = i)) as [->|]; [by simplify_eq|].
  apply (Hr k); [lia|done].
Qed.

(** Moving the hole of a list from [i] to [j]. *)
Lemma hole_move ys i j key x :
  (i < length ys)%nat → ys !! j = Some x →
  <[j := key]> (<[i := x]> ys) ≡ₚ <[i := key]> ys.
Proof.
  intros Hi Hj. destruct (decide (i = j)) as [->|Hne].
  { rewrite list_insert_insert_eq. done. }
  rewrite -(list_insert_insert_eq ys i x key). apply Permutation_insert_swap.
  - by apply list_lookup_insert_eq.
  - by rewrite list_lookup_insert_ne.
Qed.

(** A permutation that moves nothing outside of [lo..hi] keeps what holds of the
    elements of the range. *)
Lemma range_perm (P : Z → Prop) lo hi xs es :
  0 ≤ lo → unchanged lo hi xs es → xs ≡ₚ es → range P lo hi es → range P lo hi xs.
Proof.
  intros Hlo Hu Hp Hr. destruct (decide (hi < lo)) as [?|Hge]; [by apply range_empty|].
  set (a := Z.to_nat lo). set (n := Z.to_nat (hi + 1 - lo)).
  assert (∀ l : list Z, l = take a l ++ take n (drop a l) ++ drop (a + n) l) as Hsplit.
  { intros l. by rewrite -drop_drop !take_drop. }
  assert (take a xs = take a es) as Ht.
  { apply list_eq. intros k. destruct (decide (k < a)%nat).
    - rewrite !lookup_take_lt //. apply Hu. lia.
    - rewrite !lookup_take_ge //; lia. }
  assert (drop (a + n) xs = drop (a + n) es) as Hd.
  { apply list_eq. intros k. rewrite !lookup_drop. apply Hu. lia. }
  assert (take n (drop a xs) ≡ₚ take n (drop a es)) as Hm.
  { rewrite (Hsplit xs) (Hsplit es) Ht Hd in Hp. apply Permutation_app_inv_l in Hp.
    by apply Permutation_app_inv_r in Hp. }
  intros k x Hk Hx. assert (x ∈ take n (drop a xs)) as Hin.
  { apply list_elem_of_lookup. exists (k - a)%nat. rewrite lookup_take_lt; [|lia].
    rewrite lookup_drop. replace (a + (k - a))%nat with k by lia. done. }
  rewrite Hm in Hin. apply list_elem_of_lookup in Hin as [i Hi].
  apply lookup_take_Some in Hi as [Hi ?]. rewrite lookup_drop in Hi.
  apply (Hr (a + i)%nat); [lia|done].
Qed.

(** Sorting both sides of a pivot. *)
Lemma sorted_join lo hi p xs pivot :
  lo ≤ Z.of_nat p ≤ hi → xs !! p = Some pivot →
  range (λ x, x ≤ pivot) lo (Z.of_nat p - 1) xs → range (λ x, pivot ≤ x) (Z.of_nat p + 1) hi xs →
  sorted lo (Z.of_nat p - 1) xs → sorted (Z.of_nat p + 1) hi xs → sorted lo hi xs.
Proof.
  intros Hp Hx Hl Hr Sl Sr k l x y Hk Hkl Hl' Hkx Hly.
  assert (∀ i z, xs !! i = Some z → lo ≤ Z.of_nat i ≤ Z.of_nat p → z ≤ pivot) as Hle.
  { intros i z Hz Hi. destruct (decide (i = p)) as [->|]; [by simplify_eq|].
    apply (Hl i); [lia|done]. }
  assert (∀ i z, xs !! i = Some z → Z.of_nat p ≤ Z.of_nat i ≤ hi → pivot ≤ z) as Hge.
  { intros i z Hz Hi. destruct (decide (i = p)) as [->|]; [by simplify_eq|].
    apply (Hr i); [lia|done]. }
  destruct (decide (l < p)%nat); [by eapply (Sl k l); [lia..| |]|].
  destruct (decide (p < k)%nat); [by eapply (Sr k l); [lia..| |]|].
  transitivity pivot; [apply (Hle k)|apply (Hge l)]; done || lia.
Qed.

Lemma sorted_unchanged lo hi lo' hi' xs ys :
  unchanged lo' hi' xs ys → (hi < lo' ∨ hi' < lo) → sorted lo hi ys → sorted lo hi xs.
Proof.
  intros Hu Hd Hs k l x y ???. rewrite !Hu; [|lia..]. by eapply Hs.
Qed.

Lemma range_unchanged P lo hi lo' hi' xs ys :
  unchanged lo' hi' xs ys → (hi < lo' ∨ hi' < lo) → range P lo hi ys → range P lo hi xs.
Proof. intros Hu Hd Hs k x Hk. rewrite Hu; [|lia]. by apply Hs. Qed.
End ranges.

(** ** Specifications *)
Section specs.
Implicit Types (ys es : list Z) (i j lo hi : nat) (arr key : Z).

Lemma scan_down_spec n arr ys i j key :
  (i ≤ j < length ys)%nat → (j - i < n)%nat → Z.of_nat (length ys) < 2 ^ 31 →
  {{ array 4 arr ys }} scan_down n arr (Z.of_nat i) (Z.of_nat j) key
  {{ r, ∃ j', ⌜r = Z.of_nat j' ∧ (i ≤ j' ≤ j)%nat ∧
      range (λ x, key ≤ x) (Z.of_nat j' + 1) (Z.of_nat j) ys ∧
      ((i < j')%nat → ∃ x, ys !! j' = Some x ∧ x < key)⌝ ∗ array 4 arr ys }}.
Proof.
  intros Hj Hn Hlen. revert j Hj Hn. induction n as [|n IH]; intros j Hj Hn; [lia|].
  triple_start. iIntros "H". cbn [scan_down]. destruct (Z.ltb_spec (Z.of_nat i) (Z.of_nat j)).
  - destruct (lookup_lt_is_Some_2 ys j) as [x Hx]; [lia|]. wp_focus.
    iApply (wp_array_load with "H"); [done|]. iIntros "H". destruct (Z.leb_spec key x).
    + wp_focus. iApply wp_signed; [unfold in_signed; lia|].
      replace (Z.of_nat j - 1) with (Z.of_nat (j - 1)) by lia.
      wp_call (IH (j - 1)%nat ltac:(lia) ltac:(lia)) with "H".
      iIntros (r) "(%j' & (-> & % & %Hr & %Hx') & H)". iExists j'. iFrame. iPureIntro.
      split_and!; [done|lia|lia| |done].
      apply (range_extend_r _ _ (Z.of_nat (j - 1)) _ _ x); [done..|lia].
    + wp_rets. iExists j. iFrame. iPureIntro. split_and!; [done|lia|lia|apply range_empty; lia|].
      intros _. by exists x.
  - wp_rets. iExists j. iFrame. iPureIntro. split_and!; [done|lia|lia|apply range_empty; lia|lia].
Qed.

Lemma scan_up_spec n arr ys i j key :
  (i ≤ j < length ys)%nat → (j - i < n)%nat → Z.of_nat (length ys) < 2 ^ 31 →
  {{ array 4 arr ys }} scan_up n arr (Z.of_nat i) (Z.of_nat j) key
  {{ r, ∃ i', ⌜r = Z.of_nat i' ∧ (i ≤ i' ≤ j)%nat ∧
      range (λ x, x ≤ key) (Z.of_nat i) (Z.of_nat i' - 1) ys ∧
      (∀ x, (i < j)%nat → ys !! i = Some x → x ≤ key → (i < i')%nat)⌝ ∗ array 4 arr ys }}.
Proof.
  intros Hi Hn Hlen. revert i Hi Hn. induction n as [|n IH]; intros i Hi Hn; [lia|].
  triple_start. iIntros "H". cbn [scan_up]. destruct (Z.ltb_spec (Z.of_nat i) (Z.of_nat j)).
  - destruct (lookup_lt_is_Some_2 ys i) as [x Hx]; [lia|]. wp_focus.
    iApply (wp_array_load with "H"); [done|]. iIntros "H". destruct (Z.leb_spec x key).
    + wp_focus. iApply wp_signed; [unfold in_signed; lia|].
      replace (Z.of_nat i + 1) with (Z.of_nat (S i)) by lia.
      wp_call (IH (S i) ltac:(lia) ltac:(lia)) with "H".
      iIntros (r) "(%i' & (-> & % & %Hr & %Hx') & H)". iExists i'. iFrame. iPureIntro.
      split_and!; [done|lia|lia| |lia].
      apply (range_extend_l _ (Z.of_nat (S i)) _ _ _ x); [done..|lia].
    + wp_rets. iExists i. iFrame. iPureIntro. split_and!; [done|lia|lia|apply range_empty; lia|].
      intros y ? ? ?. simplify_eq. lia.
  - wp_rets. iExists i. iFrame. iPureIntro. split_and!; [done|lia|lia|apply range_empty; lia|lia].
Qed.

(** What the loop of [partition] keeps: the element under way is [key], and its
    place [i] is free. *)
Record partitioned (lo hi : nat) (es : list Z) (key : Z) (i j : nat) (ys : list Z) : Prop := {
  part_left : range (λ x, x ≤ key) (Z.of_nat lo) (Z.of_nat i - 1) ys;
  part_right : range (λ x, key ≤ x) (Z.of_nat j + 1) (Z.of_nat hi) ys;
  part_unchanged : unchanged (Z.of_nat lo) (Z.of_nat hi) ys es;
  part_perm : <[i := key]> ys ≡ₚ es;
  part_length : length ys = length es;
}.

Lemma partitioned_step lo hi es key i j ys j' x i' x' :
  partitioned lo hi es key i j ys → (lo ≤ i ≤ i')%nat → (i' ≤ j' ≤ j)%nat → (j ≤ hi < length es)%nat →
  ys !! j' = Some x → range (λ x, key ≤ x) (Z.of_nat j' + 1) (Z.of_nat j) ys →
  <[i := x]> ys !! i' = Some x' →
  range (λ x, x ≤ key) (Z.of_nat i) (Z.of_nat i' - 1) (<[i := x]> ys) →
  partitioned lo hi es key i' j' (<[j' := x']> (<[i := x]> ys)).
Proof.
  intros [Hl Hr Hu Hp Hlen] Hi Hj Hhi Hx Hdown Hx' Hup. split.
  - apply range_insert; [|lia]. apply (range_app _ _ (Z.of_nat i - 1)).
    + apply range_insert; [done|lia].
    + by replace (Z.of_nat i - 1 + 1) with (Z.of_nat i) by lia.
  - do 2 (apply range_insert; [|lia]). by apply (range_app _ _ (Z.of_nat j)).
  - do 2 (apply unchanged_insert; [|lia]). done.
  - etrans; [apply hole_move; [rewrite length_insert; lia|done]|].
    etrans; [apply hole_move; [lia|done]|done].
  - by rewrite !length_insert.
Qed.

Lemma partition_loop_spec n arr lo hi es key i j ys :
  partitioned lo hi es key i j ys → (lo ≤ i ≤ j)%nat → (j ≤ hi < length es)%nat → (j - i < n)%nat →
  Z.of_nat (length es) < 2 ^ 31 →
  {{ array 4 arr ys }} partition_loop n arr (Z.of_nat i) (Z.of_nat j) key
  {{ r, ∃ p ys', ⌜r = Z.of_nat p ∧ (lo ≤ p ≤ hi)%nat ∧ partitioned lo hi es key p p ys'⌝ ∗
     array 4 arr ys' }}.
Proof.
  intros Hpart Hi Hj Hn Hlen. revert i j ys Hpart Hi Hj Hn.
  induction n as [|n IH]; intros i j ys Hpart Hi Hj Hn; [lia|].
  triple_start. iIntros "H". cbn [partition_loop]. pose proof (part_length _ _ _ _ _ _ _ Hpart) as El.
  destruct (Z.ltb_spec (Z.of_nat i) (Z.of_nat j)) as [Hlt|Hge]; last first.
  { wp_rets. assert (i = j) as -> by lia. iExists j, ys. iFrame. iPureIntro. split_and!; [done|lia..|done]. }
  assert (∀ a b : nat, b - a < turns (Z.of_nat a) (Z.of_nat b))%nat as Hturns.
  { intros a b. unfold turns. lia. }
  assert (i ≤ j < length ys)%nat as Hij by lia. assert (Z.of_nat (length ys) < 2 ^ 31) as Hl31 by lia.
  wp_call (scan_down_spec _ arr ys i j key Hij (Hturns i j) Hl31) with "H".
  iIntros (r) "(%j' & (-> & %Hj' & %Hdown & %Hstop) & H)".
  destruct (lookup_lt_is_Some_2 ys j') as [x Hx]; [lia|].
  wp_focus. iApply (wp_array_load with "H"); [done|]. iIntros "H".
  wp_focus. iApply (wp_array_store with "H"); [lia|]. iIntros "H".
  assert (i ≤ j' < length (<[i := x]> ys))%nat as Hij' by (rewrite length_insert; lia).
  assert (Z.of_nat (length (<[i := x]> ys)) < 2 ^ 31) as Hl31' by by rewrite length_insert.
  wp_call (scan_up_spec _ arr (<[i := x]> ys) i j' key Hij' (Hturns i j') Hl31') with "H".
  iIntros (r) "(%i' & (-> & %Hi' & %Hup & %Hmove) & H)".
  destruct (lookup_lt_is_Some_2 (<[i := x]> ys) i') as [x' Hx']; [lia|].
  wp_focus. iApply (wp_array_load with "H"); [done|]. iIntros "H".
  wp_focus. iApply (wp_array_store with "H"); [lia|]. iIntros "H".
  assert (partitioned lo hi es key i' j' (<[j' := x']> (<[i := x]> ys))) as Hpart'
    by by eapply partitioned_step; [done|lia..| | | |].
  assert (j' - i' < n)%nat as Hn'.
  { destruct (decide (j' < j)%nat); [lia|]. assert (j' = j) as -> by lia.
    destruct Hstop as (y & Hy & Hkey); [lia|]. simplify_eq.
    pose proof (Hmove x) as Hm. rewrite list_lookup_insert_eq in Hm; [|lia].
    specialize (Hm ltac:(lia) eq_refl). lia. }
  wp_call (IH i' j' _ Hpart' ltac:(lia) ltac:(lia) Hn') with "H". by iIntros (r) "H".
Qed.

Lemma partition_spec arr es lo hi :
  (lo < hi < length es)%nat → Z.of_nat (length es) < 2 ^ 31 →
  {{ array 4 arr es }} partition arr (Z.of_nat lo) (Z.of_nat hi)
  {{ r, ∃ p xs pivot, ⌜r = Z.of_nat p ∧ (lo ≤ p ≤ hi)%nat ∧ xs ≡ₚ es ∧ length xs = length es ∧
       unchanged (Z.of_nat lo) (Z.of_nat hi) xs es ∧ xs !! p = Some pivot ∧
       range (λ x, x ≤ pivot) (Z.of_nat lo) (Z.of_nat p - 1) xs ∧
       range (λ x, pivot ≤ x) (Z.of_nat p + 1) (Z.of_nat hi) xs⌝ ∗ array 4 arr xs }}.
Proof.
  intros Hlo Hlen. triple_start. iIntros "H". unfold partition.
  destruct (lookup_lt_is_Some_2 es lo) as [key Hkey]; [lia|].
  wp_focus. iApply (wp_array_load with "H"); [done|]. iIntros "H".
  assert (partitioned lo hi es key lo hi es) as Hpart.
  { split; [apply range_empty; lia|apply range_empty; lia|apply unchanged_refl| |done].
    by rewrite list_insert_id. }
  assert (hi - lo < turns (Z.of_nat lo) (Z.of_nat hi))%nat as Hn by (unfold turns; lia).
  wp_call (partition_loop_spec _ arr lo hi es key lo hi es Hpart ltac:(lia) ltac:(lia) Hn Hlen) with "H".
  iIntros (r) "(%p & %ys & (-> & %Hp & %Hpart') & H)". destruct Hpart' as [Hl Hr Hu Hperm Hle].
  wp_focus. iApply (wp_array_store with "H"); [lia|]. iIntros "H". wp_rets.
  iExists p, (<[p := key]> ys), key. iFrame. iPureIntro. split_and!; try done.
  - lia.
  - lia.
  - by rewrite length_insert.
  - apply unchanged_insert; [done|lia].
  - apply list_lookup_insert_eq. lia.
  - apply range_insert; [done|lia].
  - apply range_insert; [done|lia].
Qed.

Lemma qsort_spec_ n arr es (lo hi : Z) :
  0 ≤ lo → hi < Z.of_nat (length es) → (Z.to_nat (hi - lo) < n)%nat → Z.of_nat (length es) < 2 ^ 31 →
  {{ array 4 arr es }} qsort_ n arr lo hi
  {{ _, ∃ xs, ⌜xs ≡ₚ es ∧ unchanged lo hi xs es ∧ sorted lo hi xs⌝ ∗ array 4 arr xs }}.
Proof.
  intros Hlo Hhi Hn Hlen. revert es lo hi Hlo Hhi Hn Hlen.
  induction n as [|n IH]; intros es lo hi Hlo Hhi Hn Hlen; [lia|].
  triple_start. iIntros "H". cbn [qsort_]. destruct (Z.ltb_spec lo hi) as [Hlt|Hge]; last first.
  { wp_rets. iExists es. iFrame. iPureIntro. split_and!; [done|by apply unchanged_refl|].
    intros k l x y ??? Hx Hy. assert (k = l) as -> by lia. by simplify_eq. }
  rewrite -(Z2Nat.id lo) // -(Z2Nat.id hi); [|lia]. set (a := Z.to_nat lo). set (b := Z.to_nat hi).
  wp_call (partition_spec arr es a b ltac:(lia) Hlen) with "H".
  iIntros (r) "(%p & %xs & %pivot & (-> & %Hp & %Hperm & %El & %Hu & %Hpiv & %Hl & %Hr) & H)".
  wp_focus. iApply wp_signed; [unfold in_signed; lia|].
  wp_call (IH xs (Z.of_nat a) (Z.of_nat p - 1) ltac:(lia) ltac:(lia) ltac:(lia) ltac:(lia)) with "H".
  iIntros (_) "(%xs1 & (%Hperm1 & %Hu1 & %Hs1) & H)".
  assert (length xs1 = length es) as El1 by (rewrite -El; by apply Permutation_length).
  wp_focus. iApply wp_signed; [unfold in_signed; lia|].
  wp_call (IH xs1 (Z.of_nat p + 1) (Z.of_nat b) ltac:(lia) ltac:(lia) ltac:(lia) ltac:(lia)) with "H".
  iIntros (_) "(%xs2 & (%Hperm2 & %Hu2 & %Hs2) & H)". iExists xs2. iFrame. iPureIntro. split_and!.
  - by rewrite Hperm2 Hperm1.
  - eapply (unchanged_trans _ _ _ _ _ xs1); [done| |lia..].
    by eapply (unchanged_trans _ _ _ _ _ xs); [done..|lia|lia].
  - apply (sorted_join _ _ p _ pivot); [lia| | | | |done].
    + rewrite Hu2; [|lia]. rewrite Hu1; [done|lia].
    + eapply range_unchanged; [done|lia|]. by apply (range_perm _ _ _ xs1 xs); [lia|..].
    + apply (range_perm _ _ _ xs2 xs1); [lia|done..|].
      by eapply range_unchanged; [done|lia|].
    + by eapply sorted_unchanged; [done|lia|].
Qed.

(** C19. [qsort] sorts: for every part [lo..hi] of an array of [int] it terminates
    without leaving the array and without overflow, permutes the array, changes
    nothing outside of the part, and leaves the part in ascending order. *)
Theorem qsort_sorts arr es (lo hi : Z) :
  0 ≤ lo → hi < Z.of_nat (length es) → Z.of_nat (length es) < 2 ^ 31 →
  {{ array 4 arr es }} qsort arr lo hi
  {{ _, ∃ xs, ⌜xs ≡ₚ es ∧ unchanged lo hi xs es ∧ sorted lo hi xs⌝ ∗ array 4 arr xs }}.
Proof. intros. apply qsort_spec_; [done..| |done]. unfold turns. lia. Qed.

Lemma qsort_sorts_witness :
  {{ array 4 64 [5; 3; 9; 3; 1] }} qsort 64 1 4
  {{ _, ∃ xs, ⌜xs ≡ₚ [5; 3; 9; 3; 1] ∧ unchanged 1 4 xs [5; 3; 9; 3; 1] ∧ sorted 1 4 xs⌝ ∗
     array 4 64 xs }}.
Proof. apply (qsort_sorts 64 [5; 3; 9; 3; 1] 1 4); done. Defined.
End specs.
End QuickSort.

Module BinarySearch.

(** ** The code *)

(** [comp] is the function pointer of type [comp_fn]. *)
Fixpoint search_loop (fuel : nat) (comp : Z → Z → M heap bool) (xs l r x : Z) : M heap Z :=
  match fuel with
  | O => fail OutOfFuel
  | S fuel =>
      if l <? r then
        let k := u64 (l + u64 (r - l) / 2) in
        p ← load (elem 8 xs k);
        b ← comp p x;
        if (b : bool) then search_loop fuel comp xs (u64 (k + 1)) r x
        else search_loop fuel comp xs l k x
      else mret l
  end.

(** The distance between [l] and [r] shrinks in every turn. *)
Definition binary_search (comp : Z → Z → M heap bool) (xs n x : Z) : M heap Z :=
  search_loop (S (Z.to_nat n)) comp xs 0 n x.

Definition compare_int (x y : Z) : M heap bool :=
  xi ← load x;
  yi ← load y;
  mret (xi <=? yi).

Definition size_t_layout : layout := Layout 8 [0].
Definition ptrs_layout : layout := Layout 40 [0; 8; 16; 24; 32].

Definition test `{!Allocator} : M heap unit :=
  with_local ptrs_layout (λ ptrs,
    p ← xmalloc size_t_layout; store (elem 8 ptrs 0) p ;;
    p ← xmalloc size_t_layout; store (elem 8 ptrs 1) p ;;
    p ← xmalloc size_t_layout; store (elem 8 ptrs 2) p ;;
    p ← xmalloc size_t_layout; store (elem 8 ptrs 3) p ;;
    p ← xmalloc size_t_layout; store (elem 8 ptrs 4) p ;;
    p ← load (elem 8 ptrs 0); store p 0 ;;
    p ← load (elem 8 ptrs 1); store p 1 ;;
    p ← load (elem 8 ptrs 2); store p 2 ;;
    p ← load (elem 8 ptrs 3); store p 3 ;;
    p ← load (elem 8 ptrs 4); store p 4 ;;
    with_local size_t_layout (λ needle,
      store needle 2 ;;
      res ← binary_search compare_int ptrs 5 needle;
      c_assert (res =? 3) ;;
      p ← load (elem 8 ptrs 0); free size_t_layout p ;;
      p ← load (elem 8 ptrs 1); free size_t_layout p ;;
      p ← load (elem 8 ptrs 2); free size_t_layout p ;;
      p ← load (elem 8 ptrs 3); free size_t_layout p ;;
      p ← load (elem 8 ptrs 4); free size_t_layout p)).

(** ** The position of an element *)

(** [n] separates the elements related to [x] from the others. *)
Definition boundary (R : Z → Z → Prop) (ys : list Z) (x : Z) (l r : nat) : Prop :=
  (l ≤ r ≤ length ys)%nat ∧
  (∀ i y, (i < l)%nat → ys !! i = Some y → R y x) ∧
  (∀ i y, (r ≤ i)%nat → ys !! i = Some y → ¬ R y x).

Lemma boundary_step R `{!Transitive R} ys x l r k y :
  StronglySorted R ys → boundary R ys x l r → (l ≤ k < r)%nat → ys !! k = Some y →
  (R y x → boundary R ys x (S k) r) ∧ (¬ R y x → boundary R ys x l k).
Proof.
  intros Hs (Hlr & Hl & Hr) Hk Hy.
  assert (∀ i j u v, (i < j)%nat → ys !! i = Some u → ys !! j = Some v → R u v) as Hord.
  { intros i j u v Hij Hu Hv. revert i j Hij Hu Hv. clear -Hs. induction Hs as [|a ys Hs IH Ha].
    - intros i j _ Hu. done.
    - intros [|i] [|j] Hij Hu Hv; simplify_eq/=; [lia| |lia|].
      + rewrite Forall_forall in Ha. by eapply Ha, list_elem_of_lookup_2.
      + by apply (IH i j); [lia|..]. }
  split; intros HR.
  - split_and!; [lia|lia| |done]. intros i z Hi Hz. destruct (decide (i = k)) as [->|]; [by simplify_eq|].
    transitivity y; [|done]. by apply (Hord i k); [lia|..].
  - split_and!; [lia|lia|done|]. intros i z Hi Hz Hzx. apply HR.
    destruct (decide (i = k)) as [->|]; [by simplify_eq|].
    transitivity z; [|done]. by apply (Hord k i); [lia|..].
Qed.

(** ** Specifications *)

(** What [binary_search] asks of its function pointer: it decides [R] on the
    objects its arguments point to, which it may read. *)
Class Comparison (R : Z → Z → Prop) (ty : Z → Z → hPropI) (comp : Z → Z → M heap bool) : Prop :=
  comp_spec px py x y :
    {{ ty px x ∗ ty py y }} comp px py {{ b, ⌜b = true ↔ R x y⌝ ∗ ty px x ∗ ty py y }}.

(** An array of pointers to objects. *)
Definition objects (ty : Z → Z → hPropI) (xs : Z) (ls : list (Z * Z)) : hPropI :=
  (array 8 xs ls.*1 ∗ [∗ list] e ∈ ls, ty e.1 e.2)%I.

Section specs.
Context (R : Z → Z → Prop) (ty : Z → Z → hPropI) (comp : Z → Z → M heap bool).
Context `{!Comparison R ty comp, !Transitive R}.
Implicit Types (ls : list (Z * Z)) (l r k : nat).

Lemma binary_search_loop_spec n xs ls px x l r :
  StronglySorted R ls.*2 → boundary R ls.*2 x l r → (r - l < n)%nat → Z.of_nat (length ls) < 2 ^ 64 →
  {{ objects ty xs ls ∗ ty px x }} search_loop n comp xs (Z.of_nat l) (Z.of_nat r) px
  {{ a, ∃ k, ⌜a = Z.of_nat k ∧ boundary R ls.*2 x k k⌝ ∗ objects ty xs ls ∗ ty px x }}.
Proof.
  intros Hs Hb Hn Hlen. revert l r Hb Hn. induction n as [|n IH]; intros l r Hb Hn; [lia|].
  triple_start. iIntros "[[Ha Ho] Hx]". cbn [search_loop]. pose proof Hb as (Hlr & _ & _).
  rewrite length_fmap in Hlr. destruct (Z.ltb_spec (Z.of_nat l) (Z.of_nat r)) as [Hlt|Hge]; last first.
  { wp_rets. iExists l. iFrame. iPureIntro. split; [done|]. by replace r with l in Hb by lia. }
  set (k := (l + (r - l) / 2)%nat).
  assert (l ≤ k < r)%nat as Hk.
  { pose proof (Nat.div_lt (r - l) 2 ltac:(lia) ltac:(lia)). unfold k. lia. }
  replace (u64 (Z.of_nat l + u64 (Z.of_nat r - Z.of_nat l) / 2)) with (Z.of_nat k); last first.
  { rewrite (wrap_small 64 (Z.of_nat r - Z.of_nat l)); [|unfold in_unsigned; lia].
    replace (Z.of_nat r - Z.of_nat l) with (Z.of_nat (r - l)) by lia.
    rewrite -(Nat2Z.inj_div (r - l) 2) -Nat2Z.inj_add wrap_small //. unfold in_unsigned. lia. }
  destruct (lookup_lt_is_Some_2 ls k) as [[p y] Hy]; [lia|].
  wp_focus. iApply (wp_array_load with "Ha"); [by rewrite list_lookup_fmap Hy|]. iIntros "Ha".
  iDestruct (big_sepL_lookup_acc with "Ho") as "[Hp Ho]"; [done|]. simpl.
  wp_call (comp_spec (R := R) (ty := ty) (comp := comp) p px y x) with "[$Hp $Hx]". iIntros (b) "(%Hby & Hp & Hx)".
  iSpecialize ("Ho" with "Hp"). destruct (boundary_step R ls.*2 x l r k y Hs Hb Hk) as [Hyes Hno];
    [by rewrite list_lookup_fmap Hy|]. destruct b.
  - rewrite wrap_small; [|unfold in_unsigned; lia].
    replace (Z.of_nat k + 1) with (Z.of_nat (S k)) by lia.
    wp_call (IH (S k) r (Hyes (proj1 Hby eq_refl)) ltac:(lia)) with "[$Ha $Ho $Hx]". by iIntros (a) "H".
  - assert (¬ R y x) as Hyx by (intros ?%Hby; done).
    wp_call (IH l k (Hno Hyx) ltac:(lia)) with "[$Ha $Ho $Hx]". by iIntros (a) "H".
Qed.

Lemma binary_search_spec xs ls px x :
  StronglySorted R ls.*2 → Z.of_nat (length ls) < 2 ^ 64 →
  {{ objects ty xs ls ∗ ty px x }} binary_search comp xs (Z.of_nat (length ls)) px
  {{ a, ∃ k, ⌜a = Z.of_nat k ∧ boundary R ls.*2 x k k⌝ ∗ objects ty xs ls ∗ ty px x }}.
Proof.
  intros Hs Hlen. unfold binary_search. rewrite Nat2Z.id.
  apply (binary_search_loop_spec (S (length ls)) xs ls px x 0 (length ls)); [done| |lia|done].
  split_and!; [lia|by rewrite length_fmap|lia|].
  intros i y Hi Hy%lookup_lt_Some. rewrite length_fmap in Hy. lia.
Qed.

(** [binary_search] finds the boundary: on an array of pointers to objects
    sorted by a transitive relation that the comparison function decides, it
    terminates and returns the index before which every object is related to the
    one searched for and from which on none is; the objects are left alone. *)
Theorem binary_search_finds_boundary xs ls px x :
  StronglySorted R ls.*2 → Z.of_nat (length ls) < 2 ^ 64 →
  {{ objects ty xs ls ∗ ty px x }} binary_search comp xs (Z.of_nat (length ls)) px
  {{ a, ∃ k, ⌜a = Z.of_nat k ∧ boundary R ls.*2 x k k⌝ ∗ objects ty xs ls ∗ ty px x }}.
Proof. apply binary_search_spec. Qed.
End specs.

#[export] Instance compare_int_comparison : Comparison Z.le (λ p v, p ↦ v)%I compare_int.
Proof.
  intros px py x y. triple_start. iIntros "[Hx Hy]". unfold compare_int. wp_steps. iFrame.
  iPureIntro. apply Z.leb_le.
Qed.

Lemma boundary_three k : boundary Z.le [0; 1; 2; 3; 4] 2 k k → k = 3%nat.
Proof.
  intros (Hk & Hl & Hr). destruct (decide (3 ≤ k)%nat).
  - destruct (decide (k = 3)%nat) as [|Hne]; [done|]. specialize (Hl 3%nat 3 ltac:(lia) eq_refl). lia.
  - destruct (Hr 2%nat 2 ltac:(lia) eq_refl). lia.
Qed.

Lemma wp_free_word p v Φ : p ↦ v -∗ Φ tt -∗ wp (free size_t_layout p) Φ.
Proof.
  iIntros "Hp HΦ". iApply (wp_free with "[Hp] HΦ"). rewrite /HeapLogic.block /= Z.add_0_r.
  by iSplit; [iExists _|].
Qed.

(** [test] passes its assertion and frees what it allocated. *)
Lemma test_passes `{!Allocator, !AllocatorTotal} : {{ True }} test {{ _, True }}.
Proof.
  assert (layout_wf size_t_layout) as Hwf by
    (split; [by apply (bool_decide_unpack (NoDup _))|by apply (bool_decide_unpack (Forall _ _))]).
  triple_start. iIntros "_". unfold test. iApply wp_with_local.
  { split; [by apply (bool_decide_unpack (NoDup _))|by apply (bool_decide_unpack (Forall _ _))]. }
  iIntros (a) "([% H0] & [% H1] & [% H2] & [% H3] & [% H4] & _)". simpl.
  change (a + 0) with (elem 8 a 0). change (a + 8) with (elem 8 a 1). change (a + 16) with (elem 8 a 2).
  change (a + 24) with (elem 8 a 3). change (a + 32) with (elem 8 a 4).
  do 5 (wp_focus; iApply (wp_xmalloc _ _ Hwf); iIntros (? _) "([% ?] & _)"; rewrite Z.add_0_r; wp_store).
  wp_steps. iApply (wp_with_local _ _ _ Hwf). iIntros (needle) "([% Hn] & _)". rewrite Z.add_0_r. wp_store.
  set (ls := [(p, 0); (p0, 1); (p1, 2); (p2, 3); (p3, 4)]).
  iAssert (objects (λ p v, p ↦ v)%I a ls ∗ needle ↦ 2)%I with "[-]" as "H".
  { rewrite /objects /array /oarray /=. iFrame. }
  assert (StronglySorted Z.le ls.*2) as Hs by (repeat constructor; simpl; lia).
  wp_call (binary_search_spec Z.le _ compare_int a ls needle 2 Hs ltac:(done)) with "H".
  iIntros (r) "(%k & [-> %Hk] & [(H0 & H1 & H2 & H3 & H4 & _) Ho] & Hn)".
  rewrite (boundary_three k Hk). simpl. iDestruct "Ho" as "(Hp0 & Hp1 & Hp2 & Hp3 & Hp4 & _)". wp_rets.
  change (Z.of_nat 0) with 0. change (Z.of_nat 1) with 1. change (Z.of_nat 2) with 2.
  change (Z.of_nat 3) with 3. change (Z.of_nat 4) with 4.
  wp_load. wp_focus. iApply (wp_free_word with "Hp0"). wp_load. wp_focus. iApply (wp_free_word with "Hp1").
  wp_load. wp_focus. iApply (wp_free_word with "Hp2"). wp_load. wp_focus. iApply (wp_free_word with "Hp3").
  wp_load. wp_focus. iApply (wp_free_word with "Hp4"). unfold HeapLogic.block, ptrs_layout. simpl.
  rewrite Z.add_0_r. iSplitL "Hn"; [by iSplit; [iExists _|]|]. iSplit; [|done].
  change (a + 0) with (elem 8 a 0). change (a + 8) with (elem 8 a 1). change (a + 16) with (elem 8 a 2).
  change (a + 24) with (elem 8 a 3). change (a + 32) with (elem 8 a 4).
  iSplitL "H0"; [by iExists _|]. iSplitL "H1"; [by iExists _|]. iSplitL "H2"; [by iExists _|].
  iSplitL "H3"; [by iExists _|]. by iSplitL "H4"; [iExists _|].
Qed.

Lemma binary_search_finds_boundary_witness :
  {{ objects (λ p v, p ↦ v)%I 64 [(128, 1); (136, 4); (144, 4)] ∗ 200 ↦ 4 }} binary_search compare_int 64 3 200
  {{ a, ∃ k, ⌜a = Z.of_nat k ∧ boundary Z.le [1; 4; 4] 4 k k⌝ ∗
     objects (λ p v, p ↦ v)%I 64 [(128, 1); (136, 4); (144, 4)] ∗ 200 ↦ 4 }}.
Proof.
  apply (binary_search_finds_boundary Z.le (λ p v, p ↦ v)%I compare_int 64
    [(128, 1); (136, 4); (144, 4)] 200 4); [|done].
  repeat constructor; simpl; lia.
Defined.
End BinarySearch.
