(* ===== verification/ListSort.v ===== *)
(** * Quick sort of linked lists (src/tutorial/quicksort_solution.c)

    [append] and [partition] are correct; [quicksort] itself never returns on a
    list that is not empty. *)
From S2P Require Import Prelude HeapLogic.
From stdpp Require Import gmap list.
From iris.proofmode Require Import proofmode.
#[local] Open Scope Z_scope.

Module ListSort.

(** ** The code *)

Definition val (p : Z) : Z := p.
Definition next (p : Z) : Z := p + 8.

Fixpoint append_ (fuel : nat) (l k : Z) : M heap unit :=
  match fuel with
  | O => fail OutOfFuel
  | S fuel =>
      p ← load l;
      if p =? NULL then store l k else
      p ← load l;
      append_ fuel (next p) k
  end.
Definition append (l k : Z) : M heap unit := with_fuel (λ n, append_ n l k).

Fixpoint partition_ (fuel : nat) (l pivot : Z) : M heap Z :=
  match fuel with
  | O => fail OutOfFuel
  | S fuel =>
      p ← load l;
      if p =? NULL then mret NULL else
      p ← load l;
      rest ← partition_ fuel (next p) pivot;
      head ← load l;
      p ← load l;
      v ← load (val p);
      if pivot <=? v then
        p ← load l;
        n ← load (next p);
        store l n ;;
        store (next head) rest ;;
        mret head
      else mret rest
  end.
Definition partition (l pivot : Z) : M heap Z := with_fuel (λ n, partition_ n l pivot).

Definition pointer_layout : layout := Layout 8 [0].

(** [depth] bounds the nesting of the calls. *)
Fixpoint quicksort `{!Allocator} (depth : nat) (l : Z) : M heap unit :=
  match depth with
  | O => fail OutOfFuel
  | S depth =>
      p ← load l;
      if p =? NULL then mret tt else
      p ← load l;
      pivot ← load (val p);
      r ← partition l pivot;
      with_local pointer_layout (λ higher,
        store higher r ;;
        quicksort depth higher ;;
        quicksort depth l ;;
        h ← load higher;
        append l h)
  end.

Arguments val : simpl never.
Arguments next : simpl never.

(** ** Lists in memory *)

Fixpoint list_at (p : Z) (xs : list Z) : hProp :=
  match xs with
  | [] => ⌜p = NULL⌝
  | x :: xs => ∃ q, val p ↦ x ∗ next p ↦ q ∗ list_at q xs
  end%I.
Definition list_in (place : Z) (xs : list Z) : hPropI := (∃ p, place ↦ p ∗ list_at p xs)%I.

Lemma sort_list_in_cells l xs : list_in l xs ⊢ at_least (length xs).
Proof.
  iIntros "(%p & _ & H)". iInduction xs as [|x xs] "IH" forall (p); simpl; [iApply at_least_0|].
  iDestruct "H" as (q) "(_ & Ht & H)". iApply (at_least_add 1). iSplitL "Ht".
  - iApply (at_least_cell with "Ht").
  - iApply ("IH" with "H").
Qed.

Section specs.
Implicit Types (l k p z : Z) (xs ys : list Z).

Lemma sort_append_loop_spec n l k xs ys :
  (length xs < n)%nat →
  {{ list_in l xs ∗ list_at k ys }} append_ n l k {{ _, list_in l (xs ++ ys) }}.
Proof.
  revert l xs. induction n as [|n IH]; intros l xs Hn; [lia|].
  triple_start. iIntros "[(%p & Hl & H) Hk]". cbn [append_]. wp_load. destruct xs as [|x xs]; simpl.
  - iDestruct "H" as %->. rewrite Z.eqb_refl. wp_store. iExists k. iFrame.
  - iDestruct "H" as (q) "(Hv & Hn & H)". iDestruct (pointsto_not_null with "Hv") as %Hp.
    rewrite (proj2 (Z.eqb_neq p NULL)) //. wp_load.
    assert (length xs < n)%nat as Hn' by (simpl in Hn; lia).
    iAssert (list_in (next p) xs) with "[Hn H]" as "H"; [iExists q; iFrame|].
    wp_call (IH (next p) xs Hn') with "[$H $Hk]". iIntros (_) "(%q' & Hn & H)".
    iExists p. iFrame.
Qed.

Lemma sort_append_spec l k xs ys :
  {{ list_in l xs ∗ list_at k ys }} append l k {{ _, list_in l (xs ++ ys) }}.
Proof.
  apply (triple_with_fuel (length xs)).
  - iIntros "[H _]". by iApply sort_list_in_cells.
  - intros n Hn. by apply sort_append_loop_spec.
Qed.

Lemma list_partition_loop_spec n l z xs :
  (length xs < n)%nat →
  {{ list_in l xs }} partition_ n l z
  {{ r, list_in l (filter (λ v, v < z) xs) ∗ list_at r (filter (λ v, z ≤ v) xs) }}.
Proof.
  revert l xs. induction n as [|n IH]; intros l xs Hn; [lia|].
  triple_start. iIntros "(%p & Hl & H)". cbn [partition_]. wp_load. destruct xs as [|x xs]; simpl.
  - iDestruct "H" as %->. rewrite Z.eqb_refl. wp_rets. iSplit; [|done]. iExists NULL. by iFrame.
  - iDestruct "H" as (q) "(Hv & Hn & H)". iDestruct (pointsto_not_null with "Hv") as %Hp.
    rewrite (proj2 (Z.eqb_neq p NULL)) //. wp_load.
    assert (length xs < n)%nat as Hn' by (simpl in Hn; lia).
    iAssert (list_in (next p) xs) with "[Hn H]" as "H"; [iExists q; iFrame|].
    wp_call (IH (next p) xs Hn') with "H". iIntros (r) "[(%q' & Hn & H) Hr]". wp_load. wp_load. wp_load.
    rewrite !filter_cons. destruct (Z.leb_spec z x) as [Hx|Hx].
    + rewrite decide_False; [|lia]. rewrite decide_True //. wp_steps. iSplitL "Hl H"; [iExists q'; iFrame|].
      iExists r. iFrame.
    + rewrite decide_True //. rewrite decide_False; [|lia]. wp_rets. iFrame.
Qed.

Lemma list_partition_spec l z xs :
  {{ list_in l xs }} partition l z
  {{ r, list_in l (filter (λ v, v < z) xs) ∗ list_at r (filter (λ v, z ≤ v) xs) }}.
Proof.
  apply (triple_with_fuel (length xs)); [by iIntros "H"; iApply sort_list_in_cells|].
  intros n Hn. by apply list_partition_loop_spec.
Qed.

Context `{!Allocator, !AllocatorTotal}.

(** C27. The list sort of the tutorial never returns on a list that is not
    empty, however deep the calls may nest: its pivot is the first element, all
    elements not below the pivot go to the first recursive call, and the first
    of them is the pivot again. There is assumed to be storage for the local
    variables ([AllocatorTotal]). *)
Theorem list_quicksort_diverges depth l x xs :
  stops (list_in l (x :: xs)) (quicksort depth l) OutOfFuel.
Proof.
  revert l xs. induction depth as [|depth IH]; intros l xs; [by intros h hf|]. cbn [quicksort].
  apply stops_exist. intros p. cbn [list_at].
  apply (stops_mono _ (∃ q, l ↦ p ∗ val p ↦ x ∗ next p ↦ q ∗ list_at q xs)%I).
  { iIntros "[Hl (%q & H)]". iExists q. iFrame. }
  apply stops_exist. intros q.
  apply (stops_mono _ (⌜p ≠ NULL⌝ ∗ l ↦ p ∗ val p ↦ x ∗ next p ↦ q ∗ list_at q xs)%I).
  { iIntros "(Hl & Hv & H)". iDestruct (pointsto_not_null with "Hv") as %Hp. by iFrame. }
  apply stops_pure. intros Hp. eapply (stops_load _ _ l p); [reflexivity|].
  rewrite (proj2 (Z.eqb_neq p NULL)) //. eapply (stops_load _ _ l p); [reflexivity|].
  apply (stops_load _ (l ↦ p ∗ next p ↦ q ∗ list_at q xs)%I (val p) x); [by iIntros "($ & $ & $)"|].
  apply (stops_bind _ _ (λ r, list_at r (x :: filter (λ v, x ≤ v) xs))).
  { triple_start. iIntros "(Hl & Hv & Hn & H)".
    iAssert (list_in l (x :: xs)) with "[Hl Hv Hn H]" as "H".
    { iExists p. iFrame. }
    wp_call (list_partition_spec l x (x :: xs)) with "H". iIntros (r) "[_ H]".
    by rewrite filter_cons_True. }
  intros r. apply (stops_bind _ _ (λ a, HeapLogic.block a pointer_layout ∗ list_at r (x :: filter (λ v, x ≤ v) xs))%I).
  { triple_start. iIntros "H". iApply wp_xmalloc; [|iIntros (a _) "Ha"; by iFrame].
    split; [by apply (bool_decide_unpack (NoDup _))|by apply (bool_decide_unpack (Forall _ _))]. }
  intros a. apply stops_first.
  apply (stops_bind _ _ (λ _, list_in a (x :: filter (λ v, x ≤ v) xs))).
  { triple_start. iIntros "[[[% Ha] _] H]". rewrite Z.add_0_r. wp_store. iExists r. iFrame. }
  intros _. by apply stops_first.
Qed.
End specs.

#[local] Existing Instances bump_allocator bump_allocator_total.

Lemma list_quicksort_diverges_witness :
  stops (list_in 64 [3; 1; 2]) (quicksort 1000 64) OutOfFuel.
Proof. apply (list_quicksort_diverges 1000 64 3 [1; 2]). Defined.
End ListSort.
