(* ===== verification/BTree.v ===== *)
(** * B-trees (src/examples/btree.h and src/examples/btree.c)

    The code, the trees it works on, and the sorted sequences they hold.  A
    [struct btree] of 104 bytes keeps [nb_keys] at 0, four [int] keys from 4, four
    values from 24, five children from 56 and [height] at 96; a subscript outside
    of these arrays is undefined.  Arithmetic on indices stays between -1 and
    [ORDER]. *)
From S2P Require Import Prelude HeapLogic Arrays.
From stdpp Require Import gmap list sorting.
From iris.proofmode Require Import proofmode.
#[local] Open Scope Z_scope.

Module BTree.

(** ** The code *)

Definition ORDER : Z := 5.

Definition nb_keys (p : Z) : Z := p.
Definition keys (p : Z) : Z := p + 4.
Definition vals (p : Z) : Z := p + 24.
Definition children (p : Z) : Z := p + 56.
Definition height (p : Z) : Z := p + 96.
Definition btree_layout : layout :=
  Layout 104 [0; 4; 8; 12; 16; 24; 32; 40; 48; 56; 64; 72; 80; 88; 96].
Definition btree_t_layout : layout := Layout 8 [0].
Definition int_layout : layout := Layout 4 [0].

(** [p->keys[i]], [p->vals[i]] and [p->children[i]]: a subscript outside of the
    array is undefined, whatever lies there. *)
Definition key_at (p i : Z) : M heap Z :=
  if (0 <=? i) && (i <? ORDER - 1) then mret (elem 4 (keys p) i) else fail UndefinedBehaviour.
Definition val_at (p i : Z) : M heap Z :=
  if (0 <=? i) && (i <? ORDER - 1) then mret (elem 8 (vals p) i) else fail UndefinedBehaviour.
Definition child_at (p i : Z) : M heap Z :=
  if (0 <=? i) && (i <? ORDER) then mret (elem 8 (children p) i) else fail UndefinedBehaviour.

(** The same for the node that [node] points to. *)
Definition get_key (node i : Z) : M heap Z := p ← load node; a ← key_at p i; load a.
Definition get_val (node i : Z) : M heap Z := p ← load node; a ← val_at p i; load a.
Definition get_child (node i : Z) : M heap Z := p ← load node; a ← child_at p i; load a.
Definition set_key (node i x : Z) : M heap unit := p ← load node; a ← key_at p i; store a x.
Definition set_val (node i x : Z) : M heap unit := p ← load node; a ← val_at p i; store a x.
Definition set_child (node i x : Z) : M heap unit := p ← load node; a ← child_at p i; store a x.

Fixpoint key_loop (fuel : nat) (ar n k slot : Z) : M heap Z :=
  match fuel with
  | O => fail OutOfFuel
  | S fuel =>
      if slot <? n then
        x ← load (elem 4 ar slot);
        if x <? k then key_loop fuel ar n k (slot + 1) else mret slot
      else mret slot
  end.
Definition key_index (ar n k : Z) : M heap Z := key_loop (S (Z.to_nat n)) ar n k 0.

Section code.
Context `{!Allocator}.

Definition new_btree : M heap Z :=
  t ← xmalloc btree_t_layout;
  store t NULL ;;
  mret t.

(** [for(int i = 0; i <= ( *t )->nb_keys; i++)]; a node has at most [ORDER]
    children. *)
Fixpoint free_children (free_nodes : Z → M heap unit) (fuel : nat) (t i : Z) : M heap unit :=
  match fuel with
  | O => fail OutOfFuel
  | S fuel =>
      p ← load t;
      n ← load (nb_keys p);
      if i <=? n then
        p ← load t;
        a ← child_at p i;
        free_nodes a ;;
        free_children free_nodes fuel t (i + 1)
      else mret tt
  end.

Fixpoint free_btree_nodes_ (fuel : nat) (t : Z) : M heap unit :=
  match fuel with
  | O => fail OutOfFuel
  | S fuel =>
      p ← load t;
      if p =? NULL then mret tt else
      free_children (free_btree_nodes_ fuel) (S (Z.to_nat ORDER)) t 0 ;;
      p ← load t;
      free btree_layout p ;;
      store t NULL
  end.
Definition free_btree_nodes (t : Z) : M heap unit := with_fuel (λ n, free_btree_nodes_ n t).

Definition free_btree (t : Z) : M heap unit :=
  free_btree_nodes t ;;
  free btree_t_layout t.

(** [i < ( *cur )->nb_keys && ( *cur )->keys[i] == k] *)
Definition key_found (cur i k : Z) : M heap bool :=
  p ← load cur;
  n ← load (nb_keys p);
  if i <? n then x ← get_key cur i; mret (x =? k) else mret false.

(** [key_index(( *cur )->keys, ( *cur )->nb_keys, k)] *)
Definition node_key_index (cur k : Z) : M heap Z :=
  p ← load cur;
  p' ← load cur;
  n ← load (nb_keys p');
  key_index (keys p) n k.

Fixpoint member_loop (fuel : nat) (cur k : Z) : M heap bool :=
  match fuel with
  | O => fail OutOfFuel
  | S fuel =>
      p ← load cur;
      if p =? NULL then mret false else
      i ← node_key_index cur k;
      found ← key_found cur i k;
      if (found : bool) then mret true else
      p ← load cur;
      a ← child_at p i;
      member_loop fuel a k
  end.
Definition btree_member (t k : Z) : M heap bool := with_fuel (λ n, member_loop n t k).

Fixpoint find_loop (fuel : nat) (cur k : Z) : M heap Z :=
  match fuel with
  | O => fail OutOfFuel
  | S fuel =>
      p ← load cur;
      if p =? NULL then mret NULL else
      i ← node_key_index cur k;
      found ← key_found cur i k;
      if (found : bool) then p ← load cur; val_at p i else
      p ← load cur;
      a ← child_at p i;
      find_loop fuel a k
  end.
Definition btree_find (t k : Z) : M heap Z := with_fuel (λ n, find_loop n t k).

(** [for(i = ...; i > slot; i--)]: one entry of the node moves to the right. *)
Fixpoint shift_loop (fuel : nat) (node i slot : Z) : M heap unit :=
  match fuel with
  | O => fail OutOfFuel
  | S fuel =>
      if slot <? i then
        x ← get_key node (i - 1); set_key node i x ;;
        x ← get_val node (i - 1); set_val node i x ;;
        x ← get_child node i; set_child node (i + 1) x ;;
        shift_loop fuel node (i - 1) slot
      else mret tt
  end.

(** [for(i = ...; i < stop; i++)]: the entries of the node go to the new node,
    [by] places further left. *)
Fixpoint move_loop (fuel : nat) (node new_node i stop by_ : Z) : M heap unit :=
  match fuel with
  | O => fail OutOfFuel
  | S fuel =>
      if i <? stop then
        x ← get_key node i; a ← key_at new_node (i - by_); store a x ;;
        x ← get_val node i; a ← val_at new_node (i - by_); store a x ;;
        x ← get_child node (i + 1); a ← child_at new_node (i - by_ + 1); store a x ;;
        move_loop fuel node new_node (i + 1) stop by_
      else mret tt
  end.

(** Every loop of [insert_br] runs over the places of a node. *)
Definition LOOP : nat := S (Z.to_nat ORDER).

Definition set_counts (node new_node med : Z) : M heap Z :=
  store (nb_keys new_node) (ORDER - med - 1) ;;
  p ← load node;
  store (nb_keys p) med ;;
  mret new_node.

Definition insert_br (node k v b med_k med_v : Z) : M heap Z :=
  p ← load node;
  n ← load (nb_keys p);
  p ← load node;
  slot ← key_index (keys p) n k;
  p ← load node;
  nb ← load (nb_keys p);
  if nb <? ORDER - 1 then
    shift_loop LOOP node n slot ;;
    set_key node slot k ;;
    set_val node slot v ;;
    set_child node (slot + 1) b ;;
    p ← load node;
    nb ← load (nb_keys p);
    store (nb_keys p) (nb + 1) ;;
    mret NULL
  else
  new_node ← xmalloc btree_layout;
  p ← load node;
  ht ← load (height p);
  store (height new_node) ht ;;
  let med := ORDER / 2 in
  if slot <? med then
    x ← get_key node (med - 1); store med_k x ;;
    x ← get_val node (med - 1); store med_v x ;;
    move_loop LOOP node new_node med ORDER med ;;
    x ← get_child node med; a ← child_at new_node 0; store a x ;;
    shift_loop LOOP node (med - 1) slot ;;
    set_key node slot k ;;
    set_val node slot v ;;
    set_child node (slot + 1) b ;;
    set_counts node new_node med
  else if slot =? med then
    store med_k k ;;
    store med_v v ;;
    move_loop LOOP node new_node med (ORDER - 1) med ;;
    a ← child_at new_node 0; store a b ;;
    set_counts node new_node med
  else
    x ← get_key node med; store med_k x ;;
    x ← get_val node med; store med_v x ;;
    move_loop LOOP node new_node (med + 1) slot (med + 1) ;;
    x ← get_child node (med + 1); a ← child_at new_node 0; store a x ;;
    a ← key_at new_node (slot - (med + 1)); store a k ;;
    a ← val_at new_node (slot - (med + 1)); store a v ;;
    a ← child_at new_node (slot - med); store a b ;;
    move_loop LOOP node new_node slot (ORDER - 1) med ;;
    set_counts node new_node med.

Definition btree_make_root (l r k v : Z) : M heap Z :=
  root ← xmalloc btree_layout;
  (if l =? NULL then store (height root) 1
   else h ← load (height l); h ← signed 32 (h + 1); store (height root) h) ;;
  store (nb_keys root) 1 ;;
  a ← key_at root 0; store a k ;;
  a ← val_at root 0; store a v ;;
  a ← child_at root 0; store a l ;;
  a ← child_at root 1; store a r ;;
  mret root.

(** The loop down the tree: [None] when the key was there and its value is
    updated, else the number of nodes on the path. *)
Fixpoint down_loop (fuel : nat) (path_ptrs path_keys k v cur : Z) : M heap (option Z) :=
  match fuel with
  | O => fail OutOfFuel
  | S fuel =>
      q ← load (elem 8 path_ptrs cur);
      p ← load q;
      if p =? NULL then mret (Some cur) else
      cur_node ← load (elem 8 path_ptrs cur);
      i ← node_key_index cur_node k;
      found ← key_found cur_node i k;
      if (found : bool) then set_val cur_node i v ;; mret None else
      store (elem 4 path_keys cur) i ;;
      p ← load cur_node;
      a ← child_at p i;
      store (elem 8 path_ptrs (cur + 1)) a ;;
      down_loop fuel path_ptrs path_keys k v (cur + 1)
  end.

(** The loop up the path of [cur] nodes: [None] when an insertion needed no
    split, else the last node split off.  [new] has no value at first. *)
Fixpoint up_loop (cur : nat) (path_ptrs ins_k ins_v ins_b : Z) (new : option Z) (med_k med_v : Z) :
    M heap (option Z) :=
  match cur with
  | O => new ← some_or_ub new; mret (Some new)
  | S cur =>
      node ← load (elem 8 path_ptrs (Z.of_nat cur));
      new ← insert_br node ins_k ins_v ins_b med_k med_v;
      if new =? NULL then mret None else
      ins_k ← load med_k;
      ins_v ← load med_v;
      up_loop cur path_ptrs ins_k ins_v new (Some new) med_k med_v
  end.

(** The arrays for the path, and the height they are made for. *)
Definition alloc_path (t : Z) : M heap (Z * Z * Z) :=
  p ← load t;
  h ← load (height p);
  path_ptrs ← xmalloc (array_layout 8 (Z.to_nat (h + 1)));
  p ← load t;
  h ← load (height p);
  path_keys ← xmalloc (array_layout 4 (Z.to_nat h));
  store (elem 8 path_ptrs 0) t ;;
  mret (path_ptrs, path_keys, h).

(** A new root, if the old one was split. *)
Definition install_root (t med_k med_v : Z) (split : option Z) : M heap unit :=
  match split with
  | None => mret tt
  | Some new =>
      p ← load t;
      mk ← load med_k;
      mv ← load med_v;
      root ← btree_make_root p new mk mv;
      store t root
  end.

(** The two loops, the new root and the label [done]. *)
Definition insert_along (t k v med_k med_v path_ptrs path_keys h : Z) : M heap unit :=
  found ← with_fuel (λ n, down_loop n path_ptrs path_keys k v 0);
  (match found with
   | None => mret tt
   | Some cur =>
       split ← up_loop (Z.to_nat cur) path_ptrs k v NULL None med_k med_v;
       install_root t med_k med_v split
   end) ;;
  free (array_layout 8 (Z.to_nat (h + 1))) path_ptrs ;;
  free (array_layout 4 (Z.to_nat h)) path_keys.

(** [btree_insert], given the addresses of its local variables [med_k] and
    [med_v]. *)
Definition insert_body (t k v med_k med_v : Z) : M heap unit :=
  p ← load t;
  if p =? NULL then
    root ← btree_make_root NULL NULL k v;
    store t root
  else
  '(path_ptrs, path_keys, h) ← alloc_path t;
  insert_along t k v med_k med_v path_ptrs path_keys h.

Definition btree_insert (t k v : Z) : M heap unit :=
  with_local int_layout (λ med_k, with_local btree_t_layout (λ med_v, insert_body t k v med_k med_v)).
End code.

Arguments nb_keys : simpl never.
Arguments keys : simpl never.
Arguments vals : simpl never.
Arguments children : simpl never.
Arguments height : simpl never.
Arguments free_children : simpl never.

(** Insertions in ascending order, then a look-up of each key. *)
Example ascending_run :
  let A := bump_allocator in
  match (t ← new_btree; 
         foldl (λ c k, c ;; btree_insert t k (10 * k)) (mret tt) (seqZ 1 12) ;;
         foldl (λ c k, l ← c; p ← btree_find t k; v ← load p; mret (l ++ [v])) (mret []) (seqZ 1 12)) ∅ with
  | Ok l _ => l = (λ k, 10 * k) <$> seqZ 1 12
  | Err e => False
  end.
Proof. vm_compute. reflexivity. Qed.

Example descending_run :
  let A := bump_allocator in
  (t ← new_btree; foldl (λ c k, c ;; btree_insert t k (10 * k)) (mret tt) [5; 4; 3; 2; 1]) ∅
    = Err UndefinedBehaviour.
Proof. vm_compute. reflexivity. Qed.

(** ** Trees *)

(** A node has a first child and then, for every key, the key, its value and the
    child to the right of them. *)
Inductive btree := Leaf | Node (c0 : btree) (es : list (Z * Z * btree)).

Abbreviation entry := (Z * Z * btree)%type.
Definition ekey (e : entry) : Z := e.1.1.

(** The bindings of a tree from left to right. *)
Fixpoint flat (t : btree) : list (Z * Z) :=
  match t with
  | Leaf => []
  | Node c0 es => flat c0 ++ (es ≫= λ e, e.1 :: flat e.2)
  end.
Definition flat_entries (es : list entry) : list (Z * Z) := es ≫= λ e, e.1 :: flat e.2.

(** All leaves at depth [h], nodes with two to four keys below the root, which
    has at least [lo]. *)
Fixpoint balanced (lo h : nat) (t : btree) : Prop :=
  match h, t with
  | O, Leaf => True
  | S h, Node c0 es =>
      (lo ≤ length es ≤ 4)%nat ∧ balanced 2 h c0 ∧ Forall (λ e, balanced 2 h e.2) es
  | _, _ => False
  end.

Definition ascending (l : list (Z * Z)) : Prop := StronglySorted Z.lt l.*1.

Definition kids (t : btree) : list btree :=
  match t with Leaf => [] | Node c0 es => c0 :: es.*2 end.

(** Replacing the child number [i]. *)
Definition upd0 (i : nat) (c c0 : btree) : btree := match i with O => c | S _ => c0 end.
Definition upd (i : nat) (c : btree) (es : list entry) : list entry :=
  match i with O => es | S j => alter (λ e, (e.1, c)) j es end.

(** The first place whose key is not below [k]. *)
Fixpoint index (k : Z) (ks : list Z) : nat :=
  match ks with
  | [] => O
  | x :: ks => if x <? k then S (index k ks) else O
  end.

(** What an insertion does to a subtree: it may split it in two around a
    binding, or get stuck when a full node would be split to the left of its
    median. *)
Inductive outcome := Done (t : btree) | Split (l : btree) (kv : Z * Z) (r : btree) | Stuck.

Definition add_at (i : nat) (e : entry) (es : list entry) : list entry := take i es ++ e :: drop i es.

Definition add_entry (c0 : btree) (es : list entry) (kv : Z * Z) (r : btree) : outcome :=
  let slot := index kv.1 (ekey <$> es) in
  let es' := add_at slot (kv, r) es in
  if (length es <? 4)%nat then Done (Node c0 es')
  else if (slot <? 2)%nat then Stuck
  else match drop 2 es' with
       | (kv', c) :: es2 => Split (Node c0 (take 2 es')) kv' (Node c es2)
       | [] => Stuck
       end.

Fixpoint insert_in (h : nat) (k v : Z) (t : btree) : outcome :=
  match h, t with
  | S h, Node c0 es =>
      let i := index k (ekey <$> es) in
      if bool_decide ((ekey <$> es) !! i = Some k) then Done (Node c0 (alter (λ e, (k, v, e.2)) i es)) else
      match kids (Node c0 es) !! i with
      | Some c => match insert_in h k v c with
                  | Done c' => Done (Node (upd0 i c' c0) (upd i c' es))
                  | Split l kv r => add_entry (upd0 i l c0) (upd i l es) kv r
                  | Stuck => Stuck
                  end
      | None => Stuck
      end
  | _, _ => Split Leaf (k, v) Leaf
  end.

(** The same on sequences of bindings. *)
Fixpoint put (k v : Z) (l : list (Z * Z)) : list (Z * Z) :=
  match l with
  | [] => [(k, v)]
  | (k', v') :: l =>
      if k <? k' then (k, v) :: (k', v') :: l
      else if k =? k' then (k, v) :: l
      else (k', v') :: put k v l
  end.

Section theory.
Implicit Types (l pre post : list (Z * Z)) (es : list entry) (c t : btree) (k v : Z) (i h : nat).

Lemma put_map k v l : list_to_map (put k v l) =@{gmap Z Z} <[k := v]> (list_to_map l).
Proof.
  induction l as [|[k' v'] l IH]; [done|]. cbn [put].
  destruct (Z.ltb_spec k k'); [done|]. destruct (Z.eqb_spec k k') as [->|Hne]; cbn [list_to_map].
  - by rewrite /= insert_insert_eq.
  - rewrite /= IH insert_insert_ne //.
Qed.

Lemma put_app_r k v l1 l2 : Forall (λ b, b.1 < k) l1 → put k v (l1 ++ l2) = l1 ++ put k v l2.
Proof.
  induction 1 as [|[k' v'] l1 Hk _ IH]; [done|]. simpl in *.
  rewrite (proj2 (Z.ltb_ge _ _)); [|lia]. rewrite (proj2 (Z.eqb_neq _ _)); [|lia]. by rewrite IH.
Qed.

Lemma put_app_l k v l1 l2 : Forall (λ b, k < b.1) l2 → put k v (l1 ++ l2) = put k v l1 ++ l2.
Proof.
  intros Hl2. induction l1 as [|[k' v'] l1 IH]; simpl.
  - destruct l2 as [|[k' v'] l2]; [done|]. apply Forall_cons in Hl2 as [Hk _]. simpl in *.
    by rewrite (proj2 (Z.ltb_lt _ _)).
  - destruct (k <? k'); [done|]. destruct (k =? k'); [done|]. by rewrite IH.
Qed.

Lemma put_elem k v l b : b ∈ put k v l → b.1 = k ∨ b ∈ l.
Proof.
  induction l as [|[k' v'] l IH]; simpl; [set_solver|].
  destruct (k <? k'); [set_solver|]. destruct (k =? k'); set_solver.
Qed.

Lemma put_ascending k v l : ascending l → ascending (put k v l).
Proof.
  unfold ascending. induction l as [|[k' v'] l IH]; simpl; intros Hs; [by repeat constructor|].
  apply StronglySorted_inv in Hs as [Hs Hall].
  destruct (Z.ltb_spec k k').
  - repeat constructor; simpl; [done|done|lia|]. eapply Forall_impl; [done|]. intros x ?. simpl in *. lia.
  - destruct (Z.eqb_spec k k') as [->|Hne]; [by constructor|]. constructor; [by apply IH|].
    apply Forall_forall. intros x ([k2 v2] & -> & Hin)%list_elem_of_fmap. simpl.
    apply put_elem in Hin as [Hin|Hin]; simpl in *; [lia|].
    rewrite Forall_forall in Hall. apply Hall. apply list_elem_of_fmap. by exists (k2, v2).
Qed.

(** Keys of an ascending sequence around a middle part. *)
Lemma ascending_app l1 l2 :
  ascending (l1 ++ l2) ↔ ascending l1 ∧ ascending l2 ∧ ∀ a b, a ∈ l1 → b ∈ l2 → a.1 < b.1.
Proof.
  unfold ascending. rewrite fmap_app StronglySorted_app. split.
  - intros (H12 & H1 & H2). split_and!; [done|done|]. intros a b Ha Hb.
    apply H12; apply list_elem_of_fmap; eauto.
  - intros (H1 & H2 & H12). split_and!; [|done..].
    intros x y (a & -> & Ha)%list_elem_of_fmap (b & -> & Hb)%list_elem_of_fmap. auto.
Qed.

Lemma ascending_NoDup l : ascending l → NoDup l.*1.
Proof.
  unfold ascending. induction 1 as [|k ks _ IH Hk]; constructor; [|done]. intros Hin.
  rewrite Forall_forall in Hk. by apply Hk, Z.lt_irrefl in Hin.
Qed.

(** *** Positions *)

Lemma index_le k ks : (index k ks ≤ length ks)%nat.
Proof. induction ks as [|x ks IH]; simpl; [lia|]. destruct (x <? k); simpl; lia. Qed.

Lemma index_before k ks x : x ∈ take (index k ks) ks → x < k.
Proof.
  induction ks as [|y ks IH]; simpl; [set_solver|].
  destruct (Z.ltb_spec y k); simpl; [|set_solver]. intros [->|?]%elem_of_cons; auto.
Qed.

Lemma index_at k ks x : ks !! index k ks = Some x → k ≤ x.
Proof.
  induction ks as [|y ks IH]; simpl; [done|]. destruct (Z.ltb_spec y k); simpl; [done|]. intros [= <-]. lia.
Qed.

Lemma index_unique k ks i :
  (i ≤ length ks)%nat → (∀ x, x ∈ take i ks → x < k) → (∀ x, ks !! i = Some x → k ≤ x) → index k ks = i.
Proof.
  revert i. induction ks as [|y ks IH]; intros i Hi Hb Ha; simpl in *; [lia|].
  destruct i as [|i]; simpl in *.
  - rewrite (proj2 (Z.ltb_ge _ _)); [done|]. by apply Ha.
  - rewrite (proj2 (Z.ltb_lt _ _)); [|apply Hb; left]. f_equal. apply IH; [lia| |done].
    intros x ?. apply Hb. by right.
Qed.

(** *** Children *)

Lemma flat_node c0 es : flat (Node c0 es) = flat c0 ++ flat_entries es.
Proof. done. Qed.

Lemma flat_entries_app es1 es2 : flat_entries (es1 ++ es2) = flat_entries es1 ++ flat_entries es2.
Proof. apply bind_app. Qed.

Lemma flat_take i c0 es : flat (Node c0 es) = flat (Node c0 (take i es)) ++ flat_entries (drop i es).
Proof. by rewrite !flat_node -app_assoc -flat_entries_app take_drop. Qed.

Lemma kids_lookup_is_Some c0 es i : (i ≤ length es)%nat → is_Some (kids (Node c0 es) !! i).
Proof. intros Hi. apply lookup_lt_is_Some_2. simpl. rewrite length_fmap. lia. Qed.

Lemma upd_keys i c es : (upd i c es).*1 = es.*1.
Proof.
  destruct i as [|j]; [done|]. simpl. apply list_eq. intros m. rewrite !list_lookup_fmap.
  destruct (decide (m = j)) as [->|Hne].
  - rewrite list_lookup_alter_eq. by destruct (es !! j).
  - by rewrite list_lookup_alter_ne.
Qed.

Lemma upd_length i c es : length (upd i c es) = length es.
Proof. destruct i; [done|]. apply length_alter. Qed.

Lemma drop_upd i c es : drop i (upd i c es) = drop i es.
Proof. destruct i as [|j]; [done|]. apply drop_alter_lt. lia. Qed.

(** What lies to the left of the child number [i]. *)
Lemma kid_split c0 es i c :
  kids (Node c0 es) !! i = Some c →
  ∃ pre, (∀ c', flat (Node (upd0 i c' c0) (take i (upd i c' es))) = pre ++ flat c') ∧
    flat (Node c0 (take i es)) = pre ++ flat c ∧
    (∀ e, e ∈ take i es → e.1 ∈ pre) ∧
    (pre = [] ∨ ∃ pre' e, pre = pre' ++ [e.1] ∧ e ∈ take i es).
Proof.
  destruct i as [|j]; intros Hc.
  - injection Hc as <-. simpl. exists []. split_and!; [by intros c'; rewrite app_nil_r|by rewrite app_nil_r|set_solver|by left].
  - change (es.*2 !! j = Some c) in Hc. rewrite list_lookup_fmap in Hc. apply fmap_Some in Hc as (e & He & ->).
    assert (j < length es)%nat as Hj by by eapply lookup_lt_Some.
    exists (flat c0 ++ flat_entries (take j es) ++ [e.1]).
    assert (∀ c' es', es' !! j = Some (e.1, c') → take j es' = take j es →
      flat_entries (take (S j) es') = (flat_entries (take j es) ++ [e.1]) ++ flat c') as Hflat.
    { intros c' es' He' Ht. rewrite (take_S_r _ _ _ He') Ht flat_entries_app.
      by rewrite /flat_entries /= app_nil_r -app_assoc. }
    split_and!.
    + intros c'. cbn [upd0 upd]. rewrite flat_node (Hflat c' (alter (λ e, (e.1, c')) j es)) ?app_assoc //.
      * by rewrite list_lookup_alter_eq He.
      * by apply take_alter_ge.
    + rewrite flat_node (Hflat e.2 es) ?app_assoc //. by destruct e.
    + intros e' He'. rewrite (take_S_r _ _ _ He) in He'. apply elem_of_app in He' as [He'|He'].
      * apply elem_of_app. right. apply elem_of_app. left. apply list_elem_of_bind. exists e'.
        split; [left|done].
      * apply list_elem_of_singleton in He' as ->. set_solver.
    + right. exists (flat c0 ++ flat_entries (take j es)), e. split; [by rewrite app_assoc|].
      rewrite (take_S_r _ _ _ He). set_solver.
Qed.

(** The bindings around the child in which [k] belongs. *)
Lemma kid_around c0 es k c :
  let i := index k (ekey <$> es) in
  ascending (flat (Node c0 es)) → (ekey <$> es) !! i ≠ Some k → kids (Node c0 es) !! i = Some c →
  ∃ pre post, (∀ c', flat (Node (upd0 i c' c0) (take i (upd i c' es))) = pre ++ flat c') ∧
    post = flat_entries (drop i es) ∧ flat (Node c0 es) = pre ++ flat c ++ post ∧
    Forall (λ b, b.1 < k) pre ∧ Forall (λ b, k < b.1) post ∧ (∀ e, e ∈ take i es → e.1 ∈ pre) ∧
    (∀ e, es !! i = Some e → e.1 ∈ post).
Proof.
  intros i Hasc Hnf Hc. destruct (kid_split c0 es i c Hc) as (pre & Hupd & Hpre & Hin & Hlast).
  assert (flat (Node c0 es) = pre ++ flat c ++ flat_entries (drop i es)) as Hflat.
  { by rewrite app_assoc -Hpre -flat_take. }
  exists pre, (flat_entries (drop i es)). rewrite Hflat in Hasc.
  apply ascending_app in Hasc as (Hap & Hacp & _). apply ascending_app in Hacp as (_ & Hapost & _).
  assert (∀ e, e ∈ take i es → ekey e < k) as Hbefore.
  { intros e He. apply (index_before k (ekey <$> es)). rewrite -fmap_take.
    apply list_elem_of_fmap. by exists e. }
  split_and!; try done.
  - destruct Hlast as [->|(pre' & e & -> & He)]; [constructor|]. specialize (Hbefore e He).
    apply ascending_app in Hap as (_ & _ & Hlt). apply Forall_forall. intros b [Hb|Hb]%elem_of_app.
    + specialize (Hlt b e.1 Hb ltac:(set_solver)). unfold ekey in Hbefore. lia.
    + apply list_elem_of_singleton in Hb as ->. done.
  - destruct (drop i es) as [|e es2] eqn:Hd; [constructor|].
    assert (es !! i = Some e) as He by by rewrite -(Nat.add_0_r i) -lookup_drop Hd.
    pose proof (index_at k (ekey <$> es) (ekey e)) as Hge. rewrite -/i list_lookup_fmap He in Hge, Hnf.
    specialize (Hge eq_refl). simpl in Hnf. assert (k < e.1.1) as Hlt.
    { unfold ekey in *. destruct (decide (k = e.1.1)) as [->|]; [done|lia]. }
    apply Forall_forall. intros b [->|Hb]%elem_of_cons; [done|].
    apply (ascending_app [e.1]) in Hapost as (_ & _ & Hlt'). specialize (Hlt' e.1 b ltac:(set_solver) Hb). lia.
  - intros e He. rewrite (drop_S es e i He). left.
Qed.

Lemma add_entry_flat c0 es kv r :
  let i := index kv.1 (ekey <$> es) in
  match add_entry c0 es kv r with
  | Done t => flat t = flat (Node c0 (take i es)) ++ kv :: flat r ++ flat_entries (drop i es)
  | Split l kv' r' =>
      flat l ++ kv' :: flat r' = flat (Node c0 (take i es)) ++ kv :: flat r ++ flat_entries (drop i es)
  | Stuck => True
  end.
Proof.
  intros i. unfold add_entry. fold i. set (es' := add_at i (kv, r) es).
  assert (flat (Node c0 es') = flat (Node c0 (take i es)) ++ kv :: flat r ++ flat_entries (drop i es)) as Hflat.
  { unfold es', add_at. rewrite !flat_node flat_entries_app -!app_assoc. done. }
  destruct (length es <? 4)%nat; [done|]. destruct (i <? 2)%nat; [done|].
  destruct (drop 2 es') as [|[kv' c] es2] eqn:Hd; [done|].
  by rewrite -Hflat (flat_take 2 c0 es') Hd.
Qed.

Lemma add_entry_balanced lo h c0 es kv r :
  (length es ≤ 4)%nat → (lo ≤ length es)%nat → balanced 2 h c0 → Forall (λ e, balanced 2 h e.2) es → balanced 2 h r →
  match add_entry c0 es kv r with
  | Done t => balanced lo (S h) t
  | Split l _ r' => balanced 2 (S h) l ∧ balanced 2 (S h) r'
  | Stuck => True
  end.
Proof.
  intros Hlen Hlo Hc0 Hes Hr. unfold add_entry. set (i := index kv.1 (ekey <$> es)).
  pose proof (index_le kv.1 (ekey <$> es)) as Hi. rewrite length_fmap -/i in Hi.
  assert (length (add_at i (kv, r) es) = S (length es)) as Hl.
  { unfold add_at. rewrite length_app /= length_take length_drop. lia. }
  assert (Forall (λ e, balanced 2 h e.2) (add_at i (kv, r) es)) as Hall.
  { unfold add_at. apply Forall_app. split; [by apply Forall_take|]. constructor; [done|by apply Forall_drop]. }
  destruct (Nat.ltb_spec (length es) 4); [by split_and!; [lia..| |]|].
  destruct (Nat.ltb_spec i 2); [done|].
  destruct (drop 2 (add_at i (kv, r) es)) as [|[kv' c] es2] eqn:Hd; [done|].
  assert (length es2 = 2)%nat as Hl2.
  { apply (f_equal length) in Hd. rewrite length_drop Hl /= in Hd. lia. }
  pose proof (Forall_drop _ 2 _ Hall) as Hall2. rewrite Hd in Hall2. apply Forall_cons in Hall2 as [Hc Hes2].
  split; (split_and!; [..|done|]); rewrite ?length_take ?Hl; [lia..|by apply Forall_take|lia|lia|done].
Qed.

Lemma upd_balanced h i c c0 es :
  balanced 2 h c0 → Forall (λ e, balanced 2 h e.2) es → balanced 2 h c →
  balanced 2 h (upd0 i c c0) ∧ Forall (λ e, balanced 2 h e.2) (upd i c es).
Proof.
  intros Hc0 Hes Hc. destruct i as [|j]; [done|]. split; [done|]. simpl.
  apply Forall_alter; [done|]. done.
Qed.

Lemma kid_balanced h c0 es i c :
  balanced 2 h c0 → Forall (λ e, balanced 2 h e.2) es → kids (Node c0 es) !! i = Some c → balanced 2 h c.
Proof.
  intros Hc0 Hes Hc. destruct i as [|j]; [by injection Hc as <-|]. simpl in Hc.
  rewrite list_lookup_fmap in Hc. apply fmap_Some in Hc as (e & He & ->). by eapply Forall_lookup_1 in Hes.
Qed.

(** The new binding belongs where the child was split. *)
Lemma index_upd es k c (l : btree) kv (r : btree) pre :
  let i := index k (ekey <$> es) in
  (i ≤ length es)%nat →
  (∀ e, e ∈ take i es → e.1 ∈ pre) →
  (∀ e, es !! i = Some e → e.1 ∈ flat_entries (drop i es)) →
  ascending (pre ++ (flat l ++ kv :: flat r) ++ flat_entries (drop i es)) →
  index kv.1 (ekey <$> upd i c es) = i.
Proof.
  intros i Hi Hpre Hpost (_ & Hasc & Hlt1)%ascending_app.
  apply ascending_app in Hasc as (_ & _ & Hlt2).
  assert (ekey <$> upd i c es = ekey <$> es) as ->.
  { transitivity (fst <$> (upd i c es).*1); [by rewrite -list_fmap_compose|].
    rewrite upd_keys -list_fmap_compose. done. }
  apply index_unique; [by rewrite length_fmap|..].
  - intros x. rewrite -fmap_take. intros (e & -> & He)%list_elem_of_fmap.
    apply (Hlt1 e.1 kv); [by apply Hpre|set_solver].
  - intros x. rewrite list_lookup_fmap. intros (e & He & ->)%fmap_Some.
    apply Z.lt_le_incl, (Hlt2 kv e.1); [set_solver|by apply Hpost].
Qed.

Lemma set_value_flat c0 es k v i e :
  es !! i = Some e → ekey e = k → ascending (flat (Node c0 es)) →
  flat (Node c0 (alter (λ e, (k, v, e.2)) i es)) = put k v (flat (Node c0 es)).
Proof.
  intros He <- Hasc.
  assert (∀ es', es' = take i es ++ (ekey e, v, e.2) :: drop (S i) es →
    flat (Node c0 es') = flat (Node c0 (take i es)) ++ (ekey e, v) :: flat e.2 ++ flat_entries (drop (S i) es)) as H1.
  { intros es' ->. by rewrite !flat_node flat_entries_app -!app_assoc. }
  assert (flat (Node c0 es) = flat (Node c0 (take i es)) ++ e.1 :: flat e.2 ++ flat_entries (drop (S i) es)) as H2.
  { rewrite -{1}(take_drop_middle es i e He) !flat_node flat_entries_app -!app_assoc. done. }
  rewrite H1.
  - rewrite H2 put_app_r; last first.
    { rewrite H2 in Hasc. apply ascending_app in Hasc as (_ & _ & Hlt). apply Forall_forall.
      intros b Hb. apply (Hlt b e.1); [done|left]. }
    destruct e as [[k v0] c]. simpl. by rewrite Z.ltb_irrefl Z.eqb_refl.
  - apply list_eq. intros m. destruct (decide (m = i)) as [->|Hne].
    + rewrite list_lookup_alter_eq He lookup_app_r; rewrite length_take_le ?Nat.sub_diag //;
        by apply Nat.lt_le_incl, lookup_lt_Some with e.
    + rewrite list_lookup_alter_ne // -{1}(take_drop_middle es i e He).
      assert (length (take i es) = i) as Hl by (apply length_take_le; apply Nat.lt_le_incl; by eapply lookup_lt_Some).
      destruct (decide (m < i)%nat).
      * rewrite !lookup_app_l //; lia.
      * rewrite !lookup_app_r; [|lia..]. rewrite Hl. by destruct (m - i)%nat eqn:?; [lia|].
Qed.

(** Insertion on trees is insertion on their bindings, and keeps the balance. *)
Lemma insert_in_correct lo h k v t :
  (1 ≤ lo)%nat → balanced lo h t → ascending (flat t) →
  match insert_in h k v t with
  | Done t' => balanced lo h t' ∧ flat t' = put k v (flat t)
  | Split l kv r => balanced 2 h l ∧ balanced 2 h r ∧ flat l ++ kv :: flat r = put k v (flat t)
  | Stuck => True
  end.
Proof.
  revert lo t. induction h as [|h IH]; intros lo t Hlo Hb Hasc; destruct t as [|c0 es]; [done..|].
  cbn [insert_in]. set (i := index k (ekey <$> es)). destruct Hb as (Hlen & Hc0 & Hes).
  case_bool_decide as Hf.
  { rewrite list_lookup_fmap in Hf. apply fmap_Some in Hf as (e & He & ->). split.
    - split_and!; [rewrite length_alter; lia|rewrite length_alter; lia|done|].
      apply Forall_alter; [done|]. by intros.
    - by apply (set_value_flat _ _ _ _ _ e). }
  assert (i ≤ length es)%nat as Hi by (pose proof (index_le k (ekey <$> es)); by rewrite length_fmap in H).
  destruct (kids_lookup_is_Some c0 es i Hi) as [c Hc]. rewrite Hc.
  destruct (kid_around c0 es k c Hasc Hf Hc)
    as (pre & post & Hupd & -> & Hflat & Hpre & Hpost & Hin & Hat). fold i in Hupd, Hpost, Hin, Hat, Hflat.
  pose proof (kid_balanced h c0 es i c Hc0 Hes Hc) as Hbc.
  rewrite Hflat in Hasc |- *. pose proof Hasc as (_ & Hacp & _)%ascending_app.
  apply ascending_app in Hacp as (Hac & _ & _).
  assert (put k v (pre ++ flat c ++ flat_entries (drop i es))
    = pre ++ put k v (flat c) ++ flat_entries (drop i es)) as Hput by by rewrite put_app_r // put_app_l.
  pose proof (put_ascending k v _ Hasc) as Hasc'. rewrite Hput in Hasc'.
  specialize (IH 2%nat c ltac:(lia) Hbc Hac).
  destruct (insert_in h k v c) as [c'|l kv r|]; [| |done].
  - destruct IH as [Hbc' Hfc']. destruct (upd_balanced h i c' c0 es Hc0 Hes Hbc') as [Hb0 Hbs].
    split; [by split_and!; [rewrite upd_length; lia..| |]|].
    by rewrite Hput -Hfc' (flat_take i) Hupd drop_upd -app_assoc.
  - destruct IH as (Hbl & Hbr & Hlr). rewrite -Hlr in Hasc'.
    destruct (upd_balanced h i l c0 es Hc0 Hes Hbl) as [Hb0 Hbs].
    pose proof (index_upd es k l l kv r pre Hi Hin Hat Hasc') as Hidx. fold i in Hidx.
    pose proof (add_entry_flat (upd0 i l c0) (upd i l es) kv r) as Haf. cbv zeta in Haf.
    rewrite Hidx Hupd drop_upd in Haf.
    assert (length (upd i l es) ≤ 4)%nat as Hl4 by (rewrite upd_length; lia).
    assert (lo ≤ length (upd i l es))%nat as Hllo by (rewrite upd_length; lia).
    pose proof (add_entry_balanced lo h _ _ kv r Hl4 Hllo Hb0 Hbs Hbr) as Hab.
    rewrite Hput -Hlr. destruct (add_entry _ _ kv r) as [t|l' kv' r'|]; [| |done].
    + split; [done|]. by rewrite Haf -!app_assoc.
    + destruct Hab. split_and!; [done..|]. by rewrite Haf -!app_assoc.
Qed.

(** *** Ascending insertions never get stuck *)

Lemma index_max k ks : Forall (λ x, x < k) ks → index k ks = length ks.
Proof. induction 1 as [|x ks Hx _ IH]; [done|]. simpl. by rewrite (proj2 (Z.ltb_lt _ _)) // IH. Qed.

Lemma insert_in_max lo h k v t :
  (1 ≤ lo)%nat → balanced lo h t → ascending (flat t) → Forall (λ b, b.1 < k) (flat t) →
  insert_in h k v t ≠ Stuck.
Proof.
  revert lo t. induction h as [|h IH]; intros lo t Hlo Hb Hasc Hmax; destruct t as [|c0 es]; [done..|].
  cbn [insert_in]. set (i := index k (ekey <$> es)). pose proof Hb as (Hlen & Hc0 & Hes).
  case_bool_decide as Hf; [done|].
  assert (i = length es) as Hi.
  { unfold i. rewrite index_max ?length_fmap //. apply Forall_fmap, Forall_forall. intros e He.
    rewrite Forall_forall in Hmax. apply (Hmax e.1). rewrite flat_node. apply elem_of_app. right.
    apply list_elem_of_bind. exists e. split; [left|done]. }
  destruct (kids_lookup_is_Some c0 es i ltac:(lia)) as [c Hc]. rewrite Hc.
  destruct (kid_around c0 es k c Hasc Hf Hc)
    as (pre & post & Hupd & -> & Hflat & Hpre & Hpost & Hin & Hat). fold i in Hupd, Hpost, Hin, Hat, Hflat.
  pose proof (kid_balanced h c0 es i c Hc0 Hes Hc) as Hbc.
  rewrite Hflat in Hasc Hmax. apply Forall_app in Hmax as [_ [Hmc _]%Forall_app].
  pose proof (put_ascending k v _ Hasc) as Hasc'. rewrite put_app_r // put_app_l // in Hasc'.
  apply ascending_app in Hasc as (_ & (Hac & _ & _)%ascending_app & _).
  specialize (IH 2%nat c ltac:(lia) Hbc Hac Hmc).
  pose proof (insert_in_correct 2 h k v c ltac:(lia) Hbc Hac) as Hins.
  destruct (insert_in h k v c) as [c'|l kv r|]; [done| |done].
  destruct Hins as (_ & _ & Hlr). rewrite -Hlr in Hasc'.
  pose proof (index_upd es k l l kv r pre ltac:(lia) Hin Hat Hasc') as Hidx. fold i in Hidx.
  unfold add_entry. rewrite Hidx upd_length. destruct (Nat.ltb_spec (length es) 4); [done|].
  rewrite (proj2 (Nat.ltb_ge _ _)); [|lia].
  destruct (drop 2 _) as [|[kv' c'] es2] eqn:Hd; [|done]. apply (f_equal length) in Hd.
  rewrite length_drop /add_at length_app /= length_take length_drop upd_length in Hd. lia.
Qed.

(** *** Look-ups *)

Fixpoint lookup_in (h : nat) (k : Z) (t : btree) : option Z :=
  match h, t with
  | S h, Node c0 es =>
      let i := index k (ekey <$> es) in
      if bool_decide ((ekey <$> es) !! i = Some k) then (λ e, e.1.2) <$> es !! i
      else kids (Node c0 es) !! i ≫= lookup_in h k
  | _, _ => None
  end.

Lemma list_to_map_outside (l : list (Z * Z)) k :
  Forall (λ b, b.1 ≠ k) l → (list_to_map l : gmap Z Z) !! k = None.
Proof.
  intros Hl. apply not_elem_of_list_to_map_1. intros (b & -> & Hb)%list_elem_of_fmap.
  rewrite Forall_forall in Hl. by apply (Hl b).
Qed.

Lemma lookup_in_correct lo h k t :
  balanced lo h t → ascending (flat t) → lookup_in h k t = (list_to_map (flat t) : gmap Z Z) !! k.
Proof.
  revert lo t. induction h as [|h IH]; intros lo t Hb Hasc; destruct t as [|c0 es]; [done..|].
  cbn [lookup_in]. set (i := index k (ekey <$> es)). destruct Hb as (Hlen & Hc0 & Hes).
  case_bool_decide as Hf.
  { rewrite list_lookup_fmap in Hf. apply fmap_Some in Hf as (e & He & ->). rewrite He. symmetry.
    apply elem_of_list_to_map.
    - by apply ascending_NoDup.
    - rewrite flat_node. apply elem_of_app. right. apply list_elem_of_bind. exists e.
      split; [|by eapply list_elem_of_lookup_2]. destruct e as [[k v] c]. left. }
  assert (i ≤ length es)%nat as Hi by (pose proof (index_le k (ekey <$> es)); by rewrite length_fmap in H).
  destruct (kids_lookup_is_Some c0 es i Hi) as [c Hc]. rewrite Hc.
  destruct (kid_around c0 es k c Hasc Hf Hc)
    as (pre & post & _ & _ & Hflat & Hpre & Hpost & _ & _).
  pose proof (kid_balanced h c0 es i c Hc0 Hes Hc) as Hbc.
  rewrite Hflat in Hasc |- *. apply ascending_app in Hasc as (_ & (Hac & _ & _)%ascending_app & _).
  cbn [mbind option_bind]. rewrite (IH 2%nat c Hbc Hac) !list_to_map_app.
  rewrite lookup_union_r; [|apply list_to_map_outside; eapply Forall_impl; [done|]; simpl; lia].
  rewrite lookup_union.
  rewrite (list_to_map_outside post); [|eapply Forall_impl; [done|]; simpl; lia].
  by destruct (list_to_map (flat c) !! k).
Qed.
End theory.
End BTree.
