(* ===== verification/BTreeRefine.v ===== *)
(** * The B-tree code on trees

    The operations of src/examples/btree.c are related to the trees of BTree.v
    and through them to finite maps. *)
From S2P Require Import Prelude HeapLogic Arrays BTree.
From stdpp Require Import gmap list.
From iris.proofmode Require Import proofmode.
Import BTree.
#[local] Open Scope Z_scope.

Module BTreeRefine.

(** ** Nodes and trees in memory *)

Definition evals (es : list entry) : list Z := (λ e, e.1.2) <$> es.

(** The members of a node other than its children. *)
Definition fields_at (p : Z) (h : nat) (es : list entry) : hPropI :=
  (nb_keys p ↦ Z.of_nat (length es) ∗ parray 4 (keys p) 4 (ekey <$> es) ∗ parray 8 (vals p) 4 (evals es) ∗
   height p ↦ Z.of_nat h)%I.

(** The tree of height [h] at [p]. *)
Fixpoint tree_at (h : nat) (p : Z) (t : btree) : hProp :=
  match h, t with
  | O, Leaf => ⌜p = NULL⌝
  | S h', Node c0 es =>
      ⌜(1 ≤ length es ≤ 4)%nat⌝ ∗ fields_at p h es ∗
      ∃ cs, parray 8 (children p) 5 cs ∗ [∗ list] q;c ∈ cs;kids (Node c0 es), tree_at h' q c
  | _, _ => False
  end%I.
Definition tree_in (h : nat) (place : Z) (t : btree) : hPropI := (∃ p, place ↦ p ∗ tree_at h p t)%I.

(** The children of a node, each at its place. *)
Definition kids_at (h : nat) (p : Z) (ts : list btree) : hPropI :=
  (∃ cs, parray 8 (children p) 5 cs ∗ [∗ list] q;c ∈ cs;ts, tree_at h q c)%I.

Section search.
Implicit Types (p q k v : Z) (t c : btree) (ks vs cs : list Z) (i h n : nat) (es : list entry).

Lemma key_loop_spec n ar cap ks k i :
  (i ≤ length ks)%nat → (length ks - i < n)%nat →
  {{ parray 4 ar cap ks }} key_loop n ar (Z.of_nat (length ks)) k (Z.of_nat i)
  {{ r, ⌜r = Z.of_nat (i + index k (drop i ks))⌝ ∗ parray 4 ar cap ks }}.
Proof.
  revert i. induction n as [|n IH]; intros i Hi Hn; [lia|].
  triple_start. iIntros "H". cbn [key_loop]. destruct (Z.ltb_spec (Z.of_nat i) (Z.of_nat (length ks))).
  - destruct (lookup_lt_is_Some_2 ks i) as [x Hx]; [lia|]. wp_focus.
    iApply (wp_parray_load with "H"); [done|]. iIntros "H". rewrite (drop_S ks x i Hx). cbn [index].
    destruct (x <? k).
    + replace (Z.of_nat i + 1) with (Z.of_nat (S i)) by lia.
      wp_call (IH (S i) ltac:(lia) ltac:(lia)) with "H". iIntros (r) "[-> $]". iPureIntro. lia.
    + wp_rets. iFrame. iPureIntro. lia.
  - wp_rets. iFrame. rewrite drop_ge; [|lia]. simpl. iPureIntro. lia.
Qed.

Lemma key_index_spec ar cap ks k :
  {{ parray 4 ar cap ks }} key_index ar (Z.of_nat (length ks)) k
  {{ r, ⌜r = Z.of_nat (index k ks)⌝ ∗ parray 4 ar cap ks }}.
Proof.
  unfold key_index. rewrite Nat2Z.id. apply (key_loop_spec _ ar cap ks k 0); lia.
Qed.

Lemma node_key_index_spec cur p h es k :
  {{ cur ↦ p ∗ fields_at p h es }} node_key_index cur k
  {{ r, ⌜r = Z.of_nat (index k (ekey <$> es))⌝ ∗ cur ↦ p ∗ fields_at p h es }}.
Proof.
  triple_start. iIntros "(Hcur & Hn & Hk & H)". unfold node_key_index. wp_steps.
  pose proof (key_index_spec (keys p) 4 (ekey <$> es) k) as Hindex. rewrite length_fmap in Hindex.
  wp_call Hindex with "Hk". iIntros (r) "[-> Hk]". by iFrame.
Qed.

(** Subscripts in range. *)
Lemma key_at_ok p i : (i < 4)%nat → key_at p (Z.of_nat i) = mret (elem 4 (keys p) (Z.of_nat i)).
Proof.
  intros Hi. unfold key_at, ORDER. rewrite (proj2 (Z.leb_le _ _)); [|lia].
  by rewrite (proj2 (Z.ltb_lt _ _)); [|lia].
Qed.
Lemma val_at_ok p i : (i < 4)%nat → val_at p (Z.of_nat i) = mret (elem 8 (vals p) (Z.of_nat i)).
Proof.
  intros Hi. unfold val_at, ORDER. rewrite (proj2 (Z.leb_le _ _)); [|lia].
  by rewrite (proj2 (Z.ltb_lt _ _)); [|lia].
Qed.
Lemma child_at_ok p i : (i < 5)%nat → child_at p (Z.of_nat i) = mret (elem 8 (children p) (Z.of_nat i)).
Proof.
  intros Hi. unfold child_at, ORDER. rewrite (proj2 (Z.leb_le _ _)); [|lia].
  by rewrite (proj2 (Z.ltb_lt _ _)); [|lia].
Qed.

Lemma key_found_spec cur p h es k i :
  (length es ≤ 4)%nat →
  {{ cur ↦ p ∗ fields_at p h es }} key_found cur (Z.of_nat i) k
  {{ b, ⌜b = bool_decide ((ekey <$> es) !! i = Some k)⌝ ∗ cur ↦ p ∗ fields_at p h es }}.
Proof.
  intros Hl. triple_start. iIntros "(Hcur & Hn & Hk & H)". unfold key_found, get_key. wp_steps.
  destruct (Z.ltb_spec (Z.of_nat i) (Z.of_nat (length es))) as [Hi|Hi].
  - destruct (lookup_lt_is_Some_2 (ekey <$> es) i) as [x Hx]; [rewrite length_fmap; lia|]. wp_load.
    rewrite key_at_ok; [|lia]. wp_rets.
    iApply (wp_parray_load with "Hk"); [done|]. iIntros "Hk". wp_rets. iFrame. iPureIntro. rewrite Hx.
    destruct (Z.eqb_spec x k) as [->|Hne]; [by rewrite bool_decide_true|].
    rewrite bool_decide_false //. congruence.
  - wp_rets. iFrame. iPureIntro. rewrite lookup_ge_None_2; [done|]. rewrite length_fmap. lia.
Qed.

(** A place is a leaf or a node. *)
Lemma tree_in_leaf place t : tree_in 0 place t ⊣⊢ ⌜t = Leaf⌝ ∗ place ↦ NULL.
Proof.
  iSplit.
  - iIntros "(%p & Hp & H)". destruct t; simpl; [|done]. iDestruct "H" as %->. by iFrame.
  - iIntros "[-> Hp]". iExists NULL. by iFrame.
Qed.

Lemma tree_in_node h place t :
  tree_in (S h) place t ⊣⊢ ∃ c0 es p, ⌜t = Node c0 es ∧ (1 ≤ length es ≤ 4)%nat⌝ ∗ place ↦ p ∗
    fields_at p (S h) es ∗ kids_at h p (kids t).
Proof.
  iSplit.
  - iIntros "(%p & Hp & H)". destruct t as [|c0 es]; [done|]. iDestruct "H" as "(% & H & Hk)".
    iExists c0, es, p. by iFrame.
  - iIntros "(%c0 & %es & %p & [-> %] & Hp & H & Hk)". iExists p. by iFrame.
Qed.

Lemma fields_not_null p h es : fields_at p h es ⊢ ⌜p ≠ NULL⌝.
Proof. iIntros "[H _]". iApply (pointsto_not_null with "H"). Qed.

(** Access to the place of the child number [i]. *)
Lemma kid_acc h p ts i c :
  ts !! i = Some c →
  kids_at h p ts ⊢ tree_in h (elem 8 (children p) (Z.of_nat i)) c ∗
    (∀ c', tree_in h (elem 8 (children p) (Z.of_nat i)) c' -∗ kids_at h p (<[i := c']> ts)).
Proof.
  iIntros (Hc) "(%cs & Ha & H)". iDestruct (big_sepL2_length with "H") as %Hl.
  destruct (lookup_lt_is_Some_2 cs i) as [q Hq]; [rewrite Hl; by eapply lookup_lt_Some|].
  iDestruct (parray_acc with "Ha") as "[Hp Ha]"; [done|].
  iDestruct (big_sepL2_insert_acc with "H") as "[Hq H]"; [done..|].
  iSplitL "Hp Hq"; [iExists q; iFrame|]. iIntros (c') "(%q' & Hp & Hq)". iExists (<[i := q']> cs).
  iSplitL "Ha Hp"; [by iApply "Ha"|]. by iApply "H".
Qed.

Lemma kids_upd i c c0 es :
  kids (Node (upd0 i c c0) (upd i c es)) = <[i := c]> (kids (Node c0 es)).
Proof.
  destruct i as [|j]; [done|]. simpl. f_equal. apply list_eq. intros m.
  destruct (decide (m = j)) as [->|Hne].
  - rewrite list_lookup_fmap list_lookup_alter_eq. destruct (es !! j) as [e|] eqn:He; simpl.
    + rewrite list_lookup_insert_eq // length_fmap. by eapply lookup_lt_Some.
    + symmetry. apply lookup_ge_None_2. rewrite length_insert length_fmap. by apply lookup_ge_None.
  - by rewrite list_lookup_fmap list_lookup_alter_ne // list_lookup_insert_ne // list_lookup_fmap.
Qed.

Lemma upd_ekeys i c es : ekey <$> upd i c es = ekey <$> es.
Proof.
  transitivity (fst <$> (upd i c es).*1); [by rewrite -list_fmap_compose|].
  rewrite upd_keys -list_fmap_compose. done.
Qed.

Lemma upd_evals i c es : evals (upd i c es) = evals es.
Proof.
  transitivity (snd <$> (upd i c es).*1); [by rewrite /evals -list_fmap_compose|].
  rewrite upd_keys -list_fmap_compose. done.
Qed.

(** Putting an updated child back. *)
Lemma fields_upd p h i c es : fields_at p h (upd i c es) ⊣⊢ fields_at p h es.
Proof. by rewrite /fields_at upd_ekeys upd_evals upd_length. Qed.

Lemma tree_in_upd h place p c0 es i c :
  (1 ≤ length es ≤ 4)%nat →
  place ↦ p -∗ fields_at p (S h) es -∗ kids_at h p (<[i := c]> (kids (Node c0 es))) -∗
  tree_in (S h) place (Node (upd0 i c c0) (upd i c es)).
Proof.
  iIntros (Hl) "Hp H Hk". rewrite tree_in_node. iExists (upd0 i c c0), (upd i c es), p.
  rewrite fields_upd kids_upd. iFrame. iPureIntro. by rewrite upd_length.
Qed.

Lemma btree_in_cells h place t : tree_in h place t ⊢ at_least h.
Proof.
  revert place t. induction h as [|h IH]; intros place t; [iIntros "_"; iApply at_least_0|].
  rewrite tree_in_node. iIntros "(%c0 & %es & %p & [-> %] & Hp & _ & Hk)".
  iDestruct (kid_acc h p _ 0 c0 with "Hk") as "[Hk _]"; [done|]. iApply (at_least_add 1).
  iSplitL "Hp"; [iApply (at_least_cell with "Hp")|]. by iApply IH.
Qed.

(** ** Look-ups *)

Lemma btree_member_loop_spec n h place t k :
  (h < n)%nat →
  {{ tree_in h place t }} member_loop n place k
  {{ b, ⌜b = bool_decide (is_Some (lookup_in h k t))⌝ ∗ tree_in h place t }}.
Proof.
  revert h place t. induction n as [|n IH]; intros h place t Hn; [lia|].
  triple_start. iIntros "H". cbn [member_loop]. destruct h as [|h].
  { iDestruct (tree_in_leaf with "H") as "[-> H]". wp_load. wp_rets. iSplit; [done|].
    iApply tree_in_leaf. by iFrame. }
  iDestruct (tree_in_node with "H") as (c0 es p) "([-> %Hl] & Hp & Hf & Hk)". wp_load.
  iDestruct (fields_not_null with "Hf") as %Hp. rewrite (proj2 (Z.eqb_neq p NULL)) //.
  wp_call (node_key_index_spec place p (S h) es k) with "[$Hp $Hf]". iIntros (r) "(-> & Hp & Hf)".
  wp_call (key_found_spec place p (S h) es k _ (proj2 Hl)) with "[$Hp $Hf]". iIntros (b) "(-> & Hp & Hf)".
  cbn [lookup_in]. set (i := index k (ekey <$> es)). case_bool_decide as Hfound.
  - wp_rets. iSplit; [iPureIntro|iApply tree_in_node; iExists c0, es, p; by iFrame].
    rewrite list_lookup_fmap in Hfound. apply fmap_Some in Hfound as (e & -> & _). done.
  - wp_load. pose proof (index_le k (ekey <$> es)) as Hi. rewrite length_fmap -/i in Hi.
    destruct (kids_lookup_is_Some c0 es i Hi) as [c Hc]. rewrite Hc. cbn [mbind option_bind].
    iDestruct (kid_acc with "Hk") as "[Hc Hk]"; [done|]. rewrite child_at_ok; [|lia]. wp_rets.
    wp_call (IH h _ c ltac:(lia)) with "Hc". iIntros (b) "[-> Hc]". iSplit; [done|].
    iSpecialize ("Hk" with "Hc"). rewrite list_insert_id //.
    iApply tree_in_node. iExists c0, es, p. by iFrame.
Qed.

(** Writing a value. *)
Lemma set_value_in h place p c0 es i e :
  es !! i = Some e → (1 ≤ length es ≤ 4)%nat →
  place ↦ p -∗ fields_at p (S h) es -∗ kids_at h p (kids (Node c0 es)) -∗
  elem 8 (vals p) (Z.of_nat i) ↦ e.1.2 ∗
  ∀ v, elem 8 (vals p) (Z.of_nat i) ↦ v -∗
    tree_in (S h) place (Node c0 (alter (λ e', (ekey e, v, e'.2)) i es)).
Proof.
  iIntros (He Hl) "Hp (Hn & Hks & Hvs & Hh) Hk".
  iDestruct (parray_acc _ _ _ _ i e.1.2 with "Hvs") as "[$ Hvs]"; [by rewrite list_lookup_fmap He|].
  iIntros (v) "Hv". iSpecialize ("Hvs" with "Hv"). iApply tree_in_node.
  iExists c0, (alter (λ e', (ekey e, v, e'.2)) i es), p.
  assert (∀ {A} (f : entry → A) m, f <$> alter (λ e', (ekey e, v, e'.2)) i es !! m
    = if decide (m = i) then Some (f (ekey e, v, e.2)) else f <$> es !! m) as Hlook.
  { intros A f m. case_decide as E; [subst m; by rewrite list_lookup_alter_eq He|].
    by rewrite list_lookup_alter_ne. }
  rewrite /fields_at length_alter.
  replace (ekey <$> alter (λ e', (ekey e, v, e'.2)) i es) with (ekey <$> es); last first.
  { apply list_eq. intros m. rewrite !list_lookup_fmap Hlook. case_decide as E; [|done].
    by rewrite E He. }
  replace (evals (alter (λ e', (ekey e, v, e'.2)) i es)) with (<[i := v]> (evals es)); last first.
  { apply list_eq. intros m. rewrite list_lookup_fmap Hlook. case_decide as E.
    - rewrite E list_lookup_insert_eq // /evals length_fmap. by eapply lookup_lt_Some.
    - by rewrite list_lookup_insert_ne // list_lookup_fmap. }
  cbn [kids]. replace (alter (λ e', (ekey e, v, e'.2)) i es).*2 with es.*2; last first.
  { apply list_eq. intros m. rewrite !list_lookup_fmap Hlook. case_decide as E; [|done].
    by rewrite E He. }
  by iFrame.
Qed.

(** The pointer [btree_find] returns gives access to the value. *)
Lemma btree_find_loop_spec n h place t k :
  (h < n)%nat →
  {{ tree_in h place t }} find_loop n place k
  {{ r, match lookup_in h k t with
        | None => ⌜r = NULL⌝ ∗ tree_in h place t
        | Some v => r ↦ v ∗ ∀ v', r ↦ v' -∗ ∃ t', ⌜insert_in h k v' t = Done t'⌝ ∗ tree_in h place t'
        end }}.
Proof.
  revert h place t. induction n as [|n IH]; intros h place t Hn; [lia|].
  triple_start. iIntros "H". cbn [find_loop]. destruct h as [|h].
  { iDestruct (tree_in_leaf with "H") as "[-> H]". wp_load. wp_rets. iSplit; [done|].
    iApply tree_in_leaf. by iFrame. }
  iDestruct (tree_in_node with "H") as (c0 es p) "([-> %Hl] & Hp & Hf & Hk)". wp_load.
  iDestruct (fields_not_null with "Hf") as %Hp. rewrite (proj2 (Z.eqb_neq p NULL)) //.
  wp_call (node_key_index_spec place p (S h) es k) with "[$Hp $Hf]". iIntros (r) "(-> & Hp & Hf)".
  wp_call (key_found_spec place p (S h) es k _ (proj2 Hl)) with "[$Hp $Hf]". iIntros (b) "(-> & Hp & Hf)".
  cbn [lookup_in insert_in]. set (i := index k (ekey <$> es)). case_bool_decide as Hfound.
  - wp_load. rewrite list_lookup_fmap in Hfound. apply fmap_Some in Hfound as (e & He & Ek). rewrite He.
    cbn [fmap option_fmap option_map].
    rewrite val_at_ok; [|pose proof (lookup_lt_Some _ _ _ He); lia]. wp_rets.
    iDestruct (set_value_in with "Hp Hf Hk") as "[$ H]"; [done..|].
    iIntros (v') "Hv". iExists _. iSplit; [done|]. subst k. by iApply "H".
  - wp_load. pose proof (index_le k (ekey <$> es)) as Hi. rewrite length_fmap -/i in Hi.
    destruct (kids_lookup_is_Some c0 es i Hi) as [c Hc]. rewrite Hc. cbn [mbind option_bind].
    iDestruct (kid_acc with "Hk") as "[Hc Hk]"; [done|]. rewrite child_at_ok; [|lia]. wp_rets.
    wp_call (IH h _ c ltac:(lia)) with "Hc". iIntros (r) "H".
    destruct (lookup_in h k c) as [v|].
    + iDestruct "H" as "[$ H]". iIntros (v') "Hr". iDestruct ("H" with "Hr") as (c') "[-> Hc]".
      iExists _. iSplit; [done|]. iApply (tree_in_upd with "Hp Hf"); [done|]. by iApply "Hk".
    + iDestruct "H" as "[-> Hc]". iSplit; [done|]. iSpecialize ("Hk" with "Hc").
      rewrite list_insert_id //. iApply tree_in_node. iExists c0, es, p. by iFrame.
Qed.

End search.

(** ** Insertion into one node *)

(** A node by its keys, its values and the pointers to its children. *)
Definition node_at (p h : Z) (ks vs cs : list Z) : hPropI :=
  (nb_keys p ↦ Z.of_nat (length ks) ∗ parray 4 (keys p) 4 ks ∗ parray 8 (vals p) 4 vs ∗
   parray 8 (children p) 5 cs ∗ height p ↦ h)%I.

Definition put_at (i : nat) (x : Z) (xs : list Z) : list Z := take i xs ++ x :: drop i xs.

(** The elements of the arrays of a node, of which the first have values. *)
Lemma parray4 w a xs :
  parray w a 4 xs ⊣⊢ ∃ x0 x1 x2 x3, ⌜Some <$> xs = take (length xs) [x0; x1; x2; x3] ∧ (length xs ≤ 4)%nat⌝ ∗
    elem w a 0 ↦o x0 ∗ elem w a 1 ↦o x1 ∗ elem w a 2 ↦o x2 ∗ elem w a 3 ↦o x3.
Proof.
  iSplit.
  - iIntros "(%ys & %Hl & H)". destruct ((Some <$> xs) ++ ys) as [|x0 [|x1 [|x2 [|x3 [|]]]]] eqn:E;
      apply (f_equal length) in E as El; rewrite length_app length_fmap /= in El; try lia.
    rewrite /oarray /= right_id. iExists x0, x1, x2, x3. iFrame. iPureIntro. rewrite -E.
    split; [|lia]. by rewrite take_app_le ?take_ge ?length_fmap.
  - iIntros "(%x0 & %x1 & %x2 & %x3 & [%E %Hl] & H)". iExists (drop (length xs) [x0; x1; x2; x3]).
    rewrite E take_drop /oarray /= right_id. iFrame. iPureIntro. rewrite length_drop /=. lia.
Qed.

Lemma parray5 w a xs :
  parray w a 5 xs ⊣⊢ ∃ x0 x1 x2 x3 x4,
    ⌜Some <$> xs = take (length xs) [x0; x1; x2; x3; x4] ∧ (length xs ≤ 5)%nat⌝ ∗
    elem w a 0 ↦o x0 ∗ elem w a 1 ↦o x1 ∗ elem w a 2 ↦o x2 ∗ elem w a 3 ↦o x3 ∗ elem w a 4 ↦o x4.
Proof.
  iSplit.
  - iIntros "(%ys & %Hl & H)". destruct ((Some <$> xs) ++ ys) as [|x0 [|x1 [|x2 [|x3 [|x4 [|]]]]]] eqn:E;
      apply (f_equal length) in E as El; rewrite length_app length_fmap /= in El; try lia.
    rewrite /oarray /= right_id. iExists x0, x1, x2, x3, x4. iFrame. iPureIntro. rewrite -E.
    split; [|lia]. by rewrite take_app_le ?take_ge ?length_fmap.
  - iIntros "(%x0 & %x1 & %x2 & %x3 & %x4 & [%E %Hl] & H)". iExists (drop (length xs) [x0; x1; x2; x3; x4]).
    rewrite E take_drop /oarray /= right_id. iFrame. iPureIntro. rewrite length_drop /=. lia.
Qed.

Lemma node_close p n h ks vs cs x0 x1 x2 x3 y0 y1 y2 y3 z0 z1 z2 z3 z4 :
  n = Z.of_nat (length ks) → (length ks ≤ 4)%nat → (length vs ≤ 4)%nat → (length cs ≤ 5)%nat →
  Some <$> ks = take (length ks) [x0; x1; x2; x3] → Some <$> vs = take (length vs) [y0; y1; y2; y3] →
  Some <$> cs = take (length cs) [z0; z1; z2; z3; z4] →
  nb_keys p ↦ n -∗
  elem 4 (keys p) 0 ↦o x0 -∗ elem 4 (keys p) 1 ↦o x1 -∗ elem 4 (keys p) 2 ↦o x2 -∗ elem 4 (keys p) 3 ↦o x3 -∗
  elem 8 (vals p) 0 ↦o y0 -∗ elem 8 (vals p) 1 ↦o y1 -∗ elem 8 (vals p) 2 ↦o y2 -∗ elem 8 (vals p) 3 ↦o y3 -∗
  elem 8 (children p) 0 ↦o z0 -∗ elem 8 (children p) 1 ↦o z1 -∗ elem 8 (children p) 2 ↦o z2 -∗
  elem 8 (children p) 3 ↦o z3 -∗ elem 8 (children p) 4 ↦o z4 -∗ height p ↦ h -∗ node_at p h ks vs cs.
Proof.
  intros -> ? ? ? Ek Ev Ec.
  iIntros "Hn Hk0 Hk1 Hk2 Hk3 Hv0 Hv1 Hv2 Hv3 Hc0 Hc1 Hc2 Hc3 Hc4 Hh". rewrite /node_at !parray4 parray5.
  iFrame "Hn Hh". iSplitL "Hk0 Hk1 Hk2 Hk3"; [iExists x0, x1, x2, x3; by iFrame|].
  iSplitL "Hv0 Hv1 Hv2 Hv3"; [iExists y0, y1, y2, y3; by iFrame|]. iExists z0, z1, z2, z3, z4. by iFrame.
Qed.

(** The members of a fresh node. *)
Lemma block_node q :
  HeapLogic.block q btree_layout ⊢ ∃ n x0 x1 x2 x3 y0 y1 y2 y3 z0 z1 z2 z3 z4 h,
    nb_keys q ↦o n ∗
    (elem 4 (keys q) 0 ↦o x0 ∗ elem 4 (keys q) 1 ↦o x1 ∗ elem 4 (keys q) 2 ↦o x2 ∗ elem 4 (keys q) 3 ↦o x3) ∗
    (elem 8 (vals q) 0 ↦o y0 ∗ elem 8 (vals q) 1 ↦o y1 ∗ elem 8 (vals q) 2 ↦o y2 ∗ elem 8 (vals q) 3 ↦o y3) ∗
    (elem 8 (children q) 0 ↦o z0 ∗ elem 8 (children q) 1 ↦o z1 ∗ elem 8 (children q) 2 ↦o z2 ∗
     elem 8 (children q) 3 ↦o z3 ∗ elem 8 (children q) 4 ↦o z4) ∗ height q ↦o h.
Proof.
  rewrite /HeapLogic.block /btree_layout /=.
  iIntros "([%n Hn] & [%x0 Hk0] & [%x1 Hk1] & [%x2 Hk2] & [%x3 Hk3] & [%y0 Hv0] & [%y1 Hv1] & [%y2 Hv2] &
    [%y3 Hv3] & [%z0 Hc0] & [%z1 Hc1] & [%z2 Hc2] & [%z3 Hc3] & [%z4 Hc4] & [%h Hh] & _)".
  iExists n, x0, x1, x2, x3, y0, y1, y2, y3, z0, z1, z2, z3, z4, h.
  rewrite /nb_keys /keys /vals /children /height /elem /= -!Z.add_assoc /= Z.add_0_r. iFrame.
Qed.

(** Open the node in the hypotheses [Hk], [Hv] and [Hc], whose lists have known
    lengths; close it again. *)
#[local] Ltac node_open :=
  rewrite !parray4 parray5;
  iDestruct "Hk" as (? ? ? ?) "[[% _] (Hk0 & Hk1 & Hk2 & Hk3)]";
  iDestruct "Hv" as (? ? ? ?) "[[% _] (Hv0 & Hv1 & Hv2 & Hv3)]";
  iDestruct "Hc" as (? ? ? ? ?) "[[% _] (Hc0 & Hc1 & Hc2 & Hc3 & Hc4)]";
  simplify_eq/=.
#[local] Ltac node_close :=
  iApply (node_close with "Hn Hk0 Hk1 Hk2 Hk3 Hv0 Hv1 Hv2 Hv3 Hc0 Hc1 Hc2 Hc3 Hc4 Hh");
  first [reflexivity | simpl; lia].

(** Run straight-line code of the node operations. *)
#[local] Ltac node_steps :=
  unfold LOOP; simpl;
  cbv [get_key get_val get_child set_key set_val set_child set_counts key_at val_at child_at ORDER];
  wp_rets; wp_steps.

(** The lists of a node with [n] keys. *)
#[local] Ltac known_length xs := repeat (destruct xs as [|? xs]; simpl in *; try lia).

Section insert.
Context `{!Allocator, !AllocatorTotal}.
Implicit Types (p q k v b h : Z) (ks vs cs : list Z) (i n : nat).

Lemma btree_layout_wf : layout_wf btree_layout.
Proof. split; [by apply (bool_decide_unpack (NoDup _))|by apply (bool_decide_unpack (Forall _ _))]. Qed.

Lemma insert_br_room node p h ks vs cs k v b med_k med_v :
  (1 ≤ length ks < 4)%nat → length vs = length ks → length cs = S (length ks) →
  let i := index k ks in
  {{ node ↦ p ∗ node_at p h ks vs cs }} insert_br node k v b med_k med_v
  {{ r, ⌜r = NULL⌝ ∗ node ↦ p ∗ node_at p h (put_at i k ks) (put_at i v vs) (put_at (S i) b cs) }}.
Proof.
  intros Hl Hv Hc i. triple_start. iIntros "(Hnode & Hn & Hk & Hv & Hc & Hh)". unfold insert_br.
  wp_load. wp_load. wp_load. wp_call (key_index_spec (keys p) 4 ks k) with "Hk".
  iIntros (r) "[-> Hk]". pose proof (index_le k ks) as Hi. fold i in Hi. fold i. clearbody i.
  wp_load. wp_load.
  known_length ks; known_length vs; known_length cs; node_open;
    (destruct i as [|[|[|[|]]]]; simpl in Hi; try lia);
    node_steps; (iSplit; [done|]); iFrame "Hnode"; node_close.
Qed.

(** Splitting a full node at or to the right of its median. *)
Lemma insert_br_split node p h ks vs cs k v b med_k med_v :
  length ks = 4%nat → length vs = 4%nat → length cs = 5%nat →
  let i := index k ks in
  (2 ≤ i)%nat →
  let ks' := put_at i k ks in
  let vs' := put_at i v vs in
  let cs' := put_at (S i) b cs in
  {{ node ↦ p ∗ node_at p h ks vs cs ∗ med_k ↦? ∗ med_v ↦? }} insert_br node k v b med_k med_v
  {{ r, ⌜r ≠ NULL⌝ ∗ node ↦ p ∗ node_at p h (take 2 ks') (take 2 vs') (take 3 cs') ∗
     node_at r h (drop 3 ks') (drop 3 vs') (drop 3 cs') ∗
     ∃ mk mv, ⌜ks' !! 2%nat = Some mk ∧ vs' !! 2%nat = Some mv⌝ ∗ med_k ↦ mk ∗ med_v ↦ mv }}.
Proof.
  intros Hl Hv Hc i Hi2 ks' vs' cs'. triple_start.
  iIntros "(Hnode & (Hn & Hk & Hv & Hc & Hh) & [% Hmk] & [% Hmv])". unfold insert_br.
  wp_load. wp_load. wp_load. wp_call (key_index_spec (keys p) 4 ks k) with "Hk".
  iIntros (r) "[-> Hk]". pose proof (index_le k ks) as Hi. fold i in Hi. fold i.
  subst ks' vs' cs'. clearbody i. wp_load. wp_load.
  known_length ks; known_length vs; known_length cs; node_open.
  change (ORDER - 1) with 4. change (ORDER / 2) with 2. simpl. wp_focus.
  iApply (wp_xmalloc _ _ btree_layout_wf). iIntros (q Hq) "Hq".
  iDestruct (block_node with "Hq") as (? ? ? ? ? ? ? ? ? ? ? ? ? ? ?) "(Gn & (Gk0 & Gk1 & Gk2 & Gk3) &
    (Gv0 & Gv1 & Gv2 & Gv3) & (Gc0 & Gc1 & Gc2 & Gc3 & Gc4) & Gh)".
  destruct i as [|[|[|[|[|]]]]]; simpl in Hi; try lia; node_steps; (iSplit; [done|]); iFrame "Hnode";
    (iSplitL "Hn Hk0 Hk1 Hk2 Hk3 Hv0 Hv1 Hv2 Hv3 Hc0 Hc1 Hc2 Hc3 Hc4 Hh"; [node_close|]);
    (iSplitR "Hmk Hmv"; [|iExists _, _; by iFrame]);
    iApply (node_close with "Gn Gk0 Gk1 Gk2 Gk3 Gv0 Gv1 Gv2 Gv3 Gc0 Gc1 Gc2 Gc3 Gc4 Gh");
    first [reflexivity | simpl; lia].
Qed.

(** To the left of the median the loop that fills the new node reads past the
    keys. *)
Lemma insert_br_stuck node p h ks vs cs k v b med_k med_v :
  length ks = 4%nat → length vs = 4%nat → length cs = 5%nat → (index k ks < 2)%nat →
  node ↦ p ∗ node_at p h ks vs cs ∗ med_k ↦? ∗ med_v ↦? ⊢
  wps (insert_br node k v b med_k med_v) UndefinedBehaviour.
Proof.
  intros Hl Hv Hc Hi2.
  iIntros "(Hnode & (Hn & Hk & Hv & Hc & Hh) & [% Hmk] & [% Hmv])". unfold insert_br.
  do 3 (iApply wps_bind; wp_load). iApply wps_bind. wp_call (key_index_spec (keys p) 4 ks k) with "Hk".
  iIntros (r) "[-> Hk]". set (i := index k ks) in *. clearbody i.
  do 2 (iApply wps_bind; wp_load).
  known_length ks; known_length vs; known_length cs; node_open.
  change (ORDER - 1) with 4. change (ORDER / 2) with 2. simpl. iApply wps_bind.
  iApply (wp_xmalloc _ _ btree_layout_wf). iIntros (q Hq) "Hq".
  iDestruct (block_node with "Hq") as (? ? ? ? ? ? ? ? ? ? ? ? ? ? ?) "(Gn & (Gk0 & Gk1 & Gk2 & Gk3) &
    (Gv0 & Gv1 & Gv2 & Gv3) & (Gc0 & Gc1 & Gc2 & Gc3 & Gc4) & Gh)".
  do 2 (iApply wps_bind; wp_load). iApply wps_bind. wp_store.
  rewrite (proj2 (Z.ltb_lt (Z.of_nat i) 2)); [|lia].
  cbv [get_key get_val get_child set_key set_val set_child key_at val_at child_at ORDER LOOP]. simpl.
  do 4 (iApply wps_bind; wp_steps). iApply wps_first.
  do 18 (iApply wps_bind; wp_rets; wp_steps).
  iApply wps_first. iApply wps_bind. wp_load. iApply wps_first. iApply wps_fail.
Qed.

(** ** Insertion into a node of a tree *)

Lemma node_fields p (h : nat) es cs :
  node_at p (Z.of_nat h) (ekey <$> es) (evals es) cs ⊣⊢ fields_at p h es ∗ parray 8 (children p) 5 cs.
Proof.
  rewrite /node_at /fields_at length_fmap. iSplit; [iIntros "($ & $ & $ & $ & $)"|iIntros "[($ & $ & $ & $) $]"].
Qed.

Lemma add_at_keys i kv (r : btree) (es : list entry) : ekey <$> add_at i (kv, r) es = put_at i kv.1 (ekey <$> es).
Proof. by rewrite /add_at /put_at fmap_app fmap_cons fmap_take fmap_drop. Qed.
Lemma add_at_vals i kv (r : btree) (es : list entry) : evals (add_at i (kv, r) es) = put_at i kv.2 (evals es).
Proof. by rewrite /evals /add_at /put_at fmap_app fmap_cons fmap_take fmap_drop. Qed.
Lemma add_at_kids i kv r c0 (es : list entry) :
  kids (Node c0 (add_at i (kv, r) es))
  = take (S i) (kids (Node c0 es)) ++ r :: drop (S i) (kids (Node c0 es)).
Proof. by rewrite /= /add_at fmap_app fmap_cons fmap_take fmap_drop. Qed.

(** The subtrees of a node to which a child is added. *)
Lemma kids_put (h : nat) cs (ts : list btree) i b (r : btree) :
  ([∗ list] q;c ∈ cs;ts, tree_at h q c) -∗ tree_at h b r -∗
  [∗ list] q;c ∈ put_at i b cs;take i ts ++ r :: drop i ts, tree_at h q c.
Proof.
  iIntros "H Hr". iDestruct (big_sepL2_length with "H") as %Hl.
  rewrite -{1}(take_drop i cs) -{1}(take_drop i ts) big_sepL2_app_same_length;
    [|left; by rewrite !length_take Hl].
  iDestruct "H" as "[H1 H2]". iApply (big_sepL2_app with "H1"). simpl. iFrame.
Qed.

Lemma kids_split (h : nat) n cs (ts : list btree) :
  ([∗ list] q;c ∈ cs;ts, tree_at h q c) -∗
  ([∗ list] q;c ∈ take n cs;take n ts, tree_at h q c) ∗ [∗ list] q;c ∈ drop n cs;drop n ts, tree_at h q c.
Proof.
  iIntros "H". iDestruct (big_sepL2_length with "H") as %Hl.
  rewrite -{1}(take_drop n cs) -{1}(take_drop n ts) big_sepL2_app_same_length //.
  left. by rewrite !length_take Hl.
Qed.

(** The two halves of a node with five keys. *)
Lemma split_close (h : nat) place p q c0 (es es2 : list entry) kv c cs :
  drop 2 es = (kv, c) :: es2 → length es = 5%nat →
  place ↦ p -∗ node_at p (Z.of_nat (S h)) (take 2 (ekey <$> es)) (take 2 (evals es)) (take 3 cs) -∗
  node_at q (Z.of_nat (S h)) (drop 3 (ekey <$> es)) (drop 3 (evals es)) (drop 3 cs) -∗
  ([∗ list] q;c ∈ cs;kids (Node c0 es), tree_at h q c) -∗
  tree_in (S h) place (Node c0 (take 2 es)) ∗ tree_at (S h) q (Node c es2).
Proof.
  iIntros (Hd Hl5) "Hp Hl Hr Hk". iDestruct (kids_split h 3 with "Hk") as "[Hkl Hkr]".
  assert (take 3 (kids (Node c0 es)) = kids (Node c0 (take 2 es))) as -> by by rewrite /= fmap_take.
  assert (drop 3 (kids (Node c0 es)) = kids (Node c es2)) as ->.
  { change (drop 2 es.*2 = c :: es2.*2). by rewrite -fmap_drop Hd. }
  assert (drop 3 es = es2) as Hd3.
  { transitivity (drop 1 (drop 2 es)); [by rewrite drop_drop|by rewrite Hd]. }
  rewrite /evals -!fmap_take -!fmap_drop Hd3 !node_fields.
  iDestruct "Hl" as "[Hfl Hl]". iDestruct "Hr" as "[Hfr Hr]". iSplitR "Hfr Hr Hkr".
  - iApply tree_in_node. iExists c0, (take 2 es), p. iFrame. iPureIntro. split; [done|].
    rewrite length_take. lia.
  - iFrame. iPureIntro. rewrite -Hd3 length_drop. lia.
Qed.

(** What the call of [insert_br] does, by the outcome of [add_entry]. *)
Definition br_outcome (h : nat) (place med_k med_v : Z) (o : outcome) (c : M heap Z) : hPropI :=
  match o with
  | Done t => wp c (λ q, ⌜q = NULL⌝ ∗ tree_in (S h) place t ∗ med_k ↦? ∗ med_v ↦?)
  | Split l kv r =>
      wp c (λ q, ⌜q ≠ NULL⌝ ∗ tree_in (S h) place l ∗ tree_at (S h) q r ∗ med_k ↦ kv.1 ∗ med_v ↦ kv.2)
  | Stuck => wps c UndefinedBehaviour
  end%I.

Lemma insert_br_tree (h : nat) place c0 (es : list entry) kv b (r : btree) med_k med_v :
  tree_in (S h) place (Node c0 es) ∗ tree_at h b r ∗ med_k ↦? ∗ med_v ↦? ⊢
  br_outcome h place med_k med_v (add_entry c0 es kv r) (insert_br place kv.1 kv.2 b med_k med_v).
Proof.
  iIntros "(H & Hr & Hmk & Hmv)". iDestruct (tree_in_node with "H") as (c0' es' p) "([%E %Hl] & Hp & Hf & Hk)".
  injection E as <- <-. iDestruct "Hk" as (cs) "[Hcs Hk]".
  iDestruct (big_sepL2_length with "Hk") as %Hcs. rewrite /= length_fmap in Hcs.
  iCombine "Hf Hcs" as "Hf". rewrite -node_fields. unfold add_entry.
  set (i := index kv.1 (ekey <$> es)). pose proof (index_le kv.1 (ekey <$> es)) as Hi.
  rewrite length_fmap -/i in Hi. iDestruct (kids_put h cs _ (S i) b r with "Hk Hr") as "Hk".
  rewrite -(add_at_kids i kv). assert (length (ekey <$> es) = length es) as Hlk by apply length_fmap.
  assert (length (evals es) = length es) as Hlv by apply length_fmap.
  destruct (Nat.ltb_spec (length es) 4) as [Hroom|Hfull].
  - cbn [br_outcome].
    wp_call (insert_br_room place p (Z.of_nat (S h)) (ekey <$> es) (evals es) cs kv.1 kv.2 b med_k med_v
      ltac:(lia) ltac:(lia) ltac:(lia)) with "[$Hp $Hf]".
    iIntros (q) "(-> & Hp & Hf)". iSplit; [done|]. iFrame "Hmk Hmv". iApply tree_in_node.
    fold i. rewrite -(add_at_keys i kv r) -(add_at_vals i kv r) node_fields. iDestruct "Hf" as "[Hf Hcs]".
    iExists c0, (add_at i (kv, r) es), p. iFrame. iPureIntro. split; [done|].
    rewrite /add_at length_app /= length_take length_drop. lia.
  - destruct (Nat.ltb_spec i 2) as [Hleft|Hright].
    { cbn [br_outcome]. iApply (insert_br_stuck place p _ (ekey <$> es) (evals es) cs); [lia|lia|lia|exact Hleft|]. iFrame. }
    destruct (drop 2 (add_at i (kv, r) es)) as [|[kv' c] es2] eqn:Hd.
    { apply (f_equal length) in Hd. rewrite length_drop /add_at length_app /= length_take length_drop in Hd. lia. }
    cbn [br_outcome].
    wp_call (insert_br_split place p (Z.of_nat (S h)) (ekey <$> es) (evals es) cs kv.1 kv.2 b med_k med_v
      ltac:(lia) ltac:(lia) ltac:(lia) Hright)
      with "[$Hp $Hf $Hmk $Hmv]".
    iIntros (q) "(%Hq & Hp & Hl & Hr & %mk & %mv & [%Emk %Emv] & Hmk & Hmv)". fold i in Emk, Emv.
    rewrite -/i -(add_at_keys i kv r) -(add_at_vals i kv r).
    assert (length (add_at i (kv, r) es) = 5)%nat as Hl5.
    { rewrite /add_at length_app /= length_take length_drop. lia. }
    assert (add_at i (kv, r) es !! 2%nat = Some (kv', c)) as H2
      by by rewrite -(Nat.add_0_r 2) -lookup_drop Hd.
    rewrite -(add_at_keys i kv r) list_lookup_fmap H2 in Emk.
    rewrite -(add_at_vals i kv r) list_lookup_fmap H2 in Emv. simplify_eq/=.
    iDestruct (split_close with "Hp Hl Hr Hk") as "[$ $]"; [done..|]. by iFrame.
Qed.
End insert.
End BTreeRefine.
