(* ===== verification/BTreeInsert.v ===== *)
(** * B-trees refine finite maps

    The whole operations of src/examples/btree.c: the descent that records the
    path, the ascent that splits nodes on the way, the new root, and the release
    of a tree. *)
From S2P Require Import Prelude HeapLogic Arrays BTree BTreeRefine.
From stdpp Require Import gmap list.
From iris.proofmode Require Import proofmode.
Import BTree BTreeRefine.
#[local] Open Scope Z_scope.

Module BTreeInsert.

Section operations.
Context `{!Allocator, !AllocatorTotal}.
Implicit Types (p q k v : Z) (h n d : nat) (t c : btree) (es : list entry).

(** ** New roots *)

Lemma make_root_spec h l r k v tl tr :
  Z.of_nat h + 1 < 2 ^ 31 →
  {{ tree_at h l tl ∗ tree_at h r tr }} btree_make_root l r k v
  {{ root, ⌜root ≠ NULL⌝ ∗ tree_at (S h) root (Node tl [(k, v, tr)]) }}.
Proof.
  intros Hh. triple_start. iIntros "[Hl Hr]". unfold btree_make_root. wp_focus.
  iApply (wp_xmalloc _ _ btree_layout_wf). iIntros (q Hq) "Hq".
  iDestruct (block_node with "Hq") as (? ? ? ? ? ? ? ? ? ? ? ? ? ? ?) "(Hn & (Hk0 & Hk1 & Hk2 & Hk3) &
    (Hv0 & Hv1 & Hv2 & Hv3) & (Hc0 & Hc1 & Hc2 & Hc3 & Hc4) & Hh)".
  wp_focus. iApply (wp_wand _ (λ _, height q ↦ Z.of_nat (S h) ∗ tree_at h l tl)%I with "[Hl Hh]").
  { destruct h as [|h].
    - destruct tl; [|done]. simpl. iDestruct "Hl" as %->. rewrite Z.eqb_refl. wp_store. by iFrame.
    - destruct tl as [|c0 es]; [done|]. iDestruct "Hl" as "(%Hes & Hf & Hk)".
      iDestruct (fields_not_null with "Hf") as %Hl0. rewrite (proj2 (Z.eqb_neq l NULL)) //.
      iDestruct "Hf" as "(Hn & Hks & Hvs & Hlh)". wp_load. wp_focus.
      iApply wp_value; [intros hp; unfold signed; rewrite decide_True; [done|unfold in_signed; lia]|].
      wp_store. replace (Z.of_nat (S h) + 1) with (Z.of_nat (S (S h))) by lia. iFrame. by iFrame. }
  iIntros (_) "[Hh Hl]". cbv [key_at val_at child_at ORDER]. simpl. wp_rets. wp_steps. iSplit; [done|].
  iAssert (node_at q (Z.of_nat (S h)) [k] [v] [l; r]) with "[-Hl Hr]" as "Hf".
  { iApply (node_close with "Hn Hk0 Hk1 Hk2 Hk3 Hv0 Hv1 Hv2 Hv3 Hc0 Hc1 Hc2 Hc3 Hc4 Hh");
      first [reflexivity | simpl; lia]. }
  iDestruct (node_fields q (S h) [(k, v, tr)] [l; r] with "Hf") as "[Hf Hcs]".
  iSplit; [by iPureIntro; simpl; lia|]. iFrame. done.
Qed.

(** ** Down and up the tree

    [Ψ] is what is to be shown of the code that follows the descent, and [Kn]
    what is to be shown when the key was found. *)
Section path.
Context (pp pk k v med_k med_v : Z) (top : nat).
Context (Ψ : M heap (option Z) → hPropI) (Kn : hPropI).
Context (Ψ_bind : ∀ A (c : M heap A) f, wp c (λ a, Ψ (f a)) ⊢ Ψ (c ≫= f)).
Implicit Types (os : list (option Z)) (place : Z).

Definition meds (h : nat) (kv : Z * Z) : hPropI :=
  match h with
  | O => med_k ↦? ∗ med_v ↦?
  | S _ => med_k ↦ kv.1 ∗ med_v ↦ kv.2
  end%I.

(** What is owed for the subtree of height [h] at [place], the element number
    [d] of the path. *)
Definition after (h d : nat) (place : Z) (os : list (option Z)) (o : outcome) : hPropI :=
  match o with
  | Done t => ∀ os', ⌜length os' = length os⌝ -∗ oarray 8 pp os' -∗ slots 4 pk top -∗ med_k ↦? -∗ med_v ↦? -∗
      tree_in h place t -∗ Kn ∧ Ψ (mret None)
  | Split l kv r => ∀ q os', ⌜take (S d) os' = take (S d) os ∧ length os' = length os⌝ -∗ oarray 8 pp os' -∗
      slots 4 pk top -∗ meds h kv -∗ tree_in h place l -∗ tree_at h q r -∗
      Ψ (up_loop d pp kv.1 kv.2 q (match h with O => None | S _ => Some q end) med_k med_v)
  | Stuck => ∀ A (c : M heap A) f, wps c UndefinedBehaviour -∗ Ψ (c ≫= f)
  end%I.

Lemma meds_any h kv : meds h kv ⊢ med_k ↦? ∗ med_v ↦?.
Proof. destruct h; simpl; [done|]. iIntros "[Hk Hv]". iSplitL "Hk"; by iExists _. Qed.

(** One turn of the loop up: the node at [place] takes what was split off below. *)
Lemma up_step h d place os os' c0 es kv q r new :
  os !! d = Some (Some place) → take (S (S d)) os' = take (S (S d)) os → length os' = length os →
  oarray 8 pp os' -∗ slots 4 pk top -∗ meds h kv -∗ tree_in (S h) place (Node c0 es) -∗ tree_at h q r -∗
  after (S h) d place os (add_entry c0 es kv r) -∗
  Ψ (up_loop (S d) pp kv.1 kv.2 q new med_k med_v).
Proof.
  iIntros (Hd Ht Hl) "Hpp Hpk Hmed H Hq Hafter". cbn [up_loop].
  assert (os' !! d = Some (Some place)) as Hd'.
  { rewrite -(lookup_take_lt os' (S (S d))) ?Ht ?lookup_take_lt //; lia. }
  assert (take (S d) os' = take (S d) os) as Ht'.
  { apply (f_equal (take (S d))) in Ht. rewrite !take_take in Ht. by rewrite !Nat.min_l in Ht; [|lia..]. }
  iApply Ψ_bind. iApply (wp_elem_load with "Hpp"); [done|]. iIntros "Hpp".
  iDestruct (meds_any with "Hmed") as "[Hmk Hmv]".
  iDestruct (insert_br_tree h place c0 es kv q r med_k med_v with "[$H $Hq $Hmk $Hmv]") as "Hbr".
  destruct (add_entry c0 es kv r) as [t|l kv' r'|]; cbn [br_outcome after].
  - iApply Ψ_bind. iApply (wp_wand with "Hbr"). iIntros (a) "(-> & H & Hmk & Hmv)". rewrite Z.eqb_refl.
    iDestruct ("Hafter" $! os' with "[//] Hpp Hpk Hmk Hmv H") as "[_ $]".
  - iApply Ψ_bind. iApply (wp_wand with "Hbr"). iIntros (a) "(%Ha & H & Hr & Hmk & Hmv)".
    rewrite (proj2 (Z.eqb_neq a NULL)) //. iApply Ψ_bind. wp_load. iApply Ψ_bind. wp_load.
    iApply ("Hafter" $! a os' with "[//] Hpp Hpk [$Hmk $Hmv] H Hr").
  - iApply ("Hafter" with "Hbr").
Qed.

Lemma down_loop_spec n h d place os t :
  (h < n)%nat → (d + h = top)%nat → os !! d = Some (Some place) → length os = S top →
  tree_in h place t -∗ oarray 8 pp os -∗ slots 4 pk top -∗ med_k ↦? -∗ med_v ↦? -∗
  after h d place os (insert_in h k v t) -∗
  wp (down_loop n pp pk k v (Z.of_nat d)) (λ r, match r with
    | None => Kn
    | Some cur => Ψ (up_loop (Z.to_nat cur) pp k v NULL None med_k med_v)
    end).
Proof.
  revert h d place os t. induction n as [|n IH]; intros h d place os t Hn HH Hd Hlen; [lia|].
  iIntros "H Hpp Hpk Hmk Hmv Hafter". cbn [down_loop].
  wp_focus. iApply (wp_elem_load with "Hpp"); [done|]. iIntros "Hpp". destruct h as [|h].
  { iDestruct (tree_in_leaf with "H") as "[-> H]". wp_load. wp_rets. rewrite Nat2Z.id.
    iApply ("Hafter" $! NULL os with "[//] Hpp Hpk [$Hmk $Hmv] [H]"); [|done].
    iApply tree_in_leaf. by iFrame. }
  iDestruct (tree_in_node with "H") as (c0 es p) "([-> %Hl] & Hp & Hf & Hk)". wp_load.
  iDestruct (fields_not_null with "Hf") as %Hp. rewrite (proj2 (Z.eqb_neq p NULL)) //.
  wp_focus. iApply (wp_elem_load with "Hpp"); [done|]. iIntros "Hpp".
  wp_call (node_key_index_spec place p (S h) es k) with "[$Hp $Hf]". iIntros (r) "(-> & Hp & Hf)".
  wp_call (key_found_spec place p (S h) es k _ (proj2 Hl)) with "[$Hp $Hf]". iIntros (b) "(-> & Hp & Hf)".
  cbn [insert_in]. set (i := index k (ekey <$> es)). case_bool_decide as Hfound.
  - rewrite list_lookup_fmap in Hfound. apply fmap_Some in Hfound as (e & He & Ek).
    unfold set_val. wp_load. rewrite val_at_ok; [|pose proof (lookup_lt_Some _ _ _ He); lia]. wp_rets.
    iDestruct (set_value_in with "Hp Hf Hk") as "[Hv H]"; [done..|]. wp_store.
    iSpecialize ("H" with "Hv"). rewrite -Ek. cbn [after].
    iDestruct ("Hafter" $! os with "[//] Hpp Hpk Hmk Hmv H") as "[$ _]".
  - wp_focus. iApply (wp_slots_store with "Hpk"); [lia|]. iIntros "Hpk". wp_load.
    pose proof (index_le k (ekey <$> es)) as Hi. rewrite length_fmap -/i in Hi.
    rewrite child_at_ok; [|lia]. wp_rets.
    replace (Z.of_nat d + 1) with (Z.of_nat (S d)) by lia.
    wp_focus. iApply (wp_elem_store with "Hpp"); [lia|]. iIntros "Hpp".
    destruct (kids_lookup_is_Some c0 es i Hi) as [c Hc]. rewrite Hc.
    iDestruct (kid_acc with "Hk") as "[Hc Hk]"; [done|].
    set (os1 := <[S d := _]> os). assert (length os1 = length os) as Hl1 by apply length_insert.
    assert (os1 !! d = Some (Some place)) as Hd1 by (rewrite list_lookup_insert_ne //; lia).
    assert (take (S d) os1 = take (S d) os) as Ht1 by (apply take_insert_ge; lia).
    iApply (IH h (S d) _ os1 c with "Hc Hpp Hpk Hmk Hmv"); [lia|lia|apply list_lookup_insert_eq; lia|lia|].
    destruct (insert_in h k v c) as [c'|l kv r|]; cbn [after].
    + iIntros (os' Hlos') "Hpp Hpk Hmk Hmv Hc". iApply ("Hafter" with "[] Hpp Hpk Hmk Hmv"); [iPureIntro; lia|].
      iApply (tree_in_upd with "Hp Hf"); [done|]. by iApply "Hk".
    + iIntros (q os' [Ht' Hl']) "Hpp Hpk Hmed Hc Hq".
      iApply (up_step with "Hpp Hpk Hmed [Hp Hf Hk Hc] Hq"); [exact Hd1|done|done| |].
      { iApply (tree_in_upd with "Hp Hf"); [done|]. by iApply "Hk". }
      destruct (add_entry _ _ kv r); cbn [after]; rewrite ?Hl1 ?Ht1; iApply "Hafter".
    + iApply "Hafter".
Qed.

Lemma descent_spec place os t :
  os !! 0%nat = Some (Some place) → length os = S top →
  tree_in top place t ∗ oarray 8 pp os ∗ slots 4 pk top ∗ med_k ↦? ∗ med_v ↦? ∗
    after top 0 place os (insert_in top k v t) ⊢
  wp (with_fuel (λ n, down_loop n pp pk k v 0)) (λ r, match r with
    | None => Kn
    | Some cur => Ψ (up_loop (Z.to_nat cur) pp k v NULL None med_k med_v)
    end).
Proof.
  intros Hos Hlen. apply (wp_with_fuel top).
  - iIntros "[H _]". by iApply btree_in_cells.
  - intros n Hn. iIntros "(H & Hpp & Hpk & Hmk & Hmv & Hafter)".
    by iApply (down_loop_spec n top 0 place os t with "H Hpp Hpk Hmk Hmv Hafter").
Qed.
End path.

(** ** [btree_insert] *)

(** The tree after an insertion, with its height. *)
Definition insert_root (h : nat) (k v : Z) (t : btree) : option (nat * btree) :=
  match insert_in h k v t with
  | Done t' => Some (h, t')
  | Split l kv r => Some (S h, Node l [(kv, r)])
  | Stuck => None
  end.

(** The path arrays, allocated and freed. *)
Lemma wp_free_slots w a n Φ : slots w a n -∗ Φ tt -∗ wp (free (array_layout w n) a) Φ.
Proof. iIntros "H HΦ". iApply (wp_free with "[H] HΦ"). by rewrite block_slots. Qed.

Lemma oarray_slots w a xs n : length xs = n → oarray w a xs ⊢ slots w a n.
Proof. iIntros (<-) "H". iExists xs. by iFrame. Qed.

Lemma alloc_path_spec h place t :
  {{ tree_in (S h) place t }} alloc_path place
  {{ r, ∃ pp pk os, ⌜r = (pp, pk, Z.of_nat (S h)) ∧ os !! 0%nat = Some (Some place) ∧ length os = S (S h)⌝ ∗
     tree_in (S h) place t ∗ oarray 8 pp os ∗ slots 4 pk (S h) }}.
Proof.
  triple_start. iIntros "H". unfold alloc_path.
  iDestruct (tree_in_node with "H") as (c0 es p) "([-> %Hl] & Hp & (Hn & Hks & Hvs & Hht) & Hk)".
  wp_load. wp_load. wp_focus.
  iApply wp_xmalloc; [by apply array_layout_wf|]. iIntros (pp _) "Hpp". wp_load. wp_load. wp_focus.
  iApply wp_xmalloc; [by apply array_layout_wf|]. iIntros (pk _) "Hpk". rewrite !block_slots.
  replace (Z.to_nat (Z.of_nat (S h) + 1)) with (S (S h)) by lia. rewrite Nat2Z.id.
  iDestruct "Hpp" as (os) "[%Hos Hpp]". wp_focus.
  iApply (wp_elem_store _ _ _ 0 with "Hpp"); [lia|]. iIntros "Hpp". wp_rets.
  iExists pp, pk, _. iFrame "Hpp Hpk". iSplit.
  - iPureIntro. split_and!; [done|apply list_lookup_insert_eq; lia|by rewrite length_insert].
  - iApply tree_in_node. iExists c0, es, p. by iFrame.
Qed.

(** What the end of [btree_insert] needs of the descent and the ascent. *)
Definition path_done (h : nat) (pp pk : Z) (Q : hPropI) : hPropI :=
  (slots 8 pp (S (S h)) ∗ slots 4 pk (S h) ∗ Q)%I.

Lemma after_done h place t k v med_k med_v pp pk os h' t' :
  Z.of_nat (S h) + 1 < 2 ^ 31 → insert_root (S h) k v t = Some (h', t') → length os = S (S h) →
  let Q := path_done h pp pk (tree_in h' place t' ∗ med_k ↦? ∗ med_v ↦?) in
  ⊢ after pp pk med_k med_v (S h) (λ m, wp m (λ a, wp (install_root place med_k med_v a) (λ _, Q))) Q
      (S h) 0 place os (insert_in (S h) k v t).
Proof.
  intros Hh Hins Hlen Q. unfold insert_root in Hins.
  destruct (insert_in (S h) k v t) as [t1|l kv r|]; [| |done]; injection Hins as <- <-; cbn [after].
  - iIntros (os' Hl') "Hpp Hpk Hmk Hmv H".
    iAssert Q with "[-]" as "HQ"; [|iSplit; [done|by do 2 wp_rets]].
    iFrame "Hpk H Hmk Hmv". iApply (oarray_slots with "Hpp"). lia.
  - iIntros (q os' [_ Hl']) "Hpp Hpk [Hmk Hmv] (%p & Hp & Hl) Hr". cbn [up_loop]. simpl. wp_rets. wp_rets.
    wp_load. wp_load. wp_load. wp_call (make_root_spec (S h) p q kv.1 kv.2 l r Hh) with "[$Hl $Hr]".
    iIntros (root) "[_ Hroot]". wp_store. iSplitL "Hpp"; [iApply (oarray_slots with "Hpp"); lia|].
    iFrame "Hpk". iSplitL "Hp Hroot"; [iExists root; iFrame; by destruct kv|]. iSplitL "Hmk"; by iExists _.
Qed.

Lemma insert_along_spec h place t k v med_k med_v pp pk os h' t' :
  Z.of_nat (S h) + 1 < 2 ^ 31 → insert_root (S h) k v t = Some (h', t') →
  os !! 0%nat = Some (Some place) → length os = S (S h) →
  {{ tree_in (S h) place t ∗ oarray 8 pp os ∗ slots 4 pk (S h) ∗ med_k ↦? ∗ med_v ↦? }}
    insert_along place k v med_k med_v pp pk (Z.of_nat (S h))
  {{ _, tree_in h' place t' ∗ med_k ↦? ∗ med_v ↦? }}.
Proof.
  intros Hh Hins Hos Hlen. triple_start. iIntros "(H & Hpp & Hpk & Hmk & Hmv)". unfold insert_along.
  replace (Z.to_nat (Z.of_nat (S h) + 1)) with (S (S h)) by lia. rewrite Nat2Z.id. wp_focus.
  set (Q := path_done h pp pk (tree_in h' place t' ∗ med_k ↦? ∗ med_v ↦?)).
  iApply (wp_wand with "[-]").
  { iApply (descent_spec pp pk k v med_k med_v (S h)
      (λ m, wp m (λ a, wp (install_root place med_k med_v a) (λ _, Q))) Q with "[$H $Hpp $Hpk $Hmk $Hmv]");
      [|done|done|by iApply after_done].
    intros A c' k'. by apply wp_bind. }
  iIntros (r) "H". iApply wp_bind. iApply (wp_wand _ (λ _, Q) with "[H]").
  { destruct r as [cur|]; [by iApply wp_bind|by iApply wp_ret]. }
  iIntros (_) "(Hpp & Hpk & HQ)". wp_focus. iApply (wp_free_slots with "Hpp").
  iApply (wp_free_slots with "Hpk"). done.
Qed.

Lemma insert_body_spec h place t k v med_k med_v h' t' :
  Z.of_nat h + 1 < 2 ^ 31 → insert_root h k v t = Some (h', t') →
  {{ tree_in h place t ∗ med_k ↦? ∗ med_v ↦? }} insert_body place k v med_k med_v
  {{ _, tree_in h' place t' ∗ med_k ↦? ∗ med_v ↦? }}.
Proof.
  intros Hh Hins. triple_start. iIntros "(H & Hmk & Hmv)". unfold insert_body. destruct h as [|h].
  { iDestruct (tree_in_leaf with "H") as "[-> H]". injection Hins as <- <-. wp_load. wp_rets.
    wp_call (make_root_spec 0 NULL NULL k v Leaf Leaf ltac:(lia)) with "[]"; [done|].
    iIntros (r) "[_ Hr]". wp_store. iFrame. }
  iDestruct "H" as (p) "[Hp H]". iAssert (⌜p ≠ NULL⌝)%I as %Hp.
  { destruct t as [|c0 es]; [done|]. iDestruct "H" as "(_ & Hf & _)". by iApply fields_not_null. }
  wp_load. rewrite (proj2 (Z.eqb_neq p NULL)) //.
  iAssert (tree_in (S h) place t) with "[Hp H]" as "H"; [iExists p; iFrame|].
  wp_call (alloc_path_spec h place t) with "H". iIntros (r) "(%pp & %pk & %os & (-> & %Hos & %Hlen) & H & Hpp & Hpk)".
  wp_call (insert_along_spec h place t k v med_k med_v pp pk os h' t' Hh Hins Hos Hlen)
    with "[$H $Hpp $Hpk $Hmk $Hmv]". by iIntros (_) "H".
Qed.

(** *** Where the code is undefined *)

Lemma wps_bind_assoc {A B C D} (m : M heap A) (f : A → M heap B) (g : B → M heap C) (g' : C → M heap D) e :
  wp m (λ a, wps ((f a ≫= g) ≫= g') e) ⊢ wps (((m ≫= f) ≫= g) ≫= g') e.
Proof.
  apply HEntails. intros h Hm hf Hd. destruct (Hm hf Hd) as (a & h' & E & Hd' & Hk).
  specialize (Hk hf Hd'). unfold mbind, M_bind in *. by rewrite E.
Qed.

Lemma insert_along_stuck h place t k v med_k med_v pp pk os :
  insert_root (S h) k v t = None → os !! 0%nat = Some (Some place) → length os = S (S h) →
  tree_in (S h) place t ∗ oarray 8 pp os ∗ slots 4 pk (S h) ∗ med_k ↦? ∗ med_v ↦? ⊢
  wps (insert_along place k v med_k med_v pp pk (Z.of_nat (S h))) UndefinedBehaviour.
Proof.
  intros Hins Hos Hlen. iIntros "(H & Hpp & Hpk & Hmk & Hmv)". unfold insert_along.
  set (g := λ _ : unit, (free _ pp ;; free _ pk) : M heap unit). iApply wps_bind.
  iApply (wp_wand with "[-]").
  { iApply (descent_spec pp pk k v med_k med_v (S h)
      (λ m, wps ((m ≫= install_root place med_k med_v) ≫= g) UndefinedBehaviour) False
      with "[$H $Hpp $Hpk $Hmk $Hmv]"); [|done|done|].
    - intros A m f. apply wps_bind_assoc.
    - unfold insert_root in Hins. destruct (insert_in (S h) k v t); [done|done|]. cbn [after].
      iIntros (A m f) "Hm". by do 3 iApply wps_first. }
  iIntros (r) "H". by destruct r.
Qed.

Lemma insert_body_stuck h place t k v med_k med_v :
  insert_root h k v t = None →
  tree_in h place t ∗ med_k ↦? ∗ med_v ↦? ⊢ wps (insert_body place k v med_k med_v) UndefinedBehaviour.
Proof.
  intros Hins. iIntros "(H & Hmk & Hmv)". unfold insert_body. destruct h as [|h]; [done|].
  iDestruct "H" as (p) "[Hp H]". iAssert (⌜p ≠ NULL⌝)%I as %Hp.
  { destruct t as [|c0 es]; [done|]. iDestruct "H" as "(_ & Hf & _)". by iApply fields_not_null. }
  iApply wps_bind. wp_load. rewrite (proj2 (Z.eqb_neq p NULL)) //.
  iAssert (tree_in (S h) place t) with "[Hp H]" as "H"; [iExists p; iFrame|]. iApply wps_bind.
  wp_call (alloc_path_spec h place t) with "H". iIntros (r) "(%pp & %pk & %os & (-> & %Hos & %Hlen) & H & Hpp & Hpk)".
  iApply insert_along_stuck; [done..|]. iFrame.
Qed.

Lemma int_layout_wf : layout_wf int_layout.
Proof. split; [by apply (bool_decide_unpack (NoDup _))|by apply (bool_decide_unpack (Forall _ _))]. Qed.
Lemma btree_t_layout_wf : layout_wf btree_t_layout.
Proof. split; [by apply (bool_decide_unpack (NoDup _))|by apply (bool_decide_unpack (Forall _ _))]. Qed.

Lemma local_cell a (n : Z) : HeapLogic.block a (Layout n [0]) ⊣⊢ a ↦?.
Proof. by rewrite /HeapLogic.block /= Z.add_0_r right_id. Qed.

(** By the tree alone: [btree_insert] makes the tree [insert_root] gives, and is
    undefined when there is none. *)
Lemma btree_insert_tree h place t k v :
  Z.of_nat h + 1 < 2 ^ 31 →
  match insert_root h k v t with
  | Some (h', t') => {{ tree_in h place t }} btree_insert place k v {{ _, tree_in h' place t' }}
  | None => stops (tree_in h place t) (btree_insert place k v) UndefinedBehaviour
  end.
Proof.
  intros Hh. destruct (insert_root h k v t) as [[h' t']|] eqn:Hins.
  - triple_start. iIntros "H". iApply (wp_with_local _ _ _ int_layout_wf). iIntros (mk) "Hmk".
    iApply (wp_with_local _ _ _ btree_t_layout_wf). iIntros (mv) "Hmv".
    iDestruct (local_cell with "Hmk") as "Hmk". iDestruct (local_cell with "Hmv") as "Hmv".
    wp_call (insert_body_spec h place t k v mk mv h' t' Hh Hins) with "[$H $Hmk $Hmv]".
    iIntros (_) "($ & Hmk & Hmv)". iSplitL "Hmv"; by iApply local_cell.
  - apply stops_wps. iIntros "H". iApply (wps_with_local _ _ _ int_layout_wf). iIntros (mk _) "Hmk".
    iApply (wps_with_local _ _ _ btree_t_layout_wf). iIntros (mv _) "Hmv".
    iDestruct (local_cell with "Hmk") as "Hmk". iDestruct (local_cell with "Hmv") as "Hmv".
    iApply insert_body_stuck; [done|]. iFrame.
Qed.

(** ** Making and freeing trees *)

Lemma new_btree_spec : {{ True }} new_btree {{ a, tree_in 0 a Leaf }}.
Proof.
  triple_start. iIntros "_". unfold new_btree. wp_focus. iApply (wp_xmalloc _ _ btree_t_layout_wf).
  iIntros (a _) "Ht". iDestruct (local_cell with "Ht") as (w) "Ht". wp_store. iApply tree_in_leaf. by iFrame.
Qed.

Lemma btree_node_block p (hz : Z) ks vs cs : node_at p hz ks vs cs ⊢ HeapLogic.block p btree_layout.
Proof.
  rewrite /node_at !parray4 parray5.
  iIntros "(Hn & (% & % & % & % & _ & Hk0 & Hk1 & Hk2 & Hk3) & (% & % & % & % & _ & Hv0 & Hv1 & Hv2 & Hv3) &
    (% & % & % & % & % & _ & Hc0 & Hc1 & Hc2 & Hc3 & Hc4) & Hh)".
  rewrite /HeapLogic.block /btree_layout /nb_keys /keys /vals /children /height /elem /=.
  rewrite -!Z.add_assoc /= Z.add_0_r. iFrame.
Qed.

Lemma free_children_spec n (rec : Z → M heap unit) h place p es ts cs i :
  (∀ q c, {{ tree_in h q c }} rec q {{ _, q ↦ NULL }}) →
  length ts = S (length es) → (length es ≤ 4)%nat → (i ≤ length ts)%nat → (length ts - i < n)%nat →
  length cs = length ts →
  {{ place ↦ p ∗ fields_at p (S h) es ∗ parray 8 (children p) 5 cs ∗
     [∗ list] q;c ∈ drop i cs;drop i ts, tree_at h q c }}
    free_children rec n place (Z.of_nat i)
  {{ _, ∃ cs, place ↦ p ∗ fields_at p (S h) es ∗ parray 8 (children p) 5 cs }}.
Proof.
  intros Hrec Hlt Hl4. revert i cs. induction n as [|n IH]; intros i cs Hi Hn Hlc; [lia|].
  triple_start. iIntros "(Hp & (Hnb & Hf) & Hcs & H)". unfold free_children; fold free_children. wp_load. wp_load.
  destruct (Z.leb_spec (Z.of_nat i) (Z.of_nat (length es))) as [Hle|Hgt]; last first.
  { wp_rets. iExists cs. iFrame. }
  wp_load. rewrite child_at_ok; [|lia]. wp_rets.
  destruct (lookup_lt_is_Some_2 cs i) as [q Hq]; [lia|]. destruct (lookup_lt_is_Some_2 ts i) as [c Hc]; [lia|].
  rewrite (drop_S cs q i Hq) (drop_S ts c i Hc). iDestruct "H" as "[Hq H]".
  iDestruct (parray_acc with "Hcs") as "[Ha Hcs]"; [done|].
  wp_call (Hrec (elem 8 (children p) (Z.of_nat i)) c) with "[Ha Hq]"; [iExists q; iFrame|].
  iIntros (_) "Ha". iSpecialize ("Hcs" with "Ha").
  replace (Z.of_nat i + 1) with (Z.of_nat (S i)) by lia.
  wp_call (IH (S i) (<[i := NULL]> cs) ltac:(lia) ltac:(lia) ltac:(by rewrite length_insert)) with "[-]".
  { iFrame. rewrite drop_insert_lt; [|lia]. iFrame. }
  by iIntros (_) "H".
Qed.

Lemma free_nodes_spec n h place t :
  (h < n)%nat → {{ tree_in h place t }} free_btree_nodes_ n place {{ _, place ↦ NULL }}.
Proof.
  revert h place t. induction n as [|n IH]; intros h place t Hn; [lia|].
  triple_start. iIntros "H". cbn [free_btree_nodes_]. destruct h as [|h].
  { iDestruct (tree_in_leaf with "H") as "[-> H]". wp_load. by wp_rets. }
  iDestruct (tree_in_node with "H") as (c0 es p) "([-> %Hl] & Hp & Hf & (%cs & Hcs & Hk))". wp_load.
  iDestruct (fields_not_null with "Hf") as %Hp. rewrite (proj2 (Z.eqb_neq p NULL)) //.
  iDestruct (big_sepL2_length with "Hk") as %Hlc.
  assert (length (kids (Node c0 es)) = S (length es)) as Hlk by by rewrite /= length_fmap.
  wp_call (free_children_spec (S (Z.to_nat ORDER)) (free_btree_nodes_ n) h place p es (kids (Node c0 es)) cs 0
    (λ q c, IH h q c ltac:(lia)) Hlk ltac:(lia) ltac:(lia) ltac:(rewrite Hlk; change (Z.to_nat ORDER) with 5%nat; lia) Hlc) with "[$Hp $Hf $Hcs $Hk]".
  iIntros (_) "(%cs' & Hp & Hf & Hcs)". wp_load. wp_focus. iApply (wp_free with "[Hf Hcs]").
  { iApply btree_node_block. iApply node_fields. iFrame. }
  by wp_store.
Qed.

Lemma free_btree_spec h place t : {{ tree_in h place t }} free_btree place {{ _, True }}.
Proof.
  triple_start. iIntros "H". unfold free_btree, free_btree_nodes. wp_focus.
  iApply (wp_wand with "[H]").
  { iApply (triple_with_fuel h with "H"); [apply btree_in_cells|]. intros n Hn. by apply (free_nodes_spec n h _ t). }
  iIntros (_) "Ht". iApply (wp_free with "[Ht]"); [|done]. iApply local_cell. by iExists _.
Qed.

(** ** B-trees as finite maps *)

(** The tree of height [h] at [t] represents [m]. *)
Definition btree_map (t : Z) (h : nat) (m : gmap Z Z) : hPropI :=
  (∃ tr, ⌜balanced 1 h tr ∧ ascending (flat tr) ∧ list_to_map (flat tr) = m⌝ ∗ tree_in h t tr)%I.

Lemma insert_root_correct h k v t h' t' :
  balanced 1 h t → ascending (flat t) → insert_root h k v t = Some (h', t') →
  balanced 1 h' t' ∧ flat t' = put k v (flat t).
Proof.
  intros Hb Hasc Hins. pose proof (insert_in_correct 1 h k v t ltac:(lia) Hb Hasc) as Hc.
  unfold insert_root in Hins. destruct (insert_in h k v t) as [t1|l kv r|]; [| |done]; injection Hins as <- <-.
  - done.
  - destruct Hc as (Hl & Hr & Hf). split; [|by rewrite -Hf /= app_nil_r].
    split_and!; [simpl; lia|simpl; lia|done|by repeat constructor].
Qed.

(** C25. Look-ups in a B-tree agree with the finite map it represents:
    [btree_member] tells whether the key is bound, [btree_find] returns NULL for a
    key that is not and else a pointer to its value, through which the value may
    be changed. *)
Theorem btree_lookup_correct (t : Z) h m k :
  ({{ btree_map t h m }} btree_member t k {{ b, ⌜b = bool_decide (is_Some (m !! k))⌝ ∗ btree_map t h m }}) ∧
  ({{ btree_map t h m }} btree_find t k
   {{ r, match m !! k with
         | None => ⌜r = NULL⌝ ∗ btree_map t h m
         | Some v => r ↦ v ∗ ∀ v', r ↦ v' -∗ btree_map t h (<[k := v']> m)
         end }}).
Proof.
  split.
  - triple_start. iIntros "(%tr & (%Hb & %Hasc & <-) & H)". iApply (wp_wand with "[H]").
    { iApply (triple_with_fuel h with "H"); [apply btree_in_cells|]. intros n Hn. by apply btree_member_loop_spec. }
    iIntros (b) "[-> H]". rewrite (lookup_in_correct 1) //. iSplit; [done|]. iExists tr. by iFrame.
  - triple_start. iIntros "(%tr & (%Hb & %Hasc & <-) & H)". iApply (wp_wand with "[H]").
    { iApply (triple_with_fuel h with "H"); [apply btree_in_cells|]. intros n Hn. by apply btree_find_loop_spec. }
    iIntros (r) "H". rewrite (lookup_in_correct 1) //. destruct (list_to_map (flat tr) !! k) as [v|].
    + iDestruct "H" as "[$ H]". iIntros (v') "Hv". iDestruct ("H" with "Hv") as (tr') "[%Hins H]".
      destruct (insert_root_correct h k v' tr h tr' Hb Hasc) as [Hb' Hf]; [by rewrite /insert_root Hins|].
      iExists tr'. iFrame. iPureIntro. rewrite Hf. split_and!; [done|by apply put_ascending|by apply put_map].
    + iDestruct "H" as "[-> H]". iSplit; [done|]. iExists tr. by iFrame.
Qed.

(** C7. Insertion into a B-tree is insertion into the finite map it represents:
    whenever no full node has to be split to the left of its median,
    [btree_insert] terminates, keeps every path of the same length and every
    node below the root at two to four keys, and binds the key to the value and
    nothing else. Keys inserted in ascending order are always such a case.
    [malloc] is assumed to succeed ([AllocatorTotal]). *)
Theorem btree_insert_refines_map place h t k v :
  Z.of_nat h + 1 < 2 ^ 31 → balanced 1 h t → ascending (flat t) →
  (∀ h' t', insert_root h k v t = Some (h', t') →
    balanced 1 h' t' ∧ ascending (flat t') ∧
    list_to_map (flat t') =@{gmap Z Z} <[k := v]> (list_to_map (flat t)) ∧
    {{ tree_in h place t }} btree_insert place k v {{ _, tree_in h' place t' }}) ∧
  (Forall (λ b, b.1 < k) (flat t) → is_Some (insert_root h k v t)).
Proof.
  intros Hh Hb Hasc. split.
  - intros h' t' Hins. destruct (insert_root_correct h k v t h' t' Hb Hasc Hins) as [Hb' Hf]. rewrite Hf.
    split_and!; [done|by apply put_ascending|by apply put_map|].
    pose proof (btree_insert_tree h place t k v Hh) as Htree. by rewrite Hins in Htree.
  - intros Hmax. pose proof (insert_in_max 1 h k v t ltac:(lia) Hb Hasc Hmax) as Hs.
    unfold insert_root. by destruct (insert_in h k v t).
Qed.

(** C26. An insertion that has to split a full node to the left of its median
    is undefined behaviour: the loop that fills the new node runs to [ORDER]
    instead of [ORDER - 1] and reads past the end of the keys. [malloc] is
    assumed to succeed ([AllocatorTotal]). *)
Theorem btree_insert_left_split_undefined place h t k v :
  Z.of_nat h + 1 < 2 ^ 31 → insert_root h k v t = None →
  stops (tree_in h place t) (btree_insert place k v) UndefinedBehaviour.
Proof.
  intros Hh Hins. pose proof (btree_insert_tree h place t k v Hh) as Htree. by rewrite Hins in Htree.
Qed.
End operations.

(** ** Witnesses *)
#[local] Existing Instances bump_allocator bump_allocator_total.

(** The tree of one full node. *)
Definition full_root : btree := Node Leaf [(2, 20, Leaf); (4, 40, Leaf); (6, 60, Leaf); (8, 80, Leaf)].

Lemma btree_insert_refines_map_witness :
  {{ tree_in 1 64 full_root }} btree_insert 64 7 70
  {{ _, tree_in 2 64 (Node (Node Leaf [(2, 20, Leaf); (4, 40, Leaf)])
                        [(6, 60, Node Leaf [(7, 70, Leaf); (8, 80, Leaf)])]) }}.
Proof.
  assert (balanced 1 1 full_root) as Hb by (simpl; split_and!; repeat constructor; lia).
  assert (ascending (flat full_root)) as Ha by (repeat constructor; lia).
  destruct (btree_insert_refines_map 64 1 full_root 7 70 ltac:(lia) Hb Ha) as [Hins _].
  by destruct (Hins 2%nat _ eq_refl) as (_ & _ & _ & Ht).
Defined.

Lemma btree_insert_left_split_undefined_witness :
  stops (tree_in 1 64 full_root) (btree_insert 64 1 10) UndefinedBehaviour.
Proof. apply (btree_insert_left_split_undefined 64 1 full_root 1 10); [lia|reflexivity]. Defined.
End BTreeInsert.
