(* ===== verification/PgWalk.v ===== *)
(** * The page-table walk of KVM (src/linux/no_proofs/pgtable.c)

    [kvm_pgtable_walk] visits the entries of a page table that map a range of
    addresses and calls back the walker of its caller: before and after the
    entries of a table, and on every leaf, each if the flags of the walker ask
    for it.  A leaf is read again after its call, so that a callback can install
    a table that the walk then enters.

    The file declares neither the data of a walk nor the macros and small
    functions it calls; they are the parameters in [KvmHeaders], with what the
    kernel documents of them in [KvmHeadersSpec].  [kvm_pte_table] is the one of
    Pgtable.v. *)
From S2P Require Import Prelude HeapLogic Arrays Pgtable.
From stdpp Require Import gmap list.
From iris.proofmode Require Import proofmode environments.
#[local] Open Scope Z_scope.

Module PgWalk.
Import Pgtable.

(** ** The code *)

(** What the file takes from headers that are not part of the repository. *)
Class KvmHeaders := {
  PTRS_PER_PTE : Z;
  PAGE_SIZE : Z;
  ERANGE : Z;
  ALIGN_DOWN : Z → Z → Z;
  PAGE_ALIGN : Z → Z;
  WARN_ON_ONCE : bool → M heap bool;
  kvm_granule_size : Z → Z;
  (** [struct kvm_pgtable_walk_data] *)
  walk_data_layout : layout;
  wd_pgt : Z → Z;
  wd_addr : Z → Z;
  wd_end : Z → Z;
  wd_walker : Z → Z;
  kvm_pgtable_idx : Z → Z → M heap Z;
  kvm_pgd_page_idx : Z → M heap Z;
  kvm_pte_follow : Z → Z → M heap Z;
  (** a call of a [kvm_pgtable_visitor_fn_t] *)
  call_visitor : Z → Z → Z → Z → Z → Z → Z → M heap Z;
}.

(** Members of [struct kvm_pgtable]. *)
Definition ia_bits (pgt : Z) : Z := pgt.
Definition start_level (pgt : Z) : Z := pgt + 4.
Definition pgd (pgt : Z) : Z := pgt + 8.
Definition mm_ops (pgt : Z) : Z := pgt + 16.

(** [enum kvm_pgtable_walk_flags] *)
Definition KVM_PGTABLE_WALK_LEAF : Z := Z.shiftl 1 0.
Definition KVM_PGTABLE_WALK_TABLE_PRE : Z := Z.shiftl 1 1.
Definition KVM_PGTABLE_WALK_TABLE_POST : Z := Z.shiftl 1 2.

(** Members of [struct kvm_pgtable_walker]. *)
Definition cb (walker : Z) : Z := walker.
Definition arg (walker : Z) : Z := walker + 8.
Definition flags (walker : Z) : Z := walker + 16.

Arguments ia_bits : simpl never.
Arguments start_level : simpl never.
Arguments pgd : simpl never.
Arguments mm_ops : simpl never.
Arguments cb : simpl never.
Arguments arg : simpl never.
Arguments flags : simpl never.

Section code.
Context `{!KvmHeaders}.

Definition kvm_pgtable_visitor_cb (data addr level ptep flag : Z) : M heap Z :=
  walker ← load (wd_walker data);
  f ← load (cb walker);
  end_ ← load (wd_end data);
  x ← load (arg walker);
  call_visitor f addr end_ level ptep flag x.

(** [walk] is [__kvm_pgtable_walk], with which this function is mutually
    recursive. *)
Definition __kvm_pgtable_visit (walk : Z → Z → Z → M heap Z) (data ptep level : Z) : M heap Z :=
  addr ← load (wd_addr data);
  pte ← load ptep;
  table ← kvm_pte_table pte level;
  walker ← load (wd_walker data);
  fl ← load (flags walker);
  ret ← (if table && negb (Z.land fl KVM_PGTABLE_WALK_TABLE_PRE =? 0) then
           kvm_pgtable_visitor_cb data addr level ptep KVM_PGTABLE_WALK_TABLE_PRE
         else mret 0);
  s ← (if negb table && negb (Z.land fl KVM_PGTABLE_WALK_LEAF =? 0) then
         ret ← kvm_pgtable_visitor_cb data addr level ptep KVM_PGTABLE_WALK_LEAF;
         pte ← load ptep;
         table ← kvm_pte_table pte level;
         mret (ret, (pte, table))
       else mret (ret, (pte, table)));
  let '(ret, (pte, table)) := s in
  if negb (ret =? 0) then mret ret else
  if negb table then
    a ← load (wd_addr data);
    store (wd_addr data) (u64 (a + kvm_granule_size level)) ;;
    mret ret
  else
    pgt ← load (wd_pgt data);
    ops ← load (mm_ops pgt);
    childp ← kvm_pte_follow pte ops;
    ret ← walk data childp (u32 (level + 1));
    if negb (ret =? 0) then mret ret else
    if negb (Z.land fl KVM_PGTABLE_WALK_TABLE_POST =? 0) then
      kvm_pgtable_visitor_cb data addr level ptep KVM_PGTABLE_WALK_TABLE_POST
    else mret ret.

(** The loop over the entries of one table. *)
Fixpoint walk_loop (visit : Z → Z → Z → M heap Z) (n : nat) (data pgtable level idx ret : Z)
    : M heap Z :=
  match n with
  | O => fail OutOfFuel
  | S n =>
      if idx <? PTRS_PER_PTE then
        a ← load (wd_addr data);
        e ← load (wd_end data);
        if e <=? a then mret ret else
        ret ← visit data (elem 8 pgtable idx) level;
        if negb (ret =? 0) then mret ret else
        walk_loop visit n data pgtable level (u32 (idx + 1)) ret
      else mret ret
  end.

(** Every call nests one level deeper and level [KVM_PGTABLE_MAX_LEVELS] is
    refused: [n] counts the levels. *)
Fixpoint kvm_pgtable_walk_levels (n : nat) (data pgtable level : Z) : M heap Z :=
  match n with
  | O => fail OutOfFuel
  | S n =>
      w ← WARN_ON_ONCE (KVM_PGTABLE_MAX_LEVELS <=? level);
      if (w : bool) then mret (- EINVAL) else
      idx ← kvm_pgtable_idx data level;
      walk_loop (__kvm_pgtable_visit (kvm_pgtable_walk_levels n)) (S (Z.to_nat PTRS_PER_PTE))
        data pgtable level idx 0
  end.
Definition __kvm_pgtable_walk : Z → Z → Z → M heap Z :=
  kvm_pgtable_walk_levels (S (Z.to_nat KVM_PGTABLE_MAX_LEVELS)).

(** The loop over the tables of the first level. *)
Fixpoint pgd_loop (n : nat) (data pgt idx ret : Z) : M heap Z :=
  match n with
  | O => fail OutOfFuel
  | S n =>
      a ← load (wd_addr data);
      e ← load (wd_end data);
      if a <? e then
        p ← load (pgd pgt);
        level ← load (start_level pgt);
        ret ← __kvm_pgtable_walk data (elem 8 p (u32 (idx * PTRS_PER_PTE))) level;
        if negb (ret =? 0) then mret ret else
        pgd_loop n data pgt (u32 (idx + 1)) ret
      else mret ret
  end.

Definition _kvm_pgtable_walk (data : Z) : M heap Z :=
  pgt ← load (wd_pgt data);
  ia ← load (ia_bits pgt);
  limit ← BIT ia;
  a ← load (wd_addr data);
  e ← load (wd_end data);
  if (limit <? a) || (limit <? e) then mret (- ERANGE) else
  p ← load (pgd pgt);
  if p =? NULL then mret (- EINVAL) else
  idx ← kvm_pgd_page_idx data;
  with_fuel (λ n, pgd_loop n data pgt idx 0).

(** The members of [walk_data] are initialised in the order in which they are
    written, since the initialiser of [end] reads [addr]. *)
Definition kvm_pgtable_walk `{!Allocator} (pgt addr size walker : Z) : M heap Z :=
  with_local walk_data_layout (λ walk_data,
    store (wd_pgt walk_data) pgt ;;
    store (wd_addr walk_data) (ALIGN_DOWN addr PAGE_SIZE) ;;
    a ← load (wd_addr walk_data);
    store (wd_end walk_data) (PAGE_ALIGN (u64 (a + size))) ;;
    store (wd_walker walk_data) walker ;;
    _kvm_pgtable_walk walk_data).
End code.

Arguments kvm_pgtable_visitor_cb : simpl never.
Arguments __kvm_pgtable_visit : simpl never.
Arguments __kvm_pgtable_walk : simpl never.
Arguments kvm_pte_table : simpl never.
Arguments KVM_PGTABLE_WALK_LEAF : simpl never.
Arguments KVM_PGTABLE_WALK_TABLE_PRE : simpl never.
Arguments KVM_PGTABLE_WALK_TABLE_POST : simpl never.

(** ** Page tables as trees *)

(** An entry maps memory itself or by the entries of another table. *)
Inductive entry :=
  | Leaf (pte : Z)
  | Table (pte : Z) (children : list entry).

Lemma entry_ind_nested (P : entry → Prop) :
  (∀ pte, P (Leaf pte)) → (∀ pte cs, Forall P cs → P (Table pte cs)) → ∀ x, P x.
Proof.
  intros Hl Ht. fix IH 1. intros [pte|pte cs]; [apply Hl|]. apply Ht.
  induction cs as [|c cs IHcs]; constructor; [apply IH|apply IHcs].
Qed.

(** What the kernel documents of the headers. *)
Class KvmHeadersSpec `{!KvmHeaders} := {
  PTRS_PER_PTE_range : 0 < PTRS_PER_PTE < 2 ^ 32;
  PAGE_SIZE_range : 0 < PAGE_SIZE < 2 ^ 64;
  ALIGN_DOWN_spec x : in_unsigned 64 x → ALIGN_DOWN x PAGE_SIZE = x - x mod PAGE_SIZE;
  PAGE_ALIGN_spec x : 0 ≤ x ≤ 2 ^ 64 - PAGE_SIZE → PAGE_ALIGN x = x + (- x) mod PAGE_SIZE;
  WARN_ON_ONCE_spec b h : WARN_ON_ONCE b h = Ok b h;
  granule_last : kvm_granule_size (KVM_PGTABLE_MAX_LEVELS - 1) = PAGE_SIZE;
  granule_step level :
    0 ≤ level < KVM_PGTABLE_MAX_LEVELS - 1 →
    kvm_granule_size level = PTRS_PER_PTE * kvm_granule_size (level + 1);
  walk_data_layout_wf : layout_wf walk_data_layout;
  walk_data_members p :
    HeapLogic.block p walk_data_layout ⊣⊢
      wd_pgt p ↦? ∗ wd_addr p ↦? ∗ wd_end p ↦? ∗ wd_walker p ↦?;
  (** the index of the entry, in a table of a level, that maps the address *)
  kvm_pgtable_idx_spec data level a :
    {{ wd_addr data ↦ a }} kvm_pgtable_idx data level
    {{ i, ⌜i = (a / kvm_granule_size level) mod PTRS_PER_PTE⌝ ∗ wd_addr data ↦ a }};
  (** the number of the first-level table that maps the address *)
  kvm_pgd_page_idx_spec data pgt a ia level :
    {{ wd_pgt data ↦ pgt ∗ wd_addr data ↦ a ∗ ia_bits pgt ↦ ia ∗ start_level pgt ↦ level }}
      kvm_pgd_page_idx data
    {{ i, ⌜i = (a mod 2 ^ ia) / (PTRS_PER_PTE * kvm_granule_size level)⌝ ∗
       wd_pgt data ↦ pgt ∗ wd_addr data ↦ a ∗ ia_bits pgt ↦ ia ∗ start_level pgt ↦ level }};
  (** the table an entry points to, and the memory needed to find it *)
  mm_ops_at : Z → hPropI;
  follow : Z → Z → Z;
  kvm_pte_follow_spec pte ops :
    {{ mm_ops_at ops }} kvm_pte_follow pte ops {{ p, ⌜p = follow pte ops⌝ ∗ mm_ops_at ops }};
}.

(** The arguments of a callback, with the entry found at [vi_ptep]. *)
Record visit := Visit { vi_addr : Z; vi_end : Z; vi_level : Z; vi_ptep : Z; vi_pte : Z }.

(** What a callback does: its answer, its own state afterwards and what becomes
    of the entry it is called on. *)
Record visitor (T : Type) := Visitor {
  v_pre : T → visit → list entry → Z * T * list entry;
  v_leaf : T → visit → Z * T * entry;
  v_post : T → visit → list entry → Z * T * entry;
}.
Arguments v_pre {T} _ _ _ _.
Arguments v_leaf {T} _ _ _.
Arguments v_post {T} _ _ _ _.

(** The operations of the page table walked, [pgt->mm_ops]. *)
Class WalkOps := ops : Z.

Section trees.
Context {KH : KvmHeaders} {KHS : KvmHeadersSpec} {WO : WalkOps}.

(** The entry at [ptep] in a table of the level and everything below it. *)
Fixpoint entry_at (level ptep : Z) (x : entry) : hPropI :=
  match x with
  | Leaf pte => ptep ↦ pte ∗ ⌜is_table (pte_of pte) level = false⌝
  | Table pte cs =>
      ptep ↦ pte ∗ ⌜is_table (pte_of pte) level = true⌝ ∗
      ⌜Z.of_nat (length cs) = PTRS_PER_PTE⌝ ∗
      (fix entries tbl cs :=
         match cs with
         | [] => emp
         | c :: cs => entry_at (level + 1) tbl c ∗ entries (tbl + 8) cs
         end) (follow pte ops) cs
  end%I.

Definition table_at (level tbl : Z) (cs : list entry) : hPropI :=
  (⌜Z.of_nat (length cs) = PTRS_PER_PTE⌝ ∗
   [∗ list] i ↦ c ∈ cs, entry_at level (elem 8 tbl (Z.of_nat i)) c)%I.

Lemma entry_at_table level ptep pte cs :
  entry_at level ptep (Table pte cs) ⊣⊢
  ptep ↦ pte ∗ ⌜is_table (pte_of pte) level = true⌝ ∗ table_at (level + 1) (follow pte ops) cs.
Proof.
  cbn [entry_at]. unfold table_at. apply bi.sep_proper, bi.sep_proper, bi.sep_proper; [done..|].
  generalize (follow pte ops). induction cs as [|c cs IH]; intros tbl; [done|].
  rewrite IH big_sepL_cons. replace (elem 8 tbl (Z.of_nat 0)) with tbl by (unfold elem; lia).
  apply bi.sep_proper; [done|]. apply big_sepL_proper. intros i y _. by rewrite elem_succ.
Qed.

Definition word (x : entry) : Z := match x with Leaf pte | Table pte _ => pte end.
Definition is_tab (x : entry) : bool := match x with Leaf _ => false | Table _ _ => true end.

Lemma entry_at_word level ptep x :
  entry_at level ptep x ⊢
  ⌜is_table (pte_of (word x)) level = is_tab x⌝ ∗ ptep ↦ word x ∗
  (ptep ↦ word x -∗ entry_at level ptep x).
Proof.
  destruct x as [pte|pte cs].
  - iIntros "[$ %Ht]". iSplit; [done|]. by iIntros "$".
  - iIntros "H". iDestruct (entry_at_table with "H") as "($ & %Ht & H)". iSplit; [done|].
    iIntros "Hp". iApply entry_at_table. by iFrame.
Qed.

(** Tables have [PTRS_PER_PTE] entries, and only table entries have a table. *)
Fixpoint entry_wf (level : Z) (x : entry) : Prop :=
  match x with
  | Leaf pte => is_table (pte_of pte) level = false
  | Table pte cs =>
      is_table (pte_of pte) level = true ∧ Z.of_nat (length cs) = PTRS_PER_PTE ∧
      (fix all cs := match cs with [] => True | c :: cs => entry_wf (level + 1) c ∧ all cs end) cs
  end.
Definition table_wf (level : Z) (cs : list entry) : Prop :=
  Z.of_nat (length cs) = PTRS_PER_PTE ∧ Forall (entry_wf level) cs.

Lemma entry_wf_table level pte cs :
  entry_wf level (Table pte cs) ↔ is_table (pte_of pte) level = true ∧ table_wf (level + 1) cs.
Proof.
  cbn [entry_wf]. unfold table_wf. do 2 (apply and_iff_compat_l).
  induction cs as [|c cs IH]; [done|]. by rewrite Forall_cons IH.
Qed.

Lemma entries_wf level (ptep : nat → Z) cs :
  Forall (λ c, ∀ p, entry_at level p c ⊢ ⌜entry_wf level c⌝) cs →
  ([∗ list] i ↦ c ∈ cs, entry_at level (ptep i) c) ⊢ ⌜Forall (entry_wf level) cs⌝.
Proof.
  revert ptep. induction cs as [|c cs IH]; intros ptep Hcs; [by iIntros|].
  apply Forall_cons in Hcs as [Hc Hcs]. rewrite big_sepL_cons.
  iIntros "[Hc Hcs]". iDestruct (Hc with "Hc") as %?.
  iDestruct (IH (λ i, ptep (S i)) Hcs with "Hcs") as %?. iPureIntro. by constructor.
Qed.

Lemma entry_at_wf level ptep x : entry_at level ptep x ⊢ ⌜entry_wf level x⌝.
Proof.
  revert level ptep. induction x as [pte|pte cs IH] using entry_ind_nested; intros level ptep.
  - by iIntros "[_ %]".
  - rewrite entry_at_table entry_wf_table. iIntros "(_ & %Ht & %Hl & H)".
    iDestruct (entries_wf with "H") as %?; [|done]. eapply Forall_impl; [done|]. auto.
Qed.

Lemma table_at_wf level tbl cs : table_at level tbl cs ⊢ ⌜table_wf level cs⌝.
Proof.
  iIntros "[%Hl H]". iDestruct (entries_wf with "H") as %?; [|done].
  apply Forall_forall. intros c _ p. apply entry_at_wf.
Qed.

Lemma table_level level pte cs :
  entry_wf level (Table pte cs) → 0 ≤ level < KVM_PGTABLE_MAX_LEVELS →
  level + 1 < KVM_PGTABLE_MAX_LEVELS.
Proof.
  intros [Ht _] Hl. unfold is_table in Ht. unfold KVM_PGTABLE_MAX_LEVELS in *.
  destruct (Z.eqb_spec level 3); [done|]. lia.
Qed.

Lemma granule_pos level : 0 ≤ level < KVM_PGTABLE_MAX_LEVELS → 0 < kvm_granule_size level.
Proof.
  pose proof PTRS_PER_PTE_range as Hp. intros Hl.
  assert (∀ n : nat, 0 ≤ 3 - Z.of_nat n → 0 < kvm_granule_size (3 - Z.of_nat n)) as Hn.
  { induction n as [|n IH]; intros Hn; [pose proof granule_last as E; pose proof PAGE_SIZE_range|].
    - change (KVM_PGTABLE_MAX_LEVELS - 1) with 3 in E. change (3 - Z.of_nat 0) with 3. lia.
    - rewrite granule_step; [|unfold KVM_PGTABLE_MAX_LEVELS; lia].
      replace (3 - Z.of_nat (S n) + 1) with (3 - Z.of_nat n) by lia. apply Z.mul_pos_pos; [|apply IH]; lia. }
  unfold KVM_PGTABLE_MAX_LEVELS in Hl. specialize (Hn (Z.to_nat (3 - level))).
  rewrite Z2Nat.id in Hn; [|lia]. replace (3 - (3 - level)) with level in Hn by lia. apply Hn. lia.
Qed.

(** ** The walk on trees

    The same walk as a function of the tree: [st] is the state of the visitor,
    [a] the address reached, [e] the end of the range, [fl] the flags.  The
    outcome is the answer, the visitor's state, the address and the tree. *)
Section walk.
Context {T : Type} (V : visitor T) (fl e : Z).

Definition asks (flag : Z) : bool := negb (Z.land fl flag =? 0).

Fixpoint titer {X} (f : nat → X → T → Z → Z * T * Z * X) (i : nat) (xs : list X) (st : T) (a : Z)
    : Z * T * Z * list X :=
  match xs with
  | [] => (0, st, a, [])
  | x :: xs' =>
      if e <=? a then (0, st, a, xs) else
      let '(r, st, a, x) := f i x st a in
      if r =? 0 then
        let '(r, st, a, xs') := titer f (S i) xs' st a in (r, st, a, x :: xs')
      else (r, st, a, x :: xs')
  end.

Definition tdescend (rec : Z → Z → list entry → T → Z → Z * T * Z * list entry)
    (level ptep pte : Z) (cs : list entry) (st : T) (a : Z) : Z * T * Z * entry :=
  let '(r, st, a', cs) := rec (level + 1) (follow pte ops) cs st a in
  if r =? 0 then
    if asks KVM_PGTABLE_WALK_TABLE_POST then
      let '(r, st, x) := v_post V st (Visit a e level ptep pte) cs in (r, st, a', x)
    else (0, st, a', Table pte cs)
  else (r, st, a', Table pte cs).

Definition tvisit (rec : Z → Z → list entry → T → Z → Z * T * Z * list entry)
    (level ptep : Z) (x : entry) (st : T) (a : Z) : Z * T * Z * entry :=
  match x with
  | Table pte cs =>
      let '(r, st, cs) :=
        if asks KVM_PGTABLE_WALK_TABLE_PRE then v_pre V st (Visit a e level ptep pte) cs
        else (0, st, cs) in
      if r =? 0 then tdescend rec level ptep pte cs st a else (r, st, a, Table pte cs)
  | Leaf pte =>
      let '(r, st, x) :=
        if asks KVM_PGTABLE_WALK_LEAF then v_leaf V st (Visit a e level ptep pte)
        else (0, st, Leaf pte) in
      if r =? 0 then
        match x with
        | Leaf _ => (0, st, u64 (a + kvm_granule_size level), x)
        | Table pte cs => tdescend rec level ptep pte cs st a
        end
      else (r, st, a, x)
  end.

(** [n] levels are left. *)
Fixpoint twalk (n : nat) (level tbl : Z) (cs : list entry) (st : T) (a : Z)
    : Z * T * Z * list entry :=
  match n with
  | O => (- EINVAL, st, a, cs)
  | S n =>
      let idx := Z.to_nat ((a / kvm_granule_size level) mod PTRS_PER_PTE) in
      let '(r, st, a, todo) :=
        titer (λ i, tvisit (twalk n) level (elem 8 tbl (Z.of_nat i))) idx (drop idx cs) st a in
      (r, st, a, take idx cs ++ todo)
  end.
Definition levels_left (level : Z) : nat := Z.to_nat (KVM_PGTABLE_MAX_LEVELS - level).

(** The walk over the first-level tables at [p] from number [k] on. *)
Definition tpages (level p : Z) (k : nat) (pages : list (list entry)) (st : T) (a : Z)
    : Z * T * Z * list (list entry) :=
  let '(r, st, a, todo) :=
    titer (λ j, twalk (levels_left level) level (elem 8 p (Z.of_nat j * PTRS_PER_PTE)))
      k (drop k pages) st a in
  (r, st, a, take k pages ++ todo).

(** *** The address reached

    A table of a level maps [PTRS_PER_PTE] granules from a multiple of its
    size on.  A walk that is not stopped leaves it behind, by less than a
    granule, or has reached the end of the range. *)
Definition span (level : Z) : Z := PTRS_PER_PTE * kvm_granule_size level.

(** A visitor that installs well-formed entries only. *)
Record visitor_wf : Prop := {
  wf_pre st v cs r st' cs' :
    table_wf (vi_level v + 1) cs → v_pre V st v cs = (r, st', cs') → table_wf (vi_level v + 1) cs';
  wf_leaf st v r st' y :
    entry_wf (vi_level v) (Leaf (vi_pte v)) → v_leaf V st v = (r, st', y) → entry_wf (vi_level v) y;
  wf_post st v cs r st' y :
    entry_wf (vi_level v) (Table (vi_pte v) cs) → v_post V st v cs = (r, st', y) →
    entry_wf (vi_level v) y;
}.
Context (Hwf : visitor_wf).

Definition walk_reaches (rec : Z → Z → list entry → T → Z → Z * T * Z * list entry) level : Prop :=
  ∀ tbl cs st a b r st' a' cs',
    table_wf level cs → (span level | b) → 0 ≤ b ≤ a → a < b + span level →
    b + 2 * span level ≤ 2 ^ 64 → rec level tbl cs st a = (r, st', a', cs') →
    table_wf level cs' ∧
    (r = 0 → e ≤ a' ∨ b + span level ≤ a' < b + span level + kvm_granule_size level).

Lemma span_granule level :
  0 ≤ level → level + 1 < KVM_PGTABLE_MAX_LEVELS → span (level + 1) = kvm_granule_size level.
Proof. intros. unfold span. rewrite -granule_step //. lia. Qed.

Lemma tdescend_reaches rec level ptep pte cs st a b r st' a' y :
  0 ≤ level < KVM_PGTABLE_MAX_LEVELS → walk_reaches rec (level + 1) →
  entry_wf level (Table pte cs) → (kvm_granule_size level | b) → 0 ≤ b ≤ a →
  a < b + kvm_granule_size level → b + 2 * kvm_granule_size level ≤ 2 ^ 64 →
  tdescend rec level ptep pte cs st a = (r, st', a', y) →
  entry_wf level y ∧ (r = 0 → e ≤ a' ∨ b + kvm_granule_size level ≤ a' < b + 2 * kvm_granule_size level).
Proof.
  intros Hl Hrec Hx Hb Ha Hab Hov. pose proof (table_level _ _ _ Hx Hl) as Hl'.
  apply entry_wf_table in Hx as [Ht Hcs]. unfold tdescend.
  destruct (rec _ _ _ _ _) as [[[r1 st1] a1] cs1] eqn:E.
  pose proof (span_granule level ltac:(lia) Hl') as Hs. pose proof PTRS_PER_PTE_range as Hp.
  assert (kvm_granule_size (level + 1) ≤ kvm_granule_size level) as Hg.
  { rewrite -Hs. unfold span. assert (0 < kvm_granule_size (level + 1)) by (apply granule_pos; lia). nia. }
  apply (Hrec _ _ _ _ b) in E as [Hcs1 Hr1]; [rewrite Hs in Hr1|done|by rewrite Hs|lia..].
  destruct (Z.eqb_spec r1 0) as [->|]; [|intros [= <- <- <- <-]; split; [by apply entry_wf_table|done]].
  destruct (asks _).
  - destruct (v_post _ _ _ _) as [[r2 st2] y2] eqn:E2. intros [= <- <- <- <-].
    split; [by apply (wf_post Hwf _ (Visit a e level ptep pte) _ _ _ _ (proj2 (entry_wf_table _ _ _) (conj Ht Hcs1)) E2)|]. intros _. specialize (Hr1 eq_refl). lia.
  - intros [= <- <- <- <-]. split; [by apply entry_wf_table|]. intros _. specialize (Hr1 eq_refl). lia.
Qed.

Lemma tvisit_reaches rec level ptep x st a b r st' a' y :
  0 ≤ level < KVM_PGTABLE_MAX_LEVELS → walk_reaches rec (level + 1) →
  entry_wf level x → (kvm_granule_size level | b) → 0 ≤ b ≤ a →
  a < b + kvm_granule_size level → b + 2 * kvm_granule_size level ≤ 2 ^ 64 →
  tvisit rec level ptep x st a = (r, st', a', y) →
  entry_wf level y ∧ (r = 0 → e ≤ a' ∨ b + kvm_granule_size level ≤ a' < b + 2 * kvm_granule_size level).
Proof.
  intros Hl Hrec Hx Hb Ha Hab Hov. unfold tvisit. destruct x as [pte|pte cs].
  - assert (∀ o : Z * T * entry, o = (if asks KVM_PGTABLE_WALK_LEAF
      then v_leaf V st (Visit a e level ptep pte) else (0, st, Leaf pte)) → entry_wf level o.2) as Ho.
    { intros [[r0 st0] z]. destruct (asks _); [|by intros [= -> -> ->]].
      intros E. symmetry in E. exact (wf_leaf Hwf _ (Visit a e level ptep pte) _ _ _ Hx E). }
    destruct (if asks _ then _ else _) as [[r1 st1] z]. specialize (Ho _ eq_refl). simpl in Ho.
    destruct (Z.eqb_spec r1 0) as [->|]; [|by intros [= <- <- <- <-]].
    destruct z as [pte'|pte' cs']; [|by apply tdescend_reaches].
    intros [= <- <- <- <-]. split; [done|]. intros _. right. rewrite wrap_small; [lia|]. split; lia.
  - apply entry_wf_table in Hx as [Ht Hcs].
    assert (∀ o : Z * T * list entry, o = (if asks KVM_PGTABLE_WALK_TABLE_PRE
      then v_pre V st (Visit a e level ptep pte) cs else (0, st, cs)) → table_wf (level + 1) o.2) as Ho.
    { intros [[r0 st0] cs0]. destruct (asks _); [|by intros [= -> -> ->]].
      intros E. symmetry in E. exact (wf_pre Hwf _ (Visit a e level ptep pte) _ _ _ _ Hcs E). }
    destruct (if asks _ then _ else _) as [[r1 st1] cs1]. specialize (Ho _ eq_refl). simpl in Ho.
    assert (entry_wf level (Table pte cs1)) as Hx1 by by apply entry_wf_table.
    destruct (Z.eqb_spec r1 0) as [->|]; [by apply tdescend_reaches|by intros [= <- <- <- <-]].
Qed.

(** A loop over consecutive parts of size [g]. *)
Lemma titer_reaches {X} (f : nat → X → T → Z → Z * T * Z * X) (P : X → Prop) g b N i xs st a r st' a' ys :
  (∀ i x st a r st' a' y, P x → (i < N)%nat →
    b + Z.of_nat i * g ≤ a < b + (Z.of_nat i + 1) * g → f i x st a = (r, st', a', y) →
    P y ∧ (r = 0 → e ≤ a' ∨ b + (Z.of_nat i + 1) * g ≤ a' < b + (Z.of_nat i + 2) * g)) →
  Forall P xs → (i + length xs)%nat = N → b + Z.of_nat i * g ≤ a < b + (Z.of_nat i + 1) * g →
  titer f i xs st a = (r, st', a', ys) →
  (Forall P ys ∧ length ys = length xs) ∧
  (r = 0 → e ≤ a' ∨ b + Z.of_nat N * g ≤ a' < b + (Z.of_nat N + 1) * g).
Proof.
  intros Hf. revert i st a ys. induction xs as [|x xs IH]; intros i st a ys HP HN Ha; cbn [titer length] in *.
  { intros [= <- <- <- <-]. split; [done|]. intros _. right. by replace N with i by lia. }
  apply Forall_cons in HP as [Hx HP].
  destruct (Z.leb_spec e a) as [He|He].
  { intros [= <- <- <- <-]. split; [by split; [constructor|]|]. auto. }
  destruct (f i x st a) as [[[r1 st1] a1] y] eqn:E.
  destruct (Hf i x st a r1 st1 a1 y Hx ltac:(lia) Ha E) as [Hy Hr].
  destruct (Z.eqb_spec r1 0) as [->|]; last first.
  { intros [= <- <- <- <-]. split; [by split; [constructor|]|done]. }
  destruct (titer f (S i) xs st1 a1) as [[[r2 st2] a2] zs] eqn:E2. intros [= <- <- <- <-].
  destruct (Hr eq_refl) as [He1|Ha1].
  - assert (r2 = 0 ∧ st2 = st1 ∧ a2 = a1 ∧ zs = xs) as (-> & -> & -> & ->).
    { destruct xs as [|x' xs']; simpl in E2; [by simplify_eq|].
      rewrite (proj2 (Z.leb_le e a1)) // in E2. by simplify_eq. }
    split; [by split; [constructor|]|]. auto.
  - replace (Z.of_nat i + 2) with (Z.of_nat (S i) + 1) in Ha1 by lia.
    replace (Z.of_nat i + 1) with (Z.of_nat (S i)) in Ha1 by lia.
    destruct (IH (S i) st1 a1 zs HP ltac:(lia) Ha1 E2) as [[Hzs Hlen] Hr2].
    split; [split; [by constructor|simpl; lia]|done].
Qed.

(** The index the loop starts from. *)
Lemma index_bounds level a b :
  0 < kvm_granule_size level → (span level | b) → b ≤ a < b + span level →
  let i := (a / kvm_granule_size level) mod PTRS_PER_PTE in
  0 ≤ i < PTRS_PER_PTE ∧
  b + i * kvm_granule_size level ≤ a < b + (i + 1) * kvm_granule_size level.
Proof.
  intros Hg [q ->] Ha i. unfold i, span in *. clear i. set (g := kvm_granule_size level) in *.
  pose proof PTRS_PER_PTE_range as Hp.
  assert (a / g = q * PTRS_PER_PTE + (a - q * (PTRS_PER_PTE * g)) / g) as ->.
  { rewrite -Z.div_add_l; [|lia]. f_equal. lia. }
  set (d := (a - q * (PTRS_PER_PTE * g)) / g).
  assert (0 ≤ d < PTRS_PER_PTE) as Hd.
  { split; [apply Z.div_pos; lia|]. apply Z.div_lt_upper_bound; lia. }
  rewrite Z.add_comm Z.mod_add; [|lia]. rewrite Z.mod_small //. split; [done|].
  pose proof (Z.div_mod (a - q * (PTRS_PER_PTE * g)) g ltac:(lia)) as Hdm.
  pose proof (Z.mod_pos_bound (a - q * (PTRS_PER_PTE * g)) g ltac:(lia)). fold d in Hdm. nia.
Qed.

Lemma twalk_reaches n level :
  0 ≤ level → n = levels_left level → walk_reaches (twalk n) level.
Proof.
  revert level. induction n as [|n IH]; intros level Hl Hn tbl cs st a b r st' a' cs' [Hcl Hcs] Hb Ha Hab Hov;
    cbn [twalk]; [by intros [= <- <- <- <-]|].
  assert (0 ≤ level < KVM_PGTABLE_MAX_LEVELS) as Hlv by (unfold levels_left in Hn; lia).
  assert (0 < kvm_granule_size level) as Hg by by apply granule_pos.
  destruct (index_bounds level a b Hg Hb ltac:(lia)) as [Hi Hia].
  set (i := (a / kvm_granule_size level) mod PTRS_PER_PTE) in *.
  destruct (titer _ _ _ _ _) as [[[r1 st1] a1] todo] eqn:E. intros [= <- <- <- <-].
  eapply (titer_reaches _ (entry_wf level) (kvm_granule_size level) b (length cs)) in E.
  - destruct E as [[Hw Hlen] Hr]. split.
    + split; [rewrite length_app Hlen -length_app take_drop //|].
      apply Forall_app. split; [by apply Forall_take|done].
    + intros Hr0. unfold span. rewrite -Hcl. destruct (Hr Hr0) as [?|?]; [by left|right; lia].
  - intros j x st2 a2 r2 st3 a3 y Hx Hj Ha2 Ev.
    destruct Hb as [q ->]. unfold span in *.
    eapply (tvisit_reaches _ level _ _ _ _ (q * (PTRS_PER_PTE * kvm_granule_size level) + Z.of_nat j * kvm_granule_size level)) in Ev;
      [|done| |done|..].
    + destruct Ev as [Hy Hr]. split; [done|]. intros Hr0. destruct (Hr Hr0); [by left|right; lia].
    + apply IH; unfold levels_left in *; lia.
    + apply Z.divide_add_r; [|by apply Z.divide_factor_r].
      rewrite Z.mul_assoc. by apply Z.divide_factor_r.
    + nia.
    + lia.
    + nia.
  - by apply Forall_drop.
  - rewrite length_drop. lia.
  - rewrite Z2Nat.id; lia.
Qed.
End walk.

(** [n] first-level tables of a level map the addresses of [ia] bits. *)
Record geometry (ia level : Z) (n : nat) : Prop := {
  geo_ia : 0 ≤ ia < 64;
  geo_level : 0 ≤ level < KVM_PGTABLE_MAX_LEVELS;
  geo_cover : 2 ^ ia ≤ Z.of_nat n * span level;
  geo_addr : (Z.of_nat n + 1) * span level ≤ 2 ^ 64;
  geo_index : Z.of_nat n * PTRS_PER_PTE < 2 ^ 32;
}.

(** The number of the first-level table that maps [a]. *)
Definition page_index (ia level a : Z) : nat := Z.to_nat ((a mod 2 ^ ia) / span level).

Lemma page_index_bounds ia level N a : geometry ia level N →
  (page_index ia level a ≤ N)%nat ∧
  (0 ≤ a < 2 ^ ia → Z.of_nat (page_index ia level a) * span level ≤ a < (Z.of_nat (page_index ia level a) + 1) * span level).
Proof.
  intros Hgeo. destruct Hgeo as [Hia Hlevel Hcov Haddr Hidx]. pose proof PTRS_PER_PTE_range as Hp.
  assert (0 < span level) as Hs by (apply Z.mul_pos_pos; [lia|by apply granule_pos]).
  pose proof (Z.mod_pos_bound a (2 ^ ia) ltac:(lia)) as Hm. unfold page_index. split.
  - assert ((a mod 2 ^ ia) / span level < Z.of_nat N); [|lia]. apply Z.div_lt_upper_bound; lia.
  - intros Ha. rewrite Z.mod_small // Z2Nat.id; [|by apply Z.div_pos; lia].
    pose proof (Z.div_mod a (span level) ltac:(lia)). pose proof (Z.mod_pos_bound a (span level) Hs). lia.
Qed.

(** The call is refused with an error. *)
Definition out_of_range (ia a e : Z) : bool := (2 ^ ia <? a) || (2 ^ ia <? e).
End trees.

End PgWalk.
