(* ===== verification/PgWalkRefine.v ===== *)
(** * The page-table walk refines a walk on trees

    Separation-logic proofs of the functions of PgWalk.v against [twalk] and
    [tpages], for callbacks that may change the entries they are called on. *)
From S2P Require Import Prelude HeapLogic Arrays Pgtable PgWalk.
From stdpp Require Import gmap list.
From iris.proofmode Require Import proofmode environments.
#[local] Open Scope Z_scope.

Module PgWalkRefine.
Import Pgtable PgWalk.

Section refinement.
Context {KH : KvmHeaders} {KHS : KvmHeadersSpec} {WO : WalkOps}.

(** ** The code refines the walk on trees *)
Section refine.
Context {T : Type} (V : visitor T) (I : T → hPropI).
Context (pgt walker fl f x e data : Z).

(** A callback that does what the visitor says, with [I st] the memory of its
    own state. *)
Record visitor_ok : Prop := {
  ok_pre st a level ptep pte cs :
    0 ≤ level < KVM_PGTABLE_MAX_LEVELS →
    {{ I st ∗ entry_at level ptep (Table pte cs) }}
      call_visitor f a e level ptep KVM_PGTABLE_WALK_TABLE_PRE x
    {{ r, ∃ st' cs', (⌜v_pre V st (Visit a e level ptep pte) cs = (r, st', cs')⌝ ∗
       entry_at level ptep (Table pte cs')) ∗ I st' }};
  ok_leaf st a level ptep pte :
    0 ≤ level < KVM_PGTABLE_MAX_LEVELS →
    {{ I st ∗ entry_at level ptep (Leaf pte) }}
      call_visitor f a e level ptep KVM_PGTABLE_WALK_LEAF x
    {{ r, ∃ st' y, (⌜v_leaf V st (Visit a e level ptep pte) = (r, st', y)⌝ ∗
       entry_at level ptep y) ∗ I st' }};
  ok_post st a level ptep pte cs :
    0 ≤ level < KVM_PGTABLE_MAX_LEVELS →
    {{ I st ∗ entry_at level ptep (Table pte cs) }}
      call_visitor f a e level ptep KVM_PGTABLE_WALK_TABLE_POST x
    {{ r, ∃ st' y, (⌜v_post V st (Visit a e level ptep pte) cs = (r, st', y)⌝ ∗
       entry_at level ptep y) ∗ I st' }};
}.

(** The walk data at address [a], the walker and the visitor's state. *)
Definition walking (a : Z) (st : T) : hPropI :=
  (wd_pgt data ↦ pgt ∗ wd_addr data ↦ a ∗ wd_end data ↦ e ∗ wd_walker data ↦ walker ∗
   mm_ops pgt ↦ ops ∗ mm_ops_at ops ∗
   cb walker ↦ f ∗ arg walker ↦ x ∗ flags walker ↦ fl ∗ I st)%I.

Definition after {X} (o : Z * T * Z * X) (F : X → hPropI) (r : Z) : hPropI :=
  (∃ st' a' y, ⌜o = (r, st', a', y)⌝ ∗ walking a' st' ∗ F y)%I.

Lemma after_intro {X} (o : Z * T * Z * X) (F : X → hPropI) r st a y :
  o = (r, st, a, y) → walking a st ∗ F y ⊢ after o F r.
Proof. iIntros (->) "H". iExists st, a, y. by iFrame. Qed.

(** A call of the callback. *)
Lemma visitor_cb_spec {Y} (P : hPropI) (F : Y → Z → T → hPropI) st a addr level ptep flag :
  triple (I st ∗ P)%I (call_visitor f addr e level ptep flag x)
    (λ r, ∃ st' y, F y r st' ∗ I st')%I →
  {{ walking a st ∗ P }} kvm_pgtable_visitor_cb data addr level ptep flag
  {{ r, ∃ st' y, F y r st' ∗ walking a st' }}.
Proof.
  intros Hcb. triple_start.
  iIntros "[(Hp & Ha & He & Hw & Ho & Hops & Hc & Hx & Hf & HI) HP]".
  unfold kvm_pgtable_visitor_cb. wp_steps. wp_call Hcb with "[$HI $HP]".
  iIntros (r) "(%st' & %y & HF & HI)". iExists st', y. by iFrame.
Qed.

Context (Hok : visitor_ok).

Section visit.
Context (walk : Z → Z → Z → M heap Z) (rec : Z → Z → list entry → T → Z → Z * T * Z * list entry).
Context (level : Z) (Hlevel : 0 ≤ level < KVM_PGTABLE_MAX_LEVELS).
Context (Hwalk : ∀ tbl cs st a, level + 1 < KVM_PGTABLE_MAX_LEVELS →
  triple (walking a st ∗ table_at (level + 1) tbl cs)%I (walk data tbl (level + 1))
    (after (rec (level + 1) tbl cs st a) (table_at (level + 1) tbl))).

(** The end of [__kvm_pgtable_visit]: down into the table and back. *)
Lemma descend_spec ptep pte cs st a :
  {{ walking a st ∗ entry_at level ptep (Table pte cs) }}
    pgt ← load (wd_pgt data);
    ops ← load (mm_ops pgt);
    childp ← kvm_pte_follow pte ops;
    ret ← walk data childp (u32 (level + 1));
    if negb (ret =? 0) then mret ret else
    if negb (Z.land fl KVM_PGTABLE_WALK_TABLE_POST =? 0) then
      kvm_pgtable_visitor_cb data a level ptep KVM_PGTABLE_WALK_TABLE_POST
    else mret ret
  {{ r, after (tdescend V fl e rec level ptep pte cs st a) (entry_at level ptep) r }}.
Proof.
  triple_start. rewrite entry_at_table.
  iIntros "[(Hp & Ha & He & Hw & Ho & Hops & Hc & Hx & Hf & HI) (Hpte & %Ht & Hcs)]".
  wp_load. wp_load. wp_call (kvm_pte_follow_spec pte ops) with "Hops".
  iIntros (? ) "[-> Hops]". rewrite wrap_small; [|unfold KVM_PGTABLE_MAX_LEVELS in *; split; lia].
  assert (level + 1 < KVM_PGTABLE_MAX_LEVELS) as Hnext.
  { unfold is_table in Ht. unfold KVM_PGTABLE_MAX_LEVELS in *.
    destruct (Z.eqb_spec level 3); [done|]. lia. }
  wp_call (Hwalk (follow pte ops) cs st a Hnext)
    with "[$Hp $Ha $He $Hw $Ho $Hops $Hc $Hx $Hf $HI $Hcs]".
  iIntros (r) "(%st' & %a' & %cs' & %Ho & HW & Hcs)". unfold tdescend. rewrite Ho.
  iAssert (entry_at level ptep (Table pte cs')) with "[Hpte Hcs]" as "Hpte".
  { iApply entry_at_table. by iFrame. }
  destruct (Z.eqb_spec r 0) as [->|Hr]; simpl; last first.
  { wp_rets. iApply after_intro; [done|]. iFrame. }
  unfold asks. destruct (Z.land fl KVM_PGTABLE_WALK_TABLE_POST =? 0); simpl.
  { wp_rets. iApply after_intro; [done|]. iFrame. }
  wp_call (visitor_cb_spec _ _ st' a' a level ptep _ (ok_post Hok st' a level ptep pte cs' Hlevel))
    with "[$HW $Hpte]".
  iIntros (r) "(%st2 & %y & [%Hy H] & HW)". rewrite Hy. iApply after_intro; [done|]. iFrame.
Qed.

Lemma visit_spec ptep y st a :
  {{ walking a st ∗ entry_at level ptep y }} __kvm_pgtable_visit walk data ptep level
  {{ r, after (tvisit V fl e rec level ptep y st a) (entry_at level ptep) r }}.
Proof.
  triple_start. iIntros "[(Hp & Ha & He & Hw & Ho & Hops & Hc & Hx & Hf & HI) Hy]".
  unfold __kvm_pgtable_visit.
  iDestruct (entry_at_word with "Hy") as "(%Ht & Hpte & Hy)".
  wp_load. wp_load. rewrite kvm_pte_table_eq Ht. wp_rets. wp_load. wp_load.
  iSpecialize ("Hy" with "Hpte").
  iAssert (walking a st) with "[$Hp $Ha $He $Hw $Ho $Hops $Hc $Hx $Hf $HI]" as "HW".
  unfold tvisit, asks. destruct y as [pte|pte cs]; simpl.
  - destruct (Z.land fl KVM_PGTABLE_WALK_LEAF =? 0); simpl.
    + wp_rets. iDestruct "HW" as "(Hp & Ha & He & Hw & Ho & Hops & Hc & Hx & Hf & HI)".
      wp_load. wp_store. iApply after_intro; [done|]. iFrame.
    + wp_rets. wp_call (visitor_cb_spec _ _ st a a level ptep _ (ok_leaf Hok st a level ptep pte Hlevel))
        with "[$HW $Hy]".
      iIntros (r) "(%st2 & %z & [%Hz H] & HW)". rewrite Hz.
      iDestruct (entry_at_word with "H") as "(%Htz & Hpte & H)". wp_load. rewrite kvm_pte_table_eq Htz.
      wp_rets. iSpecialize ("H" with "Hpte").
      destruct (Z.eqb_spec r 0) as [->|Hr]; simpl; last first.
      { wp_rets. iApply after_intro; [done|]. iFrame. }
      destruct z as [pte'|pte' cs']; simpl.
      * iDestruct "HW" as "(Hp & Ha & He & Hw & Ho & Hops & Hc & Hx & Hf & HI)".
        wp_load. wp_store. iApply after_intro; [done|]. iFrame.
      * iApply (descend_spec with "[$HW $H]").
  - destruct (Z.land fl KVM_PGTABLE_WALK_TABLE_PRE =? 0); simpl.
    + wp_rets. iApply (descend_spec with "[$HW $Hy]").
    + wp_call (visitor_cb_spec _ _ st a a level ptep _ (ok_pre Hok st a level ptep pte cs Hlevel))
        with "[$HW $Hy]".
      iIntros (r) "(%st2 & %cs' & [%Hz H] & HW)". rewrite Hz. wp_rets.
      destruct (Z.eqb_spec r 0) as [->|Hr]; simpl; last first.
      { wp_rets. iApply after_intro; [done|]. iFrame. }
      iApply (descend_spec with "[$HW $H]").
Qed.
End visit.

(** Consecutive entries from number [i] of a table on. *)
Definition entries_from (level tbl : Z) (i : nat) (cs : list entry) : hPropI :=
  ([∗ list] j ↦ c ∈ cs, entry_at level (elem 8 tbl (Z.of_nat (i + j))) c)%I.

Lemma entries_from_cons level tbl i c cs :
  entries_from level tbl i (c :: cs) ⊣⊢
  entry_at level (elem 8 tbl (Z.of_nat i)) c ∗ entries_from level tbl (S i) cs.
Proof.
  unfold entries_from. rewrite big_sepL_cons Nat.add_0_r. apply bi.sep_proper; [done|].
  apply big_sepL_proper. intros j y _. by rewrite Nat.add_succ_r.
Qed.

Lemma table_at_split level tbl cs k :
  table_at level tbl cs ⊣⊢ ⌜Z.of_nat (length cs) = PTRS_PER_PTE⌝ ∗
    entries_from level tbl 0 (take k cs) ∗ entries_from level tbl (length (take k cs)) (drop k cs).
Proof.
  unfold table_at, entries_from. by rewrite -{2}(take_drop k cs) big_sepL_app.
Qed.

Section loop.
Context (visit : Z → Z → Z → M heap Z) (tv : nat → entry → T → Z → Z * T * Z * entry).
Context (level tbl : Z).
Context (Hvisit : ∀ i y st a,
  triple (walking a st ∗ entry_at level (elem 8 tbl (Z.of_nat i)) y)%I
    (visit data (elem 8 tbl (Z.of_nat i)) level)
    (after (tv i y st a) (entry_at level (elem 8 tbl (Z.of_nat i))))).

Lemma walk_loop_spec n i todo st a :
  (length todo < n)%nat → Z.of_nat (i + length todo) = PTRS_PER_PTE →
  {{ walking a st ∗ entries_from level tbl i todo }}
    walk_loop visit n data tbl level (Z.of_nat i) 0
  {{ r, after (titer e tv i todo st a)
          (λ todo', ⌜length todo' = length todo⌝ ∗ entries_from level tbl i todo') r }}.
Proof.
  revert n i st a. induction todo as [|y todo IH]; intros n i st a Hn Hi; triple_start;
    (destruct n as [|n]; [simpl in Hn; lia|]); iIntros "[HW H]"; cbn [walk_loop length] in *.
  { rewrite (proj2 (Z.ltb_ge _ _)); [|lia]. wp_rets. iApply after_intro; [done|]. by iFrame. }
  rewrite (proj2 (Z.ltb_lt _ _)); [|lia]. cbn [titer].
  iDestruct "HW" as "(Hp & Ha & He & Hw & Ho & Hops & Hc & Hx & Hf & HI)". wp_load. wp_load.
  iAssert (walking a st) with "[$Hp $Ha $He $Hw $Ho $Hops $Hc $Hx $Hf $HI]" as "HW".
  destruct (e <=? a). { wp_rets. iApply after_intro; [done|]. by iFrame. }
  rewrite entries_from_cons. iDestruct "H" as "[Hy H]".
  wp_call (Hvisit i y st a) with "[$HW $Hy]". iIntros (r) "(%st' & %a' & %y' & %Ho & HW & Hy)".
  rewrite Ho. destruct (Z.eqb_spec r 0) as [->|Hr]; simpl; last first.
  { wp_rets. iApply after_intro; [done|]. rewrite entries_from_cons. by iFrame. }
  pose proof PTRS_PER_PTE_range. rewrite wrap_small; [|split; lia].
  replace (Z.of_nat i + 1) with (Z.of_nat (S i)) by lia.
  iApply (wp_wand with "[HW H]"); [iApply (IH n (S i) st' a' with "[$HW $H]"); lia|].
  iIntros (r) "(%st2 & %a2 & %todo' & %Ho2 & HW & %Hl & H)". rewrite Ho2.
  iApply after_intro; [done|]. rewrite entries_from_cons. iFrame. iPureIntro. simpl. lia.
Qed.
End loop.

Lemma walk_levels_spec m n level tbl cs st a :
  0 ≤ level < 2 ^ 32 → n = levels_left level → (n < m)%nat →
  {{ walking a st ∗ table_at level tbl cs }} kvm_pgtable_walk_levels m data tbl level
  {{ r, after (twalk V fl e n level tbl cs st a) (table_at level tbl) r }}.
Proof.
  revert m level tbl cs st a. induction n as [|n IH]; intros [|m] level tbl cs st a Hlevel Hn Hm;
    try lia; triple_start; iIntros "[HW H]"; cbn [kvm_pgtable_walk_levels twalk]; wp_focus;
    (iApply wp_value; [intros h; apply WARN_ON_ONCE_spec|]); unfold levels_left in Hn.
  { rewrite (proj2 (Z.leb_le _ _)); [|lia]. wp_rets. iApply after_intro; [done|]. iFrame. }
  rewrite (proj2 (Z.leb_gt _ _)); [|lia].
  iDestruct "HW" as "(Hp & Ha & He & Hw & Ho & Hops & Hc & Hx & Hf & HI)".
  wp_call (kvm_pgtable_idx_spec data level a) with "Ha". iIntros (?) "[-> Ha]".
  iAssert (walking a st) with "[$Hp $Ha $He $Hw $Ho $Hops $Hc $Hx $Hf $HI]" as "HW".
  pose proof PTRS_PER_PTE_range as Hp.
  pose proof (Z.mod_pos_bound (a / kvm_granule_size level) PTRS_PER_PTE (proj1 Hp)) as Hi.
  rewrite -{1}(Z2Nat.id ((a / kvm_granule_size level) mod PTRS_PER_PTE)); [|lia].
  set (k := Z.to_nat ((a / kvm_granule_size level) mod PTRS_PER_PTE)).
  rewrite (table_at_split level tbl cs k). iDestruct "H" as "(%Hl & H1 & H2)".
  assert (length (take k cs) = k) as Hk by (rewrite length_take; unfold k; lia). rewrite Hk.
  iApply (wp_wand with "[HW H2]").
  { iApply (walk_loop_spec _ (λ i, tvisit V fl e (twalk V fl e n) level (elem 8 tbl (Z.of_nat i)))
      level tbl with "[$HW $H2]"); [|rewrite length_drop; unfold k; lia..].
    intros i y st1 a1. apply visit_spec; [lia|]. intros tbl1 cs1 st2 a2 Hnext.
    apply IH; unfold levels_left, KVM_PGTABLE_MAX_LEVELS in *; lia. }
  iIntros (r) "(%st' & %a' & %todo & %Ho & HW & %Hlt & H2)". rewrite Ho.
  iApply after_intro; [done|]. iFrame "HW".
  assert (take k (take k cs ++ todo) = take k cs) as Ht.
  { rewrite -{1}Hk. apply take_app_length. }
  assert (drop k (take k cs ++ todo) = todo) as Hd.
  { rewrite -{1}Hk. apply drop_app_length. }
  rewrite (table_at_split _ _ _ k) Ht Hd Hk. iFrame. iPureIntro. rewrite length_app Hlt length_drop Hk. unfold k. lia.
Qed.


(** First-level tables from number [k] on. *)
Definition pages_from (level p : Z) (k : nat) (pages : list (list entry)) : hPropI :=
  ([∗ list] j ↦ cs ∈ pages, table_at level (elem 8 p (Z.of_nat (k + j) * PTRS_PER_PTE)) cs)%I.

Lemma pages_from_cons level p k cs pages :
  pages_from level p k (cs :: pages) ⊣⊢
  table_at level (elem 8 p (Z.of_nat k * PTRS_PER_PTE)) cs ∗ pages_from level p (S k) pages.
Proof.
  unfold pages_from. rewrite big_sepL_cons Nat.add_0_r. apply bi.sep_proper; [done|].
  apply big_sepL_proper. intros j y _. by rewrite Nat.add_succ_r.
Qed.

Lemma pages_from_app level p k ps qs :
  pages_from level p k (ps ++ qs) ⊣⊢ pages_from level p k ps ∗ pages_from level p (k + length ps) qs.
Proof.
  unfold pages_from. rewrite big_sepL_app. apply bi.sep_proper; [done|].
  apply big_sepL_proper. intros j y _. by rewrite Nat.add_assoc.
Qed.

Lemma table_at_cells level tbl cs : table_at level tbl cs ⊢ at_least 1.
Proof.
  iIntros "[%Hl H]". pose proof PTRS_PER_PTE_range. destruct cs as [|c cs]; [simpl in Hl; lia|].
  rewrite big_sepL_cons. iDestruct "H" as "[H _]".
  iDestruct (entry_at_word with "H") as "(_ & H & _)". iApply (at_least_cell with "H").
Qed.

Section pgd.
Context (ia level p : Z) (N : nat) (Hgeo : geometry ia level N) (Hwf : visitor_wf V).

Abbreviation tpage := (λ j, twalk V fl e (levels_left level) level (elem 8 p (Z.of_nat j * PTRS_PER_PTE))).

Definition pgd_at : hPropI := (pgd pgt ↦ p ∗ start_level pgt ↦ level)%I.

Lemma pgd_loop_spec n k todo st a :
  (length todo < n)%nat → (k + length todo)%nat = N → e ≤ 2 ^ ia →
  e ≤ a ∨ Z.of_nat k * span level ≤ a < (Z.of_nat k + 1) * span level →
  {{ walking a st ∗ pgd_at ∗ pages_from level p k todo }} pgd_loop n data pgt (Z.of_nat k) 0
  {{ r, after (titer e tpage k todo st a) (λ todo', pgd_at ∗ ⌜length todo' = length todo⌝ ∗
       pages_from level p k todo') r }}.
Proof.
  revert n k st a. induction todo as [|cs todo IH]; intros n k st a Hn Hk He Ha; triple_start;
    (destruct n as [|n]; [simpl in Hn; lia|]); cbn [pgd_loop titer length] in *;
    iIntros "((Hp & Ha & He & Hw & Ho & Hops & Hc & Hx & Hf & HI) & [Hpgd Hlv] & H)"; wp_load; wp_load;
    iAssert (walking a st) with "[$Hp $Ha $He $Hw $Ho $Hops $Hc $Hx $Hf $HI]" as "HW";
    destruct Hgeo as [Hia Hlevel Hcov Haddr Hidx].
  { rewrite (proj2 (Z.ltb_ge a e)); [|replace N with k in Hcov by lia; lia].
    wp_rets. iApply after_intro; [done|]. by iFrame. }
  destruct (Z.ltb_spec a e) as [Hae|Hae]; [rewrite (proj2 (Z.leb_gt e a)) //|rewrite (proj2 (Z.leb_le e a)) //];
    last first.
  { wp_rets. iApply after_intro; [done|]. by iFrame. }
  destruct Ha as [?|Ha]; [lia|].
  wp_load. wp_load. rewrite pages_from_cons. iDestruct "H" as "[Hcs H]".
  pose proof PTRS_PER_PTE_range as Hp. rewrite (wrap_small 32); [|split; nia].
  iDestruct (table_at_wf with "Hcs") as %Hcs. wp_focus. iApply (wp_wand with "[HW Hcs]").
  { iApply (walk_levels_spec _ (levels_left level) with "[$HW $Hcs]"); [|done|];
      unfold levels_left, KVM_PGTABLE_MAX_LEVELS in *; lia. }
  iIntros (r) "(%st1 & %a1 & %cs1 & %Ho & HW & Hcs)". rewrite Ho.
  destruct (Z.eqb_spec r 0) as [->|Hr]; simpl; last first.
  { wp_rets. iApply after_intro; [done|]. rewrite pages_from_cons. by iFrame. }
  rewrite (wrap_small 32); [|split; nia]. replace (Z.of_nat k + 1) with (Z.of_nat (S k)) by lia.
  eapply (twalk_reaches V fl e Hwf _ level ltac:(lia) eq_refl _ _ _ _ (Z.of_nat k * span level)) in Ho
    as Hreach; [|done|by apply Z.divide_factor_r|nia..].
  iApply (wp_wand with "[HW Hpgd Hlv H]").
  { iApply (IH n (S k) st1 a1 with "[$HW $Hpgd $Hlv $H]"); [lia|lia|done|].
    assert (kvm_granule_size level ≤ span level) by (unfold span; pose proof (granule_pos level Hlevel); nia).
    destruct (proj2 Hreach eq_refl); [by left|right; lia]. }
  iIntros (r) "(%st2 & %a2 & %todo' & %Ho2 & HW & Hpgd & %Hl & H)". rewrite Ho2.
  iApply after_intro; [done|]. rewrite pages_from_cons. iFrame. iPureIntro. simpl. lia.
Qed.


Lemma walk_data_spec pages st a :
  length pages = N → 0 ≤ a →
  {{ walking a st ∗ ia_bits pgt ↦ ia ∗ pgd_at ∗ pages_from level p 0 pages }} _kvm_pgtable_walk data
  {{ r, if out_of_range ia a e then ⌜r = - ERANGE⌝ ∗
          walking a st ∗ ia_bits pgt ↦ ia ∗ pgd_at ∗ pages_from level p 0 pages
        else after (tpages V fl e level p (page_index ia level a) pages st a)
          (λ pages', ia_bits pgt ↦ ia ∗ pgd_at ∗ ⌜length pages' = N⌝ ∗ pages_from level p 0 pages') r }}.
Proof.
  intros HN Ha0. triple_start. destruct (page_index_bounds ia level N a Hgeo) as [Hk Hpage].
  pose proof Hgeo as [Hia Hlevel Hcov Haddr Hidx]. pose proof PTRS_PER_PTE_range as Hp.
  assert (0 < span level) as Hs by (apply Z.mul_pos_pos; [lia|by apply granule_pos]).
  iIntros "((Hp & Ha & He & Hw & Ho & Hops & Hc & Hx & Hf & HI) & Hia & [Hpgd Hlv] & H)".
  unfold _kvm_pgtable_walk. wp_load. wp_load. rewrite BIT_mask // /mask Z.shiftl_mul_pow2; [|lia].
  rewrite Z.mul_1_l. wp_rets. wp_load. wp_load. unfold out_of_range.
  destruct ((2 ^ ia <? a) || (2 ^ ia <? e)) eqn:Hr; [wp_rets; by iFrame|].
  apply orb_false_iff in Hr as [Hra Hre]. apply Z.ltb_ge in Hra, Hre. wp_load.
  iAssert ⌜p ≠ NULL⌝%I as %Hnull.
  { destruct pages as [|cs pages]; [simpl in HN; nia|]. rewrite pages_from_cons.
    iDestruct "H" as "[[%Hl H] _]". destruct cs as [|c cs]; [simpl in Hl; lia|].
    rewrite big_sepL_cons. iDestruct "H" as "[H _]". iDestruct (entry_at_word with "H") as "(_ & H & _)".
    iDestruct (pointsto_not_null with "H") as %Hn. iPureIntro. by rewrite /elem !Z.mul_0_l !Z.mul_0_r !Z.add_0_r in Hn. }
  rewrite (proj2 (Z.eqb_neq p NULL)) //.
  wp_call (kvm_pgd_page_idx_spec data pgt a ia level) with "[$Hp $Ha $Hia $Hlv]".
  iIntros (?) "(-> & Hp & Ha & Hia & Hlv)". fold (span level).
  iAssert (walking a st) with "[$Hp $Ha $He $Hw $Ho $Hops $Hc $Hx $Hf $HI]" as "HW".
  rewrite -(Z2Nat.id ((a mod 2 ^ ia) / span level)); [|apply Z.div_pos; [|done];
    apply Z.mod_pos_bound; lia]. fold (page_index ia level a).
  rewrite -{1}(take_drop (page_index ia level a) pages) pages_from_app length_take_le; [|lia].
  iDestruct "H" as "[H1 H2]". rewrite Nat.add_0_l. wp_focus.
  set (k := page_index ia level a) in *.
  iApply (wp_wand with "[HW Hpgd Hlv H2]").
  { iAssert (walking a st ∗ pgd_at ∗ pages_from level p k (drop k pages))%I with "[$HW $Hpgd $Hlv $H2]" as "H".
    iStopProof. apply (wp_with_fuel (length (drop k pages))).
    - iIntros "(_ & _ & H)". iApply (big_sepL_at_least with "H"). iIntros (j cs) "H".
      iApply (table_at_cells with "H").
    - intros n Hn. apply pgd_loop_spec; [done|rewrite length_drop; lia|lia|].
      destruct (decide (a < e)); [right; apply Hpage; lia|left; lia]. }
  iIntros (r) "(%st' & %a' & %todo & %Ho & HW & Hpgd & %Hl & H2)". unfold tpages. rewrite Ho.
  iApply after_intro; [done|]. iFrame "HW Hia Hpgd". rewrite pages_from_app length_take_le; [|lia].
  rewrite Nat.add_0_l. iFrame. iPureIntro. rewrite length_app Hl length_take_le ?length_drop; lia.
Qed.
End pgd.

End refine.

(** ** Specifications of the walk *)

(** A page table with its first-level tables. *)
Definition pgtable_at (pgt ia level p : Z) (pages : list (list entry)) : hPropI :=
  (ia_bits pgt ↦ ia ∗ pgd_at pgt level p ∗ mm_ops pgt ↦ ops ∗ mm_ops_at ops ∗
   pages_from level p 0 pages)%I.

Definition walker_at (w f x fl : Z) : hPropI := (cb w ↦ f ∗ arg w ↦ x ∗ flags w ↦ fl)%I.

(** The range of a call: whole pages. *)
Definition range_start (addr : Z) : Z := addr - addr mod PAGE_SIZE.
Definition range_end (addr size : Z) : Z :=
  range_start addr + size + (- (range_start addr + size)) mod PAGE_SIZE.

Record range_ok (addr size : Z) : Prop := {
  ok_addr : in_unsigned 64 addr;
  ok_size : 0 ≤ size;
  ok_end : range_start addr + size ≤ 2 ^ 64 - PAGE_SIZE;
}.

Lemma walk_init addr size : range_ok addr size →
  0 ≤ range_start addr ∧ ALIGN_DOWN addr PAGE_SIZE = range_start addr ∧
  PAGE_ALIGN (u64 (range_start addr + size)) = range_end addr size.
Proof.
  intros [Ha Hs He]. pose proof PAGE_SIZE_range as Hp.
  assert (0 ≤ range_start addr).
  { unfold range_start. pose proof (Z.mod_le addr PAGE_SIZE (proj1 Ha) (proj1 Hp)). lia. }
  split; [done|]. rewrite ALIGN_DOWN_spec // wrap_small; [|split; lia]. rewrite PAGE_ALIGN_spec //. lia.
Qed.

Section calls.
Context `{!Allocator, !AllocatorTotal}.

Lemma kvm_pgtable_walk_spec {T} (V : visitor T) (I : T → hPropI) pgt w f x fl ia level p pages st addr size :
  range_ok addr size → geometry ia level (length pages) →
  visitor_wf V → visitor_ok V I f x (range_end addr size) →
  {{ pgtable_at pgt ia level p pages ∗ walker_at w f x fl ∗ I st }} kvm_pgtable_walk pgt addr size w
  {{ r, walker_at w f x fl ∗
     if out_of_range ia (range_start addr) (range_end addr size)
     then ⌜r = - ERANGE⌝ ∗ pgtable_at pgt ia level p pages ∗ I st
     else ∃ st' a' pages',
       ⌜tpages V fl (range_end addr size) level p (page_index ia level (range_start addr)) pages st
          (range_start addr) = (r, st', a', pages')⌝ ∗
       pgtable_at pgt ia level p pages' ∗ I st' }}.
Proof.
  intros Hr Hgeo Hwf Hok. destruct (walk_init addr size Hr) as (H0' & Hd & He). triple_start.
  iIntros "((Hia & Hpgd & Ho & Hops & Hps) & (Hc & Hx & Hf) & HI)". unfold kvm_pgtable_walk.
  iApply wp_with_local; [apply walk_data_layout_wf|]. iIntros (data) "Hd".
  iDestruct (walk_data_members with "Hd") as "([% H1] & [% H2] & [% H3] & [% H4])".
  wp_store. wp_store. wp_load. wp_store. wp_store. rewrite Hd He.
  iApply (wp_wand with "[H1 H2 H3 H4 Hia Hpgd Ho Hops Hps Hc Hx Hf HI]").
  { iApply (walk_data_spec V I pgt w fl f x _ data Hok ia level p (length pages) Hgeo Hwf pages st
      with "[$H1 $H2 $H3 $H4 $Hia $Hpgd $Ho $Hops $Hps $Hc $Hx $Hf $HI]"); done. }
  iIntros (r) "H". destruct (out_of_range _ _ _).
  - iDestruct "H" as "($ & (Hp & Ha & He & Hw & Ho & Hops & Hc & Hx & Hf & HI) & Hia & Hpgd & Hps)".
    iSplitL "Hp Ha He Hw"; [iApply walk_data_members|]; iFrame.
  - iDestruct "H" as "(%st' & %a' & %pages' & %E & (Hp & Ha & He & Hw & Ho & Hops & Hc & Hx & Hf & HI) &
      Hia & Hpgd & _ & Hps)".
    iSplitL "Hp Ha He Hw"; [iApply walk_data_members; iFrame|]. iFrame "Hc Hx Hf". iExists st', a', pages'.
    by iFrame.
Qed.

(** Without first-level tables every walk is refused. *)
Lemma kvm_pgtable_walk_null pgt w ia addr size :
  range_ok addr size → 0 ≤ ia < 64 →
  {{ ia_bits pgt ↦ ia ∗ pgd pgt ↦ NULL }} kvm_pgtable_walk pgt addr size w
  {{ r, ⌜r = if out_of_range ia (range_start addr) (range_end addr size) then - ERANGE else - EINVAL⌝ ∗
     ia_bits pgt ↦ ia ∗ pgd pgt ↦ NULL }}.
Proof.
  intros Hr Hia. destruct (walk_init addr size Hr) as (H0' & Hd & He). triple_start.
  iIntros "[Hia Hpgd]". unfold kvm_pgtable_walk.
  iApply wp_with_local; [apply walk_data_layout_wf|]. iIntros (data) "Hd".
  iDestruct (walk_data_members with "Hd") as "([% H1] & [% H2] & [% H3] & [% H4])".
  wp_store. wp_store. wp_load. wp_store. wp_store. rewrite Hd He. unfold _kvm_pgtable_walk.
  wp_load. wp_load. rewrite BIT_mask // /mask Z.shiftl_mul_pow2; [|lia]. rewrite Z.mul_1_l.
  wp_rets. wp_load. wp_load. fold (out_of_range ia (range_start addr) (range_end addr size)).
  destruct (out_of_range _ _ _); [|wp_load]; wp_rets; iFrame "Hia Hpgd"; iSplit; try done;
    iApply walk_data_members; iFrame.
Qed.

(** C5. For a callback that may change the entries it is called on,
    [kvm_pgtable_walk] does to the tables in memory what the walk on trees does
    to the tree they hold and returns its answer: it calls back on the entries
    from the first page of the range on, enters tables, also those a callback
    has just installed, stops at the first answer that is not zero, and ends. A
    range beyond the input addresses is refused with [-ERANGE] and a page table
    without first-level tables with [-EINVAL], neither with any call. The range
    must not wrap around ([range_ok]), and the first-level tables must cover
    the input addresses ([geometry]). There is assumed to be storage for the
    local variables ([AllocatorTotal]). *)
Theorem kvm_pgtable_walk_refines_tree_walk {T} (V : visitor T) (I : T → hPropI)
    pgt w f x fl ia level p pages st addr size :
  range_ok addr size → geometry ia level (length pages) →
  visitor_wf V → visitor_ok V I f x (range_end addr size) →
  ({{ pgtable_at pgt ia level p pages ∗ walker_at w f x fl ∗ I st }} kvm_pgtable_walk pgt addr size w
   {{ r, walker_at w f x fl ∗
      if out_of_range ia (range_start addr) (range_end addr size)
      then ⌜r = - ERANGE⌝ ∗ pgtable_at pgt ia level p pages ∗ I st
      else ∃ st' a' pages',
        ⌜tpages V fl (range_end addr size) level p (page_index ia level (range_start addr)) pages st
           (range_start addr) = (r, st', a', pages')⌝ ∗
        pgtable_at pgt ia level p pages' ∗ I st' }}) ∧
  ({{ ia_bits pgt ↦ ia ∗ pgd pgt ↦ NULL }} kvm_pgtable_walk pgt addr size w
   {{ r, ⌜r = if out_of_range ia (range_start addr) (range_end addr size) then - ERANGE else - EINVAL⌝ ∗
      ia_bits pgt ↦ ia ∗ pgd pgt ↦ NULL }}).
Proof.
  intros Hr Hgeo Hwf Hok. split; [by apply kvm_pgtable_walk_spec|].
  apply kvm_pgtable_walk_null; [done|apply Hgeo].
Qed.
End calls.
End refinement.

(** ** A machine with tables of two entries *)

(** Pages of 4096 bytes; tables are mapped at their physical addresses.  The
    callback number 0 counts its calls, every other one invalidates leaves. *)
#[local] Instance small_headers : KvmHeaders := {|
  PTRS_PER_PTE := 2;
  PAGE_SIZE := 4096;
  ERANGE := 34;
  ALIGN_DOWN x a := x - x mod a;
  PAGE_ALIGN x := x + (- x) mod 4096;
  WARN_ON_ONCE b := mret b;
  kvm_granule_size level := 4096 * 2 ^ (3 - level);
  walk_data_layout := Layout 32 [0; 8; 16; 24];
  wd_pgt p := p + 0;
  wd_addr p := p + 8;
  wd_end p := p + 16;
  wd_walker p := p + 24;
  kvm_pgtable_idx data level :=
    a ← load (data + 8); mret ((a / (4096 * 2 ^ (3 - level))) mod 2);
  kvm_pgd_page_idx data :=
    pgt ← load (data + 0); a ← load (data + 8);
    ia ← load (ia_bits pgt); level ← load (start_level pgt);
    mret ((a mod 2 ^ ia) / (2 * (4096 * 2 ^ (3 - level))));
  kvm_pte_follow pte ops := mret (Z.land pte (mask 12 36));
  call_visitor f a e level ptep flag x :=
    if f =? 0 then n ← load x; store x (n + 1) ;; mret 0
    else if flag =? KVM_PGTABLE_WALK_LEAF then kvm_set_invalid_pte ptep ;; mret 0
    else mret 0;
|}.

#[program, local] Instance small_headers_spec : KvmHeadersSpec := {|
  mm_ops_at _ := True%I;
  follow pte ops := Z.land pte (mask 12 36);
|}.
Solve All Obligations with try done.
Next Obligation. intros level Hl. unfold KVM_PGTABLE_MAX_LEVELS in Hl. simpl.
  assert (level = 0 ∨ level = 1 ∨ level = 2) as [->|[->| ->]] by lia; done. Qed.
Next Obligation. split; simpl; [repeat constructor; set_solver|repeat constructor; lia]. Qed.
Next Obligation.
  intros p. rewrite /HeapLogic.block /=. by rewrite bi.sep_emp.
Qed.
Next Obligation.
  intros data level a. triple_start. iIntros "H". simpl. wp_load. by iFrame.
Qed.
Next Obligation.
  intros data pgt a ia level. triple_start. iIntros "(H1 & H2 & H3 & H4)". simpl. wp_steps. by iFrame.
Qed.
Next Obligation. intros pte ops. triple_start. iIntros "H". simpl. wp_ret. by iFrame. Qed.
#[local] Instance small_ops : WalkOps := 0.

Lemma small_geometry ia level n :
  0 ≤ level < 4 → 0 ≤ ia < 40 → 2 ^ ia ≤ Z.of_nat n * (2 * (4096 * 2 ^ (3 - level))) → Z.of_nat n < 2 ^ 20 →
  geometry ia level n.
Proof.
  intros Hl Hia Hc Hn. assert (2 ^ (3 - level) ≤ 2 ^ 3) by (apply Z.pow_le_mono_r; lia).
  assert (0 < 2 ^ (3 - level)) by (apply Z.pow_pos_nonneg; lia).
  unfold KVM_PGTABLE_MAX_LEVELS.
  split; unfold span; simpl PTRS_PER_PTE; simpl kvm_granule_size; unfold KVM_PGTABLE_MAX_LEVELS; nia.
Qed.

(** A visitor that invalidates every leaf. *)
Definition unmap : visitor unit := {|
  v_pre st v cs := (0, st, cs);
  v_leaf st v := (0, st, Leaf (Z.land (vi_pte v) (cnot 64 (mask 0 1))));
  v_post st v cs := (0, st, Table (vi_pte v) cs);
|}.

Lemma invalid_leaf w level : is_table (pte_of (Z.land w (cnot 64 (mask 0 1)))) level = false.
Proof. rewrite invalid_word_fields. unfold is_table. simpl. by rewrite andb_false_r. Qed.

Lemma unmap_wf : visitor_wf unmap.
Proof.
  split; simpl.
  - by intros st v cs r st' cs' Hcs [= <- <- <-].
  - intros st v r st' y _ [= <- <- <-]. apply invalid_leaf.
  - by intros st v cs r st' y Hy [= <- <- <-].
Qed.

Lemma unmap_ok x e : visitor_ok unmap (λ _, emp%I) 1 x e.
Proof.
  split; intros st a level ptep pte; intros; triple_start; iIntros "[_ H]"; simpl; wp_rets.
  - iExists st, cs. by iFrame.
  - iDestruct "H" as "[H _]". wp_call (kvm_set_invalid_pte_spec ptep pte) with "H". iIntros (_) "H".
    wp_rets. iExists st, (Leaf (Z.land pte (cnot 64 (mask 0 1)))). iSplitL "H"; [|done].
    iSplit; [done|]. iFrame. iPureIntro. apply invalid_leaf.
  - iExists st, (Table pte cs). by iFrame.
Qed.

Lemma kvm_pgtable_walk_refines_tree_walk_witness : let _ := bump_allocator in
  {{ pgtable_at 64 13 3 4096 [[Leaf 1; Leaf 1]] ∗ walker_at 128 1 0 1 ∗ emp }}
    kvm_pgtable_walk 64 5000 1 128
  {{ r, walker_at 128 1 0 1 ∗ ∃ st' a' pages',
     ⌜(0, tt, 8192, [[Leaf 1; Leaf 0]]) = (r, st', a', pages')⌝ ∗ pgtable_at 64 13 3 4096 pages' ∗ emp }}.
Proof.
  intros A. pose proof bump_allocator_total.
  refine (proj1 (kvm_pgtable_walk_refines_tree_walk unmap (λ _, emp%I) 64 128 1 0 1 13 3 4096
    [[Leaf 1; Leaf 1]] tt 5000 1 _ _ unmap_wf (unmap_ok _ _))).
  - split; [split|..]; vm_compute; congruence.
  - by apply small_geometry; [lia|lia|vm_compute; congruence|vm_compute].
Defined.

End PgWalkRefine.
