(* ===== verification/PgWalkReports.v ===== *)
(** * What a page-table walk reports

    For callbacks that leave the page table alone: a walk reports exactly the
    entries that map an address of its range, in order, provided that the range
    starts at the start of a leaf.  The theorems on [kvm_pgtable_walk]. *)
From S2P Require Import Prelude HeapLogic Arrays Pgtable PgWalk PgWalkRefine.
From stdpp Require Import gmap list.
From iris.proofmode Require Import proofmode environments.
#[local] Open Scope Z_scope.

Module PgWalkReports.
Import Pgtable PgWalk PgWalkRefine.

Section reports.
Context {KH : KvmHeaders} {KHS : KvmHeadersSpec} {WO : WalkOps}.

(** ** What a walk visits

    Every entry of a tree is an event for its walk, a table two of them: here
    all of them, in the order of a depth-first traversal, with the addresses
    the entry maps. *)
Record event := Event {
  ev_flag : Z; ev_base : Z; ev_size : Z; ev_level : Z; ev_ptep : Z; ev_pte : Z;
}.

Fixpoint entry_events (level b ptep : Z) (x : entry) : list event :=
  match x with
  | Leaf pte => [Event KVM_PGTABLE_WALK_LEAF b (kvm_granule_size level) level ptep pte]
  | Table pte cs =>
      Event KVM_PGTABLE_WALK_TABLE_PRE b (kvm_granule_size level) level ptep pte ::
      (fix all b tbl cs :=
         match cs with
         | [] => []
         | c :: cs => entry_events (level + 1) b tbl c ++
                      all (b + kvm_granule_size (level + 1)) (tbl + 8) cs
         end) b (follow pte ops) cs ++
      [Event KVM_PGTABLE_WALK_TABLE_POST b (kvm_granule_size level) level ptep pte]
  end.

Fixpoint table_events (level b tbl : Z) (cs : list entry) : list event :=
  match cs with
  | [] => []
  | c :: cs => entry_events level b tbl c ++ table_events level (b + kvm_granule_size level) (tbl + 8) cs
  end.

Fixpoint pages_events (level b p : Z) (pages : list (list entry)) : list event :=
  match pages with
  | [] => []
  | cs :: pages => table_events level b p cs ++
                   pages_events level (b + span level) (p + 8 * PTRS_PER_PTE) pages
  end.

Lemma entry_events_table level b ptep pte cs :
  entry_events level b ptep (Table pte cs) =
  Event KVM_PGTABLE_WALK_TABLE_PRE b (kvm_granule_size level) level ptep pte ::
  table_events (level + 1) b (follow pte ops) cs ++
  [Event KVM_PGTABLE_WALK_TABLE_POST b (kvm_granule_size level) level ptep pte].
Proof.
  cbn [entry_events]. apply (f_equal (cons _)), (f_equal (λ l, l ++ _)).
  generalize (follow pte ops). generalize b.
  induction cs as [|c cs IH]; intros b' tbl; [done|]. by rewrite IH.
Qed.

(** The events a walk over [a, e) with the flags [fl] reports: those it asks
    for whose entries map an address of the range, in order; the address
    reported is the first one of the entry that lies in the range. *)
Definition reported (fl a e : Z) (evs : list event) : list (Z * visit) :=
  (λ ev, (ev_flag ev, Visit (Z.max a (ev_base ev)) e (ev_level ev) (ev_ptep ev) (ev_pte ev))) <$>
  filter (λ ev, asks fl (ev_flag ev) = true ∧ ev_base ev < e ∧ a < ev_base ev + ev_size ev) evs.

(** A callback [g] that leaves the page table alone, called on a list of
    events: it stops the walk with its first answer that is not zero. *)
Section read_only.
Context {T : Type} (g : T → Z * visit → Z * T).

Fixpoint run_until (st : T) (evs : list (Z * visit)) : Z * T :=
  match evs with
  | [] => (0, st)
  | ev :: evs => let '(r, st) := g st ev in if r =? 0 then run_until st evs else (r, st)
  end.

Definition read_only : visitor T := {|
  v_pre st v cs := let '(r, st) := g st (KVM_PGTABLE_WALK_TABLE_PRE, v) in (r, st, cs);
  v_leaf st v := let '(r, st) := g st (KVM_PGTABLE_WALK_LEAF, v) in (r, st, Leaf (vi_pte v));
  v_post st v cs :=
    let '(r, st) := g st (KVM_PGTABLE_WALK_TABLE_POST, v) in (r, st, Table (vi_pte v) cs);
|}.

Lemma run_until_app st l1 l2 :
  run_until st (l1 ++ l2) =
  let '(r, st) := run_until st l1 in if r =? 0 then run_until st l2 else (r, st).
Proof.
  revert st. induction l1 as [|ev l1 IH]; intros st; simpl; [done|].
  destruct (g st ev) as [r st1]. destruct (r =? 0) eqn:E; [apply IH|by rewrite E].
Qed.

Lemma reported_app fl a e l1 l2 : reported fl a e (l1 ++ l2) = reported fl a e l1 ++ reported fl a e l2.
Proof. unfold reported. by rewrite filter_app fmap_app. Qed.

Lemma reported_nil fl a e evs :
  Forall (λ ev, e ≤ ev_base ev ∨ ev_base ev + ev_size ev ≤ a) evs → reported fl a e evs = [].
Proof.
  unfold reported. intros Hev. rewrite (_ : filter _ evs = []) //.
  induction Hev as [|ev evs H' _ IH]; [done|]. rewrite filter_cons_False //. lia.
Qed.

(** Where the range starts does not matter to entries behind both starts. *)
Lemma reported_start fl a a' e evs :
  Forall (λ ev, 0 < ev_size ev ∧ a ≤ ev_base ev ∧ a' ≤ ev_base ev) evs →
  reported fl a e evs = reported fl a' e evs.
Proof.
  unfold reported. induction 1 as [|ev evs H' _ IH]; [done|]. rewrite !filter_cons.
  destruct (decide (asks fl (ev_flag ev) = true ∧ ev_base ev < e ∧ a < ev_base ev + ev_size ev)),
    (decide (asks fl (ev_flag ev) = true ∧ ev_base ev < e ∧ a' < ev_base ev + ev_size ev));
    [|exfalso; naive_solver lia..|done]. rewrite !fmap_cons IH. by rewrite (Z.max_r a) ?(Z.max_r a'); [|lia..].
Qed.

(** The entry of a leaf that contains [a] starts there. *)
Definition starts_leaf (a : Z) (evs : list event) : Prop :=
  Forall (λ ev, ev_flag ev = KVM_PGTABLE_WALK_LEAF →
    ev_base ev ≤ a < ev_base ev + ev_size ev → ev_base ev = a) evs.

Definition within (lo hi : Z) (evs : list event) : Prop :=
  Forall (λ ev, 0 < ev_size ev ∧ lo ≤ ev_base ev ∧ ev_base ev + ev_size ev ≤ hi) evs.

Lemma within_mono lo hi lo' hi' evs : within lo hi evs → lo' ≤ lo → hi ≤ hi' → within lo' hi' evs.
Proof. intros Hev ??. eapply Forall_impl; [exact Hev|]. simpl. lia. Qed.

(** The answer and the state after a walk that reports the events [evs]. *)
Definition reports {X} (fl a e : Z) (evs : list event) (hi : Z) (st : T) (o : Z * T * Z * X) (x : X) : Prop :=
  ∃ a', o = (run_until st (reported fl a e evs), a', x) ∧
  ((run_until st (reported fl a e evs)).1 = 0 → a' ≤ hi ∧ (a' = hi ∨ e ≤ a')).

Section loop_reports.
Context {X : Type} (fl e b s : Z) (N : nat) (P : X → Prop) (f : nat → X → T → Z → Z * T * Z * X).
Context (evs : nat → X → list event).

Fixpoint events_from (i : nat) (xs : list X) : list event :=
  match xs with [] => [] | x :: xs => evs i x ++ events_from (S i) xs end.

Context (Hs : 0 < s).
Context (Hevs : ∀ i x, P x → within (b + Z.of_nat i * s) (b + (Z.of_nat i + 1) * s) (evs i x)).
Context (Hf : ∀ i x st a, P x → (i < N)%nat →
  b + Z.of_nat i * s ≤ a < b + (Z.of_nat i + 1) * s → a < e → starts_leaf a (evs i x) →
  reports fl a e (evs i x) (b + (Z.of_nat i + 1) * s) st (f i x st a) x).

Lemma events_from_within i xs : Forall P xs →
  within (b + Z.of_nat i * s) (b + Z.of_nat (i + length xs) * s) (events_from i xs).
Proof.
  intros HP. revert i. induction HP as [|x xs Hx _ IH]; intros i; [constructor|]. simpl.
  apply Forall_app. split.
  - eapply within_mono; [by apply Hevs|lia|nia].
  - eapply within_mono; [apply IH|lia|]. by rewrite Nat.add_succ_r.
Qed.

Lemma titer_reports i xs st a :
  Forall P xs → (i + length xs)%nat = N →
  let c := b + Z.of_nat i * s in
  (a = c ∨ e ≤ a ≤ c ∨ (xs ≠ [] ∧ c ≤ a < c + s ∧ a < e ∧ starts_leaf a (events_from i xs))) →
  reports fl a e (events_from i xs) (b + Z.of_nat N * s) st (titer e f i xs st a) xs.
Proof.
  intros HP HN c. revert i st a HN c. induction HP as [|x xs Hx HP IH]; intros i st a HN c Ha; simpl in *.
  { exists a. split; [done|]. intros _. replace N with i by lia. fold c. naive_solver lia. }
  destruct (Z.leb_spec e a) as [Hea|Hea].
  { unfold reports. assert (reported fl a e (evs i x ++ events_from (S i) xs) = []) as ->.
    { apply reported_nil. assert (e ≤ c) by naive_solver lia.
      eapply Forall_impl; [apply (events_from_within i (x :: xs)); by constructor|]. simpl. lia. }
    exists a. split; [done|]. intros _. split; [|by right]. unfold c in *. nia. }
  assert (starts_leaf a (evs i x)) as Hst.
  { destruct Ha as [->|[?|(_ & _ & _ & Ha)]]; [|lia|by apply Forall_app in Ha as [Ha _]].
    eapply Forall_impl; [by apply (Hevs i x)|]. simpl. intros ev. unfold c. lia. }
  destruct (Hf i x st a Hx ltac:(lia) ltac:(unfold c in *; naive_solver lia) Hea Hst) as (a1 & E & H1).
  rewrite E. unfold reports. rewrite reported_app run_until_app.
  destruct (run_until st (reported fl a e (evs i x))) as [r st1]. simpl in *.
  destruct (Z.eqb_spec r 0) as [->|Hr]; [|by exists a1].
  specialize (H1 eq_refl).
  assert (reported fl a e (events_from (S i) xs) = reported fl a1 e (events_from (S i) xs)) as ->.
  { apply reported_start. eapply Forall_impl; [by apply (events_from_within (S i) xs)|]. simpl.
    unfold c in *. naive_solver lia. }
  destruct (IH (S i) st1 a1 ltac:(lia)) as (a2 & E2 & H2).
  { replace (Z.of_nat (S i)) with (Z.of_nat i + 1) by lia. lia. }
  rewrite E2. destruct (run_until st1 _) as [r2 st2]. exists a2. done.
Qed.

Lemma events_from_app i xs ys :
  events_from i (xs ++ ys) = events_from i xs ++ events_from (i + length xs) ys.
Proof.
  revert i. induction xs as [|x xs IH]; intros i; simpl; [by rewrite Nat.add_0_r|].
  by rewrite IH -assoc_L Nat.add_succ_r.
Qed.

(** A loop that starts in the middle. *)
Lemma titer_from_reports k xs st a :
  Forall P xs → length xs = N → (k < N)%nat →
  b + Z.of_nat k * s ≤ a < b + (Z.of_nat k + 1) * s → a < e → starts_leaf a (events_from 0 xs) →
  reports fl a e (events_from 0 xs) (b + Z.of_nat N * s) st
    (let '(r, st, a, todo) := titer e f k (drop k xs) st a in (r, st, a, take k xs ++ todo)) xs.
Proof.
  intros HP HN Hk Ha Hae. rewrite -{1 2}(take_drop k xs) events_from_app length_take_le; [|lia].
  intros Hst. apply Forall_app in Hst as [_ Hst]. unfold reports. rewrite reported_app reported_nil.
  - destruct (titer_reports k (drop k xs) st a) as (a' & -> & Ha');
      [by apply Forall_drop|rewrite length_drop; lia| |].
    + right; right. split_and!; [|lia|lia|done|done]. intros E.
      apply (f_equal length) in E. rewrite length_drop in E. simpl in E. lia.
    + simpl. destruct (run_until st _) as [r st'] eqn:E. exists a'. by rewrite take_drop.
  - eapply Forall_impl; [apply (events_from_within 0 (take k xs)); by apply Forall_take|]. simpl.
    rewrite length_take_le; [|lia]. lia.
Qed.
End loop_reports.

Lemma table_events_from level b tbl i cs :
  table_events level (b + Z.of_nat i * kvm_granule_size level) (elem 8 tbl (Z.of_nat i)) cs =
  events_from (λ i x, entry_events level (b + Z.of_nat i * kvm_granule_size level)
    (elem 8 tbl (Z.of_nat i)) x) i cs.
Proof.
  revert i. induction cs as [|c cs IH]; intros i; [done|]. simpl. rewrite -IH. do 2 f_equal; unfold elem; lia.
Qed.

Lemma pages_events_from level b p i pages :
  pages_events level (b + Z.of_nat i * span level) (elem 8 p (Z.of_nat i * PTRS_PER_PTE)) pages =
  events_from (λ i cs, table_events level (b + Z.of_nat i * span level)
    (elem 8 p (Z.of_nat i * PTRS_PER_PTE)) cs) i pages.
Proof.
  revert i. induction pages as [|cs pages IH]; intros i; [done|]. simpl. rewrite -IH.
  do 2 f_equal; unfold elem; lia.
Qed.

Lemma table_events_within level b tbl cs :
  0 < kvm_granule_size level →
  Forall (λ c, ∀ b ptep, within b (b + kvm_granule_size level) (entry_events level b ptep c)) cs →
  within b (b + Z.of_nat (length cs) * kvm_granule_size level) (table_events level b tbl cs).
Proof.
  intros Hg Hcs. revert b tbl. induction Hcs as [|c cs Hc _ IH]; intros b tbl; [constructor|].
  simpl. apply Forall_app. split.
  - eapply within_mono; [apply Hc|lia|nia].
  - eapply within_mono; [apply IH|lia|lia].
Qed.

Lemma entry_events_within level b ptep x :
  0 ≤ level < KVM_PGTABLE_MAX_LEVELS → entry_wf level x →
  within b (b + kvm_granule_size level) (entry_events level b ptep x).
Proof.
  revert level b ptep. induction x as [pte|pte cs IH] using entry_ind_nested; intros level b ptep Hl Hx;
    pose proof (granule_pos level Hl) as Hg.
  { constructor; [|constructor]. simpl. lia. }
  pose proof (table_level _ _ _ Hx Hl) as Hl'. apply entry_wf_table in Hx as [_ [Hlen Hcs]].
  rewrite entry_events_table. constructor; [simpl; lia|]. apply Forall_app.
  split; [|constructor; [simpl; lia|constructor]].
  rewrite -(span_granule level); [|lia..]. unfold span. rewrite -Hlen.
  apply table_events_within; [apply granule_pos; lia|].
  rewrite Forall_forall in IH. rewrite Forall_forall in Hcs. apply Forall_forall.
  intros c Hc b' ptep'. apply (IH c Hc); [lia|by apply Hcs].
Qed.

Lemma table_wf_events level b tbl cs :
  0 ≤ level < KVM_PGTABLE_MAX_LEVELS → table_wf level cs →
  within b (b + span level) (table_events level b tbl cs).
Proof.
  intros Hl [Hlen Hcs]. unfold span. rewrite -Hlen. apply table_events_within; [by apply granule_pos|].
  eapply Forall_impl; [exact Hcs|]. intros c Hc b' ptep. by apply entry_events_within.
Qed.

(** An entry that contains the start of the range. *)
Lemma reported_cons fl a e flag b size level ptep pte evs :
  b ≤ a < b + size → a < e →
  reported fl a e (Event flag b size level ptep pte :: evs) =
  (if asks fl flag then [(flag, Visit a e level ptep pte)] else []) ++ reported fl a e evs.
Proof.
  intros Ha He. unfold reported. rewrite filter_cons. case_decide as Hd; simpl in Hd.
  - destruct Hd as [-> _]. rewrite fmap_cons /=. by rewrite Z.max_l; [|lia].
  - destruct (asks fl flag); [naive_solver lia|done].
Qed.

Section walk_reports.
Context (fl e : Z).

Definition walk_reports (rec : Z → Z → list entry → T → Z → Z * T * Z * list entry) (level : Z) : Prop :=
  ∀ tbl cs st a b, table_wf level cs → (span level | b) → 0 ≤ b ≤ a → a < b + span level →
    b + 2 * span level ≤ 2 ^ 64 → a < e → starts_leaf a (table_events level b tbl cs) →
    reports fl a e (table_events level b tbl cs) (b + span level) st (rec level tbl cs st a) cs.

Lemma tvisit_reports rec level ptep x st a b :
  0 ≤ level < KVM_PGTABLE_MAX_LEVELS →
  (level + 1 < KVM_PGTABLE_MAX_LEVELS → walk_reports rec (level + 1)) → entry_wf level x →
  (kvm_granule_size level | b) → 0 ≤ b ≤ a → a < b + kvm_granule_size level →
  b + 2 * kvm_granule_size level ≤ 2 ^ 64 → a < e → starts_leaf a (entry_events level b ptep x) →
  reports fl a e (entry_events level b ptep x) (b + kvm_granule_size level) st
    (tvisit read_only fl e rec level ptep x st a) x.
Proof.
  intros Hl Hrec Hx Hb Ha Hab Hov Hae Hst. destruct x as [pte|pte cs].
  - apply Forall_cons in Hst as [Hst _]. simpl in Hst. specialize (Hst eq_refl ltac:(lia)). subst a.
    unfold reports. cbn [entry_events]. rewrite reported_cons; [|lia..]. simpl. unfold reported. simpl.
    destruct (asks fl KVM_PGTABLE_WALK_LEAF); simpl.
    + destruct (g st _) as [r st1]. destruct (Z.eqb_spec r 0) as [->|Hr]; [|by exists b].
      exists (b + kvm_granule_size level). rewrite wrap_small; [|split; lia]. split; [done|]. lia.
    + exists (b + kvm_granule_size level). rewrite wrap_small; [|split; lia]. split; [done|]. lia.
  - pose proof (table_level _ _ _ Hx Hl) as Hl'. apply entry_wf_table in Hx as [Ht Hcs].
    pose proof (span_granule level (proj1 Hl) Hl') as Hs.
    rewrite entry_events_table in Hst |- *. apply Forall_cons in Hst as [_ Hst].
    apply Forall_app in Hst as [Hst _].
    unfold reports. rewrite reported_cons; [|lia..]. rewrite reported_app (reported_cons fl a e); [|lia..].
    rewrite run_until_app. simpl. unfold reported at 2. simpl. rewrite app_nil_r.
    set (pre := run_until st _).
    assert ((if asks fl KVM_PGTABLE_WALK_TABLE_PRE
      then let '(r, st) := g st (KVM_PGTABLE_WALK_TABLE_PRE, Visit a e level ptep pte) in (r, st, cs)
      else (0, st, cs)) = (pre, cs)) as ->.
    { unfold pre. destruct (asks _ _); [|done]. simpl. destruct (g _ _) as [r st1]. by destruct (Z.eqb_spec r 0) as [->|]. }
    destruct pre as [r st1]. destruct (Z.eqb_spec r 0) as [->|Hr]; [|by exists a].
    unfold tdescend. destruct (Hrec Hl' (follow pte ops) cs st1 a b Hcs) as (a1 & -> & H1);
      [by rewrite Hs|lia|lia|lia|done|done|].
    rewrite run_until_app. destruct (run_until st1 _) as [r2 st2]. rewrite Hs in H1.
    simpl in *. destruct (Z.eqb_spec r2 0) as [->|Hr2]; [|by exists a1].
    destruct (asks _ _); simpl; [|by exists a1].
    destruct (g st2 _) as [r3 st3]. destruct (Z.eqb_spec r3 0) as [->|Hr3]; exists a1; [auto|done].
Qed.

Lemma twalk_reports n level : 0 ≤ level → n = levels_left level →
  level < KVM_PGTABLE_MAX_LEVELS → walk_reports (twalk read_only fl e n) level.
Proof.
  revert level. induction n as [|n IH]; intros level Hl Hn Hlm tbl cs st a b [Hcl Hcs] Hb Ha Hab Hov Hae Hst;
    [unfold levels_left in Hn; lia|]. cbn [twalk].
  assert (0 < kvm_granule_size level) as Hg by (apply granule_pos; lia).
  destruct (index_bounds level a b Hg Hb ltac:(lia)) as [Hi Hia].
  pose proof (table_events_from level b tbl 0 cs) as Hev.
  rewrite Z.mul_0_l Z.add_0_r /elem Z.mul_0_r Z.add_0_r in Hev. rewrite Hev in Hst |- *.
  replace (b + span level) with (b + Z.of_nat (length cs) * kvm_granule_size level)
    by (unfold span; lia).
  eapply (titer_from_reports fl e b (kvm_granule_size level) (length cs) (entry_wf level)).
  - done.
  - intros j x Hx. eapply within_mono; [by apply entry_events_within|lia|lia].
  - intros j x st2 a2 Hx Hj Ha2 Hae2 Hst2. destruct Hb as [q ->]. unfold span in *.
    replace (q * (PTRS_PER_PTE * kvm_granule_size level) + (Z.of_nat j + 1) * kvm_granule_size level)
      with (q * (PTRS_PER_PTE * kvm_granule_size level) + Z.of_nat j * kvm_granule_size level +
        kvm_granule_size level) by lia.
    apply tvisit_reports; [done| |done| |nia|lia|nia|done|done].
    + intros Hl'. apply IH; [lia| |done]. unfold levels_left in *. lia.
    + apply Z.divide_add_r; [|by apply Z.divide_factor_r]. rewrite Z.mul_assoc. by apply Z.divide_factor_r.
  - done.
  - done.
  - lia.
  - rewrite Z2Nat.id; lia.
  - done.
  - done.
Qed.

(** The walk over all first-level tables. *)
Lemma tpages_reports ia level p pages st a N :
  geometry ia level N → length pages = N → Forall (table_wf level) pages →
  0 ≤ a → a < e → e ≤ 2 ^ ia → starts_leaf a (pages_events level 0 p pages) →
  reports fl a e (pages_events level 0 p pages) (Z.of_nat N * span level) st
    (tpages read_only fl e level p (page_index ia level a) pages st a) pages.
Proof.
  intros Hgeo HN Hwf Ha Hae He. pose proof Hgeo as [Hia Hlevel Hcov Haddr Hidx].
  pose proof (pages_events_from level 0 p 0 pages) as Hev.
  rewrite !Z.mul_0_l Z.add_0_r /elem Z.mul_0_r Z.add_0_r in Hev. rewrite Hev. intros Hst.
  destruct (page_index_bounds ia level N a Hgeo) as [_ Hpage]. specialize (Hpage ltac:(lia)).
  assert (0 < span level) as Hs.
  { apply Z.mul_pos_pos; [pose proof PTRS_PER_PTE_range; lia|by apply granule_pos]. }
  rewrite -(Z.add_0_l (Z.of_nat N * span level)). unfold tpages.
  eapply (titer_from_reports fl e 0 (span level) N (table_wf level)).
  - done.
  - intros j cs Hcs. eapply within_mono; [by apply table_wf_events|lia|lia].
  - intros j cs st2 a2 Hcs Hj Ha2 Hae2 Hst2.
    replace (0 + (Z.of_nat j + 1) * span level) with (0 + Z.of_nat j * span level + span level) by lia.
    apply twalk_reports; [lia|done|lia|done|by apply Z.divide_factor_r|nia|lia|nia|done|done].
  - done.
  - done.
  - apply Nat2Z.inj_lt, (Z.mul_lt_mono_pos_r (span level)); lia.
  - lia.
  - done.
  - done.
Qed.
End walk_reports.
End read_only.


(** ** The theorems *)

Section calls.
Context `{!Allocator, !AllocatorTotal}.
Context {T : Type} (g : T → Z * visit → Z * T) (I : T → hPropI).

(** A callback that does what [g] says and leaves the page table alone. *)
Definition observer_ok (f x e : Z) : Prop := ∀ st a level ptep pte flag,
  {{ I st ∗ ptep ↦ pte }} call_visitor f a e level ptep flag x
  {{ r, ∃ st', ⌜g st (flag, Visit a e level ptep pte) = (r, st')⌝ ∗ I st' ∗ ptep ↦ pte }}.

Lemma read_only_ok f x e : observer_ok f x e → visitor_ok (read_only g) I f x e.
Proof.
  intros Hob. split; intros st a level ptep pte; intros; triple_start; iIntros "[HI H]";
    iDestruct (entry_at_word with "H") as "(_ & Hp & H)"; simpl;
    wp_call (Hob st a level ptep pte _) with "[$HI $Hp]"; iIntros (r) "(%st' & %E & HI & Hp)";
    rewrite E; iSpecialize ("H" with "Hp"); iExists st', _; iFrame "HI";
    (iSplit; [iPureIntro; reflexivity|done]).
Qed.

Lemma read_only_wf : visitor_wf (read_only g).
Proof.
  split; simpl.
  - intros st v cs r st' cs' Hcs. destruct (g _ _). by intros [= <- <- <-].
  - intros st v r st' y Hl. destruct (g _ _). by intros [= <- <- <-].
  - intros st v cs r st' y Hl. destruct (g _ _). by intros [= <- <- <-].
Qed.

Lemma pages_wf level p k pages : pages_from level p k pages ⊢ ⌜Forall (table_wf level) pages⌝.
Proof.
  revert k. induction pages as [|cs pages IH]; intros k; [by iIntros|]. rewrite pages_from_cons.
  iIntros "[Hc H]". iDestruct (table_at_wf with "Hc") as %?. iDestruct (IH with "H") as %?.
  iPureIntro. by constructor.
Qed.

(** C17. A walk with a callback that leaves the page table alone reports
    exactly the entries that map an address of the range and that its flags ask
    for: tables before and after their entries, everything in the order of the
    addresses, each with the first address of the range it maps; it stops with
    the first answer that is not zero and returns it, else zero, and the page
    table is as it was. The range has to start at the start of a leaf (or of a
    hole: an invalid entry is a leaf, too). The range must not wrap around
    ([range_ok]), must lie within the input addresses and not be empty, and the
    first-level tables must cover the input addresses ([geometry]). There is
    assumed to be storage for the local variables ([AllocatorTotal]). *)
Theorem kvm_pgtable_walk_reports_range pgt w f x fl ia level p pages st addr size :
  range_ok addr size → geometry ia level (length pages) → observer_ok f x (range_end addr size) →
  out_of_range ia (range_start addr) (range_end addr size) = false →
  range_start addr < range_end addr size →
  starts_leaf (range_start addr) (pages_events level 0 p pages) →
  {{ pgtable_at pgt ia level p pages ∗ walker_at w f x fl ∗ I st }} kvm_pgtable_walk pgt addr size w
  {{ r, ∃ st',
     ⌜run_until g st (reported fl (range_start addr) (range_end addr size)
        (pages_events level 0 p pages)) = (r, st')⌝ ∗
     pgtable_at pgt ia level p pages ∗ walker_at w f x fl ∗ I st' }}.
Proof.
  intros Hr Hgeo Hob Hout Hne Hst. triple_start. iIntros "[Hpgt H]".
  iAssert ⌜Forall (table_wf level) pages⌝%I as %Hwf.
  { iDestruct "Hpgt" as "(_ & _ & _ & _ & H')". iApply (pages_wf with "H'"). }
  wp_call (kvm_pgtable_walk_spec (read_only g) I pgt w f x fl ia level p pages st addr size Hr Hgeo
    read_only_wf (read_only_ok _ _ _ Hob)) with "[$Hpgt $H]".
  iIntros (r) "[Hw H]". rewrite Hout. iDestruct "H" as "(%st' & %a' & %pages' & %E & Hpgt & HI)".
  destruct (walk_init addr size Hr) as (Ha0 & _).
  apply orb_false_iff in Hout as [_ He%Z.ltb_ge].
  destruct (tpages_reports g fl (range_end addr size) ia level p pages st (range_start addr) (length pages))
    as (a1 & E1 & _); [done..|]. rewrite E1 in E.
  destruct (run_until _ _ _) as [r1 st1]. simplify_eq. iExists st'. by iFrame.
Qed.

(** *** A range that starts inside of a block *)

(** The entries of a table of leaves that a walk over [a, e) visits: it adds the
    size of a block to its address, wherever in a block that address is. *)
Fixpoint stride (e level a ptep : Z) (ptes : list Z) : list (Z * visit) :=
  match ptes with
  | [] => []
  | pte :: ptes =>
      if e <=? a then [] else
      (KVM_PGTABLE_WALK_LEAF, Visit a e level ptep pte) ::
      stride e level (a + kvm_granule_size level) (ptep + 8) ptes
  end.

Lemma stride_elem e level a ptep ptes v :
  0 < kvm_granule_size level →
  v ∈ stride e level a ptep ptes ↔
  ∃ (k : nat) pte, ptes !! k = Some pte ∧ a + Z.of_nat k * kvm_granule_size level < e ∧
    v = (KVM_PGTABLE_WALK_LEAF,
         Visit (a + Z.of_nat k * kvm_granule_size level) e level (ptep + 8 * Z.of_nat k) pte).
Proof.
  intros Hg. revert a ptep. induction ptes as [|pte ptes IH]; intros a ptep; simpl.
  { split; [by intros ?%not_elem_of_nil|naive_solver]. }
  destruct (Z.leb_spec e a) as [Ha|Ha].
  { split; [by intros ?%not_elem_of_nil|]. intros (k & ? & _ & ? & _). nia. }
  rewrite elem_of_cons IH. split.
  - intros [->|(k & pte' & Hk & Hlt & ->)].
    + exists 0%nat, pte. split; [done|]. rewrite Z.mul_0_l Z.mul_0_r !Z.add_0_r. by split; [lia|].
    + exists (S k), pte'. split; [done|]. split; [lia|]. do 2 f_equal; lia.
  - intros ([|k] & pte' & Hk & Hlt & ->); simplify_eq/=; [left|right].
    + by rewrite !Z.add_0_r.
    + exists k, pte'. split; [done|]. split; [lia|]. do 2 f_equal; lia.
Qed.

Lemma titer_stride fl e rec level tbl i ptes st a :
  asks fl KVM_PGTABLE_WALK_LEAF = true → 0 < kvm_granule_size level → 0 ≤ a →
  e + kvm_granule_size level ≤ 2 ^ 64 →
  ∃ a', titer e (λ i, tvisit (read_only g) fl e rec level (elem 8 tbl (Z.of_nat i))) i (Leaf <$> ptes) st a =
    (run_until g st (stride e level a (elem 8 tbl (Z.of_nat i)) ptes), a', Leaf <$> ptes).
Proof.
  intros Hask Hg Ha Hov. revert i st a Ha. induction ptes as [|pte ptes IH]; intros i st a Ha; [by eexists|].
  cbn [fmap list_fmap titer stride]. destruct (Z.leb_spec e a) as [Hea|Hea]; [by eexists|].
  cbn [tvisit]. rewrite Hask. cbn [read_only v_leaf vi_pte run_until].
  destruct (g st _) as [r st1]. destruct (Z.eqb_spec r 0) as [->|Hr]; last first.
  { rewrite (proj2 (Z.eqb_neq r 0)) //. by eexists. }
  rewrite Z.eqb_refl wrap_small; [|split; lia].
  destruct (IH (S i) st1 (a + kvm_granule_size level)) as [a' E]; [lia|]. rewrite E.
  replace (elem 8 tbl (Z.of_nat i) + 8) with (elem 8 tbl (Z.of_nat (S i))) by (unfold elem; lia).
  destruct (run_until g st1 _) as [r2 st2]. by eexists.
Qed.

(** The walk over the only first-level table, when it has leaves only. *)
Lemma tpages_stride fl e ia level p ptes st a :
  asks fl KVM_PGTABLE_WALK_LEAF = true → geometry ia level 1 → 0 ≤ a < e → e ≤ 2 ^ ia →
  ∃ a', tpages (read_only g) fl e level p (page_index ia level a) [Leaf <$> ptes] st a =
    (run_until g st (stride e level a (p + 8 * (a / kvm_granule_size level))
       (drop (Z.to_nat (a / kvm_granule_size level)) ptes)), a', [Leaf <$> ptes]).
Proof.
  intros Hask [Hia Hlevel Hcov Haddr Hidx] Ha He. pose proof (granule_pos level Hlevel) as Hg.
  pose proof PTRS_PER_PTE_range as Hp. unfold span in *.
  assert (page_index ia level a = 0%nat) as ->.
  { unfold page_index, span. rewrite Z.mod_small; [|lia]. by rewrite Z.div_small; [|lia]. }
  assert (0 ≤ a / kvm_granule_size level < PTRS_PER_PTE) as Hi.
  { split; [apply Z.div_pos; lia|]. apply Z.div_lt_upper_bound; lia. }
  unfold tpages. rewrite drop_0 take_0. cbn [titer]. rewrite (proj2 (Z.leb_gt e a)); [|lia].
  assert (levels_left level = S (Z.to_nat (KVM_PGTABLE_MAX_LEVELS - level - 1))) as ->.
  { unfold levels_left. lia. }
  cbn [twalk]. rewrite (Z.mod_small (a / _)) // -fmap_drop.
  destruct (titer_stride fl e (twalk (read_only g) fl e (Z.to_nat (KVM_PGTABLE_MAX_LEVELS - level - 1)))
    level (elem 8 p (Z.of_nat 0 * PTRS_PER_PTE)) (Z.to_nat (a / kvm_granule_size level))
    (drop (Z.to_nat (a / kvm_granule_size level)) ptes) st a Hask Hg ltac:(lia) ltac:(nia)) as [a' ->].
  rewrite Z2Nat.id; [|lia].
  replace (elem 8 (elem 8 p (Z.of_nat 0 * PTRS_PER_PTE)) (a / kvm_granule_size level))
    with (p + 8 * (a / kvm_granule_size level)) by (unfold elem; lia).
  destruct (run_until g st _) as [r st1]. rewrite -fmap_take -fmap_app take_drop.
  destruct (r =? 0) eqn:E; [apply Z.eqb_eq in E as ->|]; by eexists.
Qed.

(** All leaves of a table are events. *)
Lemma leaf_event level b tbl ptes (j : nat) pte :
  ptes !! j = Some pte →
  Event KVM_PGTABLE_WALK_LEAF (b + Z.of_nat j * kvm_granule_size level) (kvm_granule_size level) level
    (tbl + 8 * Z.of_nat j) pte ∈ table_events level b tbl (Leaf <$> ptes).
Proof.
  revert b tbl j. induction ptes as [|pte' ptes IH]; intros b tbl [|j] Hj; simplify_eq/=.
  - rewrite !Z.add_0_r. apply list_elem_of_here.
  - apply list_elem_of_further. specialize (IH (b + kvm_granule_size level) (tbl + 8) j Hj).
    replace (b + Z.of_nat (S j) * kvm_granule_size level)
      with (b + kvm_granule_size level + Z.of_nat j * kvm_granule_size level) by lia.
    by replace (tbl + 8 * Z.of_nat (S j)) with (tbl + 8 + 8 * Z.of_nat j) by lia.
Qed.

(** C18. A walk does not round its address up to the next entry: it adds the
    size of a block to where it is. Over a range [a, e) of a table of blocks or
    pages (the only first-level table, at any level, of leaves), with the size
    [G] of its blocks, a walk visits the entries from number [a / G] on, at the
    addresses [a], [a + G], [a + 2G] and so on, as long as these lie below [e].
    The entry of the last address of the range, which maps a part of the range,
    is therefore visited unless [0 < e mod G ≤ a mod G], and in that case it is
    not: the walk ends one entry early. There is assumed to be storage for the
    local variables ([AllocatorTotal]). *)
Theorem kvm_pgtable_walk_unaligned_misses_entry pgt w f x fl ia level p ptes st addr size :
  let G := kvm_granule_size level in
  let a := range_start addr in let e := range_end addr size in let last := (e - 1) / G in
  range_ok addr size → geometry ia level 1 → observer_ok f x e →
  Z.of_nat (length ptes) = PTRS_PER_PTE → asks fl KVM_PGTABLE_WALK_LEAF = true → a < e → e ≤ 2 ^ ia →
  let visited := stride e level a (p + 8 * (a / G)) (drop (Z.to_nat (a / G)) ptes) in
  ({{ pgtable_at pgt ia level p [Leaf <$> ptes] ∗ walker_at w f x fl ∗ I st }}
     kvm_pgtable_walk pgt addr size w
   {{ r, ∃ st', ⌜run_until g st visited = (r, st')⌝ ∗
      pgtable_at pgt ia level p [Leaf <$> ptes] ∗ walker_at w f x fl ∗ I st' }}) ∧
  (∃ pte, (KVM_PGTABLE_WALK_LEAF, Visit (Z.max a (last * G)) e level (p + 8 * last) pte) ∈
     reported fl a e (pages_events level 0 p [Leaf <$> ptes])) ∧
  ((∃ v, v ∈ visited ∧ vi_ptep v.2 = p + 8 * last) ↔ ¬ 0 < e mod G ≤ a mod G).
Proof.
  intros G a e last Hr Hgeo Hob Hlen Hask Hae He visited.
  destruct (walk_init addr size Hr) as (Ha0 & _). fold a in Ha0.
  pose proof Hgeo as [Hia Hlevel Hcov Haddr Hidx].
  assert (0 < G) as Hg by by apply granule_pos. unfold span in Hcov, Haddr. fold G in Hcov, Haddr.
  pose proof (Z.div_mod a G ltac:(lia)) as Hda. pose proof (Z.mod_pos_bound a G Hg) as Hma.
  pose proof (Z.div_mod e G ltac:(lia)) as Hde. pose proof (Z.mod_pos_bound e G Hg) as Hme.
  pose proof (Z.div_mod (e - 1) G ltac:(lia)) as Hdl. pose proof (Z.mod_pos_bound (e - 1) G Hg) as Hml.
  fold last in Hdl. set (i := a / G) in *.
  assert (0 ≤ i ≤ last) as Hi by (split; [by apply Z.div_pos|apply Z.div_le_mono; lia]).
  assert (last < Z.of_nat (length ptes)) as Hlast by nia.
  split_and!.
  - triple_start. iIntros "H".
    wp_call (kvm_pgtable_walk_spec (read_only g) I pgt w f x fl ia level p [Leaf <$> ptes] st addr size Hr Hgeo
      read_only_wf (read_only_ok _ _ _ Hob)) with "H".
    fold a e. iIntros (r) "[Hw H]". unfold out_of_range.
    rewrite (proj2 (Z.ltb_ge _ a)); [|lia]. rewrite (proj2 (Z.ltb_ge _ e)) //=.
    iDestruct "H" as "(%st' & %a' & %pages' & %E & Hpgt & HI)".
    destruct (tpages_stride fl e ia level p ptes st a Hask Hgeo ltac:(lia) He) as [a1 E1].
    rewrite E1 in E. fold G i visited in E. destruct (run_until g st visited) as [r1 st1]. simplify_eq.
    iExists st'. by iFrame.
  - destruct (lookup_lt_is_Some_2 ptes (Z.to_nat last)) as [pte Hpte]; [lia|]. exists pte.
    apply list_elem_of_fmap.
    exists (Event KVM_PGTABLE_WALK_LEAF (last * G) G level (p + 8 * last) pte). split; [done|].
    apply list_elem_of_filter. simpl. split; [split_and!; [done|lia|nia]|]. rewrite app_nil_r.
    pose proof (leaf_event level 0 p ptes (Z.to_nat last) pte Hpte) as Hev.
    by rewrite Z2Nat.id in Hev; [|lia].
  - assert ((∃ v, v ∈ visited ∧ vi_ptep v.2 = p + 8 * last) ↔ last * G + a mod G < e) as ->; cycle 1.
    { destruct (decide (e mod G = 0)) as [E|E].
      - assert (last = e / G - 1) as Hl by (symmetry; apply (Z.div_unique _ G _ (G - 1)); lia).
        rewrite Hl Z.mul_sub_distr_r. lia.
      - assert (last = e / G) as Hl by (symmetry; apply (Z.div_unique _ G _ (e mod G - 1)); lia).
        rewrite Hl. lia. }
    split.
    + intros (v & (k & pte & Hk & Hlt & ->)%stride_elem & Hv); [|done]. simpl in Hv. fold G in Hlt.
      replace (Z.of_nat k) with (last - i) in Hlt by lia. lia.
    + intros Hlt. destruct (lookup_lt_is_Some_2 ptes (Z.to_nat last)) as [pte Hpte]; [lia|].
      exists (KVM_PGTABLE_WALK_LEAF, Visit (a + (last - i) * G) e level (p + 8 * i + 8 * (last - i)) pte).
      split; [|simpl; lia]. apply stride_elem; [done|]. exists (Z.to_nat (last - i)), pte.
      rewrite lookup_drop Z2Nat.id; [|lia]. fold G. split_and!; [|lia|done].
      by replace (Z.to_nat i + Z.to_nat (last - i))%nat with (Z.to_nat last) by lia.
Qed.

End calls.
End reports.

(** ** Witnesses *)
#[local] Existing Instance small_headers.
#[local] Existing Instance small_headers_spec.
#[local] Existing Instance small_ops.

(** A callback that counts its calls at [x]. *)
Definition count (n : Z) (ev : Z * visit) : Z * Z := (0, n + 1).

Lemma count_ok x e : observer_ok count (λ n, x ↦ n)%I 0 x e.
Proof.
  intros n a level ptep pte flag. triple_start. iIntros "[HI Hp]". simpl. wp_steps. iExists (n + 1). by iFrame.
Qed.

(** Two pages below a table and a block, all three leaves in the range. *)
Lemma kvm_pgtable_walk_reports_range_witness : let _ := bump_allocator in
  {{ pgtable_at 64 14 2 4096 [[Table 12291 [Leaf 1; Leaf 0]; Leaf 0]] ∗ walker_at 128 0 200 7 ∗ 200 ↦ 0 }}
    kvm_pgtable_walk 64 4100 8192 128
  {{ r, ∃ st', ⌜(0, 4) = (r, st')⌝ ∗
     pgtable_at 64 14 2 4096 [[Table 12291 [Leaf 1; Leaf 0]; Leaf 0]] ∗ walker_at 128 0 200 7 ∗ 200 ↦ st' }}.
Proof.
  intros A. pose proof bump_allocator_total.
  refine (kvm_pgtable_walk_reports_range count (λ n, 200 ↦ n)%I 64 128 0 200 7 14 2 4096
    [[Table 12291 [Leaf 1; Leaf 0]; Leaf 0]] 0 4100 8192 _ _ (count_ok _ _) _ _ _).
  - split; [split|..]; vm_compute; congruence.
  - by apply small_geometry; [lia|lia|vm_compute; congruence|vm_compute].
  - reflexivity.
  - reflexivity.
  - repeat constructor; vm_compute; intros; intuition congruence.
Defined.

(** Two blocks, a range from the second page of the first to the first page of
    the second: one entry is visited. *)
Lemma kvm_pgtable_walk_unaligned_misses_entry_witness : let _ := bump_allocator in
  ({{ pgtable_at 64 14 2 4096 [Leaf <$> [1; 1]] ∗ walker_at 128 0 200 1 ∗ 200 ↦ 0 }}
     kvm_pgtable_walk 64 4096 8192 128
   {{ r, ∃ st', ⌜(0, 1) = (r, st')⌝ ∗
      pgtable_at 64 14 2 4096 [Leaf <$> [1; 1]] ∗ walker_at 128 0 200 1 ∗ 200 ↦ st' }}) ∧
  (∃ pte, (1, Visit 8192 12288 2 4104 pte) ∈
     reported 1 4096 12288 (pages_events 2 0 4096 [Leaf <$> [1; 1]])) ∧
  ((∃ v, v ∈ [(1, Visit 4096 12288 2 4096 1)] ∧ vi_ptep v.2 = 4104) ↔ ¬ 0 < 4096 ≤ 4096).
Proof.
  intros A. pose proof bump_allocator_total.
  refine (kvm_pgtable_walk_unaligned_misses_entry count (λ n, 200 ↦ n)%I 64 128 0 200 1 14 2 4096 [1; 1] 0
    4096 8192 _ _ (count_ok _ _) _ _ _ _).
  - split; [split|..]; vm_compute; congruence.
  - by apply small_geometry; [lia|lia|vm_compute; congruence|vm_compute].
  - reflexivity.
  - reflexivity.
  - reflexivity.
  - vm_compute. congruence.
Defined.

End PgWalkReports.
