(* ===== verification/NextPerm.v ===== *)
(** * Permutations in lexicographic order (src/examples/VerifyThis2021/challenge1.c)

    [next] turns an array into its successor among its permutations in
    lexicographic order, and [permut] collects all permutations of an array.
    Sorting, copying and the list of results are declared but not defined in the
    file: they are the parameters of [PermutDeps]. *)
From S2P Require Import Prelude HeapLogic Arrays.
From stdpp Require Import gmap list sorting.
From iris.proofmode Require Import proofmode.
From Stdlib Require Import Factorial.
#[local] Open Scope Z_scope.

Module NextPerm.

(** ** The code *)

(** [while(i > 0 && A[i - 1] >= A[i])] *)
Fixpoint descent_loop (n : nat) (A i : Z) : M heap Z :=
  match n with
  | O => fail OutOfFuel
  | S n =>
      if 0 <? i then
        k ← signed 32 (i - 1);
        x ← load (elem 4 A k);
        y ← load (elem 4 A i);
        if y <=? x then k ← signed 32 (i - 1); descent_loop n A k else mret i
      else mret i
  end.

(** [while(A[j] <= A[i-1])] *)
Fixpoint pivot_loop (n : nat) (A i j : Z) : M heap Z :=
  match n with
  | O => fail OutOfFuel
  | S n =>
      y ← load (elem 4 A j);
      k ← signed 32 (i - 1);
      x ← load (elem 4 A k);
      if y <=? x then j ← signed 32 (j - 1); pivot_loop n A i j else mret j
  end.

(** [while(i < j)] *)
Fixpoint reverse_loop (n : nat) (A i j : Z) : M heap unit :=
  match n with
  | O => fail OutOfFuel
  | S n =>
      if i <? j then
        temp ← load (elem 4 A i);
        y ← load (elem 4 A j);
        store (elem 4 A i) y ;;
        store (elem 4 A j) temp ;;
        i ← signed 32 (i + 1);
        j ← signed 32 (j - 1);
        reverse_loop n A i j
      else mret tt
  end.

(** Each loop moves an index by one element within the array. *)
Definition next (A size : Z) : M heap bool :=
  let turns := S (Z.to_nat size) in
  i ← signed 32 (size - 1);
  i ← descent_loop turns A i;
  if i <=? 0 then mret false else
  j ← signed 32 (size - 1);
  j ← pivot_loop turns A i j;
  k ← signed 32 (i - 1);
  temp ← load (elem 4 A k);
  y ← load (elem 4 A j);
  store (elem 4 A k) y ;;
  store (elem 4 A j) temp ;;
  j ← signed 32 (size - 1);
  reverse_loop turns A i j ;;
  mret true.

(** The functions the file declares only. *)
Class PermutDeps := {
  list_new : M heap Z;
  list_snoc : Z → Z → M heap unit;
  sort : Z → Z → M heap unit;
  copy_array : Z → Z → M heap Z;
}.

(** [while(next(A, size))] *)
Fixpoint permut_loop `{!PermutDeps} (n : nat) (A size l : Z) : M heap unit :=
  match n with
  | O => fail OutOfFuel
  | S n =>
      b ← next A size;
      if (b : bool) then
        copy ← copy_array A size;
        list_snoc l copy ;;
        permut_loop n A size l
      else mret tt
  end.

(** An array has at most [size!] permutations. *)
Definition permut `{!Allocator, !PermutDeps} (A size : Z) : M heap Z :=
  with_local ptr_layout (λ l,
    v ← list_new;
    store l v ;;
    if size =? 0 then load l else
    sort A size ;;
    copy ← copy_array A size;
    list_snoc l copy ;;
    permut_loop (fact (Z.to_nat size)) A size l ;;
    load l).

Arguments next : simpl never.

(** ** Lexicographic order *)

Fixpoint lex (xs ys : list Z) : Prop :=
  match xs, ys with
  | x :: xs, y :: ys => x < y ∨ (x = y ∧ lex xs ys)
  | _, _ => False
  end.

(** [ys] is the permutation of [xs] that comes next. *)
Definition successor (xs ys : list Z) : Prop :=
  xs ≡ₚ ys ∧ lex xs ys ∧ ∀ zs, xs ≡ₚ zs → lex xs zs → zs ≠ ys → lex ys zs.

(** No permutation of [xs] comes after it. *)
Definition maximal (xs : list Z) : Prop := ∀ ys, xs ≡ₚ ys → ¬ lex xs ys.

Lemma lex_irrefl xs : ¬ lex xs xs.
Proof. induction xs as [|x xs IH]; simpl; [tauto|]. intros [?|[_ ?]]; [lia|done]. Qed.

Lemma lex_trans xs ys zs : lex xs ys → lex ys zs → lex xs zs.
Proof.
  revert ys zs. induction xs as [|x xs IH]; intros [|y ys] [|z zs] H1 H2; simpl in *; try done.
  destruct H1 as [?|[-> ?]], H2 as [?|[-> ?]]; [left; lia|left; lia|left; lia|right; eauto].
Qed.

Lemma lex_total xs ys : length xs = length ys → xs = ys ∨ lex xs ys ∨ lex ys xs.
Proof.
  revert ys. induction xs as [|x xs IH]; intros [|y ys] Hl; simpl in *; try lia; [by left|].
  destruct (Z.lt_trichotomy x y) as [?|[->|?]]; [auto| |auto].
  destruct (IH ys) as [->|[?|?]]; auto.
Qed.

Lemma lex_app p xs ys : lex (p ++ xs) (p ++ ys) ↔ lex xs ys.
Proof. induction p as [|x p IH]; simpl; [done|]. rewrite IH. naive_solver lia. Qed.

(** Lists between two lists with a common beginning. *)
Lemma lex_between p xs ys zs :
  lex (p ++ xs) zs → lex zs (p ++ ys) → ∃ ws, zs = p ++ ws ∧ lex xs ws ∧ lex ws ys.
Proof.
  revert zs. induction p as [|x p IH]; intros zs H1 H2; simpl in *; [by exists zs|].
  destruct zs as [|z zs]; [done|]. simpl in *.
  destruct H1 as [?|[-> H1]], H2 as [?|[? H2]]; try lia. destruct (IH zs) as (ws & -> & ?); [done..|].
  by exists ws.
Qed.

Abbreviation descending := (StronglySorted Z.ge).
Abbreviation ascending := (StronglySorted Z.le).

Lemma descending_hd x xs y : descending (x :: xs) → y ∈ xs → y ≤ x.
Proof.
  intros [_ Hs]%StronglySorted_inv Hy. rewrite Forall_forall in Hs. specialize (Hs y Hy). lia.
Qed.

Lemma ascending_hd x xs y : ascending (x :: xs) → y ∈ xs → x ≤ y.
Proof. intros [_ Hs]%StronglySorted_inv Hy. rewrite Forall_forall in Hs. by apply Hs. Qed.

Lemma descending_maximal xs : descending xs → maximal xs.
Proof.
  induction xs as [|x xs IH]; intros Hs ys Hp; [intros []|].
  destruct ys as [|y ys]; [intros []|]. simpl. intros [Hlt|[-> Hlex]].
  - assert (y ∈ x :: xs) as Hy by (rewrite Hp; left). apply elem_of_cons in Hy as [->|Hy]; [lia|].
    pose proof (descending_hd _ _ _ Hs Hy). lia.
  - apply (IH ltac:(by apply StronglySorted_inv in Hs as [? _]) ys); [|done]. by eapply Permutation_cons_inv.
Qed.

Lemma ascending_minimal xs ys : ascending xs → xs ≡ₚ ys → ¬ lex ys xs.
Proof.
  revert ys. induction xs as [|x xs IH]; intros [|y ys] Hs Hp; simpl; try tauto.
  intros [Hlt|[-> Hlex]].
  - assert (y ∈ x :: xs) as Hy by (rewrite Hp; left). apply elem_of_cons in Hy as [->|Hy]; [lia|].
    pose proof (ascending_hd _ _ _ Hs Hy). lia.
  - apply (IH ys); [by apply StronglySorted_inv in Hs as [? _]| |done]. by eapply Permutation_cons_inv.
Qed.

Lemma reverse_ascending xs : descending xs → ascending (reverse xs).
Proof.
  induction 1 as [|x xs Hs IH Hx]; [constructor|]. rewrite reverse_cons StronglySorted_app.
  split_and!; [|done|repeat constructor].
  intros y z Hy ->%list_elem_of_singleton. rewrite reverse_Permutation in Hy. rewrite Forall_forall in Hx.
  specialize (Hx y Hy). lia.
Qed.

(** The step of the algorithm: [s] is the longest descending end of the list,
    [y] the last of its elements above the element before it. *)
Lemma next_is_successor p x s1 y s2 :
  descending (s1 ++ y :: s2) → x < y → Forall (λ z, z ≤ x) s2 →
  successor (p ++ x :: s1 ++ y :: s2) (p ++ y :: reverse (s1 ++ x :: s2)).
Proof.
  intros Hs Hxy H2. rewrite Forall_forall in H2.
  assert (descending (s1 ++ x :: s2)) as Hs'.
  { apply StronglySorted_app in Hs as (H12 & Hd1 & Hd2). apply StronglySorted_inv in Hd2 as [Hd2 _].
    apply StronglySorted_app. split_and!; [|done|].
    - intros a b Ha Hb. specialize (H12 a y Ha (list_elem_of_here _ _)).
      apply elem_of_cons in Hb as [->|Hb]; [lia|]. specialize (H2 b Hb). simpl in H2. lia.
    - constructor; [done|]. apply Forall_forall. intros b Hb. specialize (H2 b Hb). simpl in H2. lia. }
  assert (p ++ x :: s1 ++ y :: s2 ≡ₚ p ++ y :: reverse (s1 ++ x :: s2)) as Hp.
  { apply Permutation_app_head. rewrite reverse_Permutation -!Permutation_middle. apply Permutation_swap. }
  split_and!; [done|apply lex_app; by left|].
  intros zs Hz Hlex Hne. assert (length (p ++ y :: reverse (s1 ++ x :: s2)) = length zs) as Hlen by by rewrite -Hp Hz.
  apply lex_total in Hlen as [<-|[?|Hlt]]; [done|done|]. exfalso.
  destruct (lex_between _ _ _ _ Hlex Hlt) as (ws & -> & Hw1 & Hw2).
  apply Permutation_app_inv_l in Hz. destruct ws as [|z ws]; [destruct Hw1|]. simpl in Hw1, Hw2.
  destruct Hw1 as [Hxz|[<- Hw1]].
  - destruct Hw2 as [Hzy|[-> Hw2]].
    + assert (z ∈ x :: s1 ++ y :: s2) as Hin by (rewrite Hz; left).
      apply elem_of_cons in Hin as [->|Hin]; [lia|]. apply elem_of_app in Hin as [Hin|Hin].
      * pose proof (StronglySorted_app_1_elem_of _ _ _ _ _ Hs Hin (list_elem_of_here y s2)). lia.
      * apply elem_of_cons in Hin as [->|Hin]; [lia|]. specialize (H2 z Hin). simpl in H2. lia.
    + eapply ascending_minimal; [by apply reverse_ascending| |done].
      apply (Permutation_cons_inv (a:=y)). rewrite -Hz reverse_Permutation -!Permutation_middle.
      apply Permutation_swap.
  - apply (descending_maximal _ Hs ws); [|done]. by eapply Permutation_cons_inv.
Qed.

(** ** The loops *)
Section specs.
Implicit Types (A : Z) (xs p s : list Z).

(** The array splits where the descending end starts. *)
Lemma descent_loop_spec n A q s :
  (length q < n)%nat → Z.of_nat (length (q ++ s)) < 2 ^ 31 → descending s → s ≠ [] →
  {{ array 4 A (q ++ s) }} descent_loop n A (Z.of_nat (length q))
  {{ i, ∃ q' s', ⌜q ++ s = q' ++ s' ∧ i = Z.of_nat (length q') ∧ descending s' ∧ s' ≠ [] ∧
        (q' = [] ∨ ∃ p x y t, q' = p ++ [x] ∧ s' = y :: t ∧ x < y)⌝ ∗ array 4 A (q ++ s) }}.
Proof.
  revert n s. induction q as [|x p IH] using rev_ind; intros n s Hn Hlen Hs Hne; triple_start;
    (destruct n as [|n]; [lia|]); iIntros "H"; cbn [descent_loop].
  { wp_rets. iExists [], s. iFrame. iPureIntro. split_and!; auto. }
  destruct s as [|y t]; [done|]. rewrite length_app /= in Hn |- *. rewrite !length_app /= in Hlen.
  rewrite (proj2 (Z.ltb_lt _ _)); [|lia]. wp_focus.
  iApply wp_signed; [split; lia|]. replace (Z.of_nat (length p + 1) - 1) with (Z.of_nat (length p)) by lia.
  rewrite -app_assoc /=. wp_focus. iApply (wp_mid_load with "H"); [done|]. iIntros "H".
  wp_focus. replace (p ++ x :: y :: t) with ((p ++ [x]) ++ y :: t) by by rewrite -app_assoc.
  iApply (wp_mid_load with "H"); [rewrite length_app /=; lia|]. iIntros "H".
  destruct (Z.leb_spec y x) as [Hle|Hlt].
  - wp_focus. iApply wp_signed; [split; lia|].
    rewrite -app_assoc /=. iApply (IH n (x :: y :: t) with "H"); [lia|rewrite length_app /=; lia| |done].
    constructor; [done|]. constructor; [lia|]. apply Forall_forall. intros z Hz.
    pose proof (descending_hd _ _ _ Hs Hz). lia.
  - wp_rets. iExists (p ++ [x]), (y :: t). iFrame. iPureIntro. rewrite length_app /=.
    split_and!; [done|done|done|done|]. right. by exists p, x, y, t.
Qed.

(** The last element of the descending end above the pivot. *)
Lemma pivot_loop_spec n A p x t s2 :
  (length t ≤ n)%nat → Z.of_nat (length (p ++ x :: t ++ s2)) < 2 ^ 31 →
  Forall (λ z, z ≤ x) s2 → (∃ y t', t = y :: t' ∧ x < y) →
  {{ array 4 A (p ++ x :: t ++ s2) }}
    pivot_loop n A (Z.of_nat (length p) + 1) (Z.of_nat (length p + length t))
  {{ j, ∃ s1 y s2', ⌜t ++ s2 = s1 ++ y :: s2' ∧ j = Z.of_nat (length p + 1 + length s1) ∧ x < y ∧
        Forall (λ z, z ≤ x) s2'⌝ ∗ array 4 A (p ++ x :: t ++ s2) }}.
Proof.
  revert n s2. induction t as [|y t IH] using rev_ind; intros n s2 Hn Hlen Hs2 (y0 & t0 & Ht & Hx); [done|].
  rewrite length_app /= in Hn. destruct n as [|n]; [lia|]. triple_start. iIntros "H". cbn [pivot_loop].
  rewrite -app_assoc /= in Hlen |- *. rewrite !length_app /= length_app /= in Hlen.
  replace (p ++ x :: t ++ y :: s2) with ((p ++ x :: t) ++ y :: s2) by by rewrite -app_assoc.
  wp_focus. iApply (wp_mid_load with "H"); [rewrite !length_app /=; lia|]. iIntros "H".
  wp_focus. iApply wp_signed; [split; lia|]. wp_focus. rewrite -app_assoc /=.
  iApply (wp_mid_load with "H"); [lia|]. iIntros "H". destruct (Z.leb_spec y x) as [Hle|Hlt].
  - wp_focus. iApply wp_signed; [rewrite length_app; split; simpl; lia|].
    replace (Z.of_nat (length p + length (t ++ [y])) - 1) with (Z.of_nat (length p + length t))
      by (rewrite length_app /=; lia).
    iApply (IH n (y :: s2) with "H"); [lia|rewrite !length_app /= length_app /=; lia|by constructor|].
    destruct t as [|z t]; [simpl in Ht; simplify_eq; lia|]. exists z, t. split; [done|].
    simpl in Ht. by simplify_eq.
  - wp_rets. iExists t, y, s2. iFrame. iPureIntro. split_and!; [done| |done|done]. rewrite length_app /=. lia.
Qed.

Lemma reverse_range_spec n A l m r :
  (length m ≤ n)%nat → Z.of_nat (length (l ++ m ++ r)) < 2 ^ 31 → l ≠ [] →
  {{ array 4 A (l ++ m ++ r) }}
    reverse_loop (S n) A (Z.of_nat (length l)) (Z.of_nat (length l + length m) - 1)
  {{ _, array 4 A (l ++ reverse m ++ r) }}.
Proof.
  revert l m r. induction n as [n IH] using lt_wf_ind; intros l m r Hn Hlen Hl; triple_start.
  iIntros "H". cbn [reverse_loop].
  destruct m as [|a m]; [|destruct m as [|b m _] using rev_ind].
  1,2: rewrite (proj2 (Z.ltb_ge _ _)); [|simpl; lia]; by wp_rets.
  rewrite !length_app /= !length_app /= in Hn Hlen |- *.
  destruct n as [|n]; [lia|].
  rewrite (proj2 (Z.ltb_lt _ _)); [|lia]. wp_focus. rewrite -app_assoc.
  iApply (wp_mid_load with "H"); [done|]. iIntros "H". wp_focus.
  replace (l ++ a :: m ++ [b] ++ r) with ((l ++ a :: m) ++ b :: r) by by rewrite -app_assoc.
  iApply (wp_mid_load with "H"); [rewrite length_app /=; lia|]. iIntros "H". wp_focus.
  rewrite -app_assoc /=. iApply (wp_mid_store with "H"); [done|]. iIntros "H". wp_focus.
  replace (l ++ b :: m ++ b :: r) with ((l ++ b :: m) ++ b :: r) by by rewrite -app_assoc.
  iApply (wp_mid_store with "H"); [rewrite length_app /=; lia|]. iIntros "H". wp_focus.
  iApply wp_signed; [split; lia|]. wp_focus. iApply wp_signed; [split; lia|].
  replace ((l ++ b :: m) ++ a :: r) with ((l ++ [b]) ++ m ++ a :: r) by by rewrite -!app_assoc.
  replace (Z.of_nat (length l) + 1) with (Z.of_nat (length (l ++ [b]))) by (rewrite length_app /=; lia).
  replace (Z.of_nat (length l + S (length m + 1)) - 1 - 1)
    with (Z.of_nat (length (l ++ [b]) + length m) - 1) by (rewrite length_app /=; lia).
  iApply (wp_mono _ (λ _, array 4 A ((l ++ [b]) ++ reverse m ++ a :: r))).
  { intros _. by rewrite reverse_cons reverse_app /= -!app_assoc. }
  iApply (IH n with "H"); [lia|lia|rewrite !length_app /=; lia|by destruct l].
Qed.

(** [next], on an array that is not empty. *)
Lemma next_spec A xs :
  xs ≠ [] → Z.of_nat (length xs) < 2 ^ 31 →
  {{ array 4 A xs }} next A (Z.of_nat (length xs))
  {{ b, ∃ ys, ⌜if b : bool then successor xs ys else ys = xs ∧ maximal xs⌝ ∗ array 4 A ys }}.
Proof.
  intros Hne Hlen. destruct xs as [|z q _] using rev_ind; [done|]. triple_start. iIntros "H". unfold next. cbv zeta.
  rewrite Nat2Z.id. remember (S (length (q ++ [z]))) as n eqn:Hn.
  rewrite length_app /= in Hlen Hn |- *.
  wp_focus. iApply wp_signed; [split; lia|].
  replace (Z.of_nat (length q + 1) - 1) with (Z.of_nat (length q)) by lia. wp_focus.
  iApply (wp_wand with "[H]").
  { iApply (descent_loop_spec _ A q [z] with "H"); [lia|rewrite length_app /=; lia|repeat constructor|done]. }
  iIntros (i) "(%q' & %s & (%E & -> & %Hs & %Hsne & %Hq) & H)". rewrite E.
  destruct Hq as [->|(p & x & y0 & t & -> & -> & Hxy)].
  { simpl. wp_rets. iExists s. iFrame. iPureIntro. split; [done|]. by apply descending_maximal. }
  assert (length q = length p + S (length t))%nat as Hlq.
  { apply (f_equal length) in E. rewrite !length_app /= in E. lia. }
  rewrite (proj2 (Z.leb_gt _ _)); [|rewrite length_app /=; lia]. wp_focus.
  iApply wp_signed; [split; lia|]. wp_focus. rewrite -app_assoc /=.
  replace (Z.of_nat (length (p ++ [x]))) with (Z.of_nat (length p) + 1) by (rewrite length_app /=; lia).
  replace (Z.of_nat (length q)) with (Z.of_nat (length p + length (y0 :: t))) by (simpl; lia).
  iApply (wp_wand with "[H]").
  { iApply (pivot_loop_spec _ A p x (y0 :: t) []); [simpl; lia|rewrite length_app /= app_nil_r; lia|constructor| |].
    - by exists y0, t.
    - by rewrite app_nil_r. }
  iIntros (j) "(%s1 & %y & %s2 & (%Et & -> & %Hy & %Hs2) & H)". rewrite app_nil_r in Et.
  rewrite app_nil_r Et. assert (length t = length s1 + length s2)%nat as Hlt.
  { apply (f_equal length) in Et. rewrite !length_app /= in Et. lia. }
  wp_focus. iApply wp_signed; [split; lia|].
  replace (Z.of_nat (length p) + 1 - 1) with (Z.of_nat (length p)) by lia.
  wp_focus. iApply (wp_mid_load with "H"); [done|]. iIntros "H". wp_focus.
  replace (p ++ x :: s1 ++ y :: s2) with ((p ++ x :: s1) ++ y :: s2) by by rewrite -app_assoc.
  iApply (wp_mid_load with "H"); [rewrite length_app /=; lia|]. iIntros "H". wp_focus.
  rewrite -app_assoc /=. iApply (wp_mid_store with "H"); [done|]. iIntros "H". wp_focus.
  replace (p ++ y :: s1 ++ y :: s2) with ((p ++ y :: s1) ++ y :: s2) by by rewrite -app_assoc.
  iApply (wp_mid_store with "H"); [rewrite length_app /=; lia|]. iIntros "H". wp_focus.
  iApply wp_signed; [rewrite length_app /=; split; lia|]. wp_focus.
  replace ((p ++ y :: s1) ++ x :: s2) with ((p ++ [y]) ++ (s1 ++ x :: s2) ++ [])
    by by rewrite app_nil_r -!app_assoc.
  destruct n as [|n]; [lia|]. iApply (wp_wand with "[H]").
  { replace (Z.of_nat (length p) + 1) with (Z.of_nat (length (p ++ [y]))) by (rewrite length_app /=; lia).
    replace (Z.of_nat (length p + length (s1 ++ y :: s2))) with
      (Z.of_nat (length (p ++ [y]) + length (s1 ++ x :: s2)) - 1) by (rewrite !length_app /=; lia).
    iApply (reverse_range_spec with "H"); [rewrite length_app /=; lia|rewrite !length_app /=; lia|].
    by destruct p. }
  iIntros (_) "H". wp_rets. rewrite app_nil_r -app_assoc /=. iExists _. iFrame. iPureIntro.
  apply next_is_successor; [by rewrite -Et|done|done].
Qed.
End specs.

(** ** All permutations *)

(** A list of arrays. *)
Fixpoint list_at (l : Z) (ps : list (list Z)) : hPropI :=
  match ps with
  | [] => ⌜l = NULL⌝
  | p :: ps => ∃ h t, l ↦ h ∗ (l + 8) ↦ t ∗ array 4 h p ∗ list_at t ps
  end%I.

(** What the file says of the functions it declares. *)
Class PermutSpec `{!PermutDeps} := {
  list_new_spec : {{ True }} list_new {{ v, list_at v [] }};
  list_snoc_spec l v ps a p :
    {{ l ↦ v ∗ list_at v ps ∗ array 4 a p }} list_snoc l a
    {{ _, ∃ v', l ↦ v' ∗ list_at v' (ps ++ [p]) }};
  sort_spec A xs :
    {{ array 4 A xs }} sort A (Z.of_nat (length xs))
    {{ _, ∃ ys, ⌜xs ≡ₚ ys ∧ StronglySorted Z.le ys⌝ ∗ array 4 A ys }};
  copy_array_spec A xs :
    {{ array 4 A xs }} copy_array A (Z.of_nat (length xs)) {{ r, array 4 A xs ∗ array 4 r xs }};
}.

Lemma interleave_length {X} (x : X) (l : list X) : length (interleave x l) = S (length l).
Proof. induction l as [|y l IH]; simpl; [done|]. by rewrite length_fmap IH. Qed.

Lemma permutations_length {X} (l : list X) : length (permutations l) = fact (length l).
Proof.
  induction l as [|x l IH]; [done|].
  assert (∀ ls, Forall (λ k, length k = length l) ls →
    length (ls ≫= interleave x) = (length ls * S (length l))%nat) as Hb.
  { induction 1 as [|k ls Hk _ IHls]; [done|].
    change ((k :: ls) ≫= interleave x) with (interleave x k ++ (ls ≫= interleave x)).
    rewrite length_app interleave_length IHls Hk /=. lia. }
  change (permutations (x :: l)) with (permutations l ≫= interleave x).
  rewrite Hb; [rewrite IH /=; lia|]. apply Forall_forall. intros k Hk%permutations_Permutation.
  by rewrite Hk.
Qed.

(** The permutations found so far: the last of them is in the array, and every
    permutation that is missing comes after it. *)
Record collected (xs : list Z) (ps : list (list Z)) (cur : list Z) : Prop := {
  col_last : ∃ ps', ps = ps' ++ [cur];
  col_sorted : StronglySorted lex ps;
  col_perm ys : ys ∈ ps → xs ≡ₚ ys;
  col_all ys : xs ≡ₚ ys → ys ∈ ps ∨ lex cur ys;
}.

Lemma sorted_nodup ps : StronglySorted lex ps → NoDup ps.
Proof.
  induction 1 as [|p ps _ IH Hp]; constructor; [|done]. intros Hin. rewrite Forall_forall in Hp.
  by apply (lex_irrefl p), Hp.
Qed.

Lemma collected_length xs ps cur : collected xs ps cur → (length ps ≤ fact (length xs))%nat.
Proof.
  intros Hc. rewrite -permutations_length. apply submseteq_length, NoDup_submseteq.
  - apply sorted_nodup, Hc.
  - intros ys Hys. apply permutations_Permutation. by apply (col_perm _ _ _ Hc).
Qed.

Lemma collected_first xs cur : xs ≡ₚ cur → ascending cur → collected xs [cur] cur.
Proof.
  intros Hp Ha. split; [by exists []|repeat constructor|by intros ys ->%list_elem_of_singleton|].
  intros ys Hys. destruct (lex_total cur ys) as [->|[?|Hlt]]; [by rewrite -Hp Hys|left; by left|by right|].
  exfalso. eapply ascending_minimal; [done| |done]. by rewrite -Hp.
Qed.

Lemma collected_next xs ps cur ys :
  collected xs ps cur → successor cur ys → collected xs (ps ++ [ys]) ys.
Proof.
  intros [[ps' ->] Hs Hp Ha] (Hys & Hlex & Hnext).
  assert (xs ≡ₚ cur) as Hcur by (apply Hp, elem_of_app; right; by left).
  split; [by eexists| | |].
  - apply StronglySorted_app. split_and!; [|done|repeat constructor].
    intros p q Hin ->%list_elem_of_singleton. apply elem_of_app in Hin as [Hin|Hin%list_elem_of_singleton].
    + eapply lex_trans; [|done]. apply (StronglySorted_app_1_elem_of _ _ _ _ _ Hs Hin). by left.
    + by subst.
  - intros zs [Hin|Hin%list_elem_of_singleton]%elem_of_app; [by apply Hp|subst]. by rewrite Hcur.
  - intros zs Hz. destruct (Ha zs Hz) as [?|Hlt]; [left; apply elem_of_app; by left|].
    destruct (decide (zs = ys)) as [->|Hne]; [left; apply elem_of_app; right; by left|right].
    apply Hnext; [by rewrite -Hcur|done|done].
Qed.

Lemma collected_all xs ps cur :
  collected xs ps cur → maximal cur → ∀ ys, ys ∈ ps ↔ xs ≡ₚ ys.
Proof.
  intros Hc Hm ys. split; [apply (col_perm _ _ _ Hc)|]. intros Hys.
  destruct (col_all _ _ _ Hc ys Hys) as [?|Hlex]; [done|]. destruct (Hm ys); [|done].
  rewrite -Hys. symmetry. apply (col_perm _ _ _ Hc). destruct (col_last _ _ _ Hc) as [ps' ->].
  apply elem_of_app. right. by left.
Qed.

Section permut.
Context `{!PermutDeps, !PermutSpec}.

Lemma permut_loop_spec n A xs l ps cur :
  collected xs ps cur → xs ≠ [] → Z.of_nat (length xs) < 2 ^ 31 →
  (n + length ps = S (fact (length xs)))%nat →
  {{ array 4 A cur ∗ ∃ v, l ↦ v ∗ list_at v ps }} permut_loop n A (Z.of_nat (length xs)) l
  {{ _, ∃ ps' cur', ⌜collected xs ps' cur' ∧ maximal cur'⌝ ∗
     array 4 A cur' ∗ ∃ v, l ↦ v ∗ list_at v ps' }}.
Proof.
  revert ps cur. induction n as [|n IH]; intros ps cur Hc Hne Hlen Hn;
    pose proof (collected_length _ _ _ Hc) as Hl; [lia|].
  assert (xs ≡ₚ cur) as Hp.
  { apply (col_perm _ _ _ Hc). destruct (col_last _ _ _ Hc) as [ps' ->]. apply elem_of_app. right. by left. }
  triple_start. iIntros "[HA (%v & Hl & Hps)]". cbn [permut_loop]. wp_focus.
  iApply (wp_wand with "[HA]").
  { rewrite {1}Hp. iApply (next_spec with "HA"); [|by rewrite -Hp].
    intros ->. by apply Permutation_nil_r in Hp. }
  iIntros (b) "(%ys & %Hb & HA)". destruct b; last first.
  { destruct Hb as [-> Hm]. wp_rets. iExists ps, cur. iFrame. done. }
  assert (length xs = length ys) as Hly by by rewrite Hp (proj1 Hb).
  rewrite Hly. wp_call (copy_array_spec A ys) with "HA". iIntros (copy) "[HA Hcopy]".
  wp_call (list_snoc_spec l v ps copy ys) with "[$Hl $Hps $Hcopy]". iIntros (_) "(%v' & Hl & Hps)".
  rewrite -Hly. iApply (IH (ps ++ [ys]) ys with "[$HA Hl Hps]");
    [by eapply collected_next|done|done|rewrite length_app /=; lia|]. iExists v'. iFrame.
Qed.
End permut.

(** C14. [next] turns an array into the next of its permutations in
    lexicographic order and answers true, or leaves the array, the last of its
    permutations, alone and answers false. The array must not be empty. *)
Theorem next_lexicographic_successor A xs :
  xs ≠ [] → Z.of_nat (length xs) < 2 ^ 31 →
  {{ array 4 A xs }} next A (Z.of_nat (length xs))
  {{ b, ∃ ys, ⌜if b : bool then successor xs ys else ys = xs ∧ maximal xs⌝ ∗ array 4 A ys }}.
Proof. apply next_spec. Qed.

(** C13. [permut] returns all permutations of the array, each of them once and
    in ascending lexicographic order (none for an empty array), and ends.
    [malloc] is assumed to succeed ([AllocatorTotal]). *)
Theorem permut_enumerates_permutations `{!Allocator, !AllocatorTotal, !PermutDeps, !PermutSpec} A xs :
  Z.of_nat (length xs) < 2 ^ 31 →
  {{ array 4 A xs }} permut A (Z.of_nat (length xs))
  {{ v, ∃ ps cur, ⌜StronglySorted lex ps ∧ ∀ ys, ys ∈ ps ↔ xs ≠ [] ∧ xs ≡ₚ ys⌝ ∗
     list_at v ps ∗ array 4 A cur }}.
Proof.
  intros Hlen. triple_start. iIntros "HA". unfold permut.
  iApply wp_with_pointer. iIntros (l) "[% Hl]".
  wp_call list_new_spec with "[//]". iIntros (v) "Hv". wp_store.
  destruct (Z.eqb_spec (Z.of_nat (length xs)) 0) as [Hz|Hz].
  { destruct xs; [|done]. wp_load. iSplitL "Hl"; [by iExists _|].
    iExists [], []. iFrame. iPureIntro. split; [constructor|]. set_solver. }
  rewrite Nat2Z.id. wp_call (sort_spec A xs) with "HA". iIntros (_) "(%cur & [%Hp %Ha] & HA)".
  assert (copy_array A (Z.of_nat (length xs)) = copy_array A (Z.of_nat (length cur))) as -> by by rewrite Hp.
  wp_call (copy_array_spec A cur) with "HA". iIntros (copy) "[HA Hcopy]".
  wp_call (list_snoc_spec l v [] copy cur) with "[$Hl $Hv $Hcopy]". iIntros (_) "(%v' & Hl & Hps)".
  assert (xs ≠ []) as Hne by (intros ->; done).
  wp_focus. iApply (wp_wand with "[HA Hl Hps]").
  { iApply (permut_loop_spec _ A xs l [cur] cur with "[$HA Hl Hps]");
      [by apply collected_first|done|done|simpl; lia|]. iExists v'. iFrame. }
  iIntros (_) "(%ps & %cur' & [%Hc %Hm] & HA & %v2 & Hl & Hps)". wp_load.
  iSplitL "Hl"; [by iExists _|]. iExists ps, cur'. iFrame. iPureIntro.
  split; [apply Hc|]. intros ys. rewrite (collected_all _ _ _ Hc Hm). naive_solver.
Qed.

(** ** Witnesses *)

Lemma next_lexicographic_successor_witness :
  {{ array 4 64 [1; 3; 2] }} next 64 3
  {{ b, ∃ ys, ⌜if b : bool then successor [1; 3; 2] ys else ys = [1; 3; 2] ∧ maximal [1; 3; 2]⌝ ∗
     array 4 64 ys }}.
Proof. apply (next_lexicographic_successor 64 [1; 3; 2]); [done|simpl; lia]. Defined.

(** An implementation of the functions the file only declares. *)
Section deps.
Context `{!Allocator, !AllocatorTotal}.

Fixpoint read_array (A : Z) (n : nat) : M heap (list Z) :=
  match n with
  | O => mret []
  | S n => x ← load A; xs ← read_array (A + 4) n; mret (x :: xs)
  end.
Fixpoint write_array (A : Z) (xs : list Z) : M heap unit :=
  match xs with
  | [] => mret tt
  | x :: xs => store A x ;; write_array (A + 4) xs
  end.
Definition node_layout : layout := Layout 16 [0; 8].
Fixpoint snoc_loop (n : nat) (l a : Z) : M heap unit :=
  match n with
  | O => fail OutOfFuel
  | S n =>
      p ← load l;
      if p =? NULL then
        q ← xmalloc node_layout;
        store (q + 0) a ;;
        store (q + 8) NULL ;;
        store l (q + 0)
      else snoc_loop n (p + 8) a
  end.

Definition simple_deps : PermutDeps := {|
  list_new := mret NULL;
  list_snoc l a := with_fuel (λ n, snoc_loop n l a);
  sort A n := xs ← read_array A (Z.to_nat n); write_array A (merge_sort Z.le xs);
  copy_array A n :=
    xs ← read_array A (Z.to_nat n);
    r ← xmalloc (array_layout 4 (Z.to_nat n));
    write_array r xs ;;
    mret r;
|}.

Lemma array_cons A x xs : array 4 A (x :: xs) ⊣⊢ A ↦ x ∗ array 4 (A + 4) xs.
Proof. apply oarray_cons. Qed.

Lemma read_array_spec A xs :
  {{ array 4 A xs }} read_array A (length xs) {{ r, ⌜r = xs⌝ ∗ array 4 A xs }}.
Proof.
  revert A. induction xs as [|x xs IH]; intros A; triple_start; iIntros "H"; cbn [read_array length].
  { wp_rets. by iFrame. }
  iDestruct (array_cons with "H") as "[Hx H]". wp_load.
  wp_call (IH (A + 4)) with "H". iIntros (r) "[-> H]". wp_rets. rewrite array_cons. by iFrame.
Qed.

Lemma write_array_spec A xs n :
  n = length xs → {{ slots 4 A n }} write_array A xs {{ _, array 4 A xs }}.
Proof.
  intros ->. revert A. induction xs as [|x xs IH]; intros A; triple_start; iIntros "H"; cbn [write_array length].
  { wp_rets. by rewrite /array /oarray. }
  iDestruct (slots_cons with "H") as "[[% Hx] H]". wp_store. wp_call (IH (A + 4)) with "H".
  iIntros (_) "H". rewrite array_cons. iFrame.
Qed.

Lemma array_slots A xs : array 4 A xs ⊢ slots 4 A (length xs).
Proof. iIntros "H". iExists (Some <$> xs). iFrame. by rewrite length_fmap. Qed.

Lemma snoc_loop_spec n l v ps a p :
  (length ps < n)%nat →
  {{ l ↦ v ∗ list_at v ps ∗ array 4 a p }} snoc_loop n l a
  {{ _, ∃ v', l ↦ v' ∗ list_at v' (ps ++ [p]) }}.
Proof.
  revert n l v. induction ps as [|q ps IH]; intros [|n] l v Hn; simpl in Hn; try lia; triple_start;
    iIntros "(Hl & Hv & Ha)"; cbn [snoc_loop list_at app].
  - iDestruct "Hv" as %->. wp_load. wp_focus.
    iApply wp_xmalloc; [split; simpl; repeat constructor; set_solver by lia|].
    iIntros (q _) "([% H0] & [% H8] & _)". wp_store. wp_store. wp_store. rewrite !Z.add_0_r.
    iExists q. iFrame "Hl". iExists a, NULL. by iFrame.
  - iDestruct "Hv" as (h t) "(Hh & Ht & Hq & Hps)".
    iDestruct (pointsto_not_null with "Hh") as %Hnn. wp_load. rewrite (proj2 (Z.eqb_neq v NULL)) //.
    iApply (wp_wand with "[Ht Hps Ha]"); [by iApply (IH n with "[$Ht $Hps $Ha]"); lia|].
    iIntros (_) "(%v' & Ht & Hps)". iExists v. iFrame.
Qed.

Lemma collected_cells v ps : list_at v ps ⊢ at_least (length ps).
Proof.
  revert v. induction ps as [|p ps IH]; intros v; simpl; [iIntros "_"; iApply at_least_0|].
  iIntros "(%h & %t & Hh & _ & _ & H)". iApply (at_least_add 1). iSplitL "Hh"; [by iApply at_least_cell|].
  by iApply IH.
Qed.

Lemma simple_deps_spec : @PermutSpec simple_deps.
Proof.
  split; simpl.
  - triple_start. iIntros "_". by wp_ret.
  - intros l v ps a p. apply (triple_with_fuel (length ps)).
    + iIntros "(_ & H & _)". iApply (collected_cells with "H").
    + intros n Hn. by apply snoc_loop_spec.
  - intros A xs. rewrite Nat2Z.id. triple_start. iIntros "H".
    wp_call (read_array_spec A xs) with "H". iIntros (r) "[-> H]". rewrite array_slots.
    iApply (wp_wand with "[H]"); [iApply (write_array_spec with "H"); by rewrite merge_sort_Permutation|].
    iIntros (_) "H". iExists _. iFrame. iPureIntro.
    split; [by rewrite merge_sort_Permutation|apply (StronglySorted_merge_sort Z.le xs)].
  - intros A xs. rewrite Nat2Z.id. triple_start. iIntros "H".
    wp_call (read_array_spec A xs) with "H". iIntros (r) "[-> H]". wp_focus.
    iApply wp_xmalloc; [by apply array_layout_wf|]. iIntros (q _) "Hq". rewrite block_slots.
    wp_call (write_array_spec q xs (length xs) eq_refl) with "Hq". iIntros (_) "Hq". wp_rets. iFrame.
Qed.
End deps.

Lemma permut_enumerates_permutations_witness :
  let _ := bump_allocator in let _ := @simple_deps bump_allocator in
  {{ array 4 64 [2; 1; 2] }} permut 64 3
  {{ v, ∃ ps cur, ⌜StronglySorted lex ps ∧ ∀ ys, ys ∈ ps ↔ [2; 1; 2] ≠ [] ∧ [2; 1; 2] ≡ₚ ys⌝ ∗
     list_at v ps ∗ array 4 64 cur }}.
Proof.
  intros a d. pose proof bump_allocator_total. pose proof (simple_deps_spec (H := a)).
  apply (permut_enumerates_permutations 64 [2; 1; 2]). simpl. lia.
Defined.

End NextPerm.
