(* ===== verification/ListToTree.v ===== *)
(** * A list turned into a balanced tree (src/examples/VerifyThis2021/challenge2.c)

    The nodes of a doubly linked list are relinked, in place, into a binary tree
    with the same elements in order; the list needs no more nodes than it has
    and the tree has the least height possible. *)
From S2P Require Import Prelude HeapLogic.
From stdpp Require Import gmap list sorting.
From iris.proofmode Require Import proofmode.
#[local] Open Scope Z_scope.

Module ListToTree.

(** ** The code *)

(** Members of [struct Node]. *)
Definition data (p : Z) : Z := p.
Definition prev (p : Z) : Z := p + 8.
Definition next (p : Z) : Z := p + 16.
Arguments data : simpl never.
Arguments prev : simpl never.
Arguments next : simpl never.

Fixpoint size_rec_ (n : nat) (head : Z) : M heap Z :=
  match n with
  | O => fail OutOfFuel
  | S n =>
      if head =? NULL then mret 0 else
      t ← load (next head);
      r ← size_rec_ n t;
      mret (u64 (r + 1))
  end.
Definition size_rec (head : Z) : M heap Z := with_fuel (λ n, size_rec_ n head).

Fixpoint size_loop (n : nat) (head len : Z) : M heap Z :=
  match n with
  | O => fail OutOfFuel
  | S n =>
      if head =? NULL then mret len else
      head ← load (next head);
      size_loop n head (u64 (len + 1))
  end.
Definition size_iter (head : Z) : M heap Z := with_fuel (λ n, size_loop n head 0).

(** [#define size size_iter] *)
Definition size : Z → M heap Z := size_iter.

(** Both recursive calls are for fewer nodes: [m] bounds their number. *)
Fixpoint dll_to_bst_rec_ `{!Allocator} (m : nat) (head right n : Z) : M heap Z :=
  match m with
  | O => fail OutOfFuel
  | S m =>
      if n =? 0 then store right head ;; mret NULL else
      with_local ptr_layout (λ root,
        left ← dll_to_bst_rec_ m head root (n / 2);
        r ← load root;
        store (prev r) left ;;
        r ← load root;
        t ← load (next r);
        temp ← dll_to_bst_rec_ m t right (u64 (u64 (n - n / 2) - 1));
        r ← load root;
        store (next r) temp ;;
        load root)
  end.
Definition dll_to_bst_rec `{!Allocator} (head right n : Z) : M heap Z :=
  dll_to_bst_rec_ (S (Z.to_nat n)) head right n.

Definition dll_to_bst `{!Allocator} (head : Z) : M heap Z :=
  n ← size head;
  with_local ptr_layout (λ right, dll_to_bst_rec head right n).

(** ** Lists and trees *)

(** The list as the code reads it: links backwards are not looked at. *)
Fixpoint list_at (p : Z) (xs : list Z) : hPropI :=
  match xs with
  | [] => ⌜p = NULL⌝
  | x :: xs => ∃ q, data p ↦ x ∗ prev p ↦? ∗ next p ↦ q ∗ list_at q xs
  end%I.

Inductive tree :=
  | Empty
  | Node (l : tree) (x : Z) (r : tree).

Fixpoint tree_at (p : Z) (t : tree) : hPropI :=
  match t with
  | Empty => ⌜p = NULL⌝
  | Node l x r => ∃ pl pr, data p ↦ x ∗ prev p ↦ pl ∗ next p ↦ pr ∗ tree_at pl l ∗ tree_at pr r
  end%I.

Fixpoint inorder (t : tree) : list Z :=
  match t with
  | Empty => []
  | Node l x r => inorder l ++ x :: inorder r
  end.

Fixpoint height (t : tree) : nat :=
  match t with
  | Empty => 0
  | Node l _ r => S (max (height l) (height r))
  end.

(** The members of a search tree are on the side of every node their order
    asks for. *)
Fixpoint search_tree (t : tree) : Prop :=
  match t with
  | Empty => True
  | Node l x r =>
      search_tree l ∧ search_tree r ∧
      Forall (λ y, y ≤ x) (inorder l) ∧ Forall (λ y, x ≤ y) (inorder r)
  end.

(** The least height of a tree with [n] nodes. *)
Definition min_height (n : nat) : nat := match n with O => 0 | S _ => S (Nat.log2 n) end.

Lemma min_height_half (n : nat) :
  n ≠ 0%nat → S (max (min_height (n / 2)) (min_height (n - n / 2 - 1))) = min_height n.
Proof.
  intros Hn. assert (n - n / 2 - 1 ≤ n / 2)%nat as Hle.
  { pose proof (Nat.div_mod n 2). pose proof (Nat.mod_upper_bound n 2). lia. }
  assert (∀ a b : nat, a ≤ b → min_height a ≤ min_height b)%nat as Hmono.
  { intros [|a] [|b] ?; simpl; try lia. pose proof (Nat.log2_le_mono (S a) (S b)). lia. }
  rewrite Nat.max_l; [|by apply Hmono]. destruct n as [|[|n]]; [done|done|].
  pose proof (Nat.div_mod (S (S n)) 2 ltac:(lia)) as Hdm.
  pose proof (Nat.mod_upper_bound (S (S n)) 2 ltac:(lia)) as Hub.
  destruct (S (S n) / 2)%nat as [|k] eqn:E; [lia|]. unfold min_height. f_equal. symmetry.
  pose proof (Nat.log2_spec (S k) ltac:(lia)) as Hk. apply Nat.log2_unique; [lia|].
  rewrite (Nat.pow_succ_r' 2 (S (Nat.log2 (S k)))) (Nat.pow_succ_r' 2 (Nat.log2 (S k))).
  rewrite Nat.pow_succ_r' in Hk. lia.
Qed.

(** A tree has no more nodes than its height allows. *)
Lemma height_bound t : (length (inorder t) < 2 ^ height t)%nat.
Proof.
  induction t as [|l IHl x r IHr]; simpl; [lia|]. rewrite length_app /=.
  pose proof (Nat.pow_le_mono_r 2 (height l) (max (height l) (height r))).
  pose proof (Nat.pow_le_mono_r 2 (height r) (max (height l) (height r))). lia.
Qed.

Lemma search_tree_inorder t : StronglySorted Z.le (inorder t) → search_tree t.
Proof.
  induction t as [|l IHl x r IHr]; simpl; [done|]. intros (H1 & H2 & H3)%StronglySorted_app.
  apply StronglySorted_inv in H3 as [H3 H4]. split_and!; [by apply IHl|by apply IHr| |done].
  apply Forall_forall. intros y Hy. apply H1; [done|by left].
Qed.

(** ** Specifications *)

Lemma dll_cells p xs : list_at p xs ⊢ at_least (length xs).
Proof.
  revert p. induction xs as [|x xs IH]; intros p; simpl; [iIntros "_"; iApply at_least_0|].
  iIntros "(%q & Hx & _ & _ & H)". iApply (at_least_add 1).
  iSplitL "Hx"; [by iApply at_least_cell|by iApply IH].
Qed.

Lemma size_rec_spec_ n p xs :
  (length xs < n)%nat → Z.of_nat (length xs) < 2 ^ 64 →
  {{ list_at p xs }} size_rec_ n p {{ r, ⌜r = Z.of_nat (length xs)⌝ ∗ list_at p xs }}.
Proof.
  revert n p. induction xs as [|x xs IH]; intros [|n] p Hn Hlen; simpl in Hn, Hlen; try lia; triple_start;
    iIntros "H"; cbn [size_rec_ list_at length].
  { iDestruct "H" as %->. wp_rets. by iFrame. }
  iDestruct "H" as (q) "(Hx & Hp & Hq & H)". iDestruct (pointsto_not_null with "Hx") as %Hnn.
  rewrite (proj2 (Z.eqb_neq p NULL)) //. wp_load.
  wp_call (IH n q ltac:(lia) ltac:(lia)) with "H". iIntros (r) "[-> H]". wp_rets.
  iSplit; [iPureIntro; rewrite wrap_small; [lia|split; lia]|]. iExists q. iFrame.
Qed.

Lemma size_loop_spec n p xs len :
  (length xs < n)%nat → 0 ≤ len → len + Z.of_nat (length xs) < 2 ^ 64 →
  {{ list_at p xs }} size_loop n p len {{ r, ⌜r = (len + Z.of_nat (length xs))%Z⌝ ∗ list_at p xs }}.
Proof.
  revert n p len. induction xs as [|x xs IH]; intros [|n] p len Hn H0 Hlen; simpl in Hn, Hlen; try lia;
    triple_start; iIntros "H"; cbn [size_loop list_at length].
  { iDestruct "H" as %->. wp_rets. iPureIntro. split; [lia|done]. }
  iDestruct "H" as (q) "(Hx & Hp & Hq & H)". iDestruct (pointsto_not_null with "Hx") as %Hnn.
  rewrite (proj2 (Z.eqb_neq p NULL)) //. wp_load. rewrite wrap_small; [|split; lia].
  iApply (wp_wand with "[H]"); [iApply (IH n q (len + 1) with "H"); lia|].
  iIntros (r) "[-> H]". iSplit; [iPureIntro; lia|]. iExists q. iFrame.
Qed.

Lemma size_iter_spec p xs :
  Z.of_nat (length xs) < 2 ^ 64 →
  {{ list_at p xs }} size_iter p {{ r, ⌜r = Z.of_nat (length xs)⌝ ∗ list_at p xs }}.
Proof.
  intros Hlen. apply (triple_with_fuel (length xs)); [apply dll_cells|].
  intros n Hn. by apply (size_loop_spec n p xs 0).
Qed.

Section relink.
Context `{!Allocator, !AllocatorTotal}.

Lemma dll_to_bst_rec_spec_ m p right xs (n : nat) :
  (n < m)%nat → (n ≤ length xs)%nat → Z.of_nat n < 2 ^ 64 →
  {{ list_at p xs ∗ right ↦? }} dll_to_bst_rec_ m p right (Z.of_nat n)
  {{ r, ∃ t rest, ⌜xs = inorder t ++ rest ∧ length (inorder t) = n ∧ height t = min_height n⌝ ∗
     tree_at r t ∗ ∃ q, right ↦ q ∗ list_at q rest }}.
Proof.
  revert p right xs n. induction m as [|m IH]; intros p right xs n Hm Hn Hr; [lia|]. triple_start.
  iIntros "[H [% Hright]]". cbn [dll_to_bst_rec_]. destruct (Z.eqb_spec (Z.of_nat n) 0) as [Hz|Hz].
  { wp_store. assert (n = 0%nat) as -> by lia. iExists Empty, xs. iSplit; [done|]. iSplit; [done|].
    iExists p. iFrame. }
  iApply wp_with_pointer. iIntros (root) "Hroot".
  pose proof (Nat.div_mod n 2 ltac:(lia)) as Hdm. pose proof (Nat.mod_upper_bound n 2 ltac:(lia)) as Hub.
  replace (Z.of_nat n / 2) with (Z.of_nat (n / 2)) by by rewrite Nat2Z.inj_div.
  rewrite (wrap_small 64 (Z.of_nat n - Z.of_nat (n / 2))); [|split; lia].
  rewrite wrap_small; [|split; lia].
  replace (Z.of_nat n - Z.of_nat (n / 2) - 1) with (Z.of_nat (n - n / 2 - 1)) by lia.
  wp_focus. iApply (wp_wand with "[H Hroot]").
  { iApply (IH p root xs (n / 2)%nat with "[$H $Hroot]"); lia. }
  iIntros (pl) "(%l & %rest & (-> & %Hll & %Hhl) & Hl & %q & Hroot & H)".
  rewrite length_app Hll in Hn. destruct rest as [|x rest]; cbn [length] in Hn; [lia|].
  iDestruct "H" as (nx) "(Hx & [% Hp] & Hnx & H)".
  wp_load. wp_store. wp_load. wp_load. wp_focus. iApply (wp_wand with "[H Hright]").
  { iApply (IH nx right rest (n - n / 2 - 1)%nat with "[$H Hright]"); [lia|lia|lia|by iExists _]. }
  iIntros (pr) "(%t & %rest2 & (-> & %Hlr & %Hhr) & Ht & Hright)". wp_load. wp_store. wp_load.
  iSplitL "Hroot"; [by iExists _|]. iExists (Node l x t), rest2. iFrame "Hright". iSplit.
  - iPureIntro. cbn [inorder height]. rewrite -app_assoc length_app Hll Hhl Hhr. cbn [length]. rewrite Hlr.
    split_and!; [done|lia|]. apply min_height_half. lia.
  - iExists pl, pr. iFrame.
Qed.

(** C15. [dll_to_bst] relinks the nodes of any list, in place, into a tree with
    the same elements in order, of the least height a tree with that many nodes
    can have; of an ascending list it makes a search tree. Both ways to measure
    the list agree. There is assumed to be storage for the local variables
    ([AllocatorTotal]). *)
Theorem dll_to_bst_balanced p xs :
  Z.of_nat (length xs) < 2 ^ 64 →
  ({{ list_at p xs }} dll_to_bst p
   {{ r, ∃ t, ⌜inorder t = xs ∧ (StronglySorted Z.le xs → search_tree t) ∧
      ∀ t', inorder t' = xs → (height t ≤ height t')%nat⌝ ∗ tree_at r t }}) ∧
  ({{ list_at p xs }} size_rec p {{ r, ⌜r = Z.of_nat (length xs)⌝ ∗ list_at p xs }}) ∧
  ({{ list_at p xs }} size_iter p {{ r, ⌜r = Z.of_nat (length xs)⌝ ∗ list_at p xs }}).
Proof.
  intros Hlen. split_and!; [|apply (triple_with_fuel (length xs)); [apply dll_cells|];
    intros n Hn; by apply size_rec_spec_|by apply size_iter_spec].
  triple_start. iIntros "H". unfold dll_to_bst, size.
  wp_call (size_iter_spec p xs Hlen) with "H". iIntros (n) "[-> H]".
  iApply wp_with_pointer. iIntros (right) "Hright". unfold dll_to_bst_rec. rewrite Nat2Z.id.
  iApply (wp_wand with "[H Hright]").
  { iApply (dll_to_bst_rec_spec_ _ p right xs with "[$H $Hright]"); lia. }
  iIntros (r) "(%t & %rest & (%E & %Hl & %Hh) & Ht & %q & Hright & _)".
  iSplitL "Hright"; [by iExists _|]. iExists t. iFrame. iPureIntro.
  assert (inorder t = xs) as Hxs.
  { rewrite E in Hl. rewrite length_app in Hl. destruct rest; [by rewrite app_nil_r in E|simpl in Hl; lia]. }
  split_and!; [done|intros Hs; apply search_tree_inorder; by rewrite Hxs|].
  intros t' Ht'. rewrite Hh. pose proof (height_bound t') as Hb. rewrite Ht' in Hb.
  destruct xs as [|x xs]; [simpl; lia|]. unfold min_height.
  change (match length (x :: xs) with 0 => 0 | S _ => S (Nat.log2 (length (x :: xs))) end)%nat
    with (S (Nat.log2 (length (x :: xs)))).
  apply Nat.log2_lt_pow2 in Hb; [lia|simpl; lia].
Qed.
End relink.

Lemma dll_to_bst_balanced_witness : let _ := bump_allocator in
  ({{ list_at 64 [1; 2; 3] }} dll_to_bst 64
   {{ r, ∃ t, ⌜inorder t = [1; 2; 3] ∧ (StronglySorted Z.le [1; 2; 3] → search_tree t) ∧
      ∀ t', inorder t' = [1; 2; 3] → (height t ≤ height t')%nat⌝ ∗ tree_at r t }}) ∧
  ({{ list_at 64 [1; 2; 3] }} size_rec 64 {{ r, ⌜r = 3⌝ ∗ list_at 64 [1; 2; 3] }}) ∧
  ({{ list_at 64 [1; 2; 3] }} size_iter 64 {{ r, ⌜r = 3⌝ ∗ list_at 64 [1; 2; 3] }}).
Proof.
  intros a. pose proof bump_allocator_total. apply (dll_to_bst_balanced 64 [1; 2; 3]). simpl. lia.
Defined.

End ListToTree.
