(* ===== verification/Queue.v ===== *)
(** * A FIFO queue with a tail pointer (src/examples/queue.c)

    The last link of the queue is a cell of its own that [tail] points to:
    [head] of an empty queue, [next] of the last element otherwise.  Every
    script of calls behaves as on a sequence; [is_empty] answers the opposite of
    its name. *)
From S2P Require Import Prelude HeapLogic.
From stdpp Require Import gmap list.
From iris.proofmode Require Import proofmode.
#[local] Open Scope Z_scope.

Module Queue.

(** ** The code *)

(** Members of [struct queue_elem] and of [struct queue]. *)
Definition elem (e : Z) : Z := e + 0.
Definition next (e : Z) : Z := e + 8.
Definition head (q : Z) : Z := q + 0.
Definition tail (q : Z) : Z := q + 8.
Definition queue_elem_layout : layout := Layout 16 [0; 8].
Definition queue_layout : layout := Layout 16 [0; 8].
Arguments elem : simpl never.
Arguments next : simpl never.
Arguments head : simpl never.
Arguments tail : simpl never.

Section code.
Context `{!Allocator}.

Definition init_queue : M heap Z :=
  queue ← xmalloc queue_layout;
  store (head queue) NULL ;;
  store (tail queue) (head queue) ;;
  mret queue.

Definition is_empty (q : Z) : M heap bool :=
  p ← load q;
  h ← load (head p);
  mret (negb (h =? NULL)).

Definition enqueue (q v : Z) : M heap unit :=
  e ← xmalloc queue_elem_layout;
  store (elem e) v ;;
  store (next e) NULL ;;
  p ← load q;
  t ← load (tail p);
  store t e ;;
  p ← load q;
  store (tail p) (next e).

Definition dequeue (q : Z) : M heap Z :=
  p ← load q;
  h ← load (head p);
  if h =? NULL then mret NULL else
  p ← load q;
  e ← load (head p);
  ret ← load (elem e);
  n ← load (next e);
  (if n =? NULL then
     p ← load q;
     store (head p) NULL ;;
     p ← load q;
     p' ← load q;
     store (tail p) (head p')
   else
     p ← load q;
     n ← load (next e);
     store (head p) n) ;;
  free queue_elem_layout e ;;
  mret ret.

(** ** Scripts of calls *)

Inductive call := Enqueue (v : Z) | Dequeue | IsEmpty.
Inductive answer := Done | Pointer (v : Z) | Truth (b : bool).

Definition exec (q : Z) (c : call) : M heap answer :=
  match c with
  | Enqueue v => enqueue q v ;; mret Done
  | Dequeue => v ← dequeue q; mret (Pointer v)
  | IsEmpty => b ← is_empty q; mret (Truth b)
  end.

Fixpoint run (q : Z) (cs : list call) : M heap (list answer) :=
  match cs with
  | [] => mret []
  | c :: cs => a ← exec q c; rs ← run q cs; mret (a :: rs)
  end.
End code.

(** The same calls on the sequence of the elements. *)
Definition step (c : call) (vs : list Z) : answer * list Z :=
  match c, vs with
  | Enqueue v, _ => (Done, vs ++ [v])
  | Dequeue, [] => (Pointer NULL, [])
  | Dequeue, v :: vs => (Pointer v, vs)
  | IsEmpty, [] => (Truth false, vs)
  | IsEmpty, _ :: _ => (Truth true, vs)
  end.

Fixpoint steps (cs : list call) (vs : list Z) : list answer * list Z :=
  match cs with
  | [] => ([], vs)
  | c :: cs =>
      let '(a, vs) := step c vs in let '(rs, vs) := steps cs vs in (a :: rs, vs)
  end.

(** ** The queue in memory *)

(** The elements [vs] from the link in cell [c] on; [e] is the last link. *)
Fixpoint links (c : Z) (vs : list Z) (e : Z) : hPropI :=
  match vs with
  | [] => ⌜c = e⌝
  | v :: vs => ∃ p, ⌜p ≠ NULL⌝ ∗ c ↦ p ∗ elem p ↦ v ∗ links (next p) vs e
  end%I.

Definition queue_at (p : Z) (vs : list Z) : hPropI :=
  (∃ e, tail p ↦ e ∗ links (head p) vs e ∗ e ↦ NULL)%I.

Lemma links_snoc c vs e p v :
  p ≠ NULL → links c vs e ∗ e ↦ p ∗ elem p ↦ v ⊢ links c (vs ++ [v]) (next p).
Proof.
  intros Hp. revert c. induction vs as [|w vs IH]; intros c; simpl.
  - iIntros "(-> & He & Hv)". iExists p. by iFrame.
  - iIntros "[(%q & %Hq & Hc & Hw & H) [He Hv]]". iExists q. iFrame. iSplit; [done|].
    iApply IH. iFrame.
Qed.

Lemma queue_elem_layout_wf : layout_wf queue_elem_layout.
Proof. split; simpl; repeat constructor; set_solver by lia. Qed.

Lemma elem_block p v w : elem p ↦o v ∗ next p ↦o w ⊢ HeapLogic.block p queue_elem_layout.
Proof.
  iIntros "[Hv Hw]". rewrite /HeapLogic.block /=. iSplitL "Hv"; [by iExists _|]. iSplit; [by iExists _|done].
Qed.

Section specs.
Context `{!Allocator, !AllocatorTotal}.

Lemma init_queue_spec : {{ True }} init_queue {{ p, ⌜p ≠ NULL⌝ ∗ queue_at p [] }}.
Proof.
  triple_start. iIntros "_". unfold init_queue. wp_focus.
  iApply (wp_xmalloc _ _ queue_elem_layout_wf). iIntros (p Hp) "([% Hh] & [% Ht] & _)".
  fold (head p) (tail p). wp_store. wp_store. iSplit; [done|]. iExists (head p). by iFrame.
Qed.

Lemma enqueue_spec q p vs v :
  {{ q ↦ p ∗ queue_at p vs }} enqueue q v {{ _, q ↦ p ∗ queue_at p (vs ++ [v]) }}.
Proof.
  triple_start. iIntros "[Hq (%e & Ht & Hl & He)]". unfold enqueue. wp_focus.
  iApply (wp_xmalloc _ _ queue_elem_layout_wf). iIntros (n Hn) "([% Hv] & [% Hn] & _)".
  fold (elem n) (next n). wp_steps. iFrame "Hq". iExists (next n). iFrame "Ht Hn".
  iApply (links_snoc with "[$Hl $He $Hv]"). done.
Qed.

Lemma dequeue_spec q p vs :
  {{ q ↦ p ∗ queue_at p vs }} dequeue q
  {{ r, ⌜r = default NULL (list.head vs)⌝ ∗ q ↦ p ∗ queue_at p (list.tail vs) }}.
Proof.
  triple_start. iIntros "[Hq (%e & Ht & Hl & He)]". unfold dequeue. destruct vs as [|v vs]; simpl.
  { iDestruct "Hl" as %<-. wp_steps. iSplit; [done|]. iFrame "Hq". iExists (head p). by iFrame. }
  iDestruct "Hl" as (c Hc) "(Hh & Hv & Hl)". wp_load. wp_load. rewrite (proj2 (Z.eqb_neq c NULL)) //.
  wp_load. wp_load. wp_load. destruct vs as [|w vs]; simpl.
  - iDestruct "Hl" as %<-. wp_load. wp_load. wp_store. wp_load. wp_load. wp_store. wp_focus.
    iApply (wp_free with "[Hv He]"); [iApply elem_block; iFrame|].
    wp_rets. iSplit; [done|]. iFrame "Hq". iExists (head p). by iFrame.
  - iDestruct "Hl" as (d Hd) "(Hn & Hw & Hl)". wp_load. rewrite (proj2 (Z.eqb_neq d NULL)) //.
    wp_load. wp_load. wp_store. wp_focus.
    iApply (wp_free with "[Hv Hn]"); [iApply elem_block; iFrame|].
    wp_rets. iSplit; [done|]. iFrame "Hq". iExists e. iFrame "Ht He". iExists d. by iFrame.
Qed.

Lemma queue_is_empty_spec q p vs :
  {{ q ↦ p ∗ queue_at p vs }} is_empty q
  {{ b, ⌜b = negb (bool_decide (vs = []))⌝ ∗ q ↦ p ∗ queue_at p vs }}.
Proof.
  triple_start. iIntros "[Hq (%e & Ht & Hl & He)]". unfold is_empty. destruct vs as [|v vs]; simpl.
  - iDestruct "Hl" as %<-. wp_steps. iSplit; [done|]. iFrame "Hq". iExists (head p). by iFrame.
  - iDestruct "Hl" as (c Hc) "(Hh & Hv & Hl)". wp_load. wp_load. rewrite (proj2 (Z.eqb_neq c NULL)) //.
    iSplit; [done|]. iFrame "Hq". iExists e. iFrame "Ht He". iExists c. by iFrame.
Qed.

Lemma queue_exec_spec q p vs c :
  {{ q ↦ p ∗ queue_at p vs }} exec q c
  {{ a, ∃ vs', ⌜step c vs = (a, vs')⌝ ∗ q ↦ p ∗ queue_at p vs' }}.
Proof.
  triple_start. iIntros "H". destruct c as [v| |]; simpl.
  - wp_call (enqueue_spec q p vs v) with "H". iIntros (_) "H". wp_rets. iExists _. by iFrame.
  - wp_call (dequeue_spec q p vs) with "H". iIntros (r) "[-> H]". wp_rets. iExists (list.tail vs).
    iFrame. by destruct vs.
  - wp_call (queue_is_empty_spec q p vs) with "H". iIntros (r) "[-> H]". wp_rets. iExists vs.
    iFrame. by destruct vs.
Qed.

Lemma queue_run_spec q p vs cs :
  {{ q ↦ p ∗ queue_at p vs }} run q cs
  {{ rs, ∃ vs', ⌜steps cs vs = (rs, vs')⌝ ∗ q ↦ p ∗ queue_at p vs' }}.
Proof.
  revert vs. induction cs as [|c cs IH]; intros vs; triple_start; iIntros "H"; cbn [run steps].
  { wp_rets. iExists vs. by iFrame. }
  wp_call (queue_exec_spec q p vs c) with "H". iIntros (a) "(%vs1 & -> & H)".
  wp_call (IH vs1) with "H". iIntros (rs) "(%vs2 & -> & H)". wp_rets. iExists vs2. by iFrame.
Qed.

(** C28. Every script of calls on a new queue gives the answers of a first-in,
    first-out sequence: [dequeue] returns the oldest element, or [NULL] when
    there is none, and gives its memory back; [is_empty], in spite of its name,
    answers whether there is an element. [malloc] is assumed to succeed
    ([AllocatorTotal]). *)
Theorem queue_scripts_refine_fifo q w cs :
  {{ q ↦o w }} p ← init_queue; store q p ;; run q cs
  {{ rs, ∃ p vs, ⌜steps cs [] = (rs, vs)⌝ ∗ q ↦ p ∗ queue_at p vs }}.
Proof.
  triple_start. iIntros "Hq". wp_call init_queue_spec with "[//]". iIntros (p) "[_ H]". wp_store.
  iApply (wp_wand with "[Hq H]"); [iApply (queue_run_spec q p [] cs with "[$Hq $H]")|].
  iIntros (rs) "(%vs & %E & Hq & H)". iExists p, vs. by iFrame.
Qed.
End specs.

Lemma queue_scripts_refine_fifo_witness : let _ := bump_allocator in
  {{ 64 ↦o None }} p ← init_queue; store 64 p ;; run 64 [IsEmpty; Enqueue 7; Enqueue 8; Dequeue; IsEmpty]
  {{ rs, ∃ p vs, ⌜([Truth false; Done; Done; Pointer 7; Truth true], [8]) = (rs, vs)⌝ ∗
     64 ↦ p ∗ queue_at p vs }}.
Proof.
  intros a. pose proof bump_allocator_total.
  exact (queue_scripts_refine_fifo 64 None [IsEmpty; Enqueue 7; Enqueue 8; Dequeue; IsEmpty]).
Defined.

End Queue.
