(* ===== verification/CallerList.v ===== *)
(** * Lists with nodes of the caller (src/examples/reverse.c)

    The list functions of the tutorial on nodes that the caller provides, with
    reversal in place and a walk along the links. *)
From S2P Require Import Prelude HeapLogic.
From stdpp Require Import gmap list.
From iris.proofmode Require Import proofmode.
#[local] Open Scope Z_scope.

Module CallerList.

(** ** The code *)

(** Members of [struct list]. *)
Definition head (p : Z) : Z := p + 0.
Definition tail (p : Z) : Z := p + 8.
Definition list_layout : layout := Layout 16 [0; 8].
Arguments head : simpl never.
Arguments tail : simpl never.

Definition init : M heap Z := mret NULL.

Definition push (p e node : Z) : M heap Z :=
  store (head node) e ;;
  store (tail node) p ;;
  mret node.

Definition pop (p : Z) : M heap Z :=
  l ← load p;
  if l =? NULL then mret NULL else
  l ← load p;
  ret ← load (head l);
  l ← load p;
  t ← load (tail l);
  store p t ;;
  mret ret.

Fixpoint member_rec_ (n : nat) (p k : Z) : M heap bool :=
  match n with
  | O => fail OutOfFuel
  | S n =>
      l ← load p;
      if l =? NULL then mret false else
      l ← load p;
      h ← load (head l);
      x ← load h;
      if x =? k then mret true else
      l ← load p;
      member_rec_ n (tail l) k
  end.
Definition member_rec (p k : Z) : M heap bool := with_fuel (λ n, member_rec_ n p k).

Fixpoint member_loop (n : nat) (prev k : Z) : M heap bool :=
  match n with
  | O => fail OutOfFuel
  | S n =>
      cur ← load prev;
      if cur =? NULL then mret false else
      cur ← load prev;
      h ← load (head cur);
      x ← load h;
      if x =? k then mret true else
      member_loop n (tail cur) k
  end.
Definition member (p k : Z) : M heap bool := with_fuel (λ n, member_loop n p k).

Fixpoint reverse_loop (n : nat) (w v : Z) : M heap Z :=
  match n with
  | O => fail OutOfFuel
  | S n =>
      if v =? NULL then mret w else
      t ← load (tail v);
      store (tail v) w ;;
      reverse_loop n v t
  end.
Definition reverse (p : Z) : M heap Z := with_fuel (λ n, reverse_loop n NULL p).

Fixpoint forward_loop (n : nat) (prev : Z) : M heap unit :=
  match n with
  | O => fail OutOfFuel
  | S n =>
      cur ← load prev;
      if cur =? NULL then mret tt else
      cur ← load prev;
      forward_loop n (tail cur)
  end.

Section locals.
Context `{!Allocator}.

(** The parameter is a variable whose address is taken. *)
Definition forward (p : Z) : M heap Z :=
  with_local ptr_layout (λ a,
    store a p ;;
    with_fuel (λ n, forward_loop n a) ;;
    load a).

(** The function ends in [while(1);]. *)
Definition test : M heap unit :=
  with_local list_layout (λ local1_node,
  with_local list_layout (λ local2_node,
  with_local ptr_layout (λ local2,
  with_local ptr_layout (λ lst,
  with_local ptr_layout (λ local1,
    l ← init;
    store lst l ;;
    store local1 0 ;;
    l ← load lst;
    l ← push l local1 local1_node;
    store lst l ;;
    store local2 lst ;;
    l ← load lst;
    l ← push l local2 local2_node;
    store lst l ;;
    local3 ← pop lst;
    q ← load local3;
    local4 ← pop q;
    x ← load local4;
    c_assert (x =? 0) ;;
    fail NonTermination))))).
End locals.

(** ** Specifications *)

Fixpoint list_at (p : Z) (hs : list Z) : hPropI :=
  match hs with
  | [] => ⌜p = NULL⌝
  | h :: hs => ∃ q, ⌜p ≠ NULL⌝ ∗ head p ↦ h ∗ tail p ↦ q ∗ list_at q hs
  end%I.

Lemma caller_list_cells p hs : list_at p hs ⊢ at_least (length hs).
Proof.
  revert p. induction hs as [|h hs IH]; intros p; simpl; [iIntros "_"; iApply at_least_0|].
  iIntros "(%q & _ & Hx & _ & H)". iApply (at_least_add 1).
  iSplitL "Hx"; [by iApply at_least_cell|by iApply IH].
Qed.

Lemma caller_push_spec p hs e node :
  node ≠ NULL →
  {{ list_at p hs ∗ head node ↦? ∗ tail node ↦? }} push p e node
  {{ r, ⌜r = node⌝ ∗ list_at r (e :: hs) }}.
Proof.
  intros Hn. triple_start. iIntros "(H & [% Hh] & [% Ht])". unfold push. wp_store. wp_store.
  iSplit; [done|]. iExists p. by iFrame.
Qed.

Lemma caller_pop_spec p l hs :
  {{ p ↦ l ∗ list_at l hs }} pop p
  {{ r, ⌜r = default NULL (list.head hs)⌝ ∗ ∃ l', p ↦ l' ∗ list_at l' (list.tail hs) }}.
Proof.
  triple_start. iIntros "[Hp H]". unfold pop. destruct hs as [|h hs]; simpl.
  - iDestruct "H" as %->. wp_load. iSplit; [done|]. iExists NULL. by iFrame.
  - iDestruct "H" as (q Hn) "(Hh & Ht & H)". wp_load. rewrite (proj2 (Z.eqb_neq l NULL)) //.
    wp_steps. iSplit; [done|]. iExists q. by iFrame.
Qed.

(** The elements point to the numbers [xs]. *)
Definition numbers (hs xs : list Z) : hPropI := ([∗ list] h;x ∈ hs;xs, h ↦ x)%I.

(** Both ways to search walk along the links. *)
Definition searches (c : nat → Z → Z → M heap bool) : Prop := ∀ n p l hs xs k,
  (length hs < n)%nat →
  {{ p ↦ l ∗ list_at l hs ∗ numbers hs xs }} c n p k
  {{ b, ⌜b = bool_decide (k ∈ xs)⌝ ∗ p ↦ l ∗ list_at l hs ∗ numbers hs xs }}.

Lemma search_found (k x : Z) (xs : list Z) (b : bool) :
  (x = k → b = true) → (x ≠ k → b = bool_decide (k ∈ xs)) → b = bool_decide (k ∈ x :: xs).
Proof.
  intros H1 H2. destruct (decide (x = k)) as [->|Hne].
  - rewrite H1 //. symmetry. apply bool_decide_eq_true. by left.
  - rewrite H2 //. apply bool_decide_ext. rewrite elem_of_cons. naive_solver.
Qed.

(** One step of a search: the end of the list, or its first node. *)
Lemma searches_by_steps c :
  (∀ n p k, {{ p ↦ NULL }} c (S n) p k {{ b, ⌜b = false⌝ ∗ p ↦ NULL }}) →
  (∀ n p l h x k Φ, l ≠ NULL →
    p ↦ l ∗ head l ↦ h ∗ h ↦ x ∗
    (p ↦ l ∗ head l ↦ h ∗ h ↦ x -∗ if x =? k then Φ true else wp (c n (tail l) k) Φ) ⊢
    wp (c (S n) p k) Φ) →
  searches c.
Proof.
  intros Hnil Hcons n p l hs xs k. revert n p l xs.
  induction hs as [|h hs IH]; intros [|n] p l xs Hn; simpl in Hn; try lia; triple_start;
    iIntros "(Hp & H & Hx)"; cbn [list_at];
    (destruct xs as [|x xs]; try (iDestruct (big_sepL2_length with "Hx") as %?; done)).
  { iDestruct "H" as %->. wp_call (Hnil n p k) with "Hp". iIntros (b) "[-> Hp]". by iFrame. }
  iDestruct "H" as (q Hnn) "(Hh & Ht & H)". iDestruct "Hx" as "[Hx Hxs]".
  iApply Hcons; [done|]. iFrame "Hp Hh Hx". iIntros "(Hp & Hh & Hx)".
  destruct (Z.eqb_spec x k) as [->|Hne].
  - iSplit; [iPureIntro; by apply search_found|]. iFrame. by iFrame.
  - iApply (wp_wand with "[Ht H Hxs]"); [iApply (IH n (tail l) q xs with "[$Ht $H $Hxs]"); lia|].
    iIntros (b) "(-> & Ht & H & Hxs)". iSplit; [iPureIntro; by apply search_found|]. iFrame. by iFrame.
Qed.

Lemma member_rec_searches : searches member_rec_.
Proof.
  apply searches_by_steps; [intros n p k; triple_start; iIntros "Hp"; cbn [member_rec_]; wp_load; by iFrame|].
  iIntros (n p l h x k Φ Hl) "(Hp & Hh & Hx & HΦ)". cbn [member_rec_]. wp_load.
  rewrite (proj2 (Z.eqb_neq l NULL)) //. wp_load. wp_load. wp_load.
  destruct (x =? k); [wp_rets|wp_load]; iApply "HΦ"; iFrame.
Qed.

Lemma member_loop_searches : searches member_loop.
Proof.
  apply searches_by_steps; [intros n p k; triple_start; iIntros "Hp"; cbn [member_loop]; wp_load; by iFrame|].
  iIntros (n p l h x k Φ Hl) "(Hp & Hh & Hx & HΦ)". cbn [member_loop]. wp_load.
  rewrite (proj2 (Z.eqb_neq l NULL)) //. wp_load. wp_load. wp_load.
  destruct (x =? k); [wp_rets|]; iApply "HΦ"; iFrame.
Qed.

Lemma search_spec c p l hs xs k :
  searches c →
  {{ p ↦ l ∗ list_at l hs ∗ numbers hs xs }} with_fuel (λ n, c n p k)
  {{ b, ⌜b = bool_decide (k ∈ xs)⌝ ∗ p ↦ l ∗ list_at l hs ∗ numbers hs xs }}.
Proof.
  intros Hc. apply (triple_with_fuel (length hs)).
  - iIntros "(_ & H & _)". iApply (caller_list_cells with "H").
  - intros n Hn. by apply Hc.
Qed.

Lemma caller_reverse_loop_spec n w v hs gs :
  (length hs < n)%nat →
  {{ list_at v hs ∗ list_at w gs }} reverse_loop n w v {{ r, list_at r (list.reverse hs ++ gs) }}.
Proof.
  revert n w v gs. induction hs as [|h hs IH]; intros [|n] w v gs Hn; simpl in Hn; try lia;
    triple_start; iIntros "[Hv Hw]"; cbn [list_at reverse_loop].
  { iDestruct "Hv" as %->. by wp_rets. }
  iDestruct "Hv" as (q Hnn) "(Hh & Ht & H)". rewrite (proj2 (Z.eqb_neq v NULL)) //. wp_load. wp_store.
  rewrite reverse_cons -app_assoc. iApply (IH n v q (h :: gs) with "[$H Hh Ht Hw]"); [lia|].
  iExists w. by iFrame.
Qed.

Lemma forward_loop_spec n p l hs :
  (length hs < n)%nat →
  {{ p ↦ l ∗ list_at l hs }} forward_loop n p {{ _, p ↦ l ∗ list_at l hs }}.
Proof.
  revert n p l. induction hs as [|h hs IH]; intros [|n] p l Hn; simpl in Hn; try lia;
    triple_start; iIntros "[Hp H]"; cbn [list_at forward_loop].
  { iDestruct "H" as %->. wp_load. by iFrame. }
  iDestruct "H" as (q Hnn) "(Hh & Ht & H)". wp_load. rewrite (proj2 (Z.eqb_neq l NULL)) //. wp_load.
  iApply (wp_wand with "[Ht H]"); [iApply (IH n (tail l) q with "[$Ht $H]"); lia|].
  iIntros (_) "[Ht H]". iFrame. by iFrame.
Qed.

Section lists.
Context `{!Allocator, !AllocatorTotal}.

Lemma forward_spec p hs : {{ list_at p hs }} forward p {{ r, ⌜r = p⌝ ∗ list_at p hs }}.
Proof.
  triple_start. iIntros "H". unfold forward. iApply wp_with_pointer. iIntros (a) "[% Ha]". wp_store. wp_focus.
  iApply (wp_wand with "[Ha H]").
  { iAssert (a ↦ p ∗ list_at p hs)%I with "[$Ha $H]" as "H". iStopProof.
    apply (wp_with_fuel (length hs)); [iIntros "[_ H]"; iApply (caller_list_cells with "H")|].
    intros n Hn. by apply forward_loop_spec. }
  iIntros (_) "[Ha H]". wp_load. iSplitL "Ha"; [by iExists _|]. by iFrame.
Qed.

(** On a sequence of elements, [push] and [pop] are those of a stack, both
    searches find exactly the numbers the elements point to, [forward] leaves the
    list alone and [reverse] reverses it in place. *)
Theorem caller_list_operations p l hs xs k e node :
  node ≠ NULL →
  ({{ list_at l hs ∗ head node ↦? ∗ tail node ↦? }} push l e node
   {{ r, ⌜r = node⌝ ∗ list_at r (e :: hs) }}) ∧
  ({{ p ↦ l ∗ list_at l hs }} pop p
   {{ r, ⌜r = default NULL (list.head hs)⌝ ∗ ∃ l', p ↦ l' ∗ list_at l' (list.tail hs) }}) ∧
  ({{ p ↦ l ∗ list_at l hs ∗ numbers hs xs }} member_rec p k
   {{ b, ⌜b = bool_decide (k ∈ xs)⌝ ∗ p ↦ l ∗ list_at l hs ∗ numbers hs xs }}) ∧
  ({{ p ↦ l ∗ list_at l hs ∗ numbers hs xs }} member p k
   {{ b, ⌜b = bool_decide (k ∈ xs)⌝ ∗ p ↦ l ∗ list_at l hs ∗ numbers hs xs }}) ∧
  ({{ list_at l hs }} forward l {{ r, ⌜r = l⌝ ∗ list_at l hs }}) ∧
  ({{ list_at l hs }} reverse l {{ r, list_at r (list.reverse hs) }}).
Proof.
  intros Hn. split_and!; [by apply caller_push_spec|by apply caller_pop_spec|apply search_spec, member_rec_searches|
    apply search_spec, member_loop_searches|apply forward_spec|].
  apply (triple_with_fuel (length hs)); [apply caller_list_cells|]. intros n Hln. triple_start.
  iIntros "H". rewrite -(app_nil_r (list.reverse hs)). by iApply (caller_reverse_loop_spec n NULL l hs [] Hln with "[$H]").
Qed.

Lemma list_layout_wf : layout_wf list_layout.
Proof. split; simpl; repeat constructor; set_solver by lia. Qed.

(** [test] passes its assertion, the elements of its list being a variable and
    the variable of the list itself, and then spins. *)
Theorem caller_list_test_spins : stops True%I test NonTermination.
Proof.
  apply stops_wps. iIntros "_". unfold test.
  iApply wps_with_local; [apply list_layout_wf|]. iIntros (n1 H1) "([% Hh1] & [% Ht1] & _)".
  iApply wps_with_local; [apply list_layout_wf|]. iIntros (n2 H2) "([% Hh2] & [% Ht2] & _)".
  iApply wps_with_local; [apply ptr_layout_wf|]. iIntros (local2 _) "Hl2".
  iApply wps_with_local; [apply ptr_layout_wf|]. iIntros (lst _) "Hlst".
  iApply wps_with_local; [apply ptr_layout_wf|]. iIntros (local1 _) "Hl1". rewrite !ptr_block.
  iDestruct "Hl1" as (v1) "Hl1". iDestruct "Hl2" as (v2) "Hl2". iDestruct "Hlst" as (v3) "Hlst".
  fold (head n1) (tail n1) (head n2) (tail n2).
  iApply wps_bind. wp_ret. iApply wps_bind. wp_store. iApply wps_bind. wp_store. iApply wps_bind. wp_load.
  iApply wps_bind. wp_call (caller_push_spec NULL [] local1 n1 H1) with "[Hh1 Ht1]".
  { iSplit; [done|]. iSplitL "Hh1"; by iExists _. }
  iIntros (r) "[-> H]". iApply wps_bind. wp_store. iApply wps_bind. wp_store. iApply wps_bind. wp_load.
  iApply wps_bind. wp_call (caller_push_spec n1 [local1] local2 n2 H2) with "[$H Hh2 Ht2]".
  { iSplitL "Hh2"; by iExists _. }
  iIntros (r) "[-> H]". iApply wps_bind. wp_store.
  iApply wps_bind. wp_call (caller_pop_spec lst n2 [local2; local1]) with "[$Hlst $H]".
  iIntros (r) "(-> & %l & Hlst & H)". iApply wps_bind. wp_load.
  iApply wps_bind. wp_call (caller_pop_spec lst l [local1]) with "[$Hlst $H]".
  iIntros (r) "(-> & %l' & Hlst & H)". iApply wps_bind. wp_load. iApply wps_bind. wp_ret.
  iApply wps_fail.
Qed.
End lists.

End CallerList.
