(* ===== verification/SmallAlloc.v ===== *)
(** * Small allocators (src/examples/malloc1.c, mpool_simpl.c, talk_demo_alloc.c
    and talk_demo_alloc_full.c)

    A slab hands out entries of one size, freed ones first, then the next of its
    chunk; a pool is a list of entries; the allocators of the talk cut pieces
    off the end or the start of a buffer. *)
From S2P Require Import Prelude HeapLogic.
From stdpp Require Import gmap list.
From iris.proofmode Require Import proofmode.
#[local] Open Scope Z_scope.

(** ** The slab allocator of malloc1.c *)
Module Slab.

(** Member of [struct freelist]. *)
Definition next (f : Z) : Z := f.
(** Members of [struct slab]. *)
Definition chunksize (s : Z) : Z := s.
Definition entry_size (s : Z) : Z := s + 8.
Definition chunk (s : Z) : Z := s + 16.
Definition free (s : Z) : Z := s + 24.
Arguments next : simpl never.
Arguments chunksize : simpl never.
Arguments entry_size : simpl never.
Arguments chunk : simpl never.
Arguments free : simpl never.

Definition slab_init (s p size es : Z) : M heap unit :=
  store (chunk s) p ;;
  store (chunksize s) size ;;
  store (entry_size s) es ;;
  store (free s) NULL.

Definition slab_alloc (s : Z) : M heap Z :=
  fr ← load (free s);
  if negb (fr =? NULL) then
    f ← load (free s);
    n ← load (next f);
    store (free s) n ;;
    mret f
  else
    es ← load (entry_size s);
    cs ← load (chunksize s);
    if cs <? es then mret NULL else
    r ← load (chunk s);
    c ← load (chunk s);
    es ← load (entry_size s);
    store (chunk s) (c + es) ;;
    cs ← load (chunksize s);
    es ← load (entry_size s);
    store (chunksize s) (u64 (cs - es)) ;;
    mret r.

Definition slab_free (s x : Z) : M heap unit :=
  fr ← load (free s);
  store (next x) fr ;;
  store (free s) x.

(** *** The slab in memory *)

(** Freed entries, the rest of the chunk and its length. *)
Record slab := mk_slab { sl_free : list Z; sl_chunk : Z; sl_left : Z }.

(** A list of entries of [es] bytes each, linked by their first words. *)
Fixpoint free_list (es p : Z) (fs : list Z) : hPropI :=
  match fs with
  | [] => ⌜p = NULL⌝
  | f :: fs => ⌜p = f ∧ f ≠ NULL⌝ ∗ ∃ q, next f ↦ q ∗ raw (f + 8) (es - 8) ∗ free_list es q fs
  end%I.

Definition slab_at (s es : Z) (st : slab) : hPropI :=
  (∃ p, chunksize s ↦ sl_left st ∗ entry_size s ↦ es ∗ chunk s ↦ sl_chunk st ∗ free s ↦ p ∗
   ⌜0 ≤ sl_left st < 2 ^ 64⌝ ∗ raw (sl_chunk st) (sl_left st) ∗ free_list es p (sl_free st))%I.

Definition alloc_step (es : Z) (st : slab) : Z * slab :=
  match sl_free st with
  | f :: fs => (f, mk_slab fs (sl_chunk st) (sl_left st))
  | [] =>
      if sl_left st <? es then (NULL, st)
      else (sl_chunk st, mk_slab [] (sl_chunk st + es) (sl_left st - es))
  end.

Definition free_step (x : Z) (st : slab) : slab :=
  mk_slab (x :: sl_free st) (sl_chunk st) (sl_left st).

(** How many more calls of [slab_alloc] will succeed. *)
Definition available (es : Z) (st : slab) : Z := Z.of_nat (length (sl_free st)) + sl_left st / es.

Section specs.
Context (es : Z) (Hes : 8 ≤ es) (Hword : (8 | es)).

Lemma slab_init_spec s p size :
  0 ≤ size < 2 ^ 64 →
  {{ chunksize s ↦? ∗ entry_size s ↦? ∗ chunk s ↦? ∗ free s ↦? ∗ raw p size }}
    slab_init s p size es
  {{ _, slab_at s es (mk_slab [] p size) }}.
Proof.
  intros Hs. triple_start. iIntros "([% H1] & [% H2] & [% H3] & [% H4] & H)". unfold slab_init.
  wp_steps. iExists NULL. by iFrame.
Qed.

Lemma slab_alloc_spec s st :
  {{ slab_at s es st }} slab_alloc s
  {{ r, ∃ st', ⌜alloc_step es st = (r, st')⌝ ∗ slab_at s es st' ∗ if r =? NULL then emp else raw r es }}.
Proof.
  destruct st as [fs c n]. triple_start. iIntros "(%p & H1 & H2 & H3 & H4 & %Hn & Hc & Hf)".
  unfold slab_alloc, alloc_step. simpl in *. destruct fs as [|f fs]; simpl.
  - iDestruct "Hf" as %->. wp_load. wp_load. wp_load. destruct (Z.ltb_spec n es) as [Hlt|Hge].
    { wp_rets. iExists _. iSplit; [done|]. iSplit; [|done]. iExists NULL. by iFrame. }
    wp_steps. rewrite wrap_small; [|split; lia]. iExists _. iSplit; [done|].
    assert (raw c n ⊣⊢ raw c es ∗ raw (c + es) (n - es)) as Hcut.
    { rewrite -raw_split; [|lia|lia|done]. by replace (es + (n - es)) with n by lia. }
    iDestruct (Hcut with "Hc") as "[He Hc]". iSplitR "He".
    + iExists NULL. iFrame. iPureIntro. simpl. split; [lia|done].
    + iDestruct (raw_not_null with "He") as %Hnn; [lia|]. by rewrite (proj2 (Z.eqb_neq c NULL)).
  - iDestruct "Hf" as "([-> %Hnn] & %q & Hq & Hr & Hf)". wp_load. rewrite (proj2 (Z.eqb_neq f NULL)) //=.
    wp_steps. iExists _. iSplit; [done|]. iSplitR "Hq Hr".
    + iExists q. by iFrame.
    + rewrite (proj2 (Z.eqb_neq f NULL)) //. iApply (raw_word f es Hes). iFrame.
Qed.

Lemma slab_free_spec s st x :
  {{ slab_at s es st ∗ raw x es }} slab_free s x {{ _, slab_at s es (free_step x st) }}.
Proof.
  destruct st as [fs c n]. triple_start. iIntros "[(%p & H1 & H2 & H3 & H4 & %Hn & Hc & Hf) Hx]".
  iDestruct (raw_not_null with "Hx") as %Hnn; [lia|]. iDestruct (raw_word x es Hes with "Hx") as "[[% Hx] Hr]".
   unfold slab_free. fold (next x). wp_steps.
  iExists x. iFrame "H1 H2 H3 H4 Hc". iSplit; [done|]. iSplit; [done|]. iExists p. iFrame.
Qed.

(** *** Scripts *)

(** Allocate an entry, or free the [i]-th of those held. *)
Inductive call := Alloc | Free (i : nat).

Fixpoint run (s : Z) (cs : list call) (held : list Z) : M heap (list Z) :=
  match cs with
  | [] => mret held
  | Alloc :: cs =>
      r ← slab_alloc s;
      run s cs (if r =? NULL then held else held ++ [r])
  | Free i :: cs =>
      match held !! i with
      | Some x => slab_free s x ;; run s cs (delete i held)
      | None => run s cs held
      end
  end.

Fixpoint steps (cs : list call) (held : list Z) (st : slab) : list Z * slab :=
  match cs with
  | [] => (held, st)
  | Alloc :: cs =>
      let '(r, st) := alloc_step es st in steps cs (if r =? NULL then held else held ++ [r]) st
  | Free i :: cs =>
      match held !! i with
      | Some x => steps cs (delete i held) (free_step x st)
      | None => steps cs held st
      end
  end.

Definition holds (held : list Z) : hPropI := ([∗ list] a ∈ held, raw a es)%I.

Lemma holds_delete held i x : held !! i = Some x → holds held ⊣⊢ raw x es ∗ holds (delete i held).
Proof. intros Hi. by rewrite {1}/holds {1}(delete_Permutation held i x Hi). Qed.

Lemma slab_run_spec s cs held st :
  {{ slab_at s es st ∗ holds held }} run s cs held
  {{ held', ∃ st', ⌜steps cs held st = (held', st')⌝ ∗ slab_at s es st' ∗ holds held' }}.
Proof.
  revert held st. induction cs as [|[|i] cs IH]; intros held st; triple_start; iIntros "[Hs Hh]"; cbn [run steps].
  - wp_rets. iExists st. by iFrame.
  - wp_call (slab_alloc_spec s st) with "Hs". iIntros (r) "(%st' & -> & Hs & Hr)".
    iApply (IH with "[$Hs Hh Hr]"). destruct (r =? NULL); [done|].
    rewrite /holds big_sepL_app /=. iFrame.
  - destruct (held !! i) as [x|] eqn:Hi; [|iApply (IH with "[$Hs $Hh]")].
    iDestruct (holds_delete held i x Hi with "Hh") as "[Hx Hh]".
    wp_call (slab_free_spec s st x) with "[$Hs $Hx]". iIntros (_) "Hs". iApply (IH with "[$Hs $Hh]").
Qed.

(** *** Accounting *)

(** Of the [size] bytes at [p], [m] entries have been cut off; each of them is
    held or free. *)
Definition accounts (p size : Z) (held : list Z) (st : slab) : Prop :=
  ∃ m, 0 ≤ m ∧ sl_chunk st = p + m * es ∧ sl_left st = size - m * es ∧ 0 ≤ sl_left st ∧
    held ++ sl_free st ≡ₚ (λ i, p + i * es) <$> seqZ 0 m.

Lemma accounts_available p size held st :
  accounts p size held st → available es st + Z.of_nat (length held) = size / es.
Proof.
  intros (m & Hm & _ & Hl & _ & Hp). apply Permutation_length in Hp.
  rewrite length_app length_fmap length_seqZ in Hp. unfold available. rewrite Hl.
  replace (size - m * es) with (size + - m * es) by lia. rewrite Z.div_add; lia.
Qed.

Lemma accounts_free p size held st x : accounts p size held st → 0 < p → x ∈ held ++ sl_free st → 0 < x.
Proof.
  intros (m & Hm & _ & _ & _ & Hp) H0 Hx. rewrite Hp in Hx.
  apply list_elem_of_fmap in Hx as (i & -> & Hi%elem_of_seqZ). nia.
Qed.

Lemma alloc_step_accounts p size held st r st' :
  0 < p → accounts p size held st → alloc_step es st = (r, st') →
  accounts p size (if r =? NULL then held else held ++ [r]) st' ∧ (r = NULL ↔ available es st = 0).
Proof.
  intros H0 Ha. pose proof (accounts_free p size held st) as Hpos. destruct st as [fs c n].
  unfold alloc_step, available. simpl in *.
  destruct fs as [|f fs]; simpl; [destruct (Z.ltb_spec n es) as [Hlt|Hge]|]; intros [= <- <-].
  - split; [done|]. destruct Ha as (m & Hm & _ & _ & Hn & _). simpl in Hn. rewrite Z.div_small; [done|lia].
  - destruct Ha as (m & Hm & Hc & Hl & Hn & Hp). simpl in *. subst c.
    rewrite (proj2 (Z.eqb_neq _ NULL)); [|unfold NULL; nia]. split.
    + exists (m + 1). split_and!; simpl; [lia|lia|lia|lia|].
      rewrite seqZ_app; [|lia|lia]. rewrite fmap_app /=. rewrite app_nil_r in Hp. rewrite app_nil_r Hp.
      change (seqZ (0 + m) 1) with [0 + m]. simpl. by replace (0 + m) with m by lia.
    + split; [unfold NULL; nia|]. intros E. assert (1 ≤ n / es); [|lia].
      apply Z.div_le_lower_bound; lia.
  - assert (0 < f) as Hf by (apply (Hpos f Ha H0); set_solver).
    rewrite (proj2 (Z.eqb_neq _ NULL)); [|unfold NULL; lia]. split.
    + destruct Ha as (m & Hm & Hc & Hl & Hn & Hp). exists m. split_and!; try done. simpl.
      by rewrite -Hp -assoc_L.
    + destruct Ha as (m & Hm & Hc & Hl & Hn & Hp). simpl in *.
      assert (0 ≤ n / es) by (apply Z.div_pos; lia). unfold NULL. lia.
Qed.

Lemma free_step_accounts p size held st i x :
  accounts p size held st → held !! i = Some x → accounts p size (delete i held) (free_step x st).
Proof.
  intros (m & Hm & Hc & Hl & Hn & Hp) Hi. exists m. split_and!; try done. simpl.
  by rewrite -Hp {2}(delete_Permutation held i x Hi) -Permutation_middle.
Qed.

Lemma steps_accounts p size cs held st :
  0 < p → accounts p size held st →
  let '(held', st') := steps cs held st in accounts p size held' st'.
Proof.
  intros H0. revert held st. induction cs as [|[|i] cs IH]; intros held st Ha; simpl; [done| |].
  - destruct (alloc_step es st) as [r st1] eqn:E. apply IH.
    by destruct (alloc_step_accounts p size held st r st1 H0 Ha E).
  - destruct (held !! i) as [x|] eqn:Hi; apply IH; [|done]. by apply free_step_accounts.
Qed.

(** C16. After any script of calls on a new slab, the entries held and the freed
    ones are, without repetition, the entries cut off the chunk so far; the number
    of entries held and of calls that will still succeed is the number of entries
    that fit into the chunk, and [slab_alloc] fails only when all of them are
    held.  Freed entries are reused, the last one first. *)
Theorem slab_accounts_for_entries s p size cs :
  0 < p → 0 ≤ size < 2 ^ 64 →
  {{ chunksize s ↦? ∗ entry_size s ↦? ∗ chunk s ↦? ∗ free s ↦? ∗ raw p size }}
    slab_init s p size es ;; run s cs []
  {{ held, ∃ st, ⌜steps cs [] (mk_slab [] p size) = (held, st) ∧ accounts p size held st ∧
        (available es st + Z.of_nat (length held) = size / es)%Z ∧
        ((alloc_step es st).1 = NULL ↔ (Z.of_nat (length held) = size / es)%Z)⌝ ∗
     slab_at s es st ∗ holds held }}.
Proof.
  intros H0 Hs. triple_start. iIntros "H". wp_call (slab_init_spec s p size Hs) with "H". iIntros (_) "H".
  iApply (wp_wand with "[H]"); [iApply (slab_run_spec s cs [] with "[$H]"); by rewrite /holds|].
  iIntros (held) "(%st & %E & Hst & Hh)". iExists st. iFrame. iPureIntro.
  assert (accounts p size held st) as Ha.
  { pose proof (steps_accounts p size cs [] (mk_slab [] p size) H0) as Hst. rewrite E in Hst. apply Hst.
    exists 0. split_and!; simpl; try lia. done. }
  pose proof (accounts_available _ _ _ _ Ha) as Hav. split_and!; [done|done|done|].
  destruct (alloc_step es st) as [r st'] eqn:Ea.
  destruct (alloc_step_accounts p size held st r st' H0 Ha Ea) as [_ Hr]. simpl. rewrite Hr. lia.
Qed.
End specs.

Lemma slab_accounts_for_entries_witness :
  {{ chunksize 64 ↦? ∗ entry_size 64 ↦? ∗ chunk 64 ↦? ∗ free 64 ↦? ∗ raw 128 40 }}
    slab_init 64 128 40 16 ;; run 64 [Alloc; Alloc; Free 0; Alloc; Alloc] []
  {{ held, ∃ st, ⌜([144; 128], mk_slab [] 160 8) = (held, st) ∧ accounts 16 128 40 held st ∧
        (available 16 st + Z.of_nat (length held) = 2)%Z ∧
        ((alloc_step 16 st).1 = NULL ↔ Z.of_nat (length held) = 2)⌝ ∗
     slab_at 64 16 st ∗ holds 16 held }}.
Proof.
  apply (slab_accounts_for_entries 16 ltac:(lia) ltac:(by exists 2) 64 128 40
    [Alloc; Alloc; Free 0; Alloc; Alloc]); lia.
Defined.
End Slab.

(** ** The pool of mpool_simpl.c *)
Module MpoolSimpl.

(** Members of [struct mpool_entry] and of [struct mpool]. *)
Definition next (e : Z) : Z := e.
Definition entry_list (p : Z) : Z := p.
Arguments next : simpl never.
Arguments entry_list : simpl never.

Definition mpool_init (p : Z) : M heap unit := store (entry_list p) NULL.

Definition mpool_get (p : Z) : M heap Z :=
  l ← load (entry_list p);
  if l =? NULL then mret NULL else
  entry ← load (entry_list p);
  n ← load (next entry);
  store (entry_list p) n ;;
  mret entry.

Definition mpool_put (p ptr : Z) : M heap unit :=
  l ← load (entry_list p);
  store (next ptr) l ;;
  store (entry_list p) ptr.

(** [e1] and [e2] are global variables; falling off the end of [main] returns 0. *)
Definition main `{!Allocator} (e1 e2 : Z) : M heap Z :=
  with_local ptr_layout (λ p,
    mpool_init p ;;
    mpool_put p e1 ;;
    mpool_put p e2 ;;
    p1 ← mpool_get p;
    c_assert (negb (p1 =? NULL)) ;;
    p2 ← mpool_get p;
    c_assert (negb (p2 =? NULL)) ;;
    mret 0).

Section specs.
(** Entries of [es] bytes. *)
Context (es : Z) (Hes : 8 ≤ es).

Definition mpool_at (p : Z) (fs : list Z) : hPropI :=
  (∃ l, entry_list p ↦ l ∗ Slab.free_list es l fs)%I.

Lemma pool_init_spec p : {{ entry_list p ↦? }} mpool_init p {{ _, mpool_at p [] }}.
Proof. triple_start. iIntros "[% H]". unfold mpool_init. wp_store. iExists NULL. by iFrame. Qed.

Lemma mpool_get_spec p fs :
  {{ mpool_at p fs }} mpool_get p
  {{ r, ⌜r = default NULL (head fs)⌝ ∗ mpool_at p (tail fs) ∗ if fs is [] then emp else raw r es }}.
Proof.
  triple_start. iIntros "(%l & Hp & Hl)". unfold mpool_get. destruct fs as [|f fs]; simpl.
  - iDestruct "Hl" as %->. wp_load. iSplit; [done|]. iSplit; [|done]. iExists NULL. by iFrame.
  - iDestruct "Hl" as "([-> %Hnn] & %q & Hq & Hr & Hl)". fold (next f). wp_load.
    rewrite (proj2 (Z.eqb_neq f NULL)) //. wp_steps. iSplit; [done|].
    iSplitL "Hp Hl"; [iExists q; iFrame|]. iApply (raw_word f es Hes). iFrame.
Qed.

Lemma mpool_put_spec p fs e :
  {{ mpool_at p fs ∗ raw e es }} mpool_put p e {{ _, mpool_at p (e :: fs) }}.
Proof.
  triple_start. iIntros "[(%l & Hp & Hl) He]". iDestruct (raw_not_null with "He") as %Hnn; [lia|].
  iDestruct (raw_word e es Hes with "He") as "[[% He] Hr]". unfold mpool_put. fold (next e). wp_steps.
  iExists e. iFrame "Hp". iSplit; [done|]. iExists l. iFrame.
Qed.
End specs.

(** The pool is a stack of entries, and [main] gets its two entries back. *)
Theorem mpool_simpl_operations `{!Allocator, !AllocatorTotal} es p fs e e1 e2 :
  8 ≤ es →
  ({{ mpool_at es p fs }} mpool_get p
   {{ r, ⌜r = default NULL (head fs)⌝ ∗ mpool_at es p (tail fs) ∗ if fs is [] then emp else raw r es }}) ∧
  ({{ mpool_at es p fs ∗ raw e es }} mpool_put p e {{ _, mpool_at es p (e :: fs) }}) ∧
  ({{ e1 ↦? ∗ e2 ↦? }} main e1 e2 {{ r, ⌜r = 0⌝ }}).
Proof.
  intros Hes. split_and!; [by apply mpool_get_spec|by apply mpool_put_spec|].
  assert (∀ a, a ↦? ⊢ raw a 8) as Hraw.
  { iIntros (a) "H". rewrite raw_word //. iFrame. by rewrite /raw /=. }
  triple_start. iIntros "[H1 H2]". rewrite !Hraw. unfold main. iApply wp_with_pointer. iIntros (q) "Hq".
  wp_call (pool_init_spec 8 q) with "Hq". iIntros (_) "Hq".
  iDestruct (raw_not_null with "H1") as %Hn1; [done|]. iDestruct (raw_not_null with "H2") as %Hn2; [done|].
  wp_call (mpool_put_spec 8 ltac:(done) q [] e1) with "[$Hq $H1]". iIntros (_) "Hq".
  wp_call (mpool_put_spec 8 ltac:(done) q [e1] e2) with "[$Hq $H2]". iIntros (_) "Hq".
  wp_call (mpool_get_spec 8 ltac:(done) q [e2; e1]) with "Hq". iIntros (r) "(-> & Hq & _)".
  wp_focus. simpl. rewrite (proj2 (Z.eqb_neq e2 NULL)) //=. wp_rets.
  wp_call (mpool_get_spec 8 ltac:(done) q [e1]) with "Hq". iIntros (r) "(-> & (%l & Hq & _) & _)".
  wp_focus. simpl. rewrite (proj2 (Z.eqb_neq e1 NULL)) //=. wp_rets. iSplit; [by iExists _|done].
Qed.
End MpoolSimpl.

(** ** The allocators of the talk *)
Module TalkAlloc.

(** Members of [struct mem_t]; a buffer is bytes. *)
Definition len (d : Z) : Z := d.
Definition buffer (d : Z) : Z := d + 8.
Arguments len : simpl never.
Arguments buffer : simpl never.

(** talk_demo_alloc.c *)
Definition alloc (d sz : Z) : M heap Z :=
  n ← load (len d);
  c_assert (sz <=? n) ;;
  n ← load (len d);
  store (len d) (u64 (n - sz)) ;;
  b ← load (buffer d);
  n ← load (len d);
  mret (b + n).

Definition client (d : Z) : M heap Z :=
  a ← alloc d 3;
  store (a + 0) 0 ;;
  store (a + 1) 1 ;;
  store (a + 2) 2 ;;
  let x := a + 2 in
  load x.

(** talk_demo_alloc_full.c *)
Definition alloc_full (d sz : Z) : M heap Z :=
  n ← load (len d);
  if n <? sz then mret NULL else
  n ← load (len d);
  store (len d) (u64 (n - sz)) ;;
  b ← load (buffer d);
  n ← load (len d);
  mret (b + n).

(** The versions with less precise annotations have the same body. *)
Definition alloc_1 : Z → Z → M heap Z := alloc_full.
Definition alloc_2 : Z → Z → M heap Z := alloc_full.
Definition alloc_2_alt : Z → Z → M heap Z := alloc_full.
Definition alloc_3 : Z → Z → M heap Z := alloc_full.

(** [struct xy] has two characters. *)
Definition client_2 (d : Z) : M heap unit :=
  s ← alloc_2 d 2;
  if s =? NULL then mret tt else
  store s 0.

Definition client_full (d : Z) : M heap unit :=
  s ← alloc_full d 2;
  if s =? NULL then mret tt else
  store s 0 ;;
  t ← alloc_full d 2;
  if t =? NULL then mret tt else
  store t 0.

Definition alloc_from_start (d sz : Z) : M heap Z :=
  n ← load (len d);
  if n <? sz then mret NULL else
  n ← load (len d);
  store (len d) (u64 (n - sz)) ;;
  res ← load (buffer d);
  b ← load (buffer d);
  store (buffer d) (b + sz) ;;
  mret res.

Definition bytes (a n : Z) : hPropI := ([∗ list] i ∈ seqZ 0 n, (a + i) ↦?)%I.

Lemma bytes_split a n m : 0 ≤ n → 0 ≤ m → bytes a (n + m) ⊣⊢ bytes a n ∗ bytes (a + n) m.
Proof.
  intros Hn Hm. unfold bytes. rewrite seqZ_app // big_sepL_app. apply bi.sep_proper; [done|].
  replace (0 + n) with (n + 0) by lia. rewrite -(fmap_add_seqZ n 0) big_sepL_fmap.
  apply big_sepL_proper. intros i x _. by rewrite Z.add_assoc.
Qed.

Lemma bytes_cons a n : 1 ≤ n → bytes a n ⊣⊢ a ↦? ∗ bytes (a + 1) (n - 1).
Proof.
  intros Hn. replace (bytes a n) with (bytes a (1 + (n - 1))) by (f_equal; lia).
  rewrite bytes_split; [|lia|lia]. apply bi.sep_proper; [|done].
  unfold bytes. change (seqZ 0 1) with [0]. rewrite big_sepL_singleton. by rewrite Z.add_0_r.
Qed.

(** A buffer of [n] bytes at [b]. *)
Definition mem_at (d b n : Z) : hPropI :=
  (len d ↦ n ∗ buffer d ↦ b ∗ ⌜0 ≤ n < 2 ^ 64⌝ ∗ bytes b n)%I.

Lemma bytes_cut b n sz : 0 ≤ sz ≤ n → bytes b n ⊣⊢ bytes b (n - sz) ∗ bytes (b + (n - sz)) sz.
Proof. intros H. rewrite -bytes_split; [|lia..]. by replace (n - sz + sz) with n by lia. Qed.

(** Enough memory: the piece is the end of the buffer. *)
Lemma alloc_full_spec d b n sz :
  0 ≤ sz → b ≠ NULL →
  {{ mem_at d b n }} alloc_full d sz
  {{ r, if n <? sz then ⌜r = NULL⌝ ∗ mem_at d b n
        else ⌜r = (b + (n - sz))%Z⌝ ∗ mem_at d b (n - sz) ∗ bytes r sz }}.
Proof.
  intros Hsz Hb. triple_start. iIntros "(Hn & Hb & %Hr & H)". unfold alloc_full. wp_load.
  destruct (Z.ltb_spec n sz) as [Hlt|Hge]; [wp_rets; by iFrame|]. wp_steps.
  rewrite wrap_small; [|split; lia]. iDestruct (bytes_cut b n sz with "H") as "[H1 H2]"; [lia|].
  iSplit; [done|]. iFrame. iPureIntro. lia.
Qed.

Lemma alloc_from_start_spec d b n sz :
  0 ≤ sz →
  {{ mem_at d b n }} alloc_from_start d sz
  {{ r, if n <? sz then ⌜r = NULL⌝ ∗ mem_at d b n
        else ⌜r = b⌝ ∗ mem_at d (b + sz) (n - sz) ∗ bytes b sz }}.
Proof.
  intros Hsz. triple_start. iIntros "(Hn & Hb & %Hr & H)". unfold alloc_from_start. wp_load.
  destruct (Z.ltb_spec n sz) as [Hlt|Hge]; [wp_rets; by iFrame|]. wp_steps.
  rewrite wrap_small; [|split; lia].
  assert (bytes b n ⊣⊢ bytes b sz ∗ bytes (b + sz) (n - sz)) as Hcut.
  { rewrite -bytes_split; [|lia..]. by replace (sz + (n - sz)) with n by lia. }
  iDestruct (Hcut with "H") as "[H1 H2]". iSplit; [done|]. iFrame. iPureIntro. lia.
Qed.

Lemma alloc_spec d b n sz :
  0 ≤ sz ≤ n →
  {{ mem_at d b n }} alloc d sz
  {{ r, ⌜r = (b + (n - sz))%Z⌝ ∗ mem_at d b (n - sz) ∗ bytes r sz }}.
Proof.
  intros Hsz. triple_start. iIntros "(Hn & Hb & %Hr & H)". unfold alloc. wp_load.
  rewrite (proj2 (Z.leb_le sz n)); [|lia]. wp_rets. wp_steps. rewrite wrap_small; [|split; lia].
  iDestruct (bytes_cut b n sz with "H") as "[H1 H2]"; [lia|]. iSplit; [done|]. iFrame. iPureIntro. lia.
Qed.

(** With ten bytes [client] returns 2 and leaves seven; with fewer than three
    its allocation fails an assertion. *)
Theorem talk_client_returns d b :
  ({{ mem_at d b 10 }} client d {{ r, ⌜r = 2⌝ ∗ mem_at d b 7 }}) ∧
  (∀ n, n < 3 → stops (mem_at d b n) (client d) AssertionFailure).
Proof.
  split.
  - triple_start. iIntros "H". unfold client. wp_call (alloc_spec d b 10 3 ltac:(lia)) with "H".
    iIntros (r) "(-> & Hm & H)". generalize (b + (10 - 3)). intros a.
    rewrite bytes_cons // (bytes_cons (a + 1)) // (bytes_cons (a + 1 + 1)) //.
    iDestruct "H" as "([% H0] & [% H1] & [% H2] & _)".
    replace (a + 1 + 1) with (a + 2) by lia. rewrite -{1}(Z.add_0_r a). wp_steps. by iFrame.
  - intros n Hn. apply stops_wps. iIntros "(Hl & _)". unfold client, alloc.
    iApply wps_first. iApply wps_bind. wp_load. rewrite (proj2 (Z.leb_gt 3 n)) //.
    iApply wps_first. iApply wps_fail.
Qed.

(** [client_full] takes what it can get and never fails. *)
Theorem talk_client_full_returns d b n :
  0 < b → {{ mem_at d b n }} client_full d {{ _, ∃ m, ⌜n - 4 ≤ m ≤ n⌝ ∗ mem_at d b m }}.
Proof.
  intros Hb. triple_start. iIntros "H". unfold client_full.
  wp_call (alloc_full_spec d b n 2 ltac:(lia) ltac:(unfold NULL; lia)) with "H". iIntros (r) "H".
  destruct (Z.ltb_spec n 2) as [Hlt|Hge].
  { iDestruct "H" as "[-> H]". wp_rets. iExists n. iFrame. iPureIntro. lia. }
  iDestruct "H" as "(-> & Hm & Hs)". rewrite (proj2 (Z.eqb_neq _ NULL)); [|unfold NULL; lia].
  rewrite bytes_cons //. iDestruct "Hs" as "[[% Hs] _]". wp_store.
  wp_call (alloc_full_spec d b (n - 2) 2 ltac:(lia) ltac:(unfold NULL; lia)) with "Hm". iIntros (r) "H".
  destruct (Z.ltb_spec (n - 2) 2) as [Hlt|Hge2].
  { iDestruct "H" as "[-> H]". wp_rets. iExists (n - 2). iFrame. iPureIntro. lia. }
  iDestruct "H" as "(-> & Hm & Ht)". rewrite (proj2 (Z.eqb_neq _ NULL)); [|unfold NULL; lia].
  rewrite bytes_cons //. iDestruct "Ht" as "[[% Ht] _]". wp_store. iExists (n - 2 - 2). iFrame. iPureIntro. lia.
Qed.
End TalkAlloc.
