(* ===== verification/LockTest.v ===== *)
(** * Data behind a lock (src/examples/lock.c)

    A [struct lock_test] keeps [locked_int] and [locked_struct] behind a
    spinlock.  Each function is a sequence of memory accesses, and any number
    of threads run calls of them interleaved at every access.  Every
    execution is the same as one in which the calls happen one at a time:
    reads return the last value written before them, and the k-th call of
    [increment] returns the smaller of k and 10. *)
From S2P Require Import Prelude SpinLock.
From stdpp Require Import list relations functions.
From iris.prelude Require Import prelude.
#[local] Open Scope Z_scope.

Module LockTest.

(** The members of [struct lock_test]; [a] and [b] are those of [locked_struct]. *)
Inductive field := outside | lock | locked_int | a | b.

#[export] Instance field_eq_dec : EqDecision field.
Proof. solve_decision. Defined.

Definition mem := field → Z.

(** A function body: its accesses to the structure, in order.  [Lock] is a call
    of [sl_lock] on the member [lock], with the place it has reached. *)
Inductive act (A : Type) :=
  | Done (r : A)
  | Read (f : field) (k : Z → act A)
  | Write (f : field) (v : Z) (k : act A)
  | Lock (p : SpinLock.lock_pc) (k : act A).
Arguments Done {A} _.
Arguments Read {A} _ _.
Arguments Write {A} _ _ _.
Arguments Lock {A} _ _.

Fixpoint act_bind {A B} (p : act A) (k : A → act B) : act B :=
  match p with
  | Done r => k r
  | Read f g => Read f (λ v, act_bind (g v) k)
  | Write f v p => Write f v (act_bind p k)
  | Lock q p => Lock q (act_bind p k)
  end.

#[export] Instance act_mret : MRet act := @Done.
#[export] Instance act_mbind : MBind act := λ A B k p, act_bind p k.

Definition load (f : field) : act Z := Read f Done.
Definition store (f : field) (v : Z) : act unit := Write f v (Done tt).
Definition sl_init : act unit := store lock 0.
Definition sl_lock : act unit := Lock SpinLock.LockEnter (Done tt).
Definition sl_unlock : act unit := store lock 0.

(** ** The functions *)

Definition init : act unit :=
  store outside 0 ;;
  store locked_int 0 ;;
  store a 0 ;;
  store b 10 ;;
  sl_init.

Definition write_outside (n : Z) : act unit := store outside n.

Definition read_outside : act Z := load outside.

Definition write_locked (n : Z) : act unit :=
  sl_lock ;;
  store locked_int n ;;
  sl_unlock.

Definition read_locked : act Z :=
  sl_lock ;;
  ret ← load locked_int;
  sl_unlock ;;
  mret ret.

Definition increment : act Z :=
  sl_lock ;;
  vb ← load b;
  (if 0 <? vb then
     va ← load a;
     store a (u64 (va + 1)) ;;
     vb ← load b;
     store b (u64 (vb - 1))
   else mret tt) ;;
  ret ← load a;
  sl_unlock ;;
  mret ret.

(** ** Threads *)

Inductive call := WriteLocked (n : Z) | ReadLocked | Increment.

Definition body (c : call) : act Z :=
  match c with
  | WriteLocked n => write_locked n ;; mret 0
  | ReadLocked => read_locked
  | Increment => increment
  end.

(** A thread makes the calls of [todo] one after the other; [log] has the calls
    that returned and their results. *)
Record thread := Thread {
  todo : list call;
  cur : option (call * act Z);
  log : list (call * Z);
}.

Record world := World { memory : mem; threads : list thread }.

(** The next step of a thread: it starts a call, accesses the memory, makes a
    step of [sl_lock] or returns. *)
Definition next (m : mem) (t : thread) : option (mem * thread) :=
  match t with
  | Thread cs None l =>
      match cs with
      | [] => None
      | c :: cs => Some (m, Thread cs (Some (c, body c)) l)
      end
  | Thread cs (Some (c, p)) l =>
      Some match p with
      | Done r => (m, Thread cs None (l ++ [(c, r)]))
      | Read f k => (m, Thread cs (Some (c, k (m f))) l)
      | Write f v p => (<[f := v]> m, Thread cs (Some (c, p)) l)
      | Lock q p =>
          let '(v, q) := SpinLock.sl_lock_step (m lock) q in
          (<[lock := v]> m,
           Thread cs (Some (c, match q with SpinLock.LockDone => p | _ => Lock q p end)) l)
      end
  end.

Inductive step : world → world → Prop :=
  | Step m ts i t m' t' :
      ts !! i = Some t → next m t = Some (m', t') →
      step (World m ts) (World m' (<[i := t']> ts)).

(** A body, or the rest of one, that does not call [sl_lock], run without
    interruption. *)
Fixpoint run {A} (p : act A) (m : mem) : option (A * mem) :=
  match p with
  | Done r => Some (r, m)
  | Read f k => run (k (m f)) m
  | Write f v p => run p (<[f := v]> m)
  | Lock _ _ => None
  end.

(** Memory after [init], whatever it was before. *)
Definition initialized (m : mem) : Prop := ∃ m0, run init m0 = Some (tt, m).

Definition start (m : mem) (scripts : list (list call)) : world :=
  World m ((λ cs, Thread cs None []) <$> scripts).

(** The threads that a schedule picks, one after the other. *)
Fixpoint schedule (l : list nat) (w : world) : world :=
  match l with
  | [] => w
  | i :: l =>
      schedule l
        match threads w !! i with
        | Some t =>
            match next (memory w) t with
            | Some (m', t') => World m' (<[i := t']> (threads w))
            | None => w
            end
        | None => w
        end
  end.

Lemma schedule_steps l w : rtc step w (schedule l w).
Proof.
  revert w. induction l as [|i l IH]; intros [m ts]; [done|]. simpl.
  destruct (ts !! i) as [t|] eqn:Ht; [|done].
  destruct (next m t) as [[m' t']|] eqn:Hn; [|done].
  eapply rtc_l; [by eapply Step|done].
Qed.

(** ** What the calls do when they happen one at a time *)

Record state := State { value : Z; count : Z }.

Definition spec (c : call) (s : state) : Z * state :=
  match c with
  | WriteLocked n => (0, State n (count s))
  | ReadLocked => (value s, s)
  | Increment => let n := Z.min (count s + 1) 10 in (n, State (value s) n)
  end.

(** The calls of a history, with their threads and results. *)
Definition event : Type := nat * (call * Z).

Fixpoint replay (s : state) (h : list event) : option state :=
  match h with
  | [] => Some s
  | (_, (c, r)) :: h => if decide (fst (spec c s) = r) then replay (snd (spec c s)) h else None
  end.

Definition calls_of (i : nat) (h : list event) : list (call * Z) :=
  snd <$> filter (λ e, e.1 = i) h.

(** The call that took effect and has yet to return. *)
Definition pending (t : thread) : list (call * Z) :=
  match cur t with Some (c, Done r) => [(c, r)] | _ => [] end.

Definition holds (s : state) (m : mem) : Prop :=
  m locked_int = value s ∧ m a = count s ∧ m b = 10 - count s ∧ 0 ≤ count s ≤ 10.

(** A history explains a world: its results are those of the calls made one at
    a time, each thread made its calls in this order, and a free lock protects
    the state they lead to. *)
Definition explains (w : world) (h : list event) : Prop :=
  (∃ s, replay (State 0 0) h = Some s ∧ (memory w lock = 0 → holds s (memory w))) ∧
  ∀ i t, threads w !! i = Some t → calls_of i h = log t ++ pending t.

Lemma replay_snoc s h i c r :
  replay s (h ++ [(i, (c, r))]) =
    (s' ← replay s h; if decide ((spec c s').1 = r) then Some (spec c s').2 else None).
Proof.
  revert s. induction h as [|[j [c' r']] h IH]; intros s; [done|]. simpl. by case_decide.
Qed.

Lemma calls_of_snoc i h j x :
  calls_of i (h ++ [(j, x)]) = calls_of i h ++ (if decide (j = i) then [x] else []).
Proof.
  unfold calls_of. rewrite filter_app fmap_app. f_equal.
  destruct (decide (j = i)) as [->|Hn].
  - by rewrite filter_cons_True.
  - by rewrite filter_cons_False.
Qed.

(** ** The critical sections *)

(** The rest of a body whose thread has the lock: it lets go of the lock with
    its last access and does not touch it before. *)
Inductive critical : act Z → Prop :=
  | CriticalUnlock r : critical (Write lock 0 (Done r))
  | CriticalRead f k : (∀ v, critical (k v)) → critical (Read f k)
  | CriticalWrite f v p : f ≠ lock → critical p → critical (Write f v p).

(** What the rest of a call will do if nobody interferes. *)
Definition will (c : call) (p : act Z) (s : state) (m : mem) : Prop :=
  critical p ∧ ∃ m', run p m = Some ((spec c s).1, m') ∧ holds (spec c s).2 m'.

Lemma body_acquires c : ∃ p, body c = Lock SpinLock.LockEnter p ∧ critical p.
Proof.
  destruct c; eexists; (split; [reflexivity|]).
  - by repeat constructor.
  - constructor. intros v. constructor.
  - constructor. intros v. simpl. destruct (0 <? v); by repeat (constructor; intros; simpl).
Qed.

Lemma holds_write s m f v :
  f = lock ∨ f = outside → holds s m → holds s (<[f := v]> m).
Proof. intros [-> | ->] H; unfold holds; by rewrite !fn_lookup_insert_ne. Qed.

(** Reads of members after writes to them. *)
Ltac solve_holds := unfold holds, insert, fn_insert in *; simpl in *; lia.

(** A call that takes the lock will do what it should. *)
Lemma acquire_will c p s m :
  body c = Lock SpinLock.LockEnter p → holds s m → will c p s (<[lock := 1]> m).
Proof.
  intros Hb (Hi & Ha & Hbb & Hr). destruct (body_acquires c) as (p' & Hb' & Hc).
  rewrite Hb in Hb'. injection Hb' as <-. split; [done|].
  destruct c; injection Hb as <-; cbn [run].
  - eexists. split; [done|]. solve_holds.
  - rewrite fn_lookup_insert_ne // Hi. eexists. split; [done|]. solve_holds.
  - rewrite fn_lookup_insert_ne // Hbb. destruct (Z.ltb_spec 0 (10 - count s)).
    + simpl. unfold insert, fn_insert. simpl. rewrite Ha Hbb. rewrite !wrap_small; [|split; lia..].
      rewrite Z.min_l; [|lia]. eexists. split; [done|]. solve_holds.
    + simpl. unfold insert, fn_insert. simpl. rewrite Ha Z.min_r; [|lia].
      assert (count s = 10) as Hs by lia. rewrite Hs. eexists. split; [done|]. solve_holds.
Qed.

(** ** The invariant *)

(** Where a call of [sl_lock] that has not returned is: [expected] is 0 at every
    compare-and-exchange. *)
Definition spinning (q : SpinLock.lock_pc) : Prop :=
  match q with
  | SpinLock.LockCas expected => expected = 0
  | SpinLock.LockDone => False
  | _ => True
  end.

(** A thread that does not have the lock. *)
Definition away (t : thread) : Prop :=
  match cur t with
  | Some (_, Done _) | None => True
  | Some (c, Lock q p) => spinning q ∧ body c = Lock SpinLock.LockEnter p
  | _ => False
  end.

(** Nobody has the lock, or exactly one thread does, and it will do its call. *)
Definition lock_inv (s : state) (w : world) : Prop :=
  (memory w lock = 0 ∧ holds s (memory w) ∧ Forall away (threads w)) ∨
  (memory w lock = 1 ∧ ∃ i t c p,
     threads w !! i = Some t ∧ cur t = Some (c, p) ∧ will c p s (memory w) ∧
     ∀ j t', j ≠ i → threads w !! j = Some t' → away t').

Definition inv (w : world) (h : list event) : Prop :=
  (∃ s, replay (State 0 0) h = Some s ∧ lock_inv s w) ∧
  ∀ i t, threads w !! i = Some t → calls_of i h = log t ++ pending t.

Lemma run_ext {A} (p : act A) m1 m2 r m1' :
  (∀ f, m1 f = m2 f) → run p m1 = Some (r, m1') →
  ∃ m2', run p m2 = Some (r, m2') ∧ ∀ f, m1' f = m2' f.
Proof.
  revert m1 m2. induction p as [r'|f k IH|f v p IH|q p IH]; intros m1 m2 Hm Hr; simplify_eq/=.
  - eauto.
  - rewrite -Hm. eauto.
  - eapply IH; [|done]. intros g. unfold insert, fn_insert. by case_decide.
Qed.

(** A step that writes the lock back as it is changes nothing. *)
Lemma lock_inv_ext s m1 m2 ts :
  (∀ f, m1 f = m2 f) → lock_inv s (World m1 ts) → lock_inv s (World m2 ts).
Proof.
  intros Hm. unfold lock_inv, will, holds. simpl. rewrite !Hm.
  intros [?|(H1 & i & t & c & p & Hi & Hc & (Hcr & m' & Hr & Hh) & Ho)]; [by left|right].
  split; [done|]. exists i, t, c, p. split_and!; try done.
  destruct (run_ext p m1 m2 _ m' Hm Hr) as (m2' & Hr2 & Hm'). exists m2'. by rewrite -!Hm'.
Qed.

Lemma inv_explains w h : inv w h → explains w h.
Proof.
  intros [(s & Hs & Hl) Hp]. split; [|done]. exists s. split; [done|].
  intros H0. destruct Hl as [(_ & ? & _)|[? _]]; [done|congruence].
Qed.

Lemma start_inv m scripts : initialized m → inv (start m scripts) [].
Proof.
  intros [m0 [= <-]]. split.
  - exists (State 0 0). split; [done|]. left. split; [done|]. split; [unfold holds; simpl; by repeat split|].
    apply Forall_fmap, Forall_true. by intros.
  - intros i t Ht. simpl in Ht. apply list_lookup_fmap_Some in Ht as (cs & -> & _). done.
Qed.

(** ** Steps preserve the invariant *)

(** Replacing a thread that returned nothing keeps the logs. *)
Lemma logs_insert (ts : list thread) i t t' h :
  ts !! i = Some t → log t' ++ pending t' = log t ++ pending t →
  (∀ j u, ts !! j = Some u → calls_of j h = log u ++ pending u) →
  ∀ j u, <[i := t']> ts !! j = Some u → calls_of j h = log u ++ pending u.
Proof.
  intros Hi Ht Hl j u [(-> & -> & _)|[Hn Hu]]%list_lookup_insert_Some; [|by apply Hl].
  rewrite Ht. by apply Hl.
Qed.

(** The thread that lets go of the lock adds its call to the history. *)
Lemma logs_finish (ts : list thread) i t t' h x :
  ts !! i = Some t → log t' ++ pending t' = (log t ++ pending t) ++ [x] →
  (∀ j u, ts !! j = Some u → calls_of j h = log u ++ pending u) →
  ∀ j u, <[i := t']> ts !! j = Some u → calls_of j (h ++ [(i, x)]) = log u ++ pending u.
Proof.
  intros Hi Ht Hl j u Hu. rewrite calls_of_snoc.
  apply list_lookup_insert_Some in Hu as [(-> & -> & _)|[Hn Hu]].
  - rewrite decide_True // Ht. by rewrite (Hl _ _ Hi).
  - rewrite decide_False // app_nil_r. by apply Hl.
Qed.

(** A step that neither takes nor frees the lock: of a thread away from it … *)
Lemma lock_inv_away s m ts i t t' :
  ts !! i = Some t → away t → away t' →
  lock_inv s (World m ts) → lock_inv s (World m (<[i := t']> ts)).
Proof.
  intros Hi Ha Ha' [(H0 & Hh & Hf)|(H1 & k & u & c & p & Hk & Hc & Hw & Ho)].
  - left. split_and!; [done..|]. by apply Forall_insert.
  - right. split; [done|]. simpl in *. destruct (decide (i = k)) as [->|Hn].
    + simplify_eq. unfold away in Ha. rewrite Hc in Ha. destruct Hw as [Hcr _].
      by destruct Hcr.
    + exists k, u, c, p. rewrite list_lookup_insert_ne //. split_and!; [done..|].
      intros j t1 Hj [(-> & -> & _)|[? ?]]%list_lookup_insert_Some; eauto.
Qed.

(** … and of the thread that has it. *)
Lemma lock_inv_inside s m m' ts i t t' c p :
  ts !! i = Some t → m lock = 1 →
  (∀ j u, j ≠ i → ts !! j = Some u → away u) →
  m' lock = 1 → cur t' = Some (c, p) → will c p s m' →
  lock_inv s (World m' (<[i := t']> ts)).
Proof.
  intros Hi H1 Ho H1' Hc Hw. right. split; [done|]. exists i, t', c, p. simpl.
  rewrite list_lookup_insert_eq; [|by eapply lookup_lt_Some]. split_and!; [done..|].
  intros j u Hj. rewrite list_lookup_insert_ne //. by apply Ho.
Qed.

(** The thread that has the lock goes on, and the history grows by its call when
    it lets go. *)
Lemma inside_step s m ts i t m' t' c p h :
  ts !! i = Some t → cur t = Some (c, p) → will c p s m → m lock = 1 →
  replay (State 0 0) h = Some s →
  (∀ j u, j ≠ i → ts !! j = Some u → away u) →
  (∀ j u, ts !! j = Some u → calls_of j h = log u ++ pending u) →
  next m t = Some (m', t') →
  ∃ h', inv (World m' (<[i := t']> ts)) (h ++ h').
Proof.
  intros Hi Hc [Hcr (mf & Hrun & Hh)] H1 Hre Ho Hl Hn.
  destruct t as [cs cu l]. simpl in Hc. subst cu.
  destruct Hcr as [r|f k Hk|f v p Hf Hp]; simpl in Hn; injection Hn as <- <-; simpl in Hrun.
  - injection Hrun as -> <-. exists [(i, (c, (spec c s).1))]. split.
    + exists (spec c s).2. split; [by rewrite replay_snoc Hre /= decide_True|].
      left. split; [done|]. split; [done|]. simpl. apply Forall_lookup_2. intros j u Hu.
      apply list_lookup_insert_Some in Hu as [(<- & <- & _)|[Hn Hu]]; eauto. done.
    + eapply logs_finish; [done| |done]. simpl. by rewrite app_nil_r.
  - exists []. rewrite app_nil_r. split; [|].
    + exists s. split; [done|]. by eapply lock_inv_inside; [..|split; eauto].
    + eapply logs_insert; [done| |done]. by destruct (Hk (m f)).
  - exists []. rewrite app_nil_r. split.
    + exists s. split; [done|]. eapply lock_inv_inside; [done..| | |split; eauto]; [|done].
      by rewrite fn_lookup_insert_ne.
    + eapply logs_insert; [done| |done]. by destruct Hp.
Qed.

(** A step of [sl_lock] takes the lock when it finds it free, or it spins. *)
Lemma spin_step v q :
  spinning q →
  (v = 0 ∧ SpinLock.sl_lock_step v q = (1, SpinLock.LockDone)) ∨
  ∃ q', spinning q' ∧ SpinLock.sl_lock_step v q = (v, q').
Proof.
  destruct q as [|e|e|]; simpl; intros Hq; [| | |done].
  - right. by exists (SpinLock.LockCas 0).
  - subst e. destruct (Z.eqb_spec v 0); [by left|right; by exists (SpinLock.LockBody v)].
  - right. by exists (SpinLock.LockCas 0).
Qed.

(** Any other thread calls, returns, spins or takes the lock. *)
Lemma away_step s m ts i t m' t' h :
  ts !! i = Some t → away t → replay (State 0 0) h = Some s → lock_inv s (World m ts) →
  (∀ j u, ts !! j = Some u → calls_of j h = log u ++ pending u) →
  next m t = Some (m', t') →
  inv (World m' (<[i := t']> ts)) h.
Proof.
  intros Hi Ha Hs Hl Hp Hn. destruct t as [cs [[c p]|] l]; cycle 1.
  { destruct cs as [|c cs]; [done|]. injection Hn as <- <-. split.
    - exists s. split; [done|]. eapply lock_inv_away; [done..| |done].
      unfold away. simpl. by destruct (body_acquires c) as (q & -> & _).
    - eapply logs_insert; [done| |done]. unfold pending. simpl.
      by destruct (body_acquires c) as (q & -> & _). }
  unfold away in Ha. simpl in Ha. destruct p as [r|f k|f v p|q p]; try done.
  { injection Hn as <- <-. split.
    - exists s. split; [done|]. by eapply lock_inv_away; [..|done].
    - eapply logs_insert; [done| |done]. simpl. by rewrite app_nil_r. }
  destruct Ha as [Hq Hb].
  destruct (spin_step (m lock) q Hq) as [(H0 & E)|(q' & Hq' & E)];
    simpl in Hn; rewrite E in Hn; simpl in Hn.
  - injection Hn as <- <-. destruct Hl as [(_ & Hh & Hf)|[H1 _]]; [|simpl in H1; congruence]. split.
    + exists s. split; [done|]. right. split; [done|].
      exists i, (Thread cs (Some (c, p)) l), c, p. simpl in *.
      rewrite list_lookup_insert_eq; [|by eapply lookup_lt_Some].
      split_and!; [done..|by apply acquire_will|]. intros j u Hj.
      rewrite list_lookup_insert_ne //. by apply Forall_lookup_1.
    + eapply logs_insert; [done| |done]. unfold pending. simpl.
      destruct (acquire_will c p s m Hb Hh) as [Hcr _]. by destruct Hcr.
  - assert ((m', t') = (<[lock := m lock]> m, Thread cs (Some (c, Lock q' p)) l)) as [= -> ->].
    { by destruct q'; simplify_eq/=. }
    split.
    + exists s. split; [done|]. eapply (lock_inv_ext s m).
      { intros f. unfold insert, fn_insert. case_decide; by subst. }
      by eapply lock_inv_away; [..|done].
    + by eapply logs_insert; [..|done].
Qed.

Lemma world_step_inv w w' h : step w w' → inv w h → ∃ h', inv w' (h ++ h').
Proof.
  intros [m ts i t m' t' Hi Hn] [(s & Hs & Hl) Hp].
  assert (away t → ∃ h', inv (World m' (<[i := t']> ts)) (h ++ h')) as Haway.
  { intros Ha. exists []. rewrite app_nil_r. by eapply away_step. }
  pose proof Hl as [(H0 & Hh & Hf)|(H1 & k & u & c & p & Hk & Hc & Hw & Ho)].
  - apply Haway. by eapply Forall_lookup_1 in Hf.
  - destruct (decide (i = k)) as [->|Hne]; [|by apply Haway; eapply Ho].
    simpl in *. simplify_eq. by eapply inside_step.
Qed.

Lemma steps_inv w w' h : rtc step w w' → inv w h → ∃ h', inv w' (h ++ h').
Proof.
  intros Hr. revert h. induction Hr as [w|w1 w2 w3 Hs _ IH]; intros h Hi.
  - exists []. by rewrite app_nil_r.
  - destruct (world_step_inv _ _ _ Hs Hi) as [h1 H1]. destruct (IH _ H1) as [h2 H2].
    exists (h1 ++ h2). by rewrite app_assoc.
Qed.

(** ** Progress *)

Definition finished (t : thread) : Prop := todo t = [] ∧ cur t = None.

#[export] Instance finished_dec t : Decision (finished t).
Proof. destruct t as [[|c cs] [x|] l]; [right|left|right|right]; by intros [] || done. Defined.

(** The calls that have not returned. *)
Definition waiting (t : thread) : nat :=
  2 * length (todo t) + match cur t with Some _ => 1 | None => 0 end.
Definition waiting_all (w : world) : nat := sum_list (waiting <$> threads w).

Lemma waiting_insert ts i t t' :
  ts !! i = Some t → (waiting t' < waiting t)%nat →
  (sum_list (waiting <$> <[i := t']> ts) < sum_list (waiting <$> ts))%nat.
Proof.
  revert i. induction ts as [|u ts IH]; intros [|i] Hi Hlt; simplify_eq/=; [lia|].
  specialize (IH i Hi Hlt). lia.
Qed.

(** The thread that has the lock can run to the end of its call. *)
Lemma critical_runs p : critical p → ∀ m ts i cs c l,
  ts !! i = Some (Thread cs (Some (c, p)) l) →
  ∃ m' r, rtc step (World m ts) (World m' (<[i := Thread cs (Some (c, Done r)) l]> ts)) ∧
          m' lock = 0.
Proof.
  induction 1 as [r|f k Hk IH|f v p Hf Hp IH]; intros m ts i cs c l Hi.
  - exists (<[lock := 0]> m), r. split; [|done]. apply rtc_once. by eapply Step.
  - destruct (IH (m f) m (<[i := Thread cs (Some (c, k (m f))) l]> ts) i cs c l)
      as (m' & r & Hr & H0); [rewrite list_lookup_insert_eq //; by eapply lookup_lt_Some|].
    rewrite list_insert_insert_eq in Hr. exists m', r. split; [|done].
    eapply rtc_l; [by eapply Step|done].
  - destruct (IH (<[f := v]> m) (<[i := Thread cs (Some (c, p)) l]> ts) i cs c l)
      as (m' & r & Hr & H0); [rewrite list_lookup_insert_eq //; by eapply lookup_lt_Some|].
    rewrite list_insert_insert_eq in Hr. exists m', r. split; [|done].
    eapply rtc_l; [by eapply Step|done].
Qed.

(** A thread that spins on the free lock can take it. *)
Lemma lock_runs q p m ts i cs c l :
  ts !! i = Some (Thread cs (Some (c, Lock q p)) l) → spinning q → m lock = 0 →
  ∃ m', rtc step (World m ts) (World m' (<[i := Thread cs (Some (c, p)) l]> ts)).
Proof.
  intros Hi Hq H0. pose proof (lookup_lt_Some _ _ _ Hi) as Hlt.
  assert (∀ m ts, ts !! i = Some (Thread cs (Some (c, Lock (SpinLock.LockCas 0) p)) l) → m lock = 0 →
    step (World m ts) (World (<[lock := 1]> m) (<[i := Thread cs (Some (c, p)) l]> ts))) as Hcas.
  { intros m1 ts1 Hi1 H1. eapply Step; [done|]. by rewrite /= H1. }
  assert (∀ t, ts !! i = Some t →
    next m t = Some (<[lock := m lock]> m, Thread cs (Some (c, Lock (SpinLock.LockCas 0) p)) l) →
    ∃ m', rtc step (World m ts) (World m' (<[i := Thread cs (Some (c, p)) l]> ts))) as Htwo.
  { intros t Hit Ht. eexists. eapply rtc_l; [by eapply Step|]. eapply rtc_once.
    rewrite -(list_insert_insert_eq ts i (Thread cs (Some (c, p)) l)
      (Thread cs (Some (c, Lock (SpinLock.LockCas 0) p)) l)).
    eapply Hcas; [by rewrite list_lookup_insert_eq|done]. }
  destruct q as [|e|e|]; simpl in Hq; [by apply (Htwo _ Hi)| |by apply (Htwo _ Hi)|done].
  subst e. eexists. eapply rtc_once. by apply Hcas.
Qed.

(** A call that has begun can return, and lets go of the lock if it had it. *)
Lemma call_returns m ts i cs c p l :
  ts !! i = Some (Thread cs (Some (c, p)) l) →
  critical p ∨ m lock = 0 ∧ away (Thread cs (Some (c, p)) l) →
  ∃ m' r, rtc step (World m ts) (World m' (<[i := Thread cs None (l ++ [(c, r)])]> ts)) ∧
          m' lock = 0.
Proof.
  intros Hi Hp. pose proof (lookup_lt_Some _ _ _ Hi) as Hlt.
  assert (∃ m' r, rtc step (World m ts) (World m' (<[i := Thread cs (Some (c, Done r)) l]> ts)) ∧
                  m' lock = 0) as (m' & r & Hr & H0).
  { destruct Hp as [Hc|[H0 Ha]]; [by apply (critical_runs p)|].
    unfold away in Ha. simpl in Ha. destruct p as [r|f k|f v p|q p]; try done.
    - exists m, r. by rewrite list_insert_id.
    - destruct Ha as [Hq Hb]. destruct (body_acquires c) as (q' & Hq' & Hc).
      rewrite Hb in Hq'. injection Hq' as <-.
      destruct (lock_runs q p m ts i cs c l Hi Hq H0) as (m1 & H1).
      destruct (critical_runs p Hc m1 (<[i := Thread cs (Some (c, p)) l]> ts) i cs c l)
        as (m' & r & Hr & H0'); [by rewrite list_lookup_insert_eq|].
      rewrite list_insert_insert_eq in Hr. exists m', r. split; [by etrans|done]. }
  exists m', r. split; [|done]. eapply rtc_r; [exact Hr|].
  rewrite -(list_insert_insert_eq ts i (Thread cs None (l ++ [(c, r)])) (Thread cs (Some (c, Done r)) l)).
  by eapply Step; [rewrite list_lookup_insert_eq|].
Qed.

Lemma some_call_returns w h :
  inv w h → ¬ Forall finished (threads w) →
  ∃ w', rtc step w w' ∧ (waiting_all w' < waiting_all w)%nat.
Proof.
  intros [(s & _ & Hl) _] Hf. destruct w as [m ts]. simpl in *.
  assert (∀ i cs c p l, ts !! i = Some (Thread cs (Some (c, p)) l) →
    critical p ∨ m lock = 0 ∧ away (Thread cs (Some (c, p)) l) →
    ∃ w', rtc step (World m ts) w' ∧ (waiting_all w' < waiting_all (World m ts))%nat) as Hret.
  { intros i cs c p l Hi Hp. destruct (call_returns m ts i cs c p l Hi Hp) as (m' & r & Hr & _).
    eexists. split; [exact Hr|]. eapply waiting_insert; [done|]. unfold waiting. simpl. lia. }
  destruct Hl as [(H0 & _ & Ha)|(_ & i & [cs cu l] & c & p & Hi & Hc & [Hcr _] & _)].
  - apply not_Forall_Exists, Exists_exists in Hf as (t & [i Hi]%list_elem_of_lookup & Ht); [|apply _].
    eapply Forall_lookup_1 in Ha; [|done]. destruct t as [cs [[c p]|] l].
    + apply (Hret i cs c p l Hi). by right.
    + destruct cs as [|c cs]; [by destruct Ht|].
      eexists. split; [eapply rtc_once; by eapply Step|].
      eapply waiting_insert; [done|]. unfold waiting. simpl. lia.
  - simpl in Hc. subst cu. apply (Hret i cs c p l Hi). by left.
Qed.

Lemma all_calls_return w h :
  inv w h → ∃ w', rtc step w w' ∧ Forall finished (threads w').
Proof.
  revert h. induction w as [w IH] using (induction_ltof1 _ waiting_all). intros h Hi.
  destruct (decide (Forall finished (threads w))) as [Hf|Hf]; [by exists w|].
  destruct (some_call_returns w h Hi Hf) as (w1 & Hr & Hlt).
  destruct (steps_inv _ _ _ Hr Hi) as [h1 Hi1]. destruct (IH w1 Hlt _ Hi1) as (w2 & Hr2 & Hf2).
  exists w2. split; [by etrans|done].
Qed.

(** C8. The calls of any number of threads, interleaved at every memory access,
    take effect one at a time: at each point of the execution there is a
    history that has the results the threads got, in the order they made their
    calls; replayed alone its reads return the last value written and its k-th
    increment the smaller of k and 10, and when the lock is free the structure
    holds the state it leads to, so [a] and [b] add up to 10.  A later point of
    the execution extends the history, and from every point the execution can
    go on until all calls have returned. *)
Theorem lock_test_calls_linearize m scripts w1 w2 :
  initialized m → rtc step (start m scripts) w1 → rtc step w1 w2 →
  (∃ h1 h2, explains w1 h1 ∧ explains w2 (h1 ++ h2)) ∧
  ∃ w3, rtc step w2 w3 ∧ Forall finished (threads w3).
Proof.
  intros Hm H1 H2. destruct (steps_inv _ _ _ H1 (start_inv m scripts Hm)) as [h1 Hi1].
  destruct (steps_inv _ _ _ H2 Hi1) as [h2 Hi2].
  split; [|by eapply all_calls_return]. exists h1, h2. by split; apply inv_explains.
Qed.

(** Two threads, one step each in turn. *)
Definition demo_world : world :=
  start (from_option snd (λ _, 0) (run init (λ _, 0)))
    [[Increment; ReadLocked]; [WriteLocked 7; Increment]].
Definition demo_turns (n : nat) : list nat := mjoin (replicate n [0%nat; 1%nat]).

Lemma lock_test_calls_linearize_witness :
  log <$> threads (schedule (demo_turns 30) demo_world) =
    [[(Increment, 1); (ReadLocked, 7)]; [(WriteLocked 7, 0); (Increment, 2)]] ∧
  (∃ h1 h2, explains (schedule (demo_turns 6) demo_world) h1 ∧
            explains (schedule (demo_turns 8) (schedule (demo_turns 6) demo_world)) (h1 ++ h2)) ∧
  ∃ w3, rtc step (schedule (demo_turns 8) (schedule (demo_turns 6) demo_world)) w3 ∧
        Forall finished (threads w3).
Proof.
  split; [vm_compute; reflexivity|].
  apply (lock_test_calls_linearize (from_option snd (λ _, 0) (run init (λ _, 0)))
           [[Increment; ReadLocked]; [WriteLocked 7; Increment]]).
  - exists (λ _, 0). reflexivity.
  - apply schedule_steps.
  - apply schedule_steps.
Defined.
End LockTest.
