(* ===== verification/Words.v ===== *)
(** * Words that hold two things

    Tagged pointers (src/examples/tagged_ptr.c), OCaml values
    (src/examples/ocaml_runtime.c), a byte of flags (src/examples/flags.c),
    shifts and wrapping addition (src/examples/shift.c, wrapping_add.c), and the
    buddy of a page as the case study of it computes it
    (src/linux/casestudies/page_alloc_find_buddy.c).  Addresses are numbers:
    the allocation a pointer came from is not recorded. *)
From S2P Require Import Prelude HeapLogic Buddy.
From stdpp Require Import list.
From iris.proofmode Require Import proofmode.
#[local] Open Scope Z_scope.

(** ** Bits *)

(** Clearing the low bits of a word rounds it down. *)
Lemma land_clear w k z :
  0 ≤ k ≤ w → in_unsigned w z → Z.land z (cnot w (Z.ones k)) = z - z mod 2 ^ k.
Proof.
  intros Hk Hz. unfold cnot, wrap. rewrite -Z.land_ones; [|lia].
  rewrite (Z.land_comm (Z.lnot _)) Z.land_assoc Z.land_ones; [|lia]. rewrite (Z.mod_small z); [|done].
  rewrite -Z.ldiff_land Z.ldiff_ones_r; [|lia]. rewrite Z.shiftr_div_pow2; [|lia].
  rewrite Z.shiftl_mul_pow2; [|lia]. pose proof (Z.div_mod z (2 ^ k) ltac:(lia)). lia.
Qed.

(** Putting low bits into a word that has none adds them. *)
Lemma lor_low k q t : 0 ≤ k → 0 ≤ t < 2 ^ k → Z.lor (2 ^ k * q) t = 2 ^ k * q + t.
Proof.
  intros Hk Ht. rewrite -Z.add_nocarry_lor; [done|].
  rewrite -{1}(Z.mod_small t (2 ^ k)) // -Z.land_ones // (Z.land_comm t) Z.land_assoc Z.land_ones //.
  rewrite (Z.mul_comm (2 ^ k)) Z.mod_mul; [done|lia].
Qed.

(** ** Tagged pointers *)
Module TaggedPtr.

Definition TAG_SIZE : Z := 3.
Definition TAG_MOD : Z := u64 (Z.shiftl 1 TAG_SIZE).
Definition TAG_MASK : Z := u64 (TAG_MOD - 1).

(** [copy_alloc_id(to, from)] of include/refinedc.h is the pointer at [to]. *)
Definition copy_alloc_id (to from : Z) : Z := to.

Definition tag_of (p : Z) : Z :=
  let i := p in
  let t := u8 (Z.land i TAG_MASK) in
  t.

Definition tag (p t : Z) : Z :=
  let i := p in
  let new_i := Z.lor (Z.land i (cnot 64 TAG_MASK)) t in
  let q := copy_alloc_id new_i p in
  q.

Definition untag (p : Z) : Z := tag p 0.

Definition untag2 (p : Z) : Z :=
  let i := p in
  copy_alloc_id (u64 (i - i mod TAG_MOD)) p.

Definition is_aligned (p : Z) : bool :=
  let i := p in
  i mod TAG_MOD =? 0.

(** [test], with its local [x] at a given address. *)
Definition test_at (x : Z) : M heap Z :=
  store x 0 ;;
  let tp := tag x 1 in
  c_assert (tag_of tp =? 1) ;;
  let px := untag tp in
  load px.
Definition test `{!Allocator} : M heap Z := with_local ptr_layout test_at.

Lemma tag_value p t :
  in_unsigned 64 p → 0 ≤ t < 8 → tag p t = p - p mod 8 + t.
Proof.
  intros Hp Ht. unfold tag, copy_alloc_id. change TAG_MASK with (Z.ones 3).
  rewrite land_clear; [|lia|done]. change (2 ^ 3) with 8.
  assert (p - p mod 8 = 8 * (p / 8)) as -> by (pose proof (Z.div_mod p 8); lia).
  by apply (lor_low 3).
Qed.

Lemma tag_of_value p : tag_of p = p mod 8.
Proof.
  unfold tag_of. change TAG_MASK with (Z.ones 3). rewrite Z.land_ones //. apply wrap_small.
  change (2 ^ 3) with 8. pose proof (Z.mod_pos_bound p 8). split; lia.
Qed.

Lemma untag_value p : in_unsigned 64 p → untag p = p - p mod 8.
Proof. intros Hp. unfold untag. rewrite tag_value //. lia. Qed.

Lemma round_down_mod p x : 0 ≤ x < 8 → (p - p mod 8 + x) mod 8 = x.
Proof.
  intros Hx. pose proof (Z.div_mod p 8 ltac:(lia)).
  replace (p - p mod 8 + x) with (x + p / 8 * 8) by lia.
  rewrite Z.mod_add; [|lia]. by apply Z.mod_small.
Qed.

Lemma round_down_range p x : in_unsigned 64 p → 0 ≤ x < 8 → in_unsigned 64 (p - p mod 8 + x).
Proof.
  unfold in_unsigned. intros Hp Hx. pose proof (Z.div_mod p 8 ltac:(lia)).
  pose proof (Z.mod_pos_bound p 8 ltac:(lia)).
  assert (p / 8 < 2 ^ 61) by (apply Z.div_lt_upper_bound; lia). lia.
Qed.

Lemma tag_of_tag p t : in_unsigned 64 p → 0 ≤ t < 8 → tag_of (tag p t) = t.
Proof. intros Hp Ht. rewrite tag_value // tag_of_value. by apply round_down_mod. Qed.

Lemma untag_tag p t : in_unsigned 64 p → 0 ≤ t < 8 → untag (tag p t) = untag p.
Proof.
  intros Hp Ht. rewrite tag_value // untag_value; [|by apply round_down_range].
  rewrite round_down_mod // untag_value //. lia.
Qed.

(** Tagging a pointer and reading the tag or removing it are inverse: the
    tag read is the one put, whatever tag was there; without it the pointer is
    as before, rounded down to an address that is aligned; a pointer is
    determined by its tag and the rest; and both ways to remove a tag agree. *)
Theorem tagged_ptr_round_trip p t :
  in_unsigned 64 p → 0 ≤ t < TAG_MOD →
  tag_of (tag p t) = t ∧ untag (tag p t) = untag p ∧ is_aligned (untag p) = true ∧
  tag (untag p) (tag_of p) = p ∧ untag2 p = untag p ∧ (is_aligned p = true ↔ untag p = p).
Proof.
  change TAG_MOD with 8. intros Hp Ht.
  pose proof (round_down_mod p 0 ltac:(lia)) as Hm0.
  pose proof (round_down_range p 0 Hp ltac:(lia)) as Hu0. rewrite Z.add_0_r in Hm0, Hu0.
  pose proof (Z.mod_pos_bound p 8 ltac:(lia)) as Hm.
  split; [by apply tag_of_tag|]. split; [by apply untag_tag|].
  unfold is_aligned, untag2, copy_alloc_id. change TAG_MOD with 8.
  rewrite untag_value // Hm0 wrap_small // tag_of_value tag_value // Hm0.
  split_and!; [done|lia|done|]. rewrite Z.eqb_eq. lia.
Qed.

Lemma tagged_ptr_round_trip_witness :
  tag 4096 5 = 4101 ∧ tag_of (tag 4096 5) = 5 ∧ untag (tag 4096 5) = 4096.
Proof.
  split; [vm_compute; reflexivity|].
  destruct (tagged_ptr_round_trip 4096 5) as (H1 & H2 & _).
  - unfold in_unsigned. lia.
  - vm_compute. split; [discriminate|reflexivity].
  - split; [exact H1|]. rewrite H2. vm_compute. reflexivity.
Defined.

(** [test] reads its variable through the pointer it tagged and untagged. *)
Theorem tagged_ptr_test x :
  in_unsigned 64 x → is_aligned x = true → {{ x ↦? }} test_at x {{ r, ⌜r = 0⌝ ∗ x ↦? }}.
Proof.
  intros Hx Ha. apply Z.eqb_eq in Ha. change TAG_MOD with 8 in Ha.
  triple_start. iIntros "[% Hx]". unfold test_at. wp_store.
  rewrite tag_of_tag // untag_tag // untag_value // Ha Z.sub_0_r. wp_rets. wp_load. wp_rets.
  iSplit; [done|]. by iExists _.
Qed.
End TaggedPtr.

(** ** OCaml values *)
Module OcamlValue.

Definition Is_long (x : Z) : bool := negb (Z.land x 1 =? 0).
Definition Is_block (x : Z) : bool := Z.land x 1 =? 0.
Definition Val_long (x : Z) : Z := u64 (u64 (Z.shiftl x 1) + 1).
Definition Long_val (x : Z) : Z := Z.shiftr x 1.

(** [client], with [large_int] at a given address. *)
Definition client_at (large_int : Z) : M heap unit :=
  store large_int 3735928559 ;;
  let small_int := 42 in
  let v1 := large_int in
  let v2 := Val_long small_int in
  c_assert (Is_block v1) ;;
  c_assert (Is_long v2) ;;
  let large_int_ptr := v1 in
  c_assert (Long_val v2 =? 42) ;;
  v ← load large_int_ptr;
  c_assert (v =? 3735928559).
Definition client `{!Allocator} : M heap unit := with_local ptr_layout client_at.

Lemma land_1 x : Z.land x 1 = x mod 2.
Proof. apply (Z.land_ones x 1). lia. Qed.

Lemma Val_long_value x : 0 ≤ x → Val_long x = 2 * (x mod 2 ^ 63) + 1.
Proof.
  intros Hx. unfold Val_long, wrap. rewrite Z.shiftl_mul_pow2; [|lia].
  change (2 ^ 64) with (2 ^ 63 * 2 ^ 1). rewrite Z.mul_mod_distr_r; [|lia..].
  pose proof (Z.mod_pos_bound x (2 ^ 63) ltac:(lia)). rewrite Z.mod_small; lia.
Qed.

Lemma Long_val_odd x : Long_val (2 * x + 1) = x.
Proof.
  unfold Long_val. rewrite Z.shiftr_div_pow2 //. change (2 ^ 1) with 2.
  rewrite Z.mul_comm Z.div_add_l //. change (1 / 2) with 0. lia.
Qed.

(** Integers of 63 bits survive the encoding, whose tag bit tells them from
    pointers to aligned blocks; the topmost bit of a larger one is lost. *)
Theorem ocaml_long_round_trip x :
  in_unsigned 64 x →
  Is_long (Val_long x) = true ∧ Is_block (Val_long x) = false ∧
  Long_val (Val_long x) = x mod 2 ^ 63 ∧ (Long_val (Val_long x) = x ↔ x < 2 ^ 63).
Proof.
  intros [H0 H1]. rewrite Val_long_value // Long_val_odd. unfold Is_long, Is_block.
  rewrite land_1 Z.add_comm Z.mul_comm Z.mod_add //. split_and!; [done..|].
  pose proof (Z.mod_pos_bound x (2 ^ 63) ltac:(lia)).
  split; [lia|]. intros Hx. apply Z.mod_small. lia.
Qed.

Theorem ocaml_client_asserts a :
  (8 | a) → {{ a ↦? }} client_at a {{ _, a ↦? }}.
Proof.
  intros [k ->]. triple_start. iIntros "[% Ha]". unfold client_at, Is_block. wp_store.
  rewrite land_1. replace (k * 8) with (k * 4 * 2) at 2 by lia. rewrite Z.mod_mul //.
  wp_rets. wp_load. wp_rets. by iExists _.
Qed.
End OcamlValue.

(** ** Arithmetic at a width *)
Module WordArith.

(** wrapping_add.c: every addition at type [size_t] wraps. *)
Definition WRAPPING_ADD (a b : Z) : Z := u64 (a + b).
Definition wrapping_add (a b c : Z) : Z := WRAPPING_ADD a (u64 (b + c)).

(** shift.c *)
Definition times_two (x : Z) : Z := u32 (Z.shiftl x 1).
Definition div_two (x : Z) : Z := Z.shiftr x 1.

(** flags.c *)
Definition IS_SET (f n : Z) : bool := negb (Z.land (Z.shiftr f n) 1 =? 0).
Definition sum (f arg1 arg2 : Z) : Z :=
  let r := 0 in
  let r := if IS_SET f 0 then u32 (r + arg1) else r in
  let r := if IS_SET f 1 then u32 (r + arg2) else r in
  r.

Lemma IS_SET_testbit f n : 0 ≤ n → IS_SET f n = Z.testbit f n.
Proof.
  intros Hn. unfold IS_SET. rewrite OcamlValue.land_1 -Z.bit0_mod Z.shiftr_spec // Z.add_0_l.
  by destruct (Z.testbit f n).
Qed.

(** The three operations on words are those on numbers modulo the width, and
    halving undoes doubling exactly when doubling does not overflow. *)
Theorem word_arithmetic a b c x :
  in_unsigned 32 x →
  wrapping_add a b c = (a + b + c) mod 2 ^ 64 ∧ div_two x = x / 2 ∧
  (div_two (times_two x) = x ↔ 2 * x < 2 ^ 32).
Proof.
  intros Hx. unfold wrapping_add, WRAPPING_ADD, wrap. split_and!.
  - rewrite Z.add_mod_idemp_r; [|lia]. f_equal. lia.
  - unfold div_two. by rewrite Z.shiftr_div_pow2.
  - unfold div_two, times_two, wrap. rewrite Z.shiftr_div_pow2 // Z.shiftl_mul_pow2 //.
    change (2 ^ 1) with 2. unfold in_unsigned in Hx. split; intros H.
    + pose proof (Z.mod_pos_bound (x * 2) (2 ^ 32) ltac:(lia)).
      pose proof (Z.mul_div_le ((x * 2) mod 2 ^ 32) 2 ltac:(lia)). lia.
    + rewrite Z.mod_small; [|lia]. by apply Z.div_mul.
Qed.

(** The sum of the arguments whose flags are set. *)
Theorem flags_sum f n1 n2 :
  in_unsigned 32 n1 → in_unsigned 32 n2 → n1 + n2 < 2 ^ 32 →
  sum f n1 n2 = (if Z.testbit f 0 then n1 else 0) + (if Z.testbit f 1 then n2 else 0).
Proof.
  unfold in_unsigned, sum, wrap. intros H1 H2 H3. rewrite !IS_SET_testbit //.
  destruct (Z.testbit f 0), (Z.testbit f 1); rewrite ?Z.mod_small; lia.
Qed.
End WordArith.

(** ** The buddy of a page *)
Module FindBuddy.
Import Buddy.

Definition PAGE_SIZE : Z := 4096.
Definition PAGE_SHIFT : Z := 12.
Definition HYP_MAX_ORDER : Z := 11.

(** [struct hyp_page] is two 16-bit counters. *)
Definition sizeof_hyp_page : Z := 4.
Definition range_start (pool : Z) : Z := pool.
Definition range_end (pool : Z) : Z := pool + 8.
Arguments range_start : simpl never.
Arguments range_end : simpl never.

(** [pfn << PAGE_SHIFT] shifts a [ptrdiff_t]. *)
Definition hyp_page_to_pfn (vmemmap page : Z) : Z := Z.quot (page - vmemmap) sizeof_hyp_page.
Definition hyp_pfn_to_phys (pfn : Z) : M heap Z :=
  if 0 <=? pfn then signed 64 (Z.shiftl pfn PAGE_SHIFT) else fail UndefinedBehaviour.
Definition hyp_page_to_phys (vmemmap page : Z) : M heap Z :=
  hyp_pfn_to_phys (hyp_page_to_pfn vmemmap page).
Definition hyp_phys_to_pfn (phys : Z) : Z := Z.shiftr phys PAGE_SHIFT.
Definition hyp_phys_to_page (vmemmap phys : Z) : Z :=
  vmemmap + sizeof_hyp_page * hyp_phys_to_pfn phys.

(** Addresses; [offset] is the value of the global [hyp_physvirt_offset]. *)
Definition __hyp_pa (offset virt : Z) : Z := u64 (virt + offset).
Definition __hyp_va (offset phys : Z) : Z := u64 (phys - offset).
Definition hyp_phys_to_virt (hyp_physvirt_offset phys : Z) : M heap Z :=
  offset ← load hyp_physvirt_offset;
  mret (__hyp_va offset phys).
Definition hyp_virt_to_phys (hyp_physvirt_offset addr : Z) : M heap Z :=
  offset ← load hyp_physvirt_offset;
  mret (__hyp_pa offset addr).
Definition hyp_virt_to_page (vmemmap offset virt : Z) : Z := hyp_phys_to_page vmemmap (__hyp_pa offset virt).
Definition hyp_virt_to_pfn (offset virt : Z) : Z := hyp_phys_to_pfn (__hyp_pa offset virt).
Definition hyp_page_to_virt (vmemmap offset page : Z) : M heap Z :=
  phys ← hyp_page_to_phys vmemmap page;
  mret (__hyp_va offset phys).

(** [hyp_vmemmap] is where the global [__hyp_vmemmap] points; [PAGE_SIZE] is an
    [int], and so is [PAGE_SIZE << order]. *)
Definition __find_buddy (__hyp_vmemmap pool p order : Z) : M heap Z :=
  vmemmap ← load __hyp_vmemmap;
  addr ← hyp_page_to_phys vmemmap p;
  bit ← signed 32 (Z.shiftl PAGE_SIZE order);
  let addr := Z.lxor addr bit in
  rs ← load (range_start pool);
  if addr <? rs then mret NULL else
  re ← load (range_end pool);
  if re <=? addr then mret NULL else
  vmemmap ← load __hyp_vmemmap;
  mret (hyp_phys_to_page vmemmap addr).

Section buddy.
Context (__hyp_vmemmap vmemmap pool s e : Z).

(** The descriptor of page [i]. *)
Definition page (i : Z) : Z := vmemmap + sizeof_hyp_page * i.

(** The pool owns the pages from [s] to [e]. *)
Definition pool_at : hPropI :=
  (__hyp_vmemmap ↦ vmemmap ∗ range_start pool ↦ (PAGE_SIZE * s) ∗ range_end pool ↦ (PAGE_SIZE * e))%I.

Lemma case_page_to_phys i Φ :
  0 ≤ i → PAGE_SIZE * i < 2 ^ 63 →
  Φ (PAGE_SIZE * i) ⊢ wp (hyp_page_to_phys vmemmap (page i)) Φ.
Proof.
  intros H0 H1. unfold hyp_page_to_phys, hyp_page_to_pfn, page.
  replace (vmemmap + sizeof_hyp_page * i - vmemmap) with (i * sizeof_hyp_page) by lia.
  rewrite Z.quot_mul //. unfold hyp_pfn_to_phys. rewrite (proj2 (Z.leb_le 0 i)) //.
  rewrite Z.shiftl_mul_pow2 //. change (2 ^ PAGE_SHIFT) with PAGE_SIZE. rewrite Z.mul_comm.
  iIntros "H". iApply wp_signed; [|done]. unfold in_signed, PAGE_SIZE in *. lia.
Qed.

(** The conversions between virtual and physical addresses undo each other, also
    when the sum or the difference wraps around. *)
Lemma phys_virt_round_trip g offset a :
  in_unsigned 64 a →
  ({{ g ↦ offset }} p ← hyp_virt_to_phys g a; hyp_phys_to_virt g p {{ r, ⌜r = a⌝ ∗ g ↦ offset }}) ∧
  ({{ g ↦ offset }} v ← hyp_phys_to_virt g a; hyp_virt_to_phys g v {{ r, ⌜r = a⌝ ∗ g ↦ offset }}).
Proof.
  intros Ha. split; triple_start; iIntros "H"; unfold hyp_virt_to_phys, hyp_phys_to_virt, __hyp_pa, __hyp_va;
    wp_focus; wp_steps; iFrame; iPureIntro.
  - unfold wrap. rewrite Zminus_mod_idemp_l. replace (a + offset - offset) with a by lia. by apply wrap_small.
  - unfold wrap. rewrite Zplus_mod_idemp_l. replace (a - offset + offset) with a by lia. by apply wrap_small.
Qed.

Lemma xor_buddy i (o : nat) :
  Z.lxor (PAGE_SIZE * i) (Z.shiftl PAGE_SIZE (Z.of_nat o)) = PAGE_SIZE * buddy i o.
Proof.
  unfold PAGE_SIZE, buddy. change 4096 with (2 ^ 12). rewrite Z.shiftl_mul_pow2; [|lia].
  rewrite !(Z.mul_comm (2 ^ 12)) -!Z.shiftl_mul_pow2; [|lia..]. by rewrite Z.shiftl_lxor.
Qed.

Lemma case_phys_to_page i : hyp_phys_to_page vmemmap (PAGE_SIZE * i) = page i.
Proof.
  unfold hyp_phys_to_page, hyp_phys_to_pfn, page. rewrite Z.shiftr_div_pow2 //.
  change (2 ^ PAGE_SHIFT) with PAGE_SIZE. by rewrite (Z.mul_comm PAGE_SIZE) Z.div_mul.
Qed.

Lemma find_buddy_case_spec i (o : nat) :
  0 ≤ i → PAGE_SIZE * i < 2 ^ 63 → Z.of_nat o < 19 →
  {{ pool_at }} __find_buddy __hyp_vmemmap pool (page i) (Z.of_nat o)
  {{ r, ⌜r = if decide (s ≤ buddy i o < e) then page (buddy i o) else NULL⌝ ∗ pool_at }}.
Proof.
  intros H0 H1 Ho. triple_start. iIntros "(Hv & Hs & He)". unfold __find_buddy. wp_load. wp_focus.
  iApply case_page_to_phys; [done..|]. wp_focus. iApply wp_signed.
  { unfold in_signed, PAGE_SIZE. rewrite Z.shiftl_mul_pow2; [|lia].
    assert (2 ^ Z.of_nat o ≤ 2 ^ 18) by (apply Z.pow_le_mono_r; lia). lia. }
  rewrite xor_buddy. wp_load. unfold PAGE_SIZE in *.
  destruct (Z.ltb_spec (4096 * buddy i o) (4096 * s)).
  { wp_rets. rewrite decide_False; [|lia]. iSplit; [done|]. iFrame. }
  wp_load. destruct (Z.leb_spec (4096 * e) (4096 * buddy i o)).
  { wp_rets. rewrite decide_False; [|lia]. iSplit; [done|]. iFrame. }
  wp_load. wp_rets. rewrite decide_True; [|lia]. iSplit; [|iFrame]. iPureIntro. apply case_phys_to_page.
Qed.

(** The buddy of a page at an order is the page whose number differs in that
    bit, or NULL when the pool does not own it; the buddy of the buddy of a page
    of the pool is the page.  At an order of 19 or more the shift of the page
    size overflows its type. *)
Theorem find_buddy_involutive i (o : nat) :
  0 ≤ s → PAGE_SIZE * e < 2 ^ 63 → s ≤ i < e → 0 < vmemmap →
  (∀ (H : Z.of_nat o ≤ HYP_MAX_ORDER),
     {{ pool_at }}
       q ← __find_buddy __hyp_vmemmap pool (page i) (Z.of_nat o);
       if q =? NULL then mret (NULL, NULL) else
       r ← __find_buddy __hyp_vmemmap pool q (Z.of_nat o);
       mret (q, r)
     {{ qr, ⌜qr = if decide (s ≤ buddy i o < e) then (page (buddy i o), page i) else (NULL, NULL)⌝ ∗
            pool_at }}) ∧
  (19 ≤ Z.of_nat o →
     stops pool_at (__find_buddy __hyp_vmemmap pool (page i) (Z.of_nat o)) UndefinedBehaviour).
Proof.
  intros Hs He Hi Hv. split.
  - unfold HYP_MAX_ORDER, PAGE_SIZE in *. intros H.
    pose proof (λ k (Hk : s ≤ k < e), find_buddy_case_spec k o
      ltac:(lia) ltac:(unfold PAGE_SIZE; lia) ltac:(lia)) as Hspec.
    triple_start. iIntros "H". wp_call (Hspec i Hi) with "H". iIntros (q) "[-> H]".
    case_decide as Hb; [|wp_rets; by iFrame].
    rewrite (proj2 (Z.eqb_neq (page (buddy i o)) NULL)); [|unfold page, sizeof_hyp_page, NULL; lia].
    wp_call (Hspec _ Hb) with "H". iIntros (q) "[-> H]".
    wp_rets. rewrite buddy_involutive decide_True; [|lia]. by iFrame.
  - intros Ho. apply stops_wps. iIntros "(Hv & _)". unfold __find_buddy.
    iApply wps_bind. wp_load. iApply wps_bind. iApply case_page_to_phys; [unfold PAGE_SIZE in *; lia..|].
    iApply wps_first. unfold signed. rewrite decide_False; [iApply wps_fail|].
    unfold in_signed, PAGE_SIZE. rewrite Z.shiftl_mul_pow2; [|lia].
    assert (2 ^ 19 ≤ 2 ^ Z.of_nat o) by (apply Z.pow_le_mono_r; lia). lia.
Qed.
End buddy.

Lemma find_buddy_involutive_witness :
  ({{ pool_at 8 4096 16 2 8 }}
     q ← __find_buddy 8 16 (page 4096 2) 2;
     if q =? NULL then mret (NULL, NULL) else
     r ← __find_buddy 8 16 q 2;
     mret (q, r)
   {{ qr, ⌜qr = (page 4096 6, page 4096 2)⌝ ∗ pool_at 8 4096 16 2 8 }}) ∧
  stops (pool_at 8 4096 16 2 8) (__find_buddy 8 16 (page 4096 2) 19) UndefinedBehaviour.
Proof.
  split.
  - destruct (find_buddy_involutive 8 4096 16 2 8 2 2) as [H _]; [vm_compute; done..|].
    apply H. vm_compute. discriminate.
  - destruct (find_buddy_involutive 8 4096 16 2 8 2 19) as [_ H]; [vm_compute; done..|].
    apply H. vm_compute. discriminate.
Defined.
End FindBuddy.
