(* ===== verification/Basics.v ===== *)
(** * The first steps of the tutorial

    src/tutorial/t00_intro.c (binary search), t01_basic.c (integers, loops and
    pointers), t06_struct.c (colors), t07_arrays.c (permuting and the minimum of
    an array), t09_switch.c (switches that fall through, Duff's device),
    t10_loops.c, lithium.c, and VerifyThis/t01_refinements.c (averages).  An
    [int] has 32 bits and its overflow is undefined. *)
From S2P Require Import Prelude HeapLogic Arrays.
From stdpp Require Import list sorting.
From iris.proofmode Require Import proofmode.
#[local] Open Scope Z_scope.

(** ** t01_basic.c *)
Module Basic.

Definition int_id (a : Z) : Z := a.
Definition int_id2 (a : Z) : Z := a.

Definition add1 (a : Z) : M heap Z := signed 32 (a + 1).

Definition min (a b : Z) : M heap Z :=
  let r := if a <? b then a else b in
  c_assert (r <=? a) ;;
  c_assert (r <=? b) ;;
  mret r.

Fixpoint looping_add_loop (fuel : nat) (a b : Z) : M heap Z :=
  match fuel with
  | O => fail OutOfFuel
  | S fuel =>
      if 0 <? a then
        b ← signed 32 (b + 1);
        a ← signed 32 (a - 1);
        looping_add_loop fuel a b
      else mret b
  end.

(** Every turn takes one from [a]. *)
Definition looping_add (a b : Z) : M heap Z := looping_add_loop (S (Z.to_nat a)) a b.

Definition int_ptrs (p1 p2 : Z) : M heap unit :=
  store p1 1 ;;
  v ← load p1;
  c_assert (v =? 1) ;;
  store p2 2 ;;
  v ← load p1;
  c_assert (v =? 1) ;;
  v ← load p2;
  c_assert (v =? 2).

(** An [int] in memory. *)
Definition int_layout : layout := Layout 4 [0].

Definition call_int_ptrs `{!Allocator} : M heap unit :=
  with_local int_layout (λ p1, with_local int_layout (λ p2,
    store p1 0 ;;
    store p2 0 ;;
    int_ptrs p1 p2)).

Definition init_int (out : Z) : M heap unit := store out 1.

Definition init_int_test `{!Allocator} (out : Z) : M heap unit :=
  with_local int_layout (λ i, init_int i ;; init_int i).

(** Members of [struct basic]. *)
Definition a (p : Z) : Z := p.
Definition b (p : Z) : Z := p + 4.
Arguments a : simpl never.
Arguments b : simpl never.

Definition struct_test (out : Z) : M heap unit :=
  store (a out) 1 ;;
  store (b out) 0 ;;
  v ← load (a out);
  v ← signed 32 (v + 1);
  store (a out) v.

Lemma basic_int_layout_wf : layout_wf int_layout.
Proof. split; simpl; repeat constructor; set_solver by lia. Qed.

Lemma int_block l : HeapLogic.block l int_layout ⊣⊢ l ↦?.
Proof. by rewrite /HeapLogic.block /= right_id Z.add_0_r. Qed.

Lemma wp_with_int `{!Allocator, !AllocatorTotal} {A} (body : Z → M heap A) Φ :
  (∀ l, l ↦? -∗ wp (body l) (λ r, l ↦? ∗ Φ r)) ⊢ wp (with_local int_layout body) Φ.
Proof.
  iIntros "H". iApply wp_with_local; [apply basic_int_layout_wf|]. iIntros (l) "Hl".
  iDestruct (int_block with "Hl") as "Hl". iApply (wp_wand with "(H Hl)"). iIntros (r) "[Hl $]".
  by iApply int_block.
Qed.

Lemma min_spec x y : {{ emp }} min x y {{ r, ⌜r = Z.min x y⌝ }}.
Proof.
  triple_start. iIntros "_". unfold min.
  destruct (Z.ltb_spec x y).
  - rewrite Z.leb_refl (proj2 (Z.leb_le x y)); [|lia]. wp_rets. iPureIntro. lia.
  - rewrite Z.leb_refl (proj2 (Z.leb_le y x)); [|lia]. wp_rets. iPureIntro. lia.
Qed.

Lemma looping_add_loop_spec n x y :
  in_signed 32 x → in_signed 32 y → (Z.to_nat x < n)%nat →
  (in_signed 32 (y + Z.max x 0) → ∀ h, looping_add_loop n x y h = Ok (y + Z.max x 0) h) ∧
  (¬ in_signed 32 (y + Z.max x 0) → ∀ h, looping_add_loop n x y h = Err UndefinedBehaviour).
Proof.
  revert x y. induction n as [|n IH]; intros x y Hx Hy Hn; [lia|]. cbn [looping_add_loop].
  destruct (Z.ltb_spec 0 x) as [H0|H0]; cycle 1.
  { rewrite Z.max_r; [|lia]. rewrite Z.add_0_r. by split; [intros _ h|]. }
  rewrite Z.max_l; [|lia]. unfold in_signed in *.
  destruct (decide (in_signed 32 (y + 1))) as [Hy1|Hy1]; cycle 1.
  { unfold in_signed in Hy1. split; [lia|]. intros _ h. unfold signed, mbind, M_bind.
    by rewrite decide_False. }
  destruct (IH (x - 1) (y + 1)) as [H1 H2]; [lia|done|lia|].
  replace (y + 1 + Z.max (x - 1) 0) with (y + x) in H1, H2 by lia.
  assert (∀ h, (b0 ← signed 32 (y + 1); a0 ← signed 32 (x - 1); looping_add_loop n a0 b0) h =
                 looping_add_loop n (x - 1) (y + 1) h) as E.
  { intros h. unfold signed, mbind, M_bind. rewrite decide_True // decide_True //. unfold in_signed. lia. }
  split; intros H h; rewrite E; auto.
Qed.

(** [looping_add] adds; when the sum overflows, so does one of its increments;
    a negative number adds nothing. *)
Theorem looping_add_adds x y h :
  in_signed 32 x → in_signed 32 y →
  looping_add x y h =
    if decide (in_signed 32 (y + Z.max x 0)) then Ok (y + Z.max x 0) h else Err UndefinedBehaviour.
Proof.
  intros Hx Hy. destruct (looping_add_loop_spec (S (Z.to_nat x)) x y Hx Hy ltac:(lia)) as [H1 H2].
  case_decide; [by apply H1|by apply H2].
Qed.

(** Two pointers that do not alias pass the assertions of [int_ptrs]; the same
    pointer twice fails the second one. *)
Theorem int_ptrs_aliasing p1 p2 :
  ({{ p1 ↦? ∗ p2 ↦? }} int_ptrs p1 p2 {{ _, p1 ↦ 1 ∗ p2 ↦ 2 }}) ∧
  stops (p1 ↦?)%I (int_ptrs p1 p1) AssertionFailure.
Proof.
  split.
  - triple_start. iIntros "[[% H1] [% H2]]". unfold int_ptrs. wp_steps. wp_rets. wp_steps. wp_rets.
    wp_steps. wp_rets. iFrame.
  - apply stops_wps. iIntros "[% H]". unfold int_ptrs.
    iApply wps_bind. wp_store. iApply wps_bind. wp_load. iApply wps_bind. wp_rets.
    iApply wps_bind. wp_store. iApply wps_bind. wp_load. iApply wps_first. iApply wps_fail.
Qed.

Theorem basic_calls `{!Allocator, !AllocatorTotal} out :
  ({{ emp }} call_int_ptrs {{ _, emp }}) ∧
  ({{ emp }} init_int_test out {{ _, emp }}) ∧
  ({{ a out ↦? ∗ b out ↦? }} struct_test out {{ _, a out ↦ 2 ∗ b out ↦ 0 }}).
Proof.
  split_and!; triple_start.
  - iIntros "_". unfold call_int_ptrs. iApply wp_with_int. iIntros (p1) "[% H1]".
    iApply wp_with_int. iIntros (p2) "[% H2]". wp_steps.
    iApply (wp_triple _ _ _ _ (proj1 (int_ptrs_aliasing p1 p2)) with "[H1 H2]").
    { iSplitL "H1"; by iExists _. }
    iIntros (_) "[H1 H2]". iSplitL "H2"; [by iExists _|]. iSplitL; [by iExists _|done].
  - iIntros "_". unfold init_int_test. iApply wp_with_int. iIntros (i) "[% H]". unfold init_int.
    wp_steps. iSplitL; [by iExists _|done].
  - iIntros "[[% Ha] [% Hb]]". unfold struct_test. wp_steps. wp_focus. iApply wp_signed; [by split|].
    wp_steps. iFrame.
Qed.
End Basic.

(** ** VerifyThis/t01_refinements.c *)
Module Average.

Definition avg_1 (a b : Z) : Z := u32 (a + b) / 2.
Definition avg_2 (a b : Z) : Z := u32 (a + b) / 2.

(** [avg_3], [avg_4] and [avg_5] have the same body. *)
Definition avg_4 (a b : Z) : Z :=
  let low := if a <? b then a else b in
  let high := if a <? b then b else a in
  u32 (low + u32 (high - low) / 2).

(** The second average is right; the first one is right exactly when the sum
    does not overflow. *)
Theorem averages a b :
  in_unsigned 32 a → in_unsigned 32 b →
  avg_4 a b = (a + b) / 2 ∧ (avg_1 a b = (a + b) / 2 ↔ a + b < 2 ^ 32).
Proof.
  unfold in_unsigned, avg_1, avg_4, wrap. intros Ha Hb. split.
  - assert (∀ l h, 0 ≤ l ≤ h → h < 2 ^ 32 →
      (l + (h - l) mod 2 ^ 32 / 2) mod 2 ^ 32 = (l + h) / 2) as H.
    { intros l h Hl Hh. rewrite (Z.mod_small (h - l)); [|lia].
      replace (l + h) with (h - l + l * 2) by lia. rewrite Z.div_add //.
      pose proof (Z.mul_div_le (h - l) 2 ltac:(lia)). pose proof (Z.div_pos (h - l) 2 ltac:(lia)).
      rewrite Z.mod_small; lia. }
    destruct (Z.ltb_spec a b); (rewrite H; [|lia..]); [done|]. f_equal. lia.
  - split; intros H; [|by rewrite Z.mod_small; [|lia]].
    destruct (decide (a + b < 2 ^ 32)) as [|Hn]; [done|exfalso].
    replace ((a + b) mod 2 ^ 32) with (a + b + (-2 ^ 31) * 2) in H.
    + rewrite Z.div_add in H; lia.
    + apply (Z.mod_unique_pos _ _ 1); lia.
Qed.
End Average.

(** ** t06_struct.c *)
Module Color.

Record color := Rgb { r : Z; g : Z; b : Z }.

Definition rgb (r g b : Z) : color := Rgb r g b.
(** Members without an initializer are zero. *)
Definition red (r : Z) : color := Rgb r 0 0.
Definition green (g : Z) : color := Rgb 0 g 0.
Definition blue (b : Z) : color := Rgb 0 0 b.
Definition getblue (c : color) : Z := b c.

Definition set_red (c r : Z) : M heap unit := store c r.
Definition set_green (c g : Z) : M heap unit := store (c + 1) g.
Definition set_blue (c b : Z) : M heap unit := store (c + 2) b.

Definition argtest : M heap unit := c_assert (getblue (blue 5) =? 5).

Definition color_at (p : Z) (c : color) : hPropI := (p ↦ r c ∗ (p + 1) ↦ g c ∗ (p + 2) ↦ b c)%I.

(** Each setter changes its own component. *)
Theorem color_setters p c v :
  ({{ color_at p c }} set_red p v {{ _, color_at p (rgb v (g c) (b c)) }}) ∧
  ({{ color_at p c }} set_green p v {{ _, color_at p (rgb (r c) v (b c)) }}) ∧
  ({{ color_at p c }} set_blue p v {{ _, color_at p (rgb (r c) (g c) v) }}).
Proof.
  unfold color_at, set_red, set_green, set_blue.
  split_and!; triple_start; iIntros "(Hr & Hg & Hb)"; wp_store; iFrame.
Qed.
End Color.

(** ** t09_switch.c *)
Module Switch.

Definition incr (o : Z) : M heap Z := signed 32 (o + 1).

(** Each label falls through to the next. *)
Definition test_switch (i : Z) : M heap Z :=
  let o := i in
  let case3 o := incr o in
  let case2 o := o ← incr o; case3 o in
  let case1 o := o ← incr o; case2 o in
  let case0 o := o ← incr o; case1 o in
  match i with
  | 0 => case0 o
  | 1 => case1 o
  | 2 => case2 o
  | 3 => case3 o
  | _ => mret o
  end.

Definition test_switch_default (i : Z) : M heap Z :=
  let o := i in
  let default o := incr o in
  let case3 o := o ← incr o; default o in
  let case2 o := o ← incr o; case3 o in
  let case1 o := o ← incr o; case2 o in
  let case0 o := o ← incr o; case1 o in
  match i with
  | 0 => case0 o
  | 1 => case1 o
  | 2 => case2 o
  | 3 => case3 o
  | _ => default o
  end.

Definition incr_less_than_5 (i : Z) : M heap Z :=
  let o := i in
  match i with
  | 0 | 1 | 2 | 3 | 4 => incr o
  | _ => mret o
  end.

(** The body of the [do] loop, entered at a label: 0 is its start. *)
Fixpoint duff (fuel : nat) (label o n : Z) : M heap Z :=
  match fuel with
  | O => fail OutOfFuel
  | S fuel =>
      o ← (if label =? 0 then incr o else mret o);
      o ← (if (label =? 0) || (label =? 3) then incr o else mret o);
      o ← (if (label =? 0) || (label =? 3) || (label =? 2) then incr o else mret o);
      o ← incr o;
      n ← signed 32 (n - 1);
      if 0 <? n then duff fuel 0 o n else mret o
  end.

Definition duffs_identity (i : Z) : M heap Z :=
  let o := 0 in
  s ← signed 32 (i + 3);
  let n := Z.quot s 4 in
  let label := Z.rem i 4 in
  if (label =? 0) || (label =? 1) || (label =? 2) || (label =? 3)
  then duff (S (Z.to_nat n)) label o n
  else mret o.

Lemma incr_ok o h : in_signed 32 (o + 1) → incr o h = Ok (o + 1) h.
Proof. intros H. unfold incr, signed. by rewrite decide_True. Qed.

(** The switches count the labels they fall through. *)
Theorem switches_fall_through i h :
  0 ≤ i → i + 1 < 2 ^ 31 →
  test_switch i h = Ok (if decide (i ≤ 4) then 4 else i) h ∧
  test_switch_default i h = Ok (if decide (i ≤ 4) then 5 else i + 1) h ∧
  incr_less_than_5 i h = Ok (if decide (i ≤ 4) then i + 1 else i) h.
Proof.
  intros H0 H1. destruct (decide (i ≤ 4)) as [H4|H4].
  - assert (i = 0 ∨ i = 1 ∨ i = 2 ∨ i = 3 ∨ i = 4) as [-> |[-> |[-> |[-> | ->]]]] by lia; by vm_compute.
  - destruct i as [|[[[]|[]|]|[[]|[]|]|]|]; try lia; (split_and!; [done| |done]);
      apply incr_ok; unfold in_signed; lia.
Qed.

Lemma bind_incr {A} o (k : Z → M heap A) h :
  in_signed 32 (o + 1) → (o ← incr o; k o) h = k (o + 1) h.
Proof. intros H. unfold mbind, M_bind. by rewrite incr_ok. Qed.

(** The increments of a turn entered at a label. *)
Definition entered (label : Z) : Z := if label =? 0 then 4 else label.

Lemma duff_turn fuel label o n h :
  0 ≤ label < 4 → 0 ≤ o → o + 4 < 2 ^ 31 → in_signed 32 (n - 1) →
  duff (S fuel) label o n h =
    if 0 <? n - 1 then duff fuel 0 (o + entered label) (n - 1) h else Ok (o + entered label) h.
Proof.
  intros Hl Ho Hb Hn. cbn [duff].
  assert (∀ k : Z → M heap Z, (n ← signed 32 (n - 1); k n) h = k (n - 1) h) as Hs.
  { intros k. unfold mbind, M_bind, signed. by rewrite decide_True. }
  assert (∀ (k : Z → M heap Z) o, (o ← mret o; k o) h = k o h) as Hr by done.
  assert (label = 0 ∨ label = 1 ∨ label = 2 ∨ label = 3) as [-> |[-> |[-> | ->]]] by lia;
    simpl orb; cbn iota; rewrite ?Hr; (repeat (rewrite bind_incr; [|unfold in_signed; lia]));
    rewrite Hs; (destruct (0 <? n - 1); unfold mret, M_ret; [f_equal|f_equal]); unfold entered; simpl; lia.
Qed.

(** Full turns of the loop. *)
Lemma duff_full k : ∀ fuel o h,
  (k < fuel)%nat → 0 ≤ o → o + 4 * Z.of_nat (S k) < 2 ^ 31 →
  duff fuel 0 o (Z.of_nat (S k)) h = Ok (o + 4 * Z.of_nat (S k)) h.
Proof.
  induction k as [|k IH]; intros [|fuel] o h Hf Ho Hb; try lia;
    (rewrite duff_turn; [|unfold in_signed; lia..]).
  - done.
  - replace (Z.of_nat (S (S k)) - 1) with (Z.of_nat (S k)) by lia. change (entered 0) with 4.
    rewrite (proj2 (Z.ltb_lt 0 (Z.of_nat (S k)))); [|lia]. rewrite IH; [f_equal|..]; lia.
Qed.

(** Duff's device counts up to its argument, except for 0, where the loop is
    entered from the top and counts to 4, as for negative multiples of 4; for
    the other negative numbers no label matches. *)
Theorem duffs_identity_counts i h :
  in_signed 32 i → in_signed 32 (i + 3) →
  duffs_identity i h = Ok (if 0 <? i then i else if Z.rem i 4 =? 0 then 4 else 0) h.
Proof.
  intros Hi H3. unfold duffs_identity, mbind, M_bind, signed. rewrite decide_True //. cbn [mret M_ret].
  pose proof (Z.quot_rem i 4 ltac:(lia)) as Hq. unfold in_signed in Hi, H3.
  destruct (Z.ltb_spec 0 i) as [Hpos|Hneg].
  - pose proof (Z.rem_bound_pos i 4 ltac:(lia) ltac:(lia)) as Hr.
    assert (∃ m : nat, Z.quot (i + 3) 4 = Z.of_nat (S m) ∧ i = entered (Z.rem i 4) + 4 * Z.of_nat m)
      as (m & -> & Hm).
    { rewrite Z.quot_div_nonneg; [|lia..]. unfold entered. destruct (Z.eqb_spec (Z.rem i 4) 0) as [E|E].
      - exists (Z.to_nat (Z.quot i 4 - 1)). rewrite Nat2Z.inj_succ Z2Nat.id; [|lia].
        split; [|lia]. symmetry. apply (Z.div_unique_pos _ _ _ 3); lia.
      - exists (Z.to_nat (Z.quot i 4)). rewrite Nat2Z.inj_succ Z2Nat.id; [|lia].
        split; [|lia]. symmetry. apply (Z.div_unique_pos _ _ _ (Z.rem i 4 - 1)); lia. }
    assert (0 ≤ entered (Z.rem i 4) ≤ 4) as He by (unfold entered; case_match; lia).
    replace (_ || _) with true.
    2: { symmetry. rewrite !orb_true_iff !Z.eqb_eq. lia. }
    rewrite duff_turn; [|unfold in_signed; lia..].
    replace (Z.of_nat (S m) - 1) with (Z.of_nat m) by lia. destruct m as [|m]; simpl (0 <? _).
    + f_equal. lia.
    + rewrite duff_full; [f_equal; lia|lia..].
  - assert (Z.quot (i + 3) 4 ≤ 0 ∧ - 2 ^ 31 ≤ Z.quot (i + 3) 4 - 1 ∧ Z.rem i 4 ≤ 0) as (Hn & Hl & Hr)
      by (Z.to_euclidean_division_equations; lia).
    destruct (Z.eqb_spec (Z.rem i 4) 0) as [E|E]; cbn [orb].
    + rewrite E duff_turn; [|unfold in_signed; lia..].
      by rewrite (proj2 (Z.ltb_ge 0 _)); [|lia].
    + by rewrite !(proj2 (Z.eqb_neq (Z.rem i 4) _)); [|lia..].
Qed.
End Switch.

(** ** t07_arrays.c and t00_intro.c *)
Module IntArray.

Definition at_ (ar i : Z) : Z := elem 4 ar i.

Definition permute (ar i j : Z) : M heap unit :=
  k ← load (at_ ar i);
  v ← load (at_ ar j);
  store (at_ ar i) v ;;
  store (at_ ar j) k.

Definition use_permute (ar n : Z) : M heap unit :=
  permute ar 1 2 ;;
  permute ar 1 2.

Fixpoint min_loop (fuel : nat) (ar n res i : Z) : M heap Z :=
  match fuel with
  | O => fail OutOfFuel
  | S fuel =>
      if i <? n then
        x ← load (at_ ar i);
        y ← load (at_ ar res);
        let res := if x <? y then i else res in
        i ← signed 32 (i + 1);
        min_loop fuel ar n res i
      else mret res
  end.

Definition min_array (ar n : Z) : M heap Z :=
  if n =? 0 then mret (-1) else
  min_loop (S (Z.to_nat n)) ar n 0 1.

Fixpoint search_loop (fuel : nat) (xs x l r : Z) : M heap Z :=
  match fuel with
  | O => fail OutOfFuel
  | S fuel =>
      if l <? r then
        d ← signed 32 (r - l);
        k ← signed 32 (l + Z.quot d 2);
        v ← load (at_ xs k);
        if v =? x then mret k else
        v ← load (at_ xs k);
        if v <? x then l ← signed 32 (k + 1); search_loop fuel xs x l r
        else search_loop fuel xs x l k
      else mret (-1)
  end.

Definition binary_search (xs n x : Z) : M heap Z := search_loop (S (Z.to_nat n)) xs x 0 n.

Lemma permute_spec ar elts (i j : nat) v1 v2 :
  elts !! i = Some v1 → elts !! j = Some v2 →
  {{ array 4 ar elts }} permute ar (Z.of_nat i) (Z.of_nat j)
  {{ _, array 4 ar (<[j := v1]> (<[i := v2]> elts)) }}.
Proof.
  intros Hi Hj. triple_start. iIntros "H". unfold permute, at_.
  wp_focus. iApply (wp_array_load with "H"); [done|]. iIntros "H".
  wp_focus. iApply (wp_array_load with "H"); [done|]. iIntros "H".
  wp_focus. iApply (wp_array_store with "H"); [by eapply lookup_lt_Some|]. iIntros "H".
  iApply (wp_array_store with "H"); [|by iIntros "H"].
  rewrite length_insert. by eapply lookup_lt_Some.
Qed.

(** Permuting twice changes nothing. *)
Theorem use_permute_restores ar elts n :
  (2 < length elts)%nat →
  {{ array 4 ar elts }} use_permute ar n {{ _, array 4 ar elts }}.
Proof.
  intros Hl. destruct elts as [|x0 [|x1 [|x2 xs]]]; simpl in Hl; try lia.
  triple_start. iIntros "H". unfold use_permute.
  wp_call (permute_spec ar _ 1 2 x1 x2 _ _) with "H". iIntros (_) "H".
  iApply (wp_triple _ _ _ _ (permute_spec ar _ 1 2 x2 x1 _ _) with "H"). by iIntros (_) "H".
  Unshelve. all: done.
Qed.

(** The first position of a least element among the first [n]. *)
Definition first_min (xs : list Z) (n m : nat) : Prop :=
  ∃ x, xs !! m = Some x ∧ (m < n)%nat ∧
    ∀ j y, (j < n)%nat → xs !! j = Some y → x ≤ y ∧ ((j < m)%nat → x < y).

Lemma first_min_step xs n m x y :
  first_min xs n m → xs !! m = Some x → xs !! n = Some y →
  first_min xs (S n) (if y <? x then n else m).
Proof.
  intros (x' & Hx' & Hm & Hall) Hx Hy. simplify_eq. destruct (Z.ltb_spec y x') as [Hlt|Hge].
  - exists y. split_and!; [done|lia|]. intros j z Hj Hz. destruct (decide (j = n)) as [->|].
    + simplify_eq. lia.
    + destruct (Hall j z) as [? _]; [lia|done|]. lia.
  - exists x'. split_and!; [done|lia|]. intros j z Hj Hz. destruct (decide (j = n)) as [->|].
    + simplify_eq. lia.
    + apply Hall; [lia|done].
Qed.

Lemma min_loop_spec fuel ar elts (n res i : nat) :
  (n - i < fuel)%nat → (i ≤ n)%nat → (n ≤ length elts)%nat → Z.of_nat n < 2 ^ 31 →
  first_min elts i res →
  {{ array 4 ar elts }} min_loop fuel ar (Z.of_nat n) (Z.of_nat res) (Z.of_nat i)
  {{ r, ∃ m : nat, ⌜r = Z.of_nat m ∧ first_min elts n m⌝ ∗ array 4 ar elts }}.
Proof.
  revert res i. induction fuel as [|fuel IH]; intros res i Hf Hi Hn Hb Hm; [lia|].
  triple_start. iIntros "H". cbn [min_loop]. unfold at_. destruct (Z.ltb_spec (Z.of_nat i) (Z.of_nat n)); cycle 1.
  { wp_rets. iExists res. iFrame. iPureIntro. split; [done|]. by replace n with i by lia. }
  pose proof Hm as (x & Hx & Hlt & _).
  destruct (lookup_lt_is_Some_2 elts i) as [y Hy]; [lia|].
  wp_focus. iApply (wp_array_load with "H"); [done|]. iIntros "H".
  wp_focus. iApply (wp_array_load with "H"); [done|]. iIntros "H".
  wp_focus. iApply wp_signed; [unfold in_signed; lia|].
  pose proof (first_min_step _ _ _ _ _ Hm Hx Hy) as Hm'.
  replace (if y <? x then Z.of_nat i else Z.of_nat res) with (Z.of_nat (if y <? x then i else res))
    by (by destruct (y <? x)).
  replace (Z.of_nat i + 1) with (Z.of_nat (S i)) by lia.
  iApply (wp_triple _ _ _ _ (IH _ (S i) ltac:(lia) ltac:(lia) Hn Hb Hm') with "H"). by iIntros (r) "H".
Qed.

(** [min_array] finds the first least element, or answers -1 for none. *)
Theorem min_array_finds_minimum ar elts (n : nat) :
  (n ≤ length elts)%nat → Z.of_nat n < 2 ^ 31 →
  {{ array 4 ar elts }} min_array ar (Z.of_nat n)
  {{ r, ⌜if decide (n = 0%nat) then r = -1 else ∃ m : nat, r = Z.of_nat m ∧ first_min elts n m⌝ ∗
        array 4 ar elts }}.
Proof.
  intros Hn Hb. triple_start. iIntros "H". unfold min_array.
  destruct (decide (n = 0%nat)) as [->|Hn0]; [wp_rets; by iFrame|].
  rewrite (proj2 (Z.eqb_neq (Z.of_nat n) 0)); [|lia]. destruct (lookup_lt_is_Some_2 elts 0) as [x Hx]; [lia|].
  assert (first_min elts 1 0) as H1.
  { exists x. split_and!; [done|lia|]. intros [|j] y Hj Hy; [|lia]. simplify_eq. lia. }
  iApply (wp_triple _ _ _ _ (min_loop_spec (S (Z.to_nat (Z.of_nat n))) ar elts n 0 1
            ltac:(lia) ltac:(lia) Hn Hb H1) with "H").
  iIntros (r) "(%m & [-> %Hm] & $)". iPureIntro. eauto.
Qed.

(** Bisection keeps the element between the bounds, when it is there at all. *)
Lemma bisection_spec fuel a xs x (l r : nat) :
  StronglySorted Z.le xs → Z.of_nat (length xs) < 2 ^ 31 →
  (r - l < fuel)%nat → (l ≤ r ≤ length xs)%nat →
  (∀ i, xs !! i = Some x → (l ≤ i < r)%nat) →
  {{ array 4 a xs }} search_loop fuel a x (Z.of_nat l) (Z.of_nat r)
  {{ k, ⌜(∃ i : nat, k = Z.of_nat i ∧ xs !! i = Some x) ∨ (k = -1 ∧ x ∉ xs)⌝ ∗ array 4 a xs }}.
Proof.
  intros Hs Hb. revert l r. induction fuel as [|fuel IH]; intros l r Hf Hlr Hin; [lia|].
  triple_start. iIntros "H". cbn [search_loop]. unfold at_.
  destruct (Z.ltb_spec (Z.of_nat l) (Z.of_nat r)) as [Hlt|Hge]; cycle 1.
  { wp_rets. iFrame. iPureIntro. right. split; [done|].
    intros [i Hi]%list_elem_of_lookup. specialize (Hin i Hi). lia. }
  wp_focus. iApply wp_signed; [unfold in_signed; lia|].
  set (m := (l + (r - l) / 2)%nat).
  assert (l ≤ m < r)%nat as Hm.
  { subst m. pose proof (Nat.div_lt (r - l) 2). lia. }
  replace (Z.of_nat l + Z.quot (Z.of_nat r - Z.of_nat l) 2) with (Z.of_nat m).
  2: { subst m. rewrite Z.quot_div_nonneg; [|lia..]. rewrite Nat2Z.inj_add Nat2Z.inj_div Nat2Z.inj_sub; lia. }
  wp_focus. iApply wp_signed; [unfold in_signed; lia|].
  destruct (lookup_lt_is_Some_2 xs m) as [v Hv]; [lia|].
  wp_focus. iApply (wp_array_load with "H"); [done|]. iIntros "H".
  destruct (Z.eqb_spec v x) as [->|Hne]. { wp_rets. iFrame. iPureIntro. left. eauto. }
  wp_focus. iApply (wp_array_load with "H"); [done|]. iIntros "H".
  assert (∀ i j y z, (i < j)%nat → xs !! i = Some y → xs !! j = Some z → y ≤ z) as Hle.
  { intros i j y z Hij Hi Hj. apply (StronglySorted_app_1_elem_of Z.le (take j xs) (drop j xs)).
    - by rewrite take_drop.
    - apply list_elem_of_lookup. exists i. by rewrite lookup_take_lt.
    - apply list_elem_of_lookup. exists 0%nat. by rewrite lookup_drop Nat.add_0_r. }
  destruct (Z.ltb_spec v x).
  - wp_focus. iApply wp_signed; [unfold in_signed; lia|].
    replace (Z.of_nat m + 1) with (Z.of_nat (S m)) by lia.
    assert (∀ i, xs !! i = Some x → (S m ≤ i < r)%nat) as Hin'.
    { intros i Hi. specialize (Hin i Hi). destruct (decide (i = m)) as [->|]; [congruence|].
      destruct (decide (i < m)%nat) as [Hlm|]; [|lia]. specialize (Hle _ _ _ _ Hlm Hi Hv). lia. }
    iApply (wp_triple _ _ _ _ (IH (S m) r ltac:(lia) ltac:(lia) Hin') with "H"). by iIntros (k) "H".
  - assert (∀ i, xs !! i = Some x → (l ≤ i < m)%nat) as Hin'.
    { intros i Hi. specialize (Hin i Hi). destruct (decide (i = m)) as [->|]; [congruence|].
      destruct (decide (m < i)%nat) as [Hlm|]; [|lia]. specialize (Hle _ _ _ _ Hlm Hv Hi). lia. }
    iApply (wp_triple _ _ _ _ (IH l m ltac:(lia) ltac:(lia) Hin') with "H"). by iIntros (k) "H".
Qed.

(** On a sorted array [binary_search] finds the index of an element, or answers
    -1 when it is not there. *)
Theorem intro_binary_search a xs x :
  StronglySorted Z.le xs → Z.of_nat (length xs) < 2 ^ 31 →
  {{ array 4 a xs }} binary_search a (Z.of_nat (length xs)) x
  {{ k, ⌜(∃ i : nat, k = Z.of_nat i ∧ xs !! i = Some x) ∨ (k = -1 ∧ x ∉ xs)⌝ ∗ array 4 a xs }}.
Proof.
  intros Hs Hb. unfold binary_search. apply (bisection_spec _ a xs x 0); [done|done|lia..|].
  intros i Hi. apply lookup_lt_Some in Hi. lia.
Qed.

End IntArray.

(** ** t10_loops.c and lithium.c *)
Module Loops.

(** None of the loops changes its condition. *)
Definition loop_without_annot (a b c : Z) : M heap unit :=
  (if a =? 1 then fail NonTermination else mret tt) ;;
  (if b =? 1 then fail NonTermination else mret tt) ;;
  (if c =? 1 then fail NonTermination else mret tt).

Definition lithium_test (a : Z) : M heap Z :=
  if negb (a =? NULL) then
    v ← load a;
    signed 32 (v + 0)
  else mret 0.

Theorem lithium_test_reads a v :
  in_signed 32 v →
  ({{ a ↦ v }} lithium_test a {{ r, ⌜r = v⌝ ∗ a ↦ v }}) ∧
  ({{ emp }} lithium_test NULL {{ r, ⌜r = 0⌝ }}).
Proof.
  intros Hv. split; triple_start.
  - iIntros "H". iDestruct (pointsto_not_null with "H") as %Hn. unfold lithium_test.
    rewrite (proj2 (Z.eqb_neq a NULL)) //=. wp_load. rewrite Z.add_0_r.
    iApply wp_signed; [done|]. by iFrame.
  - iIntros "_". unfold lithium_test. wp_rets. done.
Qed.

Theorem loops_spin a b c h :
  loop_without_annot a b c h =
    if decide (a = 1 ∨ b = 1 ∨ c = 1) then Err NonTermination else Ok tt h.
Proof.
  unfold loop_without_annot, mbind, M_bind.
  destruct (Z.eqb_spec a 1), (Z.eqb_spec b 1), (Z.eqb_spec c 1); case_decide; naive_solver.
Qed.
End Loops.
