(* ===== verification/PaperExamples.v ===== *)
(** * Listings of the papers and talks

    A list of free chunks kept in order of their size
    (src/examples/paper_example_2_2.c), the bump allocator behind a lock
    (paper_example_2_1.c), appending to a list (talk_demo3.c; talk_demo1.c and
    talk_demo2.c differ in their annotations), a tagged union
    (simple_union.c) and [container_of] (container_of.c). *)
From S2P Require Import Prelude HeapLogic SpinLock SmallAlloc.
From stdpp Require Import list sorting.
From iris.proofmode Require Import proofmode.
#[local] Open Scope Z_scope.

(** ** Free chunks in order *)
Module Chunks.

(** Members of [struct chunk]. *)
Definition size (c : Z) : Z := c.
Definition next (c : Z) : Z := c + 8.
Arguments size : simpl never.
Arguments next : simpl never.

(** The place where the loop stops. *)
Fixpoint free_loop (fuel : nat) (cur sz : Z) : M heap Z :=
  match fuel with
  | O => fail OutOfFuel
  | S fuel =>
      c ← load cur;
      if negb (c =? NULL) then
        c ← load cur;
        s ← load (size c);
        if sz <=? s then mret cur else
        c ← load cur;
        free_loop fuel (next c) sz
      else mret cur
  end.

Definition free (list data sz : Z) : M heap unit :=
  cur ← with_fuel (λ n, free_loop n list sz);
  let entry := data in
  store (size entry) sz ;;
  c ← load cur;
  store (next entry) c ;;
  store cur entry.

(** A chunk of [n] bytes: its header and the memory behind it. *)
Fixpoint chunks_at (p : Z) (cs : list (Z * Z)) : hProp :=
  match cs with
  | [] => ⌜p = NULL⌝
  | (c, n) :: cs =>
      ⌜p = c ∧ 16 ≤ n⌝ ∗ size c ↦ n ∗ raw (c + 16) (n - 16) ∗ ∃ q, next c ↦ q ∗ chunks_at q cs
  end%I.
Definition chunks_in (place : Z) (cs : list (Z * Z)) : hPropI := (∃ p, place ↦ p ∗ chunks_at p cs)%I.

(** Before the first chunk that is not smaller. *)
Fixpoint insert_chunk (x : Z * Z) (cs : list (Z * Z)) : list (Z * Z) :=
  match cs with
  | [] => [x]
  | c :: cs => if x.2 <=? c.2 then x :: c :: cs else c :: insert_chunk x cs
  end.

Definition by_size (x y : Z * Z) : Prop := x.2 ≤ y.2.

Lemma insert_chunk_perm x cs : insert_chunk x cs ≡ₚ x :: cs.
Proof.
  induction cs as [|c cs IH]; [done|]. simpl. case_match; [done|]. rewrite IH. constructor.
Qed.

Lemma insert_chunk_sorted x cs :
  StronglySorted by_size cs → StronglySorted by_size (insert_chunk x cs).
Proof.
  induction 1 as [|c cs Hs IH Hall]; [by repeat constructor|]. simpl.
  destruct (Z.leb_spec x.2 c.2) as [Hle|Hgt].
  - constructor; [by constructor|]. constructor; [done|]. eapply Forall_impl; [done|].
    unfold by_size. lia.
  - constructor; [done|]. rewrite insert_chunk_perm. constructor; [unfold by_size; lia|done].
Qed.

Lemma chunks_at_cells p cs : chunks_at p cs ⊢ at_least (length cs).
Proof.
  iIntros "H". iInduction cs as [|[c n] cs] "IH" forall (p); simpl; [iApply at_least_0|].
  iDestruct "H" as "(_ & Hs & _ & %q & _ & H)". iApply (at_least_add 1). iSplitL "Hs".
  - iApply (at_least_cell with "Hs").
  - iApply ("IH" with "H").
Qed.

(** The loop stops where the chunk belongs: what comes back is the place, and
    how to make the longer list of what is stored there. *)
Lemma free_loop_spec fuel place cs d n :
  (length cs < fuel)%nat →
  chunks_in place cs ⊢
  wp (free_loop fuel place n) (λ cur, ∃ p cs',
    cur ↦ p ∗ chunks_at p cs' ∗
    (cur ↦ d -∗ chunks_at d ((d, n) :: cs') -∗ chunks_in place (insert_chunk (d, n) cs))).
Proof.
  revert place cs. induction fuel as [|fuel IH]; intros place cs Hf; [lia|].
  iIntros "(%p & Hp & H)". cbn [free_loop]. wp_load. destruct cs as [|[c m] cs].
  - iDestruct "H" as %->. wp_rets. iExists NULL, []. iFrame. iSplit; [done|].
    iIntros "Hp H". iExists d. iFrame.
  - cbn [chunks_at]. iDestruct "H" as "([-> %Hm] & Hs & Hraw & %q & Hn & H)".
    iDestruct (pointsto_not_null with "Hs") as %Hc. unfold size in Hc.
    rewrite (proj2 (Z.eqb_neq c NULL)) //=. wp_load. wp_load.
    destruct (Z.leb_spec n m) as [Hle|Hgt].
    + wp_rets. iExists c, ((c, m) :: cs). iFrame. iSplit; [done|].
      iIntros "Hp H". iExists d. iFrame.
    + wp_load. iApply (wp_wand with "[Hn H]").
      { iApply (IH (next c) cs); [simpl in Hf; lia|]. iExists q. iFrame. }
      iIntros (cur) "(%p' & %cs' & Hcur & H' & Hback)". iExists p', cs'. iFrame.
      iIntros "Hcur H". iDestruct ("Hback" with "Hcur H") as "(%q' & Hn & H)".
      iExists c. iFrame. done.
Qed.

Lemma find_place_spec list cs d n :
  triple (chunks_in list cs) (with_fuel (λ k, free_loop k list n)) (λ cur, ∃ p cs',
    cur ↦ p ∗ chunks_at p cs' ∗
    (cur ↦ d -∗ chunks_at d ((d, n) :: cs') -∗ chunks_in list (insert_chunk (d, n) cs)))%I.
Proof.
  apply (triple_with_fuel (length cs)); [|intros k Hk; by apply free_loop_spec].
  iIntros "(%p & _ & H)". by iApply chunks_at_cells.
Qed.

(** Freeing memory puts it into the list as a chunk: the chunks that were
    there stay, each with its memory, and a list sorted by size stays sorted,
    the new chunk in front of others of its size. *)
Theorem chunks_free_keeps_sorted list cs d n :
  16 ≤ n → StronglySorted by_size cs →
  StronglySorted by_size (insert_chunk (d, n) cs) ∧ insert_chunk (d, n) cs ≡ₚ (d, n) :: cs ∧
  {{ chunks_in list cs ∗ raw d n }} free list d n {{ _, chunks_in list (insert_chunk (d, n) cs) }}.
Proof.
  intros Hn Hs. split; [by apply insert_chunk_sorted|]. split; [apply insert_chunk_perm|].
  triple_start. iIntros "[H Hd]". unfold free.
  iDestruct (raw_words with "Hd") as "([% Hs] & [% Hn] & Hd)"; [done|].
  wp_call (find_place_spec list cs d n) with "H".
  iIntros (cur) "(%p & %cs' & Hcur & H & Hback)".
  change d with (size d) at 1. change (d + 8) with (next d). wp_steps.
  iApply ("Hback" with "Hcur"). cbn [chunks_at]. iFrame. done.
Qed.

Lemma chunks_free_keeps_sorted_witness :
  {{ chunks_in 8 [(16, 16); (64, 48)] ∗ raw 128 32 }} free 8 128 32
  {{ _, chunks_in 8 [(16, 16); (128, 32); (64, 48)] }}.
Proof.
  apply (chunks_free_keeps_sorted 8 [(16, 16); (64, 48)] 128 32).
  - lia.
  - repeat constructor; unfold by_size; simpl; lia.
Defined.
End Chunks.

(** ** A bump allocator behind a lock *)
Module ThreadSafeAlloc.
Import SpinLock TalkAlloc.

(** [alloc] and [alloc_from_start] have the bodies of those of
    talk_demo_alloc_full.c. *)
Definition alloc (d sz : Z) : M heap Z := alloc_full d sz.
Definition alloc_from_start (d sz : Z) : M heap Z := TalkAlloc.alloc_from_start d sz.

Definition thread_safe_alloc (lock data size : Z) : M heap Z :=
  sl_lock lock ;;
  ret ← alloc data size;
  sl_unlock lock ;;
  mret ret.

(** [fork] runs its function. *)
Definition fork (fn : Z → M heap unit) (arg : Z) : M heap unit := fn arg.

Definition test_thread_safe_alloc_fork_fn (lock data num : Z) : M heap unit :=
  n ← load num;
  _ ← thread_safe_alloc lock data n;
  mret tt.

Definition test_thread_safe_alloc (lock data param : Z) : M heap unit :=
  store param 5 ;;
  fork (test_thread_safe_alloc_fork_fn lock data) param ;;
  _ ← thread_safe_alloc lock data 5;
  mret tt.

(** What is left of [n] bytes after taking [sz]. *)
Definition left_of (n sz : Z) : Z := if n <? sz then n else n - sz.

Lemma thread_safe_alloc_spec lock data b n sz :
  0 ≤ sz → b ≠ NULL →
  {{ lock ↦ 0 ∗ mem_at data b n }} thread_safe_alloc lock data sz
  {{ r, lock ↦ 0 ∗ mem_at data b (left_of n sz) ∗
        if n <? sz then ⌜r = NULL⌝ else ⌜r = (b + (n - sz))%Z⌝ ∗ bytes r sz }}.
Proof.
  intros Hsz Hb. triple_start. iIntros "[Hl H]". unfold thread_safe_alloc, alloc.
  wp_call (sl_lock_spec lock) with "Hl". iIntros (_) "Hl".
  wp_call (alloc_full_spec data b n sz Hsz Hb) with "H".
  iIntros (r) "H". wp_call (sl_unlock_spec lock) with "Hl".
  iIntros (_) "Hl". wp_rets. unfold left_of. iFrame.
  destruct (n <? sz); [iDestruct "H" as "[-> $]"; done|iDestruct "H" as "(-> & $ & $)"; done].
Qed.

(** The test takes five bytes twice, or what it can get; a lock that is held
    when it starts is never free. *)
Theorem thread_safe_alloc_test lock data param b n :
  b ≠ NULL →
  ({{ lock ↦ 0 ∗ mem_at data b n ∗ param ↦? }} test_thread_safe_alloc lock data param
   {{ _, lock ↦ 0 ∗ mem_at data b (left_of (left_of n 5) 5) ∗ param ↦ 5 }}) ∧
  stops (lock ↦ 1)%I (thread_safe_alloc lock data 5) NonTermination.
Proof.
  intros Hb. split.
  - triple_start. iIntros "(Hl & H & [% Hp])". unfold test_thread_safe_alloc, fork, test_thread_safe_alloc_fork_fn.
    wp_store. wp_focus. wp_load.
    wp_call (thread_safe_alloc_spec lock data b n 5 ltac:(lia) Hb) with "[$Hl $H]".
    iIntros (r) "(Hl & H & _)". wp_rets.
    wp_call (thread_safe_alloc_spec lock data b _ 5 ltac:(lia) Hb) with "[$Hl $H]".
    iIntros (r') "(Hl & H & _)". wp_rets. iFrame.
  - apply stops_wps. iIntros "Hl". unfold thread_safe_alloc. iApply wps_first.
    unfold sl_lock, atomic_compare_exchange_strong. iApply wps_bind. wp_load. iApply wps_fail.
Qed.
End ThreadSafeAlloc.

(** ** Appending *)
Module TalkList.

(** Members of [struct list_node]. *)
Definition val (p : Z) : Z := p.
Definition next (p : Z) : Z := p + 8.
Definition list_node_layout : layout := Layout 16 [0; 8].
Arguments val : simpl never.
Arguments next : simpl never.

Fixpoint append_ (fuel : nat) (l k : Z) : M heap unit :=
  match fuel with
  | O => fail OutOfFuel
  | S fuel =>
      p ← load l;
      if p =? NULL then store l k else
      p ← load l;
      append_ fuel (next p) k
  end.
Definition append (l k : Z) : M heap unit := with_fuel (λ n, append_ n l k).

(** The address of [node1] is taken. *)
Definition test `{!Allocator} : M heap unit :=
  with_local ptr_layout (λ node1,
    n1 ← xmalloc list_node_layout;
    store node1 n1 ;;
    n1 ← load node1;
    store (val n1) 1 ;;
    n1 ← load node1;
    store (next n1) NULL ;;
    node2 ← xmalloc list_node_layout;
    store (val node2) 2 ;;
    store (next node2) NULL ;;
    append node1 node2 ;;
    n1 ← load node1;
    if negb (n1 =? NULL) then
      n1 ← load node1;
      v ← load (val n1);
      c_assert (v =? 1)
    else mret tt).

Fixpoint list_at (p : Z) (xs : list Z) : hProp :=
  match xs with
  | [] => ⌜p = NULL⌝
  | x :: xs => ∃ q, val p ↦ x ∗ next p ↦ q ∗ list_at q xs
  end%I.
Definition list_in (place : Z) (xs : list Z) : hPropI := (∃ p, place ↦ p ∗ list_at p xs)%I.

Lemma talk_list_cells p xs : list_at p xs ⊢ at_least (length xs).
Proof.
  iIntros "H". iInduction xs as [|x xs] "IH" forall (p); simpl; [iApply at_least_0|].
  iDestruct "H" as (q) "(_ & Ht & H)". iApply (at_least_add 1). iSplitL "Ht".
  - iApply (at_least_cell with "Ht").
  - iApply ("IH" with "H").
Qed.

Lemma append_rec_spec n l xs k ys :
  (length xs < n)%nat →
  {{ list_in l xs ∗ list_at k ys }} append_ n l k {{ _, list_in l (xs ++ ys) }}.
Proof.
  revert l xs. induction n as [|n IH]; intros l xs Hn; [lia|]. triple_start.
  iIntros "[(%p & Hl & H) Hk]". cbn [append_]. wp_load. destruct xs as [|x xs].
  - iDestruct "H" as %->. simpl. wp_store. iExists k. iFrame.
  - cbn [list_at]. iDestruct "H" as (q) "(Hv & Hn & H)".
    iDestruct (pointsto_not_null with "Hv") as %Hp. rewrite (proj2 (Z.eqb_neq p NULL)) //. wp_load.
    iApply (wp_triple _ _ _ _ (IH (next p) xs ltac:(simpl in Hn; lia)) with "[$Hk Hn H]").
    { iExists q. iFrame. }
    iIntros (_) "(%q' & Hn & H)". iExists p. iFrame.
Qed.

Lemma talk_append_spec l xs k ys :
  {{ list_in l xs ∗ list_at k ys }} append l k {{ _, list_in l (xs ++ ys) }}.
Proof.
  apply (triple_with_fuel (length xs)); [|intros n Hn; by apply append_rec_spec].
  iIntros "[(%p & _ & H) _]". by iApply talk_list_cells.
Qed.

Lemma list_node_layout_wf : layout_wf list_node_layout.
Proof. split; simpl; repeat constructor; set_solver by lia. Qed.

Lemma list_node_block p : HeapLogic.block p list_node_layout ⊣⊢ val p ↦? ∗ next p ↦?.
Proof. by rewrite /HeapLogic.block /= Z.add_0_r bi.sep_emp. Qed.

(** The assertion of [test] holds; its two nodes stay allocated. *)
Theorem talk_list_test `{!Allocator, !AllocatorTotal} :
  {{ emp }} test {{ _, ∃ p, list_at p [1; 2] }}.
Proof.
  triple_start. iIntros "_". unfold test. iApply wp_with_pointer. iIntros (node1) "[% Hl]".
  wp_focus. iApply (wp_xmalloc _ _ list_node_layout_wf). iIntros (n1 Hn1) "H1".
  iDestruct (list_node_block with "H1") as "[[% Hv1] [% Ht1]]". wp_steps.
  wp_focus. iApply (wp_xmalloc _ _ list_node_layout_wf). iIntros (n2 Hn2) "H2".
  iDestruct (list_node_block with "H2") as "[[% Hv2] [% Ht2]]". wp_steps.
  wp_call (talk_append_spec node1 [1] n2 [2]) with "[Hl Hv1 Ht1 Hv2 Ht2]".
  { iSplitL "Hl Hv1 Ht1"; [iExists n1; by iFrame|]. by iFrame. }
  iIntros (_) "(%p & Hl & H)". iDestruct "H" as (q) "(Hv & Hn & H)".
  iDestruct (pointsto_not_null with "Hv") as %Hp. unfold val in Hp. wp_load.
  rewrite (proj2 (Z.eqb_neq p NULL)) //=. wp_load. wp_load. wp_rets.
  iSplitL "Hl"; [by iExists _|]. iExists p, q. iFrame.
Qed.
End TalkList.

(** ** A tagged union *)
Module SimpleUnion.

Definition ITEM_EMPTY : Z := 0.
Definition ITEM_ENTRY : Z := 1.
Definition ITEM_TOMBSTONE : Z := 2.

(** Members of [struct item]; those of the union start at the same offset. *)
Definition tag (i : Z) : Z := i.
Definition u (i : Z) : Z := i + 8.
Definition empty_dummy (i : Z) : Z := u i.
Definition entry_key (i : Z) : Z := u i.
Definition entry_value (i : Z) : Z := u i + 8.
Definition tombstone_key (i : Z) : Z := u i.

Definition test_item_set_empty (i : Z) : M heap unit :=
  store (tag i) ITEM_EMPTY ;;
  store (empty_dummy i) 0.

Definition test_item_set_entry (i key val : Z) : M heap unit :=
  store (tag i) ITEM_ENTRY ;;
  store (entry_key i) key ;;
  store (entry_value i) val.

Definition test_item_modify_entry (i key : Z) : M heap Z :=
  t ← load (tag i);
  if t =? ITEM_ENTRY then
    old_key ← load (entry_key i);
    store (tag i) ITEM_TOMBSTONE ;;
    store (tombstone_key i) key ;;
    mret old_key
  else mret key.

(** What an item is. *)
Inductive item := Empty | Entry (key value : Z) | Tombstone (key : Z).

Definition item_at (i : Z) (x : item) : hPropI :=
  match x with
  | Empty => tag i ↦ ITEM_EMPTY ∗ u i ↦ 0 ∗ (u i + 8) ↦?
  | Entry k v => tag i ↦ ITEM_ENTRY ∗ u i ↦ k ∗ (u i + 8) ↦ v
  | Tombstone k => tag i ↦ ITEM_TOMBSTONE ∗ u i ↦ k ∗ (u i + 8) ↦?
  end%I.

(** Uninitialized memory becomes an item; modifying an entry buries it under
    the given key and returns its own, and modifies nothing else. *)
Theorem simple_union_items i x k v :
  ({{ tag i ↦? ∗ u i ↦? ∗ (u i + 8) ↦? }} test_item_set_empty i {{ _, item_at i Empty }}) ∧
  ({{ tag i ↦? ∗ u i ↦? ∗ (u i + 8) ↦? }} test_item_set_entry i k v {{ _, item_at i (Entry k v) }}) ∧
  ({{ item_at i x }} test_item_modify_entry i k
   {{ r, match x with
         | Entry old _ => ⌜r = old⌝ ∗ item_at i (Tombstone k)
         | _ => ⌜r = k⌝ ∗ item_at i x
         end }}).
Proof.
  unfold test_item_set_empty, test_item_set_entry, test_item_modify_entry,
    empty_dummy, entry_key, entry_value, tombstone_key.
  split_and!; triple_start; [iIntros "([% H1] & [% H2] & [% H3])"; wp_steps; iFrame..|].
  destruct x; iIntros "(H1 & H2 & H3)"; wp_load; wp_rets; [by iFrame| |by iFrame].
  wp_steps. wp_rets. iSplit; [done|]. iFrame.
Qed.
End SimpleUnion.

(** ** From a member to its structure *)
Module ContainerOf.

(** Members of [struct test]; [container_of(ptr, struct test, b)] subtracts the
    offset of [b]. *)
Definition a (t : Z) : Z := t.
Definition b (t : Z) : Z := t + 4.
Definition test_layout : layout := Layout 8 [0; 4].
Definition container_of_b (ptr : Z) : Z := ptr - 4.

Definition container_of_test `{!Allocator} : M heap Z :=
  with_local test_layout (λ t,
    store (a t) 1 ;;
    store (b t) 2 ;;
    let pb := b t in
    store pb 3 ;;
    let pt := container_of_b pb in
    store (a pt) 4 ;;
    load (a t)).

Theorem container_of_test_returns `{!Allocator, !AllocatorTotal} :
  {{ emp }} container_of_test {{ r, ⌜r = 4⌝ }}.
Proof.
  triple_start. iIntros "_". unfold container_of_test. iApply wp_with_local.
  { split; simpl; repeat constructor; set_solver by lia. }
  iIntros (t) "H". iDestruct "H" as "([% Ha] & [% Hb] & _)". unfold a, b, container_of_b. rewrite Z.add_0_r.
  replace (t + 4 - 4) with t by lia. wp_steps. iSplit; [|done].
  rewrite /HeapLogic.block /= Z.add_0_r. iSplitL "Ha"; [by iExists _|]. by iSplit; [iExists _|].
Qed.
End ContainerOf.
