(* ===== verification/ListExercises.v ===== *)
(** * The list exercises of the tutorial (src/tutorial/VerifyThis)

    Reversing and appending (t04_loops.c), and the test of appending with nodes
    of the tutorial's allocator (t03_ownership_and_refinements.c
    and t02_ownership.c).  Nodes are
    those of [TalkList]. *)
From S2P Require Import Prelude HeapLogic Talloc SpinLock SmallAlloc PaperExamples.
From stdpp Require Import list.
From iris.proofmode Require Import proofmode.
#[local] Open Scope Z_scope.

Module ListExercises.
Import TalkList.

(** ** t04_loops.c *)

Fixpoint reverse_loop (fuel : nat) (l reversed : Z) : M heap Z :=
  match fuel with
  | O => fail OutOfFuel
  | S fuel =>
      if negb (l =? NULL) then
        tmp ← load (next l);
        store (next l) reversed ;;
        reverse_loop fuel tmp l
      else mret reversed
  end.

(** [reverse_2] is [reverse_1] with a loop invariant. *)
Definition reverse_1 (l : Z) : M heap Z := with_fuel (λ n, reverse_loop n l NULL).
Definition reverse_2 : Z → M heap Z := reverse_1.

Fixpoint end_loop (fuel : nat) (end_ : Z) : M heap Z :=
  match fuel with
  | O => fail OutOfFuel
  | S fuel =>
      p ← load end_;
      if negb (p =? NULL) then
        p ← load end_;
        end_loop fuel (next p)
      else mret end_
  end.

(** [append_loop_2] is [append_loop_1] with a loop invariant. *)
Definition append_loop_1 (l k : Z) : M heap unit :=
  end_ ← with_fuel (λ n, end_loop n l);
  store end_ k.
Definition append_loop_2 : Z → Z → M heap unit := append_loop_1.

Lemma reversing_spec n l xs r ys :
  (length xs < n)%nat →
  {{ list_at l xs ∗ list_at r ys }} reverse_loop n l r {{ p, list_at p (reverse xs ++ ys) }}.
Proof.
  revert l xs r ys. induction n as [|n IH]; intros l xs r ys Hn; [lia|]. triple_start.
  iIntros "[H Hr]". cbn [reverse_loop]. destruct xs as [|x xs].
  - iDestruct "H" as %->. simpl. wp_rets. done.
  - cbn [list_at]. iDestruct "H" as (q) "(Hv & Hn & H)".
    iDestruct (pointsto_not_null with "Hv") as %Hl. unfold val in Hl.
    rewrite (proj2 (Z.eqb_neq l NULL)) //=. wp_load. wp_store.
    wp_call (IH q xs l (x :: ys) ltac:(simpl in Hn; lia)) with "[$H Hv Hn Hr]".
    { cbn [list_at]. iExists r. iFrame. }
    iIntros (p) "H". by rewrite reverse_cons -assoc_L.
Qed.

(** The place that holds the last pointer of a list, and how to make a longer
    list of what is stored there. *)
Lemma end_loop_spec n l xs k ys :
  (length xs < n)%nat →
  list_in l xs ⊢ wp (end_loop n l) (λ e,
    e ↦ NULL ∗ (e ↦ k -∗ list_at k ys -∗ list_in l (xs ++ ys))).
Proof.
  revert l xs. induction n as [|n IH]; intros l xs Hn; [lia|].
  iIntros "(%p & Hl & H)". cbn [end_loop]. wp_load. destruct xs as [|x xs].
  - iDestruct "H" as %->. simpl. wp_rets. iFrame. iIntros "Hl H". iExists k. iFrame.
  - cbn [list_at]. iDestruct "H" as (q) "(Hv & Hn & H)".
    iDestruct (pointsto_not_null with "Hv") as %Hp. unfold val in Hp.
    rewrite (proj2 (Z.eqb_neq p NULL)) //=. wp_load.
    iApply (wp_wand with "[Hn H]").
    { iApply (IH (next p) xs ltac:(simpl in Hn; lia)). iExists q. iFrame. }
    iIntros (e) "[$ Hback]". iIntros "He Hk". iDestruct ("Hback" with "He Hk") as "(%q' & Hn & H)".
    iExists p. iFrame.
Qed.

(** Reversing reverses; appending in a loop does to the list what the recursive
    function does. *)
Theorem list_exercises l xs k ys :
  ({{ list_at l xs }} reverse_2 l {{ p, list_at p (reverse xs) }}) ∧
  ({{ list_in l xs ∗ list_at k ys }} append_loop_2 l k {{ _, list_in l (xs ++ ys) }}) ∧
  ({{ list_in l xs ∗ list_at k ys }} append l k {{ _, list_in l (xs ++ ys) }}).
Proof.
  split_and!.
  - apply (triple_with_fuel (length xs)); [apply talk_list_cells|]. intros n Hn. triple_start.
    iIntros "H". wp_call (reversing_spec n l xs NULL [] Hn) with "[$H //]".
    iIntros (p) "H". by rewrite app_nil_r.
  - triple_start. iIntros "[H Hk]". unfold append_loop_2, append_loop_1. iApply wp_bind.
    iApply (wp_wand with "[H]").
    { iApply (wp_with_fuel (length xs) (list_in l xs) with "H").
      - iIntros "(%p & _ & H)". by iApply talk_list_cells.
      - intros n Hn. by apply (end_loop_spec n l xs k ys). }
    iIntros (e) "[He Hback]". wp_store. iApply ("Hback" with "He Hk").
  - apply talk_append_spec.
Qed.

(** ** t03_ownership_and_refinements.c *)
Section test.
Context `{!TallocInterface}.

(** [node1] is the address of the local variable. *)
Definition test (node1 : Z) : M heap unit :=
  n1 ← talloc 16;
  store node1 n1 ;;
  n1 ← load node1;
  store (val n1) 1 ;;
  n1 ← load node1;
  store (next n1) NULL ;;
  node2 ← talloc 16;
  store (val node2) 2 ;;
  store (next node2) NULL ;;
  append node1 node2 ;;
  n1 ← load node1;
  if negb (n1 =? NULL) then
    n1 ← load node1;
    v ← load (val n1);
    c_assert (v =? 1)
  else mret tt.

Lemma node_raw p : raw p 16 ⊣⊢ val p ↦? ∗ next p ↦?.
Proof.
  rewrite raw_words // /raw. change (seqZ 0 ((16 - 16) / 8)) with (@nil Z).
  by rewrite /= bi.sep_emp.
Qed.

Lemma talloc_node s s' :
  ta_take 16 s = Some s' → {{ arena s }} talloc 16 {{ p, (val p ↦? ∗ next p ↦?) ∗ arena s' }}.
Proof.
  intros Ht. triple_start. iIntros "Ha".
  wp_call (talloc_spec 16 s s' ltac:(done) ltac:(by exists 2) ltac:(done) Ht) with "Ha".
  iIntros (p) "[Hp $]". by iApply node_raw.
Qed.

(** The assertion holds whenever the allocator can serve two nodes. *)
Theorem list_exercise_test node1 s s1 s2 :
  ta_take 16 s = Some s1 → ta_take 16 s1 = Some s2 →
  {{ node1 ↦? ∗ arena s }} test node1 {{ _, list_in node1 [1; 2] ∗ arena s2 }}.
Proof.
  intros H1 H2. triple_start. iIntros "[[% Hl] Ha]". unfold test.
  wp_call (talloc_node s s1 H1) with "Ha". iIntros (n1) "[[[% Hv1] [% Ht1]] Ha]". wp_steps.
  wp_call (talloc_node s1 s2 H2) with "Ha". iIntros (n2) "[[[% Hv2] [% Ht2]] Ha]". wp_steps.
  wp_call (talk_append_spec node1 [1] n2 [2]) with "[Hl Hv1 Ht1 Hv2 Ht2]".
  { iSplitL "Hl Hv1 Ht1"; [iExists n1; by iFrame|]. by iFrame. }
  iIntros (_) "(%p & Hl & H)". iDestruct "H" as (q) "(Hv & Hn & H)".
  iDestruct (pointsto_not_null with "Hv") as %Hp. unfold val in Hp. wp_load.
  rewrite (proj2 (Z.eqb_neq p NULL)) //=. wp_load. wp_load. wp_rets. iFrame "Ha".
  iExists p. iFrame.
Qed.
End test.

(** ** t02_ownership.c *)

Module Ownership.
(** [append_2] is [append] with an annotation, and the tests differ in the one
    they call; their assertion is commented out. *)
Definition append : Z → Z → M heap unit := TalkList.append.
Definition append_2 : Z → Z → M heap unit := append.

Section test_2.
Context `{!TallocInterface}.

Definition test_with (append : Z → Z → M heap unit) (node1 : Z) : M heap unit :=
  n1 ← talloc 16;
  store node1 n1 ;;
  n1 ← load node1;
  store (val n1) 1 ;;
  n1 ← load node1;
  store (next n1) NULL ;;
  node2 ← talloc 16;
  store (val node2) 2 ;;
  store (next node2) NULL ;;
  append node1 node2 ;;
  n1 ← load node1;
  if negb (n1 =? NULL) then mret tt else mret tt.
Definition test : Z → M heap unit := test_with append.
Definition test_2 : Z → M heap unit := test_with append_2.

(** After the call the list is still there, with the nodes in order. *)
Theorem list_exercise_test_2 node1 s s1 s2 :
  ta_take 16 s = Some s1 → ta_take 16 s1 = Some s2 →
  {{ node1 ↦? ∗ arena s }} test_2 node1 {{ _, list_in node1 [1; 2] ∗ arena s2 }}.
Proof.
  intros H1 H2. triple_start. iIntros "[[% Hl] Ha]". unfold test_2, test_with, append_2, append.
  wp_call (talloc_node s s1 H1) with "Ha". iIntros (n1) "[[[% Hv1] [% Ht1]] Ha]". wp_steps.
  wp_call (talloc_node s1 s2 H2) with "Ha". iIntros (n2) "[[[% Hv2] [% Ht2]] Ha]". wp_steps.
  wp_call (talk_append_spec node1 [1] n2 [2]) with "[Hl Hv1 Ht1 Hv2 Ht2]".
  { iSplitL "Hl Hv1 Ht1"; [iExists n1; by iFrame|]. by iFrame. }
  iIntros (_) "(%p & Hl & H)". wp_load. case_match; wp_rets; iFrame "Ha"; iExists p; iFrame.
Qed.
End test_2.
End Ownership.
End ListExercises.
