(* ===== verification/TreeSet.v ===== *)
(** * Search trees as sets (src/tutorial/t11_tree_set.c)

    The file has the functions of t08_tree.c with keys of type [size_t]; the
    structure has the same layout, and no function computes with a key, so each
    is the one of [SearchTree].  Its own part is [main], which calls them without
    the wrappers of t08_tree.c. *)
From S2P Require Import Prelude HeapLogic SpinLock Talloc SearchTree.
From stdpp Require Import gmap list sets.
From iris.proofmode Require Import proofmode.
#[local] Open Scope Z_scope.

Module TreeSet.

Definition left : Z → Z := SearchTree.left.
Definition right : Z → Z := SearchTree.right.
Definition key : Z → Z := SearchTree.key.

Section code.
Context `{!TallocInterface}.

Definition empty : Z := SearchTree.empty.
Definition init : Z → M heap Z := SearchTree.init.
Definition node : Z → Z → Z → M heap Z := SearchTree.node.
Definition free_tree : Z → M heap unit := SearchTree.free_tree.
Definition member_rec : Z → Z → M heap bool := SearchTree.member_rec.
Definition member : Z → Z → M heap bool := SearchTree.member.
Definition insert_rec : Z → Z → M heap unit := SearchTree.insert_rec.
Definition insert : Z → Z → M heap unit := SearchTree.insert.
Definition tree_max : nat → Z → M heap Z := SearchTree.tree_max.
Definition remove : Z → Z → M heap unit := SearchTree.remove.

(** [t] is the address of the local variable. *)
Definition main (t : Z) : M heap Z :=
  store t empty ;;
  r ← init 3; store t r ;;
  insert t 2 ;;
  b ← member t 2; c_assert b ;;
  b ← member t 3; c_assert b ;;
  remove t 3 ;;
  insert t 3 ;;
  b ← member t 2; c_assert b ;;
  remove t 3 ;;
  free_tree t ;;
  mret 0.

(** [main] returns 0 and gives its three nodes back. *)
Theorem tree_set_main_returns t s s' :
  SearchTree.main_arena s = Some s' →
  {{ t ↦? ∗ arena s }} main t {{ r, ⌜r = 0⌝ ∗ t ↦? ∗ arena s' }}.
Proof. apply SearchTree.tree_main_returns. Qed.
End code.
End TreeSet.
