(* ===== verification/FeatureTests.v ===== *)
(** * Tests of single features (src/examples/pointers.c, tests.c and
    src/tutorial/t02_evars.c)

    Functions that read and write through pointers, and the functions of
    tests.c: all their assertions hold, one of them because an [assume] in front
    of it never returns. *)
From S2P Require Import Prelude HeapLogic Arrays Basics.
From stdpp Require Import list.
From iris.proofmode Require Import proofmode.
#[local] Open Scope Z_scope.

(** ** pointers.c *)
Module Pointers.
Import Basic.

Definition read_int (a : Z) : M heap Z := load a.

Definition use_read_int `{!Allocator} : M heap unit :=
  with_local int_layout (λ local,
    store local 1 ;;
    read ← read_int local;
    v ← load local;
    c_assert (v =? read) ;;
    v ← load local;
    c_assert (v =? 1)).

Definition no_alias (a b : Z) : M heap unit :=
  old_b ← load b;
  store a 1 ;;
  v ← load b;
  c_assert (v =? old_b).

Definition local_vars `{!Allocator} (b : bool) : M heap unit :=
  with_local int_layout (λ var,
    store var 1 ;;
    let p := var in
    if b then
      _ ← load var;
      _ ← load p;
      mret tt
    else
      _ ← load p;
      _ ← load var;
      mret tt).

Definition ptrs (b : bool) (p : Z) : M heap unit :=
  let p1 := p in
  let p2 := p in
  if b then
    _ ← load p1;
    _ ← load p2;
    mret tt
  else
    _ ← load p2;
    _ ← load p1;
    mret tt.

(** The address of the argument is taken. *)
Definition ptrs2 `{!Allocator} (b : bool) (p : Z) : M heap unit :=
  with_local ptr_layout (λ arg,
    store arg p ;;
    let p1 := arg in
    if b then
      q ← load p1; _ ← load q;
      q ← load arg; _ ← load q;
      mret tt
    else
      q ← load arg; _ ← load q;
      q ← load p1; _ ← load q;
      mret tt).

Definition ptr_id (p x : Z) : Z := p.

Definition ptr_id_test `{!Allocator} : M heap unit :=
  with_local int_layout (λ x,
    store x 1 ;;
    v ← load (ptr_id x (1 + 1));
    c_assert (v =? 1)).

(** The assertion of [no_alias] holds for different pointers, and for the same
    pointer only if its value was already 1. *)
Theorem no_alias_needs_distinct_pointers a b v :
  ({{ a ↦? ∗ b ↦ v }} no_alias a b {{ _, a ↦ 1 ∗ b ↦ v }}) ∧
  (v ≠ 1 → stops (a ↦ v)%I (no_alias a a) AssertionFailure).
Proof.
  split.
  - triple_start. iIntros "[[% Ha] Hb]". unfold no_alias. wp_load. wp_store. wp_load.
    rewrite Z.eqb_refl. wp_rets. iFrame.
  - intros Hv. apply stops_wps. iIntros "H". unfold no_alias.
    iApply wps_bind. wp_load. iApply wps_bind. wp_store. iApply wps_bind. wp_load.
    change (match v with Z.pos q => (1 =? q)%positive | _ => false end) with (1 =? v).
    rewrite (proj2 (Z.eqb_neq 1 v)); [iApply wps_fail|done].
Qed.

(** The others return, reading and leaving what their pointers point to. *)
Theorem pointers_tests `{!Allocator, !AllocatorTotal} b p v :
  ({{ emp }} use_read_int {{ _, emp }}) ∧ ({{ emp }} local_vars b {{ _, emp }}) ∧
  ({{ p ↦ v }} ptrs b p {{ _, p ↦ v }}) ∧ ({{ p ↦ v }} ptrs2 b p {{ _, p ↦ v }}) ∧
  ({{ emp }} ptr_id_test {{ _, emp }}).
Proof.
  split_and!; triple_start.
  - iIntros "_". unfold use_read_int, read_int. iApply wp_with_int. iIntros (l) "[% H]".
    wp_steps. iSplitL; [by iExists _|done].
  - iIntros "_". unfold local_vars. iApply wp_with_int. iIntros (l) "[% H]". wp_store.
    destruct b; wp_steps; (iSplitL; [by iExists _|done]).
  - iIntros "H". unfold ptrs. destruct b; wp_steps; iFrame.
  - iIntros "H". unfold ptrs2. iApply wp_with_pointer. iIntros (l) "[% Hl]". wp_store.
    destruct b; wp_steps; iFrame.
  - iIntros "_". unfold ptr_id_test, ptr_id. iApply wp_with_int. iIntros (l) "[% H]". wp_steps.
    iSplitL; [by iExists _|done].
Qed.
End Pointers.

(** ** tests.c *)
Module Tests.
Import Basic.

(** Truth of an integer or a pointer. *)
Definition truth (v : Z) : bool := negb (v =? 0).

Definition test1 : M heap unit :=
  let ll := 0 in let l := 0 in let i := 0 in let s := 0 in let c := 0 in
  if ll =? l then mret tt else
  if ll =? l then mret tt else
  if ll =? i then mret tt else
  if ll =? s then mret tt else
  if ll =? c then mret tt else
  if negb (truth ll) then mret tt else
  if negb (truth l) then mret tt else
  if negb (truth i) then mret tt else
  if negb (truth s) then mret tt else
  if negb (truth c) then mret tt else
  mret tt.

Definition return1 : M heap Z := mret 1.

(** [unreachable] has no body: calling it is not allowed. *)
Definition test_ternary `{!Allocator} (unreachable : M heap Z) : M heap unit :=
  with_local int_layout (λ local,
    store local 0 ;;
    c_assert ((if truth 2 then 3 else 2) =? 3) ;;
    v ← (if negb (local =? NULL) then
           r ← return1;
           w ← (if truth r then return1 else unreachable);
           signed 32 (w + 3)
         else mret 2);
    c_assert (v =? 4)).

(** [while(1){}] *)
Definition safe_exit : M heap Z := fail NonTermination.
Definition assume (x : bool) : M heap Z := if negb x then safe_exit ;; mret 0 else mret 0.

Definition test_assume : M heap Z :=
  assume false ;;
  c_assert (1 =? 2) ;;
  fail UndefinedBehaviour.

Definition test_bits : M heap unit :=
  let mask := 240 in
  let a := 305419896 in
  let setting_bits := Z.lor a mask in
  let selecting_bits := Z.land a mask in
  let clearing_bits := Z.land a (cnot 32 mask) in
  c_assert (setting_bits =? 305420024) ;;
  c_assert (selecting_bits =? 112) ;;
  c_assert (clearing_bits =? 305419784) ;;
  c_assert (Z.lnot (-2) =? 1) ;;
  c_assert (Z.lnot 0 =? -1).

Definition test_comma : M heap Z :=
  let x := 42 in
  _ ← signed 32 (x + x);
  signed 32 (x - x).

(** [global] is the address of the variable. *)
Definition inline_global1 (global : Z) : M heap Z := load global.
Definition inline_global2 (global : Z) : M heap Z := inline_global1 global.

(** The right operand of [||] is not evaluated. *)
Definition test_logical : M heap unit :=
  let INT_MAX := 2147483647 in
  let UINT_MAX := 4294967295 in
  b ← (if truth 1 && truth 2 then mret true else fail UndefinedBehaviour);
  (if (b : bool) then c_assert true else c_assert false) ;;
  c_assert (((if truth 1 && truth 2 then 1 else 0) =? 1) &&
            ((if truth 2 || truth 0 then 1 else 0) =? 1)) ;;
  (if truth INT_MAX then c_assert true else c_assert false) ;;
  c_assert (truth UINT_MAX).

Definition test_not_ptr `{!Allocator} : M heap unit :=
  with_local int_layout (λ pi,
    (if negb (truth pi) then c_assert false else mret tt) ;;
    (if truth pi then c_assert true else c_assert false) ;;
    c_assert (truth pi) ;;
    let p := NULL in
    (if truth p then c_assert false else mret tt) ;;
    (if negb (truth p) then c_assert true else c_assert false) ;;
    c_assert (negb (truth p))).

(** [main] returns 0 at its end. *)
Definition main : M heap Z := mret 0.

(** [struct test] has one member. *)
Record test := Test { a : Z }.
Definition test_struct_return : M heap test := mret (Test 1).

Definition test_reduce : Z := Z.land (Z.lor 1 4080) 255.
Definition test_conditional_annot : Z := let i2 := if truth 0 then 0 else 0 in i2.

(** The annotations [rc_assert] and [rc_stop] do nothing when the code runs. *)
Definition test_fn_params (f : M heap unit) : M heap (M heap unit) := mret f.

Record test2 := Test2 { test2_a : Z; next : Z }.
Definition test_struct2 (s : test2) : M heap Z := mret (test2_a s).

Definition test_rc_assert (i : Z) : M heap Z := mret i.

Definition test_manual_exist_arg (i : Z) : M heap unit := mret tt.
Definition test_manual_exist_arg_client : M heap unit :=
  let x := 8 in
  test_manual_exist_arg 20 ;;
  test_manual_exist_arg 40.

(** The statements after the labels [case 1] to [case 9] and [default]: there is
    no [break], so from its label on all of them run. *)
Definition test_case_printing (n m p1 p2 : Z) : M heap unit :=
  let cases : list (M heap unit) := [
    mret tt;
    (if truth 1 then mret tt else mret tt);
    (if truth m then mret tt else mret tt);
    (if 1 =? 1 then mret tt else mret tt);
    (if m =? 1 then mret tt else mret tt);
    (if p1 =? NULL then mret tt else mret tt);
    (if negb (p1 =? NULL) then mret tt else mret tt);
    (if p2 =? NULL then mret tt else mret tt);
    (if negb (p2 =? NULL) then mret tt else mret tt);
    mret tt ] in
  let entry := if (1 <=? n) && (n <=? 9) then n - 1 else 9 in
  foldr (λ c k, c ;; k) (mret tt) (drop (Z.to_nat entry) cases).

Definition context_noop (a : Z) : M heap unit := mret tt.
Definition context_caller `{!Allocator} : M heap unit :=
  with_local int_layout (λ n, store n 42 ;; context_noop n).

Definition test_hof `{!Allocator} (f : Z → Z → M heap Z) : M heap unit :=
  with_local int_layout (λ n1, with_local int_layout (λ n2,
    store n1 0 ;;
    store n2 0 ;;
    _ ← f n1 n2;
    mret tt)).
Definition test_f (x y : Z) : M heap Z := store x 1 ;; mret x.
Definition test_hof_client `{!Allocator} : M heap unit := test_hof test_f.

(** Every function whose body is a constant computation returns. *)
Theorem constant_tests h global :
  test1 h = Ok tt h ∧ test_bits h = Ok tt h ∧ test_comma h = Ok 0 h ∧ test_logical h = Ok tt h ∧
  main h = Ok 0 h ∧ test_struct_return h = Ok (Test 1) h ∧ test_reduce = 241 ∧
  test_conditional_annot = 0 ∧ test_assume h = Err NonTermination ∧
  inline_global2 global h = load global h.
Proof. by repeat split. Qed.

Lemma run_from h (l : list (M heap unit)) j :
  Forall (λ c : M heap unit, c h = Ok tt h) l → foldr (λ c k, c ;; k) (mret tt) (drop j l) h = Ok tt h.
Proof.
  intros Hl%(Forall_drop _ j). induction Hl as [|c k Hc _ IH]; [done|].
  simpl. unfold mbind, M_bind. by rewrite Hc.
Qed.

(** The functions that hand back an argument or do nothing. *)
Theorem argument_tests h f s i n m p1 p2 :
  test_fn_params f h = Ok f h ∧ test_struct2 s h = Ok (test2_a s) h ∧ test_rc_assert i h = Ok i h ∧
  test_manual_exist_arg_client h = Ok tt h ∧ test_case_printing n m p1 p2 h = Ok tt h.
Proof.
  split_and!; [done..|]. apply run_from. repeat constructor; by case_match.
Qed.

(** So do those with locals; [unreachable] is never called. *)
Theorem tests_with_locals `{!Allocator, !AllocatorTotal} unreachable :
  ({{ emp }} test_ternary unreachable {{ _, emp }}) ∧ ({{ emp }} test_not_ptr {{ _, emp }}) ∧
  ({{ emp }} context_caller {{ _, emp }}) ∧ ({{ emp }} test_hof_client {{ _, emp }}).
Proof.
  split_and!; triple_start; iIntros "_".
  - unfold test_ternary, return1. iApply wp_with_int. iIntros (l) "[% H]". wp_store. wp_rets.
    iDestruct (pointsto_not_null with "H") as %Hl. rewrite (proj2 (Z.eqb_neq l NULL)) //=.
    wp_focus. wp_rets. wp_focus. iApply wp_signed; [by split|]. wp_rets. iSplitL; [by iExists _|done].
  - unfold test_not_ptr. iApply wp_with_int. iIntros (l) "[% H]".
    iDestruct (pointsto_not_null with "H") as %Hl. unfold truth. change 0 with NULL.
    rewrite (proj2 (Z.eqb_neq l NULL)) //=. wp_rets. iSplitL; [by iExists _|done].
  - unfold context_caller, context_noop. iApply wp_with_int. iIntros (l) "[% H]". wp_store. wp_rets.
    iSplitL; [by iExists _|done].
  - unfold test_hof_client, test_hof, test_f. iApply wp_with_int. iIntros (n1) "[% H1]".
    iApply wp_with_int. iIntros (n2) "[% H2]". wp_store. wp_store. wp_focus. wp_store. wp_rets.
    iSplitL "H2"; [by iExists _|]. iSplitL; [by iExists _|done].
Qed.
End Tests.

(** ** t02_evars.c *)
Module Evars.

Definition evar_create : M heap unit := mret tt.
Definition evar_create_sidecond : M heap unit := mret tt.
Definition evar_create_return_int : M heap Z := mret 5.
Definition evar_instantiate_wrong : M heap unit := mret tt.
Definition return_multiple_of_8 : M heap Z := mret 32.
Definition return_multiple_of_5 : M heap Z := mret 20.

(** The specifications of the functions that return a number. *)
Theorem evars_specs :
  ({{ emp }} evar_create_return_int {{ n, ⌜n > 0⌝ }}) ∧
  ({{ emp }} return_multiple_of_8 {{ n, ⌜(8 | n)⌝ }}) ∧
  ({{ emp }} return_multiple_of_5 {{ r, ⌜∃ n : Z, r = (n * 5)%Z⌝ }}).
Proof.
  split_and!; triple_start; iIntros "_"; [unfold evar_create_return_int|unfold return_multiple_of_8|
    unfold return_multiple_of_5]; wp_rets; iPureIntro; [lia|by exists 4|by exists 4].
Qed.
End Evars.
