(* ===== verification/Provenance.v ===== *)
(** * Pointers that remember their allocation (src/examples/intptr.c)

    The other files model an address as a number.  The functions of intptr.c
    convert pointers to integers and back, where it matters which allocation a
    pointer was made from, so this file has a memory of its own.  It follows the
    rules of the semantics of the repository (src/theories/caesium/lang.v,
    [CastOpPI], [CastOpIP], [CopyAllocIdS], [PtrNegOffsetOpIP] and [DerefS]): a
    pointer and an integer made from it carry the allocation, arithmetic on
    integers drops it, and an access needs the allocation of the cell.  The
    only objects are of type [int]. *)
From S2P Require Import Prelude.
From stdpp Require Import gmap list strings.
From iris.prelude Require Import prelude.
#[local] Open Scope Z_scope.

Module Provenance.

(** ** Pointers, integers and memory *)

Inductive prov := ProvNull | ProvAlloc (id : option Z).
Record loc := Loc { origin : prov; addr : Z }.
(** An integer and the allocation it was made from, if it remembers one. *)
Record int_val := Int { num : Z; from : option Z }.

Definition NULL : loc := Loc ProvNull 0.

Inductive int_type := uintptr_t | int.
Definition in_type (t : int_type) (z : Z) : Prop :=
  match t with uintptr_t => in_unsigned 64 z | int => in_signed 32 z end.

#[export] Instance prov_eq_dec : EqDecision prov.
Proof. solve_decision. Defined.
#[export] Instance loc_eq_dec : EqDecision loc.
Proof. solve_decision. Defined.
#[export] Instance in_type_dec t z : Decision (in_type t z).
Proof. destruct t; apply _. Defined.

(** An allocation: its first address, its bytes, and whether it still exists. *)
Record block := Block { start : Z; len : Z; live : bool }.
(** A cell is an [int] at an address: its allocation and its value. *)
Record memory := Memory { blocks : gmap Z block; cells : gmap Z (Z * option Z) }.

(** One address past the end of an allocation is in its bounds. *)
Definition block_of (l : loc) (m : memory) : option block :=
  match origin l with ProvAlloc (Some id) => blocks m !! id | _ => None end.
Definition alive (l : loc) (m : memory) : bool :=
  match block_of l m with Some b => live b | None => false end.
Definition in_bounds (l : loc) (m : memory) : bool :=
  match block_of l m with
  | Some b => (start b <=? addr l) && (addr l <=? start b + len b)
  | None => false
  end.
Definition valid_ptr (l : loc) (m : memory) : bool := alive l m && in_bounds l m.

(** ** Operations *)

Definition check (f : memory → bool) : M memory unit := λ m,
  if f m then Ok tt m else Err UndefinedBehaviour.

(** The value of an expression at an integer type. *)
Definition to_type (t : int_type) (z : Z) (id : option Z) : M memory int_val :=
  if decide (in_type t z) then mret (Int z id) else fail UndefinedBehaviour.

(** [(t) p] *)
Definition cast_to_int (t : int_type) (p : loc) : M memory int_val :=
  match origin p with
  | ProvNull => check (λ _, addr p =? 0) ;; to_type t 0 None
  | ProvAlloc id => check (alive p) ;; to_type t (addr p) id
  end.

(** [(void* ) i] *)
Definition cast_to_ptr (i : int_val) : M memory loc := λ m,
  let l := Loc (ProvAlloc (from i)) (num i) in
  Ok (if valid_ptr l m then l
      else if num i =? 0 then NULL
      else Loc (ProvAlloc None) (num i)) m.

(** Arithmetic at type [uintptr_t] with a constant. *)
Definition add (i : int_val) (k : Z) : int_val := Int (u64 (num i + k)) None.
Definition mul (i : int_val) (k : Z) : int_val := Int (u64 (num i * k)) None.

(** [copy_alloc_id] of refinedc.h, as the verifier reads it ([__cerb__]). *)
Definition copy_alloc_id (to : int_val) (from : loc) : M memory loc :=
  let l := Loc (origin from) (num to) in
  check (valid_ptr l) ;; mret l.

(** [p + n] for a pointer to [int]. *)
Definition offset (p : loc) (n : Z) : M memory loc :=
  let l := Loc (origin p) (addr p + 4 * n) in
  check (in_bounds l) ;; mret l.

(** The cell a pointer gives access to. *)
Definition cell_of (l : loc) (m : memory) : option (Z * option Z) :=
  match origin l with
  | ProvAlloc (Some id) =>
      match cells m !! addr l with
      | Some (id', v) => if (id =? id') && (addr l mod 4 =? 0) then Some (id, v) else None
      | None => None
      end
  | _ => None
  end.

Definition load (l : loc) : M memory Z := λ m,
  match cell_of l m with Some (_, Some v) => Ok v m | _ => Err UndefinedBehaviour end.
Definition store (l : loc) (v : Z) : M memory unit := λ m,
  match cell_of l m with
  | Some (id, _) => Ok tt (Memory (blocks m) (<[addr l := (id, Some v)]> (cells m)))
  | None => Err UndefinedBehaviour
  end.

(** Where a local [int] goes: a new allocation at a place that no live one
    overlaps, past address 0 and below the last address.  A call for which there
    is no place never returns. *)
Class Placement := {
  place : memory → option (Z * Z);
  place_spec m id a : place m = Some (id, a) →
    blocks m !! id = None ∧ 0 < a ∧ a + 4 ≤ 2 ^ 64 - 2 ∧ a mod 4 = 0 ∧
    ∀ id' b, blocks m !! id' = Some b → live b = true → start b + len b ≤ a ∨ a + 4 ≤ start b;
}.

Definition new_local `{!Placement} : M memory loc := λ m,
  match place m with
  | Some (id, a) =>
      Ok (Loc (ProvAlloc (Some id)) a)
         (Memory (<[id := Block a 4 true]> (blocks m)) (<[a := (id, None)]> (cells m)))
  | None => Err NonTermination
  end.
Definition free_local (l : loc) : M memory unit := λ m,
  match origin l with
  | ProvAlloc (Some id) =>
      Ok tt (Memory (<[id := Block (addr l) 4 false]> (blocks m)) (delete (addr l) (cells m)))
  | _ => Err UndefinedBehaviour
  end.
Definition with_int `{!Placement} {A} (body : loc → M memory A) : M memory A :=
  x ← new_local;
  r ← body x;
  free_local x ;;
  mret r.

(** ** The functions *)

Definition int_ptr1 (p : loc) : M memory int_val :=
  i ← cast_to_int uintptr_t p;
  mret i.

(** The comment in the source has this function lose the provenance; only the
    type that is annotated forgets it, the value returned has it. *)
Definition int_ptr2 (p : loc) : M memory int_val :=
  i ← cast_to_int uintptr_t p;
  mret i.

Definition int_ptr3 (p : loc) : M memory int_val :=
  i ← cast_to_int uintptr_t p;
  mret (add i 0).

Definition min_ptr_val1 (p1 p2 : loc) : M memory int_val :=
  i1 ← cast_to_int uintptr_t p1;
  i2 ← cast_to_int uintptr_t p2;
  if num i1 <=? num i2 then mret i1 else
  mret i2.

Definition min_ptr_val2 (p1 p2 : loc) : M memory int_val :=
  i1 ← cast_to_int uintptr_t p1;
  i2 ← cast_to_int uintptr_t p2;
  if num i1 <=? num i2 then mret i1 else
  mret i2.

Definition comp_det_body (x y : loc) : M memory unit :=
  store x 0 ;;
  store y 0 ;;
  i ← cast_to_int uintptr_t x;
  j ← cast_to_int uintptr_t y;
  (if num i <? num j then store y 10 else store x 10) ;;
  if num i <? num j then
    v ← load y; c_assert (v =? 10) ;;
    v ← load x; c_assert (v =? 0)
  else
    v ← load x; c_assert (v =? 10) ;;
    v ← load y; c_assert (v =? 0).

Definition pointer_to_integer_comp_det `{!Placement} : M memory unit :=
  with_int (λ x, with_int (λ y, comp_det_body x y)).

Definition roundtrip1 (p : loc) : M memory loc :=
  i ← cast_to_int uintptr_t p;
  q ← cast_to_ptr i;
  mret q.

Definition roundtrip2 (p : loc) : M memory loc :=
  i ← cast_to_int uintptr_t p;
  q ← cast_to_ptr (add i 0);
  mret q.

Definition roundtrip3 (p : loc) : M memory loc :=
  i ← cast_to_int uintptr_t p;
  let k := add i 0 in
  copy_alloc_id k p.

Definition roundtrip_and_read1 (p : loc) : M memory Z :=
  i ← cast_to_int uintptr_t p;
  q ← cast_to_ptr i;
  r ← load q;
  mret r.

Definition roundtrip_and_read2 (p : loc) : M memory Z :=
  i ← cast_to_int uintptr_t p;
  let j := mul i 1 in
  q ← copy_alloc_id j p;
  r ← load q;
  mret r.

Definition roundtrip_and_read3 (p : loc) : M memory Z :=
  i ← cast_to_int uintptr_t p;
  q ← copy_alloc_id (mul i 1) p;
  load q.

Definition roundtrip_and_read4 (p : loc) : M memory Z :=
  i ← cast_to_int uintptr_t p;
  let j := mul i 1 in
  q ← copy_alloc_id j p;
  load q.

Definition roundtrip_and_read_past_the_end `{!Placement} : M memory Z :=
  with_int (λ x,
    e ← offset x 0;
    store e 0 ;;
    p ← offset x 1;
    i ← cast_to_int uintptr_t p;
    p' ← cast_to_ptr i;
    q ← offset p' (-1);
    load q).

Definition roundtrip_and_read_past_the_end_copy_alloc_id `{!Placement} : M memory Z :=
  with_int (λ x,
    e ← offset x 0;
    store e 0 ;;
    p ← offset x 1;
    i ← cast_to_int uintptr_t p;
    let pi := add i 0 in
    p' ← copy_alloc_id pi x;
    q ← offset p' (-1);
    load q).

Definition cast_NULL : M memory int_val := cast_to_int int NULL.

(** ** Well-formed memory *)

Record wf (m : memory) : Prop := {
  wf_block id b : blocks m !! id = Some b → 0 < start b ∧ start b + len b ≤ 2 ^ 64 - 2;
  wf_cell a id v : cells m !! a = Some (id, v) →
    ∃ b, blocks m !! id = Some b ∧ live b = true ∧ start b ≤ a ∧ a + 4 ≤ start b + len b;
  wf_value a id v : cells m !! a = Some (id, Some v) → in_type int v;
}.

(** A pointer to an initialized [int]. *)
Definition points_to (m : memory) (p : loc) (v : Z) : Prop :=
  ∃ id, origin p = ProvAlloc (Some id) ∧ cells m !! addr p = Some (id, Some v) ∧ addr p mod 4 = 0.

Lemma points_to_cell m p v : points_to m p v → ∃ id, cell_of p m = Some (id, Some v) ∧ origin p = ProvAlloc (Some id).
Proof.
  intros (id & Ho & Hc & Ha). exists id. split; [|done]. unfold cell_of.
  by rewrite Ho Hc Z.eqb_refl Ha.
Qed.

Lemma points_to_load m p v : points_to m p v → load p m = Ok v m.
Proof. intros (id & H & _)%points_to_cell. unfold load. by rewrite H. Qed.

Lemma points_to_valid m p v : wf m → points_to m p v → valid_ptr p m = true ∧ 0 < addr p < 2 ^ 64.
Proof.
  intros Hw (id & Ho & Hc & _). destruct (wf_cell m Hw _ _ _ Hc) as (b & Hb & Hl & Hs & He).
  pose proof (wf_block m Hw _ _ Hb). unfold valid_ptr, alive, in_bounds, block_of.
  rewrite Ho Hb Hl (proj2 (Z.leb_le (start b) (addr p))) // (proj2 (Z.leb_le (addr p) _)); [|lia].
  split; [done|lia].
Qed.

(** ** The operations on valid pointers *)

Lemma valid_alive l m : valid_ptr l m = true → alive l m = true.
Proof. by intros [? _]%andb_prop. Qed.

Lemma valid_in_bounds l m : valid_ptr l m = true → in_bounds l m = true.
Proof. by intros [_ ?]%andb_prop. Qed.

Lemma valid_origin l m : valid_ptr l m = true → ∃ id, origin l = ProvAlloc (Some id).
Proof.
  intros H%valid_alive. unfold alive, block_of in H. destruct (origin l) as [|[id|]]; [done|eauto|done].
Qed.

Lemma cast_to_int_valid {A} (k : int_val → M memory A) p id m :
  valid_ptr p m = true → in_type uintptr_t (addr p) → origin p = ProvAlloc (Some id) →
  (i ← cast_to_int uintptr_t p; k i) m = k (Int (addr p) (Some id)) m.
Proof.
  intros Hv Ha Ho. unfold cast_to_int, to_type, check, mbind, M_bind.
  by rewrite Ho valid_alive // decide_True.
Qed.

Lemma cast_to_ptr_valid {A} (k : loc → M memory A) p id m :
  valid_ptr p m = true → origin p = ProvAlloc (Some id) →
  (q ← cast_to_ptr (Int (addr p) (Some id)); k q) m = k p m.
Proof.
  intros Hv Ho. unfold cast_to_ptr, mbind, M_bind. simpl. rewrite -Ho.
  replace (Loc (origin p) (addr p)) with p by (by destruct p). by rewrite Hv.
Qed.

Lemma copy_alloc_id_run {A} (k : loc → M memory A) p i m :
  valid_ptr (Loc (origin p) (num i)) m = true →
  (q ← copy_alloc_id i p; k q) m = k (Loc (origin p) (num i)) m.
Proof. intros Hv. unfold copy_alloc_id, check, mbind, M_bind. by rewrite Hv. Qed.

Lemma copy_alloc_id_valid {A} (k : loc → M memory A) p i m :
  valid_ptr p m = true → num i = addr p → (q ← copy_alloc_id i p; k q) m = k p m.
Proof.
  intros Hv Hi. assert (Loc (origin p) (num i) = p) as He by (rewrite Hi; by destruct p).
  rewrite copy_alloc_id_run He //.
Qed.

Lemma num_add_0 i : in_type uintptr_t (num i) → add i 0 = Int (num i) None.
Proof. intros H. unfold add. by rewrite Z.add_0_r wrap_small. Qed.

Lemma num_mul_1 i : in_type uintptr_t (num i) → mul i 1 = Int (num i) None.
Proof. intros H. unfold mul. by rewrite Z.mul_1_r wrap_small. Qed.

Lemma bind_ret_run {A} (c : M memory A) m : (x ← c; mret x) m = c m.
Proof. unfold mbind, M_bind. by destruct (c m). Qed.

(** ** The functions on a pointer to an [int] *)

Section one_pointer.
Context (m : memory) (p : loc) (v id : Z).
Context (Hw : wf m) (Hp : points_to m p v) (Ho : origin p = ProvAlloc (Some id)).

Lemma pointer_in_type : in_type uintptr_t (addr p).
Proof. destruct (points_to_valid m p v Hw Hp) as [_ ?]. simpl. unfold in_unsigned. lia. Qed.

Lemma pointer_valid : valid_ptr p m = true.
Proof. by destruct (points_to_valid m p v Hw Hp). Qed.
#[local] Hint Resolve pointer_in_type pointer_valid : core.

Lemma pointer_cast {A} (k : int_val → M memory A) :
  (i ← cast_to_int uintptr_t p; k i) m = k (Int (addr p) (Some id)) m.
Proof. by apply cast_to_int_valid. Qed.

Lemma int_ptr_run :
  int_ptr1 p m = Ok (Int (addr p) (Some id)) m ∧ int_ptr2 p m = Ok (Int (addr p) (Some id)) m ∧
  int_ptr3 p m = Ok (Int (addr p) None) m.
Proof.
  split_and!; [by rewrite /int_ptr1 pointer_cast|by rewrite /int_ptr2 pointer_cast|].
  by rewrite /int_ptr3 pointer_cast num_add_0.
Qed.

Lemma roundtrip_run :
  roundtrip1 p m = Ok p m ∧ roundtrip3 p m = Ok p m ∧
  roundtrip2 p m = Ok (Loc (ProvAlloc None) (addr p)) m.
Proof.
  split_and!.
  - by rewrite /roundtrip1 pointer_cast cast_to_ptr_valid.
  - by rewrite /roundtrip3 pointer_cast num_add_0 // -bind_ret_run copy_alloc_id_valid.
  - rewrite /roundtrip2 pointer_cast num_add_0 // /cast_to_ptr /mbind /M_bind /=.
    destruct (points_to_valid m p v Hw Hp). by rewrite (proj2 (Z.eqb_neq (addr p) 0)); [|lia].
Qed.

Lemma roundtrip_and_read_run :
  Forall (λ f, f p m = Ok v m)
    [roundtrip_and_read1; roundtrip_and_read2; roundtrip_and_read3; roundtrip_and_read4].
Proof.
  pose proof (points_to_load m p v Hp). rewrite !Forall_cons. split_and!; [| | | |done].
  - by rewrite /roundtrip_and_read1 pointer_cast cast_to_ptr_valid // bind_ret_run.
  - by rewrite /roundtrip_and_read2 pointer_cast num_mul_1 // copy_alloc_id_valid // bind_ret_run.
  - by rewrite /roundtrip_and_read3 pointer_cast num_mul_1 // copy_alloc_id_valid.
  - by rewrite /roundtrip_and_read4 pointer_cast num_mul_1 // copy_alloc_id_valid.
Qed.
End one_pointer.

Lemma points_to_origin m p v : points_to m p v → ∃ id, origin p = ProvAlloc (Some id).
Proof. intros (id & ? & _). eauto. Qed.

(** The smaller address, with the allocation of the pointer it comes from; the
    first of two that are equal. *)
Lemma min_ptr_val_run m p1 p2 v1 v2 id1 id2 :
  wf m → points_to m p1 v1 → points_to m p2 v2 →
  origin p1 = ProvAlloc (Some id1) → origin p2 = ProvAlloc (Some id2) →
  let r := Int (addr p1 `min` addr p2) (Some (if addr p1 <=? addr p2 then id1 else id2)) in
  min_ptr_val1 p1 p2 m = Ok r m ∧ min_ptr_val2 p1 p2 m = Ok r m.
Proof.
  intros Hw H1 H2 Ho1 Ho2 r. split; rewrite /min_ptr_val1 /min_ptr_val2;
    (erewrite pointer_cast; [|done..]; erewrite pointer_cast; [|done..]);
    cbn [num]; unfold r; (destruct (Z.leb_spec (addr p1) (addr p2));
      [by rewrite Z.min_l|rewrite Z.min_r //; lia]).
Qed.

(** C32. The functions of intptr.c on a pointer to an initialised [int]: the
    integers that [int_ptr1] and [int_ptr2] return have its address and its
    allocation, that of [int_ptr3], after an addition, the address only;
    [roundtrip1], which does not touch the integer, and [roundtrip3], which
    copies the allocation back, return the pointer itself; [roundtrip2], which
    does arithmetic and does not, returns a pointer with the address that gives
    access to nothing; and the four [roundtrip_and_read] functions read the
    [int]. *)
Theorem intptr_round_trips m p v :
  wf m → points_to m p v →
  ∃ id, origin p = ProvAlloc (Some id) ∧
  int_ptr1 p m = Ok (Int (addr p) (Some id)) m ∧ int_ptr2 p m = Ok (Int (addr p) (Some id)) m ∧
  int_ptr3 p m = Ok (Int (addr p) None) m ∧
  roundtrip1 p m = Ok p m ∧ roundtrip3 p m = Ok p m ∧
  roundtrip2 p m = Ok (Loc (ProvAlloc None) (addr p)) m ∧
  load (Loc (ProvAlloc None) (addr p)) m = Err UndefinedBehaviour ∧
  Forall (λ f, f p m = Ok v m)
    [roundtrip_and_read1; roundtrip_and_read2; roundtrip_and_read3; roundtrip_and_read4].
Proof.
  intros Hw Hp. destruct (points_to_origin m p v Hp) as [id Ho]. exists id.
  destruct (int_ptr_run m p v id Hw Hp Ho) as (? & ? & ?), (roundtrip_run m p v id Hw Hp Ho) as (? & ? & ?).
  split_and!; [done..|by eapply roundtrip_and_read_run].
Qed.

(** ** Locals *)

(** What a call with locals leaves: the objects of its caller, and allocations
    that are gone. *)
Definition leaves (m m' : memory) : Prop :=
  wf m' ∧ cells m' = cells m ∧ ∀ id, is_Some (blocks m !! id) → is_Some (blocks m' !! id).

Lemma leaves_refl m : wf m → leaves m m.
Proof. by intros. Qed.

Lemma wf_dead m id a :
  wf m → blocks m !! id = None → 0 < a → a + 4 ≤ 2 ^ 64 - 2 →
  wf (Memory (<[id := Block a 4 false]> (blocks m)) (cells m)).
Proof.
  intros Hw Hn H0 He. split; simpl.
  - intros id' b. rewrite lookup_insert_Some. intros [[<- <-]|[_ Hb]]; [done|by apply (wf_block m Hw id')].
  - intros a' id' v Hc. destruct (wf_cell m Hw _ _ _ Hc) as (b & Hb & Hr). exists b.
    rewrite lookup_insert_ne //. intros <-. congruence.
  - apply (wf_value m Hw).
Qed.

Lemma leaves_dead m id a :
  wf m → blocks m !! id = None → 0 < a → a + 4 ≤ 2 ^ 64 - 2 →
  leaves m (Memory (<[id := Block a 4 false]> (blocks m)) (cells m)).
Proof.
  intros Hw Hn H0 He. split; [by apply wf_dead|]. split; [done|]. simpl.
  intros id' Hs. destruct (decide (id = id')) as [->|]; [by rewrite lookup_insert_eq|].
  by rewrite lookup_insert_ne.
Qed.

(** The place of a local holds nothing before. *)
Lemma place_no_cell `{!Placement} m id a : wf m → place m = Some (id, a) → cells m !! a = None.
Proof.
  intros Hw Hp. destruct (place_spec m id a Hp) as (_ & _ & _ & _ & Hdis).
  destruct (cells m !! a) as [[id' v]|] eqn:E; [|done].
  destruct (wf_cell m Hw _ _ _ E) as (b & Hb & Hl & ? & ?).
  destruct (Hdis id' b Hb Hl); lia.
Qed.

Lemma offset_valid {A} (k : loc → M memory A) p n m :
  in_bounds (Loc (origin p) (addr p + 4 * n)) m = true →
  (q ← offset p n; k q) m = k (Loc (origin p) (addr p + 4 * n)) m.
Proof. intros H. unfold offset, check, mbind, M_bind. by rewrite H. Qed.

Lemma store_run {A} (k : M memory A) l id w v m :
  cell_of l m = Some (id, w) →
  (store l v ;; k) m = k (Memory (blocks m) (<[addr l := (id, Some v)]> (cells m))).
Proof. intros H. unfold store, mbind, M_bind. by rewrite H. Qed.

Lemma load_run {A} (k : Z → M memory A) l id v m :
  cell_of l m = Some (id, Some v) → (x ← load l; k x) m = k v m.
Proof. intros H. unfold load, mbind, M_bind. by rewrite H. Qed.

Lemma assert_true {A} (k : M memory A) b m : b = true → (c_assert b ;; k) m = k m.
Proof. by intros ->. Qed.

(** A cell of a memory, seen from a pointer to it. *)
Lemma cell_of_lookup m id a w :
  cells m !! a = Some (id, w) → a mod 4 = 0 → cell_of (Loc (ProvAlloc (Some id)) a) m = Some (id, w).
Proof. intros Hc Ha. unfold cell_of. simpl. by rewrite Hc Z.eqb_refl Ha. Qed.

(** Pointers into a local and one past it. *)
Lemma local_valid m id a k :
  blocks m !! id = Some (Block a 4 true) → 0 ≤ k ≤ 4 →
  valid_ptr (Loc (ProvAlloc (Some id)) (a + k)) m = true.
Proof.
  intros Hb Hk. unfold valid_ptr, alive, in_bounds, block_of. simpl. rewrite Hb. simpl.
  apply andb_true_intro. split; apply Z.leb_le; lia.
Qed.

(** Memory with a new local that holds [v]. *)
Definition local (m : memory) (id a : Z) (v : option Z) : memory :=
  Memory (<[id := Block a 4 true]> (blocks m)) (<[a := (id, v)]> (cells m)).

Lemma wf_local `{!Placement} m id a v :
  wf m → place m = Some (id, a) → (∀ z, v = Some z → in_type int z) → wf (local m id a v).
Proof.
  intros Hw Hp Hv. destruct (place_spec m id a Hp) as (Hn & H0 & He & _ & Hdis). split; simpl.
  - intros id' b. rewrite lookup_insert_Some. intros [[<- <-]|[_ Hb]]; [done|by apply (wf_block m Hw id')].
  - intros a' id' v'. rewrite lookup_insert_Some. intros [[<- [= <- <-]]|[Hne Hc]].
    + exists (Block a 4 true). rewrite lookup_insert_eq. simpl. split_and!; [done|done|lia|lia].
    + destruct (wf_cell m Hw _ _ _ Hc) as (b & Hb & Hr). exists b.
      rewrite lookup_insert_ne //. intros <-. congruence.
  - intros a' id' v'. rewrite lookup_insert_Some.
    intros [[<- [= <- Hz]]|[_ Hc]]; [by apply Hv|by apply (wf_value m Hw a' id')].
Qed.

(** A call with a local: its body runs with a new cell, which is gone after. *)
Lemma with_int_run `{!Placement} {A} (body : loc → M memory A) m id a r m' :
  place m = Some (id, a) →
  body (Loc (ProvAlloc (Some id)) a) (local m id a None) = Ok r m' →
  with_int body m =
    Ok r (Memory (<[id := Block a 4 false]> (blocks m')) (delete a (cells m'))).
Proof.
  intros Hp Hb. unfold with_int, new_local, mbind, M_bind. rewrite Hp. unfold local in Hb. by rewrite Hb.
Qed.

Lemma with_int_leaves `{!Placement} {A} (body : loc → M memory A) m id a r v :
  wf m → place m = Some (id, a) →
  body (Loc (ProvAlloc (Some id)) a) (local m id a None) = Ok r (local m id a v) →
  with_int body m = Ok r (Memory (<[id := Block a 4 false]> (blocks m)) (cells m)).
Proof.
  intros Hw Hp Hb. rewrite (with_int_run _ _ _ _ _ _ Hp Hb) /=.
  rewrite insert_insert_eq delete_insert_eq delete_id //. by eapply place_no_cell.
Qed.

Section past_the_end.
Context `{!Placement} (m : memory) (id a : Z).
Context (Hw : wf m) (Hp : place m = Some (id, a)).

Let x := Loc (ProvAlloc (Some id)) a.
Let m0 := local m id a.

Lemma local_offset {A} (k : loc → M memory A) p d v :
  origin p = ProvAlloc (Some id) → a ≤ addr p + 4 * d ≤ a + 4 →
  (q ← offset p d; k q) (m0 v) = k (Loc (ProvAlloc (Some id)) (addr p + 4 * d)) (m0 v).
Proof.
  intros Ho Hd. rewrite offset_valid Ho //. apply valid_in_bounds.
  replace (addr p + 4 * d) with (a + (addr p + 4 * d - a)) by lia.
  apply local_valid; [by rewrite lookup_insert_eq|lia].
Qed.

Lemma past_end_cell v : cell_of x (m0 v) = Some (id, v).
Proof.
  apply cell_of_lookup; [by rewrite lookup_insert_eq|]. by destruct (place_spec m id a Hp) as (_ & _ & _ & ? & _).
Qed.

Lemma past_end_cast {A} (k : int_val → M memory A) v :
  (i ← cast_to_int uintptr_t (Loc (ProvAlloc (Some id)) (a + 4)); k i) (m0 v) =
    k (Int (a + 4) (Some id)) (m0 v).
Proof.
  rewrite (cast_to_int_valid _ _ id) //.
  - apply local_valid; [by rewrite lookup_insert_eq|lia].
  - destruct (place_spec m id a Hp) as (_ & ? & ? & _). simpl. unfold in_unsigned. lia.
Qed.

(** Both functions read the local from one past its end. *)
Lemma past_the_end_run :
  roundtrip_and_read_past_the_end m =
    Ok 0 (Memory (<[id := Block a 4 false]> (blocks m)) (cells m)) ∧
  roundtrip_and_read_past_the_end_copy_alloc_id m =
    Ok 0 (Memory (<[id := Block a 4 false]> (blocks m)) (cells m)).
Proof.
  assert (valid_ptr (Loc (ProvAlloc (Some id)) (a + 4)) (m0 (Some 0)) = true) as Hend
    by (apply local_valid; [by rewrite lookup_insert_eq|lia]).
  assert (∀ A (k : loc → M memory A), (e ← offset x 0; store e 0 ;; p ← offset x 1; k p) (m0 None) =
    k (Loc (ProvAlloc (Some id)) (a + 4)) (m0 (Some 0))) as Hstart.
  { intros A k. rewrite (local_offset _ x 0); [|done|simpl; lia].
    change (addr x + 4 * 0) with (a + 0). rewrite Z.add_0_r (store_run _ _ id None); [|apply past_end_cell].
    simpl. rewrite insert_insert_eq. fold (local m id a (Some 0)) (m0 (Some 0)).
    rewrite (local_offset _ x 1) //. simpl. lia. }
  assert (∀ q, addr q = a + 4 → origin q = ProvAlloc (Some id) →
    (q' ← offset q (-1); load q') (m0 (Some 0)) = Ok 0 (m0 (Some 0))) as Hread.
  { intros q Hq Ho. rewrite local_offset; [|done|lia]. replace (addr q + 4 * -1) with a by lia.
    unfold load. by rewrite past_end_cell. }
  destruct (place_spec m id a Hp) as (_ & H0 & H1 & _).
  split; (apply (with_int_leaves _ _ _ _ _ (Some 0)); [done..|]); fold m0 x;
    rewrite Hstart past_end_cast.
  - rewrite (cast_to_ptr_valid _ (Loc (ProvAlloc (Some id)) (a + 4)) id) //. by apply Hread.
  - rewrite num_add_0; [|simpl; unfold in_unsigned; lia]. cbn [num].
    rewrite (copy_alloc_id_run _ x (Int (a + 4) None)) //. by apply Hread.
Qed.
End past_the_end.

Section two_locals.
Context `{!Placement} (m : memory) (id1 a1 id2 a2 : Z).
Context (Hw : wf m) (Hp1 : place m = Some (id1, a1)) (Hp2 : place (local m id1 a1 None) = Some (id2, a2)).

Let m2 v w := local (local m id1 a1 v) id2 a2 w.

Lemma two_locals_apart : id1 ≠ id2 ∧ a1 ≠ a2 ∧ blocks m !! id1 = None ∧ blocks m !! id2 = None.
Proof.
  destruct (place_spec _ _ _ Hp2) as (Hn & _ & _ & _ & Hdis). simpl in Hn, Hdis.
  apply lookup_insert_None in Hn as [Hn Hne]. split; [done|].
  destruct (Hdis id1 (Block a1 4 true)) as [Hd|Hd]; [by rewrite lookup_insert_eq|done| |];
    (split_and!; [simpl in Hd; lia|by destruct (place_spec _ _ _ Hp1)|done]).
Qed.

Lemma two_locals_cells v w :
  cell_of (Loc (ProvAlloc (Some id1)) a1) (m2 v w) = Some (id1, v) ∧
  cell_of (Loc (ProvAlloc (Some id2)) a2) (m2 v w) = Some (id2, w).
Proof.
  destruct two_locals_apart as (_ & Ha & _).
  split; apply cell_of_lookup; simpl.
  - by rewrite lookup_insert_ne // lookup_insert_eq.
  - by destruct (place_spec _ _ _ Hp1) as (_ & _ & _ & ? & _).
  - by rewrite lookup_insert_eq.
  - by destruct (place_spec _ _ _ Hp2) as (_ & _ & _ & ? & _).
Qed.

Lemma two_locals_store {A} (k : M memory A) v w z :
  (store (Loc (ProvAlloc (Some id1)) a1) z ;; k) (m2 v w) = k (m2 (Some z) w) ∧
  (store (Loc (ProvAlloc (Some id2)) a2) z ;; k) (m2 v w) = k (m2 v (Some z)).
Proof.
  destruct two_locals_apart as (_ & Ha & _), (two_locals_cells v w) as [H1 H2].
  split; (erewrite store_run; [|done]); unfold m2, local; simpl.
  - by rewrite (insert_insert_ne _ a1 a2) // insert_insert_eq.
  - by rewrite insert_insert_eq.
Qed.

Lemma two_locals_cast {A} (k : int_val → int_val → M memory A) v w :
  (i ← cast_to_int uintptr_t (Loc (ProvAlloc (Some id1)) a1);
   j ← cast_to_int uintptr_t (Loc (ProvAlloc (Some id2)) a2); k i j) (m2 v w) =
    k (Int a1 (Some id1)) (Int a2 (Some id2)) (m2 v w).
Proof.
  destruct two_locals_apart as (Hid & _).
  destruct (place_spec _ _ _ Hp1) as (_ & ? & ? & _). destruct (place_spec _ _ _ Hp2) as (_ & ? & ? & _).
  rewrite (cast_to_int_valid _ _ id1) //; [rewrite (cast_to_int_valid _ _ id2) //|..].
  - rewrite -{1}(Z.add_0_r a2). apply local_valid; [by rewrite lookup_insert_eq|lia].
  - simpl. unfold in_unsigned. lia.
  - rewrite -{1}(Z.add_0_r a1). apply local_valid; [|lia].
    simpl. by rewrite lookup_insert_ne // lookup_insert_eq.
  - simpl. unfold in_unsigned. lia.
Qed.

Lemma comp_det_body_run : ∃ v w,
  comp_det_body (Loc (ProvAlloc (Some id1)) a1) (Loc (ProvAlloc (Some id2)) a2) (m2 None None) =
    Ok tt (m2 v w).
Proof.
  exists (Some (if a1 <? a2 then 0 else 10)), (Some (if a1 <? a2 then 10 else 0)). unfold comp_det_body.
  rewrite (proj1 (two_locals_store _ _ _ _)) (proj2 (two_locals_store _ _ _ _)) two_locals_cast. cbn [num].
  destruct (a1 <? a2).
  - rewrite (proj2 (two_locals_store _ _ _ _)).
    rewrite (load_run _ _ _ _ _ (proj2 (two_locals_cells _ _))) assert_true //.
    by rewrite (load_run _ _ _ _ _ (proj1 (two_locals_cells _ _))).
  - rewrite (proj1 (two_locals_store _ _ _ _)).
    rewrite (load_run _ _ _ _ _ (proj1 (two_locals_cells _ _))) assert_true //.
    by rewrite (load_run _ _ _ _ _ (proj2 (two_locals_cells _ _))).
Qed.

(** The comparison of the two addresses has one outcome, whatever they are. *)
Lemma comp_det_run :
  pointer_to_integer_comp_det m =
    Ok tt (Memory (<[id1 := Block a1 4 false]> (<[id2 := Block a2 4 false]> (blocks m))) (cells m)).
Proof.
  destruct two_locals_apart as (Hid & Ha & Hn1 & Hn2).
  assert (cells m !! a1 = None) as Hc1 by (by eapply place_no_cell).
  assert (cells m !! a2 = None) as Hc2.
  { eapply place_no_cell in Hp2 as Hc; [|by apply wf_local]. simpl in Hc. by apply lookup_insert_None in Hc as [? _]. }
  destruct comp_det_body_run as (v & w & Hb). fold (m2 None None) in Hb.
  unfold pointer_to_integer_comp_det.
  rewrite (with_int_run _ _ _ _ _ _ Hp1 (with_int_run _ _ _ _ _ _ Hp2 Hb)). unfold m2, local. simpl.
  rewrite insert_insert_eq (insert_insert_ne _ id2 id1) // insert_insert_eq.
  by rewrite delete_insert_eq delete_insert_ne // delete_insert_eq (delete_id _ a2) // delete_id.
Qed.
End two_locals.

(** ** Types *)

Inductive ctype := IntType (t : int_type) | PointerType | VoidType.
Inductive val := VInt (i : int_val) | VPtr (l : loc) | VVoid.
Definition has_type (ty : ctype) (v : val) : Prop :=
  match ty, v with
  | IntType t, VInt i => in_type t (num i)
  | PointerType, VPtr l => in_type uintptr_t (addr l)
  | VoidType, VVoid => True
  | _, _ => False
  end.

(** A function of the file: its pointer parameters, its locals, its return
    type and its body. *)
Record function := Function {
  name : string;
  params : nat;
  locals : nat;
  returns : ctype;
  call : list loc → M memory val;
}.

Definition call0 {A} (ret : A → val) (f : M memory A) (args : list loc) : M memory val :=
  match args with [] => r ← f; mret (ret r) | _ => fail UndefinedBehaviour end.
Definition call1 {A} (ret : A → val) (f : loc → M memory A) (args : list loc) : M memory val :=
  match args with [p] => r ← f p; mret (ret r) | _ => fail UndefinedBehaviour end.
Definition call2 {A} (ret : A → val) (f : loc → loc → M memory A) (args : list loc) : M memory val :=
  match args with [p; q] => r ← f p q; mret (ret r) | _ => fail UndefinedBehaviour end.
Definition ret_int (z : Z) : val := VInt (Int z None).

Definition intptr_c `{!Placement} : list function := [
  Function "int_ptr1" 1 0 (IntType uintptr_t) (call1 VInt int_ptr1);
  Function "int_ptr2" 1 0 (IntType uintptr_t) (call1 VInt int_ptr2);
  Function "int_ptr3" 1 0 (IntType uintptr_t) (call1 VInt int_ptr3);
  Function "min_ptr_val1" 2 0 (IntType uintptr_t) (call2 VInt min_ptr_val1);
  Function "min_ptr_val2" 2 0 (IntType uintptr_t) (call2 VInt min_ptr_val2);
  Function "pointer_to_integer_comp_det" 0 2 VoidType (call0 (λ _, VVoid) pointer_to_integer_comp_det);
  Function "roundtrip1" 1 0 PointerType (call1 VPtr roundtrip1);
  Function "roundtrip2" 1 0 PointerType (call1 VPtr roundtrip2);
  Function "roundtrip3" 1 0 PointerType (call1 VPtr roundtrip3);
  Function "roundtrip_and_read1" 1 0 (IntType int) (call1 ret_int roundtrip_and_read1);
  Function "roundtrip_and_read2" 1 0 (IntType int) (call1 ret_int roundtrip_and_read2);
  Function "roundtrip_and_read3" 1 0 (IntType int) (call1 ret_int roundtrip_and_read3);
  Function "roundtrip_and_read4" 1 0 (IntType int) (call1 ret_int roundtrip_and_read4);
  Function "roundtrip_and_read_past_the_end" 0 1 (IntType int)
    (call0 ret_int roundtrip_and_read_past_the_end);
  Function "roundtrip_and_read_past_the_end_copy_alloc_id" 0 1 (IntType int)
    (call0 ret_int roundtrip_and_read_past_the_end_copy_alloc_id);
  Function "cast_NULL" 0 0 (IntType int) (call0 VInt cast_NULL)
].

(** Whether there is a place for [n] locals. *)
Fixpoint room `{!Placement} (n : nat) (m : memory) : bool :=
  match n with
  | O => true
  | S n => match new_local m with Ok _ m' => room n m' | Err _ => false end
  end.

(** What a call of [f] does in [m]. *)
Definition safe `{!Placement} (m : memory) (f : function) (args : list loc) : Prop :=
  if room (locals f) m
  then ∃ v m', call f args m = Ok v m' ∧ has_type (returns f) v ∧ leaves m m'
  else call f args m = Err NonTermination.

Lemma safe_call1 `{!Placement} {A} (ret : A → val) (f : loc → M memory A) s ty m p r :
  wf m → f p m = Ok r m → has_type ty (ret r) → safe m (Function s 1 0 ty (call1 ret f)) [p].
Proof.
  intros Hw Hf Ht. exists (ret r), m. split_and!; [|done|by apply leaves_refl].
  unfold call, call1, mbind, M_bind. by rewrite Hf.
Qed.

Lemma safe_call2 `{!Placement} {A} (ret : A → val) (f : loc → loc → M memory A) s ty m p q r :
  wf m → f p q m = Ok r m → has_type ty (ret r) → safe m (Function s 2 0 ty (call2 ret f)) [p; q].
Proof.
  intros Hw Hf Ht. exists (ret r), m. split_and!; [|done|by apply leaves_refl].
  unfold call, call2, mbind, M_bind. by rewrite Hf.
Qed.

Lemma no_room `{!Placement} {A} (body : loc → M memory A) m :
  place m = None → with_int body m = Err NonTermination.
Proof. intros Hp. unfold with_int, new_local, mbind, M_bind. by rewrite Hp. Qed.

Lemma safe_past_the_end `{!Placement} s f m :
  wf m →
  (∀ id a, place m = Some (id, a) → f m = Ok 0 (Memory (<[id := Block a 4 false]> (blocks m)) (cells m))) →
  (place m = None → f m = Err NonTermination) →
  safe m (Function s 0 1 (IntType int) (call0 ret_int f)) [].
Proof.
  intros Hw Hok Hno. unfold safe. simpl. unfold new_local.
  destruct (place m) as [[id a]|] eqn:Hp; simpl; unfold call0, mbind, M_bind; [|by rewrite Hno].
  rewrite (Hok id a) //. eexists _, _. split_and!; [done|done|].
  destruct (place_spec m id a Hp) as (? & ? & ? & _). by apply leaves_dead.
Qed.

Lemma leaves_trans m1 m2 m3 : leaves m1 m2 → leaves m2 m3 → leaves m1 m3.
Proof. intros (_ & H1 & H2) (Hw & H3 & H4). split; [done|]. split; [congruence|]. naive_solver. Qed.

Lemma safe_comp_det `{!Placement} s m :
  wf m → safe m (Function s 0 2 VoidType (call0 (λ _, VVoid) pointer_to_integer_comp_det)) [].
Proof.
  intros Hw. unfold safe. simpl. unfold new_local at 1.
  destruct (place m) as [[id1 a1]|] eqn:Hp1; [|by rewrite /call0 /pointer_to_integer_comp_det /mbind /M_bind no_room].
  unfold new_local. fold (local m id1 a1 None).
  destruct (place (local m id1 a1 None)) as [[id2 a2]|] eqn:Hp2.
  - rewrite /call0 /mbind /M_bind (comp_det_run m id1 a1 id2 a2) //. eexists _, _. split_and!; [done|done|].
    destruct (two_locals_apart m id1 a1 id2 a2 Hp1 Hp2) as (Hid & _ & Hn1 & Hn2).
    destruct (place_spec _ _ _ Hp1) as (_ & ? & ? & _). destruct (place_spec _ _ _ Hp2) as (_ & ? & ? & _).
    assert (leaves m (Memory (<[id2 := Block a2 4 false]> (blocks m)) (cells m))) as Hl by (by apply leaves_dead).
    refine (leaves_trans _ _ _ Hl (leaves_dead _ id1 a1 (proj1 Hl) _ _ _)); [|done..].
    by rewrite lookup_insert_ne.
  - rewrite /call0 /pointer_to_integer_comp_det /mbind /M_bind {1}/with_int /new_local /mbind /M_bind Hp1.
    fold (local m id1 a1 None). by rewrite no_room.
Qed.

(** C31. Type safety of the file: a call with as many pointers to initialized
    [int]s as the function has parameters returns a value of the declared type,
    leaves the objects of the caller as they were and its own locals gone, and
    has no undefined behaviour and no failed assertion; without a place for its
    locals it does not return. *)
Theorem intptr_functions_type_safe `{!Placement} m f args :
  wf m → f ∈ intptr_c → length args = params f → Forall (λ p, ∃ v, points_to m p v) args →
  safe m f args.
Proof.
  intros Hw Hf Hlen Hargs.
  assert (∀ p v, points_to m p v → in_type int v) as Hint by (intros p v (id & _ & Hc & _); by eapply wf_value).
  unfold intptr_c in Hf. rewrite !elem_of_cons elem_of_nil in Hf.
  destruct args as [|p [|q []]]; simpl in Hlen.
  - destruct_or!; subst; try done.
    + by apply safe_comp_det.
    + apply safe_past_the_end; [done| |apply no_room]. intros. by apply past_the_end_run.
    + apply safe_past_the_end; [done| |apply no_room]. intros. by apply past_the_end_run.
    + exists (VInt (Int 0 None)), m. split_and!; [done|by vm_compute|by apply leaves_refl].
  - apply Forall_singleton in Hargs as [v Hp]. destruct (points_to_origin m p v Hp) as [id Ho].
    pose proof (pointer_in_type m p v Hw Hp) as Ht.
    destruct (int_ptr_run m p v id Hw Hp Ho) as (? & ? & ?), (roundtrip_run m p v id Hw Hp Ho) as (? & ? & ?).
    pose proof (roundtrip_and_read_run m p v id Hw Hp Ho) as Hr. rewrite !Forall_cons in Hr.
    destruct Hr as (? & ? & ? & ? & _).
    destruct_or!; subst; try done; (eapply safe_call1; [done|done|first [done|by eapply Hint]]).
  - apply Forall_cons in Hargs as [[v Hp] [[w Hq] _]%Forall_cons].
    destruct (points_to_origin m p v Hp) as [i Hi], (points_to_origin m q w Hq) as [j Hj].
    destruct (min_ptr_val_run m p q v w i j Hw Hp Hq Hi Hj) as [? ?].
    pose proof (pointer_in_type m p v Hw Hp). pose proof (pointer_in_type m q w Hw Hq).
    destruct_or!; subst; try done; (eapply safe_call2; [done|done|]); simpl in *; unfold in_unsigned in *; lia.
  - destruct_or!; by subst.
Qed.

(** ** A memory with two [int]s, and a placement of locals above it *)

Definition two_ints : memory :=
  Memory {[ 1 := Block 1000 8 true ]} (list_to_map [(1000, (1, Some 5)); (1004, (1, Some 7))]).
Definition ptr (a : Z) : loc := Loc (ProvAlloc (Some 1)) a.

Lemma two_ints_wf : wf two_ints.
Proof.
  split.
  - unfold two_ints. cbn. intros id b [<- <-]%lookup_singleton_Some. simpl. lia.
  - intros a id v Hc%elem_of_list_to_map_2. exists (Block 1000 8 true).
    rewrite !elem_of_cons elem_of_nil in Hc. destruct_or!; simplify_eq; (split; [done|]); simpl; lia.
  - intros a id v Hc%elem_of_list_to_map_2.
    rewrite !elem_of_cons elem_of_nil in Hc. destruct_or!; simplify_eq; by vm_compute.
Qed.

Lemma two_ints_points_to : points_to two_ints (ptr 1000) 5 ∧ points_to two_ints (ptr 1004) 7.
Proof. split; exists 1; by vm_compute. Qed.

Definition candidate (m : memory) : Z * Z :=
  (Z.of_nat (size (blocks m)) + 1, 2000 + 4 * Z.of_nat (size (blocks m))).
Definition place_ok (m : memory) (id a : Z) : Prop :=
  blocks m !! id = None ∧ 0 < a ∧ a + 4 ≤ 2 ^ 64 - 2 ∧ a mod 4 = 0 ∧
  map_Forall (λ _ b, live b = true → start b + len b ≤ a ∨ a + 4 ≤ start b) (blocks m).
#[local] Instance place_ok_dec m id a : Decision (place_ok m id a).
Proof. apply _. Defined.

#[local] Program Instance above : Placement := {
  place m := let '(id, a) := candidate m in if decide (place_ok m id a) then Some (id, a) else None;
}.
Next Obligation.
  intros m id a Hp. unfold candidate in Hp. case_decide as Hok; [|done]. simplify_eq.
  destruct Hok as (? & ? & ? & ? & Hall). split_and!; [done..|]. intros id b Hb Hl. by apply (Hall id).
Qed.

Lemma intptr_round_trips_witness :
  roundtrip1 (ptr 1004) two_ints = Ok (ptr 1004) two_ints ∧
  ∃ id, origin (ptr 1004) = ProvAlloc (Some id).
Proof.
  split; [by vm_compute|].
  destruct (intptr_round_trips two_ints (ptr 1004) 7 two_ints_wf (proj2 two_ints_points_to)) as [id [H _]].
  by exists id.
Defined.

Lemma intptr_functions_type_safe_witness :
  room 2 two_ints = true ∧
  Forall (λ f, locals f ≤ 2)%nat intptr_c ∧
  safe two_ints (Function "min_ptr_val2" 2 0 (IntType uintptr_t) (call2 VInt min_ptr_val2)) [ptr 1004; ptr 1000].
Proof.
  split_and!; [by vm_compute|unfold intptr_c; rewrite !Forall_cons; simpl; split_and!; lia || done|].
  apply intptr_functions_type_safe; [apply two_ints_wf|unfold intptr_c; rewrite !elem_of_cons; naive_solver|done|].
  rewrite !Forall_cons. destruct two_ints_points_to as [H1 H2]. split_and!; [by exists 7|by exists 5|done].
Defined.

End Provenance.
