(* ===== verification/Sockets.v ===== *)
(** * The channels of the scheduler example (src/examples/scheduler/src/io.c)

    The calls of the operating system are parameters: what they do to the open
    descriptors, to the addresses they are bound to and to the error output is
    what POSIX says of them.  [channels] is the part of main.c that opens the
    three channels of the application. *)
From S2P Require Import Prelude Words FdSched Application.
From stdpp Require Import gmap list strings.
From iris.prelude Require Import prelude.
#[local] Open Scope Z_scope.

Module Sockets.

(** [struct sockaddr_in]; the fields the code does not set are zero. *)
Record sockaddr_in := SockaddrIn { sin_family : Z; sin_port : Z; s_addr : Z }.

(** ** POSIX *)

(** Constants of the headers. *)
Class Headers := {
  AF_INET : Z; SOCK_DGRAM : Z; IPPROTO_UDP : Z; INADDR_ANY : Z;
  STDIN_FILENO : Z;  (* [fileno(stdin)] *)
}.

Class Posix `{!Headers} (os : Type) := {
  socket : Z → Z → Z → M os Z;
  bind : Z → sockaddr_in → M os Z;
  dup : Z → M os Z;
  perror : string → M os unit;

  open : os → gset Z;
  bound : os → gmap Z sockaddr_in;
  stderr : os → list string;

  socket_law domain type protocol w : ∃ r w',
    socket domain type protocol w = Ok r w' ∧ bound w' = bound w ∧ stderr w' = stderr w ∧
    ((r = -1 ∧ open w' = open w) ∨
     (0 ≤ r < 2 ^ 31 ∧ r ∉ open w ∧ bound w !! r = None ∧ open w' = {[r]} ∪ open w));
  bind_law fd a w : ∃ r w',
    bind fd a w = Ok r w' ∧ open w' = open w ∧ stderr w' = stderr w ∧
    ((r = -1 ∧ bound w' = bound w) ∨ (r = 0 ∧ bound w' = <[fd := a]> (bound w)));
  dup_law fd w : ∃ r w',
    dup fd w = Ok r w' ∧ stderr w' = stderr w ∧
    ((r = -1 ∧ open w' = open w) ∨
     (0 ≤ r < 2 ^ 31 ∧ fd ∈ open w ∧ r ∉ open w ∧ open w' = {[r]} ∪ open w));
  perror_law s w : ∃ w',
    perror s w = Ok tt w' ∧ open w' = open w ∧ bound w' = bound w ∧ stderr w' = stderr w ++ [s];
}.

(** Network byte order on a little-endian machine. *)
Definition htons (x : Z) : Z :=
  let x := u16 x in
  Z.lor (Z.shiftl (Z.land x 255) 8) (Z.shiftr x 8).
Definition htonl (x : Z) : Z :=
  let x := u32 x in
  Z.lor (Z.lor (Z.shiftl (Z.land x 255) 24) (Z.shiftl (Z.land (Z.shiftr x 8) 255) 16))
        (Z.lor (Z.shiftl (Z.land (Z.shiftr x 16) 255) 8) (Z.shiftr x 24)).

(** ** io.c *)

Section io.
Context `{!Headers} {os : Type} `{!Posix os}.

Definition open_udp_socket (port_number : Z) : M os Z :=
  let addr := SockaddrIn 0 0 0 in
  the_socket ← socket AF_INET SOCK_DGRAM IPPROTO_UDP;
  if the_socket <? 0 then
    perror "socket creation" ;;
    mret the_socket
  else
  let host_addr := INADDR_ANY in
  let addr := SockaddrIn AF_INET (sin_port addr) (s_addr addr) in
  let addr := SockaddrIn (sin_family addr) (htons port_number) (s_addr addr) in
  let addr := SockaddrIn (sin_family addr) (sin_port addr) (htonl host_addr) in
  err ← bind the_socket addr;
  if err <? 0 then
    perror "binding to port" ;;
    mret err
  else
  mret the_socket.

Definition open_stdin : M os Z :=
  fd ← dup STDIN_FILENO;
  mret fd.

(** The address of a port. *)
Definition address (port : Z) : sockaddr_in := SockaddrIn AF_INET (htons port) (htonl INADDR_ANY).

Inductive outcome (port : Z) (w : os) : Z → os → Prop :=
  | no_socket w' :
      open w' = open w → bound w' = bound w → stderr w' = stderr w ++ ["socket creation"%string] →
      outcome port w (-1) w'
  | not_bound fd w' :
      fd ∉ open w → open w' = {[fd]} ∪ open w → bound w' = bound w →
      stderr w' = stderr w ++ ["binding to port"%string] →
      outcome port w (-1) w'
  | opened fd w' :
      0 ≤ fd < 2 ^ 31 → fd ∉ open w → open w' = {[fd]} ∪ open w →
      bound w !! fd = None → bound w' = <[fd := address port]> (bound w) → stderr w' = stderr w →
      outcome port w fd w'.

Lemma open_udp_socket_spec port w : ∃ r w', open_udp_socket port w = Ok r w' ∧ outcome port w r w'.
Proof.
  unfold open_udp_socket, mbind, M_bind.
  destruct (socket_law AF_INET SOCK_DGRAM IPPROTO_UDP w) as (fd & w1 & -> & Hb & He & Hr).
  destruct Hr as [[-> Ho]|(Hfd & Hn & Hbn & Ho)]; simpl.
  - destruct (perror_law "socket creation" w1) as (w2 & -> & Ho' & Hb' & He').
    eexists _, _. split; [done|]. apply no_socket; congruence.
  - rewrite (proj2 (Z.ltb_ge fd 0)); [|lia].
    destruct (bind_law fd (address port) w1) as (e & w2 & Hbind & Ho' & He' & Hr).
    unfold address in Hbind. rewrite Hbind. destruct Hr as [[-> Hb']|[-> Hb']]; simpl.
    + destruct (perror_law "binding to port" w2) as (w3 & -> & Ho'' & Hb'' & He'').
      eexists _, _. split; [done|]. apply (not_bound _ _ fd); congruence.
    + eexists _, _. split; [done|]. apply opened; congruence || done.
Qed.

(** C33. [open_udp_socket] always returns, and in one of three ways: with a new
    descriptor that is bound to the port on every interface; with -1 and the
    message of the failed [socket], nothing opened; or with -1 and the message
    of the failed [bind], and then the socket stays open although the caller
    does not learn its descriptor. *)
Theorem open_udp_socket_outcomes port w :
  (∃ r w', open_udp_socket port w = Ok r w' ∧ outcome port w r w') ∧
  (∀ r w', open_udp_socket port w = Ok r w' → r < 0 →
    bound w' = bound w ∧ stderr w' ≠ stderr w ∧
    (stderr w' = stderr w ++ ["binding to port"%string] → ∃ fd, fd ∈ open w' ∧ fd ∉ open w)).
Proof.
  destruct (open_udp_socket_spec port w) as (r & w' & Hrun & Hout). split; [eauto|].
  intros r' w1 Hrun' Hr. rewrite Hrun in Hrun'. simplify_eq.
  assert (∀ s : string, stderr w ++ [s] ≠ stderr w) as Happ.
  { intros s E%(f_equal length). rewrite length_app /= in E. lia. }
  destruct Hout as [w1 ? ? He|fd w1 ? Ho ? He|fd w1 ? ? ? ? ? ?]; [| |lia]; rewrite He;
    (split_and!; [done|apply Happ|]); intros E.
  - apply app_inj_tail in E as [_ ?]. done.
  - exists fd. rewrite Ho. set_solver.
Qed.

Lemma open_stdin_spec w : ∃ r w',
  open_stdin w = Ok r w' ∧ stderr w' = stderr w ∧
  ((r = -1 ∧ open w' = open w) ∨
   (0 ≤ r < 2 ^ 31 ∧ STDIN_FILENO ∈ open w ∧ r ∉ open w ∧ open w' = {[r]} ∪ open w)).
Proof.
  unfold open_stdin, mbind, M_bind. destruct (dup_law STDIN_FILENO w) as (r & w' & -> & ? & ?).
  by eexists _, _.
Qed.

(** ** The channels of main *)

Definition complain (fd : Z) (s : string) : M os unit :=
  if fd <? 0 then perror s else mret tt.

Definition channels : M os (Z * Z * Z) :=
  fd1 ← open_udp_socket Application.UDP_LISTEN_PORT1;
  complain fd1 "cannot open UDP socket" ;;
  fd2 ← open_udp_socket Application.UDP_LISTEN_PORT2;
  complain fd2 "cannot open UDP socket" ;;
  fd3 ← open_stdin;
  complain fd3 "cannot open stdin" ;;
  mret (fd1, fd2, fd3).

(** What the main program of Application.v gets. *)
Definition sockets_of (fds : Z * Z * Z) : Application.Sockets := {|
  Application.open_udp_socket port := if port =? Application.UDP_LISTEN_PORT1 then fds.1.1 else fds.1.2;
  Application.open_stdin := fds.2;
|}.

(** A call that opens a descriptor or fails leaves the open ones open. *)
Definition opens (w : os) (fd : Z) (w' : os) : Prop :=
  open w ⊆ open w' ∧ (fd < 0 ∨ (fd ∉ open w ∧ fd ∈ open w')).

Lemma open_udp_socket_opens port w : ∃ fd w', open_udp_socket port w = Ok fd w' ∧ opens w fd w'.
Proof.
  destruct (open_udp_socket_spec port w) as (r & w' & Hrun & Hout). exists r, w'. split; [done|].
  destruct Hout as [w' Ho ? ?|fd w' ? Ho ? ?|fd w' ? ? Ho ? ? ?]; unfold opens; rewrite Ho;
    (split; [set_solver|]); [left; lia|left; lia|right; set_solver].
Qed.

Lemma open_stdin_opens w : ∃ fd w', open_stdin w = Ok fd w' ∧ opens w fd w'.
Proof.
  destruct (open_stdin_spec w) as (fd & w' & Hrun & _ & Hr). exists fd, w'. split; [done|].
  unfold opens. destruct Hr as [[-> ->]|(_ & _ & ? & ->)]; (split; [set_solver|]); [left; lia|right; set_solver].
Qed.

Lemma complain_open fd s w : ∃ w', complain fd s w = Ok tt w' ∧ open w' = open w.
Proof.
  unfold complain. destruct (fd <? 0); [|by exists w].
  destruct (perror_law s w) as (w' & ? & ? & _). by exists w'.
Qed.

Lemma channels_spec w : ∃ fd1 fd2 fd3 w1 w2 w3,
  channels w = Ok (fd1, fd2, fd3) w3 ∧ opens w fd1 w1 ∧ opens w1 fd2 w2 ∧ opens w2 fd3 w3.
Proof.
  unfold channels, mbind, M_bind.
  destruct (open_udp_socket_opens Application.UDP_LISTEN_PORT1 w) as (fd1 & w1 & -> & H1).
  destruct (complain_open fd1 "cannot open UDP socket" w1) as (w1' & -> & E1).
  destruct (open_udp_socket_opens Application.UDP_LISTEN_PORT2 w1') as (fd2 & w2 & -> & H2).
  destruct (complain_open fd2 "cannot open UDP socket" w2) as (w2' & -> & E2).
  destruct (open_stdin_opens w2') as (fd3 & w3 & -> & H3).
  destruct (complain_open fd3 "cannot open stdin" w3) as (w3' & -> & E3).
  exists fd1, fd2, fd3, w1, w2, w3'. unfold opens in *.
  rewrite E1 in H2. rewrite E2 in H3. rewrite E3. done.
Qed.

(** C34. The channels that main hands to the scheduler are pairwise different
    descriptors, open and not open before, provided that [fcntl] fails on a
    negative descriptor: the ones that could not be opened are added to no
    scheduler although main tries. *)
Theorem main_channels_distinct `{!FdSched.OperatingSystem} w :
  (∀ fd, fd < 0 → FdSched.fcntl fd FdSched.F_SETFL FdSched.O_NONBLOCK ≠ 0) →
  ∃ fds w', channels w = Ok fds w' ∧ open w ⊆ open w' ∧
    let _ := sockets_of fds in
    NoDup Application.opened ∧ Forall (λ fd, fd ∈ open w' ∧ fd ∉ open w) Application.opened.
Proof.
  intros Hneg. destruct (channels_spec w) as (fd1 & fd2 & fd3 & w1 & w2 & w3 & Hrun & [S1 H1] & [S2 H2] & [S3 H3]).
  exists (fd1, fd2, fd3), w3. split_and!; [done|set_solver|].
  assert (∀ fd : Z, FdSched.fcntl fd FdSched.F_SETFL FdSched.O_NONBLOCK = 0 → ¬ fd < 0) as Hpos by naive_solver.
  unfold Application.opened. simpl.
  split; [|apply Forall_forall; intros fd [Hfd Hin]%list_elem_of_filter].
  - rewrite !filter_cons filter_nil. repeat case_decide; repeat constructor; set_solver.
  - apply Hpos in Hfd. set_solver.
Qed.
End io.

(** ** Byte order *)

Ltac div_mod_lia := Z.to_euclidean_division_equations; lia.

Lemma htons_eq p : htons p = 256 * (u16 p mod 256) + u16 p / 256.
Proof.
  unfold htons. change (u16 p) with (p mod 65536). change 255 with (Z.ones 8). rewrite Z.land_ones; [|lia].
  rewrite Z.shiftl_mul_pow2; [|lia]. rewrite Z.shiftr_div_pow2; [|lia].
  rewrite (Z.mul_comm _ (2 ^ 8)) lor_low; [done|lia|].
  change (2 ^ 8) with 256. div_mod_lia.
Qed.

(** The two bytes of [sin_port] in memory are those of the port number from the
    high one to the low one; of a number outside of 16 bits the upper bits are
    lost. *)
Lemma htons_bytes p :
  (htons p) mod 256 = p / 256 mod 256 ∧ (htons p) / 256 = p mod 256.
Proof.
  rewrite htons_eq. change (u16 p) with (p mod 65536).
  assert (p mod 65536 / 256 = p / 256 mod 256) as -> by div_mod_lia.
  assert (p mod 65536 mod 256 = p mod 256) as -> by div_mod_lia.
  split; div_mod_lia.
Qed.

(** ** An operating system with a table of descriptors *)

#[local] Instance linux : Headers := {|
  AF_INET := 2; SOCK_DGRAM := 2; IPPROTO_UDP := 17; INADDR_ANY := 0; STDIN_FILENO := 0;
|}.

(** A descriptor is taken if its number is free and below the limit; a port that
    is in use cannot be bound. *)
Record table := Table { limit : Z; fds : gmap Z (option sockaddr_in); output : list string }.

Definition new_fd (t : table) : option Z :=
  let r := Z.of_nat (size (fds t)) in
  if decide (fds t !! r = None ∧ r < limit t ∧ r < 2 ^ 31) then Some r else None.
Definition take (t : table) : Z * table :=
  match new_fd t with
  | Some r => (r, Table (limit t) (<[r := None]> (fds t)) (output t))
  | None => (-1, t)
  end.
Definition in_use (a : sockaddr_in) (t : table) : Prop :=
  map_Exists (λ _ b, sin_port <$> b = Some (sin_port a)) (fds t).
#[local] Instance in_use_dec a t : Decision (in_use a t).
Proof. apply _. Defined.

Definition table_bind (fd : Z) (a : sockaddr_in) : M table Z := λ t,
  if decide (is_Some (fds t !! fd) ∧ ¬ in_use a t)
  then Ok 0 (Table (limit t) (<[fd := Some a]> (fds t)) (output t)) else Ok (-1) t.

Lemma take_law t : ∃ r t', take t = (r, t') ∧ omap id (fds t') = omap id (fds t) ∧ output t' = output t ∧
  ((r = -1 ∧ dom (fds t') = dom (fds t)) ∨
   (0 ≤ r < 2 ^ 31 ∧ r ∉ dom (fds t) ∧ omap id (fds t) !! r = None ∧ dom (fds t') = {[r]} ∪ dom (fds t))).
Proof.
  unfold take, new_fd. case_decide as Hok; [|exists (-1), t; naive_solver].
  destruct Hok as (Hn & ? & ?). eexists _, _. split; [done|]. simpl.
  assert (omap id (fds t) !! Z.of_nat (size (fds t)) = None) as Ho by by rewrite lookup_omap Hn.
  split_and!; [|done|right; split_and!; [lia|lia|by apply not_elem_of_dom|done|by rewrite dom_insert_L]].
  rewrite omap_insert_None //. by rewrite delete_id.
Qed.

#[local] Program Instance table_posix : Posix table := {
  socket _ _ _ t := let '(r, t') := take t in Ok r t';
  bind := table_bind;
  dup fd t := if decide (is_Some (fds t !! fd)) then let '(r, t') := take t in Ok r t' else Ok (-1) t;
  perror s t := Ok tt (Table (limit t) (fds t) (output t ++ [s]));
  open t := dom (fds t);
  bound t := omap id (fds t);
  stderr := output;
}.
Next Obligation. intros ? ? ? t. destruct (take_law t) as (r & t' & -> & ?). by eexists _, _. Qed.
Next Obligation.
  intros fd a t. unfold table_bind. case_decide as Hok; eexists _, _; (split; [done|]); simpl; [|naive_solver].
  destruct Hok as [Hd _]. split_and!; [|done|right; split; [done|]].
  - apply dom_insert_lookup_L, Hd.
  - by rewrite (omap_insert_Some id _ _ _ a).
Qed.
Next Obligation.
  intros fd t. simpl. case_decide as Hd; [|exists (-1), t; naive_solver].
  destruct (take_law t) as (r & t' & -> & ? & ? & Hr). exists r, t'. split_and!; [done..|].
  rewrite elem_of_dom. naive_solver.
Qed.
Next Obligation. intros s t. by eexists. Qed.

(** One free descriptor, and the port of the first channel in use. *)
Definition busy : table :=
  Table 4 {[ 0 := None; 1 := None; 2 := Some (address Application.UDP_LISTEN_PORT1) ]} [].

#[local] Instance rejects_negative : FdSched.OperatingSystem.
Proof. by refine {| FdSched.EWOULDBLOCK := 11; FdSched.EAGAIN := 11;
  FdSched.fcntl := λ fd _ _, if fd <? 0 then -1 else 0; FdSched.read_result := λ _ _, inr 11 |}. Defined.

Lemma open_udp_socket_outcomes_witness :
  open_udp_socket Application.UDP_LISTEN_PORT1 busy =
    Ok (-1) (Table 4 (<[3 := None]> (fds busy)) ["binding to port"%string]) ∧
  ∃ r w', open_udp_socket Application.UDP_LISTEN_PORT1 busy = Ok r w' ∧
    outcome Application.UDP_LISTEN_PORT1 busy r w'.
Proof. split; [by vm_compute|apply open_udp_socket_outcomes]. Defined.

Lemma main_channels_distinct_witness :
  (∃ w', channels (Table 6 (fds busy) []) = Ok (-1, 4, 5) w') ∧
  ∃ fds w', channels busy = Ok fds w' ∧ open busy ⊆ open w' ∧
    let _ := sockets_of fds in
    NoDup Application.opened ∧ Forall (λ fd, fd ∈ open w' ∧ fd ∉ open busy) Application.opened.
Proof.
  split; [eexists; by vm_compute|]. apply main_channels_distinct.
  intros fd Hfd. simpl. by rewrite (proj2 (Z.ltb_lt fd 0)).
Defined.

End Sockets.
