(* ===== verification/Stubs.v ===== *)
(** * The C stub of the frontend (src/frontend/stubs.c)

    [c_realpath] makes [realpath] of the C library available to the OCaml code
    of the frontend.  The C library and the OCaml runtime are parameters: what
    is said of them is their documentation, about the blocks that [malloc] gave
    out and that were not freed ([allocated]) and the C strings in them. *)
From S2P Require Import Prelude.
From stdpp Require Import gmap list strings.
From iris.prelude Require Import prelude.
#[local] Open Scope Z_scope.

Module Stubs.

(** An OCaml string is a sequence of bytes; as a C string it ends at its first
    zero byte. *)
Definition bytes := list Z.
Fixpoint c_string (bs : bytes) : bytes :=
  match bs with
  | [] => []
  | b :: bs => if b =? 0 then [] else b :: c_string bs
  end.

(** The errors of [realpath]. *)
Class Errno := {
  EACCES : Z; EINVAL : Z; EIO : Z; ELOOP : Z; ENAMETOOLONG : Z; ENOENT : Z; ENOMEM : Z; ENOTDIR : Z;
  errno_distinct : NoDup [EACCES; EINVAL; EIO; ELOOP; ENAMETOOLONG; ENOENT; ENOMEM; ENOTDIR];
}.

(** What a primitive does: it returns a value or raises an exception. *)
Inductive primitive (A : Type) := Value (a : A) | Invalid_argument (msg : string) | Out_of_memory.
Arguments Value {_}. Arguments Invalid_argument {_}. Arguments Out_of_memory {_}.

Class Runtime (os : Type) := {
  realpath : bytes → M os (option Z);
  caml_copy_string : Z → M os (primitive bytes);
  free : Z → M os unit;

  errno : os → Z;
  allocated : os → gmap Z bytes;
  resolve : os → bytes → bytes + Z;  (* the absolute path, or an error *)

  realpath_law path w : ∃ r w',
    realpath path w = Ok r w' ∧
    match resolve w path with
    | inl abs => ∃ p, r = Some p ∧ allocated w !! p = None ∧ allocated w' = <[p := abs]> (allocated w)
    | inr e => r = None ∧ errno w' = e ∧ allocated w' = allocated w
    end;
  caml_copy_string_law p s w : allocated w !! p = Some s → ∃ r w',
    caml_copy_string p w = Ok r w' ∧ allocated w' = allocated w ∧ (r = Value s ∨ r = Out_of_memory);
  free_law p w : is_Some (allocated w !! p) → ∃ w', free p w = Ok tt w' ∧ allocated w' = delete p (allocated w);
}.

Section realpath.
Context `{!Errno} {os : Type} `{!Runtime os}.

Definition get_errno : M os Z := λ w, Ok (errno w) w.

(** The [switch] on [errno]; [caml_invalid_argument] does not return. *)
Definition message_of (e : Z) : string :=
  if e =? EACCES then "Extra.Filename.realpath (EACCESS)"
  else if e =? EINVAL then "Extra.Filename.realpath (EINVAL)"
  else if e =? EIO then "Extra.Filename.realpath (EIO)"
  else if e =? ELOOP then "Extra.Filename.realpath (ELOOP)"
  else if e =? ENAMETOOLONG then "Extra.Filename.realpath (ENAMETOOLONG)"
  else if e =? ENOENT then "Extra.Filename.realpath (ENOENT)"
  else if e =? ENOMEM then "Extra.Filename.realpath (ENOMEM)"
  else if e =? ENOTDIR then "Extra.Filename.realpath (ENOTDIR)"
  else "Extra.Filename.realpath (unknown)".

Definition c_realpath (v : bytes) : M os (primitive bytes) :=
  let input_path := c_string v in
  output_path ← realpath input_path;
  match output_path with
  | None =>
      e ← get_errno;
      mret (Invalid_argument (message_of e))
  | Some output_path =>
      res ← caml_copy_string output_path;
      match res with
      | Value res =>
          free output_path ;;
          mret (Value res)
      | _ => mret res
      end
  end.

(** [c_realpath] returns the absolute path of its argument, cut at the first
    zero byte, or raises [Invalid_argument] with the message of the error, and
    in both cases leaves no block behind.  Only when the runtime has no memory
    for the result is the buffer of [realpath] lost. *)
Theorem c_realpath_outcomes v w :
  ∃ r w', c_realpath v w = Ok r w' ∧
    match resolve w (c_string v) with
    | inl abs =>
        (r = Value abs ∧ allocated w' = allocated w) ∨
        (r = Out_of_memory ∧ ∃ p, allocated w !! p = None ∧ allocated w' = <[p := abs]> (allocated w))
    | inr e => r = Invalid_argument (message_of e) ∧ allocated w' = allocated w
    end.
Proof.
  unfold c_realpath, get_errno, mbind, M_bind.
  destruct (realpath_law (c_string v) w) as (r & w1 & -> & Hr).
  destruct (resolve w (c_string v)) as [abs|e].
  - destruct Hr as (p & -> & Hn & Ha).
    destruct (caml_copy_string_law p abs w1) as (r & w2 & -> & Ha' & Hr); [by rewrite Ha lookup_insert_eq|].
    destruct Hr as [-> | ->].
    + destruct (free_law p w2) as (w3 & -> & Ha''); [rewrite Ha' Ha lookup_insert_eq; eauto|].
      eexists _, _. split; [done|left]. split; [done|].
      by rewrite Ha'' Ha' Ha delete_insert_eq delete_id.
    + eexists _, _. split; [done|right]. split; [done|]. exists p. by rewrite Ha'.
  - destruct Hr as (-> & -> & Ha). by eexists _, _.
Qed.

(** The message tells the errors of [realpath] apart. *)
Lemma message_of_inj e1 e2 :
  e1 ∈ [EACCES; EINVAL; EIO; ELOOP; ENAMETOOLONG; ENOENT; ENOMEM; ENOTDIR] →
  message_of e1 = message_of e2 → e1 = e2.
Proof.
  intros Hin Heq. unfold message_of in Heq. rewrite !elem_of_cons elem_of_nil in Hin.
  repeat (case_match; [match goal with E : (_ =? _) = true |- _ => apply Z.eqb_eq in E end; subst|]);
    try congruence; try done.
  all: repeat match goal with E : (_ =? _) = false |- _ => apply Z.eqb_neq in E end; naive_solver.
Qed.
End realpath.

Lemma c_string_no_zero bs : 0 ∉ c_string bs.
Proof.
  induction bs as [|b bs IH]; simpl; [set_solver|].
  destruct (Z.eqb_spec b 0); set_solver.
Qed.

(** ** A file system with one file *)

#[local] Program Instance linux : Errno := {|
  EACCES := 13; EINVAL := 22; EIO := 5; ELOOP := 40; ENAMETOOLONG := 36; ENOENT := 2; ENOMEM := 12;
  ENOTDIR := 20;
|}.
Next Obligation. by apply (bool_decide_unpack _). Qed.

Record files := Files { last_error : Z; blocks : gmap Z bytes }.
Definition lookup_path (path : bytes) : bytes + Z := if decide (path = [97]) then inl [47; 97] else inr ENOENT.

#[local] Program Instance file_runtime : Runtime files := {
  realpath path w :=
    match lookup_path path with
    | inl abs =>
        let p := fresh (dom (blocks w)) in Ok (Some p) (Files (last_error w) (<[p := abs]> (blocks w)))
    | inr e => Ok None (Files e (blocks w))
    end;
  caml_copy_string p w :=
    match blocks w !! p with Some s => Ok (Value s) w | None => Err UndefinedBehaviour end;
  free p w :=
    match blocks w !! p with
    | Some _ => Ok tt (Files (last_error w) (delete p (blocks w)))
    | None => Err UndefinedBehaviour
    end;
  errno := last_error;
  allocated := blocks;
  resolve _ := lookup_path;
}.
Next Obligation.
  intros path w. simpl. destruct (lookup_path path) as [abs|e]; eexists _, _; (split; [done|]); [|done].
  eexists. split_and!; [done| |done]. apply not_elem_of_dom, is_fresh.
Qed.
Next Obligation. intros p s w Hp. simpl in *. rewrite Hp. eexists _, _. auto. Qed.
Next Obligation. intros p w [s Hp]. simpl in *. rewrite Hp. by eexists. Qed.

(** ["a\000b"] resolves as ["a"], ["b"] does not exist. *)
Lemma c_realpath_outcomes_witness :
  c_realpath [97; 0; 98] (Files 0 ∅) = Ok (Value [47; 97]) (Files 0 ∅) ∧
  ∃ r w', c_realpath [98] (Files 0 ∅) = Ok r w' ∧
    r = Invalid_argument "Extra.Filename.realpath (ENOENT)" ∧ allocated w' = ∅.
Proof.
  split; [by vm_compute|]. destruct (c_realpath_outcomes [98] (Files 0 ∅)) as (r & w' & Hrun & Hr).
  exists r, w'. split; [done|]. by cbn in Hr.
Defined.

End Stubs.
